(* ===== verification/_CoqProject ===== *)
-Q . S2P
Prelude.v
Chain.v
MemoryManager.v
FirstFit.v
Buddy.v
Queue.v
Strings.v
Arrays.v
Monad.v
KState.v
KQueue.v
Scheduler.v
SchedulerFacts.v
Sem.v
SemFacts.v
SemSpec.v
Pipe.v
PipeFacts.v
Processes.v
ProcessFacts.v
PriorityHang.v
FontData.v
Video.v
Console.v
ConsoleSpec.v
Machine.v
Keyboard.v
KeyboardFacts.v
Fd.v
Syscalls.v
SyscallFacts.v
Numerals.v
Lib.v
Boot.v
BootFacts.v
BootRun.v
UserString.v
UserStdio.v
Loader.v
Libsys.v
Commands.v
CommandFacts.v
Shell.v
ShellFacts.v
ShellRun.v
SortedList.v
Acts.v
MVar.v
MVarFacts.v
MVarSpec.v
TestUtil.v
TestSync.v
TestSyncFacts.v
Ps.v
ProgramHeap.v
ShellHeap.v
TestMm.v
TestProcesses.v
