(* ===== verification/Prelude.v ===== *)
(** * TP2-SO: a verified model of the kernel and of its programs

    The program is a small 64-bit teaching kernel ([src/TP2-SO-2025/Kernel])
    with preemptive priority scheduling, named semaphores, pipes, two
    interchangeable allocators, a graphic console, a keyboard and a user
    shell with its commands.  This library models the kernel and the programs
    in Rocq, close to the C text, and proves what makes each part correct.
    Paths below are relative to [src/TP2-SO-2025/Kernel/] unless they start
    with [Userland/] or [Toolchain/].

    ** The parts and how they meet

    - [memory/first_fit_mm.c] and [memory/buddy_system_mm.c] manage the heap;
      the build takes one of them.  Every other part allocates through
      [include/memory_manager.h].
    - [datastructures/queue.c] and [array.c] are the containers of the kernel:
      ready queues, blocked queues, the registry of semaphores, the table of
      queues and the table of pipes.
    - [scheduler.c] picks the process to run at every timer interrupt, blocks
      and unblocks processes.
    - [sem.c] builds named counting semaphores on queues and on
      [block_process]/[unblock_process]; [pipe.c] builds byte pipes on
      semaphores; [process.c] creates, kills and waits for processes with all
      of them.
    - [drivers/video.c] draws on the frame buffer; [fonts.c] is the console on
      it.  [drivers/keyboard.c] turns scan codes into the input ring, echoes
      on the console, and makes readers wait on a semaphore.
    - [fd.c] routes reads and writes of a process to keyboard, console and
      pipes.  [idt/syscallDispatcher.c] and [idt/irqDispatcher.c] enter the
      kernel; [idt/exceptionDispatcher.c] reports faults.
    - [kernel.c] starts everything; [moduleLoader.c] unpacks the image that
      [Toolchain/ModulePacker] builds.
    - The programs of [Userland/] use the C library of [Userland/libc] and the
      wrappers of [Userland/libsys], which reach the kernel through the system
      calls.  [Userland/Shell/shell.c] reads lines, cuts them into commands
      and starts a process or a pipeline of two for each line;
      [Userland/Shell/commands] holds the commands, among them a demonstration
      of a shared variable ([mvar.c]) and the tests of the kernel.

    ** Files

    - [Prelude]: machine words and the [words] hints.  [Chain]: linked segments over field maps.
    - [MemoryManager]: the allocator's interface, a class with its laws stated
      with a ghost map of live blocks.  [FirstFit]: [first_fit_mm.c] as two
      field maps ([s.ptr], [s.size]) and the file's statics, the ring of free
      blocks as a layout of the region, and the instance of the class.
      [Buddy]: [buddy_system_mm.c] as the heads, the [next] and the [order]
      fields, a tiling of the region by blocks, and the second instance.
    - [Queue]: [queue.c] as operations on the list of nodes, and in
      [Queue.Concrete] pointer by pointer, with simulations between the two.
      [Arrays]: [array.c].  [Strings]: [strings.c] over byte memory.
    - [Monad]: the execution monad [K] of kernel calls, with outcomes for
      giving up the CPU, [panic()], invalid memory accesses and loops that do
      not end; the predicate [wp] to reason about it; equality of computations
      [res_equiv].  [KState]: the kernel's structures ([process.h], [sem.h],
      [pipe.c]), the globals of its files, and every heap object by kind.
      [KQueue]: the container operations in the kernel state.
    - [Scheduler], [SchedulerFacts]: [scheduler.c].  [Sem], [SemFacts],
      [SemSpec]: [sem.c] and [asm/sem.asm], and the abstract counting
      semaphore that waiting and posting refine.  [Pipe], [PipeFacts]: [pipe.c].
      [Processes], [ProcessFacts]: [process.c], [init_scheduler] and
      [stackInit] of [asm/libasm.asm].  [PriorityHang]: how the defect of
      [set_priority] stops the scheduler.
    - [FontData]: the glyphs of [include/font_basic_8x8.h].  [Video]:
      [drivers/video.c] on a byte map.  [Console]: [fonts.c]; the statics are
      the record [screen].  [ConsoleSpec]: the page of pixels the console
      implements.  [Numerals]: its printing of numbers.
    - [Machine]: kernel, console, keyboard, clock, the memory of the calling
      program and a log of port writes in one record; [in_kernel], [on_screen]
      and [on_kbd] run a component's operation on it.
    - [Keyboard], [KeyboardFacts]: [drivers/keyboard.c].  [Fd], [Syscalls],
      [SyscallFacts]: [fd.c], [idt/syscallDispatcher.c], [shared_mvar.c],
      [drivers/time.c], [drivers/sound.c], [cursor.c], [idt/irqDispatcher.c].
    - [Lib]: [lib.c], [moduleLoader.c] and [Toolchain/ModulePacker/main.c].
      [Boot], [BootFacts]: [kernel.c], [idt/idtLoader.c] and
      [idt/exceptionDispatcher.c]; [BootRun]: the run of [main].
    - [UserString]: [Userland/libc/string.c] and [stdlib.c].  [UserStdio]:
      [Userland/libc/stdio.c] and [Userland/libsys/ansiColors.c]; a program
      is its memory, the answers its reads will get, and the list of the
      system calls it made.  [Loader]: [Userland/Shell/_loader.c].
    - [Libsys]: [Userland/libsys/libsys.c].  The class [Kernel] is what a
      program knows of the kernel: a function from the calls made before, the
      number, the registers and the memory to an answer and a memory.
    - [Commands], [CommandFacts]: the table of commands and the commands that
      only use the C library.  [Ps]: [Userland/Shell/commands/ps.c], with the
      predicate [displays] for programs that print.
    - [Shell], [ShellFacts], [ShellRun]: [Userland/Shell/shell.c]; the parser
      against a grammar on tokens, and whole lines against the calls they
      make.  What both need of an allocator is the record [heap_ok].
      [ProgramHeap] proves that record of the first-fit allocator behind
      [sys_malloc] and [sys_free]; [ShellHeap] runs lines of the shell on the
      heap [main] sets up.
    - [Acts]: programs as trees of calls.  [MVar], [MVarFacts], [MVarSpec]:
      [Userland/Shell/commands/mvar.c], writers and readers as trees,
      interleaved over two semaphores and the shared cell.  [TestSync],
      [TestSyncFacts]: [test_sync.c] in the same way.
    - [TestUtil]: [test_util.c], with its floating-point scaling computed
      exactly.  [TestMm]: [test_mm.c].  [TestProcesses]: [test_processes.c]
      and [test_prio.c], with the predicate [acts] for the calls a program
      makes apart from what it prints.
    - [SortedList]: [datastructures/list.c], on the heap of [Queue.Concrete];
      the kernel does not use it.

    A C function keeps its name; the loops of a function are separate
    fixpoints named after it ([aging_loop] in [apply_aging], [read_loop] in
    [readPipe], and so on).  A pointer is a [Z]; [NULL] is 0.

    ** What the theorems show

    - Allocators: allocation, release and the statistics against a layout
      (first fit) or a tiling (buddy) of the region; blocks are disjoint,
      releasing joins neighbours or buddies; the buddy invariant over every
      sequence of calls, and exactly which requests make it loop for ever.
    - Queue, array and sorted list: the linked implementations refine
      operations on lists; the sorted list stays strictly sorted.
    - Scheduler: [schedule] refines an abstract scheduler on lists of ready
      processes ([abs_schedule]); it runs a process of the highest priority,
      loses no READY process, and all its loops end when the invariant
      [sched_inv] holds (every queued PCB is READY and queued at its own
      priority).  Blocking and unblocking move exactly one process.
    - Semaphores: the invariant [sem_inv] of the registry; waiting takes a unit
      or queues the caller and gives up the CPU, posting adds a unit or wakes
      the oldest waiter, opening finds or creates (what it creates is decided
      by the allocations that are granted), anything unregistered is
      rejected.  [semWait_refines] and [semPost_refines] relate both to the
      abstract semaphore ([take], [give]) that [MVar] and [TestSync] use.
    - Pipes: the ring is a bounded FIFO of bytes; reads return what was
      written; readers block on an empty pipe and writers wake them.
    - Screen: scrolling in place equals redrawing from a copy; a character is
      drawn exactly in its cell; printing ASCII text is typing on an abstract
      page ([type_text]), pixel by pixel, writes no byte outside the visible
      pixels and keeps the cursor well formed ([console_ok]).  Numbers are
      written in the digits that denote them.
    - Keyboard: an interrupt appends, echoes and wakes the reader that is
      blocked, or leaves a unit for the next one (every printable key but the
      tabulator, which types several characters); a reader takes the oldest
      character; special keys survive clearing and restoring; the
      defects of the full test, of tabulators and of F12.
    - System calls: bytes travel from one process's memory through a pipe to
      another's; writing to the terminal is [putChars]; [sys_exec] restores
      what it saved; unknown numbers do nothing; the defects of redirection.
    - Images: the two branches of [memcpy] agree; what the packer packs the
      loader unpacks.
    - C library: [strtok] gives the pieces of a string; [itoa] and [atoi] are
      inverse; a format prints what its pieces stand for and [sscanf] reads
      numbers back; the defects of escapes, of [%s] with conversions in the
      string, and of [%s] in [sscanf].
    - Shell: the parser ends with the commands of the reference grammar
      ([line_spec]), every argument copied to a block of its own; a line of one
      command and a pipeline make exactly the calls given by [single_calls] and
      [pipeline_calls], release only blocks that are live, and leak only the
      block of a final [&].  The blocks for a line take at most 2^28 + 2^11
      bytes ([need_line]), which the heap of the kernel (506 MiB) can grant;
      [ShellHeap] has lines that run on it.
    - The heap of the programs: [first_fit_heap] discharges [heap_ok] for the
      first-fit allocator, whatever the kernel requests meanwhile.  The buddy
      allocator does not satisfy it: a request may halve its largest block.
    - Commands: [filter], [cat], [wc] and [nice] from their input to their
      calls; [ps] prints the table of a reference built column by column.
    - Shared variable: in every interleaving the readers take what the writers
      stored, once and in order, and another value can always be delivered.
    - Tests of the kernel: [test_sync] ends at 0 in every interleaving with
      the semaphore, every run is finite and none is stuck, and without the
      semaphore (or when a wait is refused) a run that loses an increment is
      shown; a round of [test_mm] on any heap with [heap_ok] finds every block
      as it filled it and releases them all; its random sizes are below their
      bound for either precision of the coprocessor; a pass of
      [test_processes] acts only on processes in a state that allows it;
      [test_prio] makes the calls of its three stages.
    - Start-up: the gates of the interrupt table, the place of the heap, the
      exception report, and the run of [main] to the first process with either
      allocator, whatever unwritten memory holds: it ends in the switch to
      [init] or, when the [child_count] nobody initialised reads negative in
      the PCB of the idle process, in a write outside that PCB.
    - Processes: pid assignment, [ps], adoption of orphans, the children list,
      stack frames and semaphore names; and two theorems on a real defect:
      [set_priority] on a queued process breaks the scheduler's invariant, and
      a ready queue without READY entries makes [apply_aging] loop for ever.
      [PriorityHang] puts them together: from any state of the scheduler with
      a process alone at its level, changing its priority and blocking it
      leaves a state in which [schedule] does not return for any fuel.

    ** Conventions, fuel and bounds

    - Integers are [Z]; a wrap is written where the C type can overflow
      ([u16] for semaphore values, [u64] for addresses, [i32] for [int], such
      as the products [y * pitch] of the loops over the whole screen).
    - A loop that is not structural takes fuel.  [ff_fuel] is the number of
      headers plus one; [aging_fuel] covers the rounds until every READY entry
      is boosted (a loop that runs out really does not end, which
      [aging_never_ends] shows for all fuel); [read_fuel] is the size of a
      ring plus one; [child_fuel] is the number of children plus one, after
      which the C code would read outside the PCB.  A buddy list is walked
      with [bd_fuel], the number of blocks plus one, and the orders with 17 to
      54 rounds, the widths of the words involved.  Waits (a reader for input,
      a sleep for ticks, the exception screen for a key) take their number of
      rounds as an argument, since only interrupts end them.  Proofs show that fuel
      suffices wherever the loop ends.
    - A context switch is explicit: [_force_scheduler_interrupt] runs
      [schedule] on the stack pointer the interrupt saves; if another process
      is chosen the call becomes [Switch s k], where [k] continues in any
      later state the scheduler resumes it in.  Timer interrupts in the middle
      of a kernel call are not modelled: system calls run with interrupts
      masked except where the code itself enables them.
    - Heap objects are typed: reading a freed or foreign object is the outcome
      [Undefined].  What a fresh block holds before it is initialised is part
      of the state ([k_dirt]), so the code's uses of uninitialised fields are
      visible.
    - A spin lock that is taken is never released while the caller spins (one
      core), so taking it again is [Diverges].

    ** What is not modelled

    The boot loader and its disk-image tool ([Bootloader/], code of others),
    and the assembly of the interrupt stubs and of the entry points.  A
    program runs between two of its system calls without being observed: the
    interleavings of [MVar] and [TestSync] are of calls and of accesses to the
    shared variable.  The random numbers of the tests are those of their
    generator, but loops that end only with luck ([test_processes]) and loops
    without an end ([test_mm], [loop]) take their number of rounds as an
    argument, and the theorems are about a round.  The
    register frame an interrupt pushes is represented by its stack pointer
    only, so the assembly stubs are modelled by what they do to the state the
    C code sees: saving [rsp], switching, halting ([_hlt] gives up the CPU and
    goes on after an interrupt), reading the clock chip, the [cli]/[sti]
    flag.  Programs run by [sys_exec], handlers of special keys and the code
    of processes are arguments: any computation on the machine. *)

From stdpp Require Export base gmap list numbers strings sorting.

#[export] Set Default Goal Selector "!".
Open Scope Z_scope.

(** ** Machine words

    Integers are [Z]; a [w]-bit value is kept in range by an explicit
    wrap, written where the C type forces one. *)

Definition wrapu (w z : Z) : Z := z mod 2 ^ w.
Definition wraps (w z : Z) : Z := (z + 2 ^ (w - 1)) mod 2 ^ w - 2 ^ (w - 1).

Abbreviation u8 := (wrapu 8).
Abbreviation u16 := (wrapu 16).
Abbreviation u32 := (wrapu 32).
Abbreviation u64 := (wrapu 64).
Abbreviation i8 := (wraps 8).
Abbreviation i32 := (wraps 32).
Abbreviation i64 := (wraps 64).

(** The C null pointer and the conventional result codes. *)
Abbreviation NULL := 0 (only parsing).

Lemma wrapu_small w z : 0 ≤ z < 2 ^ w → wrapu w z = z.
Proof. apply Z.mod_small. Qed.

Lemma wrapu_range w z : 0 ≤ w → 0 ≤ wrapu w z < 2 ^ w.
Proof. intros. apply Z.mod_pos_bound. lia. Qed.

Lemma wraps_small w z : 0 < w → - 2 ^ (w - 1) ≤ z < 2 ^ (w - 1) → wraps w z = z.
Proof.
  intros Hw Hz. unfold wraps.
  assert (2 ^ w = 2 * 2 ^ (w - 1)) as E
    by (rewrite <-Z.pow_succ_r by lia; f_equal; lia).
  rewrite Z.mod_small; lia.
Qed.

(** Take away the wraps of values that are in range. *)
Create Rewrite HintDb words.
#[export] Hint Rewrite wrapu_small wraps_small using lia : words.
Ltac no_wrap := autorewrite with words.

(** ** Sums over lists *)

Definition zsum {A} (f : A → Z) (l : list A) : Z := foldr (λ x acc, f x + acc) 0 l.

Section sums.
Context {A : Type} (f : A → Z).
Implicit Types (l : list A).

Lemma zsum_cons x l : zsum f (x :: l) = f x + zsum f l.
Proof. done. Qed.
Lemma zsum_app l1 l2 : zsum f (l1 ++ l2) = zsum f l1 + zsum f l2.
Proof. induction l1 as [|x l1 IH]; [done|]. cbn [app]. rewrite !zsum_cons, IH. lia. Qed.
Lemma zsum_middle l j x : l !! j = Some x →
  zsum f l = zsum f (take j l) + (f x + zsum f (drop (S j) l)).
Proof. intros Hj. by rewrite <-zsum_cons, <-zsum_app, take_drop_middle. Qed.

Lemma zsum_insert l j x y : l !! j = Some x → zsum f (<[j := y]> l) = zsum f l - f x + f y.
Proof.
  intros Hj. rewrite (zsum_middle l j x Hj). apply lookup_lt_Some in Hj.
  rewrite insert_take_drop, zsum_app, zsum_cons by done. lia.
Qed.

Lemma zsum_nonneg l : (∀ y, 0 ≤ f y) → 0 ≤ zsum f l.
Proof. intros Hf. induction l as [|x l IH]; [done|]. rewrite zsum_cons. pose proof (Hf x). lia. Qed.

Lemma zsum_lookup l j x : (∀ y, 0 ≤ f y) → l !! j = Some x → f x ≤ zsum f l.
Proof.
  intros Hf Hj. rewrite (zsum_middle l j x Hj). pose proof (zsum_nonneg (take j l) Hf).
  pose proof (zsum_nonneg (drop (S j) l) Hf). lia.
Qed.

(** At most one element counts. *)
Lemma zsum_unique l i j x y : (∀ y, 0 ≤ f y) → zsum f l ≤ 1 → l !! i = Some x → l !! j = Some y →
  f x = 1 → f y = 1 → i = j.
Proof.
  intros Hf Hl Hi Hj Hx Hy. destruct (decide (i = j)) as [|Hne]; [done|exfalso].
  rewrite (zsum_middle l i x Hi) in Hl.
  pose proof (zsum_nonneg (take i l) Hf). pose proof (zsum_nonneg (drop (S i) l) Hf).
  destruct (decide (j < i)%nat).
  - assert (take i l !! j = Some y) as Hj' by (by rewrite lookup_take_lt).
    pose proof (zsum_lookup _ _ _ Hf Hj'). lia.
  - assert (drop (S i) l !! (j - S i)%nat = Some y) as Hj'
      by (rewrite lookup_drop; by replace (S i + (j - S i))%nat with j by lia).
    pose proof (zsum_lookup _ _ _ Hf Hj'). lia.
Qed.
End sums.

(** ** Wrapping only depends on the residue *)

Lemma wraps_add w k z : 0 ≤ w → wraps w (z + k * 2 ^ w) = wraps w z.
Proof.
  intros Hw. unfold wraps. replace (z + k * 2 ^ w + 2 ^ (w - 1)) with (z + 2 ^ (w - 1) + k * 2 ^ w) by lia.
  rewrite Z.mod_add; [done|]. apply Z.pow_nonzero; lia.
Qed.
Lemma wrapu_eq w z : 0 ≤ w → ∃ k, wrapu w z = z + k * 2 ^ w.
Proof.
  intros Hw. exists (- (z / 2 ^ w)). unfold wrapu. rewrite Z.mod_eq; [lia|]. apply Z.pow_nonzero; lia.
Qed.
Lemma wraps_eq w z : 0 ≤ w → ∃ k, wraps w z = z + k * 2 ^ w.
Proof.
  intros Hw. exists (- ((z + 2 ^ (w - 1)) / 2 ^ w)). unfold wraps.
  rewrite Z.mod_eq; [lia|]. apply Z.pow_nonzero; lia.
Qed.
