(* ===== verification/Chain.v ===== *)
(** * Linked segments over field maps

    The C structures of the kernel that carry a [next] (or [s.ptr]) field
    are kept as one finite map per field, from the address of the structure
    to the value of the field.  [lseg nx x l y] says that following the
    field map [nx] from the pointer [x] visits exactly the structures at the
    addresses [l], in that order, and then reaches the pointer [y]: a
    NULL-terminated list is [lseg nx head l NULL], a ring through [b] is
    [lseg nx b (b :: l) b].  The lemmas here are the only facts about
    pointer chasing used by the allocators, the queue and the list. *)

From S2P Require Import Prelude.

Fixpoint lseg (nx : gmap Z Z) (x : Z) (l : list Z) (y : Z) : Prop :=
  match l with
  | [] => x = y
  | a :: l' => x = a ∧ ∃ n, nx !! a = Some n ∧ lseg nx n l' y
  end.

Section lseg.
Implicit Types (nx : gmap Z Z) (l : list Z).

Lemma lseg_app nx l1 : ∀ l2 x y,
  lseg nx x (l1 ++ l2) y ↔ ∃ z, lseg nx x l1 z ∧ lseg nx z l2 y.
Proof.
  induction l1 as [|a l1 IH]; intros l2 x y; simpl.
  - split; [eauto|]. by intros (z & -> & ?).
  - split.
    + intros (-> & n & Hn & (z & ? & ?)%IH). eauto 8.
    + intros (z & (-> & n & ? & ?) & ?). split; [done|].
      exists n. split; [done|]. apply IH. eauto.
Qed.

(** Splitting at, and rebuilding around, one node. *)
Lemma lseg_middle nx l1 a l2 x y :
  lseg nx x (l1 ++ a :: l2) y ↔
  lseg nx x l1 a ∧ ∃ n, nx !! a = Some n ∧ lseg nx n l2 y.
Proof.
  rewrite lseg_app. simpl. split.
  - intros (z & ? & -> & ?). eauto.
  - intros (? & ?). eauto.
Qed.

Lemma lseg_snoc nx l a x y :
  lseg nx x (l ++ [a]) y ↔ lseg nx x l a ∧ nx !! a = Some y.
Proof.
  rewrite lseg_middle. simpl. split.
  - by intros (? & n & ? & <-).
  - intros (? & ?). eauto.
Qed.

Lemma lseg_frame nx l : ∀ x y a v,
  a ∉ l → lseg nx x l y → lseg (<[a:=v]> nx) x l y.
Proof.
  induction l as [|b l IH]; intros x y a v Ha; simpl; [done|].
  intros (-> & n & Hn & Hl).
  apply not_elem_of_cons in Ha as [??]. split; [done|].
  exists n. rewrite lookup_insert_ne by done. split; [done|]. by apply IH.
Qed.

Lemma lseg_frame_delete nx l : ∀ x y a,
  a ∉ l → lseg nx x l y → lseg (delete a nx) x l y.
Proof.
  induction l as [|b l IH]; intros x y a Ha; simpl; [done|].
  intros (-> & n & Hn & Hl).
  apply not_elem_of_cons in Ha as [??]. split; [done|].
  exists n. rewrite lookup_delete_ne by done. split; [done|]. by apply IH.
Qed.

(** Redirecting the last node of a segment. *)
Lemma lseg_snoc_set nx l a x y v :
  a ∉ l → lseg nx x (l ++ [a]) y → lseg (<[a:=v]> nx) x (l ++ [a]) v.
Proof.
  intros Ha [Hl _]%lseg_snoc. apply lseg_snoc. split.
  - by apply lseg_frame.
  - apply lookup_insert_eq.
Qed.

(** A ring can be entered at any of its nodes. *)
Lemma lseg_rotate nx l1 a l2 b :
  lseg nx b (l1 ++ a :: l2) b → lseg nx a (a :: l2 ++ l1) a.
Proof.
  intros (Hl1 & n & Hn & Hl2)%lseg_middle.
  split; [done|]. exists n. split; [done|].
  apply lseg_app. eauto.
Qed.

Lemma lseg_dom nx l : ∀ x y a, lseg nx x l y → a ∈ l → is_Some (nx !! a).
Proof.
  induction l as [|b l IH]; intros x y a; simpl.
  - by intros _ ?%elem_of_nil.
  - intros (-> & n & Hn & Hl) [->|?]%elem_of_cons; [eauto|]. by eapply IH.
Qed.

Lemma lseg_head nx x l y : lseg nx x l y → x = hd y l.
Proof. destruct l; simpl; [done|]. by intros [-> _]. Qed.

(** Two descriptions of one NULL-terminated chain agree. *)
Lemma lseg_det nx l1 : ∀ l2 x y,
  y ∉ l1 → y ∉ l2 → lseg nx x l1 y → lseg nx x l2 y → l1 = l2.
Proof.
  induction l1 as [|a l1 IH]; intros [|b l2] x y; simpl; intros Hy1 Hy2.
  - done.
  - intros <- [-> _]. by apply not_elem_of_cons in Hy2 as [??].
  - intros [-> _] <-. by apply not_elem_of_cons in Hy1 as [??].
  - intros (-> & n & Hn & ?) (-> & m & Hm & ?).
    apply not_elem_of_cons in Hy1 as [??], Hy2 as [??].
    f_equal. eapply IH; [done..|]. by simplify_eq.
Qed.

(** Only the fields of the segment's own nodes matter. *)
Lemma lseg_ext nx nx' l : ∀ x y,
  (∀ a, a ∈ l → nx' !! a = nx !! a) → lseg nx x l y → lseg nx' x l y.
Proof.
  induction l as [|b l IH]; intros x y Hag; simpl; [done|].
  intros (-> & n & Hn & Hl). split; [done|]. exists n.
  rewrite Hag by set_solver. split; [done|]. apply IH; [set_solver|done].
Qed.

(** Nodes of a duplicate-free segment fit in the map's domain. *)
Lemma lseg_length nx x l y :
  NoDup l → lseg nx x l y → (length l ≤ size nx)%nat.
Proof.
  intros Hnd Hl.
  rewrite <-size_dom, <-(size_list_to_set (C:=gset Z) l) by done.
  apply subseteq_size. intros a Ha%elem_of_list_to_set.
  apply elem_of_dom. by eapply lseg_dom.
Qed.
End lseg.
