(* ===== verification/MemoryManager.v ===== *)
(** * The memory-manager interface ([include/memory_manager.h])

    The kernel is linked against one of two allocators, [first_fit_mm.c] or
    [buddy_system_mm.c], through the prototypes of [memory_manager.h].
    [MemoryManager] is that interface; [MemoryManagerOk] is what its clients
    may rely on, stated with a ghost map [B] from the address of every live
    payload to the number of bytes usable there.  [FirstFit.v] and [Buddy.v]
    prove the laws of the two implementations. *)

From S2P Require Import Prelude.

Record MemoryStats := {
  total_memory : Z;
  free_memory : Z;
  occupied_memory : Z;
}.

Class MemoryManager (St : Type) := {
  mm_alloc : St → Z → Z * St;
  mm_free : St → Z → St;
  mm_get_stats : St → MemoryStats;
}.

(** Live payloads do not overlap. *)
Definition disjoint_blocks (B : gmap Z Z) : Prop :=
  ∀ a b n m, B !! a = Some n → B !! b = Some m → a ≠ b →
    a + n ≤ b ∨ b + m ≤ a.

(** Requests the interface covers: every size the kernel asks for. *)
Definition mm_max_request : Z := 2 ^ 62.

Class MemoryManagerOk (St : Type) `{MemoryManager St} := {
  mm_inv : St → gmap Z Z → Prop;
  mm_inv_disjoint s B : mm_inv s B → disjoint_blocks B;
  mm_inv_nonnull s B a n : mm_inv s B → B !! a = Some n → 0 < a ∧ 0 < n;
  mm_alloc_zero s : mm_alloc s 0 = (NULL, s);
  mm_alloc_ok s B n :
    mm_inv s B → 0 < n < mm_max_request →
    let '(p, s') := mm_alloc s n in
    if decide (p = NULL) then s' = s
    else B !! p = None ∧ ∃ m, n ≤ m ∧ mm_inv s' (<[p := m]> B);
  mm_free_null s : mm_free s NULL = s;
  mm_free_ok s B p m :
    mm_inv s B → B !! p = Some m → mm_inv (mm_free s p) (delete p B);
  mm_stats_ok s B :
    mm_inv s B →
    let st := mm_get_stats s in
    0 ≤ free_memory st ≤ total_memory st ∧
    occupied_memory st = total_memory st - free_memory st;
}.
