(* ===== verification/FirstFit.v ===== *)
(** * The first-fit allocator ([memory/first_fit_mm.c])

    A state is the two fields of the [Header] union kept as field maps
    ([ff_ptr], [ff_size], by header address) and the file's static
    variables.  Sizes are in units of [sizeof(Header)] = 16 bytes. *)

From S2P Require Import Prelude Chain MemoryManager.

Abbreviation UNIT_SIZE := 16 (only parsing).
Definition MIN_ALLOC_UNITS : Z := 1.

Record ff_state := FF {
  ff_ptr : gmap Z Z;      (* the field s.ptr *)
  ff_size : gmap Z Z;     (* the field s.size *)
  ff_base : Z;            (* &base *)
  freep : Z;
  total_mem_size : Z;
  free_mem_size : Z;
}.

(** Pointer arithmetic on [Header *]. *)
Definition hdr_add (p n : Z) : Z := u64 (p + n * UNIT_SIZE).

Definition ff_init (base_address total_size : Z) (st : ff_state) : ff_state :=
  let units := total_size / UNIT_SIZE in
  let usable_bytes := units * UNIT_SIZE in
  {| ff_size := <[ff_base st := 0]> (<[base_address := units]> (ff_size st));
     ff_ptr := <[base_address := ff_base st]> (<[ff_base st := base_address]> (ff_ptr st));
     ff_base := ff_base st;
     freep := ff_base st;
     total_mem_size := usable_bytes;
     free_mem_size := usable_bytes |}.

(** The units a request needs: the payload rounded up, plus the header. *)
Definition ff_units (nbytes : Z) : Z :=
  let nunits := u64 (nbytes + UNIT_SIZE - 1) / UNIT_SIZE + 1 in
  if decide (nunits < MIN_ALLOC_UNITS) then MIN_ALLOC_UNITS else nunits.

(** The body of the [if (p->s.size >= nunits)] branch. *)
Definition ff_take (st : ff_state) (nunits prevp p size : Z) : option (Z * ff_state) :=
  let free' := u64 (free_mem_size st - nunits * UNIT_SIZE) in
  if decide (size = nunits) then
    n ← ff_ptr st !! p;
    Some (hdr_add p 1,
      {| ff_ptr := <[prevp := n]> (ff_ptr st); ff_size := ff_size st;
         ff_base := ff_base st; freep := prevp;
         total_mem_size := total_mem_size st; free_mem_size := free' |})
  else
    let block := hdr_add p (size - nunits) in
    Some (hdr_add block 1,
      {| ff_ptr := ff_ptr st;
         ff_size := <[block := nunits]> (<[p := size - nunits]> (ff_size st));
         ff_base := ff_base st; freep := prevp;
         total_mem_size := total_mem_size st; free_mem_size := free' |}).

(** The loop [for (p = prevp->s.ptr;; prevp = p, p = p->s.ptr)]. *)
Fixpoint ff_alloc_loop (fuel : nat) (st : ff_state) (nunits prevp p : Z)
  : option (Z * ff_state) :=
  match fuel with
  | O => None
  | S fuel =>
      size ← ff_size st !! p;
      if decide (nunits ≤ size) then ff_take st nunits prevp p size
      else if decide (p = freep st) then Some (NULL, st)
      else n ← ff_ptr st !! p; ff_alloc_loop fuel st nunits p n
  end.

Definition ff_fuel (st : ff_state) : nat := S (size (ff_ptr st)).

Definition ff_alloc (st : ff_state) (nbytes : Z) : option (Z * ff_state) :=
  if decide (nbytes = 0) then Some (NULL, st)
  else
    p ← ff_ptr st !! freep st;
    ff_alloc_loop (ff_fuel st) st (ff_units nbytes) (freep st) p.

(** The search of [mm_free]: the node [p] after which [bp] belongs. *)
Definition ff_here (bp p n : Z) : bool :=
  bool_decide (p < bp ∧ bp < n) || bool_decide (n ≤ p ∧ (p < bp ∨ bp < n)).

Fixpoint ff_search (fuel : nat) (st : ff_state) (bp p : Z) : option Z :=
  match fuel with
  | O => None
  | S fuel =>
      n ← ff_ptr st !! p;
      if ff_here bp p n then Some p else ff_search fuel st bp n
  end.

Definition ff_free (st : ff_state) (ap : Z) : option ff_state :=
  if decide (ap = NULL) then Some st
  else
    let bp := ap - UNIT_SIZE in
    bsize ← ff_size st !! bp;
    p ← ff_search (ff_fuel st) st bp (freep st);
    n ← ff_ptr st !! p;
    (* join with the block above, or link to it *)
    '(bsize1, bptr) ←
      (if decide (hdr_add bp bsize = n) then
         nsize ← ff_size st !! n; nptr ← ff_ptr st !! n;
         Some (bsize + nsize, nptr)
       else Some (bsize, n));
    let ptr1 := <[bp := bptr]> (ff_ptr st) in
    let size1 := <[bp := bsize1]> (ff_size st) in
    (* join with the block below, or link it in *)
    psize ← size1 !! p;
    let free' := u64 (free_mem_size st + bsize * UNIT_SIZE) in
    if decide (hdr_add p psize = bp) then
      Some {| ff_ptr := <[p := bptr]> ptr1; ff_size := <[p := psize + bsize1]> size1;
              ff_base := ff_base st; freep := p;
              total_mem_size := total_mem_size st; free_mem_size := free' |}
    else
      Some {| ff_ptr := <[p := bp]> ptr1; ff_size := size1;
              ff_base := ff_base st; freep := bp;
              total_mem_size := total_mem_size st; free_mem_size := free' |}.

Definition ff_get_stats (st : ff_state) : MemoryStats :=
  {| total_memory := total_mem_size st;
     free_memory := free_mem_size st;
     occupied_memory :=
       if decide (free_mem_size st ≤ total_mem_size st)
       then total_mem_size st - free_mem_size st else 0 |}.

Definition ff_blank (base : Z) : ff_state := FF ∅ ∅ base 0 0 0.

(** ** Layouts

    The managed region is a contiguous sequence of blocks; a layout lists
    their sizes (in units) and whether each is free.  Everything the field
    maps say is determined by the layout and the start [H] of the region. *)

Abbreviation block := (Z * bool)%type.
Abbreviation layout := (list (Z * bool)).

Fixpoint units (L : layout) : Z :=
  match L with [] => 0 | (n, _) :: L => n + units L end.

Fixpoint free_units (L : layout) : Z :=
  match L with
  | [] => 0
  | (n, b) :: L => (if b : bool then n else 0) + free_units L
  end.

(** Addresses of the free blocks, in order. *)
Fixpoint free_addrs (H : Z) (L : layout) : list Z :=
  match L with
  | [] => []
  | (n, b) :: L => (if b : bool then [H] else []) ++ free_addrs (H + n * UNIT_SIZE) L
  end.

(** Every block's header records its size. *)
Fixpoint sized (sz : gmap Z Z) (H : Z) (L : layout) : Prop :=
  match L with
  | [] => True
  | (n, _) :: L => sz !! H = Some n ∧ sized sz (H + n * UNIT_SIZE) L
  end.

Definition positive_blocks (L : layout) : Prop := Forall (λ b, 0 < b.1) L.

(** No two neighbouring blocks are both free. *)
Definition starts_free (L : layout) : bool :=
  match L with (_, b) :: _ => b | [] => false end.
Definition ends_free (L : layout) : bool :=
  match last L with Some (_, b) => b | None => false end.

Fixpoint coalesced (L : layout) : Prop :=
  match L with
  | [] => True
  | (_, b) :: L => (b && starts_free L = false) ∧ coalesced L
  end.

Record ff_rep (H : Z) (st : ff_state) (L : layout) : Prop := {
  fr_base : 0 < ff_base st ∧ ff_base st + UNIT_SIZE ≤ H;
  fr_end : H + units L * UNIT_SIZE < 2 ^ 64;
  fr_pos : positive_blocks L;
  fr_coal : coalesced L;
  fr_sized : sized (ff_size st) H L;
  fr_base_size : ff_size st !! ff_base st = Some 0;
  fr_ring : lseg (ff_ptr st) (ff_base st) (ff_base st :: free_addrs H L) (ff_base st);
  fr_freep : freep st ∈ ff_base st :: free_addrs H L;
  fr_total : total_mem_size st = units L * UNIT_SIZE;
  fr_free : free_mem_size st = free_units L * UNIT_SIZE;
}.

Section layout_lemmas.
Implicit Types (L : layout).

Lemma units_app L1 L2 : units (L1 ++ L2) = units L1 + units L2.
Proof. induction L1 as [|[n b] L1 IH]; simpl; lia. Qed.

Lemma free_units_app L1 L2 : free_units (L1 ++ L2) = free_units L1 + free_units L2.
Proof. induction L1 as [|[n b] L1 IH]; simpl; lia. Qed.

Lemma free_addrs_app H L1 L2 :
  free_addrs H (L1 ++ L2) = free_addrs H L1 ++ free_addrs (H + units L1 * UNIT_SIZE) L2.
Proof.
  revert H. induction L1 as [|[n b] L1 IH]; intros H; simpl.
  - f_equal. lia.
  - rewrite IH, <-app_assoc. do 3 f_equal. lia.
Qed.

Lemma sized_app sz H L1 L2 :
  sized sz H (L1 ++ L2) ↔ sized sz H L1 ∧ sized sz (H + units L1 * UNIT_SIZE) L2.
Proof.
  revert H. induction L1 as [|[n b] L1 IH]; intros H; simpl.
  - replace (H + 0 * UNIT_SIZE) with H by lia. tauto.
  - rewrite IH. replace (H + n * UNIT_SIZE + units L1 * UNIT_SIZE)
      with (H + (n + units L1) * UNIT_SIZE) by lia. tauto.
Qed.

Lemma units_nonneg L : positive_blocks L → 0 ≤ units L.
Proof. induction 1 as [|[n b] L]; simpl in *; lia. Qed.

Lemma free_units_bound L : positive_blocks L → 0 ≤ free_units L ≤ units L.
Proof. induction 1 as [|[n [|]] L]; simpl in *; lia. Qed.

Lemma positive_blocks_app L1 L2 :
  positive_blocks (L1 ++ L2) ↔ positive_blocks L1 ∧ positive_blocks L2.
Proof. apply Forall_app. Qed.

Lemma free_addrs_bound H L a :
  positive_blocks L → a ∈ free_addrs H L → H ≤ a < H + units L * UNIT_SIZE.
Proof.
  intros HL. revert H. induction HL as [|[n b] L Hn HL IH]; intros H; simpl in *.
  - by intros ?%elem_of_nil.
  - pose proof (units_nonneg L HL). 
    intros [Ha|Ha%IH]%elem_of_app; [|lia].
    destruct b; [|set_solver]. apply list_elem_of_singleton in Ha. lia.
Qed.

Lemma free_addrs_NoDup H L : positive_blocks L → NoDup (free_addrs H L).
Proof.
  intros HL. revert H. induction HL as [|[n b] L Hn HL IH]; intros H; simpl in *.
  - constructor.
  - apply NoDup_app. split; [destruct b; [apply NoDup_singleton|constructor]|].
    split; [|apply IH]. intros a Ha Hb%free_addrs_bound; [|done].
    destruct b; [|set_solver]. apply list_elem_of_singleton in Ha.
    lia.
Qed.

(** The header map can change away from the region without harm. *)
Lemma sized_frame sz H L a v :
  positive_blocks L → a < H ∨ H + units L * UNIT_SIZE ≤ a →
  sized sz H L → sized (<[a:=v]> sz) H L.
Proof.
  intros HL. revert H. induction HL as [|[n b] L Hn HL IH]; intros H; simpl in *; [done|].
  intros Ha [Hs HsL]. pose proof (units_nonneg L HL). split.
  - rewrite lookup_insert_ne; [done|]. lia.
  - apply IH; [lia|done].
Qed.

Lemma ends_free_cons x L : L ≠ [] → ends_free (x :: L) = ends_free L.
Proof. destruct L; [done|]. intros _. unfold ends_free. by rewrite last_cons_cons. Qed.

Lemma coalesced_app L1 L2 :
  coalesced (L1 ++ L2) ↔
  coalesced L1 ∧ coalesced L2 ∧ ends_free L1 && starts_free L2 = false.
Proof.
  induction L1 as [|[n b] L1 IH]; simpl; [tauto|].
  rewrite IH. destruct L1 as [|[m c] L1].
  - unfold ends_free; simpl. rewrite andb_false_r. clear IH. intuition.
  - clear IH. assert (ends_free ((n, b) :: (m, c) :: L1) = ends_free ((m, c) :: L1))
      as -> by (by apply ends_free_cons). simpl. intuition.
Qed.

Lemma ends_free_snoc L n b : ends_free (L ++ [(n, b)]) = b.
Proof. unfold ends_free. by rewrite last_snoc. Qed.

Lemma ends_free_inv L :
  ends_free L = true → ∃ L' n, L = L' ++ [(n, true)].
Proof.
  destruct L as [|[n b] L' _] using rev_ind; [done|].
  rewrite ends_free_snoc. intros ->. eauto.
Qed.

Lemma starts_free_inv L : starts_free L = true → ∃ n L', L = (n, true) :: L'.
Proof. destruct L as [|[n []] L]; naive_solver. Qed.

Lemma free_addrs_sorted H L :
  positive_blocks L → StronglySorted Z.lt (free_addrs H L).
Proof.
  intros HL. revert H. induction HL as [|[n b] L Hn HL IH]; intros H; simpl in *.
  - constructor.
  - destruct b; simpl; [|apply IH]. constructor; [apply IH|].
    apply Forall_forall. intros a Ha%free_addrs_bound; [|done].
    lia.
Qed.

(** A free address names a free block of the layout. *)
Lemma free_addrs_split H L a :
  a ∈ free_addrs H L →
  ∃ L1 n L2, L = L1 ++ (n, true) :: L2 ∧ a = H + units L1 * UNIT_SIZE.
Proof.
  revert H. induction L as [|[n b] L IH]; intros H; simpl.
  - by intros ?%elem_of_nil.
  - intros [Ha|Ha]%elem_of_app.
    + destruct b; [|set_solver]. apply list_elem_of_singleton in Ha as ->.
      exists [], n, L. simpl. split; [done|lia].
    + destruct (IH _ Ha) as (L1 & m & L2 & -> & ->).
      exists ((n, b) :: L1), m, L2. simpl. split; [done|]. lia.
Qed.

(** A non-empty segment of free addresses ends at a free block followed by
    used ones only. *)
Lemma free_addrs_last H L fs a :
  free_addrs H L = fs ++ [a] →
  ∃ L1 n L2, L = L1 ++ (n, true) :: L2 ∧ a = H + units L1 * UNIT_SIZE ∧
    free_addrs H L1 = fs ∧ free_addrs (a + n * UNIT_SIZE) L2 = [].
Proof.
  revert H fs. induction L as [|[n b] L IH]; intros H fs; simpl.
  - by intros ?%app_cons_not_nil.
  - destruct (free_addrs (H + n * UNIT_SIZE) L) as [|c l _] eqn:E using rev_ind.
    + destruct b; simpl; intros Heq.
      * destruct fs as [|f fs]; simplify_list_eq; [|by destruct fs].
        exists [], n, L. simpl. split; [done|]. split; [lia|]. split; [done|].
        done.
      * by destruct fs.
    + intros Heq. rewrite app_assoc in Heq.
      apply app_inj_tail in Heq as [<- ->].
      destruct (IH _ _ E) as (L1 & m & L2 & -> & -> & <- & Hnil).
      exists ((n, b) :: L1), m, L2. simpl.
      split; [done|]. split; [lia|]. split; [done|].
      rewrite <-Hnil. f_equal; lia.
Qed.
End layout_lemmas.

(** ** The ring of free blocks *)
Section ring.
Implicit Types (nx : gmap Z Z).

(** In a duplicate-free ring no two nodes point to the same one. *)
Lemma ring_next_inj nx b R x y q :
  lseg nx b R b → NoDup R → x ∈ R → y ∈ R →
  nx !! x = Some q → nx !! y = Some q → x = y.
Proof.
  intros HR Hnd (l1 & l2 & ->)%list_elem_of_split Hy Hx Hyq.
  apply lseg_rotate in HR.
  assert (NoDup (x :: l2 ++ l1)) as Hnd'.
  { revert Hnd. rewrite Permutation_app_comm. done. }
  assert (y ∈ x :: l2 ++ l1) as Hy'.
  { revert Hy. rewrite !elem_of_cons, !elem_of_app, elem_of_cons. tauto. }
  clear Hnd Hy. revert HR Hnd' Hy'. generalize (l2 ++ l1) as l. intros l HR Hnd Hy.
  destruct HR as (_ & n & Hn & HR). simplify_eq.
  apply elem_of_cons in Hy as [->|Hy]; [done|].
  apply list_elem_of_split in Hy as (m1 & m2 & ->).
  pose proof (lseg_head _ _ _ _ HR) as Hq.
  apply lseg_middle in HR as (_ & n' & Hn' & HR). simplify_eq.
  pose proof (lseg_head _ _ _ _ HR) as Hq'.
  exfalso. apply NoDup_cons in Hnd as [Hx' Hnd].
  apply NoDup_app in Hnd as (_ & Hdisj & Hnd2).
  apply NoDup_cons in Hnd2 as [Hy2 _].
  destruct m2 as [|c m2], m1 as [|d m1]; simpl in *; set_solver.
Qed.

(** Unlinking the node [q] that follows [c]. *)
Lemma ring_unlink nx b m c q l n :
  lseg nx b (m ++ c :: q :: l) b → NoDup (m ++ c :: q :: l) →
  nx !! q = Some n → lseg (<[c := n]> nx) b (m ++ c :: l) b.
Proof.
  intros (Hm & ? & Hc & Hl)%lseg_middle Hnd Hq.
  simpl in Hl. destruct Hl as (-> & n' & Hn' & Hl). simplify_eq.
  apply NoDup_app in Hnd as (_ & Hdisj & Hnd).
  apply lseg_middle. split.
  - apply lseg_frame; [set_solver|done].
  - eexists. rewrite lookup_insert_eq. split; [done|].
    apply lseg_frame; [|done]. apply NoDup_cons in Hnd. set_solver.
Qed.

(** Linking the node [q] after [c]. *)
Lemma ring_link nx b m c q l n :
  lseg nx b m c → lseg nx n l b → NoDup (m ++ c :: q :: l) →
  lseg (<[c := q]> (<[q := n]> nx)) b (m ++ c :: q :: l) b.
Proof.
  intros Hm Hl (_ & Hdisj & Hnd)%NoDup_app.
  apply NoDup_cons in Hnd as [? Hnd]. apply NoDup_cons in Hnd as [? _].
  apply lseg_middle. split.
  - apply lseg_frame; [set_solver|]. apply lseg_frame; [set_solver|done].
  - exists q. rewrite lookup_insert_eq. split; [done|]. simpl. split; [done|].
    exists n. rewrite lookup_insert_ne by set_solver. rewrite lookup_insert_eq.
    split; [done|]. apply lseg_frame; [set_solver|]. by apply lseg_frame.
Qed.
End ring.

(** ** Allocation *)
Section alloc.
Implicit Types (st : ff_state) (L : layout).

(** What the search loop does along the rest of the ring, from the node
    after [prevp] round to [freep]. *)
Lemma ff_alloc_loop_spec st nunits l : ∀ fuel prevp p,
  lseg (ff_ptr st) p l (freep st) → freep st ∉ l →
  ff_ptr st !! prevp = Some p →
  (∀ a, a ∈ l ++ [freep st] → is_Some (ff_size st !! a)) →
  (length l < fuel)%nat →
  (ff_alloc_loop fuel st nunits prevp p = Some (NULL, st) ∧
   ∀ a n, a ∈ l ++ [freep st] → ff_size st !! a = Some n → n < nunits) ∨
  (∃ q c n, q ∈ l ++ [freep st] ∧ c ∈ prevp :: l ∧
     ff_size st !! q = Some n ∧ nunits ≤ n ∧ ff_ptr st !! c = Some q ∧
     ff_alloc_loop fuel st nunits prevp p = ff_take st nunits c q n).
Proof.
  induction l as [|a l IH]; intros [|fuel] prevp p Hl Hnl Hprev Hsz Hf;
    simpl in *; try lia.
  - subst p. destruct (Hsz (freep st)) as [n Hn]; [set_solver|]. rewrite Hn. simpl.
    case_decide.
    + right. exists (freep st), prevp, n. set_solver.
    + left. rewrite decide_True by done. split; [done|].
      intros a m ->%list_elem_of_singleton ?. simplify_eq. lia.
  - destruct Hl as (-> & m & Hm & Hl).
    apply not_elem_of_cons in Hnl as [Hne Hnl].
    destruct (Hsz a) as [n Hn]; [set_solver|]. rewrite Hn. simpl.
    case_decide.
    + right. exists a, prevp, n. set_solver.
    + rewrite decide_False by done. rewrite Hm. simpl.
      destruct (IH fuel a m Hl Hnl Hm) as [[Hr Hall]|(q & c & n' & ? & ? & ? & ? & ? & Hr)];
        [set_solver|lia| |].
      * left. split; [done|]. intros b k [->|Hb]%elem_of_cons Hk; [|eauto].
        simplify_eq. lia.
      * right. exists q, c, n'. set_solver.
Qed.

Lemma ff_units_spec nbytes :
  0 < nbytes < mm_max_request →
  ff_units nbytes = (nbytes + 15) / 16 + 1 ∧ 2 ≤ ff_units nbytes ∧
  nbytes ≤ (ff_units nbytes - 1) * UNIT_SIZE < nbytes + UNIT_SIZE.
Proof.
  unfold mm_max_request, ff_units, MIN_ALLOC_UNITS. intros Hn.
  rewrite wrapu_small by lia.
  replace (nbytes + 16 - 1) with (nbytes + 15) by lia.
  pose proof (Z.div_mod (nbytes + 15) 16).
  pose proof (Z.mod_pos_bound (nbytes + 15) 16).
  rewrite decide_False by lia. lia.
Qed.

Lemma hdr_add_small p n : 0 ≤ p + n * UNIT_SIZE < 2 ^ 64 → hdr_add p n = p + n * UNIT_SIZE.
Proof. apply wrapu_small. Qed.

Lemma sized_free H sz L a :
  sized sz H L → a ∈ free_addrs H L → is_Some (sz !! a).
Proof.
  intros Hs (L1 & n & L2 & -> & ->)%free_addrs_split.
  apply sized_app in Hs as [_ [Hs _]]. eauto.
Qed.

(** The ring of a represented state. *)
Lemma ff_ring_NoDup H st L : ff_rep H st L → NoDup (ff_base st :: free_addrs H L).
Proof.
  intros HR. apply NoDup_cons. split.
  - intros Hb%free_addrs_bound; [|apply HR]. destruct HR as [[]]. lia.
  - apply free_addrs_NoDup, HR.
Qed.

Lemma ff_ring_fuel H st L :
  ff_rep H st L → (length (ff_base st :: free_addrs H L) < ff_fuel st)%nat.
Proof.
  intros HR. pose proof (lseg_length _ _ _ _ (ff_ring_NoDup _ _ _ HR) (fr_ring _ _ _ HR)).
  unfold ff_fuel. lia.
Qed.

Lemma ff_ring_sized H st L a :
  ff_rep H st L → a ∈ ff_base st :: free_addrs H L → is_Some (ff_size st !! a).
Proof.
  intros HR [->|Ha]%elem_of_cons.
  - rewrite (fr_base_size _ _ _ HR). eauto.
  - eapply sized_free; [apply HR|done].
Qed.

(** The ring seen from [freep]. *)
Lemma ff_ring_from_freep H st L :
  ff_rep H st L → ∃ l p,
    freep st :: l ≡ₚ ff_base st :: free_addrs H L ∧
    ff_ptr st !! freep st = Some p ∧ lseg (ff_ptr st) p l (freep st) ∧ freep st ∉ l.
Proof.
  intros HR. pose proof (ff_ring_NoDup _ _ _ HR) as Hnd.
  pose proof (fr_ring _ _ _ HR) as Hring.
  destruct (list_elem_of_split _ _ (fr_freep _ _ _ HR)) as (l1 & l2 & E).
  rewrite E in *. destruct (lseg_rotate _ _ _ _ _ Hring) as (_ & p & Hp & Hl).
  exists (l2 ++ l1), p. split; [by rewrite <-Permutation_middle, (Permutation_app_comm l1 l2)|].
  split; [done|]. split; [done|].
  assert (NoDup (freep st :: l2 ++ l1)) as Hnd'%NoDup_cons.
  { revert Hnd. by rewrite <-Permutation_middle, (Permutation_app_comm l1 l2). }
  tauto.
Qed.
End alloc.

(** The blocks left when [n] units are taken from the end of a free block of
    [s] units. *)
Definition ff_split (s n : Z) : layout :=
  if decide (s = n) then [(n, false)] else [(s - n, true); (n, false)].

Section take.
Implicit Types (st : ff_state) (L : layout).

Lemma units_split s n L1 L2 :
  units (L1 ++ ff_split s n ++ L2) = units (L1 ++ (s, true) :: L2).
Proof. unfold ff_split. rewrite !units_app. case_decide; simpl; lia. Qed.

Lemma free_units_split s n L1 L2 :
  free_units (L1 ++ ff_split s n ++ L2) = free_units (L1 ++ (s, true) :: L2) - n.
Proof. unfold ff_split. rewrite !free_units_app. case_decide; simpl; lia. Qed.

Lemma positive_split s n L1 L2 :
  0 < n ≤ s → positive_blocks (L1 ++ (s, true) :: L2) →
  positive_blocks (L1 ++ ff_split s n ++ L2).
Proof.
  intros ? HL. apply positive_blocks_app in HL as [HL1 HL2].
  apply Forall_cons in HL2 as [Hs HL2]. simpl in Hs.
  apply positive_blocks_app. split; [done|]. apply positive_blocks_app.
  split; [|done]. unfold ff_split, positive_blocks.
  case_decide; repeat apply Forall_cons_2; simpl; auto; lia.
Qed.

Lemma coalesced_split s n L1 L2 :
  coalesced (L1 ++ (s, true) :: L2) → coalesced (L1 ++ ff_split s n ++ L2).
Proof.
  intros (? & [_ ?] & Hends)%coalesced_app. apply coalesced_app. split; [done|].
  unfold ff_split. case_decide; simpl in *; rewrite ?andb_false_r; auto.
Qed.

(** The size field after a split. *)
Lemma sized_split sz H s n L1 L2 :
  0 < n < s → positive_blocks (L1 ++ (s, true) :: L2) →
  sized sz H (L1 ++ (s, true) :: L2) →
  let q := H + units L1 * UNIT_SIZE in
  sized (<[q + (s - n) * UNIT_SIZE := n]> (<[q := s - n]> sz)) H
    (L1 ++ [(s - n, true); (n, false)] ++ L2).
Proof.
  intros Hn HL Hs q. apply positive_blocks_app in HL as [HL1 HL2].
  apply Forall_cons in HL2 as [_ HL2].
  apply sized_app in Hs as [Hs1 [Hs Hs2]]. fold q in Hs, Hs2.
  pose proof (units_nonneg _ HL1). 
  apply sized_app. split; [|fold q; simpl; split; [|split]].
  - apply sized_frame; [done|unfold q; lia|].
    apply sized_frame; [done|unfold q; lia|done].
  - rewrite lookup_insert_ne by lia. apply lookup_insert_eq.
  - apply lookup_insert_eq.
  -       replace (q + (s - n) * 16 + n * 16) with (q + s * 16) by lia.
    apply sized_frame; [done|lia|]. apply sized_frame; [done|lia|done].
Qed.

Lemma sized_flag sz H s b b' L1 L2 :
  sized sz H (L1 ++ (s, b) :: L2) ↔ sized sz H (L1 ++ (s, b') :: L2).
Proof. rewrite !sized_app. done. Qed.

(** The ring of free blocks when one of them is taken whole. *)
Lemma ff_ring_take H st L1 s L2 c :
  let q := H + units L1 * UNIT_SIZE in
  ff_rep H st (L1 ++ (s, true) :: L2) →
  c ∈ ff_base st :: free_addrs H (L1 ++ (s, true) :: L2) → ff_ptr st !! c = Some q →
  ∃ n, ff_ptr st !! q = Some n ∧
    lseg (<[c := n]> (ff_ptr st)) (ff_base st)
      (ff_base st :: free_addrs H (L1 ++ (s, false) :: L2)) (ff_base st) ∧
    c ∈ ff_base st :: free_addrs H (L1 ++ (s, false) :: L2).
Proof.
  intros q HR Hc Hcq. pose proof (ff_ring_NoDup _ _ _ HR) as Hnd.
  pose proof (fr_ring _ _ _ HR) as Hring. rewrite free_addrs_app in *.
  simpl free_addrs in *. fold q in Hring, Hnd, Hc |- *.
  set (fa2 := free_addrs (q + s * UNIT_SIZE) L2) in *. simpl app in *.
  destruct (exists_last (l:=ff_base st :: free_addrs H L1)) as (m & d & E); [done|].
  rewrite app_comm_cons, E, <-app_assoc in Hring, Hnd, Hc.
  rewrite app_comm_cons, E, <-app_assoc. simpl in *.
  assert (ff_ptr st !! d = Some q) as Hdq.
  { apply lseg_middle in Hring as (_ & q' & Hq & Hrest).
    simpl in Hrest. destruct Hrest as (-> & _). done. }
  assert (c = d) as ->.
  { eapply ring_next_inj; [apply Hring|done..| |done|done].
    apply elem_of_app. right. apply elem_of_cons. by left. }
  assert (is_Some (ff_ptr st !! q)) as [n Hn].
  { eapply lseg_dom; [apply Hring|]. set_solver. }
  exists n. split; [done|]. split.
  - by eapply ring_unlink.
  - set_solver.
Qed.

Lemma ff_take_spec H st L1 s L2 n c :
  let q := H + units L1 * UNIT_SIZE in
  ff_rep H st (L1 ++ (s, true) :: L2) → 2 ≤ n ≤ s →
  c ∈ ff_base st :: free_addrs H (L1 ++ (s, true) :: L2) → ff_ptr st !! c = Some q →
  ∃ st', ff_take st n c q s = Some (q + (s - n + 1) * UNIT_SIZE, st') ∧
    ff_base st' = ff_base st ∧ ff_rep H st' (L1 ++ ff_split s n ++ L2).
Proof.
  intros q HR Hn Hc Hcq.
  pose proof (fr_pos _ _ _ HR) as Hpos.
  pose proof (proj1 (positive_blocks_app _ _) Hpos) as [Hp1 [_ Hp2]%Forall_cons].
  pose proof (units_nonneg _ Hp1). pose proof (units_nonneg _ Hp2).
  pose proof (fr_end _ _ _ HR) as Hend. pose proof (fr_base _ _ _ HR) as Hbase.
  pose proof (free_units_bound _ Hpos) as Hfb.
  rewrite units_app in Hend, Hfb. simpl in Hend, Hfb.
  assert (n ≤ free_units (L1 ++ (s, true) :: L2)) as Hfn.
  { rewrite free_units_app. simpl.
    pose proof (free_units_bound _ Hp1). pose proof (free_units_bound _ Hp2). lia. }
  assert (u64 (free_mem_size st - n * UNIT_SIZE)
    = (free_units (L1 ++ (s, true) :: L2) - n) * UNIT_SIZE) as Hfree.
  { rewrite (fr_free _ _ _ HR). rewrite wrapu_small; lia. }
  destruct (ff_ring_take _ _ _ _ _ _ HR Hc Hcq) as (m & Hm & Hring & Hc').
  unfold ff_take. rewrite Hfree. fold q in Hm. unfold ff_split.
  case_decide as Hs.
  - rewrite Hm. simpl. rewrite hdr_add_small by (unfold q; lia).
    eexists. split; [f_equal; f_equal; lia|]. split; [done|].
    subst s. constructor; simpl; try apply HR.
    all: try by (rewrite units_app in *; simpl; apply HR).
    + rewrite units_app; simpl; lia.
    + apply positive_blocks_app; split; [done|]. constructor; simpl; [lia|done].
    + pose proof (coalesced_split n n L1 L2 (fr_coal _ _ _ HR)) as Hco.
      unfold ff_split in Hco. by rewrite decide_True in Hco.
    + eapply sized_flag, HR.
    + done.
    + done.
    + rewrite (fr_total _ _ _ HR), !units_app. simpl. done.
    + rewrite !free_units_app. simpl. lia.
  - rewrite (hdr_add_small q) by (unfold q; lia).
    rewrite hdr_add_small by (unfold q; lia).
    eexists. split; [f_equal; f_equal; lia|]. split; [done|].
    assert (free_addrs H (L1 ++ [(s - n, true); (n, false)] ++ L2)
      = free_addrs H (L1 ++ (s, true) :: L2)) as Hfa.
    { rewrite !free_addrs_app. simpl. do 2 f_equal. f_equal. lia. }
    constructor; simpl; try apply HR.
    + rewrite units_app. simpl. lia.
    + pose proof (positive_split s n L1 L2 ltac:(lia) Hpos) as Hp.
      unfold ff_split in Hp. by rewrite decide_False in Hp.
    + pose proof (coalesced_split s n L1 L2 (fr_coal _ _ _ HR)) as Hco.
      unfold ff_split in Hco. by rewrite decide_False in Hco.
    + apply sized_split; [lia|done|apply HR].
    + rewrite !lookup_insert_ne; [apply HR|unfold q; lia..].
    + simpl in Hfa. rewrite Hfa. apply HR.
    + simpl in Hfa. by rewrite Hfa.
    + rewrite (fr_total _ _ _ HR), !units_app. simpl. lia.
    + rewrite !free_units_app. simpl. lia.
Qed.

(** [mm_alloc] answers NULL exactly when no free block is large enough, and
    otherwise carves the request from the end of a free block. *)
Lemma ff_alloc_spec H st L nbytes :
  ff_rep H st L → 0 < nbytes < mm_max_request →
  let n := ff_units nbytes in
  (ff_alloc st nbytes = Some (NULL, st) ∧
     ∀ L1 s L2, L = L1 ++ (s, true) :: L2 → s < n) ∨
  (∃ L1 s L2 st', L = L1 ++ (s, true) :: L2 ∧ n ≤ s ∧
     ff_alloc st nbytes = Some (H + (units L1 + (s - n) + 1) * UNIT_SIZE, st') ∧
     ff_base st' = ff_base st ∧ ff_rep H st' (L1 ++ ff_split s n ++ L2)).
Proof.
  intros HR Hnb n. destruct (ff_units_spec nbytes Hnb) as (_ & Hn2 & _).
  destruct (ff_ring_from_freep _ _ _ HR) as (l & p & Hperm & Hp & Hl & Hfp).
  unfold ff_alloc. rewrite decide_False by lia. rewrite Hp.
  cbn [mbind option_bind]. fold n.
  assert (∀ a, a ∈ l ++ [freep st] ↔ a ∈ ff_base st :: free_addrs H L) as Hin.
  { intros a. rewrite <-Hperm. set_solver. }
  destruct (ff_alloc_loop_spec st n l (ff_fuel st) (freep st) p Hl Hfp Hp)
    as [[Hr Hall]|(q & c & s & Hq & Hc & Hs & Hns & Hcq & Hr)].
  - intros a Ha%Hin. by eapply ff_ring_sized.
  - pose proof (ff_ring_fuel _ _ _ HR) as Hf.
    rewrite <-Hperm in Hf. simpl in Hf. lia.
  - left. split; [done|]. intros L1 s L2 ->.
    apply (Hall (H + units L1 * UNIT_SIZE)).
    + apply Hin. rewrite free_addrs_app. simpl. set_solver.
    + pose proof (fr_sized _ _ _ HR) as Hs. by apply sized_app in Hs as [_ [Hs _]].
  - right. apply Hin in Hq.
    assert (c ∈ ff_base st :: free_addrs H L) as Hc'.
    { apply Hin. apply elem_of_app. apply elem_of_cons in Hc. set_solver. }
    apply elem_of_cons in Hq as [->|Hq].
    { rewrite (fr_base_size _ _ _ HR) in Hs. simplify_eq. lia. }
    destruct (free_addrs_split _ _ _ Hq) as (L1 & s' & L2 & -> & ->).
    pose proof (fr_sized _ _ _ HR) as Hs'. apply sized_app in Hs' as [_ [Hs' _]].
    simplify_eq.
    destruct (ff_take_spec _ _ _ _ _ n c HR ltac:(lia) Hc' Hcq) as (st' & Ht & ? & ?).
    exists L1, s, L2, st'. rewrite Hr, Ht.
    split; [done|]. split; [done|]. split; [|done]. do 2 f_equal. lia.
Qed.
End take.

(** ** Release *)

(** Joining a free block of [n] units with what follows, then with what
    precedes it. *)
Definition join_above (n : Z) (L2 : layout) : Z * layout :=
  match L2 with
  | (m, true) :: L2' => (n + m, L2')
  | _ => (n, L2)
  end.

Definition ff_join (L1 : layout) (n : Z) (L2 : layout) : layout :=
  let '(n1, L2') := join_above n L2 in
  match last L1 with
  | Some (m, true) => removelast L1 ++ (m + n1, true) :: L2'
  | _ => L1 ++ (n1, true) :: L2'
  end.

Section free.
Implicit Types (st : ff_state) (L : layout).

Lemma ff_search_spec st bp l : ∀ fuel p c n,
  lseg (ff_ptr st) p l c → ff_ptr st !! c = Some n →
  (∀ a m, a ∈ l → ff_ptr st !! a = Some m → ff_here bp a m = false) →
  ff_here bp c n = true → (length l < fuel)%nat →
  ff_search fuel st bp p = Some c.
Proof.
  induction l as [|a l IH]; intros [|fuel] p c n Hl Hc Hns Hh Hf; simpl in *; try lia.
  - subst p. rewrite Hc. simpl. by rewrite Hh.
  - destruct Hl as (-> & m & Hm & Hl). rewrite Hm. simpl.
    rewrite (Hns a m) by (done || apply elem_of_cons; by left).
    eapply IH; [done..| |done|lia]. intros b k Hb. apply Hns. by apply elem_of_cons; right.
Qed.

Lemma sorted_split l1 (a : Z) l2 :
  StronglySorted Z.lt (l1 ++ a :: l2) →
  (∀ x, x ∈ l1 → x < a) ∧ (∀ y, y ∈ l2 → a < y).
Proof.
  induction l1 as [|z l1 IH]; simpl; intros Hs; inversion Hs as [|? ? Hs' Hz]; subst;
    rewrite Forall_forall in Hz.
  - split; [by intros x ?%elem_of_nil|done].
  - destruct (IH Hs') as [Hl Hr]. split; [|done].
    intros x [->|Hx]%elem_of_cons; [apply Hz; set_solver|auto].
Qed.

Lemma sorted_cases l1 (a : Z) l2 x :
  StronglySorted Z.lt (l1 ++ a :: l2) → x ∈ l1 ++ a :: l2 →
  (x < a → x ∈ l1) ∧ (a < x → x ∈ l2).
Proof.
  intros [Hl Hr]%sorted_split [Hx|[->|Hx]%elem_of_cons]%elem_of_app.
  - split; [done|]. specialize (Hl x Hx). lia.
  - lia.
  - split; [|done]. specialize (Hr x Hx). lia.
Qed.

(** The insertion point of a used block: the last ring node below it. *)
Lemma ff_here_spec nx base m c fa2 bp a n :
  lseg nx base (m ++ c :: fa2) base →
  StronglySorted Z.lt (m ++ c :: fa2) → (∀ x, x ∈ m ++ c :: fa2 → base ≤ x) →
  c < bp → (∀ x, x ∈ fa2 → bp < x) → base < bp →
  a ∈ m ++ c :: fa2 → nx !! a = Some n → ff_here bp a n = bool_decide (a = c).
Proof.
  intros Hring Hsort Hbase Hc Hfa Hbp Ha Hn. unfold ff_here.
  pose proof (sorted_cases m c fa2) as Hcases.
  pose proof (Hbase a Ha) as Hab. pose proof Ha as Hin.
  apply list_elem_of_split in Ha as (l1 & l2 & E). rewrite E in *.
  assert (n = hd base l2) as ->.
  { apply lseg_middle in Hring as (_ & n' & Hn' & Hl%lseg_head). by simplify_eq. }
  destruct (sorted_split _ _ _ Hsort) as [Hl1 Hl2].
  assert (∀ y, y ∈ l2 → a < y ∧ (c < y → bp < y)) as Hy.
  { intros y Hy. split; [auto|]. intros ?. apply Hfa, (Hcases y); [done|set_solver|done]. }
  destruct (Z.lt_trichotomy a c) as [Hlt|[->|Hgt]].
  - (* below the insertion point: the next node is not past [c] *)
    assert (c ∈ l2) as Hcl by (apply (sorted_cases l1 a l2); [done|rewrite <-E; set_solver|done]).
    destruct l2 as [|y l2]; [set_solver|]. simpl.
    assert (a < y) by (apply Hy; set_solver).
    assert (y ≤ c).
    { apply elem_of_cons in Hcl as [->|Hcl]; [lia|].
      rewrite cons_middle, app_assoc in Hsort.
      destruct (sorted_split _ _ _ Hsort) as [_ Hgt]. specialize (Hgt c Hcl). lia. }
    rewrite !bool_decide_false by lia. done.
  - rewrite (bool_decide_true (c = c)) by done.
    destruct l2 as [|y l2]; simpl.
    + rewrite (bool_decide_true (base ≤ c ∧ _)) by lia. by rewrite orb_true_r.
    + destruct (Hy y) as [Hcy Hby]; [set_solver|].
      rewrite (bool_decide_true (c < bp ∧ _)) by lia. done.
  - assert (bp < a) by (apply Hfa, (Hcases a); done).
    destruct l2 as [|y l2]; simpl.
    + rewrite !bool_decide_false by lia. done.
    + destruct (Hy y); [set_solver|]. rewrite !bool_decide_false by lia. done.
Qed.
(** The search of [mm_free] finds the last ring node below the block. *)
Lemma ff_search_found H st L1 n L2 m c :
  ff_rep H st (L1 ++ (n, false) :: L2) → ff_base st :: free_addrs H L1 = m ++ [c] →
  let bp := H + units L1 * UNIT_SIZE in
  let fa2 := free_addrs (bp + n * UNIT_SIZE) L2 in
  ff_search (ff_fuel st) st bp (freep st) = Some c ∧
  ff_ptr st !! c = Some (hd (ff_base st) fa2) ∧
  ff_base st :: free_addrs H (L1 ++ (n, false) :: L2) = m ++ c :: fa2 ∧
  lseg (ff_ptr st) (ff_base st) m c ∧ c < bp ∧ ff_base st < bp ∧
  (∀ x, x ∈ fa2 → bp < x).
Proof.
  intros HR E bp fa2. pose proof (ff_ring_NoDup _ _ _ HR) as Hnd.
  pose proof (fr_ring _ _ _ HR) as Hring.
  pose proof (fr_pos _ _ _ HR) as Hpos.
  pose proof (free_addrs_sorted H _ Hpos) as Hsort.
  pose proof (λ a, free_addrs_bound H _ a Hpos) as Hbnd.
  apply positive_blocks_app in Hpos as [Hp1 [Hn Hp2]%Forall_cons]. simpl in Hn.
  pose proof (fr_base _ _ _ HR). pose proof (units_nonneg _ Hp1).
  assert (ff_base st :: free_addrs H (L1 ++ (n, false) :: L2) = m ++ c :: fa2) as ER.
  { rewrite free_addrs_app. simpl. rewrite app_comm_cons, E, <-app_assoc. done. }
  assert (StronglySorted Z.lt (m ++ c :: fa2)) as Hsort'.
  { rewrite <-ER. constructor; [done|]. apply Forall_forall.
    intros x Hx%Hbnd. lia. }
  assert (∀ x, x ∈ fa2 → bp < x) as Hfa.
  { intros x Hx%free_addrs_bound; [lia|done]. }
  assert (c < bp) as Hc.
  { assert (c ∈ ff_base st :: free_addrs H L1) as [->|Hc]%elem_of_cons
      by (rewrite E; set_solver).
    - unfold bp. lia.
    - apply free_addrs_bound in Hc; [unfold bp; lia|done]. }
  rewrite ER in Hring, Hnd.
  assert (∀ a k, a ∈ m ++ c :: fa2 → ff_ptr st !! a = Some k →
    ff_here bp a k = bool_decide (a = c)) as Hhere.
  { intros a k. apply (ff_here_spec _ (ff_base st)); [done..| |done|done|unfold bp; lia].
    intros x. rewrite <-ER. intros [->|Hx%Hbnd]%elem_of_cons; lia. }
  pose proof Hring as (Hm & k & Hk & Hrest)%lseg_middle.
  assert (k = hd (ff_base st) fa2) as -> by (by apply lseg_head in Hrest).
  destruct (ff_ring_from_freep _ _ _ HR) as (l & p & Hperm & Hp & Hl & Hfp).
  pose proof (ff_ring_fuel _ _ _ HR) as Hfuel.
  rewrite ER in Hperm. rewrite ER, <-Hperm in Hfuel.
  split; [|split_and!; try done; unfold bp; lia].
  assert (c ∈ freep st :: l) as (r1 & r2 & El)%list_elem_of_split by (rewrite Hperm; set_solver).
  assert (NoDup (r1 ++ c :: r2)) as Hndr by (rewrite <-El, Hperm; done).
  assert (lseg (ff_ptr st) (freep st) (freep st :: l) (freep st)) as Hfull.
  { simpl. eauto. }
  rewrite El in Hfull. apply lseg_middle in Hfull as [Hr1 _].
  apply (ff_search_spec st bp r1 _ _ c (hd (ff_base st) fa2)); [done..| | |].
  - intros a k Ha Hk'. rewrite Hhere; [|rewrite <-Hperm, El; set_solver|done].
    apply bool_decide_eq_false. intros ->.
    apply NoDup_app in Hndr as (_ & Hd & _). apply (Hd c Ha). set_solver.
  - rewrite Hhere; [by apply bool_decide_true|set_solver|done].
  - rewrite El in Hfuel. rewrite length_app in Hfuel. simpl in Hfuel. lia.
Qed.

(** Joining with the block above, in the header maps and in the layout. *)
Lemma ff_join_above_spec H st L1 n L2 :
  ff_rep H st (L1 ++ (n, false) :: L2) →
  let bp := H + units L1 * UNIT_SIZE in
  let nx := hd (ff_base st) (free_addrs (bp + n * UNIT_SIZE) L2) in
  let '(n1, L2') := join_above n L2 in
  let bptr := hd (ff_base st) (free_addrs (bp + n1 * UNIT_SIZE) L2') in
  (if decide (hdr_add bp n = nx) then
     nsize ← ff_size st !! nx; nptr ← ff_ptr st !! nx; Some (n + nsize, nptr)
   else Some (n, nx)) = Some (n1, bptr) ∧
  lseg (ff_ptr st) bptr (free_addrs (bp + n1 * UNIT_SIZE) L2') (ff_base st).
Proof.
  intros HR bp nx.
  pose proof (fr_pos _ _ _ HR) as [Hp1 [Hn Hp2]%Forall_cons]%positive_blocks_app.
  simpl in Hn. pose proof (fr_base _ _ _ HR). pose proof (fr_end _ _ _ HR) as Hend.
  pose proof (units_nonneg _ Hp1). pose proof (units_nonneg _ Hp2).
  rewrite units_app in Hend. simpl in Hend.
  rewrite hdr_add_small by (unfold bp; lia).
  pose proof (fr_ring _ _ _ HR) as Hring. rewrite free_addrs_app in Hring.
  rewrite app_comm_cons in Hring. apply lseg_app in Hring as (z & _ & Hring).
  simpl in Hring. fold bp in Hring.
  pose proof (fr_sized _ _ _ HR) as [_ [_ Hs]]%sized_app. fold bp in Hs.
  assert (z = nx) as -> by (by apply lseg_head in Hring).
  destruct L2 as [|[k [|]] L2]; simpl in *.
  - rewrite decide_False by (unfold nx, bp; lia). done.
  - destruct Hring as (_ & q & Hq & Hring). destruct Hs as [Hs _].
    replace (bp + n * 16 + k * 16) with (bp + (n + k) * 16) in Hring by lia.
    rewrite decide_True by done. unfold nx. rewrite Hs, Hq. simpl.
    rewrite <-(lseg_head _ _ _ _ Hring). done.
  - rewrite decide_False; [done|]. apply Forall_cons in Hp2 as [Hk Hp2]. simpl in Hk.
    intros Hnx. assert (nx ∈ ff_base st :: free_addrs (bp + n * 16 + k * 16) L2) as Hin.
    { unfold nx. destruct (free_addrs _ _); set_solver. }
    apply elem_of_cons in Hin as [Hb|Hin%free_addrs_bound]; [|lia|done]. unfold bp in *. lia.
Qed.
Lemma join_above_facts n L2 :
  positive_blocks ((n, false) :: L2) → coalesced L2 →
  let '(n1, L2') := join_above n L2 in
  n ≤ n1 ∧ positive_blocks L2' ∧ coalesced L2' ∧ starts_free L2' = false ∧
  n1 + units L2' = n + units L2 ∧ n1 + free_units L2' = n + free_units L2 ∧
  (∀ sz H, sized sz (H + n * UNIT_SIZE) L2 → sized sz (H + n1 * UNIT_SIZE) L2').
Proof.
  intros [Hn Hp]%Forall_cons Hc. simpl in Hn.
  destruct L2 as [|[m [|]] L2]; simpl in *.
  - split_and!; auto. lia.
  - apply Forall_cons in Hp as [Hm Hp]. simpl in Hm. destruct Hc as [Hs Hc].
    split_and!; try done; try lia.
    intros sz H. replace (H + n * 16 + m * 16) with (H + (n + m) * 16) by lia. tauto.
  - destruct Hc. split_and!; auto; lia.
Qed.

Lemma ff_rep_lower_size H st L1 n L2 m c :
  ff_rep H st (L1 ++ (n, false) :: L2) → ff_base st :: free_addrs H L1 = m ++ [c] →
  ends_free L1 = false →
  ∃ k, ff_size st !! c = Some k ∧ hdr_add c k ≠ H + units L1 * UNIT_SIZE.
Proof.
  intros HR E Hends. pose proof (fr_base _ _ _ HR). pose proof (fr_end _ _ _ HR) as Hend.
  pose proof (fr_pos _ _ _ HR) as [Hp1 [Hn Hp2]%Forall_cons]%positive_blocks_app.
  simpl in Hn. pose proof (units_nonneg _ Hp1). pose proof (units_nonneg _ Hp2).
  rewrite units_app in Hend. simpl in Hend.
  destruct m as [|z m]; [injection E as <- _|injection E as _ Hfa].
  - exists 0. split; [apply HR|]. rewrite hdr_add_small by lia. lia.
  - destruct (free_addrs_last _ _ _ _ Hfa) as (La & k & Lb & -> & -> & _ & Hnil).
    exists k. pose proof (fr_sized _ _ _ HR) as Hs.
    apply sized_app in Hs as [[_ [Hs _]]%sized_app _]. split; [done|].
    apply positive_blocks_app in Hp1 as [Hpa [Hk Hpb]%Forall_cons]. simpl in Hk.
    pose proof (units_nonneg _ Hpa). pose proof (units_nonneg _ Hpb).
    rewrite units_app in *. simpl in *. rewrite hdr_add_small by lia.
    destruct Lb as [|[j b] Lb]; [by rewrite ends_free_snoc in Hends|].
    apply Forall_cons in Hpb as [Hj Hpb]. simpl in *.
    pose proof (units_nonneg _ Hpb). lia.
Qed.

End free.

(** The state after a release, rebuilt around the freed block [bp] of [n]
    units, with the ring node [c] below it. *)
Section rebuild.
Context (H base : Z) (ptr sz : gmap Z Z) (L1 L2 : layout) (n bptr : Z).
Context (m : list Z) (c : Z).
Let bp := H + units L1 * UNIT_SIZE.
Hypothesis Hbase : 0 < base ∧ base + UNIT_SIZE ≤ H.
Hypothesis Hend : H + (units L1 + n + units L2) * UNIT_SIZE < 2 ^ 64.
Hypothesis Hp1 : positive_blocks L1.
Hypothesis Hn : 0 < n.
Hypothesis Hp2 : positive_blocks L2.
Hypothesis Hc1 : coalesced L1.
Hypothesis Hc2 : coalesced L2.
Hypothesis Hst : starts_free L2 = false.
Hypothesis Hs1 : sized sz H L1.
Hypothesis Hs2 : sized sz (bp + n * UNIT_SIZE) L2.
Hypothesis Hsb : sz !! base = Some 0.
Hypothesis E : base :: free_addrs H L1 = m ++ [c].
Hypothesis Hm : lseg ptr base m c.
Hypothesis Hl : lseg ptr bptr (free_addrs (bp + n * UNIT_SIZE) L2) base.

Local Ltac bounds :=
  pose proof (units_nonneg _ Hp1); pose proof (units_nonneg _ Hp2).

Lemma rebuild_NoDup L :
  positive_blocks L → NoDup (base :: free_addrs H L).
Proof.
  intros HL. apply NoDup_cons. split; [|by apply free_addrs_NoDup].
  intros Hb%free_addrs_bound; [lia|done].
Qed.

Lemma rebuild_bp_low : bp ∉ m ++ [c].
Proof.
  bounds. rewrite <-E. intros [?|Hin%free_addrs_bound]%elem_of_cons; [|lia|done]. lia.
Qed.

Lemma rebuild_bp_high : bp ∉ free_addrs (bp + n * UNIT_SIZE) L2.
Proof. intros Hin%free_addrs_bound; [lia|done]. Qed.

Lemma rebuild_link :
  ends_free L1 = false →
  ff_rep H
    {| ff_ptr := <[c := bp]> (<[bp := bptr]> ptr); ff_size := <[bp := n]> sz;
       ff_base := base; freep := bp;
       total_mem_size := (units L1 + n + units L2) * UNIT_SIZE;
       free_mem_size := (free_units L1 + n + free_units L2) * UNIT_SIZE |}
    (L1 ++ (n, true) :: L2).
Proof.
  intros He. bounds.
  assert (positive_blocks (L1 ++ (n, true) :: L2)) as Hpos.
  { apply positive_blocks_app. split; [done|]. by apply Forall_cons_2. }
  assert (base :: free_addrs H (L1 ++ (n, true) :: L2)
    = m ++ c :: bp :: free_addrs (bp + n * UNIT_SIZE) L2) as ER.
  { rewrite free_addrs_app, app_comm_cons, E, <-app_assoc. done. }
  pose proof (rebuild_NoDup _ Hpos) as Hnd.
  constructor; cbn [ff_ptr ff_size ff_base freep total_mem_size free_mem_size]; try done.
  - rewrite units_app. simpl. lia.
  - apply coalesced_app. simpl. rewrite He, Hst. auto.
  - apply sized_app. fold bp. split; [|split].
    + apply sized_frame; [done|lia|done].
    + apply lookup_insert_eq.
    + apply sized_frame; [done|lia|done].
  - rewrite lookup_insert_ne; [done|]. lia.
  - rewrite ER in *. by apply ring_link.
  - rewrite ER. set_solver.
  - rewrite units_app. simpl. lia.
  - rewrite free_units_app. simpl. lia.
Qed.

Lemma rebuild_join La k :
  L1 = La ++ [(k, true)] →
  ff_rep H
    {| ff_ptr := <[c := bptr]> (<[bp := bptr]> ptr);
       ff_size := <[c := k + n]> (<[bp := n]> sz);
       ff_base := base; freep := c;
       total_mem_size := (units L1 + n + units L2) * UNIT_SIZE;
       free_mem_size := (free_units L1 + n + free_units L2) * UNIT_SIZE |}
    (La ++ (k + n, true) :: L2).
Proof.
  intros HL1. bounds. pose proof rebuild_bp_low as Hlow.
  pose proof Hp1 as Hp1'. pose proof Hc1 as Hc1'. pose proof Hs1 as Hs1'. pose proof E as E'.
  rewrite HL1 in Hp1', Hc1', Hs1', E'.
  apply positive_blocks_app in Hp1' as [Hpa [Hk _]%Forall_cons]. simpl in Hk.
  apply coalesced_app in Hc1' as (Hca & _ & Hea). simpl in Hea.
  apply sized_app in Hs1' as [Hsa _].
  rewrite free_addrs_app, app_comm_cons in E'. apply app_inj_tail in E' as [<- <-].
  pose proof (units_nonneg _ Hpa).
  assert (bp = H + units La * UNIT_SIZE + k * UNIT_SIZE) as Hbp.
  { unfold bp. rewrite HL1, units_app. simpl. lia. }
  assert (positive_blocks (La ++ (k + n, true) :: L2)) as Hpos.
  { apply positive_blocks_app. split; [done|]. apply Forall_cons_2; simpl; [lia|done]. }
  pose proof (rebuild_NoDup _ Hpos) as Hnd.
  replace (bp + n * UNIT_SIZE) with (H + units La * UNIT_SIZE + (k + n) * UNIT_SIZE)
    in Hs2, Hl by lia.
  assert (base :: free_addrs H (La ++ (k + n, true) :: L2)
    = (base :: free_addrs H La) ++ (H + units La * UNIT_SIZE) ::
      free_addrs (H + units La * UNIT_SIZE + (k + n) * UNIT_SIZE) L2) as ER.
  { by rewrite free_addrs_app, app_comm_cons. }
  pose proof rebuild_bp_high as Hhigh.
  replace (bp + n * UNIT_SIZE) with (H + units La * UNIT_SIZE + (k + n) * UNIT_SIZE)
    in Hhigh by lia.
  constructor; cbn [ff_ptr ff_size ff_base freep total_mem_size free_mem_size]; try done.
  - rewrite units_app. simpl. rewrite HL1, units_app in Hend. simpl in Hend. lia.
  - apply coalesced_app. simpl. rewrite Hst. auto.
  - apply sized_app. split; [|split].
    + apply sized_frame; [done|lia|]. apply sized_frame; [done|lia|done].
    + apply lookup_insert_eq.
    + apply sized_frame; [done|lia|]. apply sized_frame; [done|lia|done].
  - rewrite !lookup_insert_ne; [done|lia..].
  - rewrite ER in *. apply NoDup_app in Hnd as (_ & Hd & [Hh _]%NoDup_cons).
    apply lseg_middle. split.
    + apply lseg_frame; [intros Hin; apply (Hd _ Hin); set_solver|].
      apply lseg_frame; [|done]. intros Hin. apply Hlow. set_solver.
    + exists bptr. rewrite lookup_insert_eq. split; [done|].
      apply lseg_frame; [done|]. by apply lseg_frame.
  - rewrite ER. set_solver.
  - rewrite units_app. simpl. rewrite HL1, units_app. simpl. lia.
  - rewrite free_units_app. simpl. rewrite HL1, free_units_app. simpl. lia.
Qed.
End rebuild.

(** [mm_free] marks the block free and joins it with its free neighbours. *)
Lemma ff_free_spec H st L1 n L2 :
  ff_rep H st (L1 ++ (n, false) :: L2) →
  ∃ st', ff_free st (H + (units L1 + 1) * UNIT_SIZE) = Some st' ∧
    ff_base st' = ff_base st ∧ ff_rep H st' (ff_join L1 n L2).
Proof.
  intros HR. set (bp := H + units L1 * UNIT_SIZE).
  destruct (exists_last (l:=ff_base st :: free_addrs H L1)) as (m & c & E); [done|].
  destruct (ff_search_found _ _ _ _ _ _ _ HR E) as (Hsearch & Hc & _ & Hm & Hcb & _ & _).
  pose proof (ff_join_above_spec _ _ _ _ _ HR) as Habove.
  pose proof (fr_pos _ _ _ HR) as [Hp1 Hp2]%positive_blocks_app.
  pose proof (fr_coal _ _ _ HR) as (Hc1 & [_ Hc2] & _)%coalesced_app.
  pose proof (join_above_facts n L2 Hp2 Hc2) as Hfacts.
  pose proof (ff_rep_lower_size _ _ _ _ _ _ _ HR E) as Hlower.
  unfold ff_join. destruct (join_above n L2) as [n1 L2'].
  destruct Habove as [Habove Hrest].
  destruct Hfacts as (Hn1 & Hp2' & Hc2' & Hst & Hu & Hfu & Hsz).
  pose proof (fr_base _ _ _ HR) as Hbase. pose proof (fr_end _ _ _ HR) as Hend.
  pose proof (fr_sized _ _ _ HR) as [Hs1 [Hs Hs2%Hsz]]%sized_app.
  pose proof (fr_free _ _ _ HR) as Hfree. pose proof (fr_total _ _ _ HR) as Htot.
  apply Forall_cons in Hp2 as [Hn Hp2]. simpl in Hn.
  pose proof (units_nonneg _ Hp1). pose proof (units_nonneg _ Hp2).
  pose proof (free_units_bound _ Hp1). pose proof (free_units_bound _ Hp2).
  rewrite units_app in Hend, Htot. rewrite free_units_app in Hfree. simpl in Hend, Hfree, Htot.
  assert (u64 (free_mem_size st + n * UNIT_SIZE)
    = (free_units L1 + n1 + free_units L2') * UNIT_SIZE) as Hf'.
  { rewrite Hfree, wrapu_small; lia. }
  assert (total_mem_size st = (units L1 + n1 + units L2') * UNIT_SIZE) as Ht' by lia.
  unfold ff_free. rewrite decide_False by lia.
  replace (H + (units L1 + 1) * UNIT_SIZE - UNIT_SIZE) with bp by (unfold bp; lia).
  fold bp in Hsearch, Habove, Hs2, Hrest, Hc, Hs, Hlower.
  rewrite Hs, Hsearch. cbn [mbind option_bind]. rewrite Hc. cbn [mbind option_bind].
  rewrite Habove. cbn [mbind option_bind].
  rewrite lookup_insert_ne by (unfold bp; lia). rewrite Hf', Ht'.
  destruct (ends_free L1) eqn:He.
  - apply ends_free_inv in He as (La & k & EL). rewrite EL, last_snoc, removelast_last, <-EL.
    pose proof Hs1 as Hs1'. pose proof E as E'. rewrite EL in Hs1', E'.
    apply sized_app in Hs1' as [_ [Hk _]].
    rewrite free_addrs_app, app_comm_cons in E'. apply app_inj_tail in E' as [_ Ec].
    rewrite Ec in Hk. rewrite Hk. cbn [mbind option_bind].
    pose proof Hp1 as Hp1'. rewrite EL in Hp1'.
    apply positive_blocks_app in Hp1' as [Hpa [Hk0 _]%Forall_cons]. simpl in Hk0.
    pose proof (units_nonneg _ Hpa).
    assert (bp = c + k * UNIT_SIZE) as Hbp.
    { unfold bp. rewrite <-Ec, EL, units_app. simpl. lia. }
    rewrite hdr_add_small by (unfold bp in *; lia). rewrite decide_True by done.
    eexists. split; [done|]. split; [done|].
    eapply rebuild_join; try done; try lia; apply HR.
  - destruct (Hlower eq_refl) as (k & Hk & Hne). rewrite Hk. cbn [mbind option_bind].
    rewrite decide_False by done. eexists. split; [done|]. split; [done|].
    assert (match last L1 with
      | Some (m0, true) => removelast L1 ++ (m0 + n1, true) :: L2'
      | _ => L1 ++ (n1, true) :: L2' end = L1 ++ (n1, true) :: L2') as ->.
    { unfold ends_free in He. by destruct (last L1) as [[? []]|]. }
    eapply rebuild_link; try done; try lia; apply HR.
Qed.

(** [mm_init] yields one free block that spans the region. *)
Lemma ff_init_spec st H total :
  0 < ff_base st → ff_base st + UNIT_SIZE ≤ H → UNIT_SIZE ≤ total → H + total < 2 ^ 64 →
  ff_rep H (ff_init H total st) [(total / UNIT_SIZE, true)].
Proof.
  intros Hb HbH Ht Hend.
  assert (0 < total / UNIT_SIZE) as Hpos by (apply Z.div_str_pos; lia).
  assert (total / UNIT_SIZE * UNIT_SIZE ≤ total) as Hle.
  { rewrite Z.mul_comm. apply Z.mul_div_le. lia. }
  constructor; cbn [ff_init ff_ptr ff_size ff_base freep total_mem_size free_mem_size
    units free_units coalesced sized starts_free andb]; try done; try lia.
  - by apply Forall_singleton.
  - rewrite lookup_insert_ne, lookup_insert_eq by lia. done.
  - by rewrite lookup_insert_eq.
  - split; [done|]. exists H. rewrite lookup_insert_ne, lookup_insert_eq by lia.
    split; [done|]. split; [done|]. exists (ff_base st).
    by rewrite lookup_insert_eq.
  - apply list_elem_of_here.
Qed.

(** ** The implementation of the interface *)

#[export] Instance first_fit_mm : MemoryManager ff_state := {
  mm_alloc st n := default (NULL, st) (ff_alloc st n);
  mm_free st p := default st (ff_free st p);
  mm_get_stats := ff_get_stats;
}.

(** The payloads of the used blocks. *)
Fixpoint payloads (H : Z) (L : layout) : gmap Z Z :=
  match L with
  | [] => ∅
  | (n, b) :: L =>
      let B := payloads (H + n * UNIT_SIZE) L in
      if b : bool then B else <[H + UNIT_SIZE := (n - 1) * UNIT_SIZE]> B
  end.

Definition used_ok (L : layout) : Prop := Forall (λ b, b.2 = false → 2 ≤ b.1) L.

Definition ff_inv (st : ff_state) (B : gmap Z Z) : Prop :=
  ∃ H L, ff_rep H st L ∧ used_ok L ∧ B = payloads H L.

Section payloads.
Lemma payloads_bound H L a n :
  positive_blocks L → payloads H L !! a = Some n →
  H + UNIT_SIZE ≤ a ∧ a + n ≤ H + units L * UNIT_SIZE.
Proof.
  intros HL. revert H. induction HL as [|[k b] L Hk HL IH]; intros H; simpl in *.
  - by rewrite lookup_empty.
  - pose proof (units_nonneg L HL). destruct b.
    + intros ?%IH. lia.
    + intros [[<- <-]|[_ ?%IH]]%lookup_insert_Some; lia.
Qed.

Lemma payloads_none H L a :
  positive_blocks L → a < H + UNIT_SIZE ∨ H + units L * UNIT_SIZE < a →
  used_ok L → payloads H L !! a = None.
Proof.
  intros HL Ha Hu. revert H Ha.
  induction HL as [|[k b] L Hk HL IH]; intros H Ha; simpl in *; [done|].
  apply Forall_cons in Hu as [Hu1 Hu]. simpl in Hu1.
  pose proof (units_nonneg L HL). destruct b.
  - apply IH; [done|lia].
  - rewrite lookup_insert_ne by (specialize (Hu1 eq_refl); lia). apply IH; [done|lia].
Qed.

Lemma payloads_disjoint H L :
  positive_blocks L → disjoint_blocks (payloads H L).
Proof.
  intros HL. revert H. induction HL as [|[k b] L Hk HL IH]; intros H; simpl in *.
  - intros ????. by rewrite lookup_empty.
  - destruct b; [apply IH|]. intros x y n m.
    intros [[<- <-]|[? Hx]]%lookup_insert_Some [[<- <-]|[? Hy]]%lookup_insert_Some ?;
      [done| | |].
    + apply payloads_bound in Hy; [|done]. lia.
    + apply payloads_bound in Hx; [|done]. lia.
    + by apply (IH _ _ _ _ _ Hx Hy).
Qed.

Lemma payloads_size H L a n : used_ok L → payloads H L !! a = Some n → 0 < n.
Proof.
  revert H. induction L as [|[k b] L IH]; intros H; simpl.
  - by rewrite lookup_empty.
  - intros [Hk Hu]%Forall_cons. simpl in Hk. destruct b; [by apply IH|].
    intros [[_ <-]|[_ ?]]%lookup_insert_Some; [|by eapply IH].
    specialize (Hk eq_refl). lia.
Qed.

Lemma payloads_app H L1 L2 :
  positive_blocks L1 → used_ok L1 → positive_blocks L2 →
  payloads H (L1 ++ L2) =
    payloads H L1 ∪ payloads (H + units L1 * UNIT_SIZE) L2.
Proof.
  intros HL Hu HL2. revert H. induction HL as [|[k b] L Hk HL IH]; intros H; simpl in *.
  - replace (H + 0 * 16) with H by lia. by rewrite (left_id ∅ _).
  - apply Forall_cons in Hu as [? Hu]. rewrite (IH Hu).
    replace (H + k * 16 + units L * 16) with (H + (k + units L) * 16) by lia.
    destruct b; [done|]. by rewrite insert_union_l.
Qed.

(** A live payload is a used block of the layout. *)
Lemma payloads_split H L p m :
  payloads H L !! p = Some m →
  ∃ L1 n L2, L = L1 ++ (n, false) :: L2 ∧ p = H + (units L1 + 1) * UNIT_SIZE ∧
    m = (n - 1) * UNIT_SIZE.
Proof.
  revert H. induction L as [|[k b] L IH]; intros H; simpl.
  - by rewrite lookup_empty.
  - intros Hp. assert (payloads (H + k * UNIT_SIZE) L !! p = Some m ∨
      b = false ∧ p = H + UNIT_SIZE ∧ m = (k - 1) * UNIT_SIZE) as [Hp'|(->&->&->)].
    { destruct b; [by left|].
      apply lookup_insert_Some in Hp as [[<- <-]|[_ ?]]; auto. }
    + destruct (IH _ Hp') as (L1 & n & L2 & -> & -> & ->).
      exists ((k, b) :: L1), n, L2. simpl. split_and!; [done|lia|done].
    + exists [], k, L. simpl. split_and!; [done|lia|done].
Qed.
End payloads.

Section refinement.
Lemma used_ok_app L1 L2 : used_ok (L1 ++ L2) ↔ used_ok L1 ∧ used_ok L2.
Proof. apply Forall_app. Qed.

(** The two layouts reached by the operations, seen as payload maps. *)
Lemma payloads_alloc H L1 s n L2 :
  positive_blocks (L1 ++ (s, true) :: L2) → used_ok (L1 ++ (s, true) :: L2) →
  2 ≤ n ≤ s → 
  let p := H + (units L1 + (s - n) + 1) * UNIT_SIZE in
  payloads H (L1 ++ (s, true) :: L2) !! p = None ∧
  payloads H (L1 ++ ff_split s n ++ L2) =
    <[p := (n - 1) * UNIT_SIZE]> (payloads H (L1 ++ (s, true) :: L2)).
Proof.
  intros [HL1 HL2]%positive_blocks_app [Hu1 Hu2]%used_ok_app Hns p.
  pose proof (positive_split s n L1 L2) as Hsp.
  apply Forall_cons in HL2 as [Hs HL2], Hu2 as [_ Hu2]. simpl in Hs.
  assert (positive_blocks (ff_split s n ++ L2)) as Hps.
  { apply positive_blocks_app. split; [|done]. unfold ff_split, positive_blocks.
    case_decide; repeat constructor; simpl; lia. }
  rewrite !payloads_app by (try done; by apply Forall_cons_2).
  assert (payloads H L1 !! p = None) as Hn1.
  { apply payloads_none; [done| |done]. unfold p. lia. }
  split.
  - rewrite lookup_union_r by done. simpl. apply payloads_none; [done| |done].
    unfold p. lia.
  - rewrite insert_union_r by done. f_equal. unfold ff_split, p. case_decide; simpl.
    + f_equal; [lia|]. subst. done.
    + f_equal; [lia|]. f_equal; lia.
Qed.

Lemma payloads_join_above H n L2 :
  let '(n1, L2') := join_above n L2 in
  payloads (H + n1 * UNIT_SIZE) L2' = payloads (H + n * UNIT_SIZE) L2 ∧
  (used_ok L2 → used_ok L2').
Proof.
  destruct L2 as [|[m [|]] L2]; simpl; [done| |done]. split; [f_equal; lia|].
  by intros [??]%Forall_cons.
Qed.

Lemma payloads_free H L1 n L2 :
  positive_blocks (L1 ++ (n, false) :: L2) → used_ok (L1 ++ (n, false) :: L2) →
  coalesced L2 →
  payloads H (ff_join L1 n L2) =
    delete (H + (units L1 + 1) * UNIT_SIZE) (payloads H (L1 ++ (n, false) :: L2)) ∧
  used_ok (ff_join L1 n L2).
Proof.
  intros [HL1 HL2]%positive_blocks_app [Hu1 Hu2]%used_ok_app Hc.
  pose proof (join_above_facts n L2 HL2 Hc) as Hf.
  pose proof (payloads_join_above (H + units L1 * UNIT_SIZE) n L2) as Hj.
  assert (used_ok ((n, false) :: L2)) as Hu2' by done.
  assert (positive_blocks ((n, false) :: L2)) as HL2' by done.
  apply Forall_cons in HL2 as [Hn HL2], Hu2 as [_ Hu2]. simpl in Hn.
  rewrite payloads_app by done.
  rewrite delete_union, (delete_id (payloads H L1)).
  2: { apply payloads_none; [done|lia|done]. }
  unfold ff_join. destruct (join_above n L2) as [n1 L2'].
  destruct Hj as [Hj Hju]. destruct Hf as (Hn1 & HpL2' & _).
  simpl. replace (H + (units L1 + 1) * 16) with (H + units L1 * 16 + 16) by lia.
  rewrite delete_insert_id.
  2: { apply payloads_none; [done|lia|done]. }
  rewrite <-Hj.
  assert (positive_blocks ((n1, true) :: L2')) as Hp1.
  { apply Forall_cons_2; simpl; [lia|done]. }
  assert (used_ok ((n1, true) :: L2')) as Hu1' by (apply Forall_cons_2; [done|by apply Hju]).
  destruct (ends_free L1) eqn:He.
  - apply ends_free_inv in He as (La & k & ->). rewrite last_snoc, removelast_last.
    apply positive_blocks_app in HL1 as [HLa [Hk _]%Forall_cons].
    apply used_ok_app in Hu1 as [Hua _]. simpl in Hk.
    rewrite units_app. simpl. split.
    + rewrite !payloads_app; try done.
      2: { by apply Forall_singleton. }
      2: { apply Forall_cons_2; simpl; [lia|done]. }
      simpl. rewrite (right_id ∅ _). do 2 f_equal. lia.
    + apply used_ok_app. split; [done|]. apply Forall_cons_2; [done|by apply Hju].
  - assert (match last L1 with
      | Some (m0, true) => removelast L1 ++ (m0 + n1, true) :: L2'
      | _ => L1 ++ (n1, true) :: L2' end = L1 ++ (n1, true) :: L2') as ->.
    { unfold ends_free in He. by destruct (last L1) as [[? []]|]. }
    split; [|by apply used_ok_app]. by rewrite payloads_app.
Qed.
End refinement.

Lemma ff_inv_alloc st B n :
  ff_inv st B → 0 < n < mm_max_request →
  let '(p, st') := default (NULL, st) (ff_alloc st n) in
  if decide (p = NULL) then st' = st
  else B !! p = None ∧ ∃ m, n ≤ m ∧ ff_inv st' (<[p := m]> B).
Proof.
  intros (H & L & HR & Hu & ->) Hn.
  destruct (ff_units_spec n Hn) as (Hge & Hn2 & _).
  destruct (ff_alloc_spec H st L n HR Hn)
    as [[-> _]|(L1 & s & L2 & st' & -> & Hs & -> & _ & HR')]; simpl.
  { done. }
  pose proof (fr_base _ _ _ HR). pose proof (fr_pos _ _ _ HR) as Hpos.
  destruct (payloads_alloc H L1 s (ff_units n) L2 Hpos Hu) as [Hnone Heq]; [lia|].
  apply positive_blocks_app in Hpos as [Hp1 _]. pose proof (units_nonneg _ Hp1).
  rewrite decide_False by lia. split; [done|].
  exists ((ff_units n - 1) * UNIT_SIZE). split; [pose proof (Z.div_mod (n + 15) 16); pose proof (Z.mod_pos_bound (n + 15) 16); lia|].
  exists H, (L1 ++ ff_split s (ff_units n) ++ L2). split; [done|]. split; [|done].
  apply used_ok_app in Hu as [Hu1 [_ Hu2]%Forall_cons].
  repeat (apply used_ok_app; split); [done| |done].
  unfold ff_split. case_decide; repeat constructor; simpl; try done; lia.
Qed.

Lemma ff_inv_free st B p m :
  ff_inv st B → B !! p = Some m → ff_inv (default st (ff_free st p)) (delete p B).
Proof.
  intros (H & L & HR & Hu & ->) Hp.
  destruct (payloads_split _ _ _ _ Hp) as (L1 & n & L2 & -> & -> & ->).
  destruct (ff_free_spec _ _ _ _ _ HR) as (st' & -> & _ & HR'). simpl.
  pose proof (fr_coal _ _ _ HR) as (_ & [_ Hc] & _)%coalesced_app.
  destruct (payloads_free H L1 n L2 (fr_pos _ _ _ HR) Hu Hc) as [<- ?].
  by exists H, (ff_join L1 n L2).
Qed.

(** First fit discharges the contract of the memory manager. *)
#[export, program] Instance first_fit_mm_ok : MemoryManagerOk ff_state := {
  mm_inv := ff_inv;
  mm_alloc_ok := ff_inv_alloc;
  mm_free_ok := ff_inv_free;
}.
Next Obligation.
  intros st B (H & L & HR & _ & ->). apply payloads_disjoint, (fr_pos _ _ _ HR).
Qed.
Next Obligation.
  intros st B a n (H & L & HR & Hu & ->) Ha. pose proof (fr_base _ _ _ HR).
  split; [|by eapply payloads_size].
  apply payloads_bound in Ha; [lia|]. apply HR.
Qed.
Next Obligation. done. Qed.
Next Obligation. done. Qed.
Next Obligation.
  intros st B (H & L & HR & _ & _). simpl.
  pose proof (free_units_bound L (fr_pos _ _ _ HR)).
  rewrite (fr_total _ _ _ HR), (fr_free _ _ _ HR).
  rewrite decide_True by lia. lia.
Qed.

(** The boot state: the static header [base] below the heap. *)
Definition ff_boot (heap size : Z) : ff_state := ff_init heap size (ff_blank UNIT_SIZE).

Lemma ff_boot_inv heap size :
  2 * UNIT_SIZE ≤ heap → UNIT_SIZE ≤ size → heap + size < 2 ^ 64 →
  mm_inv (ff_boot heap size) ∅.
Proof.
  intros. exists heap, [(size / UNIT_SIZE, true)]. split; [|split].
  - apply ff_init_spec; simpl; lia.
  - by apply Forall_singleton.
  - done.
Qed.

(** ** Properties *)

Lemma ff_join_split L1 s n L2 :
  coalesced (L1 ++ (s, true) :: L2) → 
  (s = n → ff_join L1 n L2 = L1 ++ (s, true) :: L2) ∧
  ff_join (L1 ++ [(s - n, true)]) n L2 = L1 ++ (s, true) :: L2.
Proof.
  intros (_ & [Hs _] & He)%coalesced_app. simpl in He, Hs.
  assert (join_above n L2 = (n, L2)) as Hj by (by destruct L2 as [|[? []] ?]).
  unfold ff_join. rewrite Hj, last_snoc, removelast_last.
  replace (s - n + n) with s by lia. split; [|done].
  intros ->. rewrite andb_true_r in He. unfold ends_free in He.
  by destruct (last L1) as [[? []]|].
Qed.

(** C15: a request is refused exactly when no free block of the heap is large
    enough; otherwise the payload returned is carved from the end of a free
    block that fits, the rest of the heap is as it was, and the heap stays
    well formed. *)
Theorem ff_alloc_correct H st L nbytes (HR : ff_rep H st L)
    (Hn : 0 < nbytes < mm_max_request) :
  let n := (nbytes + 15) / 16 + 1 in
  if decide (Exists (λ b, b.2 = true ∧ n ≤ b.1) L) then
    ∃ L1 s L2 st',
      L = L1 ++ (s, true) :: L2 ∧ n ≤ s ∧
      ff_alloc st nbytes = Some (H + (units L1 + (s - n) + 1) * 16, st') ∧
      ff_rep H st' (L1 ++ ff_split s n ++ L2)
  else ff_alloc st nbytes = Some (NULL, st).
Proof.
  destruct (ff_units_spec nbytes Hn) as (Heq & _). intros n. fold n in Heq.
  destruct (ff_alloc_spec H st L nbytes HR Hn)
    as [[Hr Hno]|(L1 & s & L2 & st' & -> & Hs & Hr & _ & HR')]; rewrite Heq in *.
  - rewrite decide_False; [done|]. intros (x & Hx & Hf & Hle)%Exists_exists.
    destruct x as [s b]. simpl in *. subst b.
    apply list_elem_of_split in Hx as (L1 & L2 & ->). specialize (Hno _ _ _ eq_refl). lia.
  - rewrite decide_True; [by exists L1, s, L2, st'|].
    apply Exists_app. right. by apply Exists_cons_hd.
Qed.

(** C16: releasing a used block always terminates, joins the block with the
    free neighbours it has on either side, and keeps the heap well formed:
    in particular no two neighbouring free blocks ever exist. *)
Theorem ff_free_coalesces H st L1 n L2 (HR : ff_rep H st (L1 ++ (n, false) :: L2)) :
  ∃ st', ff_free st (H + (units L1 + 1) * 16) = Some st' ∧
    ff_rep H st' (ff_join L1 n L2) ∧
    free_mem_size st' = free_mem_size st + n * 16.
Proof.
  destruct (ff_free_spec H st L1 n L2 HR) as (st' & Hf & _ & HR').
  exists st'. split; [done|]. split; [done|].
  rewrite (fr_free _ _ _ HR'), (fr_free _ _ _ HR).
  pose proof (fr_total _ _ _ HR') as Ht'. pose proof (fr_pos _ _ _ HR) as Hpos.
  pose proof (fr_coal _ _ _ HR) as (_ & [_ Hc] & _)%coalesced_app.
  apply positive_blocks_app in Hpos as [_ Hp2].
  pose proof (join_above_facts n L2 Hp2 Hc) as Hj.
  unfold ff_join in *. destruct (join_above n L2) as [n1 L2'].
  destruct Hj as (_ & _ & _ & _ & _ & Hfu & _).
  rewrite free_units_app. simpl.
  destruct (last L1) as [[m []]|] eqn:El; rewrite free_units_app; simpl; try lia.
  apply last_Some in El as [La ->].
  rewrite removelast_last, !free_units_app. simpl. lia.
Qed.

(** Releasing a block right after it was allocated restores the layout
    of the heap exactly. *)
Theorem ff_alloc_free_roundtrip H st L nbytes p st' (HR : ff_rep H st L)
    (Hn : 0 < nbytes < mm_max_request) (Ha : ff_alloc st nbytes = Some (p, st'))
    (Hp : p ≠ NULL) :
  ∃ st'', ff_free st' p = Some st'' ∧ ff_rep H st'' L.
Proof.
  destruct (ff_alloc_spec H st L nbytes HR Hn)
    as [[Hr _]|(L1 & s & L2 & s' & -> & Hs & Hr & _ & HR')]; rewrite Hr in Ha;
    simplify_eq.
  pose proof (fr_coal _ _ _ HR) as Hc.
  destruct (ff_join_split _ _ (ff_units nbytes) _ Hc) as [J1 J2].
  unfold ff_split in HR'. case_decide as Hd.
  - destruct (ff_free_spec H st' L1 (ff_units nbytes) L2 HR') as (st'' & Hf & _ & HR'').
    exists st''. rewrite J1 in HR'' by done. split; [|done]. rewrite <-Hf. f_equal. lia.
  - simpl in HR'. rewrite cons_middle, app_assoc in HR'.
    destruct (ff_free_spec H st' _ (ff_units nbytes) L2 HR') as (st'' & Hf & _ & HR'').
    exists st''. rewrite J2 in HR''. split; [|done]. rewrite <-Hf. f_equal.
    rewrite units_app. simpl. lia.
Qed.

(** The figures [mm_get_stats] reports are the sizes of the heap, of
    its free blocks and of its used blocks (headers included). *)
Theorem ff_stats_correct H st L (HR : ff_rep H st L) :
  ff_get_stats st =
    {| total_memory := units L * 16; free_memory := free_units L * 16;
       occupied_memory := (units L - free_units L) * 16 |}.
Proof.
  pose proof (free_units_bound L (fr_pos _ _ _ HR)).
  unfold ff_get_stats. rewrite (fr_total _ _ _ HR), (fr_free _ _ _ HR).
  rewrite decide_True by lia. f_equal. lia.
Qed.

(** A concrete heap of 64 units, used by the witnesses. *)
Definition ff_demo : ff_state := ff_boot 4096 1024.

Lemma ff_demo_rep : ff_rep 4096 ff_demo [(64, true)].
Proof. apply ff_init_spec; simpl; lia. Qed.

(** The same heap after [mm_alloc(100)]. *)
Definition ff_demo1 : ff_state := default ff_demo (snd <$> ff_alloc ff_demo 100).

Lemma ff_demo1_rep : ff_rep 4096 ff_demo1 [(56, true); (8, false)].
Proof.
  assert (0 < 100 < mm_max_request) as Hn by (unfold mm_max_request; lia).
  destruct (ff_alloc_spec _ _ _ 100 ff_demo_rep Hn)
    as [[_ Hno]|(L1 & s & L2 & st' & HL & Hs & Hr & _ & HR')].
  - specialize (Hno [] 64 [] eq_refl). vm_compute in Hno. done.
  - assert (L1 = [] ∧ s = 64 ∧ L2 = []) as (-> & -> & ->).
    { destruct L1 as [|? L1]; simplify_list_eq; [done|by destruct L1]. }
    unfold ff_demo1. rewrite Hr. exact HR'.
Qed.

Lemma ff_alloc_correct_witness :
  ∃ L1 s L2 st', [(64, true)] = L1 ++ (s, true) :: L2 ∧ 8 ≤ s ∧
    ff_alloc ff_demo 100 = Some (4096 + (units L1 + (s - 8) + 1) * 16, st') ∧
    ff_rep 4096 st' (L1 ++ ff_split s 8 ++ L2).
Proof.
  refine (ff_alloc_correct 4096 ff_demo [(64, true)] 100 ff_demo_rep _).
  unfold mm_max_request. lia.
Defined.

Lemma ff_free_coalesces_witness :
  ∃ st', ff_free ff_demo1 5008 = Some st' ∧ ff_rep 4096 st' [(64, true)] ∧
    free_mem_size st' = free_mem_size ff_demo1 + 8 * 16.
Proof. exact (ff_free_coalesces 4096 ff_demo1 [(56, true)] 8 [] ff_demo1_rep). Defined.

Lemma ff_alloc_free_roundtrip_witness :
  ∃ st'', ff_free ff_demo1 5008 = Some st'' ∧ ff_rep 4096 st'' [(64, true)].
Proof.
  refine (ff_alloc_free_roundtrip 4096 ff_demo [(64, true)] 100 5008 ff_demo1
    ff_demo_rep _ _ _).
  - unfold mm_max_request. lia.
  - vm_compute. reflexivity.
  - lia.
Defined.

Lemma ff_stats_correct_witness :
  ff_get_stats ff_demo1 =
    {| total_memory := 1024; free_memory := 896; occupied_memory := 128 |}.
Proof. exact (ff_stats_correct 4096 ff_demo1 [(56, true); (8, false)] ff_demo1_rep). Defined.
