(* ===== verification/Buddy.v ===== *)
(** * The buddy allocator ([memory/buddy_system_mm.c])

    The second implementation of [include/memory_manager.h].  A block of
    order [o] has [MIN_BLOCK_SIZE << o] bytes.  The first eight bytes of a
    block are a [free_block_t] while it is free and an [alloc_metadata_t]
    while it is used; the two structures share the memory, so the field maps
    [bd_next] and [bd_order] never both have an entry for one address. *)

From S2P Require Import Prelude Chain MemoryManager.

Definition MIN_BLOCK_SIZE : Z := 0x1000.
Definition MAX_ORDER : Z := 16.

(** [sizeof(alloc_metadata_t)] and [sizeof(free_block_t)]. *)
Abbreviation HDR := 8 (only parsing).

Record bd_state := BD {
  bd_next : gmap Z Z;       (* free_block_t.next *)
  bd_order : gmap Z Z;      (* alloc_metadata_t.order *)
  buddy_lists : gmap Z Z;   (* the array of MAX_ORDER + 1 heads *)
  start_addr : Z;
  total_managed_bytes : Z;
}.

Definition set_head (st : bd_state) (o h : Z) : bd_state :=
  BD (bd_next st) (bd_order st) (<[o := h]> (buddy_lists st)) (start_addr st)
     (total_managed_bytes st).

(** [block->next = n] and [metadata->order = o] overwrite the same bytes. *)
Definition set_next (st : bd_state) (b n : Z) : bd_state :=
  BD (<[b := n]> (bd_next st)) (delete b (bd_order st)) (buddy_lists st)
     (start_addr st) (total_managed_bytes st).
Definition set_order (st : bd_state) (b o : Z) : bd_state :=
  BD (delete b (bd_next st)) (<[b := o]> (bd_order st)) (buddy_lists st)
     (start_addr st) (total_managed_bytes st).

(** [metadata->order]: of a block that is free, the low byte of its [next]. *)
Definition get_order (st : bd_state) (b : Z) : option Z :=
  match bd_order st !! b with
  | Some o => Some o
  | None => u8 <$> bd_next st !! b
  end.

(** The bytes of a block: [(uint64_t)MIN_BLOCK_SIZE << order]. *)
Definition bsize (o : Z) : Z := Z.shiftl MIN_BLOCK_SIZE o.

(** ** [mm_init] *)

(** [while ((1 << k) * MIN_BLOCK_SIZE <= total_size && k <= MAX_ORDER) k++] *)
Fixpoint init_order_loop (fuel : nat) (total_size k : Z) : Z :=
  match fuel with
  | O => k
  | S fuel =>
      if decide (Z.shiftl 1 k * MIN_BLOCK_SIZE ≤ total_size ∧ k ≤ MAX_ORDER)
      then init_order_loop fuel total_size (k + 1) else k
  end.

Definition null_heads : gmap Z Z :=
  list_to_map ((λ i, (Z.of_nat i, NULL)) <$> seq 0 17).

Definition bd_init (base_address total_size : Z) (st : bd_state) : bd_state :=
  let max_k := init_order_loop 18 total_size 0 - 1 in
  if decide (max_k < 0) then
    BD (bd_next st) (bd_order st) null_heads (start_addr st) 0
  else
    let st := set_next st base_address NULL in
    BD (bd_next st) (bd_order st) (<[max_k := base_address]> null_heads) base_address
       (Z.shiftl 1 max_k * MIN_BLOCK_SIZE).

(** ** [mm_alloc] *)

(** [while (block_size < required_space)]; it does not end when the shift has
    pushed the bit out. *)
Fixpoint order_loop (fuel : nat) (required block_size order : Z) : option Z :=
  match fuel with
  | O => None
  | S fuel =>
      if decide (block_size < required)
      then order_loop fuel required (u64 (Z.shiftl block_size 1)) (order + 1)
      else Some order
  end.

Definition required_space (size : Z) : Z :=
  let r := u64 (size + HDR) in if decide (r < HDR) then HDR else r.

Definition order_fuel : nat := 54.

(** [while (current_order > target_order)], which runs [n] times. *)
Fixpoint split_loop (n : nat) (st : bd_state) (block order : Z) : option bd_state :=
  match n with
  | O => Some st
  | S n =>
      let order := order - 1 in
      let buddy := u64 (block + bsize order) in
      h ← buddy_lists st !! order;
      split_loop n (set_head (set_next st buddy h) order buddy) block order
  end.

(** [while (current_order <= MAX_ORDER)] *)
Fixpoint alloc_loop (fuel : nat) (st : bd_state) (current target : Z)
  : option (Z * bd_state) :=
  match fuel with
  | O => None
  | S fuel =>
      if decide (current ≤ MAX_ORDER) then
        block ← buddy_lists st !! current;
        if decide (block = NULL) then alloc_loop fuel st (current + 1) target
        else
          n ← bd_next st !! block;
          st' ← split_loop (Z.to_nat (current - target)) (set_head st current n)
                  block current;
          Some (u64 (block + HDR), set_order st' block (u8 target))
      else Some (NULL, st)
  end.

Definition bd_alloc (st : bd_state) (size : Z) : option (Z * bd_state) :=
  if decide (size = 0) then Some (NULL, st)
  else
    target ← order_loop order_fuel (required_space size) MIN_BLOCK_SIZE 0;
    if decide (MAX_ORDER < target) then Some (NULL, st)
    else alloc_loop 18 st target target.

(** ** [mm_free] *)

Fixpoint is_free_loop (fuel : nat) (st : bd_state) (buddy current : Z) : option bool :=
  match fuel with
  | O => None
  | S fuel =>
      if decide (current = NULL) then Some false
      else if decide (current = buddy) then Some true
      else n ← bd_next st !! current; is_free_loop fuel st buddy n
  end.

Definition bd_fuel (st : bd_state) : nat := S (size (bd_next st)).

Definition is_buddy_free (st : bd_state) (buddy order : Z) : option bool :=
  h ← buddy_lists st !! order; is_free_loop (bd_fuel st) st buddy h.

(** [prev] is [NULL] before the first step. *)
Fixpoint unlink_loop (fuel : nat) (st : bd_state) (b order prev current : Z)
  : option bd_state :=
  match fuel with
  | O => None
  | S fuel =>
      if decide (current = NULL) then Some st
      else
        n ← bd_next st !! current;
        if decide (current = b) then
          if decide (prev = NULL) then Some (set_head st order n)
          else Some (set_next st prev n)
        else unlink_loop fuel st b order current n
  end.

Definition remove_from_list (st : bd_state) (b order : Z) : option bd_state :=
  h ← buddy_lists st !! order; unlink_loop (bd_fuel st) st b order NULL h.

(** The address [mm_free] computes for the buddy of a block. *)
Definition buddy_of (st : bd_state) (block order : Z) : Z :=
  u64 (Z.lxor (u64 (block - start_addr st)) (bsize order) + start_addr st).

(** [while (current_order < MAX_ORDER)] *)
Fixpoint free_loop (fuel : nat) (st : bd_state) (block order : Z)
  : option (Z * Z * bd_state) :=
  match fuel with
  | O => None
  | S fuel =>
      if decide (order < MAX_ORDER) then
        let buddy := buddy_of st block order in
        b ← is_buddy_free st buddy order;
        if b : bool then
          st' ← remove_from_list st buddy order;
          free_loop fuel st' (if decide (buddy < block) then buddy else block) (order + 1)
        else Some (block, order, st)
      else Some (block, order, st)
  end.

Definition bd_free (st : bd_state) (ptr : Z) : option bd_state :=
  if decide (ptr = NULL) then Some st
  else
    let block := u64 (ptr - HDR) in
    order ← get_order st block;
    '(block, order, st) ← free_loop 17 st block order;
    h ← buddy_lists st !! order;
    Some (set_head (set_next st block h) order block).

(** ** [mm_get_stats] *)

Fixpoint list_bytes (fuel : nat) (st : bd_state) (order node acc : Z) : option Z :=
  match fuel with
  | O => None
  | S fuel =>
      if decide (node = NULL) then Some acc
      else n ← bd_next st !! node; list_bytes fuel st order n (u64 (acc + bsize order))
  end.

(** [for (order = from; n more; order++)] *)
Fixpoint orders_bytes (n : nat) (st : bd_state) (from acc : Z) : option Z :=
  match n with
  | O => Some acc
  | S n =>
      h ← buddy_lists st !! from;
      acc ← list_bytes (bd_fuel st) st from h acc;
      orders_bytes n st (from + 1) acc
  end.

Definition bd_get_stats (st : bd_state) : option MemoryStats :=
  free ← orders_bytes 17 st 0 0;
  Some {| total_memory := total_managed_bytes st; free_memory := free;
          occupied_memory := if decide (free ≤ total_managed_bytes st)
                             then total_managed_bytes st - free else 0 |}.

Definition bd_blank : bd_state := BD ∅ ∅ ∅ 0 0.
Definition bd_boot (heap size : Z) : bd_state := bd_init heap size bd_blank.

(** ** Block maps

    The abstract state: every block of the managed region by its address
    relative to [start_addr], with its order and whether it is free. *)

Abbreviation blocks := (gmap Z (Z * bool)).

(** The blocks of a region of order [K]: aligned to their size, inside the
    region, and pairwise disjoint. *)
Record tiling (K : Z) (B : blocks) : Prop := {
  tl_order a o f : B !! a = Some (o, f) → 0 ≤ o ≤ K;
  tl_align a o f : B !! a = Some (o, f) → (bsize o | a);
  tl_range a o f : B !! a = Some (o, f) → 0 ≤ a ∧ a + bsize o ≤ bsize K;
  tl_disj a o f b p g :
    B !! a = Some (o, f) → B !! b = Some (p, g) → a ≠ b →
    a + bsize o ≤ b ∨ b + bsize p ≤ a;
}.

(** The other half of the block of order [o + 1] that [a] belongs to. *)
Definition buddy (a o : Z) : Z := Z.lxor a (bsize o).

(** No two halves of one block are both free. *)
Definition merged (B : blocks) : Prop :=
  ∀ a o, B !! a = Some (o, true) → B !! buddy a o ≠ Some (o, true).

(** The free lists hold exactly the free blocks, a list per order, and every
    used block records its order. *)
Definition free_list (base : Z) (B : blocks) (st : bd_state) (o : Z) (l : list Z) : Prop :=
  NoDup l ∧ (∀ p, p ∈ l ↔ B !! (p - base) = Some (o, true)) ∧
  ∃ h, buddy_lists st !! o = Some h ∧ lseg (bd_next st) h l NULL.

Record heap (base : Z) (B : blocks) (st : bd_state) : Prop := {
  hp_lists o : 0 ≤ o ≤ MAX_ORDER → ∃ l, free_list base B st o l;
  hp_meta a o : B !! a = Some (o, false) → bd_order st !! (base + a) = Some o;
  hp_start : start_addr st = base;
  hp_nonneg a x : B !! a = Some x → 0 ≤ a;
  hp_base : 0 < base;
}.

(** The bytes of the blocks whose flag satisfies [P]. *)
Definition bytes (P : bool → bool) (B : blocks) : Z :=
  map_fold (λ _ x acc, (if P x.2 then bsize x.1 else 0) + acc) 0 B.
Abbreviation all_bytes := (bytes (λ _, true)).
Abbreviation free_bytes := (bytes (λ f, f)).
Abbreviation used_bytes := (bytes negb).

Record bd_rep (base K : Z) (st : bd_state) (B : blocks) : Prop := {
  br_order : 0 ≤ K ≤ MAX_ORDER;
  br_bound : base + bsize K < 2 ^ 64;
  br_tiling : tiling K B;
  br_merged : merged B;
  br_cover : all_bytes B = bsize K;
  br_heap : heap base B st;
  br_total : total_managed_bytes st = bsize K;
}.

(** What the two operations do to the block map: carve a block of order [o]
    out of the one at [a] whose order is [n] higher, and give a block back,
    joining it with its buddy while that is free. *)
Fixpoint carve (n : nat) (B : blocks) (a o : Z) : blocks :=
  match n with
  | O => B
  | S n => carve n (<[a + bsize (o - 1) := (o - 1, true)]> B) a (o - 1)
  end.

Fixpoint give_back (n : nat) (B : blocks) (a o : Z) : blocks :=
  match n with
  | O => <[a := (o, true)]> B
  | S n =>
      if decide (B !! buddy a o = Some (o, true))
      then give_back n (delete (buddy a o) B) (Z.min a (buddy a o)) (o + 1)
      else <[a := (o, true)]> B
  end.

(** ** Sizes and buddies *)

Lemma bsize_eq o : 0 ≤ o → bsize o = 4096 * 2 ^ o.
Proof. intros. unfold bsize, MIN_BLOCK_SIZE. by rewrite Z.shiftl_mul_pow2. Qed.

Lemma bsize_pow o : 0 ≤ o → bsize o = 2 ^ (12 + o).
Proof. intros. rewrite bsize_eq, Z.pow_add_r by lia. done. Qed.

Lemma bsize_succ o : 0 ≤ o → bsize (o + 1) = 2 * bsize o.
Proof. intros. rewrite !bsize_eq, Z.pow_add_r by lia. lia. Qed.

Lemma bsize_pos o : 0 ≤ o → 4096 ≤ bsize o.
Proof. intros. rewrite bsize_eq by done. pose proof (Z.pow_pos_nonneg 2 o). lia. Qed.

Lemma bsize_le o p : 0 ≤ o ≤ p → bsize o ≤ bsize p.
Proof.
  intros. rewrite !bsize_eq by lia.
  pose proof (Z.pow_le_mono_r 2 o p). lia.
Qed.

Lemma bsize_lt_inv o p : 0 ≤ o → 0 ≤ p → bsize o < bsize p → o < p.
Proof.
  intros. apply Z.nle_gt. intros ?. pose proof (bsize_le p o). lia.
Qed.

Lemma bsize_divide o p : 0 ≤ o ≤ p → (bsize o | bsize p).
Proof.
  intros. rewrite !bsize_pow by lia. exists (2 ^ (p - o)).
  rewrite <-Z.pow_add_r by lia. f_equal. lia.
Qed.

(** The buddy of an even block is above it, that of an odd one below. *)
Lemma buddy_mul q o :
  0 ≤ o → buddy (q * bsize o) o = (if Z.even q then q + 1 else q - 1) * bsize o.
Proof.
  intros Ho. unfold buddy.
  assert (∀ z, z * bsize o = Z.shiftl z (12 + o)) as E.
  { intros z. by rewrite Z.shiftl_mul_pow2, bsize_pow by lia. }
  rewrite <-(Z.mul_1_l (bsize o)) at 2. rewrite !E, <-Z.shiftl_lxor. f_equal.
  destruct (Z.even q) eqn:Eq.
  - apply Z.even_spec in Eq as [k ->]. destruct k; try done.
    by destruct p.
  - assert (Z.odd q = true) as Hq by (by rewrite <-Z.negb_even, Eq).
    apply Z.odd_spec in Hq as [k ->]. destruct k; try done. by destruct p.
Qed.

Lemma buddy_cases a o :
  0 ≤ o → (bsize o | a) →
  (buddy a o = a + bsize o ∧ (bsize (o + 1) | a)) ∨
  (buddy a o = a - bsize o ∧ (bsize (o + 1) | a - bsize o)).
Proof.
  intros Ho [q ->]. rewrite buddy_mul, bsize_succ by done.
  destruct (Z.even q) eqn:Eq.
  - left. apply Z.even_spec in Eq as [k ->]. split; [lia|]. exists k. lia.
  - right. assert (Z.odd q = true) as Hq by (by rewrite <-Z.negb_even, Eq).
    apply Z.odd_spec in Hq as [k ->]. split; [lia|]. exists k. lia.
Qed.

Lemma buddy_above a o : 0 ≤ o → (bsize (o + 1) | a) → buddy a o = a + bsize o.
Proof.
  intros Ho [q ->]. rewrite bsize_succ by done.
  replace (q * (2 * bsize o)) with ((2 * q) * bsize o) by lia.
  rewrite buddy_mul, Z.even_mul by done. simpl. lia.
Qed.

Lemma buddy_ne a o : 0 ≤ o → (bsize o | a) → buddy a o ≠ a.
Proof. intros Ho Hd. pose proof (bsize_pos o Ho). destruct (buddy_cases a o Ho Hd); lia. Qed.

Lemma buddy_involutive a o : buddy (buddy a o) o = a.
Proof. unfold buddy. by rewrite Z.lxor_assoc, Z.lxor_nilpotent, Z.lxor_0_r. Qed.

Lemma buddy_inj a b o : buddy a o = buddy b o → a = b.
Proof. intros E. by rewrite <-(buddy_involutive a o), E, buddy_involutive. Qed.

Lemma divide_gap n x y : 0 < n → (n | x) → (n | y) → x < y → x + n ≤ y.
Proof. intros ? [q ->] [p ->] ?. assert (q < p) by nia. nia. Qed.

(** ** Block maps *)
Section tiling.
Implicit Types (B : blocks).

Lemma tiling_flag K B a o f f' :
  tiling K (<[a := (o, f)]> B) → tiling K (<[a := (o, f')]> B).
Proof.
  intros HT.
  assert (∀ b p g, <[a := (o, f')]> B !! b = Some (p, g) →
    ∃ g', <[a := (o, f)]> B !! b = Some (p, g')) as Hback.
  { intros b p g. destruct (decide (a = b)) as [->|].
    - rewrite !lookup_insert_eq. intros. simplify_eq. eauto.
    - rewrite !lookup_insert_ne by done. eauto. }
  split.
  - intros b p g (g' & ?)%Hback. by eapply (tl_order _ _ HT).
  - intros b p g (g' & ?)%Hback. by eapply (tl_align _ _ HT).
  - intros b p g (g' & ?)%Hback. by eapply (tl_range _ _ HT).
  - intros b p g c q h (g' & ?)%Hback (h' & ?)%Hback ?. by eapply (tl_disj _ _ HT).
Qed.

Lemma tiling_delete K B a : tiling K B → tiling K (delete a B).
Proof.
  intros HT. split.
  - intros b p g [_ ?]%lookup_delete_Some. by eapply (tl_order _ _ HT).
  - intros b p g [_ ?]%lookup_delete_Some. by eapply (tl_align _ _ HT).
  - intros b p g [_ ?]%lookup_delete_Some. by eapply (tl_range _ _ HT).
  - intros b p g c q h [_ ?]%lookup_delete_Some [_ ?]%lookup_delete_Some ?.
    by eapply (tl_disj _ _ HT).
Qed.

(** A block can be added where it is clear of the others. *)
Lemma tiling_insert K B a o f :
  tiling K B → 0 ≤ o ≤ K → (bsize o | a) → 0 ≤ a → a + bsize o ≤ bsize K →
  (∀ b p g, b ≠ a → B !! b = Some (p, g) → a + bsize o ≤ b ∨ b + bsize p ≤ a) →
  tiling K (<[a := (o, f)]> B).
Proof.
  intros HT Ho Hd H0 HK Hdisj. split.
  - intros b p g [[<- ?]|[? ?]]%lookup_insert_Some; simplify_eq; [done|].
    by eapply (tl_order _ _ HT).
  - intros b p g [[<- ?]|[? ?]]%lookup_insert_Some; simplify_eq; [done|].
    by eapply (tl_align _ _ HT).
  - intros b p g [[<- ?]|[? ?]]%lookup_insert_Some; simplify_eq; [done|].
    by eapply (tl_range _ _ HT).
  - intros b p g c q h [[<- ?]|[? ?]]%lookup_insert_Some
      [[<- ?]|[? ?]]%lookup_insert_Some ?; simplify_eq; eauto using tl_disj.
    destruct (Hdisj b p g); auto.
Qed.

(** What a block's place says about the blocks that may share the map. *)
Lemma tiling_apart K B a o f b p g :
  tiling K (<[a := (o, f)]> B) → b ≠ a → B !! b = Some (p, g) →
  0 ≤ p ≤ K ∧ (bsize p | b) ∧ 0 ≤ b ∧ b + bsize p ≤ bsize K ∧
  (a + bsize o ≤ b ∨ b + bsize p ≤ a).
Proof.
  intros HT Hne Hb.
  assert (<[a := (o, f)]> B !! b = Some (p, g)) as Hb' by (by rewrite lookup_insert_ne).
  pose proof (tl_order _ _ HT _ _ _ Hb'). pose proof (tl_align _ _ HT _ _ _ Hb').
  pose proof (tl_range _ _ HT _ _ _ Hb').
  pose proof (tl_disj _ _ HT _ _ _ _ _ _ (lookup_insert_eq B a (o, f)) Hb').
  naive_solver.
Qed.

Lemma tiling_at K B a o f :
  tiling K (<[a := (o, f)]> B) →
  0 ≤ o ≤ K ∧ (bsize o | a) ∧ 0 ≤ a ∧ a + bsize o ≤ bsize K.
Proof.
  intros HT. pose proof (lookup_insert_eq B a (o, f)) as Ha.
  pose proof (tl_order _ _ HT _ _ _ Ha). pose proof (tl_align _ _ HT _ _ _ Ha).
  pose proof (tl_range _ _ HT _ _ _ Ha). tauto.
Qed.

Lemma tiling_split K B a o f f' g :
  tiling K (<[a := (o + 1, f)]> B) → B !! a = None → 0 ≤ o →
  B !! (a + bsize o) = None ∧
  tiling K (<[a := (o, f')]> (<[a + bsize o := (o, g)]> B)).
Proof.
  intros HT Ha Ho. destruct (tiling_at _ _ _ _ _ HT) as (HoK & Hd & H0 & HK).
  pose proof (bsize_pos o Ho) as Hpos. pose proof (bsize_succ o Ho) as Hs.
  assert (B !! (a + bsize o) = None) as Hn.
  { apply eq_None_not_Some. intros [[p h] Hb].
    eapply tiling_apart in Hb as (Hp & Hdp & _ & _ & Hb); [|done|lia].
    pose proof (bsize_pos p). lia. }
  split; [done|].
  assert (tiling K B) as HB.
  { rewrite <-(delete_insert_id B a (o + 1, f)) by done. by apply tiling_delete. }
  assert (bsize o | a) as Hda.
  { transitivity (bsize (o + 1)); [|done]. apply bsize_divide. lia. }
  apply tiling_insert; [apply tiling_insert| | | | |]; try done; try lia.
  - apply Z.divide_add_r; [done|apply Z.divide_refl].
  - intros b p h Hne Hb. eapply tiling_apart in Hb as (Hp & Hdp & _ & _ & Hb); [|done|congruence].
    lia.
  - intros b p h Hne [[<- ?]|[? Hb]]%lookup_insert_Some; simplify_eq; [lia|].
    eapply tiling_apart in Hb as (Hp & Hdp & _ & _ & Hb); [|done|done]. lia.
Qed.

Lemma tiling_merge K B a o f g f' :
  tiling K (<[a := (o, f)]> B) → B !! a = None → B !! buddy a o = Some (o, g) →
  let b := buddy a o in
  o < K ∧ b ≠ a ∧ delete b B !! Z.min a b = None ∧
  tiling K (<[Z.min a b := (o + 1, f')]> (delete b B)).
Proof.
  intros HT Ha Hb b. subst b. destruct (tiling_at _ _ _ _ _ HT) as (HoK & Hd & H0 & HK).
  assert (0 ≤ o) as Ho by lia.
  pose proof (bsize_pos o Ho) as Hpos. pose proof (bsize_succ o Ho) as Hs.
  pose proof (buddy_cases a o Ho Hd) as Hcase.
  assert (buddy a o ≠ a) as Hne by lia.
  destruct (tiling_apart _ _ _ _ _ _ _ _ HT Hne Hb) as (_ & Hdb & Hb0 & HbK & _).
  assert (o < K) as HoK' by (apply bsize_lt_inv; lia).
  assert (tiling K (delete (buddy a o) B)) as HB.
  { apply tiling_delete. rewrite <-(delete_insert_id B a (o, f)) by done.
    by apply tiling_delete. }
  split; [done|]. split; [done|]. split.
  { destruct (Z.min_spec a (buddy a o)) as [[_ ->]|[_ ->]].
    - rewrite lookup_delete_ne; done.
    - apply lookup_delete_eq. }
  apply tiling_insert; [done|lia| |lia|lia|].
  - destruct Hcase as [[-> ?]|[-> ?]]; [rewrite Z.min_l by lia|rewrite Z.min_r by lia]; done.
  - intros c p h Hc [Hcb Hcp]%lookup_delete_Some.
    assert (c ≠ a) as Hca by congruence.
    destruct (tiling_apart _ _ _ _ _ _ _ _ HT Hca Hcp) as (Hp & Hdp & _ & _ & Hap).
    assert (buddy a o + bsize o ≤ c ∨ c + bsize p ≤ buddy a o) as Hbp.
    { eapply (tl_disj _ _ HT); rewrite ?lookup_insert_ne; try done. }
    pose proof (bsize_pos p). lia.
Qed.
End tiling.

Section merged.
Implicit Types (B : blocks).

Lemma merged_delete B a : merged B → merged (delete a B).
Proof.
  intros HM b o [_ Hb]%lookup_delete_Some [_ Hc]%lookup_delete_Some. exact (HM _ _ Hb Hc).
Qed.

Lemma merged_use B a o : merged B → merged (<[a := (o, false)]> B).
Proof.
  intros HM b p [[_ ?]|[_ Hb]]%lookup_insert_Some [[_ ?]|[_ Hc]]%lookup_insert_Some;
    simplify_eq. exact (HM _ _ Hb Hc).
Qed.

Lemma merged_push B a o :
  merged B → buddy a o ≠ a → B !! buddy a o ≠ Some (o, true) →
  merged (<[a := (o, true)]> B).
Proof.
  intros HM Hne Hno b p [[<- ?]|[? Hb]]%lookup_insert_Some
    [[E ?]|[? Hc]]%lookup_insert_Some; simplify_eq; try done.
  - apply Hno. by rewrite buddy_involutive.
  - exact (HM _ _ Hb Hc).
Qed.
End merged.

Section bytes.
Implicit Types (B : blocks) (P : bool → bool).

Lemma bytes_insert P B a x :
  B !! a = None → bytes P (<[a := x]> B) = (if P x.2 then bsize x.1 else 0) + bytes P B.
Proof. intros Ha. unfold bytes. rewrite map_fold_insert_L; [done| |done]. intros. lia. Qed.

Lemma bytes_delete P B a x :
  B !! a = Some x → bytes P B = (if P x.2 then bsize x.1 else 0) + bytes P (delete a B).
Proof. intros Ha. unfold bytes. rewrite (map_fold_delete_L _ _ a x); [done| |done]. intros. lia. Qed.

Lemma bytes_split B : all_bytes B = free_bytes B + used_bytes B.
Proof.
  induction B as [|a [o f] B Ha IH] using map_ind; [done|].
  rewrite !bytes_insert by done. simpl. destruct f; simpl; lia.
Qed.

Lemma bytes_nonneg P B : (∀ a o f, B !! a = Some (o, f) → 0 ≤ o) → 0 ≤ bytes P B.
Proof.
  induction B as [|a [o f] B Ha IH] using map_ind; [done|]. intros Ho.
  rewrite bytes_insert by done. simpl.
  pose proof (bsize_pos o (Ho a o f (lookup_insert_eq _ _ _))).
  assert (0 ≤ bytes P B); [|destruct (P f); lia]. apply IH. intros b p g Hb.
  apply (Ho b p g). rewrite lookup_insert_ne; [done|]. congruence.
Qed.

Lemma carve_facts K n : ∀ B a o f,
  B !! a = None → tiling K (<[a := (o, f)]> B) → Z.of_nat n ≤ o →
  (∀ b p, carve n B a o !! b = Some (p, false) ↔ B !! b = Some (p, false)) ∧
  carve n B a o !! a = None ∧
  all_bytes (carve n B a o) = all_bytes B + bsize o - bsize (o - Z.of_nat n).
Proof.
  induction n as [|n IH]; intros B a o f Ha HT Hn.
  - do 2 (split; [done|]). cbn [carve]. replace (o - Z.of_nat 0) with o by lia. lia.
  - cbn [carve]. replace o with (o - 1 + 1) in HT by lia.
    destruct (tiling_split K B a (o - 1) f f true HT Ha) as [Hnone HT']; [lia|].
    pose proof (bsize_pos (o - 1)).
    destruct (IH (<[a + bsize (o - 1) := (o - 1, true)]> B) a (o - 1) f) as (Hu & Hn' & Hb);
      [by rewrite lookup_insert_ne by lia|done|lia|].
    split; [|split; [done|]].
    + intros b p. rewrite Hu. destruct (decide (b = a + bsize (o - 1))) as [->|].
      * rewrite lookup_insert_eq, Hnone. naive_solver.
      * by rewrite lookup_insert_ne.
    + rewrite Hb, bytes_insert by done. simpl.
      replace (o - Z.of_nat (S n)) with (o - 1 - Z.of_nat n) by lia.
      replace (bsize o) with (2 * bsize (o - 1)); [lia|].
      rewrite <-bsize_succ by lia. f_equal. lia.
Qed.

Lemma give_back_facts n : ∀ B a o,
  B !! a = None → 0 ≤ o →
  (∀ b p, give_back n B a o !! b = Some (p, false) ↔ B !! b = Some (p, false)) ∧
  all_bytes (give_back n B a o) = all_bytes B + bsize o.
Proof.
  induction n as [|n IH]; intros B a o Ha Ho.
  1: assert (Hlast : give_back 0 B a o = <[a := (o, true)]> B) by done.
  2: cbn [give_back]; destruct (decide (B !! buddy a o = Some (o, true))) as [Hb|_].
  2: { assert (delete (buddy a o) B !! Z.min a (buddy a o) = None) as Hm.
       { destruct (Z.min_spec a (buddy a o)) as [[_ ->]|[_ ->]]; [|apply lookup_delete_eq].
         apply lookup_delete_None. by right. }
       destruct (IH _ _ (o + 1) Hm) as [Hu Hbt]; [lia|]. split.
       - intros b p. rewrite Hu, lookup_delete_Some. naive_solver.
       - rewrite Hbt, (bytes_delete _ B _ _ Hb), bsize_succ by done. simpl. lia. }
  1: rewrite Hlast.
  all: split; [|rewrite bytes_insert by done; simpl; lia].
  all: intros b p; destruct (decide (b = a)) as [->|];
    [rewrite lookup_insert_eq, Ha; naive_solver|by rewrite lookup_insert_ne].
Qed.

(** Carving and giving back are inverse. *)
Lemma give_back_carve K n : ∀ fuel B a o f,
  B !! a = None → tiling K (<[a := (o, f)]> B) → Z.of_nat n ≤ o → (n ≤ fuel)%nat →
  give_back fuel (carve n B a o) a (o - Z.of_nat n) = give_back (fuel - n) B a o.
Proof.
  induction n as [|n IH]; intros fuel B a o f Ha HT Hn Hf.
  - replace (o - Z.of_nat 0) with o by lia. by replace (fuel - 0)%nat with fuel by lia.
  - cbn [carve]. replace o with (o - 1 + 1) in HT by lia.
    destruct (tiling_split K B a (o - 1) f f true HT Ha) as [Hnone HT']; [lia|].
    pose proof (bsize_pos (o - 1)). destruct (tiling_at _ _ _ _ _ HT) as (_ & Hd & _).
    replace (o - Z.of_nat (S n)) with (o - 1 - Z.of_nat n) by lia.
    rewrite (IH fuel _ a (o - 1) f) by (rewrite ?lookup_insert_ne by lia; done || lia).
    replace (fuel - n)%nat with (S (fuel - S n)) by lia. cbn [give_back].
    rewrite (buddy_above a (o - 1)) by (lia || done).
    rewrite decide_True by apply lookup_insert_eq.
    rewrite delete_insert_id by done. rewrite Z.min_l by lia.
    by replace (o - 1 + 1) with o by lia.
Qed.
End bytes.

(** ** Free lists *)
Section heap.
Context (base : Z).
Implicit Types (B : blocks) (st : bd_state).

Lemma is_free_loop_spec st b l : ∀ fuel x,
  lseg (bd_next st) x l NULL → NULL ∉ l → (length l < fuel)%nat →
  is_free_loop fuel st b x = Some (bool_decide (b ∈ l)).
Proof.
  induction l as [|c l IH]; intros [|fuel] x; simpl; try lia.
  - intros -> _ _. by rewrite decide_True.
  - intros (-> & n & Hn & Hl) [? ?]%not_elem_of_cons ?.
    rewrite decide_False by done. destruct (decide (c = b)) as [->|].
    + by rewrite bool_decide_eq_true_2 by apply list_elem_of_here.
    + rewrite Hn. simpl. rewrite (IH fuel n) by (done || lia).
      apply (f_equal Some), bool_decide_ext. rewrite elem_of_cons.
      split; [by right|]. by intros [->|].
Qed.

Lemma unlink_loop_spec st b o l2 n l1 : ∀ fuel prev x,
  lseg (bd_next st) x (l1 ++ b :: l2) NULL → NULL ∉ l1 ++ b :: l2 → b ∉ l1 →
  bd_next st !! b = Some n → (length l1 < fuel)%nat →
  unlink_loop fuel st b o prev x =
    Some (let q := default prev (last l1) in
          if decide (q = NULL) then set_head st o n else set_next st q n).
Proof.
  induction l1 as [|c l1 IH]; intros [|fuel] prev x; simpl; try lia.
  - intros (-> & m & Hm & Hl) [? ?]%not_elem_of_cons _ Hn _. simplify_eq.
    rewrite (decide_False (P := b = NULL)) by done. rewrite Hm. simpl.
    rewrite (decide_True (P := b = b)) by done. by case_decide.
  - intros (-> & m & Hm & Hl) [? ?]%not_elem_of_cons [? ?]%not_elem_of_cons Hn ?.
    rewrite (decide_False (P := c = NULL)) by done. rewrite Hm. simpl.
    rewrite (decide_False (P := c = b)) by done.
    rewrite (IH fuel c m) by (done || lia).
    rewrite last_cons. by destruct (last l1).
Qed.

Lemma heap_address B st a x : heap base B st → B !! a = Some x → base + a ≠ NULL.
Proof. intros HH Ha. pose proof (hp_nonneg _ _ _ HH _ _ Ha). pose proof (hp_base _ _ _ HH). lia. Qed.

(** What the loops need to know about the list of an order. *)
Lemma heap_list B st o :
  heap base B st → 0 ≤ o ≤ MAX_ORDER →
  ∃ h l, buddy_lists st !! o = Some h ∧ lseg (bd_next st) h l NULL ∧ NoDup l ∧
    (∀ p, p ∈ l ↔ B !! (p - base) = Some (o, true)) ∧ (NULL ∉ l) ∧
    (length l < bd_fuel st)%nat.
Proof.
  intros HH (l & Hnd & Hel & h & Hh & Hl)%(hp_lists _ _ _ HH).
  exists h, l. do 4 (split; [done|]). split.
  - intros Hin%Hel. eapply heap_address in Hin; [|done]. lia.
  - unfold bd_fuel. pose proof (lseg_length _ _ _ _ Hnd Hl). lia.
Qed.

Lemma heap_head B st o :
  heap base B st → 0 ≤ o ≤ MAX_ORDER → is_Some (buddy_lists st !! o).
Proof. intros HH Ho. destruct (heap_list B st o HH Ho) as (h & ? & ? & _). eauto. Qed.

Lemma heap_push B st a o h :
  heap base B st → B !! a = None → 0 ≤ a → 0 ≤ o ≤ MAX_ORDER →
  buddy_lists st !! o = Some h →
  heap base (<[a := (o, true)]> B) (set_head (set_next st (base + a) h) o (base + a)).
Proof.
  intros HH Ha H0 Ho Hh. split; simpl; [| |apply HH| |apply HH].
  - intros o' Ho'. destruct (hp_lists _ _ _ HH o' Ho') as (l & Hnd & Hel & h' & Hh' & Hl).
    assert (base + a ∉ l) as Hnin.
    { intros Hin%Hel. replace (base + a - base) with a in Hin by lia. congruence. }
    destruct (decide (o' = o)) as [->|].
    + simplify_eq. exists (base + a :: l). split; [by constructor|]. split.
      * intros p. rewrite elem_of_cons, Hel. destruct (decide (p = base + a)) as [->|].
        -- replace (base + a - base) with a by lia. rewrite lookup_insert_eq. tauto.
        -- rewrite lookup_insert_ne by lia. tauto.
      * exists (base + a). simpl. rewrite lookup_insert_eq. split; [done|].
        split; [done|]. exists h. rewrite lookup_insert_eq. split; [done|].
        by apply lseg_frame.
    + exists l. split; [done|]. split.
      * intros p. rewrite Hel. destruct (decide (p - base = a)) as [->|].
        -- rewrite lookup_insert_eq, Ha. naive_solver.
        -- by rewrite lookup_insert_ne.
      * exists h'. simpl. rewrite lookup_insert_ne by done. split; [done|].
        by apply lseg_frame.
  - intros b p [[<- ?]|[? Hb]]%lookup_insert_Some; simplify_eq.
    rewrite lookup_delete_ne by lia. by apply HH.
  - intros b x [[<- ?]|[? Hb]]%lookup_insert_Some; [done|]. by eapply HH.
Qed.

Lemma heap_use B st a o :
  heap base B st → B !! a = None → 0 ≤ a →
  heap base (<[a := (o, false)]> B) (set_order st (base + a) o).
Proof.
  intros HH Ha H0. split; simpl; [| |apply HH| |apply HH].
  - intros o' Ho'. destruct (hp_lists _ _ _ HH o' Ho') as (l & Hnd & Hel & h' & Hh' & Hl).
    exists l. split; [done|]. split.
    + intros p. rewrite Hel. destruct (decide (p - base = a)) as [->|].
      * rewrite lookup_insert_eq, Ha. naive_solver.
      * by rewrite lookup_insert_ne.
    + exists h'. split; [done|]. simpl. apply lseg_frame_delete; [|done].
      intros Hin%Hel. replace (base + a - base) with a in Hin by lia. congruence.
  - intros b p [[<- ?]|[? Hb]]%lookup_insert_Some; simplify_eq.
    + apply lookup_insert_eq.
    + rewrite lookup_insert_ne by lia. by apply HH.
  - intros b x [[<- ?]|[? Hb]]%lookup_insert_Some; [done|]. by eapply HH.
Qed.

Lemma heap_forget B st a o :
  heap base B st → B !! a = Some (o, false) → heap base (delete a B) st.
Proof.
  intros HH Ha. split; try apply HH.
  - intros o' Ho'. destruct (hp_lists _ _ _ HH o' Ho') as (l & Hnd & Hel & Hh).
    exists l. split; [done|]. split; [|done]. intros p. rewrite Hel.
    rewrite lookup_delete_Some. naive_solver.
  - intros b p [_ ?]%lookup_delete_Some. by apply HH.
  - intros b x [_ ?]%lookup_delete_Some. by eapply HH.
Qed.

(** Taking a block off its list, however the list is rewritten. *)
Lemma heap_take B st st' a o l' h' :
  heap base B st → B !! a = Some (o, true) →
  start_addr st' = start_addr st → bd_order st' = bd_order st ∨
    (∃ c, B !! (c - base) = Some (o, true) ∧ bd_order st' = delete c (bd_order st)) →
  (∀ o', o' ≠ o → buddy_lists st' !! o' = buddy_lists st !! o') →
  (∀ c, B !! (c - base) ≠ Some (o, true) → bd_next st' !! c = bd_next st !! c) →
  NoDup l' → (∀ p, p ∈ l' ↔ B !! (p - base) = Some (o, true) ∧ p ≠ base + a) →
  buddy_lists st' !! o = Some h' → lseg (bd_next st') h' l' NULL →
  heap base (delete a B) st'.
Proof.
  intros HH Ha Hs Hord Hls Hnx Hnd' Hel' Hh' Hl'.
  split; [| |by rewrite Hs; apply HH| |apply HH].
  - intros o' Ho'. destruct (decide (o' = o)) as [->|Hne].
    + exists l'. split; [done|]. split; [|eauto].
      intros p. rewrite Hel', lookup_delete_Some. split; intros [? ?]; split; auto; lia.
    + destruct (hp_lists _ _ _ HH o' Ho') as (l & Hnd & Hel & h & Hh & Hl).
      exists l. split; [done|]. split.
      * intros p. rewrite Hel, lookup_delete_Some. naive_solver.
      * exists h. split; [by rewrite Hls|]. eapply lseg_ext; [|done].
        intros c Hc%Hel. apply Hnx. congruence.
  - intros b p [_ Hb]%lookup_delete_Some. pose proof (hp_meta _ _ _ HH _ _ Hb) as Hm.
    destruct Hord as [->|(c & Hc & ->)]; [done|]. rewrite lookup_delete_ne; [done|].
    intros ->. replace (base + b - base) with b in Hc by lia. congruence.
  - intros b x [_ ?]%lookup_delete_Some. by eapply HH.
Qed.

Lemma heap_pop B st o h :
  heap base B st → 0 ≤ o ≤ MAX_ORDER → buddy_lists st !! o = Some h → h ≠ NULL →
  ∃ a n, h = base + a ∧ B !! a = Some (o, true) ∧ bd_next st !! h = Some n ∧
    heap base (delete a B) (set_head st o n).
Proof.
  intros HH Ho Hh Hnull.
  destruct (heap_list B st o HH Ho) as (h' & l & Hh' & Hl & Hnd & Hel & _). simplify_eq.
  destruct l as [|c l]; simpl in Hl; [congruence|].
  destruct Hl as (-> & n & Hn & Hl). apply NoDup_cons in Hnd as [Hc Hnd].
  exists (c - base), n. split; [lia|].
  assert (B !! (c - base) = Some (o, true)) as HB by (apply Hel, list_elem_of_here).
  do 2 (split; [done|]).
  apply (heap_take B st _ _ o l n); try done; simpl; auto.
  - intros o' ?. by rewrite lookup_insert_ne.
  - intros p. rewrite <-Hel, elem_of_cons. replace (base + (c - base)) with c by lia.
    split; [|tauto]. intros ?. split; [tauto|]. by intros ->.
  - apply lookup_insert_eq.
Qed.

Lemma heap_is_free B st p o :
  heap base B st → 0 ≤ o ≤ MAX_ORDER →
  is_buddy_free st p o = Some (bool_decide (B !! (p - base) = Some (o, true))).
Proof.
  intros HH Ho. destruct (heap_list B st o HH Ho) as (h & l & Hh & Hl & _ & Hel & Hn & Hf).
  unfold is_buddy_free. rewrite Hh. cbn [mbind option_bind].
  rewrite (is_free_loop_spec st p l) by done. by apply (f_equal Some), bool_decide_ext.
Qed.

Lemma heap_remove B st a o :
  heap base B st → B !! a = Some (o, true) → 0 ≤ o ≤ MAX_ORDER →
  ∃ st', remove_from_list st (base + a) o = Some st' ∧ heap base (delete a B) st' ∧
    total_managed_bytes st' = total_managed_bytes st.
Proof.
  intros HH Ha Ho. destruct (heap_list B st o HH Ho) as (h & l & Hh & Hl & Hnd & Hel & Hn & Hf).
  assert (base + a ∈ l) as Hin by (apply Hel; by replace (base + a - base) with a by lia).
  apply list_elem_of_split in Hin as (l1 & l2 & ->).
  pose proof (proj1 (lseg_middle _ _ _ _ _ _) Hl) as (Hl1 & n & Hnx & Hl2).
  apply NoDup_app in Hnd as (Hnd1 & Hdis & [Hb2 Hnd2]%NoDup_cons).
  assert (base + a ∉ l1) as Hb1 by (intros Hc; by apply (Hdis _ Hc), list_elem_of_here).
  assert (∀ p, p ∈ l1 ++ l2 ↔ B !! (p - base) = Some (o, true) ∧ p ≠ base + a) as Hel'.
  { intros p. rewrite <-Hel, !elem_of_app, elem_of_cons. split; [|naive_solver].
    intros Hp. split; [tauto|]. intros ->. tauto. }
  assert (NoDup (l1 ++ l2)) as Hnd'.
  { apply NoDup_app. split_and!; [done| |done]. intros c Hc ?.
    by apply (Hdis _ Hc), list_elem_of_further. }
  unfold remove_from_list. rewrite Hh. cbn [mbind option_bind].
  rewrite (unlink_loop_spec st (base + a) o l2 n l1); try done.
  2: { rewrite length_app in Hf. simpl in Hf. lia. }
  destruct l1 as [|c l1 _] using rev_ind; simpl.
  - eexists. split; [done|]. split; [|done].
    apply (heap_take B st _ _ o l2 n); try done; simpl; auto.
    + intros o' ?. by rewrite lookup_insert_ne.
    + apply lookup_insert_eq.
  - rewrite last_snoc. simpl.
    assert (c ∈ (l1 ++ [c]) ++ base + a :: l2) as Hc.
    { apply elem_of_app. left. apply elem_of_app. right. apply list_elem_of_here. }
    rewrite decide_False by (intros ->; done).
    apply Hel in Hc. eexists. split; [done|]. split; [|done].
    apply (heap_take B st _ _ o ((l1 ++ [c]) ++ l2) h); try done; simpl.
    + right. by exists c.
    + intros d Hd. rewrite lookup_insert_ne; [done|]. by intros ->.
    + apply lseg_app. exists n. split.
      * apply lseg_snoc_set with (y := base + a); [|done].
        apply NoDup_app in Hnd1 as (_ & Hd & _). intros Hc'. eapply Hd; [done|].
        apply list_elem_of_here.
      * apply lseg_frame; [|done]. intros Hc'. apply (Hdis c).
        -- apply elem_of_app. right. apply list_elem_of_here.
        -- by apply list_elem_of_further.
Qed.
End heap.

(** ** Allocation *)

(** A request of [r] bytes needs order [o]. *)
Definition fits (r o : Z) : Prop :=
  0 ≤ o ∧ r ≤ bsize o ∧ ∀ j, 0 ≤ j < o → bsize j < r.

Lemma order_loop_spec r : 0 < r ≤ 2 ^ 63 → ∀ fuel o,
  0 ≤ o ≤ 51 → 51 - o < Z.of_nat fuel → (∀ j, 0 ≤ j < o → bsize j < r) →
  ∃ o', order_loop fuel r (bsize o) o = Some o' ∧ o' ≤ 51 ∧ fits r o'.
Proof.
  intros Hr. induction fuel as [|fuel IH]; intros o Ho Hf Hlow; [lia|]. simpl.
  case_decide as Hd.
  - assert (o < 51) as Ho'.
    { apply bsize_lt_inv; try lia. rewrite (bsize_eq 51) by lia. lia. }
    assert (u64 (Z.shiftl (bsize o) 1) = bsize (o + 1)) as ->.
    { rewrite bsize_succ, Z.shiftl_mul_pow2 by lia. rewrite Z.mul_comm.
      pose proof (bsize_le o 50). pose proof (bsize_pos o). rewrite (bsize_eq 50) in * by lia.
      apply wrapu_small. lia. }
    apply IH; [lia|lia|]. intros j Hj. destruct (decide (j = o)) as [->|]; [done|].
    apply Hlow. lia.
  - exists o. split; [done|]. split; [lia|]. split; [lia|]. split; [lia|done].
Qed.

Lemma order_loop_diverges r fuel : ∀ o x,
  2 ^ 63 < r → x = 0 ∨ (0 ≤ o ≤ 51 ∧ x = bsize o) → order_loop fuel r x o = None.
Proof.
  induction fuel as [|fuel IH]; intros o x Hr Hx; [done|]. simpl.
  assert (x ≤ 2 ^ 63) as Hle.
  { destruct Hx as [->|[Ho ->]]; [lia|]. pose proof (bsize_le o 51).
    rewrite (bsize_eq 51) in * by lia. lia. }
  rewrite decide_True by lia. apply IH; [done|].
  destruct Hx as [->|[Ho ->]]; [by left|]. destruct (decide (o = 51)) as [->|].
  - left. by vm_compute.
  - right. split; [lia|]. pose proof (bsize_le o 50). pose proof (bsize_pos o).
    rewrite (bsize_eq 50) in * by lia.
    rewrite bsize_succ, Z.shiftl_mul_pow2 by lia. rewrite Z.mul_comm.
    apply wrapu_small. lia.
Qed.

Lemma required_space_eq size :
  0 < size → size + HDR < 2 ^ 64 → required_space size = size + HDR.
Proof.
  intros. unfold required_space. rewrite wrapu_small by lia. by rewrite decide_False by lia.
Qed.

Section alloc.
Context (base K : Z).
Implicit Types (B : blocks) (st : bd_state).

Lemma split_loop_spec n : ∀ B st a o f,
  0 ≤ K ≤ MAX_ORDER → base + bsize K < 2 ^ 64 →
  heap base B st → B !! a = None → tiling K (<[a := (o, f)]> B) → merged B →
  Z.of_nat n ≤ o →
  let B' := carve n B a o in
  ∃ st', split_loop n st (base + a) o = Some st' ∧ heap base B' st' ∧ B' !! a = None ∧
    tiling K (<[a := (o - Z.of_nat n, f)]> B') ∧ merged B' ∧
    total_managed_bytes st' = total_managed_bytes st.
Proof.
  induction n as [|n IH]; intros B st a o f HK Hb HH Ha HT HM Hn; cbn zeta.
  - exists st. replace (o - Z.of_nat 0) with o by lia. done.
  - cbn [split_loop carve]. destruct (tiling_at _ _ _ _ _ HT) as (Ho & Hd & H0 & HaK).
    replace o with (o - 1 + 1) in HT, Hd, HaK by lia.
    destruct (tiling_split K B a (o - 1) f f true HT Ha) as [Hnone HT']; [lia|].
    pose proof (bsize_pos (o - 1)). rewrite bsize_succ in HaK by lia.
    pose proof (hp_base _ _ _ HH).
    rewrite wrapu_small by lia.
    destruct (heap_head base B st (o - 1) HH) as [h Hh]; [lia|]. rewrite Hh. simpl.
    replace (base + a + bsize (o - 1)) with (base + (a + bsize (o - 1))) by lia.
    assert (heap base (<[a + bsize (o - 1) := (o - 1, true)]> B)
      (set_head (set_next st (base + (a + bsize (o - 1))) h) (o - 1)
        (base + (a + bsize (o - 1))))) as HH' by (apply heap_push; try done; lia).
    assert (buddy (a + bsize (o - 1)) (o - 1) = a) as Hbud.
    { rewrite <-(buddy_above a (o - 1)), buddy_involutive; [done|lia|done]. }
    destruct (IH _ _ a (o - 1) f HK Hb HH') as (st' & Hrun & HH'' & Ha'' & HT'' & HM'' & Ht'').
    + rewrite lookup_insert_ne by lia. done.
    + done.
    + apply merged_push; [done|rewrite Hbud; lia|]. rewrite Hbud, Ha. done.
    + lia.
    + exists st'. split; [done|]. do 2 (split; [done|]).
      replace (o - Z.of_nat (S n)) with (o - 1 - Z.of_nat n) by lia. done.
Qed.

(** The blocks after [mm_alloc] takes the free block at [a]. *)
Definition carved B (a k o : Z) : blocks :=
  <[a := (o, false)]> (carve (Z.to_nat (k - o)) (delete a B) a k).

Lemma alloc_loop_spec st B target : ∀ fuel cur,
  bd_rep base K st B → 0 ≤ target ≤ cur → MAX_ORDER - cur < Z.of_nat fuel - 1 →
  0 < Z.of_nat fuel →
  (alloc_loop fuel st cur target = Some (NULL, st) ∧
    ∀ a j, cur ≤ j → B !! a ≠ Some (j, true)) ∨
  (∃ a k st', cur ≤ k ∧ B !! a = Some (k, true) ∧
    (∀ b j, cur ≤ j < k → B !! b ≠ Some (j, true)) ∧
    alloc_loop fuel st cur target = Some (base + a + HDR, st') ∧
    bd_rep base K st' (carved B a k target)).
Proof.
  induction fuel as [|fuel IH]; intros cur HR Ht Hf Hf0; [lia|]. simpl.
  pose proof (br_heap _ _ _ _ HR) as HH. pose proof (br_order _ _ _ _ HR) as HK.
  case_decide as Hcur.
  2: { left. split; [done|]. intros a j Hj Ha.
       pose proof (tl_order _ _ (br_tiling _ _ _ _ HR) _ _ _ Ha). lia. }
  destruct (heap_list base B st cur HH) as (h & l & Hh & Hl & _ & Hel & Hnin & _); [lia|].
  rewrite Hh. simpl. case_decide as Hnull.
  - subst h. destruct l as [|x l].
    2: { destruct Hl as [<- ?]. by apply not_elem_of_cons in Hnin as [? ?]. }
    assert (∀ a, B !! a ≠ Some (cur, true)) as Hno.
    { intros a Ha. assert (base + a ∈ @nil Z) as Hin; [|by apply elem_of_nil in Hin].
      apply Hel. by replace (base + a - base) with a by lia. }
    destruct (IH (cur + 1) HR) as [[-> Hn]|(a & k & st' & Hk & Ha & Hlow & -> & HR')]; try lia.
    + left. split; [done|]. intros a j Hj. destruct (decide (j = cur)) as [->|]; [done|].
      apply Hn. lia.
    + right. exists a, k, st'. split; [lia|]. split; [done|]. split; [|done].
      intros b j Hj. destruct (decide (j = cur)) as [->|]; [done|]. apply Hlow. lia.
  - right. destruct (heap_pop base B st cur h HH) as (a & n & -> & Ha & Hn & HH'); try done; [lia|].
    pose proof (br_tiling _ _ _ _ HR) as HT.
    destruct (tl_range _ _ HT _ _ _ Ha) as [H0 HaK].
    destruct (split_loop_spec (Z.to_nat (cur - target)) (delete a B) (set_head st cur n) a cur true)
      as (st' & Hrun & HH'' & Ha'' & HT'' & HM'' & Ht''); try done.
    + apply HR.
    + apply lookup_delete_eq.
    + rewrite insert_delete_eq, insert_id; done.
    + apply merged_delete, HR.
    + lia.
    + rewrite Hn. simpl. rewrite Hrun. simpl.
      pose proof (bsize_pos cur). pose proof (br_bound _ _ _ _ HR).
      pose proof (hp_base _ _ _ HH).
      exists a, cur, (set_order st' (base + a) (u8 target)).
      split; [lia|]. split; [done|]. split; [lia|].
      split; [by rewrite wrapu_small by lia|].
      rewrite (wrapu_small 8) by (unfold MAX_ORDER in *; lia).
      replace (cur - Z.of_nat (Z.to_nat (cur - target))) with target in HT'' by lia.
      split; try apply HR.
      * by eapply tiling_flag.
      * by apply merged_use.
      * unfold carved. rewrite bytes_insert by done. simpl.
        destruct (carve_facts K (Z.to_nat (cur - target)) (delete a B) a cur true)
          as (_ & _ & ->).
        -- apply lookup_delete_eq.
        -- rewrite insert_delete_eq, insert_id; done.
        -- lia.
        -- rewrite <-(br_cover _ _ _ _ HR), (bytes_delete _ B a _ Ha). simpl.
           replace (cur - Z.of_nat (Z.to_nat (cur - target))) with target by lia. lia.
      * by apply heap_use.
      * simpl. rewrite Ht''. apply HR.
Qed.
End alloc.

(** ** Release *)
Section free.
Context (base K : Z).
Implicit Types (B : blocks) (st : bd_state).

Lemma buddy_of_eq st a o :
  start_addr st = base → 0 < base → 0 ≤ o → (bsize o | a) → 0 ≤ a →
  base + a + bsize o < 2 ^ 64 → buddy_of st (base + a) o = base + buddy a o.
Proof.
  intros Hs Hb Ho Hd Ha HaK. unfold buddy_of. rewrite Hs.
  pose proof (bsize_pos o Ho). rewrite (wrapu_small 64 (base + a - base)) by lia.
  replace (base + a - base) with a by lia. fold (buddy a o).
  assert (0 ≤ buddy a o) by (apply Z.lxor_nonneg; lia).
  rewrite Z.add_comm. apply wrapu_small.
  destruct (buddy_cases a o Ho Hd) as [[-> _]|[E _]]; lia.
Qed.

Lemma free_loop_spec fuel : ∀ st B a o,
  0 ≤ K ≤ MAX_ORDER → base + bsize K < 2 ^ 64 →
  heap base B st → B !! a = None → tiling K (<[a := (o, false)]> B) → merged B →
  MAX_ORDER - o < Z.of_nat fuel →
  ∃ a' o' B' st', free_loop fuel st (base + a) o = Some (base + a', o', st') ∧
    give_back fuel B a o = <[a' := (o', true)]> B' ∧
    heap base B' st' ∧ B' !! a' = None ∧ tiling K (<[a' := (o', true)]> B') ∧
    merged (<[a' := (o', true)]> B') ∧ total_managed_bytes st' = total_managed_bytes st.
Proof.
  induction fuel as [|fuel IH]; intros st B a o HK Hb HH Ha HT HM Hf;
    destruct (tiling_at _ _ _ _ _ HT) as (Ho & Hd & H0 & HaK); [lia|].
  pose proof (bsize_pos o). pose proof (hp_base _ _ _ HH).
  assert (buddy a o ≠ a) as Hne by (apply buddy_ne; [lia|done]).
  assert (buddy_of st (base + a) o = base + buddy a o) as Hbo.
  { apply buddy_of_eq; try lia; [apply HH|done]. }
  assert (B !! buddy a o ≠ Some (o, true) → 
    ∃ a' o' B' st', Some (base + a, o, st) = Some (base + a', o', st') ∧
    <[a := (o, true)]> B = <[a' := (o', true)]> B' ∧ heap base B' st' ∧ B' !! a' = None ∧
    tiling K (<[a' := (o', true)]> B') ∧ merged (<[a' := (o', true)]> B') ∧
    total_managed_bytes st' = total_managed_bytes st) as Hstop.
  { intros Hno. exists a, o, B, st. do 4 (split; [done|]).
    split; [by eapply tiling_flag|]. split; [by apply merged_push|done]. }
  cbn [free_loop give_back]. rewrite Hbo. case_decide as Hlt.
  2: { destruct (decide _) as [Hbud|Hno]; [|by apply Hstop].
       destruct (tiling_merge K B a o false true true HT Ha Hbud) as (? & _). lia. }
  rewrite (heap_is_free base B) by (done || lia). cbn [mbind option_bind].
  replace (base + buddy a o - base) with (buddy a o) by lia.
  destruct (decide (B !! buddy a o = Some (o, true))) as [Hbud|Hno].
  2: { rewrite bool_decide_eq_false_2 by done. by apply Hstop. }
  rewrite bool_decide_eq_true_2 by done.
  destruct (heap_remove base B st (buddy a o) o HH Hbud) as (st1 & -> & HH1 & Ht1); [lia|].
  cbn [mbind option_bind].
  destruct (tiling_merge K B a o false true false HT Ha Hbud) as (HoK & _ & Hn1 & HT1).
  assert ((if decide (base + buddy a o < base + a) then base + buddy a o else base + a)
    = base + Z.min a (buddy a o)) as -> by (case_decide; lia).
  destruct (IH st1 (delete (buddy a o) B) (Z.min a (buddy a o)) (o + 1) HK Hb HH1 Hn1 HT1
    (merged_delete _ _ HM)) as (a' & o' & B' & st' & Hr); [lia|].
  exists a', o', B', st'. rewrite <-Ht1. exact Hr.
Qed.

Definition freed B a o : blocks := give_back 17 (delete a B) a o.

Lemma bd_free_spec st B a o :
  bd_rep base K st B → B !! a = Some (o, false) →
  ∃ st', bd_free st (base + a + HDR) = Some st' ∧ bd_rep base K st' (freed B a o).
Proof.
  intros HR Ha. pose proof (br_heap _ _ _ _ HR) as HH. pose proof (br_tiling _ _ _ _ HR) as HT.
  destruct (tl_range _ _ HT _ _ _ Ha) as [H0 HaK]. pose proof (tl_order _ _ HT _ _ _ Ha).
  pose proof (hp_base _ _ _ HH). pose proof (br_bound _ _ _ _ HR). pose proof (bsize_pos o).
  pose proof (br_order _ _ _ _ HR) as HK.
  assert (MAX_ORDER - o < Z.of_nat 17) as Hf by (unfold MAX_ORDER in *; lia).
  unfold bd_free, freed. generalize dependent 17%nat. intros fuel Hf.
  rewrite decide_False by lia. rewrite (wrapu_small 64) by lia. replace (base + a + HDR - HDR) with (base + a) by lia.
  unfold get_order. rewrite (hp_meta _ _ _ HH _ _ Ha). cbn [mbind option_bind].
  destruct (free_loop_spec fuel st (delete a B) a o HK) as
    (a' & o' & B' & st' & -> & Hg & HH' & Ha' & HT' & HM' & Ht'); try done.
  - by eapply heap_forget.
  - apply lookup_delete_eq.
  - by rewrite insert_delete_eq, insert_id.
  - apply merged_delete, HR.
  - destruct (tiling_at _ _ _ _ _ HT') as (Ho' & _ & H0' & _).
    cbn [mbind option_bind]. destruct (heap_head base B' st' o' HH') as [h Hh]; [lia|].
    rewrite Hh. cbn [mbind option_bind]. eexists. split; [done|].
    rewrite Hg. split; try done.
    + rewrite <-Hg. destruct (give_back_facts fuel (delete a B) a o) as [_ ->];
        [apply lookup_delete_eq|lia|].
      rewrite <-(br_cover _ _ _ _ HR), (bytes_delete _ B a _ Ha). simpl. lia.
    + apply heap_push; try done. lia.
    + simpl. rewrite Ht'. apply HR.
Qed.
End free.

(** ** Start-up *)

Lemma bsize_shiftl k : 0 ≤ k → Z.shiftl 1 k * MIN_BLOCK_SIZE = bsize k.
Proof.
  intros. unfold MIN_BLOCK_SIZE. rewrite bsize_eq, Z.shiftl_mul_pow2 by done. lia.
Qed.

(** The greatest order that fits, with 16 as a limit. *)
Lemma init_order_spec total fuel : ∀ k,
  0 ≤ k ≤ 17 → 17 - k < Z.of_nat fuel → (0 < k → bsize (k - 1) ≤ total) →
  let r := init_order_loop fuel total k in
  k ≤ r ≤ 17 ∧ (0 < r → bsize (r - 1) ≤ total) ∧ (r ≤ 16 → total < bsize r).
Proof.
  induction fuel as [|fuel IH]; intros k Hk Hf Hlow; cbn zeta; [lia|]. cbn [init_order_loop].
  rewrite bsize_shiftl by lia. unfold MAX_ORDER in *. case_decide as Hd.
  - assert (0 < k + 1 → bsize (k + 1 - 1) ≤ total) as Hlow'.
    { intros _. destruct Hd. by replace (k + 1 - 1) with k by lia. }
    destruct (IH (k + 1)) as (? & ? & ?); [lia|lia|done|].
    split; [lia|]. by split.
  - split; [lia|]. split; [done|]. intros. lia.
Qed.

(** The order of the region [bd_init] manages. *)
Definition region_order (total : Z) : Z := init_order_loop 18 total 0 - 1.

Lemma region_order_spec total :
  let K := region_order total in
  -1 ≤ K ≤ MAX_ORDER ∧ (0 ≤ K → bsize K ≤ total) ∧ (K < MAX_ORDER → total < bsize (K + 1)).
Proof.
  destruct (init_order_spec total 18 0) as (H1 & H2 & H3); [lia..|].
  unfold region_order, MAX_ORDER. cbn zeta. split; [lia|]. split.
  - intros. apply H2. lia.
  - intros. replace (init_order_loop 18 total 0 - 1 + 1) with (init_order_loop 18 total 0) by lia.
    apply H3. lia.
Qed.

Lemma null_heads_lookup o : 0 ≤ o ≤ MAX_ORDER → null_heads !! o = Some NULL.
Proof.
  intros. unfold null_heads. apply elem_of_list_to_map.
  - rewrite <-list_fmap_compose. apply NoDup_fmap; [|apply NoDup_seq].
    intros i j. simpl. lia.
  - apply list_elem_of_fmap. exists (Z.to_nat o). rewrite Z2Nat.id by lia.
    split; [done|]. apply elem_of_seq. unfold MAX_ORDER in *. lia.
Qed.

Lemma bd_init_spec base total st :
  0 < base → MIN_BLOCK_SIZE ≤ total → base + total < 2 ^ 64 →
  bd_rep base (region_order total) (bd_init base total st)
    {[0 := (region_order total, true)]}.
Proof.
  intros Hb Ht Hbt. destruct (region_order_spec total) as (HK & Hle & _).
  assert (0 ≤ region_order total) as HK0.
  { apply Z.nlt_ge. intros HK'. assert (region_order total = -1) as E by lia.
    unfold region_order in E. destruct (init_order_spec total 18 0) as (_ & _ & Hr); [lia..|].
    replace (init_order_loop 18 total 0) with 0 in Hr by lia.
    change (bsize 0) with MIN_BLOCK_SIZE in Hr. lia. }
  specialize (Hle HK0). set (K := region_order total) in *.
  pose proof (bsize_pos K HK0).
  unfold bd_init. fold (region_order total). fold K. rewrite decide_False by lia.
  rewrite bsize_shiftl by done. split; simpl; try lia.
  - split.
    + intros a o f [<- ?]%lookup_singleton_Some. simplify_eq. lia.
    + intros a o f [<- ?]%lookup_singleton_Some. apply Z.divide_0_r.
    + intros a o f [<- ?]%lookup_singleton_Some. simplify_eq. lia.
    + intros a o f b p g [<- ?]%lookup_singleton_Some [<- ?]%lookup_singleton_Some. done.
  - intros a o Ha%lookup_singleton_Some Hbud%lookup_singleton_Some.
    destruct Ha as [<- Ha], Hbud as [Hbud _]. assert (o = K) as -> by congruence.
    by destruct (buddy_ne 0 K HK0 (Z.divide_0_r _)).
  - unfold bytes. rewrite map_fold_singleton. simpl. lia.
  - split; simpl; try lia.
    + intros o Ho. destruct (decide (o = K)) as [->|].
      * exists [base]. split; [apply NoDup_singleton|]. split.
        -- intros p. rewrite list_elem_of_singleton, lookup_singleton_Some. split.
           ++ intros ->. split; [lia|done].
           ++ intros [? _]. lia.
        -- exists base. simpl. rewrite lookup_insert_eq. split; [done|]. split; [done|].
           exists NULL. by rewrite lookup_insert_eq.
      * exists []. split; [constructor|]. split.
        -- intros p. rewrite elem_of_nil, lookup_singleton_Some. naive_solver.
        -- exists NULL. simpl. rewrite lookup_insert_ne by done. by rewrite null_heads_lookup.
    + intros a o Ha%lookup_singleton_Some. naive_solver.
    + intros a x Ha%lookup_singleton_Some. naive_solver lia.
Qed.

(** ** Statistics *)

(** The free blocks of order [o], and the bytes of [n] consecutive orders. *)
Definition count_free (B : blocks) (o : Z) : Z :=
  Z.of_nat (size (filter (λ ax, ax.2 = (o, true)) B)).

Fixpoint orders_free (n : nat) (from : Z) (B : blocks) : Z :=
  match n with
  | O => 0
  | S n => bsize from * count_free B from + orders_free n (from + 1) B
  end.

Lemma count_free_insert B a x o :
  B !! a = None →
  count_free (<[a := x]> B) o = (if decide (x = (o, true)) then 1 else 0) + count_free B o.
Proof.
  intros Ha. unfold count_free.
  rewrite map_filter_insert. simpl. case_decide.
  - rewrite map_size_insert_None; [lia|]. apply map_lookup_filter_None. by left.
  - rewrite delete_id by done. lia.
Qed.

Lemma orders_free_insert n : ∀ from B a o f,
  B !! a = None →
  orders_free n from (<[a := (o, f)]> B) =
    (if f && bool_decide (from ≤ o < from + Z.of_nat n) then bsize o else 0) +
    orders_free n from B.
Proof.
  induction n as [|n IH]; intros from B a o f Ha.
  - cbn [orders_free]. rewrite (bool_decide_eq_false_2 (from ≤ o < from + Z.of_nat 0)) by lia.
    by rewrite andb_false_r.
  - cbn [orders_free]. rewrite count_free_insert, IH by done.
    destruct f; simpl.
    2: { rewrite decide_False by congruence. lia. }
    destruct (decide (o = from)) as [->|Hne].
    + rewrite decide_True by done. rewrite bool_decide_eq_false_2 by lia.
      rewrite bool_decide_eq_true_2 by lia. lia.
    + rewrite decide_False by congruence.
      rewrite (bool_decide_ext (from + 1 ≤ o < from + 1 + Z.of_nat n)
        (from ≤ o < from + Z.of_nat (S n))) by lia. lia.
Qed.

Lemma orders_free_eq B :
  (∀ a o f, B !! a = Some (o, f) → 0 ≤ o ≤ MAX_ORDER) → orders_free 17 0 B = free_bytes B.
Proof.
  assert (∀ n from, orders_free n from ∅ = 0) as H0.
  { intros n. induction n as [|n IH]; intros from; cbn [orders_free]; [done|].
    rewrite IH. unfold count_free. rewrite map_filter_empty, map_size_empty. lia. }
  induction B as [|a [o f] B Ha IH] using map_ind; intros Ho.
  { by rewrite H0. }
  rewrite orders_free_insert, bytes_insert, IH by
    (try intros b p g Hb; try eapply (Ho b p g); try rewrite lookup_insert_ne; congruence).
  pose proof (Ho a o f (lookup_insert_eq _ _ _)). unfold MAX_ORDER in *. simpl.
  rewrite bool_decide_eq_true_2 by lia. by rewrite andb_true_r.
Qed.

Section stats.
Context (base : Z).

(** A free list has as many nodes as there are free blocks of its order. *)
Lemma free_list_length B st o l :
  free_list base B st o l → Z.of_nat (length l) = count_free B o.
Proof.
  intros (Hnd & Hel & _). unfold count_free. f_equal.
  assert (NoDup ((λ p, p - base) <$> l)) as Hnd'.
  { apply NoDup_fmap_2; [|done]. intros p q. lia. }
  rewrite <-size_dom, <-(length_fmap (λ p, p - base) l).
  rewrite <-(size_list_to_set (C := gset Z)) by done.
  f_equal. apply set_eq. intros a. rewrite elem_of_list_to_set, list_elem_of_fmap, elem_of_dom.
  split.
  - intros (p & -> & Hp%Hel). exists (o, true). by apply map_lookup_filter_Some.
  - intros [x [Hx Hx2]%map_lookup_filter_Some]. simpl in Hx2. subst x.
    exists (base + a). split; [lia|]. apply Hel. by replace (base + a - base) with a by lia.
Qed.

Lemma list_bytes_spec st o l : ∀ fuel x acc,
  lseg (bd_next st) x l NULL → NULL ∉ l → (length l < fuel)%nat → 0 ≤ acc < 2 ^ 64 →
  list_bytes fuel st o x acc = Some (u64 (acc + bsize o * Z.of_nat (length l))).
Proof.
  induction l as [|c l IH]; intros [|fuel] x acc; simpl; try lia.
  - intros -> _ _ Hacc. rewrite decide_True by done. f_equal. rewrite Z.mul_0_r, Z.add_0_r.
    symmetry. by apply wrapu_small.
  - intros (-> & n & Hn & Hl) [? ?]%not_elem_of_cons ? Hacc. rewrite decide_False by done.
    rewrite Hn. simpl. rewrite (IH fuel n) by (done || lia || by apply wrapu_range).
    f_equal. unfold wrapu. rewrite Zplus_mod_idemp_l. f_equal. lia.
Qed.

Lemma orders_bytes_spec B st n : ∀ from acc,
  heap base B st → 0 ≤ from → from + Z.of_nat n ≤ 17 → 0 ≤ acc < 2 ^ 64 →
  orders_bytes n st from acc = Some (u64 (acc + orders_free n from B)).
Proof.
  induction n as [|n IH]; intros from acc HH Hf Hn Hacc; cbn [orders_bytes orders_free].
  - rewrite Z.add_0_r. f_equal. symmetry. by apply wrapu_small.
  - assert (0 ≤ from ≤ MAX_ORDER) as Hfrom by (unfold MAX_ORDER; lia).
    destruct (hp_lists _ _ _ HH from Hfrom) as (l & Hfl).
    pose proof (free_list_length _ _ _ _ Hfl) as Hlen. destruct Hfl as (Hnd & Hel & h & Hh & Hl).
    destruct (heap_list base B st from HH Hfrom) as (h' & l' & Hh' & Hl' & _ & _ & Hn' & Hf').
    simplify_eq.
    assert (NULL ∉ l) as Hnull.
    { intros Hin%Hel. eapply heap_address in Hin; [|done]. lia. }
    rewrite Hh. cbn [mbind option_bind].
    rewrite (list_bytes_spec st from l); [|done|done|unfold bd_fuel; pose proof (lseg_length _ _ _ _ Hnd Hl); lia|done].
    cbn [mbind option_bind]. rewrite IH by (done || lia || by apply wrapu_range).
    f_equal. unfold wrapu. rewrite Zplus_mod_idemp_l, Hlen. f_equal. lia.
Qed.

Lemma bd_stats_spec K st B :
  bd_rep base K st B →
  bd_get_stats st = Some {| total_memory := bsize K; free_memory := free_bytes B;
    occupied_memory := used_bytes B |} ∧ 0 ≤ free_bytes B ∧ 0 ≤ used_bytes B ∧
  bsize K = free_bytes B + used_bytes B.
Proof.
  intros HR. pose proof (br_tiling _ _ _ _ HR) as HT. pose proof (br_order _ _ _ _ HR).
  assert (∀ a o f, B !! a = Some (o, f) → 0 ≤ o ≤ MAX_ORDER) as Ho.
  { intros a o f Ha%(tl_order _ _ HT). lia. }
  assert (∀ a o f, B !! a = Some (o, f) → 0 ≤ o) as Ho' by (intros a o f ?%Ho; lia).
  pose proof (bytes_nonneg (λ f, f) B Ho'). pose proof (bytes_nonneg negb B Ho').
  pose proof (bytes_split B) as Hsp. rewrite (br_cover _ _ _ _ HR) in Hsp.
  pose proof (br_bound _ _ _ _ HR). pose proof (hp_base _ _ _ (br_heap _ _ _ _ HR)).
  split; [|lia]. unfold bd_get_stats.
  rewrite (orders_bytes_spec B) by (apply HR || lia). cbn [mbind option_bind].
  rewrite orders_free_eq, wrapu_small by (done || lia).
  rewrite (br_total _ _ _ _ HR), decide_True by lia. do 2 f_equal. lia.
Qed.
End stats.

(** ** The interface *)

#[export] Instance buddy_mm : MemoryManager bd_state := {
  mm_alloc st n := default (NULL, st) (bd_alloc st n);
  mm_free st p := default st (bd_free st p);
  mm_get_stats st := default (Build_MemoryStats 0 0 0) (bd_get_stats st);
}.

(** The live payloads: what follows the metadata of the used blocks. *)
Definition used_part (x : Z * bool) : option Z :=
  if x.2 then None else Some (bsize x.1 - HDR).

Definition bd_payloads (base : Z) (B : blocks) : gmap Z Z :=
  kmap (λ a, base + a + HDR) (omap used_part B).

#[local] Instance payload_addr_inj base : Inj (=) (=) (λ a, base + a + HDR).
Proof. intros a b. lia. Qed.

Section payloads.
Context (base : Z).
Implicit Types (B : blocks).

Lemma bd_payloads_Some B p n :
  bd_payloads base B !! p = Some n ↔
  ∃ a o, p = base + a + HDR ∧ B !! a = Some (o, false) ∧ n = bsize o - HDR.
Proof.
  unfold bd_payloads. rewrite lookup_kmap_Some by apply _.
  setoid_rewrite lookup_omap_Some. split.
  - intros (a & -> & [o f] & Hx & Ha). destruct f; unfold used_part in Hx; simpl in Hx; [done|].
    injection Hx as <-. eauto.
  - intros (a & o & -> & Ha & ->). exists a. split; [done|]. by exists (o, false).
Qed.

(** Only the used blocks matter. *)
Lemma bd_payloads_ext B B' :
  (∀ a o, B !! a = Some (o, false) ↔ B' !! a = Some (o, false)) →
  bd_payloads base B = bd_payloads base B'.
Proof.
  intros HB. apply map_eq. intros p. apply option_eq. intros n.
  rewrite !bd_payloads_Some. by setoid_rewrite HB.
Qed.

Lemma bd_payloads_insert B a o :
  bd_payloads base (<[a := (o, false)]> B) =
  <[base + a + HDR := bsize o - HDR]> (bd_payloads base B).
Proof.
  unfold bd_payloads. erewrite omap_insert_Some by done. by rewrite kmap_insert by apply _.
Qed.

Lemma bd_payloads_delete B a :
  bd_payloads base (delete a B) = delete (base + a + HDR) (bd_payloads base B).
Proof. unfold bd_payloads. by rewrite omap_delete, kmap_delete by apply _. Qed.

Lemma bd_payloads_free B a :
  (∀ o, B !! a ≠ Some (o, false)) → bd_payloads base B !! (base + a + HDR) = None.
Proof.
  intros Ha. apply eq_None_not_Some. intros [n (b & o & Hp & Hb & _)%bd_payloads_Some].
  assert (b = a) as -> by lia. by eapply Ha.
Qed.
End payloads.

Lemma bd_alloc_cases base K st B size :
  bd_rep base K st B → 0 < size < mm_max_request →
  ∃ o, fits (size + HDR) o ∧
  ((bd_alloc st size = Some (NULL, st) ∧ ∀ a j, o ≤ j → B !! a ≠ Some (j, true)) ∨
   (∃ a k st', o ≤ k ∧ B !! a = Some (k, true) ∧
     (∀ b j, o ≤ j < k → B !! b ≠ Some (j, true)) ∧
     bd_alloc st size = Some (base + a + HDR, st') ∧
     bd_rep base K st' (carved B a k o))).
Proof.
  intros HR Hs. unfold mm_max_request in Hs. unfold bd_alloc.
  rewrite decide_False by lia. rewrite required_space_eq by lia.
  destruct (order_loop_spec (size + HDR)) with (fuel := order_fuel) (o := 0)
    as (o & Ho & Hle & Hfit); [lia|lia|unfold order_fuel; lia|intros; lia|].
  change (bsize 0) with MIN_BLOCK_SIZE in Ho. rewrite Ho. cbn [mbind option_bind].
  exists o. split; [done|]. destruct Hfit as (Ho0 & _).
  pose proof (br_order _ _ _ _ HR). case_decide as Hd.
  - left. split; [done|]. intros a j Hj Ha%(tl_order _ _ (br_tiling _ _ _ _ HR)). lia.
  - apply (alloc_loop_spec base K st B o 18 o HR); unfold MAX_ORDER in *; lia.
Qed.

Definition bd_inv (st : bd_state) (P : gmap Z Z) : Prop :=
  ∃ base K B, bd_rep base K st B ∧ P = bd_payloads base B.

Lemma carved_payloads base K st B a k o :
  bd_rep base K st B → B !! a = Some (k, true) → 0 ≤ o ≤ k →
  bd_payloads base (carved B a k o) = <[base + a + HDR := bsize o - HDR]> (bd_payloads base B).
Proof.
  intros HR Ha Ho. unfold carved. rewrite bd_payloads_insert. f_equal.
  apply bd_payloads_ext. intros b p.
  destruct (carve_facts K (Z.to_nat (k - o)) (delete a B) a k true) as (-> & _).
  - apply lookup_delete_eq.
  - rewrite insert_delete_eq, insert_id; [apply HR|done].
  - lia.
  - rewrite lookup_delete_Some. naive_solver.
Qed.

Lemma freed_payloads base B a o :
  B !! a = Some (o, false) → 0 ≤ o →
  bd_payloads base (freed B a o) = delete (base + a + HDR) (bd_payloads base B).
Proof.
  intros Ha Ho. rewrite <-bd_payloads_delete. apply bd_payloads_ext. intros b p.
  unfold freed. by destruct (give_back_facts 17 (delete a B) a o) as [-> _];
    [apply lookup_delete_eq|done|].
Qed.

Lemma bd_inv_alloc st P n :
  bd_inv st P → 0 < n < mm_max_request →
  let '(p, st') := default (NULL, st) (bd_alloc st n) in
  if decide (p = NULL) then st' = st
  else P !! p = None ∧ ∃ m, n ≤ m ∧ bd_inv st' (<[p := m]> P).
Proof.
  intros (base & K & B & HR & ->) Hn.
  destruct (bd_alloc_cases base K st B n HR Hn) as (o & (Ho & Hfit & _) &
    [[-> _]|(a & k & st' & Hk & Ha & _ & -> & HR')]); simpl; [done|].
  destruct (tl_range _ _ (br_tiling _ _ _ _ HR) _ _ _ Ha).
  pose proof (hp_base _ _ _ (br_heap _ _ _ _ HR)). rewrite decide_False by lia. split.
  - apply bd_payloads_free. intros p Hp. congruence.
  - exists (bsize o - HDR). split; [lia|]. exists base, K, (carved B a k o).
    split; [done|]. by rewrite (carved_payloads base K st) by (done || lia).
Qed.

Lemma bd_inv_free st P p m :
  bd_inv st P → P !! p = Some m → bd_inv (default st (bd_free st p)) (delete p P).
Proof.
  intros (base & K & B & HR & ->) (a & o & -> & Ha & _)%bd_payloads_Some.
  destruct (bd_free_spec base K st B a o HR Ha) as (st' & -> & HR'). simpl.
  exists base, K, (freed B a o). split; [done|].
  pose proof (tl_order _ _ (br_tiling _ _ _ _ HR) _ _ _ Ha).
  by rewrite freed_payloads by (done || lia).
Qed.

(** The buddy system discharges the contract of the memory manager. *)
#[export, program] Instance buddy_mm_ok : MemoryManagerOk bd_state := {
  mm_inv := bd_inv;
  mm_alloc_ok := bd_inv_alloc;
  mm_free_ok := bd_inv_free;
}.
Next Obligation.
  intros st P (base & K & B & HR & ->) p q n m
    (a & o & -> & Ha & ->)%bd_payloads_Some (b & r & -> & Hb & ->)%bd_payloads_Some Hne.
  pose proof (br_tiling _ _ _ _ HR) as HT.
  pose proof (tl_disj _ _ HT _ _ _ _ _ _ Ha Hb). lia.
Qed.
Next Obligation.
  intros st P p n (base & K & B & HR & ->) (a & o & -> & Ha & ->)%bd_payloads_Some.
  pose proof (br_tiling _ _ _ _ HR) as HT. pose proof (tl_order _ _ HT _ _ _ Ha).
  pose proof (tl_range _ _ HT _ _ _ Ha). pose proof (bsize_pos o).
  pose proof (hp_base _ _ _ (br_heap _ _ _ _ HR)). lia.
Qed.
Next Obligation. done. Qed.
Next Obligation. done. Qed.
Next Obligation.
  intros st P (base & K & B & HR & ->). cbn zeta.
  destruct (bd_stats_spec base K st B HR) as (Hs & ? & ? & ?).
  unfold mm_get_stats, buddy_mm. rewrite Hs. simpl. lia.
Qed.

(** ** Properties *)

(** C17: a request is served from a free block of the smallest order that
    can hold it and its metadata; the block is halved down to the order of
    the request, every upper half going to the list of its order.  It is
    refused, and nothing changes, exactly when no free block is large
    enough. *)
Theorem bd_alloc_correct base K st B size (HR : bd_rep base K st B)
    (Hs : 0 < size < mm_max_request) :
  ∃ o, fits (size + HDR) o ∧
  ((bd_alloc st size = Some (NULL, st) ∧ ∀ a j, o ≤ j → B !! a ≠ Some (j, true)) ∨
   (∃ a k st', o ≤ k ∧ B !! a = Some (k, true) ∧
     (∀ b j, o ≤ j < k → B !! b ≠ Some (j, true)) ∧
     bd_alloc st size = Some (base + a + HDR, st') ∧
     bd_rep base K st' (carved B a k o))).
Proof. by apply bd_alloc_cases. Qed.

(** C18: releasing a used block always terminates; the block is joined with
    its buddy for as long as that is free, and the result is again a region
    in which no two buddies are both free, with the same other used
    blocks. *)
Theorem bd_free_correct base K st B a o (HR : bd_rep base K st B)
    (Ha : B !! a = Some (o, false)) :
  ∃ st', bd_free st (base + a + HDR) = Some st' ∧ bd_rep base K st' (freed B a o) ∧
    bd_payloads base (freed B a o) = delete (base + a + HDR) (bd_payloads base B).
Proof.
  destruct (bd_free_spec base K st B a o HR Ha) as (st' & ? & ?).
  exists st'. do 2 (split; [done|]). apply freed_payloads; [done|].
  by destruct (tl_order _ _ (br_tiling _ _ _ _ HR) _ _ _ Ha).
Qed.

(** Releasing a block right after it was allocated gives back exactly
    the blocks there were, whatever order the block was carved from. *)
Theorem bd_alloc_free_roundtrip base K st B size p st' (HR : bd_rep base K st B)
    (Hs : 0 < size < mm_max_request) (Hal : bd_alloc st size = Some (p, st'))
    (Hp : p ≠ NULL) :
  ∃ st'', bd_free st' p = Some st'' ∧ bd_rep base K st'' B.
Proof.
  destruct (bd_alloc_cases base K st B size HR Hs) as (o & (Ho & _) &
    [[E _]|(a & k & s' & Hk & Ha & _ & E & HR')]); rewrite E in Hal; simplify_eq.
  destruct (bd_free_spec base K st' (carved B a k o) a o HR') as (st'' & Hf & HR'').
  { apply lookup_insert_eq. }
  exists st''. split; [done|]. replace B with (freed (carved B a k o) a o); [done|].
  pose proof (tl_order _ _ (br_tiling _ _ _ _ HR) _ _ _ Ha).
  pose proof (tl_align _ _ (br_tiling _ _ _ _ HR) _ _ _ Ha) as Hd.
  pose proof (br_order _ _ _ _ HR).
  assert (tiling K (<[a := (k, true)]> (delete a B))) as HT.
  { rewrite insert_delete_eq, insert_id; [apply HR|done]. }
  assert (delete a B !! a = None) as Hna by apply lookup_delete_eq.
  destruct (carve_facts K (Z.to_nat (k - o)) (delete a B) a k true) as (_ & Hn & _);
    [done..|lia|].
  assert (Z.to_nat (k - o) ≤ 16)%nat as H16 by (unfold MAX_ORDER in *; lia).
  unfold freed, carved. rewrite delete_insert_id by done.
  replace o with (k - Z.of_nat (Z.to_nat (k - o))) at 2 by lia.
  rewrite (give_back_carve K _ _ _ _ _ true) by (done || lia).
  replace (17 - Z.to_nat (k - o))%nat with (S (16 - Z.to_nat (k - o))) by lia.
  cbn [give_back]. rewrite decide_False.
  - by rewrite insert_delete_eq, insert_id.
  - intros [_ Hb]%lookup_delete_Some. by apply (br_merged _ _ _ _ HR a k).
Qed.

(** What [mm_get_stats] adds up over the free lists, in 64-bit
    arithmetic, is the size of the free blocks of the region, and the rest is
    the size of the used blocks. *)
Theorem bd_stats_correct base K st B (HR : bd_rep base K st B) :
  bd_get_stats st = Some {| total_memory := bsize K; free_memory := free_bytes B;
    occupied_memory := used_bytes B |}.
Proof. by destruct (bd_stats_spec base K st B HR). Qed.

(** C32: the loop that looks for the order of a request ends exactly when the
    request and its metadata fit in the largest power of two of a 64-bit
    word; beyond that [block_size] shifts to 0 and [mm_alloc] never
    returns. *)
Theorem bd_alloc_ends size (Hs : 0 < size) (Hw : size + HDR < 2 ^ 64) :
  if decide (size + HDR ≤ 2 ^ 63)
  then ∃ o, order_loop order_fuel (required_space size) MIN_BLOCK_SIZE 0 = Some o ∧
    fits (size + HDR) o
  else ∀ fuel, order_loop fuel (required_space size) MIN_BLOCK_SIZE 0 = None.
Proof.
  rewrite required_space_eq by done. change MIN_BLOCK_SIZE with (bsize 0). case_decide.
  - destruct (order_loop_spec (size + HDR)) with (fuel := order_fuel) (o := 0)
      as (o & Ho & _ & Hfit); [lia|lia|unfold order_fuel; lia|intros; lia|eauto].
  - intros fuel. apply order_loop_diverges; [lia|]. right. split; [lia|done].
Qed.

(** States reached from start-up by serving requests and by releasing live
    payloads, with the live payloads and the sizes asked for. *)
Inductive bd_reach (heap size : Z) : bd_state → gmap Z Z → Prop :=
  | reach_boot : bd_reach heap size (bd_boot heap size) ∅
  | reach_alloc st P n p st' :
      bd_reach heap size st P → 0 < n < mm_max_request → bd_alloc st n = Some (p, st') →
      bd_reach heap size st' (if decide (p = NULL) then P else <[p := n]> P)
  | reach_free st P p n st' :
      bd_reach heap size st P → P !! p = Some n → bd_free st p = Some st' →
      bd_reach heap size st' (delete p P).

Lemma bd_reach_rep heap size st P :
  0 < heap → MIN_BLOCK_SIZE ≤ size → heap + size < 2 ^ 64 → bd_reach heap size st P →
  ∃ B, bd_rep heap (region_order size) st B ∧ dom P = dom (bd_payloads heap B) ∧
    ∀ p n m, P !! p = Some n → bd_payloads heap B !! p = Some m → n ≤ m.
Proof.
  intros Hh Hs Hhs. induction 1 as [|st P n p st' _ (B & HR & Hd & Hle) Hn Hal
    |st P p n st' _ (B & HR & Hd & Hle) Hp Hf].
  - exists {[0 := (region_order size, true)]}. split; [by apply bd_init_spec|].
    rewrite bd_payloads_ext with (B' := ∅).
    + split; [done|]. by intros p n m ?%lookup_empty_Some.
    + intros a o. rewrite lookup_singleton_Some. naive_solver.
  - destruct (bd_alloc_cases heap _ st B n HR Hn) as (o & (Ho & Hfit & _) &
      [[E _]|(a & k & s' & Hk & Ha & _ & E & HR')]); rewrite E in Hal; simplify_eq.
    { exists B. by rewrite decide_True by done. }
    destruct (tl_range _ _ (br_tiling _ _ _ _ HR) _ _ _ Ha) as [Ha0 _].
    rewrite decide_False by lia. exists (carved B a k o). split; [done|].
    rewrite (carved_payloads heap _ st) by (done || lia). split.
    + by rewrite !dom_insert_L, Hd.
    + intros q x y [[<- <-]|[Hq Hx]]%lookup_insert_Some [[? <-]|[Hq' Hy]]%lookup_insert_Some;
        try done; [lia|by eapply Hle].
  - assert (is_Some (bd_payloads heap B !! p)) as [m Hm].
    { apply elem_of_dom. rewrite <-Hd. apply elem_of_dom. eauto. }
    apply bd_payloads_Some in Hm as (a & o & -> & Ha & _).
    destruct (bd_free_spec heap _ st B a o HR Ha) as (s' & Hf' & HR'). simplify_eq.
    exists (freed B a o). split; [done|].
    destruct (tl_order _ _ (br_tiling _ _ _ _ HR) _ _ _ Ha) as [Ho _].
    rewrite freed_payloads by done. split.
    + by rewrite !dom_delete_L, Hd.
    + intros q x y [_ Hx]%lookup_delete_Some [_ Hy]%lookup_delete_Some. by eapply Hle.
Qed.

(** C2: whatever requests and releases a program makes, the allocator's data
    stays well formed: the blocks tile the region, every live payload lies
    in a used block of its own that is large enough, and the next request or
    release completes. *)
Theorem bd_reach_well_formed heap size st P (Hh : 0 < heap) (Hs : MIN_BLOCK_SIZE ≤ size)
    (Hhs : heap + size < 2 ^ 64) (Hr : bd_reach heap size st P) :
  (∃ B, bd_rep heap (region_order size) st B ∧ dom P = dom (bd_payloads heap B)) ∧
  disjoint_blocks P ∧
  (∀ n, 0 < n < mm_max_request → is_Some (bd_alloc st n)) ∧
  (∀ p n, P !! p = Some n → is_Some (bd_free st p)).
Proof.
  destruct (bd_reach_rep heap size st P Hh Hs Hhs Hr) as (B & HR & Hd & Hle).
  assert (bd_inv st (bd_payloads heap B)) as HI by (by eexists _, _, B).
  assert (∀ p n, P !! p = Some n → ∃ m, bd_payloads heap B !! p = Some m ∧ n ≤ m) as Hsome.
  { intros p n Hp. assert (is_Some (bd_payloads heap B !! p)) as [m Hm].
    { apply elem_of_dom. rewrite <-Hd. apply elem_of_dom. eauto. }
    exists m. split; [done|]. by eapply Hle. }
  split_and!.
  - eauto.
  - intros p q n m (n' & Hp & ?)%Hsome (m' & Hq & ?)%Hsome Hne.
    pose proof (mm_inv_disjoint st _ HI p q n' m' Hp Hq Hne). lia.
  - intros n Hn. destruct (bd_alloc_cases heap _ st B n HR Hn)
      as (o & _ & [[-> _]|(a & k & s' & _ & _ & _ & -> & _)]); eauto.
  - intros p n (m & (a & o & -> & Ha & _)%bd_payloads_Some & _)%Hsome.
    destruct (bd_free_spec heap _ st B a o HR Ha) as (s' & -> & _). eauto.
Qed.

(** A region of 16 pages at [0x200000], used by the witnesses. *)
Definition bd_demo : bd_state := bd_boot 0x200000 0x10000.

Lemma bd_demo_rep : bd_rep 0x200000 4 bd_demo {[0 := (4, true)]}.
Proof. apply (bd_init_spec 0x200000 0x10000); by vm_compute. Qed.

(** After [mm_alloc(5000)]. *)
Definition bd_demo1 : bd_state := default bd_demo (snd <$> bd_alloc bd_demo 5000).

Lemma bd_demo1_run : bd_alloc bd_demo 5000 = Some (0x200008, bd_demo1).
Proof. vm_compute. reflexivity. Qed.

Lemma demo_size n : 0 < n → n < 10000 → 0 < n < mm_max_request.
Proof. unfold mm_max_request. lia. Qed.

Lemma bd_demo1_rep :
  bd_rep 0x200000 4 bd_demo1 (carved {[0 := (4, true)]} 0 4 1).
Proof.
  assert (0 < 5000 < mm_max_request) as Hn by (by apply demo_size).
  destruct (bd_alloc_cases _ _ _ _ 5000 bd_demo_rep Hn) as (o & (Ho & Hfit & Hlow) &
    [[E _]|(a & k & s' & Hk & Ha & _ & E & HR')]); rewrite bd_demo1_run in E; simplify_eq.
  apply lookup_singleton_Some in Ha as [<- ?]. simplify_eq.
  assert (o = 1) as ->; [|done].
  destruct (decide (o = 0)) as [->|]; [by vm_compute in Hfit|].
  destruct (decide (o = 1)) as [|]; [done|].
  assert (bsize 1 < 5000 + HDR) as Hc by (apply Hlow; lia). by vm_compute in Hc.
Qed.

Lemma bd_alloc_correct_witness :
  ∃ o, fits 5008 o ∧
  ((bd_alloc bd_demo 5000 = Some (NULL, bd_demo) ∧
     ∀ a j, o ≤ j → ({[0 := (4, true)]} : blocks) !! a ≠ Some (j, true)) ∨
   (∃ a k st', o ≤ k ∧ ({[0 := (4, true)]} : blocks) !! a = Some (k, true) ∧
     (∀ b j, o ≤ j < k → ({[0 := (4, true)]} : blocks) !! b ≠ Some (j, true)) ∧
     bd_alloc bd_demo 5000 = Some (0x200000 + a + 8, st') ∧
     bd_rep 0x200000 4 st' (carved {[0 := (4, true)]} a k o))).
Proof. exact (bd_alloc_correct _ _ _ _ 5000 bd_demo_rep (demo_size 5000 eq_refl eq_refl)). Defined.

Lemma bd_free_correct_witness :
  ∃ st', bd_free bd_demo1 0x200008 = Some st' ∧
    bd_rep 0x200000 4 st' (freed (carved {[0 := (4, true)]} 0 4 1) 0 1) ∧
    bd_payloads 0x200000 (freed (carved {[0 := (4, true)]} 0 4 1) 0 1) =
      delete 0x200008 (bd_payloads 0x200000 (carved {[0 := (4, true)]} 0 4 1)).
Proof. exact (bd_free_correct _ _ _ _ 0 1 bd_demo1_rep eq_refl). Defined.

Lemma bd_alloc_free_roundtrip_witness :
  ∃ st'', bd_free bd_demo1 0x200008 = Some st'' ∧ bd_rep 0x200000 4 st'' {[0 := (4, true)]}.
Proof.
  refine (bd_alloc_free_roundtrip _ _ _ _ 5000 _ _ bd_demo_rep
    (demo_size 5000 eq_refl eq_refl) bd_demo1_run _). lia.
Defined.

Lemma bd_stats_correct_witness :
  bd_get_stats bd_demo1 = Some {| total_memory := 65536; free_memory := 57344;
    occupied_memory := 8192 |}.
Proof. exact (bd_stats_correct _ _ _ _ bd_demo1_rep). Defined.

Lemma bd_alloc_ends_witness :
  (∃ o, order_loop order_fuel (required_space 5000) MIN_BLOCK_SIZE 0 = Some o ∧
    fits 5008 o) ∧
  order_loop 100 (required_space (2 ^ 63)) MIN_BLOCK_SIZE 0 = None.
Proof.
  split.
  - exact (bd_alloc_ends 5000 eq_refl eq_refl).
  - exact (bd_alloc_ends (2 ^ 63) eq_refl eq_refl 100%nat).
Defined.

Lemma bd_reach_well_formed_witness :
  (∃ B, bd_rep 0x200000 (region_order 0x10000) bd_demo1 B ∧
    dom ({[0x200008 := 5000]} : gmap Z Z) = dom (bd_payloads 0x200000 B)) ∧
  disjoint_blocks {[0x200008 := 5000]} ∧
  (∀ n, 0 < n < mm_max_request → is_Some (bd_alloc bd_demo1 n)) ∧
  (∀ p n, ({[0x200008 := 5000]} : gmap Z Z) !! p = Some n → is_Some (bd_free bd_demo1 p)).
Proof.
  refine (bd_reach_well_formed 0x200000 0x10000 bd_demo1 {[0x200008 := 5000]}
    eq_refl _ eq_refl _); [by vm_compute|].
  exact (reach_alloc 0x200000 0x10000 bd_demo ∅ 5000 0x200008 bd_demo1
    (reach_boot _ _) (demo_size 5000 eq_refl eq_refl) bd_demo1_run).
Defined.

(** The room for the metadata is added in 64 bits, so the largest requests
    wrap and are served by a block of one page. *)
Example required_space_wraps : required_space (2 ^ 64 - 8) = 8.
Proof. by vm_compute. Qed.
