(* ===== verification/Queue.v ===== *)
(** * The queue ([datastructures/queue.c])

    Two models of [QueueADT].  The abstract one, used by the scheduler and
    the semaphores, keeps the queue as the list of its nodes (the address of
    the node, the address of its data buffer and the word stored there) and
    the iterator as the position of a node.  The concrete one, [c_*], is the
    pointer code: [next] and [data] fields, head, tail and iterator
    pointers, element count.  The last part proves that each concrete
    operation simulates the abstract one and touches no other queue. *)

From S2P Require Import Prelude Chain MemoryManager FirstFit.

Record node := Node { n_self : Z; n_data : Z; n_val : Z }.

Record queue := Queue { q_nodes : list node; q_iter : option nat; q_dataSize : Z }.

Definition NODE_SIZE : Z := 16.
Definition QUEUE_SIZE : Z := 48.

(** The values held, head first, and the addresses of the nodes. *)
Definition q_vals (q : queue) : list Z := n_val <$> q_nodes q.
Definition q_addrs (q : queue) : list Z := n_self <$> q_nodes q.

Section ops.
Context {St : Type} `{MemoryManager St}.
Implicit Types (mm : St) (q : queue).

(** [createQueue] returns the address of the queue structure and its
    content. *)
Definition createQueue mm (elemSize : Z) : option (Z * queue) * St :=
  let '(p, mm1) := mm_alloc mm QUEUE_SIZE in
  if decide (p = NULL ∨ elemSize = 0) then (None, mm_free mm1 p)
  else (Some (p, Queue [] None elemSize), mm1).

Definition enqueue mm q (v : Z) : option queue * St :=
  let '(new, mm1) := mm_alloc mm NODE_SIZE in
  if decide (new = NULL) then (None, mm1)
  else
    let '(d, mm2) := mm_alloc mm1 (q_dataSize q) in
    if decide (d = NULL) then (None, mm_free mm2 new)
    else (Some (Queue (q_nodes q ++ [Node new d v]) (q_iter q) (q_dataSize q)), mm2).

(** [None] is the [NULL] of an empty queue.  An iterator on the head moves
    to the next node; the iterator of an emptied queue is reset. *)
Definition dequeue mm q : option (Z * queue) * St :=
  match q_nodes q with
  | [] => (None, mm)
  | n :: l =>
      let it := match q_iter q with
                | Some (S i) => Some i
                | Some O => Some O
                | None => None
                end in
      let it := if decide (l = []) then None else it in
      (Some (n_val n, Queue l it (q_dataSize q)),
       mm_free (mm_free mm (n_data n)) (n_self n))
  end.

(** The loop of [queueRemove]; [eqv v] is [cmp(v, data) == 0], [None] when
    the comparison reads through an invalid pointer. *)
Fixpoint remove_loop (eqv : Z → option bool) (pre cur : list node)
  : option (option (list node * node * list node)) :=
  match cur with
  | [] => Some None
  | n :: cur' =>
      b ← eqv (n_val n);
      if b : bool then Some (Some (pre, n, cur'))
      else remove_loop eqv (pre ++ [n]) cur'
  end.

(** The iterator after the node at position [k] of [len] was unlinked. *)
Definition iter_remove (it : option nat) (k len : nat) : option nat :=
  match it with
  | None => None
  | Some i =>
      if decide (i = k) then (if decide (S k < len)%nat then Some k else None)
      else if decide (k < i)%nat then Some (pred i) else Some i
  end.

Definition queueRemove mm q (eqv : Z → option bool) : option (bool * queue * St) :=
  r ← remove_loop eqv [] (q_nodes q);
  match r with
  | None => Some (false, q, mm)
  | Some (pre, n, post) =>
      Some (true,
            Queue (pre ++ post)
              (iter_remove (q_iter q) (length pre) (length (q_nodes q))) (q_dataSize q),
            mm_free (mm_free mm (n_data n)) (n_self n))
  end.

Definition queuePeek q : option Z := n_val <$> head (q_nodes q).

(** [queueFree], less the release of the queue structure. *)
Fixpoint free_nodes mm (l : list node) : St :=
  match l with
  | [] => mm
  | n :: l => free_nodes (mm_free (mm_free mm (n_data n)) (n_self n)) l
  end.

Definition queueSize q : Z := Z.of_nat (length (q_nodes q)).
Definition queueIsEmpty q : bool := bool_decide (queueSize q = 0).

Definition queueBeginCyclicIter q : queue :=
  if decide (q_nodes q = []) then q else Queue (q_nodes q) (Some O) (q_dataSize q).

(** The value copied out (an inner [None]: the call returned [NULL]). *)
Definition queueNextCyclicIter q : option (option Z * queue) :=
  match q_iter q with
  | None => Some (None, q)
  | Some i =>
      n ← q_nodes q !! i;
      let it := if decide (S i < length (q_nodes q))%nat then S i else O in
      Some (Some (n_val n), Queue (q_nodes q) (Some it) (q_dataSize q))
  end.

Definition queueCyclicIterLooped q : bool := bool_decide (q_iter q = Some O).
Definition queueIteratorIsInitialized q : bool := bool_decide (is_Some (q_iter q)).

(** The loop of [queueElementExists], with [i] iterations left. *)
Fixpoint exists_loop (i : nat) (q : queue) (eqv : Z → option bool) : option (bool * queue) :=
  match i with
  | O => Some (false, q)
  | S i =>
      '(r, q') ← queueNextCyclicIter q;
      v ← r;
      b ← eqv v;
      if b : bool then Some (true, q') else exists_loop i q' eqv
  end.

Definition queueElementExists mm q (eqv : Z → option bool)
  : option (bool * queue * St) :=
  let '(buffer, mm1) := mm_alloc mm (q_dataSize q) in
  if decide (buffer = NULL) then
    (* nothing is copied to NULL, and [cmp] then reads through it *)
    if decide (q_nodes q = []) then Some (false, q, mm_free mm1 buffer) else None
  else
    '(found, q') ← exists_loop (length (q_nodes q)) (queueBeginCyclicIter q) eqv;
    Some (found, q', mm_free mm1 buffer).
End ops.

(** ** Well-formed queues and what the operations do to the values *)

(** The iterator is unset or on a node. *)
Definition queue_wf (q : queue) : Prop :=
  match q_iter q with None => True | Some i => (i < length (q_nodes q))%nat end.

Section facts.
Context {St : Type} `{MemoryManager St}.
Implicit Types (mm : St) (q : queue).

Lemma remove_loop_spec eqv l : ∀ pre,
  (∀ n, n ∈ l → is_Some (eqv (n_val n))) →
  (remove_loop eqv pre l = Some None ∧ ∀ n, n ∈ l → eqv (n_val n) = Some false) ∨
  (∃ l1 n l2, l = l1 ++ n :: l2 ∧ eqv (n_val n) = Some true ∧
     (∀ m, m ∈ l1 → eqv (n_val m) = Some false) ∧
     remove_loop eqv pre l = Some (Some (pre ++ l1, n, l2))).
Proof.
  induction l as [|n l IH]; intros pre Hdef; simpl.
  - left. split; [done|]. by intros ? ?%elem_of_nil.
  - destruct (Hdef n) as [[] Hn]; [set_solver| |]; rewrite Hn; simpl.
    + right. exists [], n, l. rewrite app_nil_r. split_and!; auto.
      by intros ? ?%elem_of_nil.
    + destruct (IH (pre ++ [n])) as [[-> Hall]|(l1 & m & l2 & -> & Hm & Hl1 & ->)].
      * set_solver.
      * left. split; [done|]. set_solver.
      * right. exists (n :: l1), m, l2. rewrite <-app_assoc. set_solver.
Qed.

Lemma q_vals_length q : length (q_vals q) = length (q_nodes q).
Proof. apply length_fmap. Qed.

(** What [queueRemove] does to the values of the queue. *)
Lemma queueRemove_spec mm q eqv :
  queue_wf q → (∀ v, v ∈ q_vals q → is_Some (eqv v)) →
  (queueRemove mm q eqv = Some (false, q, mm) ∧
     ∀ v, v ∈ q_vals q → eqv v = Some false) ∨
  (∃ l1 v l2 q' mm', q_vals q = l1 ++ v :: l2 ∧ eqv v = Some true ∧
     (∀ w, w ∈ l1 → eqv w = Some false) ∧
     queueRemove mm q eqv = Some (true, q', mm') ∧
     q_vals q' = l1 ++ l2 ∧ queue_wf q' ∧
     q_iter q' = iter_remove (q_iter q) (length l1) (length (q_vals q)) ∧
     q_dataSize q' = q_dataSize q).
Proof.
  intros Hwf Hdef. unfold queueRemove.
  destruct (remove_loop_spec eqv (q_nodes q) [])
    as [[-> Hall]|(l1 & n & l2 & E & Hn & Hl1 & ->)].
  - intros n Hn. apply Hdef. by apply list_elem_of_fmap_2.
  - left. split; [done|]. intros v (n & -> & ?)%list_elem_of_fmap. by apply Hall.
  - right. simpl. exists (n_val <$> l1), (n_val n), (n_val <$> l2).
    eexists _, _. unfold q_vals. rewrite E, fmap_app, fmap_cons.
    split; [done|]. split; [done|].
    split; [intros w (m & -> & ?)%list_elem_of_fmap; by apply Hl1|].
    split; [done|]. simpl. rewrite fmap_app, <-!length_fmap with (f := n_val).
    rewrite fmap_app. simpl. split; [done|]. split; [|by rewrite length_fmap].
    unfold queue_wf in *. simpl. rewrite E in Hwf. destruct (q_iter q) as [i|]; [|done].
    simpl. repeat case_decide; simpl; rewrite ?length_app, ?length_fmap in *;
      simpl in *; rewrite ?length_fmap in *; lia.
Qed.

(** [enqueue] needs a node and a copy of the element. *)
Definition grants_node mm (size : Z) : bool :=
  let '(new, mm1) := mm_alloc mm NODE_SIZE in
  bool_decide (new ≠ NULL) && bool_decide ((mm_alloc mm1 size).1 ≠ NULL).

Lemma enqueue_granted mm q v :
  grants_node mm (q_dataSize q) = bool_decide ((enqueue mm q v).1 ≠ None).
Proof.
  unfold grants_node, enqueue. destruct (mm_alloc mm NODE_SIZE) as [new mm1].
  case_decide; [by rewrite bool_decide_eq_false_2 by tauto|].
  rewrite bool_decide_eq_true_2 by done. destruct (mm_alloc mm1 _) as [d mm2]. simpl.
  case_decide; [by rewrite bool_decide_eq_false_2 by tauto|].
  by rewrite bool_decide_eq_true_2.
Qed.

Lemma enqueue_spec mm q v :
  let '(r, mm') := enqueue mm q v in
  match r with
  | None => True
  | Some q' => q_vals q' = q_vals q ++ [v] ∧ q_iter q' = q_iter q ∧
      q_dataSize q' = q_dataSize q ∧ (queue_wf q → queue_wf q')
  end.
Proof.
  unfold enqueue. destruct (mm_alloc mm NODE_SIZE) as [new mm1].
  case_decide; [done|]. destruct (mm_alloc mm1 _) as [d mm2].
  case_decide; [done|]. unfold q_vals, queue_wf; simpl.
  rewrite fmap_app. split_and!; try done.
  destruct (q_iter q); [|done]. rewrite length_app. simpl. lia.
Qed.

Lemma dequeue_spec mm q :
  match q_vals q with
  | [] => dequeue mm q = (None, mm)
  | v :: vs => ∃ q' mm', dequeue mm q = (Some (v, q'), mm') ∧ q_vals q' = vs ∧
      q_dataSize q' = q_dataSize q ∧ (queue_wf q → queue_wf q')
  end.
Proof.
  unfold q_vals, dequeue. destruct (q_nodes q) as [|n l] eqn:E; [done|]. simpl.
  eexists _, _. split; [done|]. split; [done|]. split; [done|].
  unfold queue_wf. rewrite E. simpl. case_decide; [done|].
  destruct (q_iter q) as [[|i]|]; simpl; [|lia|done].
  intros _. destruct l; [done|]. simpl. lia.
Qed.

Lemma queueIsEmpty_spec q : queueIsEmpty q = bool_decide (q_vals q = []).
Proof.
  unfold queueIsEmpty, queueSize, q_vals. apply bool_decide_ext.
  destruct (q_nodes q); simpl; split; try done; lia.
Qed.

Lemma queueSize_spec q : queueSize q = Z.of_nat (length (q_vals q)).
Proof. unfold queueSize, q_vals. by rewrite length_fmap. Qed.

Lemma queueNext_spec q i v :
  q_iter q = Some i → q_vals q !! i = Some v →
  ∃ q', queueNextCyclicIter q = Some (Some v, q') ∧ q_vals q' = q_vals q ∧
    q_iter q' = Some (if decide (S i < length (q_vals q))%nat then S i else O) ∧
    q_dataSize q' = q_dataSize q ∧ queue_wf q'.
Proof.
  intros Hi (n & -> & Hn)%list_lookup_fmap_Some. unfold queueNextCyclicIter.
  rewrite Hi, Hn. simpl. eexists. rewrite q_vals_length.
  split; [done|]. split_and!; try done. unfold queue_wf. simpl.
  apply lookup_lt_Some in Hn. case_decide; lia.
Qed.

Lemma queueBegin_spec q :
  q_vals (queueBeginCyclicIter q) = q_vals q ∧
  q_dataSize (queueBeginCyclicIter q) = q_dataSize q ∧
  (q_vals q ≠ [] → q_iter (queueBeginCyclicIter q) = Some O).
Proof.
  unfold queueBeginCyclicIter, q_vals. case_decide as E; [|done].
  rewrite E. done.
Qed.

Lemma exists_loop_spec eqv k : ∀ q i,
  (i + k = length (q_vals q))%nat → q_iter q = Some (if decide (k = 0)%nat then O else i) →
  (∀ v, v ∈ q_vals q → is_Some (eqv v)) →
  ∃ b q', exists_loop k q eqv = Some (b, q') ∧
    (b = true ↔ ∃ v, v ∈ drop i (q_vals q) ∧ eqv v = Some true) ∧
    q_vals q' = q_vals q ∧ q_dataSize q' = q_dataSize q ∧
    (q_vals q ≠ [] → queue_wf q').
Proof.
  induction k as [|k IH]; intros q i Hlen Hi Hdef.
  - exists false, q. rewrite drop_ge by lia. split; [done|]. split.
    { split; [done|]. by intros (v & ?%elem_of_nil & _). }
    split_and!; try done. unfold queue_wf. rewrite Hi. simpl. unfold q_vals.
    destruct (q_nodes q); simpl; [done|lia].
  - cbn [exists_loop]. rewrite decide_False in Hi by lia.
    destruct (lookup_lt_is_Some_2 (q_vals q) i) as [v Hv]; [lia|].
    destruct (queueNext_spec q i v Hi Hv) as (q1 & -> & Hq1 & Hi1 & Hd1 & Hwf1).
    cbn [mbind option_bind].
    destruct (Hdef v) as [b Hb]; [by eapply list_elem_of_lookup_2|]. rewrite Hb.
    cbn [mbind option_bind]. rewrite (drop_S _ _ _ Hv).
    destruct b.
    + exists true, q1. split; [done|]. split; [|done]. set_solver.
    + destruct (IH q1 (S i)) as (b & q' & -> & Hbq & Hv' & Hd' & Hwf').
      * rewrite Hq1. lia.
      * rewrite Hi1. f_equal. repeat case_decide; lia.
      * by rewrite Hq1.
      * rewrite Hq1 in *. exists b, q'. split; [done|]. split; [|by rewrite Hd', Hd1].
        rewrite Hbq. split; [set_solver|]. intros (w & [->|?]%elem_of_cons & Hw); [|eauto].
        congruence.
Qed.

(** [queueElementExists] decides membership; it moves the iterator but not
    the values. *)
Lemma queueElementExists_spec mm q eqv :
  (∀ v, v ∈ q_vals q → is_Some (eqv v)) → queue_wf q →
  (mm_alloc mm (q_dataSize q)).1 ≠ NULL →
  ∃ b q', queueElementExists mm q eqv =
      Some (b, q', mm_free (mm_alloc mm (q_dataSize q)).2 (mm_alloc mm (q_dataSize q)).1) ∧
    (b = true ↔ ∃ v, v ∈ q_vals q ∧ eqv v = Some true) ∧
    q_vals q' = q_vals q ∧ q_dataSize q' = q_dataSize q ∧ queue_wf q'.
Proof.
  intros Hdef Hwf. unfold queueElementExists.
  destruct (mm_alloc mm _) as [buf mm1]. simpl. intros Hbuf.
  rewrite decide_False by done.
  destruct (queueBegin_spec q) as (Hv & Hd & Hi).
  destruct (decide (q_vals q = [])) as [E|E].
  - unfold queueBeginCyclicIter. assert (q_nodes q = []) as En.
    { by apply fmap_nil_inv in E. }
    rewrite En, decide_True by done. simpl. exists false, q. rewrite E.
    split; [done|]. split; [|done].
    split; [done|]. by intros (v & ?%elem_of_nil & _).
  - destruct (exists_loop_spec eqv (length (q_nodes q)) (queueBeginCyclicIter q) 0)
      as (b & q' & -> & Hb & Hv' & Hd' & Hwf').
    + rewrite Hv. unfold q_vals. by rewrite length_fmap.
    + rewrite Hi by done. by case_decide.
    + by rewrite Hv.
    + rewrite Hv in *. exists b, q'. split; [done|]. rewrite Hd', Hd. auto.
Qed.
End facts.

(** ** The pointer code *)

Module Concrete.

Record qheap (St : Type) := QHeap {
  h_mm : St;
  h_next : gmap Z Z;   (* node -> next *)
  h_data : gmap Z Z;   (* node -> data *)
  h_cell : gmap Z Z;   (* data buffer -> its word *)
}.
Arguments QHeap {_}. Arguments h_mm {_}. Arguments h_next {_}.
Arguments h_data {_}. Arguments h_cell {_}.

Record QueueCDT := CDT { head : Z; tail : Z; cyclicIter : Z; dataSize : Z; elemCount : Z }.

Section concrete.
Context {St : Type} `{MemoryManager St}.
Implicit Types (h : qheap St) (c : QueueCDT).

(** [mm_free(n->data); mm_free(n)] *)
Definition c_free_node h (n d : Z) : qheap St :=
  QHeap (mm_free (mm_free (h_mm h) d) n) (delete n (h_next h)) (delete n (h_data h))
    (delete d (h_cell h)).

(** [Some (false, ...)] is the [NULL] return; [None] an invalid access. *)
Definition c_enqueue h c (v : Z) : option (bool * QueueCDT * qheap St) :=
  let '(new, mm1) := mm_alloc (h_mm h) NODE_SIZE in
  if decide (new = NULL) then Some (false, c, QHeap mm1 (h_next h) (h_data h) (h_cell h))
  else
    let '(d, mm2) := mm_alloc mm1 (dataSize c) in
    if decide (d = NULL) then
      Some (false, c, QHeap (mm_free mm2 new) (h_next h) (h_data h) (h_cell h))
    else
      let next := <[new := NULL]> (h_next h) in
      let data := <[new := d]> (h_data h) in
      let cell := <[d := v]> (h_cell h) in
      if decide (head c = NULL) then
        Some (true, CDT new new (cyclicIter c) (dataSize c) (u64 (elemCount c + 1)),
              QHeap mm2 next data cell)
      else
        _ ← next !! tail c;
        Some (true, CDT (head c) new (cyclicIter c) (dataSize c) (u64 (elemCount c + 1)),
              QHeap mm2 (<[tail c := new]> next) data cell).

Definition c_dequeue h c : option (option Z * QueueCDT * qheap St) :=
  if decide (head c = NULL) then Some (None, c, h)
  else
    let temp := head c in
    nxt ← h_next h !! temp;
    let it := if decide (cyclicIter c ≠ NULL ∧ cyclicIter c = head c)
              then nxt else cyclicIter c in
    let tl := if decide (nxt = NULL) then NULL else tail c in
    let it := if decide (nxt = NULL) then NULL else it in
    d ← h_data h !! temp;
    v ← h_cell h !! d;
    Some (Some v, CDT nxt tl it (dataSize c) (u64 (elemCount c - 1)),
          c_free_node h temp d).

Fixpoint c_remove_loop (fuel : nat) h c (eqv : Z → option bool) (prev current : Z)
  : option (bool * QueueCDT * qheap St) :=
  match fuel with
  | O => None
  | S fuel =>
      if decide (current = NULL) then Some (false, c, h)
      else
        d ← h_data h !! current; v ← h_cell h !! d; b ← eqv v;
        nxt ← h_next h !! current;
        if b : bool then
          let '(hd, next) :=
            if decide (prev = NULL) then (nxt, h_next h)
            else (head c, <[prev := nxt]> (h_next h)) in
          let tl := if decide (current = tail c) then prev else tail c in
          let it := if decide (cyclicIter c ≠ NULL ∧ cyclicIter c = current)
                    then nxt else cyclicIter c in
          Some (true, CDT hd tl it (dataSize c) (u64 (elemCount c - 1)),
                c_free_node (QHeap (h_mm h) next (h_data h) (h_cell h)) current d)
        else c_remove_loop fuel h c eqv current nxt
  end.

Definition c_queueRemove h c (eqv : Z → option bool)
  : option (bool * QueueCDT * qheap St) :=
  if decide (head c = NULL) then Some (false, c, h)
  else c_remove_loop (S (size (h_next h))) h c eqv NULL (head c).

Definition c_queuePeek h c : option (option Z) :=
  if decide (head c = NULL) then Some None
  else d ← h_data h !! head c; v ← h_cell h !! d; Some (Some v).

Fixpoint c_free_loop (fuel : nat) h (current : Z) : option (qheap St) :=
  match fuel with
  | O => None
  | S fuel =>
      if decide (current = NULL) then Some h
      else
        next ← h_next h !! current;
        d ← h_data h !! current;
        c_free_loop fuel (c_free_node h current d) next
  end.

Definition c_queueFree h c : option (qheap St) :=
  c_free_loop (S (size (h_next h))) h (head c).

Definition c_queueBeginCyclicIter c : QueueCDT :=
  if decide (head c = NULL) then c
  else CDT (head c) (tail c) (head c) (dataSize c) (elemCount c).

Definition c_queueNextCyclicIter h c : option (option Z * QueueCDT) :=
  if decide (cyclicIter c = NULL) then Some (None, c)
  else
    d ← h_data h !! cyclicIter c; v ← h_cell h !! d;
    nxt ← h_next h !! cyclicIter c;
    let it := if decide (nxt = NULL) then head c else nxt in
    Some (Some v, CDT (head c) (tail c) it (dataSize c) (elemCount c)).

Definition c_queueCyclicIterLooped c : bool :=
  if decide (cyclicIter c = NULL) then false else bool_decide (cyclicIter c = head c).

Definition c_queueIsEmpty c : bool := bool_decide (elemCount c = 0).
Definition c_queueIteratorIsInitialized c : bool := bool_decide (cyclicIter c ≠ NULL).
End concrete.

(** ** Refinement *)

Definition q_datas (q : queue) : list Z := n_data <$> q_nodes q.

(** Every block the nodes of a queue own. *)
Definition footprint (q : queue) : list Z := q_addrs q ++ q_datas q.

(** [c] with the nodes of the heap [h] represents the queue [q]. *)
Record queue_rep {St} (h : qheap St) (c : QueueCDT) (q : queue) : Prop := {
  qr_chain : lseg (h_next h) (head c) (q_addrs q) NULL;
  qr_data : ∀ n, n ∈ q_nodes q → h_data h !! n_self n = Some (n_data n);
  qr_cell : ∀ n, n ∈ q_nodes q → h_cell h !! n_data n = Some (n_val n);
  qr_nodup : NoDup (footprint q);
  qr_nonnull : NULL ∉ footprint q;
  qr_tail : tail c = default NULL (last (q_addrs q));
  qr_iter : cyclicIter c = default NULL (i ← q_iter q; q_addrs q !! i);
  qr_wf : queue_wf q;
  qr_size : dataSize c = q_dataSize q;
  qr_count : elemCount c = queueSize q;
  qr_bound : queueSize q < 2 ^ 64;
}.

Section rep.
Context {St : Type}.
Implicit Types (h : qheap St) (c : QueueCDT) (q : queue).

Lemma queue_rep_ext h h' c q :
  queue_rep h c q →
  (∀ a, a ∈ q_addrs q → h_next h' !! a = h_next h !! a ∧ h_data h' !! a = h_data h !! a) →
  (∀ d, d ∈ q_datas q → h_cell h' !! d = h_cell h !! d) →
  queue_rep h' c q.
Proof.
  intros Hr Ha Hd. destruct Hr. constructor; try done.
  - eapply lseg_ext; [|done]. intros a ?. by apply Ha.
  - intros n Hn. destruct (Ha (n_self n)) as [_ ->]; [by apply list_elem_of_fmap_2|eauto].
  - intros n Hn. rewrite Hd; [eauto|by apply list_elem_of_fmap_2].
Qed.

Lemma queue_rep_head_null h c q :
  queue_rep h c q → head c = NULL ↔ q_nodes q = [].
Proof.
  intros Hr. pose proof (qr_nonnull _ _ _ Hr) as Hn. pose proof (qr_chain _ _ _ Hr) as Hc.
  unfold footprint, q_addrs in *. destruct (q_nodes q) as [|n l]; simpl in *.
  - done.
  - destruct Hc as [-> _]. split; [|done]. set_solver.
Qed.
End rep.

Section simulation.
Context {St : Type} `{MemoryManagerOk St}.
Implicit Types (h : qheap St) (c : QueueCDT) (q : queue).

Definition owned (B : gmap Z Z) (q : queue) : Prop :=
  ∀ a, a ∈ footprint q → is_Some (B !! a).

(** [h'] agrees with [h] on every other queue that owns live blocks. *)
Definition others_kept (B : gmap Z Z) (q : queue) h h' : Prop :=
  ∀ c2 q2, queue_rep h c2 q2 → owned B q2 → footprint q2 ## footprint q →
    queue_rep h' c2 q2.

Lemma others_kept_by B q h h' :
  (∀ a, is_Some (B !! a) → a ∉ footprint q →
     h_next h' !! a = h_next h !! a ∧ h_data h' !! a = h_data h !! a ∧
     h_cell h' !! a = h_cell h !! a) →
  others_kept B q h h'.
Proof.
  intros Hag c2 q2 Hr Hown Hdisj. apply (queue_rep_ext h); [done|..].
  - intros a Ha. assert (a ∈ footprint q2) as Hf by (apply elem_of_app; by left).
    destruct (Hag a) as (? & ? & ?); [by apply Hown|intros ?; by apply (Hdisj a)|done].
  - intros a Ha. assert (a ∈ footprint q2) as Hf by (apply elem_of_app; by right).
    destruct (Hag a) as (? & ? & ?); [by apply Hown|intros ?; by apply (Hdisj a)|done].
Qed.

(** The two allocations of a node are fresh and distinct. *)
Lemma alloc_node mm B q p mm1 d mm2 :
  mm_inv mm B → owned B q → 0 < q_dataSize q < mm_max_request →
  mm_alloc mm NODE_SIZE = (p, mm1) → p ≠ NULL →
  mm_alloc mm1 (q_dataSize q) = (d, mm2) → d ≠ NULL →
  B !! p = None ∧ B !! d = None ∧ p ≠ d ∧ (p ∉ footprint q) ∧ d ∉ footprint q.
Proof.
  intros Hinv Hown Hsz E1 Hn E2 Hd.
  assert (0 < NODE_SIZE < mm_max_request) as Hns by done.
  pose proof (mm_alloc_ok mm B NODE_SIZE Hinv Hns) as A1. rewrite E1, decide_False in A1 by done.
  destruct A1 as [Hnew (m1 & _ & Hinv1)].
  pose proof (mm_alloc_ok mm1 _ _ Hinv1 Hsz) as A2. rewrite E2, decide_False in A2 by done.
  destruct A2 as [[Hd1 Hd2]%lookup_insert_None _].
  split_and!; try done.
  - intros Hin%Hown. rewrite Hnew in Hin. by destruct Hin.
  - intros Hin%Hown. rewrite Hd1 in Hin. by destruct Hin.
Qed.

(** Appending a fresh node to the chain. *)
Lemma rep_snoc h c q p d v mm2 :
  queue_rep h c q → queueSize q + 1 < 2 ^ 64 →
  p ≠ NULL → d ≠ NULL → p ≠ d → p ∉ footprint q → d ∉ footprint q →
  let next := <[p := NULL]> (h_next h) in
  let data := <[p := d]> (h_data h) in
  let cell := <[d := v]> (h_cell h) in
  ∃ c' h',
    (if decide (head c = NULL) then
       Some (true, CDT p p (cyclicIter c) (dataSize c) (u64 (elemCount c + 1)),
             QHeap mm2 next data cell)
     else
       _ ← next !! tail c;
       Some (true, CDT (head c) p (cyclicIter c) (dataSize c) (u64 (elemCount c + 1)),
             QHeap mm2 (<[tail c := p]> next) data cell)) = Some (true, c', h') ∧
    h_mm h' = mm2 ∧
    queue_rep h' c' (Queue (q_nodes q ++ [Node p d v]) (q_iter q) (q_dataSize q)) ∧
    (∀ a, a ≠ p → a ≠ d → a ∉ footprint q →
       h_next h' !! a = h_next h !! a ∧ h_data h' !! a = h_data h !! a ∧
       h_cell h' !! a = h_cell h !! a).
Proof.
  intros Hr Hb Hn0 Hd0 Hnd Hnf Hdf next data cell.
  pose proof (queue_rep_head_null _ _ _ Hr) as Hhd. pose proof Hr as Hr'. destruct Hr'.
  assert ((p ∉ q_addrs q) ∧ d ∉ q_datas q) as [Hna Hdd].
  { unfold footprint in *. set_solver. }
  set (q' := Queue (q_nodes q ++ [Node p d v]) (q_iter q) (q_dataSize q)).
  assert (q_addrs q' = q_addrs q ++ [p]) as Ea by (unfold q_addrs, q'; simpl; by rewrite fmap_app).
  assert (q_datas q' = q_datas q ++ [d]) as Ed by (unfold q_datas, q'; simpl; by rewrite fmap_app).
  assert (footprint q' ≡ₚ p :: d :: footprint q) as Ef.
  { unfold footprint. rewrite Ea, Ed. solve_Permutation. }
  assert (∀ hd' nx', lseg nx' hd' (q_addrs q') NULL →
    queue_rep (QHeap mm2 nx' data cell)
      (CDT hd' p (cyclicIter c) (dataSize c) (u64 (elemCount c + 1))) q') as Hbuild.
  { intros hd' nx' Hl. constructor; simpl; try done.
    - intros n [Hn| ->%list_elem_of_singleton]%elem_of_app; simpl.
      + unfold data. rewrite lookup_insert_ne; [auto|].
        intros Heq. apply Hna. rewrite Heq. by apply list_elem_of_fmap_2.
      + apply lookup_insert_eq.
    - intros n [Hn| ->%list_elem_of_singleton]%elem_of_app; simpl.
      + unfold cell. rewrite lookup_insert_ne; [auto|].
        intros Heq. apply Hdd. rewrite Heq. by apply list_elem_of_fmap_2.
      + apply lookup_insert_eq.
    - rewrite Ef. apply NoDup_cons. split; [set_solver|].
      apply NoDup_cons. by split.
    - rewrite Ef. set_solver.
    - by rewrite Ea, last_snoc.
    - rewrite qr_iter0, Ea. unfold queue_wf in *. destruct (q_iter q) as [i|]; [|done]. simpl.
      rewrite lookup_app_l; [done|]. unfold q_addrs. by rewrite length_fmap.
    - unfold queue_wf in *. simpl. destruct (q_iter q); [|done]. rewrite length_app. lia.
    - rewrite qr_count0. unfold queueSize in *. simpl. rewrite length_app. simpl.
      rewrite wrapu_small by lia. lia.
    - unfold queueSize in *. simpl. rewrite length_app. simpl. lia. }
  case_decide as Hh.
  - eexists _, _. split; [done|]. split; [done|]. split.
    + apply Hbuild. rewrite Ea. apply Hhd in Hh. unfold q_addrs. rewrite Hh. simpl.
      split; [done|]. exists NULL. split; [|done]. apply lookup_insert_eq.
    + intros a ???. simpl. unfold next, data, cell. by rewrite !lookup_insert_ne.
  - assert (∃ l t, q_addrs q = l ++ [t] ∧ tail c = t) as (l & t & El & Et).
    { destruct (q_addrs q) as [|t l _] using rev_ind.
      - exfalso. apply Hh. by apply lseg_head in qr_chain0.
      - exists l, t. by rewrite qr_tail0, last_snoc. }
    rewrite El in *. assert (t ≠ p) as Htn by set_solver.
    apply lseg_snoc in qr_chain0 as [Hl Ht].
    rewrite Et.
    assert (next !! t = Some NULL) as -> by (unfold next; by rewrite lookup_insert_ne).
    simpl.
    eexists _, _. split; [done|]. split; [done|]. split.
    + apply Hbuild. rewrite Ea. apply lseg_snoc. split.
      * apply lseg_snoc. split; [|apply lookup_insert_eq].
        unfold footprint in qr_nodup0. rewrite El in qr_nodup0.
        apply NoDup_app in qr_nodup0 as [Hnd' _].
        apply NoDup_app in Hnd' as (_ & Hdis & _).
        apply lseg_frame; [intros Hin; apply (Hdis _ Hin); set_solver|].
        apply lseg_frame; [set_solver|done].
      * unfold next. rewrite lookup_insert_ne by done. apply lookup_insert_eq.
    + intros a ?? Haf. simpl. assert (a ≠ t).
      { intros ->. apply Haf. unfold footprint. rewrite El. set_solver. }
      unfold next, data, cell. by rewrite !lookup_insert_ne.
Qed.

(** C25: the pointer code of [enqueue] appends the value at the tail exactly
    when both allocations succeed, leaves the queue as it was when one
    fails, makes the same allocator calls as the abstract operation, and
    changes no node of any other live queue. *)
Theorem enqueue_sim h c q B v :
  mm_inv (h_mm h) B → owned B q → queue_rep h c q →
  0 < q_dataSize q < mm_max_request → queueSize q + 1 < 2 ^ 64 →
  ∃ b c' h', c_enqueue h c v = Some (b, c', h') ∧
    h_mm h' = (enqueue (h_mm h) q v).2 ∧ others_kept B q h h' ∧
    match (enqueue (h_mm h) q v).1 with
    | None => b = false ∧ queue_rep h' c' q
    | Some q' => b = true ∧ queue_rep h' c' q'
    end.
Proof.
  intros Hinv Hown Hr Hsz Hb. unfold c_enqueue, enqueue. rewrite (qr_size _ _ _ Hr).
  assert (∀ mm', others_kept B q h (QHeap mm' (h_next h) (h_data h) (h_cell h)) ∧
    queue_rep (QHeap mm' (h_next h) (h_data h) (h_cell h)) c q) as Hsame.
  { intros mm'. split; [by apply others_kept_by|by apply (queue_rep_ext h)]. }
  destruct (mm_alloc (h_mm h) NODE_SIZE) as [p mm1] eqn:E1.
  case_decide as Hn; [destruct (Hsame mm1); by eexists _, _, _|].
  destruct (mm_alloc mm1 (q_dataSize q)) as [d mm2] eqn:E2.
  case_decide as Hd; [destruct (Hsame (mm_free mm2 p)); by eexists _, _, _|].
  destruct (alloc_node _ _ _ _ _ _ _ Hinv Hown Hsz E1 Hn E2 Hd) as (Hn' & Hd' & ? & ? & ?).
  destruct (rep_snoc h c q p d v mm2) as (c' & h' & Hc & Hmm & Hr' & Hk); [done..|].
  rewrite (qr_size _ _ _ Hr) in Hc.
  exists true, c', h'. rewrite Hc. simpl. split; [done|]. split; [done|].
  split; [|done]. apply others_kept_by. intros a [m Ha] ?.
  apply Hk; [congruence..|done].
Qed.
(** Unlinking the node between [pre] and [post]. *)
Lemma iter_unlink pre n post it (f : node → Z) :
  NoDup (f <$> pre ++ n :: post) → NULL ∉ f <$> pre ++ n :: post →
  (∀ i, it = Some i → (i < length (pre ++ n :: post))%nat) →
  let cur := default NULL (i ← it; (f <$> pre ++ n :: post) !! i) in
  default NULL (i ← iter_remove it (length pre) (length (pre ++ n :: post));
                (f <$> pre ++ post) !! i) =
  if decide (cur ≠ NULL ∧ cur = f n) then hd NULL (f <$> post) else cur.
Proof.
  intros Hnd Hnn Hwf cur. destruct it as [i|]; [|done].
  specialize (Hwf i eq_refl). unfold cur, iter_remove; simpl.
  rewrite length_app in *. simpl in *. rewrite !fmap_app, fmap_cons in *.
  destruct (decide (i = length pre)) as [->|Hne].
  - rewrite lookup_app_r by (by rewrite length_fmap). rewrite length_fmap, Nat.sub_diag. simpl.
    rewrite (decide_True (P:=f n ≠ NULL ∧ f n = f n)) by (split; [set_solver|done]).
    destruct post as [|m post]; simpl.
    + by rewrite decide_False by lia.
    + rewrite decide_True by lia. simpl. rewrite lookup_app_r by (by rewrite length_fmap).
      by rewrite length_fmap, Nat.sub_diag.
  - assert (((f <$> pre) ++ f n :: (f <$> post)) !! i ≠ Some (f n)) as Hni.
    { intros Hi. apply Hne. eapply NoDup_lookup; [done..|].
      rewrite lookup_app_r by (by rewrite length_fmap). by rewrite length_fmap, Nat.sub_diag. }
    destruct (lookup_lt_is_Some_2 ((f <$> pre) ++ f n :: (f <$> post)) i) as [x Hx].
    { rewrite length_app. simpl. rewrite !length_fmap. lia. }
    rewrite Hx in *. simpl.
    rewrite (decide_False (P:=x ≠ NULL ∧ x = f n)) by naive_solver.
    case_decide; simpl.
    + rewrite lookup_app_r in * by (rewrite length_fmap; lia). rewrite length_fmap in *.
      destruct (i - length pre)%nat as [|k] eqn:E; [lia|]. simpl in Hx.
      replace (pred i - length pre)%nat with k by lia. by rewrite Hx.
    + rewrite lookup_app_l in * by (rewrite length_fmap; lia). by rewrite Hx.
Qed.

Lemma unlink_wf q pre n post :
  queue_wf q → q_nodes q = pre ++ n :: post →
  queue_wf (Queue (pre ++ post)
    (iter_remove (q_iter q) (length pre) (length (q_nodes q))) (q_dataSize q)).
Proof.
  unfold queue_wf. intros Hwf E. rewrite E in *. simpl.
  destruct (q_iter q) as [i|]; [|done]. rewrite length_app in *. simpl in *.
  unfold iter_remove. repeat case_decide; rewrite ?length_app; try done; lia.
Qed.

Lemma rep_unlink h c q pre n post nx' hd' :
  queue_rep h c q → q_nodes q = pre ++ n :: post →
  lseg nx' hd' (n_self <$> pre ++ post) NULL →
  let nxt := hd NULL (n_self <$> post) in
  queue_rep
    (c_free_node (QHeap (h_mm h) nx' (h_data h) (h_cell h)) (n_self n) (n_data n))
    (CDT hd' (default NULL (last (n_self <$> pre ++ post)))
       (if decide (cyclicIter c ≠ NULL ∧ cyclicIter c = n_self n) then nxt else cyclicIter c)
       (dataSize c) (u64 (elemCount c - 1)))
    (Queue (pre ++ post) (iter_remove (q_iter q) (length pre) (length (q_nodes q)))
       (q_dataSize q)).
Proof.
  intros Hr E Hl nxt. pose proof Hr as Hr'. destruct Hr'.
  assert (footprint q ≡ₚ n_self n :: n_data n :: footprint
    (Queue (pre ++ post) (iter_remove (q_iter q) (length pre) (length (q_nodes q)))
       (q_dataSize q))) as Ef.
  { unfold footprint, q_addrs, q_datas. rewrite E. simpl. rewrite !fmap_app, !fmap_cons.
    solve_Permutation. }
  rewrite Ef in qr_nodup0, qr_nonnull0.
  apply NoDup_cons in qr_nodup0 as [Hn1 [Hn2 Hnd]%NoDup_cons].
  assert (∀ m, m ∈ pre ++ post → n_self m ≠ n_self n ∧ n_data m ≠ n_data n) as Hne.
  { intros m Hm. split; intros Heq; [apply Hn1|apply Hn2]; rewrite <-Heq.
    - apply elem_of_cons. right. apply elem_of_app. left. by apply list_elem_of_fmap_2.
    - apply elem_of_app. right. by apply list_elem_of_fmap_2. }
  assert (∀ m, m ∈ pre ++ post → m ∈ q_nodes q) as Hsub.
  { intros m. rewrite E, !elem_of_app, elem_of_cons. tauto. }
  constructor; simpl; try done.
  - apply lseg_frame_delete; [|done]. unfold footprint in Hn1. set_solver.
  - intros m Hm. rewrite lookup_delete_ne; [by eauto|]. by destruct (Hne m Hm).
  - intros m Hm. rewrite lookup_delete_ne; [by eauto|]. by destruct (Hne m Hm).
  - set_solver.
  - unfold q_addrs. simpl. rewrite E, iter_unlink.
    + rewrite qr_iter0. unfold q_addrs. by rewrite E.
    + rewrite <-E. apply (qr_nodup _ _ _) in Hr. by apply NoDup_app in Hr as [? _].
    + rewrite <-E. apply (qr_nonnull _ _ _) in Hr. unfold footprint, q_addrs in Hr. set_solver.
    + intros i Hi. unfold queue_wf in qr_wf0. by rewrite Hi, E in qr_wf0.
  - by apply (unlink_wf q pre n post).
  - rewrite qr_count0. unfold queueSize in *. simpl. rewrite E, !length_app in *. simpl in *.
    rewrite wrapu_small by lia. lia.
  - unfold queueSize in *. simpl. rewrite E, !length_app in *. simpl in *. lia.
Qed.

Lemma rep_node h c q pre n post :
  queue_rep h c q → q_nodes q = pre ++ n :: post →
  lseg (h_next h) (head c) (n_self <$> pre) (n_self n) ∧
  h_next h !! n_self n = Some (hd NULL (n_self <$> post)) ∧
  lseg (h_next h) (hd NULL (n_self <$> post)) (n_self <$> post) NULL ∧
  h_data h !! n_self n = Some (n_data n) ∧ h_cell h !! n_data n = Some (n_val n) ∧
  n_self n ≠ NULL.
Proof.
  intros Hr E. pose proof (qr_chain _ _ _ Hr) as Hc. unfold q_addrs in Hc.
  rewrite E, fmap_app, fmap_cons in Hc.
  apply lseg_middle in Hc as (Hpre & nx & Hnx & Hpost).
  assert (nx = hd NULL (n_self <$> post)) as ->.
  { apply lseg_head in Hpost as ->. by destruct post. }
  assert (n ∈ q_nodes q) as Hin by (rewrite E; set_solver).
  split_and!; try done; [by apply (qr_data _ _ _ Hr)|by apply (qr_cell _ _ _ Hr)|].
  intros Hn. apply (qr_nonnull _ _ _ Hr). rewrite <-Hn. unfold footprint, q_addrs.
  apply elem_of_app. left. by apply list_elem_of_fmap_2.
Qed.
Lemma unlink_others B h q pre n post mm nx' :
  q_nodes q = pre ++ n :: post →
  (∀ a, a ∉ footprint q → nx' !! a = h_next h !! a) →
  others_kept B q h
    (c_free_node (QHeap mm nx' (h_data h) (h_cell h)) (n_self n) (n_data n)).
Proof.
  intros E Hnx. apply others_kept_by. intros a _ Ha. simpl.
  assert (n_self n ∈ footprint q ∧ n_data n ∈ footprint q) as [H1 H2].
  { unfold footprint, q_addrs, q_datas. rewrite E, !fmap_app, !fmap_cons. set_solver. }
  rewrite !lookup_delete_ne by (by intros <-). by rewrite Hnx.
Qed.

(** The pointer code of [dequeue] removes and returns the head, repairs
    head, tail, iterator and count, releases the two blocks of the node, and
    changes no other queue; on an empty queue it returns [NULL]. *)
Theorem dequeue_sim h c q B :
  queue_rep h c q →
  ∃ r c' h', c_dequeue h c = Some (r, c', h') ∧
    h_mm h' = (dequeue (h_mm h) q).2 ∧ others_kept B q h h' ∧
    match (dequeue (h_mm h) q).1 with
    | None => r = None ∧ queue_rep h' c' q
    | Some (v, q') => r = Some v ∧ queue_rep h' c' q'
    end.
Proof.
  intros Hr. unfold c_dequeue, dequeue. pose proof (queue_rep_head_null _ _ _ Hr) as Hh.
  destruct (q_nodes q) as [|n post] eqn:E.
  - rewrite decide_True by tauto. eexists _, _, _. split; [done|].
    split; [done|]. split; [|done]. by apply others_kept_by.
  - rewrite decide_False by naive_solver.
    destruct (rep_node h c q [] n post Hr E) as (Hhd & Hnx & Hl & Hd & Hv & Hn0).
    simpl in Hhd. rewrite Hhd, Hnx. cbn [mbind option_bind]. rewrite Hd.
    cbn [mbind option_bind]. rewrite Hv. cbn [mbind option_bind].
    eexists _, _, _. split; [done|]. split; [done|]. split.
    { destruct h as [hm hn hd hc]. by apply (unlink_others B (QHeap hm hn hd hc) q [] n post). }
    split; [done|].
    pose proof (rep_unlink h c q [] n post _ _ Hr E Hl) as HR.
    simpl in HR. destruct h as [hm hn hd hc]. simpl in *.
    pose proof (qr_tail _ _ _ Hr) as Ht. pose proof (qr_wf _ _ _ Hr) as Hwf.
    unfold q_addrs in Ht. unfold queue_wf in Hwf. rewrite E in *. simpl in *.
    destruct post as [|m post]; simpl in *.
    + replace (if decide (cyclicIter c ≠ 0 ∧ cyclicIter c = n_self n) then 0
        else cyclicIter c) with 0 in HR.
      2: { pose proof (qr_iter _ _ _ Hr) as Hi. unfold q_addrs in Hi. rewrite E in Hi.
           destruct (q_iter q) as [[|i]|]; simpl in *; [|lia|].
           - by rewrite Hi, decide_True.
           - by rewrite decide_False by (rewrite Hi; naive_solver). }
      destruct (q_iter q) as [[|i]|]; simpl in *; [done|lia|done].
    + rewrite (decide_False (P:=n_self m = 0)).
      2: { intros Hm. apply (qr_nonnull _ _ _ Hr). rewrite <-Hm. unfold footprint, q_addrs.
           rewrite E. simpl. set_solver. }
      rewrite (decide_False (P:=n_self m = 0)).
      2: { intros Hm. apply (qr_nonnull _ _ _ Hr). rewrite <-Hm. unfold footprint, q_addrs.
           rewrite E. simpl. set_solver. }
      rewrite Ht.
      by destruct (q_iter q) as [[|i]|].
Qed.

Lemma remove_loop_sim h c q B eqv post : ∀ fuel pre prev current,
  queue_rep h c q → q_nodes q = pre ++ post → (length post < fuel)%nat →
  (∀ n, n ∈ post → is_Some (eqv (n_val n))) →
  prev = default NULL (last (n_self <$> pre)) →
  current = hd NULL (n_self <$> post) →
  ∃ b c' h', c_remove_loop fuel h c eqv prev current = Some (b, c', h') ∧
    others_kept B q h h' ∧
    match remove_loop eqv pre post with
    | Some None => b = false ∧ h' = h ∧ c' = c
    | Some (Some (l1, n, l2)) => b = true ∧
        h_mm h' = mm_free (mm_free (h_mm h) (n_data n)) (n_self n) ∧
        queue_rep h' c' (Queue (l1 ++ l2)
          (iter_remove (q_iter q) (length l1) (length (q_nodes q))) (q_dataSize q))
    | None => False
    end.
Proof.
  induction post as [|n post IH]; intros [|fuel] pre prev current Hr E Hf Hdef Hp Hc;
    simpl in Hf; try lia.
  - simpl in Hc |- *. rewrite decide_True by done. eexists _, _, _. split; [done|].
    split; [by apply others_kept_by|done].
  - destruct (rep_node h c q pre n post Hr E) as (Hpre & Hnx & Hl & Hd & Hv & Hn0).
    simpl in Hc. cbn [c_remove_loop remove_loop].
    rewrite decide_False by (by rewrite Hc). rewrite Hc, Hd. cbn [mbind option_bind].
    rewrite Hv. cbn [mbind option_bind].
    destruct (Hdef n) as [b Hb]; [set_solver|]. rewrite Hb. cbn [mbind option_bind].
    rewrite Hnx. cbn [mbind option_bind]. destruct b.
    2: { apply IH; [done| |lia|set_solver| |done].
         - by rewrite <-app_assoc.
         - by rewrite fmap_app, last_app. }
    pose proof (qr_nodup _ _ _ Hr) as Hnd. pose proof (qr_tail _ _ _ Hr) as Ht.
    unfold footprint, q_addrs in Hnd, Ht. rewrite E, fmap_app, fmap_cons in Hnd, Ht.
    apply NoDup_app in Hnd as [Hnd _].
    assert (default NULL (last (n_self <$> pre ++ post)) =
      if decide (n_self n = tail c) then prev else tail c) as Htl.
    { rewrite Ht, Hp, last_app, fmap_app, last_app, last_cons.
      destruct (last (n_self <$> post)) as [t|] eqn:El; simpl.
      - rewrite decide_False; [done|]. intros Heq. apply NoDup_app in Hnd as (_ & _ & Hnd).
        apply NoDup_cons in Hnd as [Hnd _]. apply Hnd.
        apply last_Some in El as [? ->]. set_solver.
      - by rewrite decide_True. }
    destruct (decide (prev = NULL)) as [Hp0|Hp0].
    + assert (pre = []) as ->.
      { destruct pre as [|m pre _] using rev_ind; [done|]. exfalso.
        rewrite fmap_app, last_app in Hp. simpl in Hp. apply (qr_nonnull _ _ _ Hr).
        rewrite <-Hp0, Hp. unfold footprint, q_addrs. rewrite E. set_solver. }
      eexists _, _, _. split; [done|]. simpl. split.
      { by apply (unlink_others B h q [] n post). }
      split; [done|]. split; [done|]. rewrite <-Htl.
      by apply (rep_unlink h c q [] n post).
    + assert (∃ pre' m, pre = pre' ++ [m] ∧ prev = n_self m) as (pre' & m & -> & Hpm).
      { destruct pre as [|m pre' _] using rev_ind; [done|].
        exists pre', m. by rewrite Hp, fmap_app, last_app. }
      clear Hp. rewrite fmap_app, <-app_assoc in Hnd. simpl in Hnd.
      rewrite fmap_app in Hpre. simpl in Hpre.
      apply NoDup_app in Hnd as (_ & Hdis & [Hm _]%NoDup_cons).
      assert (n_self m ∉ n_self <$> pre') as Hmp by (intros Hin; apply (Hdis _ Hin); set_solver).
      eexists _, _, _. split; [done|]. simpl. split.
      { apply (unlink_others B h q (pre' ++ [m]) n post); [done|].
        intros a Ha. rewrite lookup_insert_ne; [done|]. intros <-. apply Ha.
        unfold footprint, q_addrs. rewrite E, Hpm. set_solver. }
      split; [done|]. split; [done|]. rewrite <-Htl.
      apply (rep_unlink h c q (pre' ++ [m]) n post); [done|done|].
      rewrite !fmap_app, <-app_assoc. simpl. apply lseg_middle. rewrite Hpm. split.
      * apply lseg_snoc in Hpre as [? _]. by apply lseg_frame.
      * eexists. rewrite lookup_insert_eq. split; [done|].
        apply lseg_frame; [set_solver|done].
Qed.

(** The pointer code of [queueRemove] terminates, unlinks the first node
    whose value compares equal (head, middle or tail), moves an iterator that
    was on it to the next node, and changes no other queue; it reports whether
    a node was found. *)
Theorem queueRemove_sim h c q B eqv :
  queue_rep h c q → (∀ v, v ∈ q_vals q → is_Some (eqv v)) →
  ∃ b c' h' q' mm', c_queueRemove h c eqv = Some (b, c', h') ∧
    queueRemove (h_mm h) q eqv = Some (b, q', mm') ∧
    h_mm h' = mm' ∧ queue_rep h' c' q' ∧ others_kept B q h h'.
Proof.
  intros Hr Hdef. unfold c_queueRemove, queueRemove.
  pose proof (queue_rep_head_null _ _ _ Hr) as Hh. case_decide as Hd.
  - rewrite (proj1 Hh Hd). simpl. eexists _, _, _, _, _. split_and!; try done.
    by apply others_kept_by.
  - pose proof (qr_chain _ _ _ Hr) as Hl.
    destruct (remove_loop_sim h c q B eqv (q_nodes q) (S (size (h_next h))) [] NULL (head c))
      as (b & c' & h' & -> & Hk & Hm); try done.
    + assert (length (q_nodes q) ≤ size (h_next h))%nat; [|lia].
      rewrite <-(length_fmap n_self). eapply lseg_length; [|done].
      pose proof (qr_nodup _ _ _ Hr) as Hnd. by apply NoDup_app in Hnd as [? _].
    + intros n Hn. apply Hdef. by apply list_elem_of_fmap_2.
    + apply lseg_head in Hl as ->. by unfold q_addrs.
    + destruct (remove_loop eqv [] (q_nodes q)) as [[[[l1 n] l2]|]|]; [| |done].
      * destruct Hm as (-> & Hmm & ?). simpl. by eexists _, _, _, _, _.
      * destruct Hm as (-> & -> & ->). simpl. by eexists _, _, _, _, _.
Qed.

Lemma queueNext_sim h c q :
  queue_rep h c q →
  ∃ r c' q', c_queueNextCyclicIter h c = Some (r, c') ∧
    queueNextCyclicIter q = Some (r, q') ∧ queue_rep h c' q'.
Proof.
  intros Hr. unfold c_queueNextCyclicIter, queueNextCyclicIter.
  pose proof (qr_iter _ _ _ Hr) as Hi. pose proof (qr_wf _ _ _ Hr) as Hwf.
  unfold queue_wf in Hwf. destruct (q_iter q) as [i|] eqn:Ei; simpl in Hi.
  2: { rewrite decide_True by done. by eexists _, _, _. }
  destruct (lookup_lt_is_Some_2 (q_nodes q) i Hwf) as [n Hn]. rewrite Hn.
  unfold q_addrs in Hi. rewrite list_lookup_fmap, Hn in Hi. simpl in Hi.
  pose proof (list_elem_of_split_length _ _ _ Hn) as (pre & post & E & Hlen).
  destruct (rep_node h c q pre n post Hr E) as (_ & Hnx & _ & Hd & Hv & Hn0).
  rewrite decide_False by (by rewrite Hi). rewrite Hi, Hd. cbn [mbind option_bind].
  rewrite Hv. cbn [mbind option_bind]. rewrite Hnx. cbn [mbind option_bind].
  eexists _, _, _. split; [done|]. split; [done|].
  destruct Hr. constructor; simpl; try done.
  - assert (length (q_nodes q) = S (length pre + length post))%nat as Hlen'.
    { rewrite E, length_app. simpl. lia. }
    destruct post as [|m post]; simpl in *.
    + rewrite (decide_False (P:=(S i < length (q_nodes q))%nat)) by lia.
      apply lseg_head in qr_chain0 as ->. unfold q_addrs. by destruct (q_nodes q).
    + rewrite (decide_False (P:=n_self m = NULL)).
      * rewrite (decide_True (P:=(S i < length (q_nodes q))%nat)) by lia.
        unfold q_addrs. simpl. rewrite E, fmap_app.
        rewrite lookup_app_r by (rewrite length_fmap; lia). rewrite length_fmap.
        by replace (S i - length pre)%nat with 1%nat by lia.
      * intros Hm. apply qr_nonnull0. rewrite <-Hm. unfold footprint, q_addrs.
        rewrite E, fmap_app. set_solver.
  - unfold queue_wf. simpl. case_decide; lia.
Qed.

(** The remaining queries. *)
Lemma queue_queries_sim h c q :
  queue_rep h c q →
  c_queueIsEmpty c = queueIsEmpty q ∧
  c_queueCyclicIterLooped c = queueCyclicIterLooped q ∧
  c_queuePeek h c = Some (queuePeek q) ∧
  queue_rep h (c_queueBeginCyclicIter c) (queueBeginCyclicIter q).
Proof.
  intros Hr. pose proof (queue_rep_head_null _ _ _ Hr) as Hh.
  pose proof (qr_iter _ _ _ Hr) as Hi. pose proof (qr_wf _ _ _ Hr) as Hwf.
  pose proof (qr_chain _ _ _ Hr) as Hl. pose proof (qr_nonnull _ _ _ Hr) as Hnn.
  split; [|split; [|split]].
  - unfold c_queueIsEmpty, queueIsEmpty. by rewrite (qr_count _ _ _ Hr).
  - unfold c_queueCyclicIterLooped, queueCyclicIterLooped, queue_wf in *.
    unfold q_addrs in *. destruct (q_iter q) as [i|]; simpl in *.
    2: { by rewrite decide_True. }
    destruct (lookup_lt_is_Some_2 (q_nodes q) i Hwf) as [n Hn].
    rewrite list_lookup_fmap, Hn in Hi. simpl in Hi.
    destruct (list_elem_of_split_length _ _ _ Hn) as (pre & post & E & Hlen).
    destruct (rep_node h c q pre n post Hr E) as (_ & _ & _ & _ & _ & Hn0).
    rewrite decide_False by (by rewrite Hi). apply bool_decide_ext. rewrite Hi.
    pose proof (qr_nodup _ _ _ Hr) as Hnd. unfold footprint, q_addrs in Hnd.
    rewrite E, fmap_app, fmap_cons in *. apply NoDup_app in Hnd as [Hnd _].
    destruct pre as [|m pre]; simpl in *; destruct Hl as [-> _].
    + subst. naive_solver.
    + subst. split; [|done]. intros Heq. exfalso. apply NoDup_cons in Hnd as [Hnd _].
      apply Hnd. rewrite Heq. set_solver.
  - unfold c_queuePeek, queuePeek. destruct (q_nodes q) as [|n post] eqn:E.
    + by rewrite decide_True by tauto.
    + rewrite decide_False by naive_solver.
      destruct (rep_node h c q [] n post Hr E) as (Hhd & _ & _ & Hd & Hv & _).
      simpl in Hhd. rewrite Hhd, Hd. simpl. by rewrite Hv.
  - unfold c_queueBeginCyclicIter, queueBeginCyclicIter. case_decide as Hd.
    + by rewrite decide_True by tauto.
    + rewrite decide_False by tauto. destruct Hr. constructor; simpl; try done.
      * apply lseg_head in qr_chain0 as ->. unfold q_addrs. by destruct (q_nodes q).
      * unfold queue_wf. simpl. destruct (q_nodes q); simpl; [tauto|lia].
Qed.

Lemma free_loop_sim l : ∀ fuel h current,
  lseg (h_next h) current (n_self <$> l) NULL → NULL ∉ n_self <$> l →
  NoDup (n_self <$> l) → (length l < fuel)%nat →
  (∀ n, n ∈ l → h_data h !! n_self n = Some (n_data n)) →
  ∃ h', c_free_loop fuel h current = Some h' ∧ h_mm h' = free_nodes (h_mm h) l.
Proof.
  induction l as [|n l IH]; intros [|fuel] h current Hl Hnn Hnd Hf Hd; simpl in Hf; try lia;
    cbn [c_free_loop].
  - simpl in Hl. rewrite decide_True by done. by eexists.
  - rewrite fmap_cons in *. simpl in Hl. destruct Hl as (-> & nx & Hnx & Hl).
    apply NoDup_cons in Hnd as [Hn Hnd].
    rewrite decide_False by set_solver. rewrite Hnx. cbn [mbind option_bind].
    rewrite (Hd n) by set_solver. cbn [mbind option_bind].
    destruct (IH fuel (c_free_node h (n_self n) (n_data n)) nx) as (h' & -> & Hmm).
    + by apply lseg_frame_delete.
    + set_solver.
    + done.
    + lia.
    + intros m Hm. simpl. rewrite lookup_delete_ne; [apply Hd; set_solver|].
      intros Heq. apply Hn. rewrite Heq. by apply list_elem_of_fmap_2.
    + exists h'. by split.
Qed.

Lemma queueFree_sim h c q :
  queue_rep h c q →
  ∃ h', c_queueFree h c = Some h' ∧ h_mm h' = free_nodes (h_mm h) (q_nodes q).
Proof.
  intros Hr. pose proof (qr_nodup _ _ _ Hr) as [Hnd _]%NoDup_app.
  pose proof (qr_chain _ _ _ Hr) as Hl. pose proof (qr_nonnull _ _ _ Hr) as Hnn.
  apply free_loop_sim; try done.
  - unfold footprint, q_addrs in Hnn. set_solver.
  - pose proof (lseg_length _ _ _ _ Hnd Hl) as Hlen. unfold q_addrs in Hlen.
    rewrite length_fmap in Hlen. lia.
  - apply (qr_data _ _ _ Hr).
Qed.
End simulation.

(** ** Concrete queues for the witnesses *)

Definition demo_heap : qheap ff_state :=
  QHeap ff_demo (list_to_map [(100, 120); (120, 0)]) (list_to_map [(100, 200); (120, 220)])
    (list_to_map [(200, 7); (220, 9)]).
Definition demo_cdt : QueueCDT := CDT 100 120 100 8 2.
Definition demo_queue : queue := Queue [Node 100 200 7; Node 120 220 9] (Some O) 8.

Lemma demo_rep : queue_rep demo_heap demo_cdt demo_queue.
Proof.
  assert (∀ P : node → Prop, P (Node 100 200 7) → P (Node 120 220 9) →
    ∀ n, n ∈ q_nodes demo_queue → P n) as Hall.
  { intros P H1 H2 n. simpl. rewrite !elem_of_cons, elem_of_nil. naive_solver. }
  constructor; try done.
  - simpl. split; [done|]. exists 120. split; [done|]. split; [done|]. by exists 0.
  - by apply Hall.
  - by apply Hall.
  - by apply (bool_decide_unpack _); vm_compute.
  - by apply (bool_decide_unpack _); vm_compute.
  - unfold queue_wf. simpl. lia.
Qed.

Lemma enqueue_sim_witness :
  mm_inv ff_demo ∅ ∧
  ∃ b c' h', c_enqueue (QHeap ff_demo ∅ ∅ ∅) (CDT 0 0 0 8 0) 5 = Some (b, c', h') ∧
    h_mm h' = (enqueue ff_demo (Queue [] None 8) 5).2 ∧
    others_kept ∅ (Queue [] None 8) (QHeap ff_demo ∅ ∅ ∅) h' ∧
    match (enqueue ff_demo (Queue [] None 8) 5).1 with
    | None => b = false ∧ queue_rep h' c' (Queue [] None 8)
    | Some q' => b = true ∧ queue_rep h' c' q'
    end.
Proof.
  assert (mm_inv ff_demo ∅) as Hinv by (apply ff_boot_inv; lia).
  split; [exact Hinv|].
  apply (enqueue_sim (QHeap ff_demo ∅ ∅ ∅) (CDT 0 0 0 8 0) (Queue [] None 8) ∅ 5);
    [exact Hinv| | |done|done].
  - intros a Ha. simpl in Ha. by apply elem_of_nil in Ha.
  - constructor; try done; try (by intros ? ?%elem_of_nil).
    + apply NoDup_nil_2.
    + by intros ?%elem_of_nil.
Defined.

Lemma dequeue_sim_witness :
  ∃ r c' h', c_dequeue demo_heap demo_cdt = Some (r, c', h') ∧
    h_mm h' = (dequeue ff_demo demo_queue).2 ∧ others_kept ∅ demo_queue demo_heap h' ∧
    match (dequeue ff_demo demo_queue).1 with
    | None => r = None ∧ queue_rep h' c' demo_queue
    | Some (v, q') => r = Some v ∧ queue_rep h' c' q'
    end.
Proof. exact (dequeue_sim demo_heap demo_cdt demo_queue ∅ demo_rep). Defined.

Lemma queueRemove_sim_witness :
  ∃ b c' h' q' mm',
    c_queueRemove demo_heap demo_cdt (λ v, Some (bool_decide (v = 9))) = Some (b, c', h') ∧
    queueRemove ff_demo demo_queue (λ v, Some (bool_decide (v = 9))) = Some (b, q', mm') ∧
    h_mm h' = mm' ∧ queue_rep h' c' q' ∧ others_kept ∅ demo_queue demo_heap h'.
Proof.
  refine (queueRemove_sim demo_heap demo_cdt demo_queue ∅ _ demo_rep _).
  intros v _. by eexists.
Defined.
End Concrete.
