(* ===== verification/Strings.v ===== *)
(** * C strings ([strings.c])

    Memory is a finite map from addresses to bytes; reading an address
    outside it is [None].  [cstr m p l] says that the NUL-terminated string
    at [p] has the characters [l].  The functions of [strings.c] are given as
    loops over memory and shown to compute the list functions the rest of
    the kernel model uses ([strcmp_chars], [num_chars], append). *)

From Stdlib Require Ascii String.
From S2P Require Import Prelude MemoryManager FirstFit.

Abbreviation mem := (gmap Z Z).

Section code.
Context {St : Type} `{MemoryManager St}.
Implicit Types (m : mem) (fuel : nat).

Fixpoint strlen_loop fuel m (str i : Z) : option Z :=
  match fuel with
  | O => None
  | S fuel =>
      c ← m !! (str + i);
      if decide (c = 0) then Some i else strlen_loop fuel m str (i + 1)
  end.
Definition strlen m (str : Z) : option Z := strlen_loop (S (size m)) m str 0.

(** [while (src[i] != 0) dest[i] = src[i], i++; dest[i] = 0] *)
Fixpoint strcpy_loop fuel m (dest src i : Z) : option mem :=
  match fuel with
  | O => None
  | S fuel =>
      c ← m !! (src + i);
      if decide (c = 0) then Some (<[dest + i := 0]> m)
      else strcpy_loop fuel (<[dest + i := c]> m) dest src (i + 1)
  end.
Definition my_strcpy m (dest src : Z) : option mem :=
  strcpy_loop (S (size m)) m dest src 0.

Definition catenate m (dest src : Z) : option mem :=
  if decide (dest = NULL ∨ src = NULL) then Some m
  else i ← strlen m dest; strcpy_loop (S (size m)) m (dest + i) src 0.

Fixpoint strcmp_loop fuel m (str1 str2 : Z) : option Z :=
  match fuel with
  | O => None
  | S fuel =>
      a ← m !! str1; b ← m !! str2;
      if decide (a ≠ 0 ∧ a = b) then strcmp_loop fuel m (str1 + 1) (str2 + 1)
      else Some (a - b)
  end.
Definition my_strcmp m (str1 str2 : Z) : option Z :=
  if decide (str1 = NULL ∨ str2 = NULL) then
    Some (if decide (str1 = str2) then 0 else if decide (str1 = NULL) then -1 else 1)
  else strcmp_loop (S (size m)) m str1 str2.

(** [while (aux > 0) aux /= 10, len++] *)
Fixpoint count_loop fuel (aux len : Z) : Z :=
  match fuel with
  | O => len
  | S fuel => if decide (0 < aux) then count_loop fuel (aux / 10) (len + 1) else len
  end.

(** [ans[len-i-2] = '0' + num % 10], from the last digit. *)
Fixpoint digits_loop fuel m (ans len num i : Z) : mem :=
  match fuel with
  | O => m
  | S fuel =>
      if decide (0 < num) then
        digits_loop fuel (<[ans + (len - i - 2) := 48 + num mod 10]> m) ans len (num / 10) (i + 1)
      else m
  end.

(** A 64-bit number has at most 20 digits; each loop runs once per digit. *)
Definition num_fuel : nat := 64.

(** [None] is the write through [NULL] when the second allocation fails,
    which the code does not check. *)
Definition num_to_str (mm : St) m (num : Z) : option (Z * mem * St) :=
  if decide (num = 0) then
    let '(edge, mm1) := mm_alloc mm 2 in
    if decide (edge = NULL) then Some (NULL, m, mm1)
    else Some (edge, <[edge + 1 := 0]> (<[edge := 48]> m), mm1)
  else
    let len := count_loop num_fuel num 0 + 1 in
    let '(ans, mm1) := mm_alloc mm len in
    if decide (ans = NULL) then None
    else Some (ans, <[ans + (len - 1) := 0]> (digits_loop num_fuel m ans len num 0), mm1).
End code.

(** ** Strings as lists of characters *)

Definition chars (s : string) : list Z :=
  (λ a, Z.of_nat (Ascii.nat_of_ascii a)) <$> String.list_ascii_of_string s.

(** The value [my_strcmp] computes. *)
Fixpoint strcmp_chars (l1 l2 : list Z) : Z :=
  match l1, l2 with
  | [], [] => 0
  | a :: _, [] => a
  | [], b :: _ => - b
  | a :: l1, b :: l2 => if decide (a = b) then strcmp_chars l1 l2 else a - b
  end.

Fixpoint digits (fuel : nat) (num : Z) : list Z :=
  match fuel with
  | O => []
  | S fuel => if decide (0 < num) then digits fuel (num / 10) ++ [48 + num mod 10] else []
  end.

(** The decimal notation [num_to_str] produces. *)
Definition num_chars (num : Z) : list Z :=
  if decide (num = 0) then [48] else digits num_fuel num.

Definition chars_val (l : list Z) : Z := foldl (λ v c, v * 10 + (c - 48)) 0 l.

(** [l] is stored from [p] on. *)
Fixpoint stored (m : mem) (p : Z) (l : list Z) : Prop :=
  match l with [] => True | c :: l => m !! p = Some c ∧ stored m (p + 1) l end.

Definition cstr (m : mem) (p : Z) (l : list Z) : Prop :=
  stored m p (l ++ [0]) ∧ Forall (λ c, c ≠ 0) l.

Section facts.
Implicit Types (m : mem) (l : list Z).

Lemma stored_app m l1 l2 : ∀ p,
  stored m p (l1 ++ l2) ↔ stored m p l1 ∧ stored m (p + Z.of_nat (length l1)) l2.
Proof.
  induction l1 as [|c l1 IH]; intros p; simpl.
  - replace (p + Z.of_nat 0) with p by lia. tauto.
  - rewrite IH. replace (p + 1 + Z.of_nat (length l1)) with (p + Z.of_nat (S (length l1))) by lia.
    tauto.
Qed.

Lemma stored_ext m m' l : ∀ p,
  (∀ a, p ≤ a < p + Z.of_nat (length l) → m' !! a = m !! a) →
  stored m p l → stored m' p l.
Proof.
  induction l as [|c l IH]; intros p Hag; simpl; [done|]. simpl in Hag. intros [Hc Hl].
  split; [by rewrite Hag by lia|]. apply IH; [|done]. intros a ?. apply Hag. lia.
Qed.

Lemma stored_size m l p : stored m p l → (length l ≤ size m)%nat.
Proof.
  intros Hl. rewrite <-size_dom.
  assert (∀ q, stored m q l → list_to_set ((λ i, q + Z.of_nat i) <$> seq 0 (length l)) ⊆ dom m)
    as Hsub.
  { clear. induction l as [|c l IH]; intros q; simpl; [set_solver|]. intros [Hc Hl].
    apply union_subseteq. split.
    - apply elem_of_subseteq. intros x ->%elem_of_singleton. apply elem_of_dom.
      replace (q + Z.of_nat 0) with q by lia. eauto.
    - specialize (IH _ Hl). rewrite <-(fmap_S_seq 0), <-list_fmap_compose.
      replace ((λ i, q + Z.of_nat i) ∘ S <$> seq 0 (length l))
        with ((λ i, q + 1 + Z.of_nat i) <$> seq 0 (length l)); [done|].
      apply list_fmap_ext. intros i x _. simpl. lia. }
  specialize (Hsub p Hl). apply subseteq_size in Hsub.
  rewrite size_list_to_set, length_fmap, length_seq in Hsub; [done|].
  apply NoDup_fmap_2; [|apply NoDup_seq]. intros ???. lia.
Qed.

Lemma cstr_fuel m p l : cstr m p l → (length l < S (size m))%nat.
Proof. intros [Hs _]. apply stored_size in Hs. rewrite length_app in Hs. simpl in Hs. lia. Qed.

Lemma cstr_cons m p c l : cstr m p (c :: l) ↔ m !! p = Some c ∧ c ≠ 0 ∧ cstr m (p + 1) l.
Proof. unfold cstr. rewrite Forall_cons. simpl. tauto. Qed.

Lemma cstr_nil m p : cstr m p [] ↔ m !! p = Some 0.
Proof. unfold cstr. simpl. naive_solver. Qed.

Lemma strlen_loop_spec m l : ∀ fuel str i,
  cstr m (str + i) l → (length l < fuel)%nat →
  strlen_loop fuel m str i = Some (i + Z.of_nat (length l)).
Proof.
  induction l as [|c l IH]; intros [|fuel] str i Hl Hf; simpl in Hf; try lia; simpl.
  - apply cstr_nil in Hl as ->. simpl. f_equal. lia.
  - apply cstr_cons in Hl as (-> & Hc & Hl). simpl. rewrite decide_False by done.
    rewrite IH; [f_equal; lia| |lia]. by replace (str + (i + 1)) with (str + i + 1) by lia.
Qed.

Lemma strcpy_loop_spec l : ∀ fuel m dest src i,
  cstr m (src + i) l → (length l < fuel)%nat →
  (dest + i + Z.of_nat (length l) < src + i ∨ src + i + Z.of_nat (length l) < dest + i) →
  ∃ m', strcpy_loop fuel m dest src i = Some m' ∧ cstr m' (dest + i) l ∧
    (∀ a, a < dest + i ∨ dest + i + Z.of_nat (length l) < a → m' !! a = m !! a).
Proof.
  induction l as [|c l IH]; intros [|fuel] m dest src i Hl Hf Hd; simpl in Hf; try lia;
    cbn [strcpy_loop]; simpl in Hd |- *.
  - apply cstr_nil in Hl as ->. simpl. eexists. split; [done|]. split.
    + apply cstr_nil, lookup_insert_eq.
    + intros a ?. apply lookup_insert_ne. lia.
  - apply cstr_cons in Hl as (-> & Hc & Hl). cbn [mbind option_bind].
    rewrite decide_False by done.
    destruct (IH fuel (<[dest + i := c]> m) dest src (i + 1)) as (m' & -> & Hm' & Hk).
    + replace (src + (i + 1)) with (src + i + 1) by lia. destruct Hl as [Hs Hz].
      split; [|done]. eapply stored_ext; [|done]. intros a Ha.
      rewrite length_app in Ha. simpl in Ha. apply lookup_insert_ne. lia.
    + lia.
    + lia.
    + eexists. split; [done|]. split.
      * apply cstr_cons. rewrite Hk by lia. rewrite lookup_insert_eq.
        split; [done|]. split; [done|]. by replace (dest + i + 1) with (dest + (i + 1)) by lia.
      * intros a ?. rewrite Hk by lia. apply lookup_insert_ne. lia.
Qed.

Lemma strcmp_loop_spec m l1 : ∀ l2 fuel p q,
  cstr m p l1 → cstr m q l2 → (length l1 < fuel)%nat →
  strcmp_loop fuel m p q = Some (strcmp_chars l1 l2).
Proof.
  induction l1 as [|a l1 IH]; intros l2 [|fuel] p q H1 H2 Hf; simpl in Hf; try lia;
    cbn [strcmp_loop].
  - apply cstr_nil in H1 as ->. cbn [mbind option_bind]. destruct l2 as [|b l2].
    + apply cstr_nil in H2 as ->. done.
    + apply cstr_cons in H2 as (-> & ? & _). cbn [mbind option_bind strcmp_chars].
      rewrite decide_False by naive_solver. f_equal.
  - apply cstr_cons in H1 as (-> & Ha & H1). cbn [mbind option_bind]. destruct l2 as [|b l2].
    + apply cstr_nil in H2 as ->. cbn [mbind option_bind strcmp_chars]. rewrite decide_False by naive_solver. f_equal. lia.
    + apply cstr_cons in H2 as (-> & Hb & H2). cbn [mbind option_bind strcmp_chars].
      destruct (decide (a = b)) as [->|]; [|rewrite decide_False by naive_solver; done].
      rewrite decide_True by done. apply IH; [done..|lia].
Qed.

Lemma strcmp_chars_eq l1 : ∀ l2,
  Forall (λ c, c ≠ 0) l1 → Forall (λ c, c ≠ 0) l2 → strcmp_chars l1 l2 = 0 ↔ l1 = l2.
Proof.
  induction l1 as [|a l1 IH]; intros [|b l2] H1 H2; simpl; try done.
  - apply Forall_cons in H2 as [? _]. split; [lia|done].
  - apply Forall_cons in H1 as [? _]. split; [lia|done].
  - apply Forall_cons in H1 as [? H1], H2 as [? H2]. case_decide as Hab.
    + rewrite IH by done. naive_solver.
    + split; [lia|]. naive_solver.
Qed.

Lemma chars_val_snoc l c : chars_val (l ++ [c]) = chars_val l * 10 + (c - 48).
Proof. unfold chars_val. by rewrite foldl_snoc. Qed.

Lemma digits_val fuel : ∀ num,
  0 ≤ num < 10 ^ Z.of_nat fuel → chars_val (digits fuel num) = num.
Proof.
  induction fuel as [|fuel IH]; intros num Hn; simpl.
  - simpl in Hn. unfold chars_val. simpl. lia.
  - case_decide; [|unfold chars_val; simpl; lia].
    rewrite chars_val_snoc, IH.
    + pose proof (Z.div_mod num 10). lia.
    + rewrite Nat2Z.inj_succ, Z.pow_succ_r in Hn by lia. split.
      * apply Z.div_pos; lia.
      * apply Z.div_lt_upper_bound; lia.
Qed.

Lemma digits_range fuel : ∀ num, Forall (λ c, 48 ≤ c ≤ 57) (digits fuel num).
Proof.
  induction fuel as [|fuel IH]; intros num; simpl; [constructor|]. case_decide; [|constructor].
  apply Forall_app. split; [apply IH|]. apply Forall_singleton.
  pose proof (Z.mod_pos_bound num 10). lia.
Qed.

Lemma num_chars_val num : 0 ≤ num < 2 ^ 64 → chars_val (num_chars num) = num.
Proof.
  intros Hn. unfold num_chars. case_decide as E; [by subst|].
  apply digits_val. split; [lia|]. eapply Z.lt_trans; [apply Hn|]. done.
Qed.

Lemma num_chars_inj n1 n2 :
  0 ≤ n1 < 2 ^ 64 → 0 ≤ n2 < 2 ^ 64 → num_chars n1 = num_chars n2 → n1 = n2.
Proof.
  intros H1 H2 E. rewrite <-(num_chars_val n1), <-(num_chars_val n2) by done. by rewrite E.
Qed.

Lemma num_chars_digit num : Forall (λ c, 48 ≤ c ≤ 57) (num_chars num).
Proof.
  unfold num_chars. case_decide; [|apply digits_range].
  apply Forall_singleton. lia.
Qed.

Lemma count_loop_digits fuel : ∀ aux len,
  count_loop fuel aux len = len + Z.of_nat (length (digits fuel aux)).
Proof.
  induction fuel as [|fuel IH]; intros aux len; simpl; [lia|].
  case_decide; simpl; [|lia]. rewrite IH, length_app. simpl. lia.
Qed.

Lemma digits_loop_spec ans fuel : ∀ m len num i l,
  len - i - 1 = Z.of_nat (length (digits fuel num)) →
  stored m (ans + (len - i - 1)) l →
  let m' := digits_loop fuel m ans len num i in
  stored m' ans (digits fuel num ++ l) ∧
  (∀ a, a < ans ∨ ans + (len - i - 1) ≤ a → m' !! a = m !! a).
Proof.
  induction fuel as [|fuel IH]; intros m len num i l Hlen Hl; simpl in *.
  - replace (ans + (len - i - 1)) with ans in Hl by lia. done.
  - case_decide; simpl in *.
    2: { replace (ans + (len - i - 1)) with ans in Hl by lia. done. }
    rewrite length_app in Hlen. simpl in Hlen.
    destruct (IH (<[ans + (len - i - 2):=48 + num mod 10]> m) len (num / 10) (i + 1)
      (48 + num mod 10 :: l)) as [Hst Hk].
    + lia.
    + simpl. replace (ans + (len - (i + 1) - 1)) with (ans + (len - i - 2)) by lia.
      rewrite lookup_insert_eq. split; [done|].
      replace (ans + (len - i - 2) + 1) with (ans + (len - i - 1)) by lia.
      eapply stored_ext; [|done]. intros a ?. apply lookup_insert_ne. lia.
    + split; [by rewrite <-app_assoc|]. intros a ?. rewrite Hk by lia.
      apply lookup_insert_ne. lia.
Qed.
End facts.

(** ** Properties *)

(** [my_strcmp] on two C strings terminates, and returns 0 exactly when
    they have the same characters; its value is the difference of the first
    characters that differ. *)
Theorem my_strcmp_correct m p q l1 l2 (Hp : p ≠ NULL) (Hq : q ≠ NULL)
    (H1 : cstr m p l1) (H2 : cstr m q l2) :
  my_strcmp m p q = Some (strcmp_chars l1 l2) ∧ (strcmp_chars l1 l2 = 0 ↔ l1 = l2).
Proof.
  split.
  - unfold my_strcmp. rewrite decide_False by tauto.
    apply strcmp_loop_spec; [done..|]. by eapply cstr_fuel.
  - apply strcmp_chars_eq; [apply H1|apply H2].
Qed.

(** [catenate(dest, src)] on two strings whose buffers do not overlap
    terminates, leaves their concatenation at [dest] and changes no byte
    outside the destination buffer. *)
Theorem catenate_correct m dest src l1 l2 (Hd : dest ≠ NULL) (Hs : src ≠ NULL)
    (H1 : cstr m dest l1) (H2 : cstr m src l2)
    (Hsep : dest + Z.of_nat (length l1 + length l2) < src ∨
            src + Z.of_nat (length l2) < dest) :
  ∃ m', catenate m dest src = Some m' ∧ cstr m' dest (l1 ++ l2) ∧
    (∀ a, a < dest ∨ dest + Z.of_nat (length l1 + length l2) < a → m' !! a = m !! a).
Proof.
  unfold catenate. rewrite decide_False by tauto.
  assert (strlen m dest = Some (Z.of_nat (length l1))) as ->.
  { unfold strlen. rewrite (strlen_loop_spec m l1); [done| |by eapply cstr_fuel].
    by replace (dest + 0) with dest by lia. }
  cbn [mbind option_bind].
  destruct (strcpy_loop_spec l2 (S (size m)) m (dest + Z.of_nat (length l1)) src 0)
    as (m' & Hm' & Hc & Hk).
  - by replace (src + 0) with src by lia.
  - by eapply cstr_fuel.
  - lia.
  - exists m'. split; [done|].
    replace (dest + Z.of_nat (length l1) + 0) with (dest + Z.of_nat (length l1)) in Hc, Hk by lia.
    split; [|intros a ?; apply Hk; lia]. destruct H1 as [Hs1 Hz1], Hc as [Hs2 Hz2].
    split; [|by apply Forall_app]. rewrite <-app_assoc. apply stored_app. split; [|done].
    apply stored_app in Hs1 as [Hs1 _]. eapply stored_ext; [|done].
    intros a ?. apply Hk. lia.
Qed.

(** [num_to_str] writes the decimal notation of every 64-bit number into
    the block it allocates: read back as a decimal number it is the argument. *)
Theorem num_to_str_roundtrip {St} `{MemoryManager St} (mm : St) m num p m' mm'
    (Hnum : 0 ≤ num < 2 ^ 64) (Hrun : num_to_str mm m num = Some (p, m', mm')) (Hp : p ≠ NULL) :
  ∃ l, cstr m' p l ∧ chars_val l = num ∧ Forall (λ c, 48 ≤ c ≤ 57) l ∧ l = num_chars num.
Proof.
  exists (num_chars num). split; [|auto using num_chars_val, num_chars_digit].
  assert (Forall (λ c, c ≠ 0) (num_chars num)) as Hnz.
  { eapply Forall_impl; [apply num_chars_digit|]. simpl. lia. }
  split; [|done]. unfold num_to_str in Hrun. unfold num_chars.
  destruct (decide (num = 0)) as [E|E].
  - destruct (mm_alloc mm 2) as [edge mm1]. case_decide; simplify_eq. simpl.
    rewrite lookup_insert_ne, !lookup_insert_eq by lia. done.
  - destruct (mm_alloc mm _) as [ans mm1]. case_decide; simplify_eq.
    set (d := digits num_fuel num). set (len := count_loop num_fuel num 0 + 1).
    assert (len = Z.of_nat (length d) + 1) as Hlen.
    { unfold len. rewrite count_loop_digits. unfold d. lia. }
    apply stored_app. split.
    + destruct (digits_loop_spec p num_fuel m len num 0 []) as [Hst _]; [|done|].
      { fold d. lia. }
      fold d in Hst. rewrite app_nil_r in Hst. eapply stored_ext; [|done].
      intros a ?. apply lookup_insert_ne. lia.
    + cbn [stored]. split; [|done]. replace (p + Z.of_nat (length d)) with (p + (len - 1)) by lia.
      apply lookup_insert_eq.
Qed.

(** Two strings in memory: "ab" at 10 and "abc" at 20. *)
Definition demo_mem : mem :=
  list_to_map [(10, 97); (11, 98); (12, 0); (20, 97); (21, 98); (22, 99); (23, 0)].

Lemma my_strcmp_correct_witness :
  my_strcmp demo_mem 10 20 = Some (-99) ∧ (-99 = 0 ↔ [97; 98] = [97; 98; 99]).
Proof.
  apply (my_strcmp_correct demo_mem 10 20 [97; 98] [97; 98; 99]); [lia|lia|..];
    split; repeat constructor; lia.
Defined.

Lemma catenate_correct_witness :
  ∃ m', catenate demo_mem 10 20 = Some m' ∧ cstr m' 10 [97; 98; 97; 98; 99] ∧
    (∀ a, a < 10 ∨ 10 + 5 < a → m' !! a = demo_mem !! a).
Proof.
  apply (catenate_correct demo_mem 10 20 [97; 98] [97; 98; 99]); [lia|lia|..|simpl; lia];
    split; repeat constructor; lia.
Defined.

Lemma num_to_str_roundtrip_witness :
  ∃ p m' mm', num_to_str ff_demo ∅ 407 = Some (p, m', mm') ∧
    ∃ l, cstr m' p l ∧ chars_val l = 407 ∧ Forall (λ c, 48 ≤ c ≤ 57) l ∧ l = num_chars 407.
Proof.
  destruct (num_to_str ff_demo ∅ 407) as [[[p m'] mm']|] eqn:E; [|by vm_compute in E].
  exists p, m', mm'. split; [reflexivity|].
  apply (num_to_str_roundtrip ff_demo ∅ 407 p m' mm'); [lia|exact E|].
  intros ->. by vm_compute in E.
Defined.
