(* ===== verification/Arrays.v ===== *)
(** * The dynamic array ([datastructures/array.c])

    [ArrayCDT] with the element buffer as a map from indices to words (every
    array of the kernel holds pointers).  [elemCount], [dim] and [iter] are
    16-bit and wrap. *)

From S2P Require Import Prelude MemoryManager FirstFit.

Definition BLOCK_SIZE : Z := 1024.
Definition ARRAY_SIZE : Z := 24.

Record ArrayCDT := Array {
  a_base : Z;             (* base: address of the element buffer *)
  a_cells : gmap Z Z;     (* its contents, by index *)
  sizeOfElem : Z;
  elemCount : Z;
  dim : Z;
  a_iter : option Z;      (* iter; not initialised by [createArray] *)
}.

Section ops.
Context {St : Type} `{MemoryManager St}.
Implicit Types (mm : St) (A : ArrayCDT).

Definition createArray mm (size : Z) : option (Z * ArrayCDT) * St :=
  let '(p, mm1) := mm_alloc mm ARRAY_SIZE in
  if decide (p = NULL) then (None, mm1)
  else
    let '(b, mm2) := mm_alloc mm1 (u64 (BLOCK_SIZE * size)) in
    if decide (b = NULL) then (None, mm_free mm2 p)
    else (Some (p, Array b ∅ size 0 BLOCK_SIZE None), mm2).

(** The elements [memcpy] carries over when the buffer grows. *)
Definition copied A : gmap Z Z := filter (λ kv, kv.1 < dim A) (a_cells A).

Definition arrayAdd mm A (v : Z) : option ArrayCDT * St :=
  if decide (a_base A = NULL) then (None, mm)
  else if decide (elemCount A = dim A) then
    let '(nb, mm1) := mm_alloc mm (u64 ((dim A + BLOCK_SIZE) * sizeOfElem A)) in
    if decide (nb = NULL) then (None, mm1)
    else
      (Some (Array nb (<[elemCount A := v]> (copied A)) (sizeOfElem A)
         (u16 (elemCount A + 1)) (u16 (dim A + BLOCK_SIZE)) (a_iter A)),
       mm_free mm1 (a_base A))
  else
    (Some (Array (a_base A) (<[elemCount A := v]> (a_cells A)) (sizeOfElem A)
       (u16 (elemCount A + 1)) (dim A) (a_iter A)), mm).

(** An outer [None] reads an element that was never written; an inner one
    is the [NULL] of an index out of range. *)
Definition getElemByIndex A (index : Z) : option (option Z) :=
  let index := u16 index in
  if decide (a_base A = NULL ∨ elemCount A ≤ index) then Some None
  else v ← a_cells A !! index; Some (Some v).

Definition setElemByIndex A (index v : Z) : option ArrayCDT :=
  let index := u16 index in
  if decide (a_base A = NULL ∨ elemCount A ≤ index) then None
  else Some (Array (a_base A) (<[index := v]> (a_cells A)) (sizeOfElem A)
    (elemCount A) (dim A) (a_iter A)).

Definition arraySize A : Z := elemCount A.

(** [arrayFree], less the array structure. *)
Definition arrayFree mm A : St := mm_free mm (a_base A).

Definition arrayBeginIter A : ArrayCDT :=
  Array (a_base A) (a_cells A) (sizeOfElem A) (elemCount A) (dim A) (Some 0).

Definition arrayHasNext A : option bool :=
  i ← a_iter A; Some (bool_decide (i < elemCount A)).

Definition arrayGetNext A : option (option Z * ArrayCDT) :=
  b ← arrayHasNext A;
  if b : bool then
    i ← a_iter A;
    r ← getElemByIndex A i;
    match r with
    | None => Some (None, A)
    | Some v => Some (Some v, Array (a_base A) (a_cells A) (sizeOfElem A) (elemCount A)
        (dim A) (Some (u16 (i + 1))))
    end
  else Some (None, A).

Definition arrayResetSize A : ArrayCDT :=
  Array (a_base A) (a_cells A) (sizeOfElem A) 0 (dim A) (a_iter A).
End ops.

(** [A] holds the list [l]. *)
Record array_rep (A : ArrayCDT) (l : list Z) : Prop := {
  ar_base : a_base A ≠ NULL;
  ar_count : elemCount A = Z.of_nat (length l);
  ar_dim : elemCount A ≤ dim A < 2 ^ 16;
  ar_cells : ∀ i v, l !! i = Some v → a_cells A !! Z.of_nat i = Some v;
}.

Section facts.
Context {St : Type} `{MemoryManager St}.
Implicit Types (mm : St) (A : ArrayCDT).

Lemma array_get A l i v :
  array_rep A l → l !! i = Some v → getElemByIndex A (Z.of_nat i) = Some (Some v).
Proof.
  intros [Hb Hc Hd Hcells] Hi. unfold getElemByIndex.
  pose proof (lookup_lt_Some _ _ _ Hi). no_wrap.
  rewrite decide_False by lia. by rewrite (Hcells _ _ Hi).
Qed.

Lemma array_set A l i v :
  array_rep A l → (i < length l)%nat →
  ∃ A', setElemByIndex A (Z.of_nat i) v = Some A' ∧ array_rep A' (<[i := v]> l).
Proof.
  intros [Hb Hc Hd Hcells] Hi. unfold setElemByIndex.
  no_wrap. rewrite decide_False by lia. eexists. split; [done|].
  constructor; simpl; try done; rewrite ?length_insert; try done.
  intros j w Hj. destruct (decide (i = j)) as [->|Hne].
  - rewrite list_lookup_insert_eq in Hj by lia. simplify_eq. apply lookup_insert_eq.
  - rewrite list_lookup_insert_ne in Hj by done.
    rewrite lookup_insert_ne by lia. by apply Hcells.
Qed.

Lemma array_add mm A l v :
  array_rep A l → dim A + BLOCK_SIZE < 2 ^ 16 →
  match (arrayAdd mm A v).1 with
  | None => elemCount A = dim A ∧
      (mm_alloc mm (u64 ((dim A + BLOCK_SIZE) * sizeOfElem A))).1 = NULL
  | Some A' => array_rep A' (l ++ [v]) ∧ sizeOfElem A' = sizeOfElem A
  end.
Proof.
  intros [Hb Hc Hd Hcells] Hdim. unfold arrayAdd, BLOCK_SIZE in *.
  rewrite decide_False by done.
  assert (∀ cells b d, b ≠ NULL → elemCount A < d < 2 ^ 16 →
    (∀ i w, l !! i = Some w → cells !! Z.of_nat i = Some w) →
    array_rep (Array b (<[elemCount A := v]> cells) (sizeOfElem A)
      (u16 (elemCount A + 1)) d (a_iter A)) (l ++ [v])) as Hok.
  { intros cells b d Hb' Hd' Hcells'. no_wrap.
    constructor; simpl; rewrite ?length_app; simpl; try done; try lia.
    intros i w [Hi|[Hi Hw]]%lookup_app_Some.
    - pose proof (lookup_lt_Some _ _ _ Hi). rewrite lookup_insert_ne by lia. by apply Hcells'.
    - destruct (i - length l)%nat as [|n] eqn:E; [|done]. simpl in Hw. simplify_eq.
      replace (elemCount A) with (Z.of_nat i) by lia. apply lookup_insert_eq. }
  destruct (decide (elemCount A = dim A)).
  - destruct (mm_alloc mm _) as [nb mm1]. case_decide; [done|]. simpl. split; [|done].
    rewrite (wrapu_small 16 (dim A + 1024)) by lia. apply Hok; [done|lia|].
    intros i w Hi. apply map_lookup_filter_Some. split; [by apply Hcells|].
    apply lookup_lt_Some in Hi. simpl. lia.
  - simpl. split; [|done]. apply Hok; [done|lia|done].
Qed.
End facts.

(** ** Properties *)

(** Appending to an array grows its buffer when it is full, keeps every
    element already there and makes the new one readable at the old size; the
    only failure is a refused allocation. *)
Theorem arrayAdd_correct {St} `{MemoryManager St} (mm : St) A l v
    (HA : array_rep A l) (Hdim : dim A + BLOCK_SIZE < 2 ^ 16) :
  match (arrayAdd mm A v).1 with
  | None => elemCount A = dim A ∧
      (mm_alloc mm (u64 ((dim A + BLOCK_SIZE) * sizeOfElem A))).1 = NULL
  | Some A' => array_rep A' (l ++ [v]) ∧
      getElemByIndex A' (Z.of_nat (length l)) = Some (Some v) ∧
      ∀ i w, l !! i = Some w → getElemByIndex A' (Z.of_nat i) = Some (Some w)
  end.
Proof.
  pose proof (array_add mm A l v HA Hdim) as Hadd.
  destruct (arrayAdd mm A v).1 as [A'|]; [|done]. destruct Hadd as [Hr _].
  split; [done|]. split; [|intros i w Hi]; eapply array_get; try done.
  - by rewrite list_lookup_middle.
  - by apply lookup_app_l_Some.
Qed.

Lemma arrayAdd_correct_witness :
  array_rep (Array 4112 {[0 := 5]} 8 1 1024 None) [5] ∧
  match (arrayAdd ff_demo (Array 4112 {[0 := 5]} 8 1 1024 None) 7).1 with
  | None => 1 = 1024 ∧ (mm_alloc ff_demo (u64 ((1024 + BLOCK_SIZE) * 8))).1 = NULL
  | Some A' => array_rep A' [5; 7] ∧ getElemByIndex A' 1 = Some (Some 7) ∧
      ∀ i w, [5] !! i = Some w → getElemByIndex A' (Z.of_nat i) = Some (Some w)
  end.
Proof.
  assert (array_rep (Array 4112 {[0 := 5]} 8 1 1024 None) [5]) as Hr.
  { constructor; simpl; try lia. intros [|i] v; simpl; [|done]. by intros [= <-]. }
  split; [exact Hr|].
  apply (arrayAdd_correct ff_demo _ [5] 7 Hr). unfold BLOCK_SIZE. simpl. lia.
Defined.
