(* ===== verification/Monad.v ===== *)
(** * The kernel's execution monad

    A kernel call is a function from the kernel state to an outcome.  It can
    return, give up the CPU in the middle and wait for a state in which it is
    scheduled again ([Switch]), stop in [panic()], touch memory that is not a
    live object ([Undefined]) or never end ([Diverges]: a loop that runs out
    of fuel, a spin lock nobody will release). *)

From S2P Require Import Prelude.

Inductive res (S A : Type) : Type :=
  | Ret (a : A) (s : S)
  | Switch (s : S) (k : S → res S A)
  | Panic (msg : string) (s : S)
  | Undefined
  | Diverges.
Arguments Ret {_ _}. Arguments Switch {_ _}. Arguments Panic {_ _}.
Arguments Undefined {_ _}. Arguments Diverges {_ _}.

Definition K (S A : Type) : Type := S → res S A.

Fixpoint res_bind {S A B} (f : A → K S B) (r : res S A) : res S B :=
  match r with
  | Ret a s => f a s
  | Switch s k => Switch s (λ s', res_bind f (k s'))
  | Panic msg s => Panic msg s
  | Undefined => Undefined
  | Diverges => Diverges
  end.

#[export] Instance K_ret {S} : MRet (K S) := λ A a s, Ret a s.
#[export] Instance K_bind {S} : MBind (K S) := λ A B f m s, res_bind f (m s).

Section prims.
Context {S : Type}.

(** A primitive given by its effect on the state. *)
Definition kact {A} (f : S → res S A) : K S A := f.
Definition kget : K S S := λ s, Ret s s.
Definition kgets {A} (f : S → A) : K S A := λ s, Ret (f s) s.
Definition kmodify (f : S → S) : K S unit := λ s, Ret tt (f s).
Definition panic {A} (msg : string) : K S A := λ s, Panic msg s.
Definition undefined {A} : K S A := λ s, Undefined.
Definition diverge {A} : K S A := λ s, Diverges.

(** Reading through a pointer; a dangling or null pointer is undefined. *)
Definition deref {V} (store : S → gmap Z V) (p : Z) : K S V := λ s,
  match store s !! p with Some v => Ret v s | None => Undefined end.

(** The value of a computation that may be undefined. *)
Definition kopt {A} (o : option A) : K S A := λ s,
  match o with Some a => Ret a s | None => Undefined end.

Definition kwhen (b : bool) (m : K S unit) : K S unit :=
  if b then m else mret tt.

(** [for (i = from; n times; i += step) body] *)
Fixpoint kfor (n : nat) (from step : Z) (body : Z → K S unit) : K S unit :=
  match n with
  | O => mret tt
  | Datatypes.S n => _ ← body from; kfor n (from + step) step body
  end.
End prims.

(** ** Equality of computations

    Two outcomes are the same when they agree now and, if they give up the
    CPU, after every state they may be resumed in. *)
Inductive res_equiv {S A} : Equiv (res S A) :=
  | ret_equiv a s : Ret a s ≡ Ret a s
  | switch_equiv s k k' : (∀ s', k s' ≡ k' s') → Switch s k ≡ Switch s k'
  | panic_equiv msg s : Panic msg s ≡ Panic msg s
  | undefined_equiv : Undefined ≡ Undefined
  | diverges_equiv : Diverges ≡ Diverges.
#[export] Existing Instance res_equiv.

Section equiv.
Context {S : Type}.

#[export] Instance res_equivalence A : Equivalence (≡@{res S A}).
Proof.
  split.
  - intros r. induction r; by constructor.
  - intros r1 r2. induction 1; by constructor.
  - intros r1 r2 r3 H12. revert r3. induction H12 as [|s k k' Hk IH| | |];
      intros r3 H23; inversion H23; subst; constructor; eauto.
Qed.

(** Binding respects it, and is associative up to it. *)
#[export] Instance res_bind_proper A B :
  Proper (pointwise_relation A (pointwise_relation S (≡)) ==> (≡) ==> (≡)) (@res_bind S A B).
Proof. intros f g Hfg r1 r2. induction 1; simpl; [apply Hfg|by constructor..]. Qed.

Lemma res_bind_assoc {A B C} (f : A → K S B) (g : B → K S C) (r : res S A) :
  res_bind g (res_bind f r) ≡ res_bind (λ a s, res_bind g (f a s)) r.
Proof. induction r; simpl; [done|by constructor..]. Qed.

Lemma res_bind_ret_r {A} (r : res S A) : res_bind (λ a s, Ret a s) r ≡ r.
Proof. induction r; simpl; by constructor. Qed.
End equiv.

(** ** Reasoning

    [wp pan m Q s]: [m] run from [s] returns without giving up the CPU, in a
    state and with a result that satisfy [Q]; when [pan] is true it may also
    stop in [panic()]. *)
Section wp.
Context {S : Type}.
Implicit Types (pan : bool).

Definition wp {A} pan (m : K S A) (Q : A → S → Prop) (s : S) : Prop :=
  match m s with
  | Ret a s' => Q a s'
  | Panic _ _ => pan = true
  | _ => False
  end.

Lemma wp_ret {A} pan (a : A) Q s : Q a s → wp pan (mret a) Q s.
Proof. done. Qed.

Lemma wp_bind {A B} pan (m : K S A) (f : A → K S B) Q s :
  wp pan m (λ a, wp pan (f a) Q) s → wp pan (m ≫= f) Q s.
Proof. unfold wp, mbind, K_bind. by destruct (m s). Qed.

(** Two calls specified together. *)
Lemma wp_bind2 {A B C} pan (m : K S A) (f : A → K S B) (g : B → K S C) Q s :
  wp pan (m ≫= f) (λ b, wp pan (g b) Q) s → wp pan (m ≫= λ a, f a ≫= g) Q s.
Proof.
  unfold wp, mbind, K_bind. destruct (m s) as [a s'| | | |]; simpl; try done.
  by destruct (f a s').
Qed.

Lemma wp_mono {A} pan (m : K S A) (P Q : A → S → Prop) s :
  wp pan m P s → (∀ a s', P a s' → Q a s') → wp pan m Q s.
Proof. unfold wp. destruct (m s); auto. Qed.

Lemma wp_nopanic {A} pan (m : K S A) Q s : wp false m Q s → wp pan m Q s.
Proof. unfold wp. by destruct (m s). Qed.

Lemma wp_panic {A} msg (Q : A → S → Prop) s : wp true (panic msg) Q s.
Proof. done. Qed.

Lemma wp_gets {A} pan (f : S → A) Q s : Q (f s) s → wp pan (kgets f) Q s.
Proof. done. Qed.

Lemma wp_modify pan (f : S → S) Q s : Q tt (f s) → wp pan (kmodify f) Q s.
Proof. done. Qed.

Lemma wp_deref {V} pan (store : S → gmap Z V) p v Q s :
  store s !! p = Some v → Q v s → wp pan (deref store p) Q s.
Proof. intros E HQ. unfold wp, deref. by rewrite E. Qed.

Lemma wp_kopt {A} pan (o : option A) a Q s : o = Some a → Q a s → wp pan (kopt o) Q s.
Proof. by intros ->. Qed.

Lemma wp_inv {A} (m : K S A) Q s :
  wp false m Q s → ∃ a s', m s = Ret a s' ∧ Q a s'.
Proof. unfold wp. destruct (m s) as [a s'| | | |]; naive_solver. Qed.

Lemma wp_intro {A} pan (m : K S A) (Q : A → S → Prop) s a s' :
  m s = Ret a s' → Q a s' → wp pan m Q s.
Proof. unfold wp. by intros ->. Qed.

Lemma bind_ret {A B} (m : K S A) (f : A → K S B) s a s' :
  m s = Ret a s' → (m ≫= f) s = f a s'.
Proof. unfold mbind, K_bind. by intros ->. Qed.

Lemma bind_switch {A B} (m : K S A) (f : A → K S B) s s' k :
  m s = Switch s' k → (m ≫= f) s = Switch s' (λ s'', res_bind f (k s'')).
Proof. unfold mbind, K_bind. by intros ->. Qed.
End wp.

(** One step of symbolic execution; the lemmas of the components' own
    operations are applied by hand. *)
Ltac wp_step :=
  cbv beta iota;
  lazymatch goal with
  | |- wp _ (mbind _ _) _ _ => apply wp_bind
  | |- wp _ (mret _) _ _ => apply wp_ret
  | |- wp _ (kgets _) _ _ => apply wp_gets
  | |- wp _ (kmodify _) _ _ => apply wp_modify
  | |- wp _ (deref _ _) _ _ => eapply wp_deref; [first [eassumption | reflexivity]|]
  | |- wp _ (kopt _) _ _ => eapply wp_kopt; [first [eassumption | reflexivity]|]
  | |- wp true (panic _) _ _ => apply wp_panic
  end.
