(* ===== verification/KState.v ===== *)
(** * The kernel state

    The data structures of [process.h], [sem.h] and [pipe.c], the globals of
    the kernel's files, and the primitives every component uses: allocation,
    the interrupt flag, and the operations of [queue.c] and [array.c] applied
    through a pointer.  Live heap objects are kept by kind, as maps from
    their address; reading through an address with no live object is
    undefined.  The heap itself is any [MemoryManager]. *)

From S2P Require Import Prelude MemoryManager Queue Arrays Strings Monad.

(** ** Constants *)

Definition PROCESS_STACK_SIZE : Z := 8192.
Definition MAX_PROCESSES : Z := 64.
Definition MAX_CHILDREN : Z := 32.
Definition MIN_PRIORITY : Z := 0.
Definition MAX_PRIORITY : Z := 3.
Definition DEFAULT_PRIORITY : Z := 0.
Definition DEFAULT_QUANTUM : Z := 1.
Definition INIT_PID : Z := 1.
Definition FOREGROUND : Z := 1.
Definition BACKGROUND : Z := 0.
Definition AGING_THRESHOLD : Z := 50.
Definition AGING_BOOST : Z := 1.
Definition MAX_SEM_LENGTH : Z := 32.
Definition MAX_PIPES : Z := 100.
Definition PIPE_BUFFER_SIZE : Z := 16384.
Definition STDIN : Z := 0.
Definition STDOUT : Z := 1.
Definition STDERR : Z := 2.
Definition READ_FD : Z := 0.
Definition WRITE_FD : Z := 1.
Definition ERR_FD : Z := 2.

(** Sizes of the kernel structures, as the compiler lays them out. *)
Definition PROCESS_SIZE : Z := 216.
Definition SEM_SIZE : Z := 48.
Definition SEMQUEUE_SIZE : Z := 16.
Definition PIPE_SIZE : Z := 16440.

(** ** Data *)

Inductive ProcessState := READY | RUNNING | BLOCKED | TERMINATED.

#[export] Instance ProcessState_eq_dec : EqDecision ProcessState.
Proof. solve_decision. Defined.

Record Process := PCB {
  pid : Z;
  ppid : Z;
  state : ProcessState;
  argc : Z;
  argv : Z;
  rsp : Z;
  stackBase : Z;
  rip : Z;
  priority : Z;
  original_priority : Z;
  quantum_remaining : Z;
  wait_ticks : Z;
  ground : Z;
  rbp : Z;
  targetByFd : list Z;
  children : list Z;
  child_count : Z;
}.

Record sem := Sem {
  s_name : list Z;
  s_value : Z;
  s_lock : Z;
  s_users : Z;
  blockedProcesses : Z;
}.

Record semQueue := SemQueue { sq_lock : Z; sq_sems : Z }.

Record pipe := Pipe {
  p_id : Z;
  p_buffer : gmap Z Z;
  idxToRead : Z;
  idxToWrite : Z;
  waitingToRead : Z;
  waitingToWrite : Z;
  canRead : Z;
  canWrite : Z;
  attached : Z;
  readers : Z;
  writers : Z;
  exp_readers : Z;
  exp_writers : Z;
}.

(** What freshly allocated blocks hold before they are initialised. *)
Record garbage := Garbage { g_proc : Z → Process; g_pipe : Z → pipe }.

(** Memory that was never used holds zeros. *)
Definition zeroed : garbage := Garbage
  (λ _, PCB 0 0 READY 0 NULL 0 NULL 0 0 0 0 0 0 0 [0; 0; 0] (replicate 32 0) 0)
  (λ _, Pipe 0 ∅ 0 0 0 0 NULL NULL 0 0 0 0 0).

(** ** Field updates *)

Definition set_pid (v : Z) (p : Process) : Process := PCB
    v (ppid p) (state p) (argc p) (argv p) (rsp p) (stackBase p) (rip p) (priority p)
    (original_priority p) (quantum_remaining p) (wait_ticks p) (ground p) (rbp p)
    (targetByFd p) (children p) (child_count p).
Definition set_ppid (v : Z) (p : Process) : Process := PCB
    (pid p) v (state p) (argc p) (argv p) (rsp p) (stackBase p) (rip p) (priority p)
    (original_priority p) (quantum_remaining p) (wait_ticks p) (ground p) (rbp p)
    (targetByFd p) (children p) (child_count p).
Definition set_state (v : ProcessState) (p : Process) : Process := PCB
    (pid p) (ppid p) v (argc p) (argv p) (rsp p) (stackBase p) (rip p) (priority p)
    (original_priority p) (quantum_remaining p) (wait_ticks p) (ground p) (rbp p)
    (targetByFd p) (children p) (child_count p).
Definition set_argc (v : Z) (p : Process) : Process := PCB
    (pid p) (ppid p) (state p) v (argv p) (rsp p) (stackBase p) (rip p) (priority p)
    (original_priority p) (quantum_remaining p) (wait_ticks p) (ground p) (rbp p)
    (targetByFd p) (children p) (child_count p).
Definition set_argv (v : Z) (p : Process) : Process := PCB
    (pid p) (ppid p) (state p) (argc p) v (rsp p) (stackBase p) (rip p) (priority p)
    (original_priority p) (quantum_remaining p) (wait_ticks p) (ground p) (rbp p)
    (targetByFd p) (children p) (child_count p).
Definition set_rsp (v : Z) (p : Process) : Process := PCB
    (pid p) (ppid p) (state p) (argc p) (argv p) v (stackBase p) (rip p) (priority p)
    (original_priority p) (quantum_remaining p) (wait_ticks p) (ground p) (rbp p)
    (targetByFd p) (children p) (child_count p).
Definition set_stackBase (v : Z) (p : Process) : Process := PCB
    (pid p) (ppid p) (state p) (argc p) (argv p) (rsp p) v (rip p) (priority p)
    (original_priority p) (quantum_remaining p) (wait_ticks p) (ground p) (rbp p)
    (targetByFd p) (children p) (child_count p).
Definition set_rip (v : Z) (p : Process) : Process := PCB
    (pid p) (ppid p) (state p) (argc p) (argv p) (rsp p) (stackBase p) v (priority p)
    (original_priority p) (quantum_remaining p) (wait_ticks p) (ground p) (rbp p)
    (targetByFd p) (children p) (child_count p).
Definition set_priority (v : Z) (p : Process) : Process := PCB
    (pid p) (ppid p) (state p) (argc p) (argv p) (rsp p) (stackBase p) (rip p) v
    (original_priority p) (quantum_remaining p) (wait_ticks p) (ground p) (rbp p)
    (targetByFd p) (children p) (child_count p).
Definition set_original_priority (v : Z) (p : Process) : Process := PCB
    (pid p) (ppid p) (state p) (argc p) (argv p) (rsp p) (stackBase p) (rip p) (priority
    p) v (quantum_remaining p) (wait_ticks p) (ground p) (rbp p) (targetByFd p)
    (children p) (child_count p).
Definition set_quantum_remaining (v : Z) (p : Process) : Process := PCB
    (pid p) (ppid p) (state p) (argc p) (argv p) (rsp p) (stackBase p) (rip p) (priority
    p) (original_priority p) v (wait_ticks p) (ground p) (rbp p) (targetByFd p)
    (children p) (child_count p).
Definition set_wait_ticks (v : Z) (p : Process) : Process := PCB
    (pid p) (ppid p) (state p) (argc p) (argv p) (rsp p) (stackBase p) (rip p) (priority
    p) (original_priority p) (quantum_remaining p) v (ground p) (rbp p) (targetByFd p)
    (children p) (child_count p).
Definition set_ground (v : Z) (p : Process) : Process := PCB
    (pid p) (ppid p) (state p) (argc p) (argv p) (rsp p) (stackBase p) (rip p) (priority
    p) (original_priority p) (quantum_remaining p) (wait_ticks p) v (rbp p) (targetByFd
    p) (children p) (child_count p).
Definition set_rbp (v : Z) (p : Process) : Process := PCB
    (pid p) (ppid p) (state p) (argc p) (argv p) (rsp p) (stackBase p) (rip p) (priority
    p) (original_priority p) (quantum_remaining p) (wait_ticks p) (ground p) v
    (targetByFd p) (children p) (child_count p).
Definition set_targetByFd (v : list Z) (p : Process) : Process := PCB
    (pid p) (ppid p) (state p) (argc p) (argv p) (rsp p) (stackBase p) (rip p) (priority
    p) (original_priority p) (quantum_remaining p) (wait_ticks p) (ground p) (rbp p) v
    (children p) (child_count p).
Definition set_children (v : list Z) (p : Process) : Process := PCB
    (pid p) (ppid p) (state p) (argc p) (argv p) (rsp p) (stackBase p) (rip p) (priority
    p) (original_priority p) (quantum_remaining p) (wait_ticks p) (ground p) (rbp p)
    (targetByFd p) v (child_count p).
Definition set_child_count (v : Z) (p : Process) : Process := PCB
    (pid p) (ppid p) (state p) (argc p) (argv p) (rsp p) (stackBase p) (rip p) (priority
    p) (original_priority p) (quantum_remaining p) (wait_ticks p) (ground p) (rbp p)
    (targetByFd p) (children p) v.

Definition set_s_name (v : list Z) (x : sem) : sem := Sem
    v (s_value x) (s_lock x) (s_users x) (blockedProcesses x).
Definition set_s_value (v : Z) (x : sem) : sem := Sem
    (s_name x) v (s_lock x) (s_users x) (blockedProcesses x).
Definition set_s_lock (v : Z) (x : sem) : sem := Sem
    (s_name x) (s_value x) v (s_users x) (blockedProcesses x).
Definition set_s_users (v : Z) (x : sem) : sem := Sem
    (s_name x) (s_value x) (s_lock x) v (blockedProcesses x).
Definition set_blockedProcesses (v : Z) (x : sem) : sem := Sem
    (s_name x) (s_value x) (s_lock x) (s_users x) v.

Definition set_sq_lock (v : Z) (x : semQueue) : semQueue := SemQueue
    v (sq_sems x).
Definition set_sq_sems (v : Z) (x : semQueue) : semQueue := SemQueue
    (sq_lock x) v.

Definition set_p_id (v : Z) (x : pipe) : pipe := Pipe
    v (p_buffer x) (idxToRead x) (idxToWrite x) (waitingToRead x) (waitingToWrite x)
    (canRead x) (canWrite x) (attached x) (readers x) (writers x) (exp_readers x)
    (exp_writers x).
Definition set_p_buffer (v : gmap Z Z) (x : pipe) : pipe := Pipe
    (p_id x) v (idxToRead x) (idxToWrite x) (waitingToRead x) (waitingToWrite x)
    (canRead x) (canWrite x) (attached x) (readers x) (writers x) (exp_readers x)
    (exp_writers x).
Definition set_idxToRead (v : Z) (x : pipe) : pipe := Pipe
    (p_id x) (p_buffer x) v (idxToWrite x) (waitingToRead x) (waitingToWrite x) (canRead
    x) (canWrite x) (attached x) (readers x) (writers x) (exp_readers x) (exp_writers x).
Definition set_idxToWrite (v : Z) (x : pipe) : pipe := Pipe
    (p_id x) (p_buffer x) (idxToRead x) v (waitingToRead x) (waitingToWrite x) (canRead
    x) (canWrite x) (attached x) (readers x) (writers x) (exp_readers x) (exp_writers x).
Definition set_waitingToRead (v : Z) (x : pipe) : pipe := Pipe
    (p_id x) (p_buffer x) (idxToRead x) (idxToWrite x) v (waitingToWrite x) (canRead x)
    (canWrite x) (attached x) (readers x) (writers x) (exp_readers x) (exp_writers x).
Definition set_waitingToWrite (v : Z) (x : pipe) : pipe := Pipe
    (p_id x) (p_buffer x) (idxToRead x) (idxToWrite x) (waitingToRead x) v (canRead x)
    (canWrite x) (attached x) (readers x) (writers x) (exp_readers x) (exp_writers x).
Definition set_canRead (v : Z) (x : pipe) : pipe := Pipe
    (p_id x) (p_buffer x) (idxToRead x) (idxToWrite x) (waitingToRead x) (waitingToWrite
    x) v (canWrite x) (attached x) (readers x) (writers x) (exp_readers x) (exp_writers
    x).
Definition set_canWrite (v : Z) (x : pipe) : pipe := Pipe
    (p_id x) (p_buffer x) (idxToRead x) (idxToWrite x) (waitingToRead x) (waitingToWrite
    x) (canRead x) v (attached x) (readers x) (writers x) (exp_readers x) (exp_writers
    x).
Definition set_attached (v : Z) (x : pipe) : pipe := Pipe
    (p_id x) (p_buffer x) (idxToRead x) (idxToWrite x) (waitingToRead x) (waitingToWrite
    x) (canRead x) (canWrite x) v (readers x) (writers x) (exp_readers x) (exp_writers
    x).
Definition set_readers (v : Z) (x : pipe) : pipe := Pipe
    (p_id x) (p_buffer x) (idxToRead x) (idxToWrite x) (waitingToRead x) (waitingToWrite
    x) (canRead x) (canWrite x) (attached x) v (writers x) (exp_readers x) (exp_writers
    x).
Definition set_writers (v : Z) (x : pipe) : pipe := Pipe
    (p_id x) (p_buffer x) (idxToRead x) (idxToWrite x) (waitingToRead x) (waitingToWrite
    x) (canRead x) (canWrite x) (attached x) (readers x) v (exp_readers x) (exp_writers
    x).
Definition set_exp_readers (v : Z) (x : pipe) : pipe := Pipe
    (p_id x) (p_buffer x) (idxToRead x) (idxToWrite x) (waitingToRead x) (waitingToWrite
    x) (canRead x) (canWrite x) (attached x) (readers x) (writers x) v (exp_writers x).
Definition set_exp_writers (v : Z) (x : pipe) : pipe := Pipe
    (p_id x) (p_buffer x) (idxToRead x) (idxToWrite x) (waitingToRead x) (waitingToWrite
    x) (canRead x) (canWrite x) (attached x) (readers x) (writers x) (exp_readers x) v.

(** ** The state *)

Record kst (St : Type) := KState {
  k_mm : St;   (* the allocator *)
  k_if : bool;   (* the interrupt flag *)
  k_rsp : Z;   (* the stack pointer the next interrupt saves *)
  k_procs : gmap Z Process;   (* live PCBs *)
  k_queues : gmap Z queue;   (* live queues *)
  k_arrays : gmap Z ArrayCDT;   (* live arrays *)
  k_sems : gmap Z sem;   (* live semaphores *)
  k_semqs : gmap Z semQueue;   (* the semaphore registry *)
  k_pipes : gmap Z pipe;   (* live pipes *)
  k_strs : gmap Z (list Z);   (* heap strings *)
  k_argvs : gmap Z (list Z);   (* argument vectors *)
  k_dirt : garbage;   (* what fresh blocks hold *)
  process_table : list Z;   (* process.c *)
  process_priority_table : Z;   (* scheduler.c *)
  running_process : Z;
  idle_proc : Z;
  shell_proc : Z;
  scheduler_online : bool;
  global_semaphore_registry : Z;   (* sem.c *)
  nextId : Z;   (* pipe.c *)
  pipeStorage : Z;
}.
Arguments KState {_}.
Arguments k_mm {_} _. Arguments k_if {_} _. Arguments k_rsp {_} _.
Arguments k_procs {_} _. Arguments k_queues {_} _. Arguments k_arrays {_} _.
Arguments k_sems {_} _.
Arguments k_semqs {_} _. Arguments k_pipes {_} _. Arguments k_strs {_} _.
Arguments k_argvs {_} _.
Arguments k_dirt {_} _. Arguments process_table {_} _.
Arguments process_priority_table {_} _. Arguments running_process {_} _.
Arguments idle_proc {_} _. Arguments shell_proc {_} _. Arguments scheduler_online {_} _.
Arguments global_semaphore_registry {_} _.
Arguments nextId {_} _. Arguments pipeStorage {_} _.

Section setters.
Context {St : Type}.
Implicit Type s : kst St.

Definition set_k_mm (v : St) s : kst St := KState
  v (k_if s) (k_rsp s) (k_procs s) (k_queues s) (k_arrays s) (k_sems s) (k_semqs s)
  (k_pipes s) (k_strs s) (k_argvs s) (k_dirt s) (process_table s)
  (process_priority_table s) (running_process s) (idle_proc s) (shell_proc s)
  (scheduler_online s) (global_semaphore_registry s) (nextId s) (pipeStorage s).
Definition set_k_if (v : bool) s : kst St := KState
  (k_mm s) v (k_rsp s) (k_procs s) (k_queues s) (k_arrays s) (k_sems s) (k_semqs s)
  (k_pipes s) (k_strs s) (k_argvs s) (k_dirt s) (process_table s)
  (process_priority_table s) (running_process s) (idle_proc s) (shell_proc s)
  (scheduler_online s) (global_semaphore_registry s) (nextId s) (pipeStorage s).
Definition set_k_rsp (v : Z) s : kst St := KState
  (k_mm s) (k_if s) v (k_procs s) (k_queues s) (k_arrays s) (k_sems s) (k_semqs s)
  (k_pipes s) (k_strs s) (k_argvs s) (k_dirt s) (process_table s)
  (process_priority_table s) (running_process s) (idle_proc s) (shell_proc s)
  (scheduler_online s) (global_semaphore_registry s) (nextId s) (pipeStorage s).
Definition set_k_procs (v : gmap Z Process) s : kst St := KState
  (k_mm s) (k_if s) (k_rsp s) v (k_queues s) (k_arrays s) (k_sems s) (k_semqs s)
  (k_pipes s) (k_strs s) (k_argvs s) (k_dirt s) (process_table s)
  (process_priority_table s) (running_process s) (idle_proc s) (shell_proc s)
  (scheduler_online s) (global_semaphore_registry s) (nextId s) (pipeStorage s).
Definition set_k_queues (v : gmap Z queue) s : kst St := KState
  (k_mm s) (k_if s) (k_rsp s) (k_procs s) v (k_arrays s) (k_sems s) (k_semqs s)
  (k_pipes s) (k_strs s) (k_argvs s) (k_dirt s) (process_table s)
  (process_priority_table s) (running_process s) (idle_proc s) (shell_proc s)
  (scheduler_online s) (global_semaphore_registry s) (nextId s) (pipeStorage s).
Definition set_k_arrays (v : gmap Z ArrayCDT) s : kst St := KState
  (k_mm s) (k_if s) (k_rsp s) (k_procs s) (k_queues s) v (k_sems s) (k_semqs s)
  (k_pipes s) (k_strs s) (k_argvs s) (k_dirt s) (process_table s)
  (process_priority_table s) (running_process s) (idle_proc s) (shell_proc s)
  (scheduler_online s) (global_semaphore_registry s) (nextId s) (pipeStorage s).
Definition set_k_sems (v : gmap Z sem) s : kst St := KState
  (k_mm s) (k_if s) (k_rsp s) (k_procs s) (k_queues s) (k_arrays s) v (k_semqs s)
  (k_pipes s) (k_strs s) (k_argvs s) (k_dirt s) (process_table s)
  (process_priority_table s) (running_process s) (idle_proc s) (shell_proc s)
  (scheduler_online s) (global_semaphore_registry s) (nextId s) (pipeStorage s).
Definition set_k_semqs (v : gmap Z semQueue) s : kst St := KState
  (k_mm s) (k_if s) (k_rsp s) (k_procs s) (k_queues s) (k_arrays s) (k_sems s) v
  (k_pipes s) (k_strs s) (k_argvs s) (k_dirt s) (process_table s)
  (process_priority_table s) (running_process s) (idle_proc s) (shell_proc s)
  (scheduler_online s) (global_semaphore_registry s) (nextId s) (pipeStorage s).
Definition set_k_pipes (v : gmap Z pipe) s : kst St := KState
  (k_mm s) (k_if s) (k_rsp s) (k_procs s) (k_queues s) (k_arrays s) (k_sems s)
  (k_semqs s) v (k_strs s) (k_argvs s) (k_dirt s) (process_table s)
  (process_priority_table s) (running_process s) (idle_proc s) (shell_proc s)
  (scheduler_online s) (global_semaphore_registry s) (nextId s) (pipeStorage s).
Definition set_k_strs (v : gmap Z (list Z)) s : kst St := KState
  (k_mm s) (k_if s) (k_rsp s) (k_procs s) (k_queues s) (k_arrays s) (k_sems s)
  (k_semqs s) (k_pipes s) v (k_argvs s) (k_dirt s) (process_table s)
  (process_priority_table s) (running_process s) (idle_proc s) (shell_proc s)
  (scheduler_online s) (global_semaphore_registry s) (nextId s) (pipeStorage s).
Definition set_k_argvs (v : gmap Z (list Z)) s : kst St := KState
  (k_mm s) (k_if s) (k_rsp s) (k_procs s) (k_queues s) (k_arrays s) (k_sems s)
  (k_semqs s) (k_pipes s) (k_strs s) v (k_dirt s) (process_table s)
  (process_priority_table s) (running_process s) (idle_proc s) (shell_proc s)
  (scheduler_online s) (global_semaphore_registry s) (nextId s) (pipeStorage s).
Definition set_k_dirt (v : garbage) s : kst St := KState
  (k_mm s) (k_if s) (k_rsp s) (k_procs s) (k_queues s) (k_arrays s) (k_sems s)
  (k_semqs s) (k_pipes s) (k_strs s) (k_argvs s) v (process_table s)
  (process_priority_table s) (running_process s) (idle_proc s) (shell_proc s)
  (scheduler_online s) (global_semaphore_registry s) (nextId s) (pipeStorage s).
Definition set_process_table (v : list Z) s : kst St := KState
  (k_mm s) (k_if s) (k_rsp s) (k_procs s) (k_queues s) (k_arrays s) (k_sems s)
  (k_semqs s) (k_pipes s) (k_strs s) (k_argvs s) (k_dirt s) v (process_priority_table
  s) (running_process s) (idle_proc s) (shell_proc s) (scheduler_online s)
  (global_semaphore_registry s) (nextId s) (pipeStorage s).
Definition set_process_priority_table (v : Z) s : kst St := KState
  (k_mm s) (k_if s) (k_rsp s) (k_procs s) (k_queues s) (k_arrays s) (k_sems s)
  (k_semqs s) (k_pipes s) (k_strs s) (k_argvs s) (k_dirt s) (process_table s) v
  (running_process s) (idle_proc s) (shell_proc s) (scheduler_online s)
  (global_semaphore_registry s) (nextId s) (pipeStorage s).
Definition set_running_process (v : Z) s : kst St := KState
  (k_mm s) (k_if s) (k_rsp s) (k_procs s) (k_queues s) (k_arrays s) (k_sems s)
  (k_semqs s) (k_pipes s) (k_strs s) (k_argvs s) (k_dirt s) (process_table s)
  (process_priority_table s) v (idle_proc s) (shell_proc s) (scheduler_online s)
  (global_semaphore_registry s) (nextId s) (pipeStorage s).
Definition set_idle_proc (v : Z) s : kst St := KState
  (k_mm s) (k_if s) (k_rsp s) (k_procs s) (k_queues s) (k_arrays s) (k_sems s)
  (k_semqs s) (k_pipes s) (k_strs s) (k_argvs s) (k_dirt s) (process_table s)
  (process_priority_table s) (running_process s) v (shell_proc s) (scheduler_online s)
  (global_semaphore_registry s) (nextId s) (pipeStorage s).
Definition set_shell_proc (v : Z) s : kst St := KState
  (k_mm s) (k_if s) (k_rsp s) (k_procs s) (k_queues s) (k_arrays s) (k_sems s)
  (k_semqs s) (k_pipes s) (k_strs s) (k_argvs s) (k_dirt s) (process_table s)
  (process_priority_table s) (running_process s) (idle_proc s) v (scheduler_online s)
  (global_semaphore_registry s) (nextId s) (pipeStorage s).
Definition set_scheduler_online (v : bool) s : kst St := KState
  (k_mm s) (k_if s) (k_rsp s) (k_procs s) (k_queues s) (k_arrays s) (k_sems s)
  (k_semqs s) (k_pipes s) (k_strs s) (k_argvs s) (k_dirt s) (process_table s)
  (process_priority_table s) (running_process s) (idle_proc s) (shell_proc s) v
  (global_semaphore_registry s) (nextId s) (pipeStorage s).
Definition set_global_semaphore_registry (v : Z) s : kst St := KState
  (k_mm s) (k_if s) (k_rsp s) (k_procs s) (k_queues s) (k_arrays s) (k_sems s)
  (k_semqs s) (k_pipes s) (k_strs s) (k_argvs s) (k_dirt s) (process_table s)
  (process_priority_table s) (running_process s) (idle_proc s) (shell_proc s)
  (scheduler_online s) v (nextId s) (pipeStorage s).
Definition set_nextId (v : Z) s : kst St := KState
  (k_mm s) (k_if s) (k_rsp s) (k_procs s) (k_queues s) (k_arrays s) (k_sems s)
  (k_semqs s) (k_pipes s) (k_strs s) (k_argvs s) (k_dirt s) (process_table s)
  (process_priority_table s) (running_process s) (idle_proc s) (shell_proc s)
  (scheduler_online s) (global_semaphore_registry s) v (pipeStorage s).
Definition set_pipeStorage (v : Z) s : kst St := KState
  (k_mm s) (k_if s) (k_rsp s) (k_procs s) (k_queues s) (k_arrays s) (k_sems s)
  (k_semqs s) (k_pipes s) (k_strs s) (k_argvs s) (k_dirt s) (process_table s)
  (process_priority_table s) (running_process s) (idle_proc s) (shell_proc s)
  (scheduler_online s) (global_semaphore_registry s) (nextId s) v.
End setters.

(** ** Primitives *)

Section prims.
Context {St : Type} `{MemoryManager St}.
Abbreviation K := (K (kst St)).

Definition _cli : K unit := kmodify (set_k_if false).
Definition _sti : K unit := kmodify (set_k_if true).

Definition kalloc (n : Z) : K Z := λ s,
  let '(p, mm) := mm_alloc (k_mm s) n in Ret p (set_k_mm mm s).
Definition kfree (p : Z) : K unit := kmodify (λ s, set_k_mm (mm_free (k_mm s) p) s).

(** Stores: write an object that is already live. *)
Definition put_proc (p : Z) (v : Process) : K unit :=
  kmodify (λ s, set_k_procs (<[p := v]> (k_procs s)) s).
Definition put_queue (q : Z) (v : queue) : K unit :=
  kmodify (λ s, set_k_queues (<[q := v]> (k_queues s)) s).
Definition put_array (a : Z) (v : ArrayCDT) : K unit :=
  kmodify (λ s, set_k_arrays (<[a := v]> (k_arrays s)) s).
Definition put_sem (a : Z) (v : sem) : K unit :=
  kmodify (λ s, set_k_sems (<[a := v]> (k_sems s)) s).
Definition put_semq (a : Z) (v : semQueue) : K unit :=
  kmodify (λ s, set_k_semqs (<[a := v]> (k_semqs s)) s).
Definition put_pipe (a : Z) (v : pipe) : K unit :=
  kmodify (λ s, set_k_pipes (<[a := v]> (k_pipes s)) s).
Definition put_str (a : Z) (v : list Z) : K unit :=
  kmodify (λ s, set_k_strs (<[a := v]> (k_strs s)) s).
Definition put_argv (a : Z) (v : list Z) : K unit :=
  kmodify (λ s, set_k_argvs (<[a := v]> (k_argvs s)) s).

(** [p->field = ...] *)
Definition upd_proc (p : Z) (f : Process → Process) : K unit :=
  P ← deref k_procs p; put_proc p (f P).
Definition upd_sem (a : Z) (f : sem → sem) : K unit :=
  x ← deref k_sems a; put_sem a (f x).
Definition upd_pipe (a : Z) (f : pipe → pipe) : K unit :=
  x ← deref k_pipes a; put_pipe a (f x).

(** [mm_free] of an object: it is no longer live. *)
Definition free_proc (p : Z) : K unit :=
  _ ← kfree p; kmodify (λ s, set_k_procs (delete p (k_procs s)) s).
Definition free_queue (q : Z) : K unit :=
  _ ← kfree q; kmodify (λ s, set_k_queues (delete q (k_queues s)) s).
Definition free_sem (a : Z) : K unit :=
  _ ← kfree a; kmodify (λ s, set_k_sems (delete a (k_sems s)) s).
Definition free_semq (a : Z) : K unit :=
  _ ← kfree a; kmodify (λ s, set_k_semqs (delete a (k_semqs s)) s).
Definition free_pipe (a : Z) : K unit :=
  _ ← kfree a; kmodify (λ s, set_k_pipes (delete a (k_pipes s)) s).
Definition free_str (a : Z) : K unit :=
  _ ← kfree a; kmodify (λ s, set_k_strs (delete a (k_strs s)) s).
Definition free_argv (a : Z) : K unit :=
  _ ← kfree a; kmodify (λ s, set_k_argvs (delete a (k_argvs s)) s).
Definition free_array (a : Z) : K unit :=
  _ ← kfree a; kmodify (λ s, set_k_arrays (delete a (k_arrays s)) s).

(** *** [queue.c] through a [QueueADT] *)

Definition q_create (elemSize : Z) : K Z := λ s,
  let '(r, mm) := createQueue (k_mm s) elemSize in
  match r with
  | None => Ret NULL (set_k_mm mm s)
  | Some (p, Q) => Ret p (set_k_queues (<[p := Q]> (k_queues s)) (set_k_mm mm s))
  end.

Definition q_enqueue (q v : Z) : K Z :=
  if decide (q = NULL) then mret NULL
  else
    Q ← deref k_queues q;
    kact (λ s, let '(r, mm) := enqueue (k_mm s) Q v in
      match r with
      | None => Ret NULL (set_k_mm mm s)
      | Some Q' => Ret q (set_k_queues (<[q := Q']> (k_queues s)) (set_k_mm mm s))
      end).

(** The value copied to the buffer; [None] when the call returned [NULL]. *)
Definition q_dequeue (q : Z) : K (option Z) :=
  if decide (q = NULL) then mret None
  else
    Q ← deref k_queues q;
    kact (λ s, let '(r, mm) := dequeue (k_mm s) Q in
      match r with
      | None => Ret None (set_k_mm mm s)
      | Some (v, Q') => Ret (Some v) (set_k_queues (<[q := Q']> (k_queues s)) (set_k_mm mm s))
      end).

(** [eqv] is the comparison function applied in the current state. *)
Definition q_remove (q : Z) (eqv : kst St → Z → option bool) : K bool :=
  if decide (q = NULL) then mret false
  else
    Q ← deref k_queues q;
    kact (λ s, match queueRemove (k_mm s) Q (eqv s) with
      | None => Undefined
      | Some (b, Q', mm) => Ret b (set_k_queues (<[q := Q']> (k_queues s)) (set_k_mm mm s))
      end).

Definition q_free (q : Z) : K unit :=
  if decide (q = NULL) then mret tt
  else
    Q ← deref k_queues q;
    _ ← kmodify (λ s, set_k_mm (free_nodes (k_mm s) (q_nodes Q)) s);
    free_queue q.

Definition q_size (q : Z) : K Z :=
  if decide (q = NULL) then mret 0
  else Q ← deref k_queues q; mret (queueSize Q).

Definition q_isEmpty (q : Z) : K bool := n ← q_size q; mret (bool_decide (n = 0)).

Definition q_beginIter (q : Z) : K unit :=
  if decide (q = NULL) then mret tt
  else Q ← deref k_queues q; put_queue q (queueBeginCyclicIter Q).

Definition q_nextIter (q : Z) : K (option Z) :=
  if decide (q = NULL) then mret None
  else
    Q ← deref k_queues q;
    '(r, Q') ← kopt (queueNextCyclicIter Q);
    _ ← put_queue q Q'; mret r.

Definition q_iterLooped (q : Z) : K bool :=
  if decide (q = NULL) then mret false
  else Q ← deref k_queues q; mret (queueCyclicIterLooped Q).

Definition q_elementExists (q : Z) (eqv : kst St → Z → option bool) : K bool :=
  Q ← deref k_queues q;
  kact (λ s, match queueElementExists (k_mm s) Q (eqv s) with
    | None => Undefined
    | Some (b, Q', mm) => Ret b (set_k_queues (<[q := Q']> (k_queues s)) (set_k_mm mm s))
    end).

(** *** [array.c] through an [ArrayADT] *)

Definition arr_create (size : Z) : K Z := λ s,
  let '(r, mm) := createArray (k_mm s) size in
  match r with
  | None => Ret NULL (set_k_mm mm s)
  | Some (p, A) => Ret p (set_k_arrays (<[p := A]> (k_arrays s)) (set_k_mm mm s))
  end.

Definition arr_add (a v : Z) : K Z :=
  if decide (a = NULL) then mret NULL
  else
    A ← deref k_arrays a;
    kact (λ s, let '(r, mm) := arrayAdd (k_mm s) A v in
      match r with
      | None => Ret NULL (set_k_mm mm s)
      | Some A' => Ret a (set_k_arrays (<[a := A']> (k_arrays s)) (set_k_mm mm s))
      end).

Definition arr_get (a index : Z) : K (option Z) :=
  if decide (a = NULL) then mret None
  else A ← deref k_arrays a; kopt (getElemByIndex A index).

(** Whether the call succeeded. *)
Definition arr_set (a index v : Z) : K bool :=
  if decide (a = NULL) then mret false
  else
    A ← deref k_arrays a;
    match setElemByIndex A index v with
    | None => mret false
    | Some A' => _ ← put_array a A'; mret true
    end.

Definition arr_size (a : Z) : K Z :=
  if decide (a = NULL) then mret (u16 (-1))
  else A ← deref k_arrays a; mret (arraySize A).
End prims.
