(* ===== verification/KQueue.v ===== *)
(** * Reasoning about queues and processes in the kernel state

    What the queue operations applied through a pointer do, in terms of the
    values a queue holds, and which parts of the kernel state they leave
    alone. *)

From S2P Require Import Prelude MemoryManager Queue Arrays Monad KState.

Section kqueue.
Context {St : Type} `{MemoryManager St}.
Implicit Types (s : kst St) (q v : Z) (l : list Z) (pan : bool).

(** The queue at [q] holds [l], with its iterator at [it]. *)
Definition has_queue s q l (it : option nat) : Prop :=
  q ≠ NULL ∧ ∃ Q, k_queues s !! q = Some Q ∧ q_vals Q = l ∧ q_iter Q = it ∧ queue_wf Q.

(** Only the allocator and the queue at [q] changed. *)
Definition qframe q s s' : Prop :=
  ∃ mm qs, s' = set_k_queues qs (set_k_mm mm s) ∧
    ∀ q', q' ≠ q → qs !! q' = k_queues s !! q'.

Lemma has_queue_frame q q' l it s s' :
  qframe q s s' → q' ≠ q → has_queue s q' l it → has_queue s' q' l it.
Proof.
  intros (mm & qs & -> & Hqs) Hne (Hn & Q & HQ & HQ'). split; [done|].
  exists Q. simpl. by rewrite Hqs.
Qed.

Lemma has_queue_procs q l it s ps : has_queue s q l it → has_queue (set_k_procs ps s) q l it.
Proof. done. Qed.

Lemma has_queue_arrays q l it s ar : has_queue s q l it → has_queue (set_k_arrays ar s) q l it.
Proof. done. Qed.

Lemma qframe_trans q s1 s2 s3 : qframe q s1 s2 → qframe q s2 s3 → qframe q s1 s3.
Proof.
  intros (mm1 & qs1 & -> & H1) (mm2 & qs2 & -> & H2). exists mm2, qs2.
  split; [done|]. intros q' Hq. simpl in H2. by rewrite H2, H1.
Qed.

Lemma qframe_refl q s : qframe q s s.
Proof. exists (k_mm s), (k_queues s). split; [by destruct s|done]. Qed.

Lemma qframe_put q s Q : qframe q s (set_k_queues (<[q := Q]> (k_queues s)) s).
Proof.
  exists (k_mm s), (<[q := Q]> (k_queues s)). split; [done|].
  intros q' ?. by rewrite lookup_insert_ne.
Qed.

Lemma qframe_put_mm q s Q mm :
  qframe q s (set_k_queues (<[q := Q]> (k_queues s)) (set_k_mm mm s)).
Proof.
  exists mm, (<[q := Q]> (k_queues s)). split; [done|].
  intros q' ?. by rewrite lookup_insert_ne.
Qed.

Lemma has_queue_put q s Q mm :
  q ≠ NULL → queue_wf Q →
  has_queue (set_k_queues (<[q := Q]> (k_queues s)) (set_k_mm mm s)) q (q_vals Q) (q_iter Q).
Proof. intros. split; [done|]. exists Q. simpl. by rewrite lookup_insert_eq. Qed.

Lemma wp_enqueue pan q v l it s Q :
  has_queue s q l it →
  (∀ s', qframe q s s' → has_queue s' q (l ++ [v]) it → Q q s') →
  (∀ s', qframe q s s' → has_queue s' q l it → Q NULL s') →
  wp pan (q_enqueue q v) Q s.
Proof.
  intros (Hn & q0 & Hq & Hl & Hit & Hwf) Hok Hfail. unfold q_enqueue.
  rewrite decide_False by done. wp_step. wp_step.
  pose proof (enqueue_spec (k_mm s) q0 v) as Hs. unfold wp, kact.
  destruct (enqueue (k_mm s) q0 v) as [[q1|] mm].
  - destruct Hs as (Hv & Hi & _ & Hw). rewrite Hl, Hit in *. apply Hok.
    + apply qframe_put_mm.
    + rewrite <-Hv, <-Hi. apply has_queue_put; auto.
  - apply Hfail.
    + exists mm, (k_queues s). split; [by destruct s|done].
    + split; [done|]. by exists q0.
Qed.

Lemma wp_dequeue pan q v l it s Q :
  has_queue s q (v :: l) it →
  (∀ s' it', qframe q s s' → has_queue s' q l it' → Q (Some v) s') →
  wp pan (q_dequeue q) Q s.
Proof.
  intros (Hn & q0 & Hq & Hl & Hit & Hwf) Hok. unfold q_dequeue.
  rewrite decide_False by done. wp_step. wp_step.
  pose proof (dequeue_spec (k_mm s) q0) as Hs. rewrite Hl in Hs.
  destruct Hs as (q1 & mm & Hd & Hv & _ & Hw). unfold wp, kact. rewrite Hd.
  eapply Hok.
  - apply qframe_put_mm.
  - rewrite <-Hv. apply has_queue_put; auto.
Qed.

Lemma wp_size pan q l it s Q :
  has_queue s q l it → Q (Z.of_nat (length l)) s → wp pan (q_size q) Q s.
Proof.
  intros (Hn & q0 & Hq & Hl & Hit & Hwf) HQ. unfold q_size.
  rewrite decide_False by done. wp_step. wp_step. wp_step.
  by rewrite queueSize_spec, Hl.
Qed.

Lemma wp_isEmpty pan q l it s Q :
  has_queue s q l it → Q (bool_decide (l = [])) s → wp pan (q_isEmpty q) Q s.
Proof.
  intros Hq HQ. unfold q_isEmpty. wp_step. eapply wp_size; [done|]. wp_step.
  replace (bool_decide (Z.of_nat (length l) = 0)) with (bool_decide (l = [])); [done|].
  apply bool_decide_ext. destruct l; simpl; [done|]. split; [done|lia].
Qed.

Lemma wp_beginIter pan q l it s Q :
  has_queue s q l it → l ≠ [] →
  (∀ s', qframe q s s' → has_queue s' q l (Some O) → Q tt s') →
  wp pan (q_beginIter q) Q s.
Proof.
  intros (Hn & q0 & Hq & Hl & Hit & Hwf) Hne Hok. unfold q_beginIter.
  rewrite decide_False by done. wp_step. wp_step.
  destruct (queueBegin_spec q0) as (Hv & _ & Hi). rewrite Hl in *. specialize (Hi Hne).
  apply wp_modify, Hok; [apply qframe_put|]. split; [done|].
  eexists. simpl. rewrite lookup_insert_eq. split_and!; try done.
  unfold queue_wf. rewrite Hi. rewrite <-q_vals_length, Hv. destruct l; simpl; [done|lia].
Qed.

Lemma wp_nextIter pan q l i v s Q :
  has_queue s q l (Some i) → l !! i = Some v →
  (∀ s', qframe q s s' →
     has_queue s' q l (Some (if decide (S i < length l)%nat then S i else O)) → Q (Some v) s') →
  wp pan (q_nextIter q) Q s.
Proof.
  intros (Hn & q0 & Hq & Hl & Hit & Hwf) Hv Hok. unfold q_nextIter.
  rewrite decide_False by done. wp_step. wp_step. rewrite <-Hl in Hv.
  destruct (queueNext_spec q0 i v Hit Hv) as (q1 & E & Hv1 & Hi1 & _ & Hw1).
  rewrite E. wp_step. wp_step. wp_step. apply wp_modify. wp_step.
  apply Hok; [apply qframe_put|]. rewrite Hl in *. split; [done|].
  eexists. simpl. by rewrite lookup_insert_eq.
Qed.

Lemma wp_nextIter_none pan q l s Q :
  has_queue s q l None →
  (∀ s', qframe q s s' → has_queue s' q l None → Q None s') →
  wp pan (q_nextIter q) Q s.
Proof.
  intros (Hn & q0 & Hq & Hl & Hit & Hwf) Hok. unfold q_nextIter.
  rewrite decide_False by done. wp_step. wp_step.
  unfold queueNextCyclicIter. rewrite Hit. wp_step. wp_step. wp_step. apply wp_modify.
  wp_step. apply Hok; [apply qframe_put|]. split; [done|].
  exists q0. simpl. by rewrite lookup_insert_eq.
Qed.

Lemma wp_iterLooped pan q l it s Q :
  has_queue s q l it → Q (bool_decide (it = Some O)) s → wp pan (q_iterLooped q) Q s.
Proof.
  intros (Hn & q0 & Hq & Hl & Hit & Hwf) HQ. unfold q_iterLooped.
  rewrite decide_False by done. wp_step. wp_step. wp_step.
  unfold queueCyclicIterLooped. by rewrite Hit.
Qed.

(** [queueRemove] of a value that compares equal to exactly one entry. *)
Lemma wp_remove pan q l1 v l2 it eqv s Q :
  has_queue s q (l1 ++ v :: l2) it →
  (∀ w, w ∈ l1 → eqv s w = Some false) → eqv s v = Some true →
  (∀ w, w ∈ l2 → is_Some (eqv s w)) →
  (∀ s', qframe q s s' →
     has_queue s' q (l1 ++ l2) (iter_remove it (length l1) (length (l1 ++ v :: l2))) →
     Q true s') →
  wp pan (q_remove q eqv) Q s.
Proof.
  intros (Hn & q0 & Hq & Hl & Hit & Hwf) H1 Hv H2 Hok. unfold q_remove.
  rewrite decide_False by done. wp_step. wp_step. unfold wp, kact.
  destruct (queueRemove_spec (k_mm s) q0 (eqv s) Hwf)
    as [[_ Hall]|(m1 & w & m2 & q1 & mm & Hm & Hw & Hm1 & -> & Hv1 & Hw1 & Hi1 & _)].
  - rewrite Hl. intros w [?|[->|?]%elem_of_cons]%elem_of_app; eauto.
  - exfalso. rewrite Hl in Hall. rewrite Hall in Hv; [done|set_solver].
  - assert (m1 = l1 ∧ w = v ∧ m2 = l2) as (-> & -> & ->).
    { rewrite Hl in Hm. revert Hm H1 Hv Hm1 Hw. clear. revert m1.
      induction l1 as [|a l1 IH]; intros [|b m1] Hm H1 Hv Hm1 Hw; simplify_list_eq.
      - done.
      - exfalso. rewrite (Hm1 b) in Hv; [done|set_solver].
      - exfalso. rewrite (H1 w) in Hw; [done|set_solver].
      - destruct (IH m1) as (-> & -> & ->); [set_solver..|done|]. done. }
    apply Hok; [apply qframe_put_mm|]. rewrite Hl, Hit in Hi1. rewrite <-Hv1, <-Hi1.
    by apply has_queue_put.
Qed.

(** ... and of a value that compares equal to none. *)
Lemma wp_remove_none pan q l it eqv s Q :
  has_queue s q l it → (∀ w, w ∈ l → eqv s w = Some false) →
  (∀ s', qframe q s s' → has_queue s' q l it → Q false s') →
  wp pan (q_remove q eqv) Q s.
Proof.
  intros (Hn & q0 & Hq & Hl & Hit & Hwf) H1 Hok. unfold q_remove.
  rewrite decide_False by done. wp_step. wp_step. unfold wp, kact.
  destruct (queueRemove_spec (k_mm s) q0 (eqv s) Hwf)
    as [[-> Hall]|(m1 & w & m2 & q1 & mm & Hm & Hw & _)].
  - rewrite Hl. eauto.
  - apply Hok; [apply qframe_put_mm|]. split; [done|]. exists q0. simpl.
    by rewrite lookup_insert_eq.
  - exfalso. rewrite H1 in Hw; [done|]. rewrite <-Hl, Hm. set_solver.
Qed.

(** [queueElementExists] on a queue whose comparisons are defined. *)
Lemma wp_elementExists pan q (q0 : queue) eqv s Q :
  k_queues s !! q = Some q0 → queue_wf q0 →
  (∀ v, v ∈ q_vals q0 → is_Some (eqv s v)) →
  (mm_alloc (k_mm s) (q_dataSize q0)).1 ≠ NULL →
  (∀ (b : bool) s' (q1 : queue), qframe q s s' → k_queues s' !! q = Some q1 → q_vals q1 = q_vals q0 →
     q_dataSize q1 = q_dataSize q0 → queue_wf q1 →
     (b = true ↔ ∃ v, v ∈ q_vals q0 ∧ eqv s v = Some true) → Q b s') →
  wp pan (q_elementExists q eqv) Q s.
Proof.
  intros Hq Hwf Hdef Halloc HQ. unfold q_elementExists. wp_step. wp_step.
  destruct (queueElementExists_spec (k_mm s) q0 (eqv s) Hdef Hwf Halloc)
    as (b & q1 & E & Hb & Hv & Hd & Hw). unfold wp, kact. rewrite E.
  eapply (HQ b _ q1); [apply qframe_put_mm|..|done]; try done.
  simpl. apply lookup_insert_eq.
Qed.

Lemma wp_upd_proc pan p f P s Q :
  k_procs s !! p = Some P → Q tt (set_k_procs (<[p := f P]> (k_procs s)) s) →
  wp pan (upd_proc p f) Q s.
Proof. intros HP HQ. unfold upd_proc. wp_step. wp_step. by apply wp_modify. Qed.

Lemma wp_when pan (b : bool) m Q s :
  (b = true → wp pan m Q s) → (b = false → Q tt s) → wp pan (kwhen b m) Q s.
Proof. destruct b; simpl; [auto|]. intros _ HQ. apply wp_ret. auto. Qed.

(** ** Allocation *)

Lemma wp_kalloc_eq `{!MemoryManagerOk St} pan n s B (Q : Z → kst St → Prop) :
  mm_inv (k_mm s) B → 0 < n < mm_max_request →
  ((mm_alloc (k_mm s) n).1 = NULL → Q NULL s) →
  (∀ p m mm, mm_alloc (k_mm s) n = (p, mm) → p ≠ NULL → B !! p = None → n ≤ m →
     mm_inv mm (<[p := m]> B) → Q p (set_k_mm mm s)) →
  wp pan (kalloc n) Q s.
Proof.
  intros Hinv Hn Hfail Hok. unfold wp, kalloc.
  pose proof (mm_alloc_ok _ _ _ Hinv Hn) as Ha. destruct (mm_alloc (k_mm s) n) as [p mm].
  case_decide as Hp.
  - subst. destruct s. by apply Hfail.
  - destruct Ha as (HB & m & Hm & Hinv'). by eapply Hok.
Qed.

Lemma wp_kalloc `{!MemoryManagerOk St} pan n s B (Q : Z → kst St → Prop) :
  mm_inv (k_mm s) B → 0 < n < mm_max_request →
  Q NULL s →
  (∀ p m mm, p ≠ NULL → B !! p = None → n ≤ m → mm_inv mm (<[p := m]> B) →
     Q p (set_k_mm mm s)) →
  wp pan (kalloc n) Q s.
Proof. intros Hinv Hn Hfail Hok. eapply wp_kalloc_eq; eauto. Qed.

Lemma wp_create_eq `{!MemoryManagerOk St} pan n s B (Q : Z → kst St → Prop) :
  mm_inv (k_mm s) B → n ≠ 0 →
  (∀ mm, (mm_alloc (k_mm s) QUEUE_SIZE).1 = NULL → Q NULL (set_k_mm mm s)) →
  (∀ p m mm, mm_alloc (k_mm s) QUEUE_SIZE = (p, mm) → p ≠ NULL → B !! p = None →
     mm_inv mm (<[p := m]> B) →
     Q p (set_k_queues (<[p := Queue [] None n]> (k_queues s)) (set_k_mm mm s))) →
  wp pan (q_create n) Q s.
Proof.
  intros Hinv Hn Hfail Hok. unfold wp, q_create, createQueue.
  assert (0 < QUEUE_SIZE < mm_max_request) as Hs by done.
  pose proof (mm_alloc_ok _ _ _ Hinv Hs) as Ha.
  destruct (mm_alloc (k_mm s) QUEUE_SIZE) as [p mm].
  destruct (decide (p = NULL)) as [->|Hp].
  - rewrite decide_True by tauto. by apply Hfail.
  - rewrite decide_False by tauto. destruct Ha as (HB & m & Hm & Hinv'). by eapply Hok.
Qed.

Lemma wp_create `{!MemoryManagerOk St} pan n s B (Q : Z → kst St → Prop) :
  mm_inv (k_mm s) B → n ≠ 0 →
  (∀ mm, Q NULL (set_k_mm mm s)) →
  (∀ p m mm, p ≠ NULL → B !! p = None → mm_inv mm (<[p := m]> B) →
     Q p (set_k_queues (<[p := Queue [] None n]> (k_queues s)) (set_k_mm mm s))) →
  wp pan (q_create n) Q s.
Proof. intros Hinv Hn Hfail Hok. eapply wp_create_eq; eauto. Qed.
End kqueue.
