(* ===== verification/Scheduler.v ===== *)
(** * The scheduler ([scheduler.c])

    Four ready queues of PCB pointers, one per priority, reached through the
    array [process_priority_table].  Every function of the file is here but
    [init_scheduler] (in [Process.v], which it calls) and the idle loop. *)

From S2P Require Import Prelude MemoryManager Queue Arrays Monad KState KQueue FirstFit.

Section scheduler.
Context {St : Type} `{MemoryManager St}.
Abbreviation K := (K (kst St)).

(** [compareProcesses(v, &p) == 0]: both PCBs are read. *)
Definition compareProcesses (p : Z) (s : kst St) (v : Z) : option bool :=
  a ← k_procs s !! v; b ← k_procs s !! p; Some (bool_decide (pid a - pid b = 0)).

Definition get_priority_queue (prio : Z) : K Z :=
  table ← kgets process_priority_table;
  if decide (prio < MIN_PRIORITY ∨ MAX_PRIORITY < prio ∨ table = NULL) then mret NULL
  else r ← arr_get table prio; mret (default NULL r).

Definition set_priority_queue (prio queue : Z) : K Z :=
  table ← kgets process_priority_table;
  if decide (prio < MIN_PRIORITY ∨ MAX_PRIORITY < prio ∨ table = NULL) then mret (-1)
  else b ← arr_set table prio queue; mret (if b : bool then 0 else -1).

Definition remove_from_all_priority_queues (p : Z) : K unit :=
  if decide (p = NULL) then mret tt
  else
    P ← deref k_procs p;
    priority_queue ← get_priority_queue (priority P);
    if decide (priority_queue = NULL) then mret tt
    else _ ← q_remove priority_queue (compareProcesses p); mret tt.

(** The part of the aging loop for a process that reached the threshold. *)
Definition boost (priority_queue p : Z) : K unit :=
  _ ← upd_proc p (set_priority MAX_PRIORITY);
  _ ← q_remove priority_queue (compareProcesses p);
  nq ← get_priority_queue MAX_PRIORITY;
  if decide (nq = NULL) then panic "Failed to create new priority queue"
  else
    nq ← q_enqueue nq p;
    _ ← set_priority_queue MAX_PRIORITY nq;
    upd_proc p (set_wait_ticks 0).

(** The [while (queueNextCyclicIter(...))] loop of [apply_aging]. *)
Fixpoint aging_loop (fuel : nat) (priority_queue : Z) : K unit :=
  match fuel with
  | O => diverge
  | S fuel =>
      r ← q_nextIter priority_queue;
      match r with
      | None => mret tt
      | Some p =>
          if decide (p = NULL) then mret tt
          else
            P ← deref k_procs p;
            idle ← kgets idle_proc;
            if decide (state P ≠ READY ∨ p = idle) then aging_loop fuel priority_queue
            else
              _ ← upd_proc p (λ P, set_wait_ticks (i32 (wait_ticks P + 1)) P);
              P ← deref k_procs p;
              _ ← (if decide (AGING_THRESHOLD ≤ wait_ticks P)
                   then boost priority_queue p else mret tt);
              looped ← q_iterLooped priority_queue;
              if looped : bool then mret tt else aging_loop fuel priority_queue
      end
  end.

(** A loop that ends does so within 50 rounds of the queue: by then every
    READY entry has been boosted out of it. *)
Definition aging_fuel (n : nat) : nat := (64 * (n + 2))%nat.

Definition age_queue (prio : Z) : K unit :=
  priority_queue ← get_priority_queue prio;
  if decide (priority_queue = NULL) then mret tt
  else
    e ← q_isEmpty priority_queue;
    if e : bool then mret tt
    else
      _ ← q_beginIter priority_queue;
      Q ← deref k_queues priority_queue;
      aging_loop (aging_fuel (length (q_nodes Q))) priority_queue.

Definition apply_aging : K unit :=
  kfor (Z.to_nat (MAX_PRIORITY - AGING_BOOST - MIN_PRIORITY + 1)) MIN_PRIORITY 1 age_queue.

Definition reset_aging (p : Z) : K unit :=
  idle ← kgets idle_proc;
  if decide (p = NULL ∨ p = idle) then mret tt else upd_proc p (set_wait_ticks 0).

Definition add_to_scheduler (p : Z) : K unit :=
  idle ← kgets idle_proc;
  if decide (p = NULL ∨ p = idle) then mret tt
  else
    _ ← upd_proc p (set_state READY);
    P ← deref k_procs p;
    priority_queue ← get_priority_queue (priority P);
    if decide (priority_queue = NULL) then panic "Priority queue not found"
    else
      priority_queue ← q_enqueue priority_queue p;
      _ ← set_priority_queue (priority P) priority_queue;
      mret tt.

Definition remove_process_from_scheduler (p : Z) : K unit :=
  idle ← kgets idle_proc;
  if decide (p = NULL ∨ p = idle) then mret tt
  else
    _ ← _cli;
    _ ← remove_from_all_priority_queues p;
    running ← kgets running_process;
    _ ← kwhen (bool_decide (running = p)) (kmodify (set_running_process NULL));
    _sti.

(** The inner [while (!queueIsEmpty(...))] of [schedule]. *)
Fixpoint pick_loop (fuel : nat) (priority_queue : Z) : K Z :=
  match fuel with
  | O => diverge
  | S fuel =>
      e ← q_isEmpty priority_queue;
      if e : bool then mret NULL
      else
        r ← q_dequeue priority_queue;
        match r with
        | None => mret NULL
        | Some next =>
            P ← deref k_procs next;
            idle ← kgets idle_proc;
            if decide (state P = TERMINATED) then pick_loop fuel priority_queue
            else if decide (next ≠ NULL ∧ state P = READY ∧ next ≠ idle) then mret next
            else pick_loop fuel priority_queue
        end
  end.

Definition pick_from (prio : Z) : K Z :=
  priority_queue ← get_priority_queue prio;
  if decide (priority_queue = NULL) then mret NULL
  else
    Q ← deref k_queues priority_queue;
    pick_loop (S (length (q_nodes Q))) priority_queue.

(** [for (priority = MAX_PRIORITY; priority >= MIN_PRIORITY && next == NULL; priority--)] *)
Fixpoint pick (n : nat) (prio : Z) : K Z :=
  match n with
  | O => mret NULL
  | S n =>
      next ← pick_from prio;
      if decide (next = NULL) then pick n (prio - 1) else mret next
  end.

(** [next = idle_proc; next->state = RUNNING; running_process = next;] *)
Definition run_idle : K Z :=
  idle ← kgets idle_proc;
  _ ← upd_proc idle (set_state RUNNING);
  _ ← kmodify (set_running_process idle);
  P ← deref k_procs idle;
  mret (rsp P).

(** Saving the outgoing process; the answer is whether it keeps the CPU. *)
Definition save_running (current_rsp : Z) : K bool :=
  running ← kgets running_process;
  if decide (running = NULL) then mret false
  else
    _ ← upd_proc running (set_rsp current_rsp);
    P ← deref k_procs running;
    match state P with
    | TERMINATED | BLOCKED => _ ← kmodify (set_running_process NULL); mret false
    | RUNNING =>
        let q := i32 (quantum_remaining P - 1) in
        _ ← upd_proc running (set_quantum_remaining q);
        if decide (0 < q) then mret true
        else
          _ ← upd_proc running (set_quantum_remaining DEFAULT_QUANTUM);
          _ ← upd_proc running (set_state READY);
          _ ← add_to_scheduler running;
          mret false
    | READY => mret false
    end.

(** From the choice of [next] to the stack pointer returned. *)
Definition dispatch (next : Z) : K Z :=
  if decide (next = NULL) then run_idle
  else
    P ← deref k_procs next;
    if decide (state P ≠ READY) then run_idle
    else
      _ ← upd_proc next (set_state RUNNING);
      _ ← upd_proc next (set_quantum_remaining DEFAULT_QUANTUM);
      _ ← kmodify (set_running_process next);
      _ ← reset_aging next;
      idle ← kgets idle_proc;
      P ← deref k_procs next;
      let stack_bottom := stackBase P in
      let stack_top := u64 (stack_bottom + PROCESS_STACK_SIZE) in
      if decide (next ≠ idle ∧ (rsp P < stack_bottom ∨ stack_top ≤ rsp P)) then run_idle
      else mret (rsp P).

Definition schedule (current_rsp : Z) : K Z :=
  online ← kgets scheduler_online;
  if negb online then mret current_rsp
  else
    _ ← apply_aging;
    keep ← save_running current_rsp;
    if keep : bool then mret current_rsp
    else
      next ← pick (Z.to_nat (MAX_PRIORITY - MIN_PRIORITY + 1)) MAX_PRIORITY;
      dispatch next.

(** [int 0x20] with the timer handler behind it: [schedule] runs on the
    stack pointer the handler pushed.  When it answers the same one the
    interrupted code goes on; otherwise this process waits until a later
    [schedule] answers the saved pointer. *)
Definition _force_scheduler_interrupt : K unit := kact (λ s,
  match schedule (k_rsp s) s with
  | Ret rsp' s' =>
      if decide (rsp' = k_rsp s) then Ret tt s'
      else Switch (set_k_rsp rsp' s') (λ s'', Ret tt s'')
  | Switch _ _ => Undefined
  | Panic msg s' => Panic msg s'
  | Undefined => Undefined
  | Diverges => Diverges
  end).

Definition unblock_process (p : Z) : K Z :=
  idle ← kgets idle_proc;
  if decide (p = NULL ∨ p = idle) then mret (-1)
  else
    P ← deref k_procs p;
    if decide (pid P = 1 ∨ state P ≠ BLOCKED) then mret (-1)
    else
      _ ← _cli;
      _ ← upd_proc p (set_state READY);
      _ ← add_to_scheduler p;
      _ ← _sti;
      mret 0.

Definition block_process (p : Z) : K Z :=
  idle ← kgets idle_proc;
  if decide (p = NULL ∨ p = idle) then mret (-1)
  else
    P ← deref k_procs p;
    if decide (pid P = 1 ∨ state P = BLOCKED ∨ state P = TERMINATED) then mret (-1)
    else
      _ ← _cli;
      _ ← remove_from_all_priority_queues p;
      _ ← upd_proc p (set_state BLOCKED);
      _ ← reset_aging p;
      _ ← _sti;
      running ← kgets running_process;
      _ ← kwhen (bool_decide (running = p)) _force_scheduler_interrupt;
      mret 0.

Definition get_running_process : K Z := kgets running_process.
Definition get_idle_process : K Z := kgets idle_proc.
Definition get_shell_process : K Z := kgets shell_proc.

Definition get_running_pid : K Z :=
  running ← kgets running_process;
  if decide (running = NULL) then mret (-1)
  else P ← deref k_procs running; mret (pid P).
End scheduler.

(** ** The abstract scheduler

    The same decisions on the lists of queued processes. *)

Record sched := Sched {
  sc_procs : gmap Z Process;
  sc_ready : Z → list Z;
  sc_running : Z;
}.

(** Updating one entry of a function on priorities. *)
Definition fupd {A} (R : Z → A) (i : Z) (x : A) : Z → A :=
  λ j, if decide (j = i) then x else R j.

Lemma fupd_eq {A} (R : Z → A) i x : fupd R i x i = x.
Proof. unfold fupd. by rewrite decide_True. Qed.
Lemma fupd_ne {A} (R : Z → A) i j x : j ≠ i → fupd R i x j = R j.
Proof. intros. unfold fupd. by rewrite decide_False. Qed.

(** One pass over a queue [l]: every process waits one tick more; one that
    reaches the threshold leaves for the top queue, and the pass stops if it
    was the head.  The result is the PCBs, the processes kept and the ones
    boosted. *)
Fixpoint age_walk (procs : gmap Z Process) (first : bool) (l : list Z)
  : gmap Z Process * list Z * list Z :=
  match l with
  | [] => (procs, [], [])
  | p :: l =>
      match procs !! p with
      | None => (procs, p :: l, [])
      | Some P =>
          let w := i32 (wait_ticks P + 1) in
          if decide (AGING_THRESHOLD ≤ w) then
            let procs' := <[p := set_wait_ticks 0 (set_priority MAX_PRIORITY P)]> procs in
            if first then (procs', l, [p])
            else
              let '(procs', kept, boosted) := age_walk procs' false l in
              (procs', kept, p :: boosted)
          else
            let '(procs', kept, boosted) :=
              age_walk (<[p := set_wait_ticks w P]> procs) false l in
            (procs', p :: kept, boosted)
      end
  end.

Definition age_level (i : Z) (a : sched) : sched :=
  let '(procs, kept, boosted) := age_walk (sc_procs a) true (sc_ready a i) in
  Sched procs
    (fupd (fupd (sc_ready a) i kept) MAX_PRIORITY (sc_ready a MAX_PRIORITY ++ boosted))
    (sc_running a).

Definition age (a : sched) : sched := age_level 2 (age_level 1 (age_level 0 a)).

(** The outgoing process; [true] when it keeps the CPU. *)
Definition save (idle rsp : Z) (a : sched) : bool * sched :=
  let r := sc_running a in
  if decide (r = NULL) then (false, a)
  else match sc_procs a !! r with
  | None => (false, a)
  | Some P =>
      match state P with
      | TERMINATED | BLOCKED =>
          (false, Sched (<[r := set_rsp rsp P]> (sc_procs a)) (sc_ready a) NULL)
      | READY => (false, Sched (<[r := set_rsp rsp P]> (sc_procs a)) (sc_ready a) r)
      | RUNNING =>
          let q := i32 (quantum_remaining P - 1) in
          if decide (0 < q) then
            (true, Sched (<[r := set_quantum_remaining q (set_rsp rsp P)]> (sc_procs a))
              (sc_ready a) r)
          else
            let P' := set_state READY
              (set_quantum_remaining DEFAULT_QUANTUM (set_rsp rsp P)) in
            (false, Sched (<[r := P']> (sc_procs a))
              (if decide (r = idle) then sc_ready a
               else fupd (sc_ready a) (priority P) (sc_ready a (priority P) ++ [r])) r)
      end
  end.

(** The head of the highest non-empty queue. *)
Fixpoint choose (n : nat) (i : Z) (R : Z → list Z) : option (Z * (Z → list Z)) :=
  match n with
  | O => None
  | S n =>
      match R i with
      | p :: l => Some (p, fupd R i l)
      | [] => choose n (i - 1) R
      end
  end.

Definition started (idle p : Z) (P : Process) : Process :=
  if decide (p = idle) then set_state RUNNING P
  else set_wait_ticks 0 (set_quantum_remaining DEFAULT_QUANTUM (set_state RUNNING P)).

Definition start (idle : Z) (next : option Z) (a : sched) : Z * sched :=
  let p := default idle next in
  match sc_procs a !! p with
  | None => (NULL, a)
  | Some P => (rsp P, Sched (<[p := started idle p P]> (sc_procs a)) (sc_ready a) p)
  end.

Definition abs_schedule (idle rsp : Z) (a : sched) : Z * sched :=
  let '(keep, a) := save idle rsp (age a) in
  if keep : bool then (rsp, a)
  else
    match choose 4 MAX_PRIORITY (sc_ready a) with
    | Some (p, R) => start idle (Some p) (Sched (sc_procs a) R (sc_running a))
    | None => start idle None a
    end.
