(* ===== verification/SchedulerFacts.v ===== *)
(** * The scheduler is correct

    The ready queues in the kernel state are represented by two functions on
    priorities: [T], the queue pointers in the table, and [R], the PCBs
    queued.  [sched_inv] is the invariant of the scheduler's data; the
    functions of [Scheduler.v] are shown to refine the abstract scheduler,
    and the properties follow.  A queue the kernel lost because [enqueue] ran
    out of memory is a null entry of [T]. *)

From S2P Require Import Prelude MemoryManager Queue Arrays Monad KState KQueue Scheduler.
From S2P Require Import FirstFit.

(** ** Representation of the ready queues *)

Definition is_prio (i : Z) : Prop := MIN_PRIORITY ≤ i ≤ MAX_PRIORITY.

Lemma is_prio_cases i : is_prio i → i = 0 ∨ i = 1 ∨ i = 2 ∨ i = 3.
Proof. unfold is_prio, MIN_PRIORITY, MAX_PRIORITY. lia. Qed.

(** The table holds the queue pointers [T i]; a null one is a queue the
    kernel lost when an [enqueue] ran out of memory. *)
Definition table_rep {St} (s : kst St) (T : Z → Z) : Prop :=
  process_priority_table s ≠ NULL ∧
  ∃ A, k_arrays s !! process_priority_table s = Some A ∧ array_rep A [T 0; T 1; T 2; T 3].

Record sched_rep {St} (s : kst St) (T : Z → Z) (R : Z → list Z) : Prop := {
  sr_table : table_rep s T;
  sr_queue : ∀ i, is_prio i → T i ≠ NULL → ∃ it, has_queue s (T i) (R i) it;
  sr_null : ∀ i, is_prio i → T i = NULL → R i = [];
  sr_inj : ∀ i j, is_prio i → is_prio j → T i = T j → T i ≠ NULL → i = j;
}.

(** The saved stack pointer lies in the process's own stack. *)
Definition stack_ok (P : Process) : Prop :=
  stackBase P ≤ rsp P < stackBase P + PROCESS_STACK_SIZE ∧
  0 ≤ stackBase P ∧ stackBase P + PROCESS_STACK_SIZE < 2 ^ 64.

(** A PCB queued at level [i]. *)
Record queued_ok (procs : gmap Z Process) (idle p i : Z) : Prop := {
  qo_nonnull : p ≠ NULL;
  qo_idle : p ≠ idle;
  qo_live : ∃ P, procs !! p = Some P ∧ state P = READY ∧ priority P = i ∧ stack_ok P;
}.

(** Live processes have distinct pids. *)
Definition pid_inj (procs : gmap Z Process) : Prop :=
  ∀ p q P Q, procs !! p = Some P → procs !! q = Some Q →
    state P ≠ TERMINATED → state Q ≠ TERMINATED → pid P = pid Q → p = q.

Record ready_ok (procs : gmap Z Process) (idle : Z) (R : Z → list Z) : Prop := {
  ro_nodup : ∀ i, is_prio i → NoDup (R i);
  ro_queued : ∀ i p, is_prio i → p ∈ R i → queued_ok procs idle p i;
  ro_pids : pid_inj procs;
}.

(** What the scheduler's operations may change besides the PCBs. *)
Definition sframe {St} (T : Z → Z) (s s' : kst St) : Prop :=
  ∃ mm qs ar ps,
    s' = set_k_procs ps (set_k_arrays ar (set_k_queues qs (set_k_mm mm s))) ∧
    (∀ q, q ≠ NULL → (∀ i, is_prio i → T i ≠ q) → qs !! q = k_queues s !! q) ∧
    (∀ a, a ≠ process_priority_table s → ar !! a = k_arrays s !! a).

Definition lost_some (T' T : Z → Z) : Prop := ∀ i, is_prio i → T' i = T i ∨ T' i = NULL.

Section rep.
Context {St : Type} `{MemoryManager St}.
Implicit Types (s : kst St) (T : Z → Z) (R : Z → list Z) (pan : bool).

Lemma sframe_refl T s : sframe T s s.
Proof. exists (k_mm s), (k_queues s), (k_arrays s), (k_procs s). by destruct s. Qed.

Lemma sframe_trans T T' s1 s2 s3 :
  sframe T s1 s2 → sframe T' s2 s3 → lost_some T' T → sframe T s1 s3.
Proof.
  intros (m1 & q1 & a1 & p1 & -> & Hq1 & Ha1) (m2 & q2 & a2 & p2 & -> & Hq2 & Ha2) HT.
  exists m2, q2, a2, p2. split; [done|]. simpl in *. split.
  - intros q Hq Hne. rewrite Hq2; [by apply Hq1|done|].
    intros i Hi. destruct (HT i Hi) as [->| ->]; [by apply Hne|done].
  - intros a Ha. by rewrite Ha2, Ha1.
Qed.

Lemma sframe_procs T s ps : sframe T s (set_k_procs ps s).
Proof. exists (k_mm s), (k_queues s), (k_arrays s), ps. by destruct s. Qed.

Lemma sframe_qframe T s s' i : is_prio i → qframe (T i) s s' → sframe T s s'.
Proof.
  intros Hi (mm & qs & -> & Hqs). exists mm, qs, (k_arrays s), (k_procs s).
  split; [by destruct s|]. split; [|done]. intros q _ Hne. apply Hqs.
  intros ->. by apply (Hne i).
Qed.

Lemma lost_some_refl T : lost_some T T.
Proof. intros i _. by left. Qed.

Lemma lost_some_trans T1 T2 T3 : lost_some T1 T2 → lost_some T2 T3 → lost_some T1 T3.
Proof. intros H1 H2 i Hi. destruct (H1 i Hi) as [->| ->]; [by apply H2|by right]. Qed.

Lemma lost_some_null T i : lost_some (fupd T i NULL) T.
Proof.
  intros j _. destruct (decide (j = i)) as [->|].
  - right. apply fupd_eq.
  - left. by apply fupd_ne.
Qed.

Lemma table_rep_ext s T T' : (∀ i, is_prio i → T i = T' i) → table_rep s T → table_rep s T'.
Proof.
  intros HT. unfold table_rep.
  assert (∀ i, 0 ≤ i ≤ 3 → T i = T' i) as HT' by (intros; by apply HT).
  by rewrite !HT' by lia.
Qed.

Lemma sched_rep_ext s T T' R R' :
  (∀ i, is_prio i → T i = T' i) → (∀ i, is_prio i → R i = R' i) →
  sched_rep s T R → sched_rep s T' R'.
Proof.
  intros HT HR [H1 H2 H3 H4]. constructor.
  - by eapply table_rep_ext.
  - intros i Hi. rewrite <-HT, <-HR by done. auto.
  - intros i Hi. rewrite <-HT, <-HR by done. auto.
  - intros i j Hi Hj. rewrite <-!HT by done. auto.
Qed.

Lemma ready_ok_ext procs idle R R' :
  (∀ i, is_prio i → R i = R' i) → ready_ok procs idle R → ready_ok procs idle R'.
Proof.
  intros HR [H1 H2 H3]. constructor; [| |done].
  - intros i Hi. rewrite <-HR by done. auto.
  - intros i p Hi. rewrite <-HR by done. auto.
Qed.

(** The process map may change under a represented table. *)
Lemma sched_rep_procs s T R ps : sched_rep s T R → sched_rep (set_k_procs ps s) T R.
Proof. intros [H1 H2 H3 H4]. constructor; try done. Qed.

(** ... and one of its queues. *)
Lemma sched_rep_queue s s' T R i l it :
  sched_rep s T R → is_prio i → qframe (T i) s s' → has_queue s' (T i) l it →
  sched_rep s' T (fupd R i l).
Proof.
  intros [H1 H2 H3 H4] Hi Hf Hq. pose proof Hq as [Hn _].
  pose proof Hf as (mm & qs & -> & _). constructor; [done| |..].
  - intros j Hj HTj. destruct (decide (j = i)) as [->|Hne].
    + rewrite fupd_eq. eauto.
    + rewrite fupd_ne by done. destruct (H2 j Hj HTj) as [it' Hit']. exists it'.
      eapply has_queue_frame; [done| |done]. intros Heq. by apply Hne, H4.
  - intros j Hj HTj. rewrite fupd_ne; [by apply H3|]. by intros ->.
  - done.
Qed.

Lemma wp_get_pq pan s T R i Q :
  sched_rep s T R → is_prio i → Q (T i) s → wp pan (get_priority_queue i) Q s.
Proof.
  intros [[Ht (A & HA & HAr)] _ _ _] Hi HQ. unfold get_priority_queue.
  wp_step. wp_step. rewrite decide_False by (unfold is_prio in Hi; lia). wp_step.
  unfold arr_get. rewrite decide_False by done. wp_step. wp_step.
  assert ([T 0; T 1; T 2; T 3] !! Z.to_nat i = Some (T i)) as Hl.
  { by destruct (is_prio_cases i Hi) as [->|[->|[->| ->]]]. }
  pose proof (array_get _ _ _ _ HAr Hl) as Hg.
  rewrite Z2Nat.id in Hg by (by destruct (is_prio_cases i Hi) as [->|[->|[->| ->]]]).
  by wp_step; wp_step.
Qed.

Lemma wp_set_pq pan s T i q Q :
  table_rep s T → is_prio i →
  (∀ ar, table_rep (set_k_arrays ar s) (fupd T i q) →
     (∀ a, a ≠ process_priority_table s → ar !! a = k_arrays s !! a) →
     Q 0 (set_k_arrays ar s)) →
  wp pan (set_priority_queue i q) Q s.
Proof.
  intros [Ht (A & HA & HAr)] Hi HQ. unfold set_priority_queue.
  wp_step. wp_step. rewrite decide_False by (unfold is_prio in Hi; lia). wp_step.
  unfold arr_set. rewrite decide_False by done. wp_step. wp_step.
  destruct (array_set A _ (Z.to_nat i) q HAr) as (A' & HA' & HAr').
  { simpl. destruct (is_prio_cases i Hi) as [->|[->|[->| ->]]]; simpl; lia. }
  rewrite Z2Nat.id in HA' by (by destruct (is_prio_cases i Hi) as [->|[->|[->| ->]]]).
  rewrite HA'. wp_step. apply wp_modify. wp_step. wp_step. apply HQ.
  - split; [done|]. exists A'. simpl. rewrite lookup_insert_eq. split; [done|].
    by destruct (is_prio_cases i Hi) as [->|[->|[->| ->]]].
  - intros a Ha. by rewrite lookup_insert_ne.
Qed.

(** [priority_queue = enqueue(priority_queue, &p); set_priority_queue(...)]:
    on failure the queue is dropped from the table. *)
Lemma wp_requeue pan s T R i p Q :
  sched_rep s T R → is_prio i → T i ≠ NULL →
  (∀ s', sframe T s s' → k_procs s' = k_procs s →
     (∀ j l it, is_prio j → j ≠ i → has_queue s (T j) l it → has_queue s' (T j) l it) →
     (sched_rep s' T (fupd R i (R i ++ [p])) ∨
      sched_rep s' (fupd T i NULL) (fupd R i [])) → Q 0 s') →
  wp pan (nq ← q_enqueue (T i) p; set_priority_queue i nq) Q s.
Proof.
  intros Hr Hi Hn HQ. destruct (sr_queue _ _ _ Hr i Hi Hn) as [it Hq]. wp_step.
  assert (∀ s', qframe (T i) s s' →
    ∀ j l it, is_prio j → j ≠ i → has_queue s (T j) l it → has_queue s' (T j) l it) as Hkeep.
  { intros s' Hf j l it' Hj Hne Hqj. eapply has_queue_frame; [done| |done].
    intros Heq. apply Hne. apply (sr_inj _ _ _ Hr); [done..|]. by rewrite Heq. }
  eapply wp_enqueue; [exact Hq|..]; intros s' Hf Hq'.
  - pose proof (sched_rep_queue _ _ _ _ _ _ _ Hr Hi Hf Hq') as Hr'.
    apply wp_set_pq with T; [apply Hr'|done|]. intros ar Htr Har. apply HQ.
    + destruct Hf as (mm & qs & -> & Hqs).
      exists mm, qs, ar, (k_procs s). split; [by destruct s|]. split; [|done].
      intros q _ Hne. apply Hqs. intros ->. by apply (Hne i).
    + by destruct Hf as (mm & qs & -> & Hqs).
    + intros j l it' Hj Hne Hqj. apply has_queue_arrays. by eapply Hkeep.
    + left. destruct Hr' as [_ ? ? ?]. constructor; try done.
      eapply table_rep_ext; [|done]. intros j _. unfold fupd. by case_decide; subst.
  - apply wp_set_pq with T; [|done|].
    { destruct Hf as (mm & qs & -> & Hqs). apply Hr. }
    intros ar Htr Har. apply HQ.
    + destruct Hf as (mm & qs & -> & Hqs).
      exists mm, qs, ar, (k_procs s). split; [by destruct s|]. split; [|done].
      intros q _ Hne. apply Hqs. intros ->. by apply (Hne i).
    + by destruct Hf as (mm & qs & -> & Hqs).
    + intros j l it' Hj Hne Hqj. apply has_queue_arrays. by eapply Hkeep.
    + right. destruct Hr as [_ Hq2 Hnull Hinj]. constructor; [done| | |].
      * intros j Hj HTj. destruct (decide (j = i)) as [->|Hne].
        { by rewrite fupd_eq in HTj. }
        rewrite fupd_ne in * by done. rewrite (fupd_ne R) by done.
        destruct (Hq2 j Hj HTj) as [it' Hit']. exists it'. apply has_queue_arrays.
        by eapply Hkeep.
      * intros j Hj HTj. destruct (decide (j = i)) as [->|Hne]; [apply fupd_eq|].
        rewrite fupd_ne in HTj by done. rewrite fupd_ne by done. auto.
      * intros j k Hj Hk. unfold fupd. repeat case_decide; try done; subst; auto.
Qed.
End rep.

(** ** Aging *)

Section ready.
Implicit Types (procs : gmap Z Process) (R : Z → list Z).

Lemma pid_inj_insert procs p P P' :
  pid_inj procs → procs !! p = Some P → pid P' = pid P →
  (state P' ≠ TERMINATED → state P ≠ TERMINATED) → pid_inj (<[p := P']> procs).
Proof.
  intros Hinj Hp Hpid Hst x y X Y.
  intros [[<- <-]|[Hx HX]]%lookup_insert_Some [[<- <-]|[Hy HY]]%lookup_insert_Some HsX HsY E.
  - done.
  - apply (Hinj p y P Y); auto. congruence.
  - apply (Hinj x p X P); auto. congruence.
  - by apply (Hinj x y X Y).
Qed.

Lemma ready_ok_insert procs idle R p P P' :
  ready_ok procs idle R → procs !! p = Some P → pid P' = pid P →
  (state P' ≠ TERMINATED → state P ≠ TERMINATED) →
  (∀ i, is_prio i → p ∈ R i → state P' = READY ∧ priority P' = i ∧ stack_ok P') →
  ready_ok (<[p := P']> procs) idle R.
Proof.
  intros [H1 H2 H3] Hp Hpid Hst Hin. constructor; [done| |by eapply pid_inj_insert].
  intros i x Hi Hx. destruct (H2 i x Hi Hx) as [Hn Hid (X & HX & HX')].
  constructor; [done..|]. destruct (decide (x = p)) as [->|Hne].
  - exists P'. rewrite lookup_insert_eq. auto.
  - exists X. by rewrite lookup_insert_ne.
Qed.

Lemma ready_ok_sub procs idle R R' :
  ready_ok procs idle R → (∀ i, is_prio i → NoDup (R' i)) →
  (∀ i p, is_prio i → p ∈ R' i → p ∈ R i) → ready_ok procs idle R'.
Proof. intros [H1 H2 H3] Hnd Hsub. constructor; auto. Qed.

Lemma ready_ok_lookup procs idle R i p :
  ready_ok procs idle R → is_prio i → p ∈ R i →
  ∃ P, procs !! p = Some P ∧ state P = READY ∧ priority P = i ∧ stack_ok P ∧
    p ≠ NULL ∧ p ≠ idle.
Proof. intros [_ H2 _] Hi Hp. destruct (H2 i p Hi Hp) as [? ? (P & ?)]. naive_solver. Qed.

Lemma ready_ok_level procs idle R i j p :
  ready_ok procs idle R → is_prio i → is_prio j → p ∈ R i → p ∈ R j → i = j.
Proof.
  intros Hr Hi Hj (P & HP & _ & <- & _)%(ready_ok_lookup _ _ _ _ _ Hr Hi)
    (P' & HP' & _ & <- & _)%(ready_ok_lookup _ _ _ _ _ Hr Hj). by simplify_eq.
Qed.

(** Moving [p] from level [i] to the end of the top level. *)
Lemma ready_ok_boost procs idle R i pre p l P :
  ready_ok procs idle R → is_prio i → i ≠ MAX_PRIORITY → R i = pre ++ p :: l →
  procs !! p = Some P →
  let procs' := <[p := set_wait_ticks 0 (set_priority MAX_PRIORITY P)]> procs in
  let R1 := fupd R i (pre ++ l) in
  ready_ok procs' idle (fupd R1 MAX_PRIORITY (R MAX_PRIORITY ++ [p])) ∧
  ready_ok procs' idle (fupd R1 MAX_PRIORITY []).
Proof.
  intros Hr Hi H3 HRi Hp procs' R1.
  assert (p ∈ R i) as Hpi by (rewrite HRi; set_solver).
  destruct (ready_ok_lookup _ _ _ _ _ Hr Hi Hpi) as (P0 & HP0 & Hst & Hpr & Hok & Hn & Hid).
  simplify_eq. pose proof (ro_nodup _ _ _ Hr (priority P) Hi) as Hnd. rewrite HRi in Hnd.
  assert (is_prio MAX_PRIORITY) as H3' by done.
  assert (∀ j, is_prio j → j ≠ priority P → p ∉ R j) as Hpj.
  { intros j Hj Hne Hin. apply Hne. symmetry. by eapply ready_ok_level. }
  apply NoDup_app in Hnd as (Hpre & Hdis & [Hpl Hl]%NoDup_cons).
  assert (ready_ok procs' idle (fupd R1 MAX_PRIORITY [])) as Hlost.
  { apply ready_ok_insert with P; try done.
    - apply ready_ok_sub with R; [done|..].
      + intros j Hj. unfold R1, fupd. repeat case_decide.
        * constructor.
        * apply NoDup_app. set_solver.
        * by apply (ro_nodup _ _ _ Hr).
      + intros j x Hj. unfold R1, fupd. repeat case_decide; subst; rewrite ?HRi; set_solver.
    - intros j Hj. unfold R1, fupd. repeat case_decide; subst.
      + by intros ?%elem_of_nil.
      + intros Hin. exfalso. set_solver.
      + intros Hin. exfalso. by apply (Hpj j). }
  split; [|done]. destruct Hlost as [L1 L2 L3]. constructor; [| |done].
  - intros j Hj. unfold fupd at 1. case_decide as Hj3.
    + apply NoDup_app. split; [by apply (ro_nodup _ _ _ Hr)|].
      split; [|apply NoDup_singleton]. intros x Hx ->%list_elem_of_singleton.
      by apply (Hpj MAX_PRIORITY).
    + specialize (L1 j Hj). by rewrite fupd_ne in L1.
  - intros j x Hj. unfold fupd at 1. case_decide as Hj3.
    + subst j. intros [Hx|Hx]%elem_of_app.
      * destruct (ro_queued _ _ _ Hr _ _ H3' Hx) as [? ? (X & HX & HX')].
        constructor; [done..|]. exists X. unfold procs'.
        rewrite lookup_insert_ne; [done|]. intros <-. by apply (Hpj MAX_PRIORITY).
      * apply list_elem_of_singleton in Hx as ->. constructor; [done..|].
        eexists. unfold procs'. rewrite lookup_insert_eq. by split.
    + intros Hx. apply L2; [done|]. by rewrite fupd_ne.
Qed.
End ready.

Section aging.
Context {St : Type} `{MemoryManager St}.
Implicit Types (s : kst St) (T : Z → Z) (R : Z → list Z).

(** A queue compared with one of its own entries. *)
Lemma compare_entries s R i p w :
  ready_ok (k_procs s) (idle_proc s) R → is_prio i → p ∈ R i → w ∈ R i →
  compareProcesses p s w = Some (bool_decide (w = p)).
Proof.
  intros Hr Hi Hp Hw. pose proof (ro_pids _ _ _ Hr) as Hinj.
  destruct (ready_ok_lookup _ _ _ _ _ Hr Hi Hp) as (P & HP & HsP & _).
  destruct (ready_ok_lookup _ _ _ _ _ Hr Hi Hw) as (W & HW & HsW & _).
  unfold compareProcesses. rewrite HW, HP. simpl. f_equal. apply bool_decide_ext.
  split; [|intros ->; simplify_eq; lia]. intros E.
  apply (Hinj w p W P); [done..|by rewrite HsW|by rewrite HsP|lia].
Qed.

Lemma boost_spec s T R i pre p l it P (Q : unit → kst St → Prop) :
  sched_rep s T R → ready_ok (k_procs s) (idle_proc s) R →
  is_prio i → i ≠ MAX_PRIORITY → T i ≠ NULL →
  R i = pre ++ p :: l → has_queue s (T i) (pre ++ p :: l) it → k_procs s !! p = Some P →
  (∀ s' T' R', sframe T s s' →
     k_procs s' = <[p := set_wait_ticks 0 (set_priority MAX_PRIORITY P)]> (k_procs s) →
     has_queue s' (T i) (pre ++ l) (iter_remove it (length pre) (length (pre ++ p :: l))) →
     sched_rep s' T' R' → ready_ok (k_procs s') (idle_proc s') R' →
     (T' = T ∧ R' = fupd (fupd R i (pre ++ l)) MAX_PRIORITY (R MAX_PRIORITY ++ [p]) ∨
      T' = fupd T MAX_PRIORITY NULL ∧
        R' = fupd (fupd R i (pre ++ l)) MAX_PRIORITY []) → Q tt s') →
  wp true (boost (T i) p) Q s.
Proof.
  intros Hrep Hready Hi H3 HTi HRi Hq HP HQ. unfold boost.
  assert (p ∈ R i) as Hpi by (rewrite HRi; set_solver).
  assert (is_prio MAX_PRIORITY) as H3' by done.
  wp_step. eapply wp_upd_proc; [done|].
  set (P1 := set_priority MAX_PRIORITY P). set (s1 := set_k_procs _ s).
  assert (∀ w, w ∈ R i → compareProcesses p s1 w = Some (bool_decide (w = p))) as Hcmp.
  { intros w Hw. pose proof (compare_entries s R i p w Hready Hi Hpi Hw) as Hc.
    rewrite <-Hc. unfold compareProcesses, s1. simpl. rewrite lookup_insert_eq, HP.
    destruct (decide (w = p)) as [->|]; [by rewrite lookup_insert_eq, HP|].
    by rewrite lookup_insert_ne. }
  pose proof (ro_nodup _ _ _ Hready i Hi) as Hnd. rewrite HRi in Hnd.
  apply NoDup_app in Hnd as (_ & Hdis & _).
  wp_step. eapply (wp_remove _ _ pre p l it).
  { by apply has_queue_procs. }
  { intros w Hw. rewrite Hcmp by (rewrite HRi; set_solver).
    rewrite bool_decide_false; [done|]. intros ->. apply (Hdis p Hw). set_solver. }
  { rewrite Hcmp by done. by rewrite bool_decide_true. }
  { intros w Hw. rewrite Hcmp by (rewrite HRi; set_solver). by eexists. }
  intros s2 Hf2 Hq2.
  assert (sched_rep s1 T R) as Hrep1 by (by apply sched_rep_procs).
  pose proof (sched_rep_queue _ _ _ _ _ _ _ Hrep1 Hi Hf2 Hq2) as Hrep2.
  pose proof (sframe_qframe T _ _ i Hi Hf2) as Hsf2.
  assert (k_procs s2 = k_procs s1 ∧ idle_proc s2 = idle_proc s) as [Hp2 Hid2].
  { by destruct Hf2 as (mm & qs & -> & _). }
  wp_step. eapply wp_get_pq; [done|done|].
  destruct (decide (T MAX_PRIORITY = NULL)); [wp_step|].
  apply wp_bind2. eapply wp_requeue; [done|done|done|].
  intros s3 Hsf3 Hp3 Hk3 Hr3. eapply wp_upd_proc.
  { rewrite Hp3, Hp2. apply lookup_insert_eq. }
  assert (k_procs (set_k_procs (<[p := set_wait_ticks 0 P1]> (k_procs s3)) s3) =
    <[p := set_wait_ticks 0 P1]> (k_procs s)) as Hp4.
  { simpl. rewrite Hp3, Hp2. apply insert_insert_eq. }
  assert (idle_proc s3 = idle_proc s) as Hid3.
  { destruct Hsf3 as (? & ? & ? & ? & -> & _). done. }
  destruct (ready_ok_boost _ _ _ _ _ _ _ _ Hready Hi H3 HRi HP) as [Hb1 Hb2].
  assert (sframe T s (set_k_procs (<[p := set_wait_ticks 0 P1]> (k_procs s3)) s3)) as Hsf.
  { eapply sframe_trans; [apply sframe_procs| |apply lost_some_refl].
    eapply sframe_trans; [exact Hsf2| |apply lost_some_refl].
    eapply sframe_trans; [exact Hsf3|apply sframe_procs|apply lost_some_refl]. }
  assert (has_queue s3 (T i) (pre ++ l)
    (iter_remove it (length pre) (length (pre ++ p :: l)))) as Hq3 by (by apply Hk3).
  rewrite fupd_ne in Hr3 by done.
  destruct Hr3 as [Hr3|Hr3]; eapply HQ; try exact Hsf; try exact Hp4; try exact Hq3.
  - by apply sched_rep_procs.
  - rewrite Hp4. simpl. by rewrite Hid3.
  - by left.
  - by apply sched_rep_procs.
  - rewrite Hp4. simpl. by rewrite Hid3.
  - by right.
Qed.

(** The iterator after it stepped over position [k] of [n] entries and that
    entry was removed. *)
Lemma iter_after_remove (k n : nat) :
  (k < n)%nat →
  iter_remove (Some (if decide (S k < n)%nat then S k else O)) k n =
    if decide (S k < n)%nat then Some k
    else if decide (k = O) then None else Some O.
Proof.
  intros Hk. unfold iter_remove. repeat case_decide; try done; try lia.
Qed.

(** A PCB in no queue is not touched and stays out of the queues. *)
Definition unqueued R (x : Z) : Prop := ∀ i, is_prio i → x ∉ R i.
(** Aging changes nothing of a PCB but its ticks and its priority. *)
Definition tick_eq (P P' : Process) : Prop :=
  set_priority 0 (set_wait_ticks 0 P') = set_priority 0 (set_wait_ticks 0 P).
Definition aged (procs procs' : gmap Z Process) : Prop :=
  ∀ x, match procs !! x, procs' !! x with
       | Some X, Some X' => tick_eq X X'
       | None, None => True
       | _, _ => False
       end.

Definition unqueued_kept R (procs : gmap Z Process) R' (procs' : gmap Z Process) : Prop :=
  (∀ x, unqueued R x → unqueued R' x ∧ procs' !! x = procs !! x) ∧ aged procs procs'.

Lemma tick_eq_fields P P' :
  tick_eq P P' → rsp P' = rsp P ∧ pid P' = pid P ∧ state P' = state P ∧
    stackBase P' = stackBase P.
Proof. destruct P, P'. unfold tick_eq, set_priority, set_wait_ticks. simpl. by intros [=]. Qed.

Lemma aged_lookup procs procs' x X' :
  aged procs procs' → procs' !! x = Some X' → ∃ X, procs !! x = Some X ∧ tick_eq X X'.
Proof.
  intros Ha HX'. specialize (Ha x). rewrite HX' in Ha.
  destruct (procs !! x) as [X|]; [by exists X|done].
Qed.

Lemma aged_refl procs : aged procs procs.
Proof. intros x. by destruct (procs !! x). Qed.

Lemma aged_trans p1 p2 p3 : aged p1 p2 → aged p2 p3 → aged p1 p3.
Proof.
  intros H1 H2 x. specialize (H1 x). specialize (H2 x). unfold tick_eq in *.
  destruct (p1 !! x), (p2 !! x), (p3 !! x); try done. congruence.
Qed.

Lemma unqueued_kept_trans R1 p1 R2 p2 R3 p3 :
  unqueued_kept R1 p1 R2 p2 → unqueued_kept R2 p2 R3 p3 → unqueued_kept R1 p1 R3 p3.
Proof.
  intros [H1 A1] [H2 A2]. split; [|by eapply aged_trans].
  intros x Hx. destruct (H1 x Hx) as [Hx2 E2]. destruct (H2 x Hx2) as [Hx3 E3].
  split; [done|]. by rewrite E3.
Qed.

Lemma unqueued_kept_insert R procs R' i p P P' :
  is_prio i → p ∈ R i → (∀ j x, is_prio j → x ∈ R' j → ∃ k, is_prio k ∧ x ∈ R k) →
  procs !! p = Some P → tick_eq P P' →
  unqueued_kept R procs R' (<[p := P']> procs).
Proof.
  intros Hi Hp Hsub HP Ht. split.
  - intros x Hx. split.
    + intros j Hj Hin. destruct (Hsub j x Hj Hin) as (k & Hk & ?). by apply (Hx k).
    + rewrite lookup_insert_ne; [done|]. intros ->. by apply (Hx i).
  - intros x. destruct (decide (x = p)) as [->|Hne].
    + by rewrite HP, lookup_insert_eq.
    + rewrite lookup_insert_ne by done. by destruct (procs !! x).
Qed.

(** What a step of the scheduler leaves behind when it may have lost the
    top queue: [X] constrains the PCBs and queues if it did not. *)
Definition sched_after s T R s' (X : gmap Z Process → (Z → list Z) → Prop) : Prop :=
  ∃ T' R', sframe T s s' ∧ lost_some T' T ∧ sched_rep s' T' R' ∧
    ready_ok (k_procs s') (idle_proc s') R' ∧
    unqueued_kept R (k_procs s) R' (k_procs s') ∧
    ((∀ i, is_prio i → T' i ≠ NULL) → X (k_procs s') R').

Lemma aging_loop_spec l : ∀ fuel pre s T R i,
  sched_rep s T R → ready_ok (k_procs s) (idle_proc s) R →
  is_prio i → i ≠ MAX_PRIORITY → T i ≠ NULL → R i = pre ++ l → l ≠ [] →
  has_queue s (T i) (pre ++ l) (Some (length pre)) → (length l < fuel)%nat →
  wp true (aging_loop fuel (T i)) (λ _ s', sched_after s T R s' (λ procs' R',
    let '(ps, kept, boosted) := age_walk (k_procs s) (bool_decide (pre = [])) l in
    procs' = ps ∧ ∀ j, is_prio j →
      R' j = fupd (fupd R i (pre ++ kept)) MAX_PRIORITY (R MAX_PRIORITY ++ boosted) j)) s.
Proof.
  induction l as [|p l IH]; intros [|fuel] pre s T R i Hrep Hready Hi H3 HTi HRi Hl Hq Hf;
    simpl in Hf; try lia; [done|].
  assert (p ∈ R i) as Hpi by (rewrite HRi; set_solver).
  destruct (ready_ok_lookup _ _ _ _ _ Hready Hi Hpi) as (P & HP & HsP & HpP & Hstk & Hp0 & Hpid).
  cbn [aging_loop]. wp_step. eapply wp_nextIter; [exact Hq| |].
  { by rewrite list_lookup_middle. }
  intros s1 Hf1 Hq1. rewrite decide_False by done.
  set (it1 := if decide (S (length pre) < length (pre ++ p :: l))%nat
              then S (length pre) else O) in Hq1.
  assert (k_procs s1 = k_procs s ∧ idle_proc s1 = idle_proc s) as [Hps1 Hid1].
  { by destruct Hf1 as (mm & qs & -> & _). }
  assert (sched_rep s1 T R) as Hrep1.
  { eapply sched_rep_ext; [done| |eapply sched_rep_queue; [exact Hrep|done|done|exact Hq1]].
    intros j _. unfold fupd. case_decide; [by subst|done]. }
  pose proof (sframe_qframe T _ _ i Hi Hf1) as Hsf1.
  wp_step. eapply wp_deref; [rewrite Hps1; exact HP|]. wp_step. wp_step.
  rewrite decide_False by (rewrite Hid1; naive_solver).
  wp_step. eapply wp_upd_proc; [rewrite Hps1; exact HP|].
  set (w := i32 (wait_ticks P + 1)). set (s2 := set_k_procs _ s1).
  assert (k_procs s2 = <[p := set_wait_ticks w P]> (k_procs s)) as Hps2.
  { unfold s2. simpl. by rewrite Hps1. }
  assert (sched_rep s2 T R) as Hrep2 by (by apply sched_rep_procs).
  assert (ready_ok (k_procs s2) (idle_proc s2) R) as Hready2.
  { rewrite Hps2. unfold s2. simpl. rewrite Hid1.
    apply ready_ok_insert with P; [done..|]. intros j Hj Hin.
    rewrite (ready_ok_level _ _ _ _ _ _ Hready Hj Hi Hin Hpi). done. }
  assert (sframe T s s2) as Hsf2.
  { eapply sframe_trans; [exact Hsf1|apply sframe_procs|apply lost_some_refl]. }
  assert (k_procs s2 !! p = Some (set_wait_ticks w P)) as HP2.
  { rewrite Hps2. apply lookup_insert_eq. }
  wp_step. eapply wp_deref; [exact HP2|]. wp_step.
  cbn [age_walk]. rewrite HP. fold w. simpl.
  assert (length (pre ++ p :: l) = S (length pre + length l)) as Hlen.
  { rewrite length_app. simpl. lia. }
  destruct (decide (AGING_THRESHOLD ≤ w)) as [Hw|Hw].
  - (* boosted *)
    eapply boost_spec; [exact Hrep2|exact Hready2|done|done|done|done|exact Hq1|exact HP2|].
    intros s3 T3 R3 Hsf3 Hps3 Hq3 Hrep3 Hready3 Hcase.
    rewrite Hps2 in Hps3. rewrite insert_insert_eq in Hps3.
    change (set_wait_ticks 0 (set_priority MAX_PRIORITY (set_wait_ticks w P)))
      with (set_wait_ticks 0 (set_priority MAX_PRIORITY P)) in Hps3.
    assert (lost_some T3 T) as Hlost.
    { destruct Hcase as [[-> _]|[-> _]]; [apply lost_some_refl|apply lost_some_null]. }
    assert (T3 i = T i) as HT3.
    { destruct Hcase as [[-> _]|[-> _]]; [done|by apply fupd_ne]. }
    assert (R3 i = pre ++ l) as HR3.
    { destruct Hcase as [[_ ->]|[_ ->]]; rewrite fupd_ne by done; apply fupd_eq. }
    assert (sframe T s s3) as Hsf.
    { eapply sframe_trans; [exact Hsf2|exact Hsf3|apply lost_some_refl]. }
    unfold it1 in Hq3. rewrite iter_after_remove in Hq3 by lia.
    rewrite Hlen in Hq3.
    assert (unqueued_kept R (k_procs s) R3 (k_procs s3)) as Hunq.
    { rewrite Hps3. apply unqueued_kept_insert with i P; [done|done| |done|done].
      assert (∀ j x, is_prio j → x ∈ fupd R i (pre ++ l) j → ∃ k, is_prio k ∧ x ∈ R k) as Hs.
      { intros j x Hj. unfold fupd. destruct (decide (j = i)); [|by eauto].
        intros Hx. exists i. split; [done|]. rewrite HRi. set_solver. }
      intros j x Hj Hx. destruct Hcase as [[_ ->]|[_ ->]]; unfold fupd at 1 in Hx;
        destruct (decide (j = MAX_PRIORITY)); try by apply (Hs j).
      - apply elem_of_app in Hx as [?| ->%list_elem_of_singleton];
          [by exists MAX_PRIORITY|by exists i].
      - by apply elem_of_nil in Hx. }
    assert (∀ s', sframe T s s' → k_procs s' = k_procs s3 → idle_proc s' = idle_proc s3 →
      sched_rep s' T3 R3 → (l = [] ∨ pre = []) →
      sched_after s T R s' (λ procs' R',
        let '(ps, kept, boosted) :=
          if bool_decide (pre = []) then (k_procs s3, l, [p])
          else let '(procs', kept, boosted) := age_walk (k_procs s3) false l in
               (procs', kept, p :: boosted) in
        procs' = ps ∧ ∀ j, is_prio j →
          R' j = fupd (fupd R i (pre ++ kept)) MAX_PRIORITY
                   (R MAX_PRIORITY ++ boosted) j)) as Hdone.
    { intros s' Hsf' Hps' Hid' Hrep' Hend. exists T3, R3. split; [done|].
      split; [done|]. split; [done|]. rewrite Hps', Hid'. split; [done|].
      split; [done|]. intros Hnl. assert (R3 = fupd (fupd R i (pre ++ l)) MAX_PRIORITY
        (R MAX_PRIORITY ++ [p])) as ->.
      { destruct Hcase as [[_ ->]|[-> _]]; [done|].
        exfalso. apply (Hnl MAX_PRIORITY); [done|]. apply fupd_eq. }
      case_bool_decide; [done|]. destruct Hend as [->|]; [|done]. done. }
    rewrite <-Hps3.
    destruct (decide (l = [])) as [->|Hlne].
    + rewrite decide_False in Hq3 by (simpl; lia).
      destruct (decide (pre = [])) as [->|Hpre].
      * (* the only entry was boosted: the iterator is unset *)
        rewrite decide_True in Hq3 by done. wp_step. eapply wp_iterLooped; [exact Hq3|].
        rewrite (bool_decide_false (None = Some O)) by done.
        destruct fuel as [|fuel]; [simpl in Hf; lia|]. cbn [aging_loop].
        wp_step. eapply wp_nextIter_none; [exact Hq3|]. intros s4 Hf4 Hq4. wp_step.
        apply Hdone; [|by destruct Hf4 as (? & ? & -> & _)..| |by left].
        { eapply sframe_trans; [exact Hsf|by eapply sframe_qframe|apply lost_some_refl]. }
        rewrite <-HT3 in Hf4, Hq4. eapply sched_rep_ext; [done| |].
        2: { eapply sched_rep_queue; [exact Hrep3|exact Hi|exact Hf4|exact Hq4]. }
        intros j _. unfold fupd. case_decide; [by subst|done].
      * (* the last entry was boosted *)
        rewrite decide_False in Hq3 by (by intros ?%nil_length_inv).
        wp_step. eapply wp_iterLooped; [exact Hq3|].
        rewrite (bool_decide_true (Some O = Some O)) by done. wp_step. apply Hdone; auto.
    + rewrite decide_True in Hq3 by (destruct l; [done|simpl; lia]).
      destruct (decide (pre = [])) as [->|Hpre].
      * (* the head was boosted and the pass stops *)
        wp_step. eapply wp_iterLooped; [exact Hq3|].
        rewrite (bool_decide_true (Some O = Some O)) by done. wp_step. apply Hdone; auto.
      * (* go on with the next entry *)
        wp_step. eapply wp_iterLooped; [exact Hq3|].
        rewrite bool_decide_false by (intros [= ?%nil_length_inv]; done).
        rewrite (bool_decide_false (pre = [])) by done.
        rewrite <-HT3 in Hq3 |- *.
        eapply wp_mono.
        { apply (IH fuel pre s3 T3 R3 i); try done; [by rewrite HT3|lia]. }
        intros _ s4 (T4 & R4 & Hsf4 & Hl4 & Hr4 & Hro4 & Hu4 & HX).
        exists T4, R4. split; [by eapply sframe_trans|].
        split; [by eapply lost_some_trans|]. split; [done|]. split; [done|].
        split; [by eapply unqueued_kept_trans|].
        intros Hnl. specialize (HX Hnl). rewrite bool_decide_false in HX by done.
        destruct (age_walk (k_procs s3) false l) as [[ps kept] boosted].
        destruct HX as [-> HR4]. split; [done|]. intros j Hj. rewrite HR4 by done.
        destruct Hcase as [[-> ->]|[-> _]].
        2: { exfalso. apply (Hnl MAX_PRIORITY); [done|].
             destruct (Hl4 MAX_PRIORITY) as [->| ->]; [done| |done]. apply fupd_eq. }
        rewrite fupd_eq. unfold fupd. repeat case_decide; try done.
        by rewrite <-app_assoc.
  - (* only ticked *)
    assert (unqueued_kept R (k_procs s) R (k_procs s2)) as Hunq.
    { rewrite Hps2. apply unqueued_kept_insert with i P; [done|done|eauto|done|done]. }
    assert (sched_after s T R s2 (λ procs' R', procs' = k_procs s2 ∧ R' = R)) as Hhere.
    { exists T, R. split_and!; auto using lost_some_refl. }
    wp_step. wp_step. unfold it1 in Hq1. rewrite Hlen in Hq1.
    destruct (decide (l = [])) as [->|Hlne].
    + rewrite decide_False in Hq1 by (simpl; lia). eapply wp_iterLooped; [exact Hq1|]. cbv beta.
      rewrite (bool_decide_true (Some O = Some O)) by done.
      wp_step. destruct Hhere as (T' & R' & ? & ? & ? & ? & ? & HX).
      exists T', R'. split_and!; try done. intros Hnl. destruct (HX Hnl) as [_ ->].
      cbn [age_walk]. rewrite Hps2. split; [done|]. intros j _. rewrite app_nil_r. rewrite <-HRi.
      unfold fupd. repeat case_decide; by subst.
    + rewrite decide_True in Hq1 by (destruct l; [done|simpl; lia]).
      eapply wp_iterLooped; [exact Hq1|]. cbv beta. rewrite (bool_decide_false (_ = Some O)) by done.
      rewrite cons_middle, app_assoc in HRi, Hq1.
      assert (has_queue s2 (T i) ((pre ++ [p]) ++ l) (Some (length (pre ++ [p])))) as Hq2.
      { apply has_queue_procs. rewrite length_app. simpl.
        by replace (length pre + 1)%nat with (S (length pre)) by lia. }
      eapply wp_mono.
      { apply (IH fuel (pre ++ [p]) s2 T R i); try done. lia. }
      intros _ s4 (T4 & R4 & Hsf4 & Hl4 & Hr4 & Hro4 & Hu4 & HX).
      exists T4, R4. split; [by eapply sframe_trans; [..|apply lost_some_refl]|].
      split; [done|]. split; [done|]. split; [done|].
      split; [by eapply unqueued_kept_trans|].
      intros Hnl. specialize (HX Hnl). rewrite Hps2 in HX.
      rewrite bool_decide_false in HX by (by intros [_ ?]%app_nil).
      destruct (age_walk _ false l) as [[ps kept] boosted].
      destruct HX as [-> HR4]. split; [done|]. intros j Hj. rewrite HR4 by done.
      by rewrite <-app_assoc.
Qed.
End aging.

(** ** The scheduler's steps refine the abstract ones *)

(** PCBs and queues are those of the abstract state [a]. *)
Definition agrees (a : sched) (procs : gmap Z Process) (R : Z → list Z) : Prop :=
  procs = sc_procs a ∧ ∀ i, is_prio i → R i = sc_ready a i.

Lemma agrees_age_level a procs R run i :
  agrees a procs R → is_prio i →
  agrees (age_level i a) (sc_procs (age_level i (Sched procs R run)))
    (sc_ready (age_level i (Sched procs R run))).
Proof.
  intros [-> HR] Hi. unfold age_level. simpl. rewrite HR by done.
  destruct (age_walk _ _ _) as [[ps kept] boosted]. split; [done|]. simpl.
  intros j Hj. unfold fupd. repeat case_decide; try done.
  - by rewrite HR.
  - by apply HR.
Qed.

Section schedule.
Context {St : Type} `{MemoryManager St}.
Implicit Types (s : kst St) (T : Z → Z) (R : Z → list Z).

Lemma age_queue_spec s T R i run :
  sched_rep s T R → ready_ok (k_procs s) (idle_proc s) R → is_prio i → i ≠ MAX_PRIORITY →
  wp true (age_queue i) (λ _ s', sched_after s T R s'
    (agrees (age_level i (Sched (k_procs s) R run)))) s.
Proof.
  intros Hrep Hready Hi H3. unfold age_queue. wp_step. eapply wp_get_pq; [done|done|].
  assert (R i = [] → sched_after s T R s
    (agrees (age_level i (Sched (k_procs s) R run)))) as Hempty.
  { intros HRi. exists T, R. split; [apply sframe_refl|]. split; [apply lost_some_refl|].
    split; [done|]. split; [done|]. split; [by split; [|apply aged_refl]|].
    intros _. unfold age_level. simpl. rewrite HRi. simpl. split; [done|].
    intros j _. simpl. rewrite app_nil_r. unfold fupd. repeat case_decide; by subst. }
  case_decide as HTi.
  { wp_step. apply Hempty. by apply (sr_null _ _ _ Hrep). }
  destruct (sr_queue _ _ _ Hrep i Hi HTi) as [it Hq].
  wp_step. eapply wp_isEmpty; [exact Hq|]. case_bool_decide as HRi.
  { wp_step. by apply Hempty. }
  wp_step. eapply wp_beginIter; [exact Hq|done|]. intros s1 Hf1 Hq1.
  assert (sched_rep s1 T R) as Hrep1.
  { eapply sched_rep_ext; [done| |eapply sched_rep_queue; [exact Hrep|done|done|exact Hq1]].
    intros j _. unfold fupd. case_decide; [by subst|done]. }
  pose proof (sframe_qframe T _ _ i Hi Hf1) as Hsf1.
  assert (k_procs s1 = k_procs s ∧ idle_proc s1 = idle_proc s) as [Hps1 Hid1].
  { by destruct Hf1 as (mm & qs & -> & _). }
  pose proof Hq1 as (_ & Q & HQ & HQl & _).
  wp_step. eapply wp_deref; [exact HQ|].
  rewrite <-q_vals_length, HQl.
  eapply wp_mono.
  { apply (aging_loop_spec (R i) _ [] s1 T R i); try done.
    - by rewrite Hps1, Hid1.
    - unfold aging_fuel. lia. }
  intros _ s2 (T2 & R2 & Hsf2 & Hl2 & Hr2 & Hro2 & Hu2 & HX).
  exists T2, R2. split; [by eapply sframe_trans; [..|apply lost_some_refl]|].
  split; [done|]. split; [done|]. split; [done|]. rewrite Hps1 in *. split; [done|].
  intros Hnl. specialize (HX Hnl). unfold age_level. simpl in *.
  destruct (age_walk _ true (R i)) as [[ps kept] boosted].
  destruct HX as [-> HR2]. split; [done|]. intros j Hj. simpl. by rewrite HR2.
Qed.

Lemma sched_after_step s T R s1 s2 T1 R1 X :
  sframe T s s1 → lost_some T1 T → unqueued_kept R (k_procs s) R1 (k_procs s1) →
  sched_after s1 T1 R1 s2 X → sched_after s T R s2 X.
Proof.
  intros Hsf Hl Hu (T2 & R2 & Hsf2 & Hl2 & Hr2 & Hro2 & Hu2 & HX).
  exists T2, R2. split; [by eapply sframe_trans|]. split; [by eapply lost_some_trans|].
  split; [done|]. split; [done|]. split; [by eapply unqueued_kept_trans|done].
Qed.

(** When a later table has no lost queue, neither had an earlier one. *)
Lemma lost_some_all T' T :
  lost_some T' T → (∀ i, is_prio i → T' i ≠ NULL) → ∀ i, is_prio i → T i ≠ NULL.
Proof. intros Hl Hn i Hi E. destruct (Hl i Hi) as [E'|E']; apply (Hn i Hi); congruence. Qed.

Lemma age_next s T R s1 i a (run : Z) :
  sched_after s T R s1 (agrees a) → is_prio i → i ≠ MAX_PRIORITY →
  wp true (age_queue i) (λ _ s2, sched_after s T R s2 (agrees (age_level i a))) s1.
Proof.
  intros (T1 & R1 & Hsf1 & Hl1 & Hr1 & Hro1 & Hu1 & HX1) Hi H3.
  eapply wp_mono; [by apply (age_queue_spec s1 T1 R1 i run)|].
  intros _ s2 (T2 & R2 & Hsf2 & Hl2 & Hr2 & Hro2 & Hu2 & HX2).
  exists T2, R2. split; [by eapply sframe_trans|]. split; [by eapply lost_some_trans|].
  split; [done|]. split; [done|]. split; [by eapply unqueued_kept_trans|].
  intros Hnl. pose proof (HX2 Hnl) as [Hp HR].
  pose proof (HX1 (lost_some_all _ _ Hl2 Hnl)) as Ha.
  pose proof (agrees_age_level a _ _ run i Ha Hi) as [Hp' HR'].
  split; [congruence|]. intros j Hj. by rewrite HR, HR'.
Qed.

Lemma apply_aging_spec s T R run :
  sched_rep s T R → ready_ok (k_procs s) (idle_proc s) R →
  wp true apply_aging (λ _ s', sched_after s T R s'
    (agrees (age (Sched (k_procs s) R run)))) s.
Proof.
  intros Hrep Hready. unfold apply_aging.
  change (Z.to_nat _) with 3%nat. cbn [kfor].
  change (MIN_PRIORITY + 1 + 1) with 2. change (MIN_PRIORITY + 1) with 1.
  change MIN_PRIORITY with 0.
  wp_step. eapply wp_mono; [by apply (age_queue_spec s T R 0 run)|]. intros [] s1 H1.
  wp_step. eapply wp_mono; [by apply (age_next s T R s1 1 _ run H1)|]. intros [] s2 H2.
  wp_step. eapply wp_mono; [by apply (age_next s T R s2 2 _ run H2)|]. intros [] s3 H3.
  wp_step. exact H3.
Qed.

(** The scheduled process is not READY (so it is in no queue). *)
Definition running_ok (procs : gmap Z Process) (running : Z) : Prop :=
  running = NULL ∨
  ∃ P, procs !! running = Some P ∧ state P ≠ READY ∧ is_prio (priority P).

(** The stack pointer it is interrupted at is in its stack. *)
Definition rsp_ok (procs : gmap Z Process) (idle running r : Z) : Prop :=
  ∀ P, running ≠ idle → procs !! running = Some P → stack_ok (set_rsp r P).

Definition idle_ok (I : Process) : Prop := is_prio (priority I) ∧ state I ≠ TERMINATED.

(** The scheduler's data between two interrupts. *)
Record sched_inv s T R : Prop := {
  si_online : scheduler_online s = true;
  si_rep : sched_rep s T R;
  si_ready : ready_ok (k_procs s) (idle_proc s) R;
  si_running : running_ok (k_procs s) (running_process s);
  si_idle : idle_proc s ≠ NULL;
  si_idle_pcb : ∃ I, k_procs s !! idle_proc s = Some I ∧ idle_ok I;
}.

Lemma running_unqueued procs idle R p P :
  ready_ok procs idle R → procs !! p = Some P → state P ≠ READY → unqueued R p.
Proof.
  intros Hr HP Hst i Hi Hin.
  destruct (ready_ok_lookup _ _ _ _ _ Hr Hi Hin) as (P' & HP' & ? & _). naive_solver.
Qed.

Lemma idle_unqueued procs idle R : ready_ok procs idle R → unqueued R idle.
Proof.
  intros Hr i Hi Hin.
  destruct (ready_ok_lookup _ _ _ _ _ Hr Hi Hin) as (P' & HP' & ? & ? & ? & ? & ?). done.
Qed.

(** A ready process appended to its level. *)
Lemma ready_ok_append procs idle R p P :
  ready_ok procs idle R → procs !! p = Some P → p ≠ NULL → p ≠ idle → state P = READY →
  is_prio (priority P) → stack_ok P → unqueued R p →
  ready_ok procs idle (fupd R (priority P) (R (priority P) ++ [p])).
Proof.
  intros Hr HP Hn Hid Hst Hpr Hok Hun. constructor; [| |by apply (ro_pids _ _ _ Hr)].
  - intros j Hj. unfold fupd. case_decide; [|by apply (ro_nodup _ _ _ Hr)].
    apply NoDup_app. split; [by apply (ro_nodup _ _ _ Hr)|]. split; [|apply NoDup_singleton].
    intros x Hx ->%list_elem_of_singleton. by apply (Hun (priority P)).
  - intros j x Hj. unfold fupd. case_decide as E; [subst j|by apply (ro_queued _ _ _ Hr)].
    intros [Hx| ->%list_elem_of_singleton]%elem_of_app; [by apply (ro_queued _ _ _ Hr)|].
    constructor; [done..|]. by exists P.
Qed.

Lemma add_to_scheduler_spec s T R p P (Q : unit → kst St → Prop) :
  sched_rep s T R → ready_ok (k_procs s) (idle_proc s) R →
  k_procs s !! p = Some P → state P ≠ TERMINATED → is_prio (priority P) → p ≠ NULL →
  (p ≠ idle_proc s → stack_ok P) → unqueued R p →
  (p = idle_proc s → Q tt s) →
  (∀ s' T' R', p ≠ idle_proc s → sframe T s s' →
     k_procs s' = <[p := set_state READY P]> (k_procs s) →
     lost_some T' T → sched_rep s' T' R' → ready_ok (k_procs s') (idle_proc s') R' →
     (∀ x, x ≠ p → unqueued R x → unqueued R' x) →
     ((∀ i, is_prio i → T' i ≠ NULL) →
        R' = fupd R (priority P) (R (priority P) ++ [p])) → Q tt s') →
  wp true (add_to_scheduler p) Q s.
Proof.
  intros Hrep Hready HP Hst Hpr Hn Hok Hun Hidle HQ. unfold add_to_scheduler.
  wp_step. wp_step. case_decide as Hd.
  { wp_step. apply Hidle. by destruct Hd. }
  assert (p ≠ idle_proc s) as Hid by tauto.
  wp_step. eapply wp_upd_proc; [exact HP|].
  set (s1 := set_k_procs _ s). assert (k_procs s1 = <[p := set_state READY P]> (k_procs s)) as Hp1
    by done.
  assert (k_procs s1 !! p = Some (set_state READY P)) as HP1 by (rewrite Hp1; apply lookup_insert_eq).
  assert (sched_rep s1 T R) as Hrep1 by (by apply sched_rep_procs).
  assert (ready_ok (k_procs s1) (idle_proc s1) R) as Hready1.
  { rewrite Hp1. apply ready_ok_insert with P; [done..|]. intros i Hi Hin.
    exfalso. by apply (Hun i). }
  wp_step. eapply wp_deref; [exact HP1|]. wp_step.
  eapply wp_get_pq; [exact Hrep1|done|].
  change (priority (set_state READY P)) with (priority P).
  case_decide as HT; [wp_step|]. apply wp_bind2. eapply wp_requeue; [done..|].
  intros s2 Hsf2 Hps2 _ Hr2. wp_step.
  assert (idle_proc s2 = idle_proc s) as Hid2 by (by destruct Hsf2 as (? & ? & ? & ? & -> & _)).
  assert (ready_ok (k_procs s2) (idle_proc s2)
    (fupd R (priority P) (R (priority P) ++ [p]))) as Hro2.
  { rewrite Hps2, Hid2. by apply (ready_ok_append _ _ _ _ (set_state READY P)); auto. }
  assert (∀ x, x ≠ p → unqueued R x →
    unqueued (fupd R (priority P) (R (priority P) ++ [p])) x) as Hunq.
  { intros x Hx Hux i Hi. unfold fupd. case_decide; [|by apply Hux].
    intros [?| ->%list_elem_of_singleton]%elem_of_app; [by apply (Hux (priority P))|done]. }
  assert (sframe T s s2) as Hsf by (eapply sframe_trans; [apply sframe_procs|exact Hsf2|
    apply lost_some_refl]).
  destruct Hr2 as [Hr2|Hr2].
  - eapply HQ; try done; try by rewrite Hps2. apply lost_some_refl.
  - eapply HQ; try exact Hr2; try done; try by rewrite Hps2.
    + apply lost_some_null.
    + eapply ready_ok_sub; [exact Hro2|..].
      * intros i Hi. unfold fupd. case_decide; [constructor|by apply (ro_nodup _ _ _ Hready)].
      * intros i x Hi. unfold fupd. case_decide; [by intros ?%elem_of_nil|done].
    + intros x Hx Hux i Hi. unfold fupd. case_decide; [by intros ?%elem_of_nil|by apply Hux].
    + intros Hnl. exfalso. apply (Hnl (priority P)); [done|]. apply fupd_eq.
Qed.

(** What may change across a whole [schedule]. *)
Definition rframe T s s' : Prop := ∃ s1 r, sframe T s s1 ∧ s' = set_running_process r s1.

Lemma rframe_sframe T s s' : sframe T s s' → rframe T s s'.
Proof. intros Hf. exists s', (running_process s'). split; [done|]. by destruct s'. Qed.

Lemma sched_rep_running s T R r : sched_rep s T R → sched_rep (set_running_process r s) T R.
Proof. intros [H1 H2 H3 H4]. by constructor. Qed.

Lemma sframe_fields T s s' :
  sframe T s s' → idle_proc s' = idle_proc s ∧ running_process s' = running_process s ∧
    scheduler_online s' = scheduler_online s.
Proof. by intros (? & ? & ? & ? & -> & _). Qed.

(** A process that cannot be scheduled. *)
Definition waiting (P : Process) : Prop := state P = BLOCKED ∨ state P = TERMINATED.

Definition set_queued r P := set_state READY
  (set_quantum_remaining DEFAULT_QUANTUM (set_rsp r P)).

(** [save_running], in a state whose PCBs and queues are those of [a]. *)
Lemma save_running_spec s T R rsp0 (Q : bool → kst St → Prop) :
  sched_rep s T R → ready_ok (k_procs s) (idle_proc s) R →
  running_ok (k_procs s) (running_process s) →
  rsp_ok (k_procs s) (idle_proc s) (running_process s) rsp0 →
  (∀ b s' T' R',
     rframe T s s' → lost_some T' T → sched_rep s' T' R' →
     ready_ok (k_procs s') (idle_proc s') R' →
     (b = true → running_process s' = running_process s ∧
       ∃ P, k_procs s' !! running_process s' = Some P ∧ state P = RUNNING ∧
        is_prio (priority P) ∧ rsp P = rsp0 ∧ 0 < quantum_remaining P) →
     (∀ x, x ≠ running_process s → k_procs s' !! x = k_procs s !! x) →
     (∀ X, k_procs s !! running_process s = Some X →
        ∃ X', k_procs s' !! running_process s = Some X' ∧ (idle_ok X → idle_ok X') ∧
          (waiting X → state X' = state X)) →
     ((∀ i, is_prio i → T' i ≠ NULL) →
        let '(keep, a) := save (idle_proc s) rsp0 (Sched (k_procs s) R (running_process s)) in
        b = keep ∧ agrees a (k_procs s') R' ∧ (keep = true → running_process s' = sc_running a)) →
     Q b s') →
  wp true (save_running rsp0) Q s.
Proof.
  intros Hrep Hready Hrun Hrsp HQ. unfold save_running. wp_step. wp_step.
  unfold save in HQ. cbn [sc_running sc_procs sc_ready] in HQ.
  case_decide as Hn.
  { wp_step. apply (HQ false s T R); try done.
    - apply rframe_sframe, sframe_refl.
    - apply lost_some_refl.
    - intros X HX. by exists X. }
  destruct Hrun as [|(P & HP & Hst & Hpr)]; [done|]. rewrite HP in HQ.
  set (r := running_process s) in *.
  pose proof (running_unqueued _ _ _ _ _ Hready HP Hst) as Hun.
  assert (∀ P' , pid P' = pid P → (state P' ≠ TERMINATED → state P ≠ TERMINATED) →
    ready_ok (<[r := P']> (k_procs s)) (idle_proc s) R) as Hins.
  { intros P' Hpid Hs. apply ready_ok_insert with P; [done..|]. intros i Hi Hin.
    exfalso. by apply (Hun i). }
  assert (∀ (P' : Process) x, x ≠ r → <[r := P']> (k_procs s) !! x = k_procs s !! x) as Hkeep.
  { intros P' x Hx. by rewrite lookup_insert_ne. }
  wp_step. eapply wp_upd_proc; [exact HP|]. wp_step. eapply wp_deref; [apply lookup_insert_eq|].
  cbv beta. change (state (set_rsp rsp0 P)) with (state P).
  assert (∀ nr P', pid P' = pid P → priority P' = priority P →
    (state P' ≠ TERMINATED ↔ state P ≠ TERMINATED) → (waiting P → state P' = state P) →
    let s' := set_running_process nr (set_k_procs (<[r := P']> (k_procs s)) s) in
    rframe T s s' ∧ lost_some T T ∧ sched_rep s' T R ∧
    ready_ok (k_procs s') (idle_proc s') R ∧
    (∀ x, x ≠ r → k_procs s' !! x = k_procs s !! x) ∧
    (∀ X, Some P = Some X → ∃ X', k_procs s' !! r = Some X' ∧ (idle_ok X → idle_ok X') ∧
       (waiting X → state X' = state X))) as Hsimple.
  { intros nr P' Hpid Hpr' Hnt Hw. split_and!.
    - eexists _, nr. split; [apply sframe_procs|done].
    - apply lost_some_refl.
    - by apply sched_rep_running, sched_rep_procs.
    - simpl. apply Hins; [done|by apply Hnt].
    - simpl. auto.
    - intros X [= <-]. exists P'. simpl. rewrite lookup_insert_eq. split; [done|].
      split; [|done]. unfold idle_ok. rewrite Hpr', Hnt. naive_solver. }
  destruct (state P) eqn:HsP; [done| | |].
  - (* RUNNING *)
    change (quantum_remaining (set_rsp rsp0 P)) with (quantum_remaining P).
    set (q := i32 (quantum_remaining P - 1)) in *.
    wp_step. eapply wp_upd_proc; [apply lookup_insert_eq|]. simpl. rewrite insert_insert_eq.
    case_decide as Hq.
    + wp_step. destruct (Hsimple r (set_quantum_remaining q (set_rsp rsp0 P)))
        as (Hf & Hl & Hr & Ho & Hk & Hp); [done|done|simpl; rewrite ?HsP; done|unfold waiting; simpl; rewrite ?HsP; by intros [|]|].
      change (set_k_procs ?ps (set_k_procs ?qs s)) with (set_k_procs ps s).
      change (set_k_procs ?ps s) with (set_running_process r (set_k_procs ps s)).
      eapply (HQ true); try done.
      intros _. split; [done|]. eexists. simpl. rewrite lookup_insert_eq.
      split; [done|]. by split.
    + wp_step. eapply wp_upd_proc; [apply lookup_insert_eq|]. simpl. rewrite insert_insert_eq.
      wp_step. eapply wp_upd_proc; [apply lookup_insert_eq|]. simpl. rewrite insert_insert_eq.
      change (set_k_procs ?ps (set_k_procs ?qs s)) with (set_k_procs ps s).
      change (set_state READY _) with (set_queued rsp0 P).
      set (s1 := set_k_procs (<[r := set_queued rsp0 P]> (k_procs s)) s).
      destruct (Hsimple r (set_queued rsp0 P)) as (Hf & Hl & Hr & Ho & Hk & Hp);
        [done|done|simpl; rewrite ?HsP; done|unfold waiting; simpl; rewrite ?HsP; by intros [|]|].
      change (set_running_process r _) with s1 in Hf, Hr, Ho, Hk, Hp. cbv zeta in *.
      wp_step. eapply (add_to_scheduler_spec s1 T R r (set_queued rsp0 P)); try done.
      * apply lookup_insert_eq.
      * intros Hid. by apply (Hrsp P).
      * (* idle goes back to no queue *)
        intros Hid. wp_step. eapply (HQ false); try done.
        change (idle_proc s1) with (idle_proc s) in Hid. intros _.
        rewrite decide_True by done. split; [done|]. split; [|done]. by split.
      * intros s2 T2 R2 Hid Hsf Hps Hl2 Hr2 Hro2 Hun2 HX.
        change (idle_proc s1) with (idle_proc s) in Hid.
        assert (k_procs s2 = <[r := set_queued rsp0 P]> (k_procs s)) as Hps2.
        { rewrite Hps. simpl. apply insert_insert_eq. }
        wp_step. eapply (HQ false s2 T2 R2); try done.
        -- apply rframe_sframe. eapply sframe_trans; [|exact Hsf|apply lost_some_refl].
           apply sframe_procs.
        -- by rewrite Hps2.
        -- intros X [= <-]. exists (set_queued rsp0 P). rewrite Hps2, lookup_insert_eq.
           split; [done|]. split; [by intros [? ?]|].
           intros [Hw|Hw]; rewrite HsP in Hw; done.
        -- intros Hnl. rewrite decide_False by done. split; [done|]. split; [|done].
           split; [done|]. intros j _. by rewrite (HX Hnl).
  - (* BLOCKED *)
    wp_step. wp_step. wp_step.
    destruct (Hsimple NULL (set_rsp rsp0 P)) as (Hf & Hl & Hr & Ho & Hk & Hp);
      [done|done|simpl; rewrite ?HsP; done|unfold waiting; simpl; rewrite ?HsP; by intros [|]|].
    eapply (HQ false); try done.
  - (* TERMINATED *)
    wp_step. wp_step. wp_step.
    destruct (Hsimple NULL (set_rsp rsp0 P)) as (Hf & Hl & Hr & Ho & Hk & Hp);
      [done|done|simpl; rewrite ?HsP; done|unfold waiting; simpl; rewrite ?HsP; by intros [|]|].
    eapply (HQ false); try done.
Qed.

Lemma pick_from_spec s T R i (Q : Z → kst St → Prop) :
  sched_rep s T R → ready_ok (k_procs s) (idle_proc s) R → is_prio i →
  (R i = [] → Q NULL s) →
  (∀ p l s', R i = p :: l → sframe T s s' → k_procs s' = k_procs s →
     sched_rep s' T (fupd R i l) → Q p s') →
  wp true (pick_from i) Q s.
Proof.
  intros Hrep Hready Hi Hnil Hcons. unfold pick_from. wp_step. eapply wp_get_pq; [done|done|].
  case_decide as HTi.
  { wp_step. apply Hnil. by apply (sr_null _ _ _ Hrep). }
  destruct (sr_queue _ _ _ Hrep i Hi HTi) as [it Hq].
  pose proof Hq as (_ & Q0 & HQ0 & _).
  wp_step. eapply wp_deref; [exact HQ0|]. cbn [pick_loop].
  wp_step. eapply wp_isEmpty; [exact Hq|].
  destruct (R i) as [|p l] eqn:HRi.
  { rewrite bool_decide_true by done. wp_step. by apply Hnil. }
  rewrite bool_decide_false by done.
  wp_step. eapply wp_dequeue; [exact Hq|]. intros s1 it1 Hf1 Hq1.
  assert (p ∈ R i) as Hpi by (rewrite HRi; set_solver).
  destruct (ready_ok_lookup _ _ _ _ _ Hready Hi Hpi) as (P & HP & HsP & _ & _ & Hp0 & Hpid).
  assert (k_procs s1 = k_procs s ∧ idle_proc s1 = idle_proc s) as [Hps1 Hid1].
  { by destruct Hf1 as (mm & qs & -> & _). }
  wp_step. eapply wp_deref; [by rewrite Hps1|]. wp_step. wp_step. rewrite Hid1.
  rewrite decide_False by (by rewrite HsP). rewrite decide_True by done. wp_step.
  apply (Hcons p l); [done|by eapply sframe_qframe|done|by eapply sched_rep_queue].
Qed.

Lemma pick_spec n : ∀ i s T R (Q : Z → kst St → Prop),
  sched_rep s T R → ready_ok (k_procs s) (idle_proc s) R →
  i = Z.of_nat n - 1 → (n ≤ 4)%nat →
  (choose n i R = None → Q NULL s) →
  (∀ p R' s', choose n i R = Some (p, R') → sframe T s s' → k_procs s' = k_procs s →
     sched_rep s' T R' → Q p s') →
  wp true (pick n i) Q s.
Proof.
  induction n as [|n IH]; intros i s T R Q Hrep Hready Hi Hn4 Hnone Hsome; cbn [pick].
  - wp_step. by apply Hnone.
  - assert (is_prio i) as Hip by (unfold is_prio, MIN_PRIORITY, MAX_PRIORITY; lia).
    cbn [choose] in *. wp_step. eapply pick_from_spec; [done|done|done|..].
    + intros HRi. rewrite HRi in *. rewrite decide_True by done.
      apply IH with T R; try done; lia.
    + intros p l s' HRi Hsf Hps Hr. rewrite HRi in *.
      assert (p ∈ R i) as Hpi by (rewrite HRi; set_solver).
      destruct (ready_ok_lookup _ _ _ _ _ Hready Hip Hpi) as (P & _ & _ & _ & _ & Hp0 & _).
      rewrite decide_False by done. wp_step. by eapply Hsome.
Qed.

Lemma choose_none n : ∀ i R,
  i = Z.of_nat n - 1 → choose n i R = None → ∀ k, 0 ≤ k ≤ i → R k = [].
Proof.
  induction n as [|n IH]; intros i R Hi Hc k Hk; [lia|]. cbn [choose] in Hc.
  destruct (R i) as [|q l] eqn:HRi; [|done].
  destruct (decide (k = i)) as [->|]; [done|]. eapply (IH (i - 1)); [lia|done|lia].
Qed.

(** What [choose] takes out. *)
Lemma choose_some n : ∀ i R p R',
  i = Z.of_nat n - 1 → (n ≤ 4)%nat → choose n i R = Some (p, R') →
  ∃ j l, is_prio j ∧ j ≤ i ∧ R j = p :: l ∧ R' = fupd R j l ∧
    ∀ k, j < k ≤ i → R k = [].
Proof.
  induction n as [|n IH]; intros i R p R' Hi Hn Hc; [done|]. cbn [choose] in Hc.
  destruct (R i) as [|q l] eqn:HRi.
  - destruct (IH (i - 1) R p R') as (j & l & Hj & Hle & HRj & -> & Hk); [lia|lia|done|].
    exists j, l. split_and!; try done; [lia|]. intros k Hk'.
    destruct (decide (k = i)) as [->|]; [done|]. apply Hk. lia.
  - injection Hc as <- <-. exists i, l. unfold is_prio, MIN_PRIORITY, MAX_PRIORITY.
    split_and!; try done; try lia.
Qed.

Lemma choose_ready procs idle R p j l :
  ready_ok procs idle R → is_prio j → R j = p :: l →
  ready_ok procs idle (fupd R j l) ∧ unqueued (fupd R j l) p.
Proof.
  intros Hr Hj HRj. pose proof (ro_nodup _ _ _ Hr j Hj) as Hnd. rewrite HRj in Hnd.
  apply NoDup_cons in Hnd as [Hp Hnd]. split.
  - eapply ready_ok_sub; [exact Hr|..].
    + intros i Hi. unfold fupd. case_decide; [done|by apply (ro_nodup _ _ _ Hr)].
    + intros i x Hi. unfold fupd. case_decide; [|done]. subst. rewrite HRj. set_solver.
  - intros i Hi. unfold fupd. case_decide; [done|]. intros Hin.
    assert (p ∈ R j) as Hpj by (rewrite HRj; set_solver).
    by pose proof (ready_ok_level _ _ _ _ _ _ Hr Hi Hj Hin Hpj).
Qed.

(** [dispatch] of the chosen process ([p = idle] for none). *)
Lemma dispatch_spec s next (Q : Z → kst St → Prop) :
  (∃ I, k_procs s !! idle_proc s = Some I) → idle_proc s ≠ NULL →
  (next ≠ NULL → next ≠ idle_proc s ∧
     ∃ P, k_procs s !! next = Some P ∧ state P = READY ∧ stack_ok P) →
  (let '(r, a) := start (idle_proc s) (if decide (next = NULL) then None else Some next)
     (Sched (k_procs s) (λ _, []) (running_process s)) in
   Q r (set_running_process (sc_running a) (set_k_procs (sc_procs a) s))) →
  wp true (dispatch next) Q s.
Proof.
  intros [I HI] Hid Hnext HQ. unfold dispatch, start in *. case_decide as Hn; simpl in HQ.
  - rewrite HI in HQ. unfold started in HQ. rewrite decide_True in HQ by done. unfold run_idle.
    wp_step. wp_step. wp_step. eapply wp_upd_proc; [exact HI|]. wp_step. wp_step.
    wp_step. eapply wp_deref; [apply lookup_insert_eq|]. wp_step. exact HQ.
  - destruct (Hnext Hn) as (Hne & P & HP & Hst & [Hok1 Hok2]).
    rewrite HP in HQ. unfold started in HQ.
    rewrite (decide_False (P:=next = idle_proc s)) in HQ by done.
    wp_step. eapply wp_deref; [exact HP|]. rewrite decide_False by naive_solver.
    wp_step. eapply wp_upd_proc; [exact HP|].
    wp_step. eapply wp_upd_proc; [apply lookup_insert_eq|]. simpl. rewrite insert_insert_eq.
    wp_step. wp_step. wp_step. unfold reset_aging. wp_step. wp_step. simpl.
    rewrite decide_False by naive_solver.
    eapply wp_upd_proc; [apply lookup_insert_eq|]. simpl. rewrite insert_insert_eq.
    wp_step. wp_step. simpl. wp_step. eapply wp_deref; [apply lookup_insert_eq|].
    cbv zeta beta. simpl. rewrite wrapu_small by (unfold PROCESS_STACK_SIZE in *; lia).
    rewrite decide_False by lia. wp_step. exact HQ.
Qed.

Lemma rframe_trans T T' s1 s2 s3 :
  rframe T s1 s2 → sframe T' s2 s3 → lost_some T' T → rframe T s1 s3.
Proof.
  intros (s' & r & Hsf & ->) Hsf2 Hl. exists (set_running_process (running_process s') s3), r.
  destruct Hsf as (m1 & q1 & a1 & p1 & -> & Hq1 & Ha1).
  destruct Hsf2 as (m2 & q2 & a2 & p2 & -> & Hq2 & Ha2). simpl in *. split; [|done].
  exists m2, q2, a2, p2. split; [done|]. split.
  - intros q Hq Hne. rewrite Hq2; [by apply Hq1|done|].
    intros i Hi. destruct (Hl i Hi) as [->| ->]; [by apply Hne|done].
  - intros a Ha. by rewrite Ha2, Ha1.
Qed.

(** [start] runs a process; the queues do not matter to it. *)
Lemma start_run idle next procs R run P :
  procs !! default idle next = Some P →
  start idle next (Sched procs R run) =
    (rsp P, Sched (<[default idle next := started idle (default idle next) P]> procs) R
      (default idle next)).
Proof. intros HP. unfold start. simpl. by rewrite HP. Qed.

Lemma started_fields idle p P :
  state (started idle p P) = RUNNING ∧ rsp (started idle p P) = rsp P ∧
  priority (started idle p P) = priority P ∧ pid (started idle p P) = pid P.
Proof. unfold started. by case_decide. Qed.

Definition chosen (next : Z) : option Z := if decide (next = NULL) then None else Some next.

Lemma dispatch_inv s T R next :
  scheduler_online s = true → sched_rep s T R → ready_ok (k_procs s) (idle_proc s) R →
  idle_proc s ≠ NULL → (∃ I, k_procs s !! idle_proc s = Some I ∧ idle_ok I) →
  (next ≠ NULL → next ≠ idle_proc s ∧ unqueued R next ∧
     ∃ P, k_procs s !! next = Some P ∧ state P = READY ∧ is_prio (priority P) ∧ stack_ok P) →
  wp true (dispatch next) (λ r s',
    sched_inv s' T R ∧ (∃ ps, s' = set_running_process (running_process s') (set_k_procs ps s)) ∧
    (∃ P, k_procs s' !! running_process s' = Some P ∧ state P = RUNNING ∧ rsp P = r) ∧
    ∀ R0 run, start (idle_proc s) (chosen next) (Sched (k_procs s) R0 run) =
      (r, Sched (k_procs s') R0 (running_process s'))) s.
Proof.
  intros Hon Hrep Hready Hid (I & HI & HIp & HIs) Hnext.
  assert (∃ P, k_procs s !! default (idle_proc s) (chosen next) = Some P ∧
    is_prio (priority P) ∧ state P ≠ TERMINATED ∧
    unqueued R (default (idle_proc s) (chosen next))) as (P & HP & Hpr & Hst & Hun).
  { unfold chosen. case_decide as Hn; simpl.
    - exists I. split_and!; try done. by eapply idle_unqueued.
    - destruct (Hnext Hn) as (_ & ? & P & ? & HsP & ? & _). exists P. by rewrite HsP. }
  apply dispatch_spec; [by eexists|done| |].
  { intros Hn. destruct (Hnext Hn) as (? & _ & P' & ? & ? & _ & ?). eauto. }
  change (if decide (next = NULL) then None else Some next) with (chosen next).
  rewrite (start_run _ _ _ _ _ _ HP). simpl.
  set (p := default (idle_proc s) (chosen next)) in *.
  destruct (started_fields (idle_proc s) p P) as (HsP' & HrP' & HpP' & Hpid).
  set (P' := started (idle_proc s) p P) in *.
  split_and!.
  - constructor; simpl; try done.
    + by apply sched_rep_running, sched_rep_procs.
    + apply ready_ok_insert with P; [done..|]. intros i Hi Hin. exfalso. by apply (Hun i).
    + right. exists P'. rewrite lookup_insert_eq, HsP', HpP'. done.
    + destruct (decide (idle_proc s = p)) as [E|E].
      * exists P'. rewrite E, lookup_insert_eq. unfold idle_ok. by rewrite HpP', HsP'.
      * exists I. by rewrite lookup_insert_ne.
  - by eexists.
  - exists P'. by rewrite lookup_insert_eq.
  - intros R0 run. by rewrite (start_run _ _ _ _ _ _ HP).
Qed.

Lemma rframe_dispatch T s s2 s3 ps r :
  rframe T s s2 → s3 = set_running_process r (set_k_procs ps s2) → rframe T s s3.
Proof.
  intros (s' & r' & Hsf' & ->) ->. exists (set_k_procs ps s'), r. split; [|done].
  eapply sframe_trans; [exact Hsf'|apply sframe_procs|apply lost_some_refl].
Qed.

(** [schedule] answered [r] from [s] and left [s'], with the queues [R']. *)
Record scheduled s T R rsp0 r s' T' R' : Prop := {
  sd_lost : lost_some T' T;
  sd_inv : sched_inv s' T' R';
  sd_frame : rframe T s s';
  sd_running : ∃ P, k_procs s' !! running_process s' = Some P ∧ state P = RUNNING ∧ rsp P = r;
  sd_resume : running_process s' ≠ running_process s →
    ∃ X, k_procs s !! running_process s' = Some X ∧ rsp X = r;
  sd_waiting : ∀ x X, k_procs s !! x = Some X → waiting X → x ≠ idle_proc s →
    ∃ X', k_procs s' !! x = Some X' ∧ state X' = state X ∧ x ≠ running_process s';
  sd_highest : ∀ P, k_procs s' !! running_process s' = Some P →
    running_process s' = running_process s ∧ 0 < quantum_remaining P ∧ r = rsp0 ∨
    ∀ i, is_prio i → running_process s' = idle_proc s ∨ priority P < i → R' i = [];
  sd_exact : (∀ i, is_prio i → T' i ≠ NULL) →
    let '(r0, a) := abs_schedule (idle_proc s) rsp0
      (Sched (k_procs s) R (running_process s)) in
    r = r0 ∧ agrees a (k_procs s') R' ∧ running_process s' = sc_running a;
}.

Lemma age_running a : sc_running (age a) = sc_running a.
Proof.
  assert (∀ i a, sc_running (age_level i a) = sc_running a) as Hl.
  { intros i a'. unfold age_level. by destruct (age_walk _ _ _) as [[? ?] ?]. }
  unfold age. by rewrite !Hl.
Qed.

Lemma save_ext a procs R run idle rsp0 :
  agrees a procs R → sc_running a = run → running_ok procs run →
  let '(k1, a1) := save idle rsp0 (Sched procs R run) in
  let '(k2, a2) := save idle rsp0 a in
  k1 = k2 ∧ agrees a2 (sc_procs a1) (sc_ready a1) ∧ sc_running a1 = sc_running a2.
Proof.
  destruct a as [procs' R' run']. intros [-> HR] <- Hrun. unfold save. simpl in *.
  case_decide; [done|]. destruct Hrun as [|(P & HP & _ & Hpr)]; [done|]. rewrite HP.
  destruct (state P); [done| |done..].
  case_decide; [done|]. split; [done|]. split; [|done]. split; [done|]. simpl.
  case_decide; [done|]. intros j Hj. unfold fupd. case_decide; [by rewrite HR|by apply HR].
Qed.

Lemma choose_ext n : ∀ i R R',
  i = Z.of_nat n - 1 → (n ≤ 4)%nat → (∀ j, is_prio j → R j = R' j) →
  match choose n i R, choose n i R' with
  | None, None => True
  | Some (p, R1), Some (p', R1') => p = p' ∧ ∀ j, is_prio j → R1 j = R1' j
  | _, _ => False
  end.
Proof.
  induction n as [|n IH]; intros i R R' Hi Hn HR; [done|]. cbn [choose].
  rewrite HR by (unfold is_prio, MIN_PRIORITY, MAX_PRIORITY; lia).
  destruct (R' i) as [|p l] eqn:E; [apply IH; [lia|lia|done]|].
  split; [done|]. intros j Hj. unfold fupd. case_decide; [done|by apply HR].
Qed.

Lemma schedule_spec s T R rsp0 :
  sched_inv s T R → rsp_ok (k_procs s) (idle_proc s) (running_process s) rsp0 →
  wp true (schedule rsp0) (λ r s', ∃ T' R', scheduled s T R rsp0 r s' T' R') s.
Proof.
  intros [Hon Hrep Hready Hrun Hidle (I & HI & HIp)] Hrsp. unfold schedule.
  set (a0 := Sched (k_procs s) R (running_process s)).
  wp_step. wp_step. rewrite Hon. simpl. wp_step.
  eapply wp_mono; [by apply (apply_aging_spec s T R (running_process s))|].
  intros [] s1 (T1 & R1 & Hsf1 & Hl1 & Hr1 & Hro1 & Hu1 & HX1). fold a0 in HX1.
  destruct (sframe_fields _ _ _ Hsf1) as (Hid1 & Hrn1 & Hon1).
  assert (k_procs s1 !! idle_proc s = Some I) as HI1.
  { destruct (proj1 Hu1 (idle_proc s)) as [_ ->]; [by eapply idle_unqueued|done]. }
  assert (running_ok (k_procs s1) (running_process s) ∧
    rsp_ok (k_procs s1) (idle_proc s) (running_process s) rsp0) as [Hrun1 Hrsp1].
  { destruct Hrun as [Hn|(P & HP & Hst & Hpr)].
    - split; [by left|]. intros P Hne HP. destruct (decide (is_Some (k_procs s !! running_process s)))
        as [[X HX]|HX].
      + assert (unqueued R (running_process s)) as Hux.
        { rewrite Hn. intros i Hi Hin.
          destruct (ready_ok_lookup _ _ _ _ _ Hready Hi Hin) as (? & ? & ? & ? & ? & ? & ?). done. }
        destruct (proj1 Hu1 _ Hux) as [_ E]. apply Hrsp; congruence.
      + assert (unqueued R (running_process s)) as Hux.
        { rewrite Hn. intros i Hi Hin.
          destruct (ready_ok_lookup _ _ _ _ _ Hready Hi Hin) as (? & ? & ? & ? & ? & ? & ?). done. }
        destruct (proj1 Hu1 _ Hux) as [_ E]. apply Hrsp; congruence.
    - destruct (proj1 Hu1 (running_process s)) as [_ E]; [by eapply running_unqueued|].
      split.
      + right. exists P. by rewrite E.
      + intros X Hne HX. rewrite E in HX. by apply Hrsp. }
  wp_step. apply (save_running_spec s1 T1 R1 rsp0); try done; rewrite ?Hid1, ?Hrn1 in *;
    try done.
  intros b s2 T2 R2 Hf2 Hl2 Hr2 Hro2 Hb Hk2 Hp2 HX2.
  assert (rframe T s s2) as Hf02.
  { destruct Hf2 as (s' & r & Hsf' & ->). exists s', r. split; [|done].
    by eapply sframe_trans. }
  assert (lost_some T2 T) as Hl02 by (by eapply lost_some_trans).
  assert (idle_proc s2 = idle_proc s ∧ scheduler_online s2 = true) as [Hid2 Hon2].
  { destruct Hf2 as (s' & r & Hsf' & ->). simpl.
    destruct (sframe_fields _ _ _ Hsf') as (-> & _ & ->). by rewrite Hid1, Hon1. }
  assert (∃ I2, k_procs s2 !! idle_proc s = Some I2 ∧ idle_ok I2) as (I2 & HI2 & HIp2).
  { destruct (decide (idle_proc s = running_process s)) as [E|E].
    - rewrite E in *. destruct (Hp2 I HI1) as (X & HX & HpX & _). exists X. auto.
    - exists I. split; [|done]. by rewrite Hk2. }
  assert ((∀ i, is_prio i → T2 i ≠ NULL) →
    let '(keep, a) := save (idle_proc s) rsp0 (age a0) in
    b = keep ∧ agrees a (k_procs s2) R2 ∧ (keep = true → running_process s2 = sc_running a)) as HX.
  { intros Hnl. specialize (HX2 Hnl).
    pose proof (HX1 (lost_some_all _ _ Hl2 Hnl)) as Ha.
    pose proof (save_ext (age a0) (k_procs s1) R1 (running_process s) (idle_proc s) rsp0 Ha
      (age_running _) Hrun1) as He.
    destruct (save _ _ (Sched _ _ _)) as [k1 a1]. destruct (save _ _ (age a0)) as [k2 a2].
    destruct He as (<- & [Hp HR] & <-), HX2 as (-> & [Hp' HR'] & ?). split; [done|].
    split; [|done]. split; [congruence|]. intros i Hi. by rewrite HR', HR. }
  assert (∀ x X, k_procs s !! x = Some X → waiting X →
    ∃ X', k_procs s2 !! x = Some X' ∧ state X' = state X) as Hwait.
  { intros x X Hx Hw. assert (k_procs s1 !! x = Some X) as Hx1.
    { destruct (proj1 Hu1 x) as [_ ->]; [|done]. eapply running_unqueued; [done..|].
      by destruct Hw as [-> | ->]. }
    destruct (decide (x = running_process s)) as [->|Hne].
    - destruct (Hp2 X Hx1) as (X' & ? & _ & ?). eauto.
    - exists X. by rewrite Hk2. }
  destruct b.
  - (* the process keeps the CPU *)
    wp_step. destruct (Hb eq_refl) as (Hrs & P & HP & HsP & HpP & HrP & HqP).
    exists T2, R2. constructor; [done| |done|by exists P|by intros []| | |].
    + constructor; try done; try by rewrite Hid2.
      * right. exists P. by rewrite HsP.
      * exists I2. by rewrite Hid2.
    + intros x X Hx Hw _. destruct (Hwait x X Hx Hw) as (X' & HX' & Hst'). exists X'.
      split; [done|]. split; [done|]. intros ->. rewrite HP in HX'. simplify_eq.
      rewrite HsP in Hst'. by destruct Hw; congruence.
    + intros X HX'. left. rewrite HP in HX'. simplify_eq. split; [congruence|done].
    + intros Hnl. specialize (HX Hnl). fold a0. unfold abs_schedule.
      destruct (save _ _ (age a0)) as [keep a]. destruct HX as (<- & Ha & Hr). auto.
  - wp_step. rewrite <-Hid2 in HI2, Hidle.
    apply (pick_spec 4 _ s2 T2 R2); try done.
    + (* nothing to run *)
      intros Hc. eapply wp_mono; [apply (dispatch_inv s2 T2 R2 NULL); try done; by exists I2|].
      intros r s3 (Hinv3 & (ps & Hs3) & Hrun3 & Hst). exists T2, R2.
      assert (start (idle_proc s2) None (Sched (k_procs s2) R2 0) =
        (r, Sched (k_procs s3) R2 (running_process s3))) as Hst0 by (by rewrite <-(Hst R2 0)).
      rewrite (start_run _ None _ _ _ I2 HI2) in Hst0.
      simpl in Hst0. injection Hst0 as Hr4 Hp4 Hn4.
      constructor; [done|done| |done| | | |].
      { eapply rframe_dispatch; [exact Hf02|exact Hs3]. }
      2: { intros x X Hx Hw Hxi. destruct (Hwait x X Hx Hw) as (X' & HX' & Hst'). exists X'.
           rewrite <-Hp4, <-Hn4, Hid2, lookup_insert_ne by done. done. }
      { rewrite <-Hn4, Hid2. intros Hne.
        exists I. split; [done|]. rewrite Hid2, Hk2, HI1 in HI2 by done. congruence. }
      { intros P _. right. intros i Hi _. eapply (choose_none 4 3); [done|exact Hc|exact Hi]. }
      intros Hnl. specialize (HX Hnl). fold a0. unfold abs_schedule.
      destruct (save _ _ (age a0)) as [keep [pa Ra na]].
      destruct HX as (<- & [Hp HR] & _). simpl in Hp, HR. cbn [sc_procs sc_ready sc_running].
      pose proof (choose_ext 4 3 R2 Ra eq_refl ltac:(lia) HR) as Hce.
      change (choose 4 3 R2 = None) in Hc. rewrite Hc in Hce.
      change (choose 4 MAX_PRIORITY Ra) with (choose 4 3 Ra).
      destruct (choose 4 3 Ra) as [[? ?]|]; [done|].
      rewrite <-Hp, <-Hid2. change (start (idle_proc s2) None) with (start (idle_proc s2) (chosen NULL)). by rewrite Hst.
    + intros p R' s3 Hc Hsf3 Hps3 Hr3.
      destruct (choose_some 4 3 R2 p R') as (j & l & Hj & _ & HRj & -> & Htop); [done|lia|done|].
      destruct (sframe_fields _ _ _ Hsf3) as (Hid3 & _ & Hon3).
      destruct (choose_ready _ _ _ _ _ _ Hro2 Hj HRj) as [Hro3 Hun3].
      assert (p ∈ R2 j) as Hpj by (rewrite HRj; set_solver).
      destruct (ready_ok_lookup _ _ _ _ _ Hro2 Hj Hpj) as (P & HP & HsP & HpP & HkP & Hp0 & Hpid).
      eapply wp_mono.
      { apply (dispatch_inv s3 T2 (fupd R2 j l) p); rewrite ?Hid3, ?Hps3; try done.
        - by rewrite Hon3.
        - by exists I2.
        - intros _. split; [done|]. split; [done|]. exists P. by rewrite HpP. }
      intros r s4 (Hinv4 & (ps & Hs4) & Hrun4 & Hst). exists T2, (fupd R2 j l).
      assert (start (idle_proc s2) (Some p) (Sched (k_procs s2) R2 0) =
        (r, Sched (k_procs s4) R2 (running_process s4))) as Hst0.
      { rewrite <-(Hst R2 0), Hps3, Hid3. unfold chosen. by rewrite decide_False. }
      rewrite (start_run _ _ _ _ _ P) in Hst0 by done. simpl in Hst0.
      injection Hst0 as Hr4' Hp4 Hr4.
      constructor; [done|done| |done| | | |].
      { eapply rframe_dispatch; [|exact Hs4]. by eapply rframe_trans. }
      2: { intros x X Hx Hw _. destruct (Hwait x X Hx Hw) as (X' & HX' & Hst'). exists X'.
           assert (x ≠ p). { intros ->. rewrite HP in HX'. simplify_eq. by destruct Hw; congruence. }
           by rewrite <-Hp4, <-Hr4, lookup_insert_ne. }
      { rewrite <-Hr4. intros Hne. rewrite Hk2 in HP by done.
        destruct (aged_lookup _ _ _ _ (proj2 Hu1) HP) as (X & HX' & Ht). exists X.
        split; [done|]. destruct (tick_eq_fields _ _ Ht) as (<- & _). done. }
      { rewrite <-Hp4, <-Hr4, lookup_insert_eq.
        intros X [= <-]. right. intros i Hi [Hx|Hx]; [by rewrite <-Hid2 in Hx|].
        destruct (started_fields (idle_proc s2) p P) as (_ & _ & Hpr & _).
        rewrite Hpr, HpP in Hx. rewrite fupd_ne by lia. apply Htop.
        unfold is_prio, MAX_PRIORITY in Hi. lia. }
      intros Hnl. specialize (HX Hnl). fold a0. unfold abs_schedule.
      destruct (save _ _ (age a0)) as [keep [pa Ra na]].
      destruct HX as (<- & [Hp HR] & _). simpl in Hp, HR. cbn [sc_procs sc_ready sc_running].
      pose proof (choose_ext 4 3 R2 Ra eq_refl ltac:(lia) HR) as Hce.
      change (choose 4 3 R2 = Some (p, fupd R2 j l)) in Hc. rewrite Hc in Hce.
      change (choose 4 MAX_PRIORITY Ra) with (choose 4 3 Ra).
      destruct (choose 4 3 Ra) as [[p' R1']|]; [|done]. destruct Hce as [<- HR1].
      rewrite <-Hp, <-Hps3, <-Hid2, <-Hid3.
      replace (Some p) with (chosen p) by (unfold chosen; by rewrite decide_False).
      rewrite Hst. split; [done|]. split; [|done]. by split.
Qed.
End schedule.

(** ** Blocking and unblocking *)

Section blocking.
Context {St : Type} `{MemoryManager St}.
Implicit Types (s : kst St) (T : Z → Z) (R : Z → list Z).

Lemma sched_inv_if s T R b : sched_inv s T R → sched_inv (set_k_if b s) T R.
Proof. intros [H1 [H2 H3 H4 H5] H6 H7 H8 H9]. by constructor. Qed.

Lemma sched_rep_if s T R b : sched_rep s T R → sched_rep (set_k_if b s) T R.
Proof. intros [H2 H3 H4 H5]. by constructor. Qed.

(** Taking a PCB out of the queue of its priority. *)
Lemma remove_queued pan s T R p P (Q : unit → kst St → Prop) :
  sched_rep s T R → ready_ok (k_procs s) (idle_proc s) R →
  k_procs s !! p = Some P → is_prio (priority P) → p ∈ R (priority P) →
  (∀ s' l1 l2, qframe (T (priority P)) s s' → R (priority P) = l1 ++ p :: l2 →
     sched_rep s' T (fupd R (priority P) (l1 ++ l2)) →
     ready_ok (k_procs s') (idle_proc s') (fupd R (priority P) (l1 ++ l2)) →
     unqueued (fupd R (priority P) (l1 ++ l2)) p → Q tt s') →
  wp pan (remove_from_all_priority_queues p) Q s.
Proof.
  intros Hrep Hready HP Hpr Hin HQ. unfold remove_from_all_priority_queues.
  destruct (ready_ok_lookup _ _ _ _ _ Hready Hpr Hin) as (P' & HP' & HsP & _ & _ & Hp0 & _).
  simplify_eq. rewrite decide_False by done. wp_step. wp_step. wp_step.
  eapply wp_get_pq; [done|done|].
  set (i := priority P) in *. case_decide as HT.
  { exfalso. rewrite (sr_null _ _ _ Hrep i Hpr HT) in Hin. by apply elem_of_nil in Hin. }
  destruct (sr_queue _ _ _ Hrep i Hpr HT) as [it Hq].
  destruct (list_elem_of_split _ _ Hin) as (l1 & l2 & HRi). rewrite HRi in Hq.
  pose proof (ro_nodup _ _ _ Hready i Hpr) as Hnd. rewrite HRi in Hnd.
  apply NoDup_app in Hnd as (Hnd1 & Hdis & [Hp2 Hnd2]%NoDup_cons).
  assert (∀ w, w ∈ R i → compareProcesses p s w = Some (bool_decide (w = p))) as Hcmp.
  { intros w Hw. by eapply compare_entries. }
  wp_step. eapply (wp_remove _ _ l1 p l2); [exact Hq|..].
  { intros w Hw. rewrite Hcmp by (rewrite HRi; set_solver).
    rewrite bool_decide_false; [done|]. intros ->. apply (Hdis p Hw). set_solver. }
  { rewrite Hcmp by done. by rewrite bool_decide_true. }
  { intros w Hw. rewrite Hcmp by (rewrite HRi; set_solver). by eexists. }
  intros s1 Hf Hq1. wp_step.
  assert (k_procs s1 = k_procs s ∧ idle_proc s1 = idle_proc s) as [Hps Hid].
  { by destruct Hf as (mm & qs & -> & _). }
  apply (HQ s1 l1 l2); [done|done|by eapply sched_rep_queue| |].
  - rewrite Hps, Hid. eapply ready_ok_sub; [exact Hready|..].
    + intros j Hj. unfold fupd. case_decide; [|by apply (ro_nodup _ _ _ Hready)].
      apply NoDup_app. set_solver.
    + intros j x Hj. unfold fupd. case_decide; [|done]. subst j. rewrite HRi. set_solver.
  - intros j Hj. unfold fupd. case_decide as Hji; [set_solver|]. intros Hpj.
    apply Hji. by eapply ready_ok_level.
Qed.

(** ... and when it is in no queue nothing happens. *)
Lemma remove_unqueued pan s T R p P (Q : unit → kst St → Prop) :
  sched_rep s T R → ready_ok (k_procs s) (idle_proc s) R → p ≠ NULL →
  k_procs s !! p = Some P → state P ≠ TERMINATED → is_prio (priority P) → unqueued R p →
  (∀ s', s' = s ∨ qframe (T (priority P)) s s' → sched_rep s' T R → Q tt s') →
  wp pan (remove_from_all_priority_queues p) Q s.
Proof.
  intros Hrep Hready Hp0 HP Hst Hpr Hun HQ. unfold remove_from_all_priority_queues.
  rewrite decide_False by done. wp_step. wp_step. wp_step.
  eapply wp_get_pq; [done|done|]. case_decide as HT; [wp_step; apply HQ; [by left|done]|].
  destruct (sr_queue _ _ _ Hrep _ Hpr HT) as [it Hq].
  wp_step. eapply wp_remove_none; [exact Hq|..].
  { intros w Hw.
    destruct (ready_ok_lookup _ _ _ _ _ Hready Hpr Hw) as (W & HW & HsW & _).
    unfold compareProcesses. rewrite HW, HP. simpl. rewrite bool_decide_false; [done|].
    intros E. assert (w = p) as ->; [|by apply (Hun _ Hpr)].
    apply (ro_pids _ _ _ Hready w p W P); try done; [by rewrite HsW|lia]. }
  intros s1 Hf Hq1. wp_step. apply HQ; [by right|].
  eapply sched_rep_ext; [done| |by eapply sched_rep_queue].
  intros j _. unfold fupd. case_decide; [by subst|done].
Qed.

(** [m] gives up the CPU, in a state and with a continuation that satisfy
    [Q] (or, if [pan], stops in [panic()]). *)
Definition switches {A} (pan : bool) (m : K (kst St) A)
    (Q : kst St → (kst St → res (kst St) A) → Prop) (s : kst St) : Prop :=
  match m s with
  | Switch s' k => Q s' k
  | Panic _ _ => pan = true
  | _ => False
  end.

Lemma switches_bind_l {A B} pan (m : K (kst St) A) (f : A → K (kst St) B) Q s :
  switches pan m (λ s' k, Q s' (λ s'', res_bind f (k s''))) s → switches pan (m ≫= f) Q s.
Proof. unfold switches, mbind, K_bind. by destruct (m s). Qed.

Lemma switches_bind_r {A B} pan (m : K (kst St) A) (f : A → K (kst St) B) Q s :
  wp pan m (λ a s', switches pan (f a) Q s') s → switches pan (m ≫= f) Q s.
Proof. unfold switches, wp, mbind, K_bind. by destruct (m s). Qed.

Lemma switches_mono {A} pan (m : K (kst St) A) (P Q : _ → _ → Prop) s :
  switches pan m P s → (∀ s' k, P s' k → Q s' k) → switches pan m Q s.
Proof. unfold switches. destruct (m s); auto. Qed.

(** No other PCB was saved at the stack pointer this process is
    interrupted at (stacks are disjoint). *)
Definition rsp_fresh s : Prop :=
  ∀ x X, k_procs s !! x = Some X → x ≠ running_process s → rsp X ≠ k_rsp s.

(** The forced interrupt of a process that cannot be scheduled any more. *)
Lemma force_switch s T R P :
  sched_inv s T R → rsp_ok (k_procs s) (idle_proc s) (running_process s) (k_rsp s) →
  rsp_fresh s → k_procs s !! running_process s = Some P → waiting P →
  running_process s ≠ idle_proc s →
  switches true _force_scheduler_interrupt (λ s1 k,
    ∃ r s0 T' R', scheduled s T R (k_rsp s) r s0 T' R' ∧ s1 = set_k_rsp r s0 ∧
      ∀ s2, k s2 = Ret tt s2) s.
Proof.
  intros Hinv Hrsp Hfresh HP Hw Hid. unfold switches, _force_scheduler_interrupt, kact.
  pose proof (schedule_spec s T R (k_rsp s) Hinv Hrsp) as Hs. unfold wp in Hs.
  destruct (schedule (k_rsp s) s) as [r s'| | | |] eqn:E; try done.
  destruct Hs as (T' & R' & Hsd).
  destruct (sd_waiting _ _ _ _ _ _ _ _ Hsd _ _ HP Hw Hid) as (X' & _ & _ & Hne).
  destruct (sd_resume _ _ _ _ _ _ _ _ Hsd) as (X & HX & HrX); [done|].
  rewrite decide_False; [by eexists _, _, _, _|].
  intros ->. by apply (Hfresh _ _ HX).
Qed.

(** What may change across the operations on processes. *)
Definition xframe T s s' : Prop :=
  ∃ s1 r b, sframe T s s1 ∧ s' = set_k_if b (set_running_process r s1).

Lemma xframe_trans T T' s1 s2 s3 :
  xframe T s1 s2 → xframe T' s2 s3 → lost_some T' T → xframe T s1 s3.
Proof.
  intros (t1 & r1 & b1 & (m1 & q1 & a1 & p1 & -> & Hq1 & Ha1) & ->)
    (t2 & r2 & b2 & (m2 & q2 & a2 & p2 & -> & Hq2 & Ha2) & ->) Hl. simpl in *.
  exists (set_k_procs p2 (set_k_arrays a2 (set_k_queues q2 (set_k_mm m2 s1)))), r2, b2.
  split; [|done]. exists m2, q2, a2, p2. split; [done|]. split.
  - intros q Hq Hne. rewrite Hq2; [by apply Hq1|done|].
    intros i Hi. destruct (Hl i Hi) as [->| ->]; [by apply Hne|done].
  - intros a Ha. by rewrite Ha2, Ha1.
Qed.

Lemma xframe_sframe T s s' : sframe T s s' → xframe T s s'.
Proof. intros Hf. exists s', (running_process s'), (k_if s'). split; [done|by destruct s']. Qed.
Lemma xframe_if T s b : xframe T s (set_k_if b s).
Proof. exists s, (running_process s), b. split; [apply sframe_refl|by destruct s]. Qed.
Lemma xframe_rframe T s s' : rframe T s s' → xframe T s s'.
Proof. intros (s1 & r & Hf & ->). exists s1, r, (k_if s1). split; [done|by destruct s1]. Qed.

(** ... and what may not. *)
Lemma xframe_fields T s s' :
  xframe T s s' →
  k_sems s' = k_sems s ∧ k_semqs s' = k_semqs s ∧ k_pipes s' = k_pipes s ∧
  process_table s' = process_table s ∧ idle_proc s' = idle_proc s ∧
  global_semaphore_registry s' = global_semaphore_registry s ∧
  process_priority_table s' = process_priority_table s ∧
  (∀ q, q ≠ NULL → (∀ i, is_prio i → T i ≠ q) → k_queues s' !! q = k_queues s !! q).
Proof. intros (s1 & r & b & (? & ? & ? & ? & -> & Hq & _) & ->). by split_and!. Qed.

Lemma unblock_spec s T R p P (Q : Z → kst St → Prop) :
  sched_inv s T R → k_procs s !! p = Some P → state P = BLOCKED →
  p ≠ NULL → p ≠ idle_proc s → pid P ≠ 1 →
  is_prio (priority P) → stack_ok P → running_process s ≠ p →
  (∀ s' T' R', xframe T s s' → running_process s' = running_process s →
     k_procs s' = <[p := set_state READY P]> (k_procs s) →
     sched_inv s' T' R' → lost_some T' T →
     ((∀ i, is_prio i → T' i ≠ NULL) →
        R' = fupd R (priority P) (R (priority P) ++ [p])) → Q 0 s') →
  wp true (unblock_process p) Q s.
Proof.
  intros Hinv HP Hst Hp0 Hid Hpid Hpr Hok Hrun HQ.
  destruct Hinv as [Hon Hrep Hready Hro Hidle HI].
  pose proof (running_unqueued _ _ _ _ _ Hready HP) as Hun.
  assert (unqueued R p) as Hunq by (apply Hun; by rewrite Hst). clear Hun.
  unfold unblock_process. wp_step. wp_step. rewrite decide_False by tauto.
  wp_step. wp_step. rewrite decide_False by (rewrite Hst; tauto).
  wp_step. apply wp_modify. wp_step. eapply wp_upd_proc; [exact HP|].
  set (s1 := set_k_procs _ (set_k_if false s)).
  wp_step. apply (add_to_scheduler_spec s1 T R p (set_state READY P)); try done.
  - by apply sched_rep_procs, sched_rep_if.
  - apply ready_ok_insert with P; [done|done|done|by rewrite Hst|].
    intros i Hi Hin. exfalso. by apply (Hunq i).
  - apply lookup_insert_eq.
  - intros s2 T' R' _ Hsf Hps Hl Hr' Hro' Hun' HX.
    destruct (sframe_fields _ _ _ Hsf) as (Hid2 & Hrn2 & Hon2).
    assert (k_procs s2 = <[p := set_state READY P]> (k_procs s)) as Hps2.
    { rewrite Hps. simpl. apply insert_insert_eq. }
    wp_step. apply wp_modify. wp_step. apply (HQ _ T' R').
    + eapply (xframe_trans _ T); [apply (xframe_if T s false)| |apply lost_some_refl].
      eapply (xframe_trans _ T); [apply xframe_sframe, (sframe_procs T)| |apply lost_some_refl].
      eapply (xframe_trans _ T); [by apply xframe_sframe|apply xframe_if|apply lost_some_refl].
    + exact Hrn2.
    + done.
    + apply sched_inv_if. constructor; try done.
      * by rewrite Hon2.
      * rewrite Hps2, Hrn2. simpl. destruct Hro as [Hn|(X & HX' & ?)]; [by left|].
        right. exists X. by rewrite lookup_insert_ne.
      * by rewrite Hid2.
      * rewrite Hps2, Hid2. simpl. destruct HI as (I & HI & ?). exists I.
        by rewrite lookup_insert_ne.
    + done.
    + done.
Qed.

(** A process that blocks itself: it leaves the CPU, and goes on when the
    scheduler comes back to it. *)
Lemma block_running_spec s T R P (Q : kst St → (kst St → res (kst St) Z) → Prop) :
  let p := running_process s in
  sched_inv s T R → k_procs s !! p = Some P → state P = RUNNING → pid P ≠ 1 →
  p ≠ NULL → p ≠ idle_proc s →
  rsp_ok (k_procs s) (idle_proc s) p (k_rsp s) → rsp_fresh s →
  (∀ sb r s0 T' R' k, xframe T s sb → running_process sb = p →
     k_procs sb = <[p := set_wait_ticks 0 (set_state BLOCKED P)]> (k_procs s) →
     scheduled sb T R (k_rsp s) r s0 T' R' → (∀ s2, k s2 = Ret 0 s2) →
     Q (set_k_rsp r s0) k) →
  switches true (block_process p) Q s.
Proof.
  intros p Hinv HP Hst Hpid Hp0 Hid Hrsp Hfresh HQ.
  destruct Hinv as [Hon Hrep Hready Hro Hidle HI].
  assert (is_prio (priority P)) as Hpr.
  { destruct Hro as [|(X & HX & _ & ?)]; [done|]. fold p in HX. by simplify_eq. }
  assert (unqueued R p) as Hun.
  { eapply running_unqueued; [done..|]. by rewrite Hst. }
  unfold block_process. apply switches_bind_r. wp_step. rewrite decide_False by tauto.
  apply switches_bind_r. wp_step. rewrite decide_False by (rewrite Hst; naive_solver).
  apply switches_bind_r. apply wp_modify. apply switches_bind_r.
  apply (remove_unqueued _ (set_k_if false s) T R p P); try done; [by apply sched_rep_if|by rewrite Hst|].
  intros s1 Hf Hrep1.
  assert (xframe T s s1) as Hx1.
  { destruct Hf as [->|Hf]; [apply xframe_if|].
    eapply (xframe_trans _ T); [apply (xframe_if T s false)| |apply lost_some_refl].
    by eapply xframe_sframe, sframe_qframe. }
  assert (k_procs s1 = k_procs s ∧ running_process s1 = p ∧ k_rsp s1 = k_rsp s ∧
    scheduler_online s1 = true ∧ idle_proc s1 = idle_proc s) as (Hps & Hrn & Hrs & Hon1 & Hid1).
  { destruct Hf as [->|(mm & qs & -> & _)]; by split_and!. }
  apply switches_bind_r. eapply wp_upd_proc; [by rewrite Hps|].
  apply switches_bind_r. unfold reset_aging. wp_step. wp_step. simpl.
  rewrite decide_False by (rewrite Hid1; tauto).
  eapply wp_upd_proc; [apply lookup_insert_eq|]. simpl. rewrite insert_insert_eq.
  apply switches_bind_r. apply wp_modify. apply switches_bind_r. wp_step. simpl.
  rewrite Hrn, bool_decide_true by done. simpl. apply switches_bind_l. rewrite Hps.
  set (P' := set_wait_ticks 0 (set_state BLOCKED P)).
  set (sb := set_k_if true _).
  assert (k_procs sb = <[p := P']> (k_procs s)) as Hpsb by done.
  assert (running_process sb = p ∧ idle_proc sb = idle_proc s ∧ k_rsp sb = k_rsp s)
    as (Hrnb & Hidb & Hrsb) by (unfold sb; simpl; by rewrite Hrn, Hid1, Hrs).
  assert (sched_inv sb T R) as Hinvb.
  { apply sched_inv_if. constructor; simpl; rewrite ?Hrn, ?Hid1; try done.
    - by apply sched_rep_procs, sched_rep_procs.
    - apply ready_ok_insert with P; [done|done|done|by rewrite Hst|].
      intros i Hi Hin. exfalso. by apply (Hun i).
    - right. exists P'. by rewrite lookup_insert_eq.
    - destruct HI as (I & HI & ?). exists I. by rewrite lookup_insert_ne. }
  assert (xframe T s sb) as Hxb.
  { eapply (xframe_trans _ T); [exact Hx1| |apply lost_some_refl].
    eapply (xframe_trans _ T); [|apply xframe_if|apply lost_some_refl].
    apply xframe_sframe. eapply sframe_trans; [apply sframe_procs|apply sframe_procs|
      apply lost_some_refl]. }
  eapply switches_mono.
  { apply (force_switch sb T R P'); try done.
    - rewrite Hpsb, Hidb, Hrnb, Hrsb. intros X Hne. rewrite lookup_insert_eq. intros [= <-].
      by apply (Hrsp P).
    - intros x X HX Hne. rewrite Hrnb in Hne. rewrite Hpsb, lookup_insert_ne in HX by done.
      rewrite Hrsb. by apply (Hfresh x X).
    - rewrite Hrnb, Hpsb. apply lookup_insert_eq.
    - by left.
    - by rewrite Hrnb, Hidb. }
  intros s3 k (r & s0 & T' & R' & Hsd & -> & Hk). rewrite Hrsb in Hsd.
  eapply HQ; try done. intros s2. rewrite Hk. done.
Qed.
End blocking.

(** ** No ready process is lost

    Stated on the abstract scheduler and carried over by refinement. *)

(** Every READY process is in a queue. *)
Definition ready_complete (procs : gmap Z Process) (idle : Z) (R : Z → list Z) : Prop :=
  ∀ p P, procs !! p = Some P → state P = READY → p ≠ idle → ∃ i, is_prio i ∧ p ∈ R i.

Section complete.
Lemma age_walk_facts l : ∀ procs first,
  let '(ps, kept, boosted) := age_walk procs first l in
  (∀ x, x ∈ l ↔ x ∈ kept ∨ x ∈ boosted) ∧
  (∀ x, state <$> ps !! x = state <$> procs !! x) ∧
  (∀ x, x ∉ l → ps !! x = procs !! x).
Proof.
  induction l as [|p l IH]; intros procs first; cbn [age_walk].
  { set_solver. }
  destruct (procs !! p) as [P|] eqn:HP; [|set_solver].
  assert (∀ (procs' : gmap Z Process) P', state P' = state P → procs' = <[p := P']> procs →
    (∀ x, state <$> procs' !! x = state <$> procs !! x) ∧
    (∀ x, x ∉ p :: l → procs' !! x = procs !! x)) as Hins.
  { intros procs' P' Hst ->. split.
    - intros x. destruct (decide (x = p)) as [->|].
      + rewrite lookup_insert_eq, HP. simpl. by rewrite Hst.
      + by rewrite lookup_insert_ne.
    - intros x Hx. rewrite lookup_insert_ne; set_solver. }
  case_decide.
  - destruct (Hins _ (set_wait_ticks 0 (set_priority MAX_PRIORITY P)) eq_refl eq_refl) as [H1 H2].
    destruct first; [split_and!; try done; set_solver|].
    specialize (IH (<[p:=set_wait_ticks 0 (set_priority MAX_PRIORITY P)]> procs) false).
    destruct (age_walk _ false l) as [[ps kept] boosted]. destruct IH as (I1 & I2 & I3).
    split_and!.
    + intros x. rewrite !elem_of_cons, I1. tauto.
    + intros x. by rewrite I2, H1.
    + intros x Hx. rewrite I3 by set_solver. by apply H2.
  - destruct (Hins _ (set_wait_ticks (i32 (wait_ticks P + 1)) P) eq_refl eq_refl) as [H1 H2].
    specialize (IH (<[p:=set_wait_ticks (i32 (wait_ticks P + 1)) P]> procs) false).
    destruct (age_walk _ false l) as [[ps kept] boosted]. destruct IH as (I1 & I2 & I3).
    split_and!.
    + intros x. rewrite !elem_of_cons, I1. tauto.
    + intros x. by rewrite I2, H1.
    + intros x Hx. rewrite I3 by set_solver. by apply H2.
Qed.

Definition complete idle a := ready_complete (sc_procs a) idle (sc_ready a).

Lemma age_level_complete idle i a :
  is_prio i → i ≠ MAX_PRIORITY → complete idle a → complete idle (age_level i a).
Proof.
  intros Hi H3 Hc p P HP Hst Hid. unfold age_level in *.
  pose proof (age_walk_facts (sc_ready a i) (sc_procs a) true) as Hf.
  destruct (age_walk _ _ _) as [[ps kept] boosted]. destruct Hf as (I1 & I2 & _). simpl in *.
  specialize (I2 p). rewrite HP in I2. simpl in I2.
  destruct (sc_procs a !! p) as [P0|] eqn:HP0; [|done]. injection I2 as I2.
  destruct (Hc p P0 HP0) as (j & Hj & Hpj); [congruence|done|].
  destruct (decide (j = i)) as [->|Hji].
  - apply I1 in Hpj as [Hk|Hb].
    + exists i. split; [done|]. rewrite fupd_ne by done. by rewrite fupd_eq.
    + exists MAX_PRIORITY. split; [done|]. rewrite fupd_eq. set_solver.
  - exists j. split; [done|]. unfold fupd. repeat case_decide; subst; set_solver.
Qed.

Lemma age_level_unqueued i a x :
  is_prio i → unqueued (sc_ready a) x →
  unqueued (sc_ready (age_level i a)) x ∧
  sc_procs (age_level i a) !! x = sc_procs a !! x.
Proof.
  intros Hi Hun. unfold age_level.
  pose proof (age_walk_facts (sc_ready a i) (sc_procs a) true) as Hf.
  destruct (age_walk _ _ _) as [[ps kept] boosted]. destruct Hf as (I1 & _ & I3). simpl.
  pose proof (Hun i Hi) as Hxi. split; [|by apply I3].
  assert (x ∉ sc_ready a MAX_PRIORITY) by (by apply Hun).
  intros j Hj. specialize (Hun j Hj). unfold fupd.
  repeat case_decide; subst; set_solver.
Qed.

Lemma age_complete idle a : complete idle a → complete idle (age a).
Proof. intros Hc. unfold age. by repeat apply age_level_complete. Qed.

Lemma age_unqueued a x :
  unqueued (sc_ready a) x →
  unqueued (sc_ready (age a)) x ∧ sc_procs (age a) !! x = sc_procs a !! x.
Proof.
  intros H0. destruct (age_level_unqueued 0 a x) as [H1 E1]; [done..|].
  destruct (age_level_unqueued 1 (age_level 0 a) x) as [H2 E2]; [done..|].
  destruct (age_level_unqueued 2 (age_level 1 (age_level 0 a)) x) as [H3 E3]; [done..|].
  split; [done|]. unfold age. by rewrite E3, E2.
Qed.

Lemma save_complete idle r a :
  complete idle a → running_ok (sc_procs a) (sc_running a) → complete idle (save idle r a).2.
Proof.
  intros Hc Hrun. unfold save. case_decide as Hn; [done|].
  destruct Hrun as [|(P & HP & Hst & Hpr)]; [done|]. rewrite HP.
  assert (∀ P' R' n, (∀ i x, is_prio i → x ∈ sc_ready a i → x ∈ R' i) →
    (state P' = READY → sc_running a ≠ idle → ∃ i, is_prio i ∧ sc_running a ∈ R' i) →
    complete idle (Sched (<[sc_running a := P']> (sc_procs a)) R' n)) as Hins.
  { intros P' R' n Hsub Hrd p P0 HP0 Hst0 Hid. simpl in *.
    apply lookup_insert_Some in HP0 as [[<- <-]|[Hne HP0]]; [by apply Hrd|].
    destruct (Hc p P0 HP0 Hst0 Hid) as (i & ? & ?). exists i. auto. }
  destruct (state P) eqn:HsP; simpl; [done| | |].
  - case_decide.
    + apply Hins; [done|]. simpl. by rewrite HsP.
    + apply Hins.
      * intros i x Hi Hx. case_decide; [done|]. unfold fupd. case_decide; [|done].
        subst. set_solver.
      * intros _ Hid. exists (priority P). split; [done|].
        rewrite decide_False by done. rewrite fupd_eq. set_solver.
  - apply Hins; [done|]. simpl. by rewrite HsP.
  - apply Hins; [done|]. simpl. by rewrite HsP.
Qed.

Lemma start_complete idle p R procs n :
  (∀ x X, procs !! x = Some X → state X = READY → x ≠ idle → x ≠ default idle p →
     ∃ i, is_prio i ∧ x ∈ R i) →
  complete idle (start idle p (Sched procs R n)).2.
Proof.
  intros Hc x X HX Hst Hid. unfold start in *. cbn [sc_procs sc_ready] in *.
  destruct (procs !! default idle p) as [P|] eqn:HP; simpl in *.
  - apply lookup_insert_Some in HX as [[<- <-]|[Hne HX]]; [|by apply (Hc x X)].
    destruct (started_fields idle (default idle p) P) as (Hs & _). congruence.
  - apply (Hc x X); try done. intros ->. congruence.
Qed.

Lemma abs_schedule_complete idle r a :
  complete idle a → running_ok (sc_procs a) (sc_running a) →
  ready_ok (sc_procs a) idle (sc_ready a) → complete idle (abs_schedule idle r a).2.
Proof.
  intros Hc Hrun Hready. unfold abs_schedule.
  assert (complete idle (save idle r (age a)).2) as Hc2.
  { apply save_complete; [by apply age_complete|]. rewrite age_running.
    destruct Hrun as [|(P & HP & Hst & Hpr)]; [by left|]. right. exists P.
    destruct (age_unqueued a (sc_running a)) as [_ ->]; [by eapply running_unqueued|done]. }
  destruct (save idle r (age a)) as [keep [pa Ra na]]. destruct keep; [done|].
  cbn [sc_procs sc_ready sc_running]. change (complete idle (Sched pa Ra na)) in Hc2.
  destruct (choose 4 MAX_PRIORITY Ra) as [[p R']|] eqn:Hch.
  - destruct (choose_some 4 3 Ra p R') as (j & l & Hj & _ & HRj & -> & _); [done|lia|done|].
    apply start_complete. intros x X HX Hst Hid Hne.
    destruct (Hc2 x X HX Hst Hid) as (i & Hi & Hx). simpl in Hx, Hne.
    exists i. split; [done|]. unfold fupd. case_decide; [|done]. subst.
    rewrite HRj in Hx. set_solver.
  - apply start_complete. intros x X HX Hst Hid _. by apply (Hc2 x X).
Qed.
End complete.

(** ** Properties of the scheduler *)

Section properties.
Context {St : Type} `{MemoryManager St}.
Implicit Types (s : kst St) (T : Z → Z) (R : Z → list Z).

(** C1: one run of [schedule] is the abstract scheduler: aging, saving the
    outgoing process, choosing the head of the highest non-empty queue and
    dispatching it, with the stack pointer it saved.  It reads no invalid
    pointer, every loop of it ends, and the scheduler's invariant holds again
    afterwards.  (It may stop in [panic()], or drop a queue from the table,
    only when the allocator refuses a queue node.) *)
Theorem schedule_refines s T R rsp0
    (Hinv : sched_inv s T R)
    (Hrsp : rsp_ok (k_procs s) (idle_proc s) (running_process s) rsp0) :
  wp true (schedule rsp0) (λ r s', ∃ T' R',
    sched_inv s' T' R' ∧ lost_some T' T ∧
    ((∀ i, is_prio i → T' i ≠ NULL) →
       let '(r0, a) := abs_schedule (idle_proc s) rsp0
         (Sched (k_procs s) R (running_process s)) in
       r = r0 ∧ agrees a (k_procs s') R' ∧ running_process s' = sc_running a)) s.
Proof.
  eapply wp_mono; [by apply schedule_spec|]. intros r s' (T' & R' & []). by exists T', R'.
Qed.

(** C21: the process [schedule] leaves running is RUNNING and its saved stack
    pointer is the answer; unless the interrupted process still has quantum,
    no process of higher priority is left waiting, and the idle process only
    runs when no other can. *)
Theorem schedule_picks_highest s T R rsp0
    (Hinv : sched_inv s T R)
    (Hrsp : rsp_ok (k_procs s) (idle_proc s) (running_process s) rsp0) :
  wp true (schedule rsp0) (λ r s', ∃ T' R' P,
    sched_inv s' T' R' ∧
    k_procs s' !! running_process s' = Some P ∧ state P = RUNNING ∧ rsp P = r ∧
    (running_process s' = running_process s ∧ 0 < quantum_remaining P ∧ r = rsp0 ∨
     ∀ i, is_prio i → running_process s' = idle_proc s ∨ priority P < i → R' i = [])) s.
Proof.
  eapply wp_mono; [by apply schedule_spec|].
  intros r s' (T' & R' & [Hl Hi Hf (P & HP & HsP & HrP) Hres Hw Hh He]).
  exists T', R', P. split_and!; try done. by apply Hh.
Qed.

(** No READY process is ever lost: if every READY process is in a ready
    queue before [schedule] runs, then it is still so afterwards (unless a
    queue was lost to an allocation failure). *)
Theorem schedule_keeps_ready s T R rsp0
    (Hinv : sched_inv s T R)
    (Hrsp : rsp_ok (k_procs s) (idle_proc s) (running_process s) rsp0)
    (Hall : ready_complete (k_procs s) (idle_proc s) R) :
  wp true (schedule rsp0) (λ r s', ∃ T' R', sched_inv s' T' R' ∧
    ((∀ i, is_prio i → T' i ≠ NULL) →
       ready_complete (k_procs s') (idle_proc s) R')) s.
Proof.
  eapply wp_mono; [by apply schedule_spec|].
  intros r s' (T' & R' & [Hl Hi Hf Hr Hres Hw Hh He]). exists T', R'. split; [done|].
  intros Hnl. specialize (He Hnl).
  pose proof (abs_schedule_complete (idle_proc s) rsp0
    (Sched (k_procs s) R (running_process s)) Hall (si_running _ _ _ Hinv)
    (si_ready _ _ _ Hinv)) as Hc.
  destruct (abs_schedule _ _ _) as [r0 a]. destruct He as (_ & [-> HR] & _).
  intros p P HP Hst Hid. destruct (Hc p P HP Hst Hid) as (i & Hpi & Hin).
  exists i. by rewrite HR.
Qed.

(** [unblock_process] makes a BLOCKED process READY and appends it to the
    queue of its priority; it changes no other process. *)
Theorem unblock_process_correct s T R p P
    (Hinv : sched_inv s T R) (HP : k_procs s !! p = Some P) (Hst : state P = BLOCKED)
    (Hp0 : p ≠ NULL) (Hid : p ≠ idle_proc s) (Hpid : pid P ≠ 1)
    (Hpr : is_prio (priority P)) (Hok : stack_ok P) (Hrun : running_process s ≠ p) :
  wp true (unblock_process p) (λ r s', r = 0 ∧
    k_procs s' = <[p := set_state READY P]> (k_procs s) ∧
    ∃ T' R', sched_inv s' T' R' ∧ lost_some T' T ∧
      ((∀ i, is_prio i → T' i ≠ NULL) →
         R' = fupd R (priority P) (R (priority P) ++ [p]))) s.
Proof.
  eapply unblock_spec; [done..|]. intros s' T' R' _ _ Hps Hi Hl HX.
  split; [done|]. split; [done|]. by exists T', R'.
Qed.

Lemma block_queued_spec s T R p P
    (Hinv : sched_inv s T R) (HP : k_procs s !! p = Some P) (Hst : state P = READY)
    (Hin : p ∈ R (priority P)) (Hpid : pid P ≠ 1) (Hpr : is_prio (priority P))
    (Hrun : running_process s ≠ p) :
  wp false (block_process p) (λ r s', r = 0 ∧
    k_procs s' = <[p := set_wait_ticks 0 (set_state BLOCKED P)]> (k_procs s) ∧
    process_table s' = process_table s ∧ idle_proc s' = idle_proc s ∧
    running_process s' = running_process s ∧
    ∃ l1 l2, R (priority P) = l1 ++ p :: l2 ∧
      sched_inv s' T (fupd R (priority P) (l1 ++ l2)) ∧
      unqueued (fupd R (priority P) (l1 ++ l2)) p) s.
Proof.
  destruct Hinv as [Hon Hrep Hready Hro Hidle HI].
  destruct (ready_ok_lookup _ _ _ _ _ Hready Hpr Hin) as (P' & HP' & _ & _ & _ & Hp0 & Hid). clear P' HP'.
  unfold block_process. wp_step. wp_step. rewrite decide_False by tauto.
  wp_step. wp_step. rewrite decide_False by (rewrite Hst; naive_solver).
  wp_step. apply wp_modify. wp_step.
  apply (remove_queued _ (set_k_if false s) T R p P); try done; [by apply sched_rep_if|].
  intros s1 l1 l2 Hf HRi Hrep1 Hro1 Hun1.
  assert (k_procs s1 = k_procs s ∧ idle_proc s1 = idle_proc s ∧
    running_process s1 = running_process s ∧ scheduler_online s1 = scheduler_online s ∧
    process_table s1 = process_table s) as (Hps & Hid1 & Hrn & Hon1 & Htb) by (by destruct Hf as (mm & qs & -> & _)).
  wp_step. eapply wp_upd_proc; [by rewrite Hps|].
  wp_step. unfold reset_aging. wp_step. wp_step. simpl.
  rewrite decide_False by (rewrite Hid1; tauto).
  eapply wp_upd_proc; [apply lookup_insert_eq|]. simpl. rewrite insert_insert_eq.
  wp_step. apply wp_modify. wp_step. wp_step. simpl.
  rewrite bool_decide_false by (by rewrite Hrn). simpl. wp_step. wp_step. wp_step.
  rewrite Hps. do 5 (split; [done|]). exists l1, l2. split; [done|]. split; [|done].
  apply sched_inv_if. constructor; simpl; try done.
  - by rewrite Hon1.
  - by apply sched_rep_procs, sched_rep_procs.
  - apply ready_ok_insert with P; rewrite ?Hps in *; try done; [by rewrite Hst|].
    intros i Hi Hpi. exfalso. by apply (Hun1 i).
  - rewrite Hrn. destruct Hro as [Hn|(X & HX' & ?)]; [by left|].
    right. exists X. by rewrite lookup_insert_ne.
  - by rewrite Hid1.
  - rewrite Hid1. destruct HI as (I & HI & ?). exists I. by rewrite lookup_insert_ne.
Qed.

(** [block_process] of a READY process takes it out of its ready queue,
    which keeps the order of the others, marks it BLOCKED, resets its aging
    and changes no other process. *)
Theorem block_process_correct s T R p P
    (Hinv : sched_inv s T R) (HP : k_procs s !! p = Some P) (Hst : state P = READY)
    (Hin : p ∈ R (priority P)) (Hpid : pid P ≠ 1) (Hpr : is_prio (priority P))
    (Hrun : running_process s ≠ p) :
  wp false (block_process p) (λ r s', r = 0 ∧
    k_procs s' = <[p := set_wait_ticks 0 (set_state BLOCKED P)]> (k_procs s) ∧
    ∃ l1 l2, R (priority P) = l1 ++ p :: l2 ∧
      sched_inv s' T (fupd R (priority P) (l1 ++ l2)) ∧
      unqueued (fupd R (priority P) (l1 ++ l2)) p) s.
Proof.
  eapply wp_mono; [by apply (block_queued_spec s T R p P)|].
  intros r s' (-> & Hps & _ & _ & _ & Hq). done.
Qed.
End properties.

(** ** A concrete kernel for the witnesses

    The idle process (PCB 1000) is running, PCB 2000 is READY at level 0 and
    PCB 3000 is BLOCKED. *)
Section demo.
Definition demo_pcb (pid : Z) (st : ProcessState) (stack : Z) : Process :=
  PCB pid 1 st 1 NULL (stack + 100) stack 0 0 0 1 0 0 0 [0; 1; 2] [] 0.

Definition demo_procs : gmap Z Process :=
  list_to_map [(1000, demo_pcb 0 RUNNING 10000); (2000, demo_pcb 2 READY 20000);
    (3000, demo_pcb 3 BLOCKED 30000)].
Definition demo_queues : gmap Z queue :=
  list_to_map [(100, Queue [Node 50 60 2000] None 8); (101, Queue [] None 8);
    (102, Queue [] None 8); (103, Queue [] None 8)].
Definition demo_arrays : gmap Z ArrayCDT :=
  {[90 := Array 91 (list_to_map [(0, 100); (1, 101); (2, 102); (3, 103)]) 8 4 1024 None]}.

Definition demo_kst : kst ff_state :=
  KState ff_demo true 10500 demo_procs demo_queues demo_arrays ∅ ∅ ∅ ∅ ∅
    zeroed (replicate 64 NULL) 90 1000 1000 NULL true NULL 3 NULL.

Definition demo_T (i : Z) : Z := 100 + i.
Definition demo_R : Z → list Z := fupd (λ _, []) 0 [2000].

Lemma demo_procs_inv p P :
  demo_procs !! p = Some P →
  (p = 1000 ∧ P = demo_pcb 0 RUNNING 10000) ∨ (p = 2000 ∧ P = demo_pcb 2 READY 20000) ∨
  (p = 3000 ∧ P = demo_pcb 3 BLOCKED 30000).
Proof.
  unfold demo_procs. simpl.
  repeat (intros [[<- <-]|[_ HP]]%lookup_insert_Some; [tauto|revert HP]).
  by rewrite lookup_empty.
Qed.

Lemma demo_ready : ready_ok demo_procs 1000 demo_R.
Proof.
  constructor.
  - intros i _. unfold demo_R, fupd. case_decide; [apply NoDup_singleton|constructor].
  - intros i p Hi. unfold demo_R, fupd. case_decide; [|by intros ?%elem_of_nil].
    intros ->%list_elem_of_singleton. constructor; [done..|].
    exists (demo_pcb 2 READY 20000). unfold stack_ok, PROCESS_STACK_SIZE. simpl.
    split_and!; try done; lia.
  - intros p q P Q HP HQ _ _.
    destruct (demo_procs_inv _ _ HP) as [[-> ->]|[[-> ->]|[-> ->]]],
      (demo_procs_inv _ _ HQ) as [[-> ->]|[[-> ->]|[-> ->]]]; simpl; lia.
Qed.

Lemma demo_inv : sched_inv demo_kst demo_T demo_R.
Proof.
  constructor; try done.
  - constructor.
    + split; [done|]. eexists. split; [done|]. constructor; simpl; try done.
      intros [|[|[|[|i]]]] v; simpl; try done; by intros [= <-].
    + intros i Hi _. exists None. split; [unfold demo_T, is_prio, MIN_PRIORITY in *; lia|].
      destruct (is_prio_cases i Hi) as [->|[->|[->| ->]]]; by eexists.
    + intros i Hi HT. unfold demo_T, is_prio, MIN_PRIORITY in *. lia.
    + intros i j _ _ HT. unfold demo_T in HT. lia.
  - apply demo_ready.
  - right. by exists (demo_pcb 0 RUNNING 10000).
  - by exists (demo_pcb 0 RUNNING 10000).
Qed.

Lemma demo_rsp : rsp_ok demo_procs 1000 1000 10500.
Proof. by intros P. Qed.

Lemma schedule_refines_witness :
  wp true (schedule 10500) (λ r s', ∃ T' R',
    sched_inv s' T' R' ∧ lost_some T' demo_T ∧
    ((∀ i, is_prio i → T' i ≠ NULL) →
       let '(r0, a) := abs_schedule 1000 10500 (Sched demo_procs demo_R 1000) in
       r = r0 ∧ agrees a (k_procs s') R' ∧ running_process s' = sc_running a)) demo_kst.
Proof. exact (schedule_refines demo_kst demo_T demo_R 10500 demo_inv demo_rsp). Defined.

Lemma schedule_picks_highest_witness :
  wp true (schedule 10500) (λ r s', ∃ T' R' P,
    sched_inv s' T' R' ∧
    k_procs s' !! running_process s' = Some P ∧ state P = RUNNING ∧ rsp P = r ∧
    (running_process s' = 1000 ∧ 0 < quantum_remaining P ∧ r = 10500 ∨
     ∀ i, is_prio i → running_process s' = 1000 ∨ priority P < i → R' i = [])) demo_kst.
Proof. exact (schedule_picks_highest demo_kst demo_T demo_R 10500 demo_inv demo_rsp). Defined.

Lemma schedule_keeps_ready_witness :
  wp true (schedule 10500) (λ r s', ∃ T' R', sched_inv s' T' R' ∧
    ((∀ i, is_prio i → T' i ≠ NULL) → ready_complete (k_procs s') 1000 R')) demo_kst.
Proof.
  refine (schedule_keeps_ready demo_kst demo_T demo_R 10500 demo_inv demo_rsp _).
  intros p P HP. destruct (demo_procs_inv _ _ HP) as [[-> ->]|[[-> ->]|[-> ->]]]; try done.
  intros _ _. exists 0. split; [done|]. apply list_elem_of_here.
Defined.

Lemma unblock_process_correct_witness :
  wp true (unblock_process 3000) (λ r s', r = 0 ∧
    k_procs s' = <[3000 := set_state READY (demo_pcb 3 BLOCKED 30000)]> demo_procs ∧
    ∃ T' R', sched_inv s' T' R' ∧ lost_some T' demo_T ∧
      ((∀ i, is_prio i → T' i ≠ NULL) → R' = fupd demo_R 0 (demo_R 0 ++ [3000]))) demo_kst.
Proof.
  refine (unblock_process_correct demo_kst demo_T demo_R 3000 (demo_pcb 3 BLOCKED 30000)
    demo_inv _ _ _ _ _ _ _ _); try done.
Defined.

Lemma block_process_correct_witness :
  wp false (block_process 2000) (λ r s', r = 0 ∧
    k_procs s' = <[2000 := set_wait_ticks 0 (set_state BLOCKED (demo_pcb 2 READY 20000))]>
      demo_procs ∧
    ∃ l1 l2, demo_R 0 = l1 ++ 2000 :: l2 ∧
      sched_inv s' demo_T (fupd demo_R 0 (l1 ++ l2)) ∧
      unqueued (fupd demo_R 0 (l1 ++ l2)) 2000) demo_kst.
Proof.
  refine (block_process_correct demo_kst demo_T demo_R 2000 (demo_pcb 2 READY 20000)
    demo_inv _ _ _ _ _ _); try done.
  apply list_elem_of_here.
Defined.

(** The schedule really picks the READY process (evaluated). *)
Example demo_schedule_runs :
  match schedule 10500 demo_kst with
  | Ret r s' => r = 20100 ∧ running_process s' = 2000
  | _ => False
  end.
Proof. vm_compute. done. Qed.
End demo.
