(* ===== verification/Sem.v ===== *)
(** * Semaphores ([sem.c])

    Named counting semaphores: a registry (a lock and a queue of semaphore
    pointers) and, for each semaphore, a value, a lock, a count of users and a
    queue of blocked pids.  The spin locks [semLock]/[semUnlock] are those of
    [asm/sem.asm]: on this single core a lock that is already taken never
    becomes free while the caller spins. *)

From S2P Require Import Prelude MemoryManager Queue Strings Monad KState Scheduler FirstFit.

Section sem.
Context {St : Type} `{MemoryManager St}.
Abbreviation K := (K (kst St)).

(** [get_process] of [process.c]. *)
Definition get_process (pid : Z) : K Z :=
  if decide (pid < 0 ∨ MAX_PROCESSES ≤ pid) then mret NULL
  else t ← kgets process_table; mret (default NULL (t !! Z.to_nat pid)).

Definition lock_registry (g : Z) : K unit :=
  x ← deref k_semqs g;
  if decide (sq_lock x ≠ 0) then diverge else put_semq g (set_sq_lock 1 x).
Definition unlock_registry (g : Z) : K unit :=
  x ← deref k_semqs g; put_semq g (set_sq_lock 0 x).

Definition semLock (a : Z) : K unit :=
  x ← deref k_sems a;
  if decide (s_lock x ≠ 0) then diverge else put_sem a (set_s_lock 1 x).
Definition semUnlock (a : Z) : K unit := upd_sem a (set_s_lock 0).

Definition compare_process_ids (pid : Z) (s : kst St) (v : Z) : option bool :=
  Some (bool_decide (v - pid = 0)).
Definition compare_semaphore_pointers (a : Z) (s : kst St) (v : Z) : option bool :=
  Some (bool_decide (v = a)).

Definition registry_queue : K Z :=
  g ← kgets global_semaphore_registry; x ← deref k_semqs g; mret (sq_sems x).

Definition initSemQueue : K Z :=
  g ← kgets global_semaphore_registry;
  if decide (g ≠ NULL) then panic "Semaphore queue already initialized"
  else
    g ← kalloc SEMQUEUE_SIZE;
    _ ← kmodify (set_global_semaphore_registry g);
    if decide (g = NULL) then panic "Failed to allocate memory for semaphore queue"
    else
      q ← q_create 8;
      _ ← put_semq g (SemQueue 0 q);
      mret (if decide (q = NULL) then -1 else 1).

(** [while (queueSize(sems) > 0)] of [freeSemQueue]. *)
Fixpoint free_sems_loop (fuel : nat) (q : Z) : K unit :=
  match fuel with
  | O => diverge
  | S fuel =>
      n ← q_size q;
      if decide (0 < n) then
        r ← q_dequeue q;
        _ ← match r with
            | Some a =>
                if decide (a = NULL) then mret tt
                else
                  x ← deref k_sems a;
                  _ ← (if decide (blockedProcesses x = NULL) then mret tt
                       else q_free (blockedProcesses x));
                  free_sem a
            | None => mret tt
            end;
        free_sems_loop fuel q
      else mret tt
  end.

Definition freeSemQueue : K unit :=
  g ← kgets global_semaphore_registry;
  if decide (g = NULL) then mret tt
  else
    _ ← lock_registry g;
    q ← registry_queue;
    _ ← (if decide (q = NULL) then mret tt
         else
           n ← q_size q;
           _ ← free_sems_loop (S (Z.to_nat n)) q;
           q_free q);
    _ ← unlock_registry g;
    _ ← free_semq g;
    kmodify (set_global_semaphore_registry NULL).

(** The loop of [locate_semaphore_by_name], with [n] iterations left; the
    candidate keeps its value when the iterator has none. *)
Fixpoint locate_loop (n : nat) (q : Z) (name : list Z) (candidate : Z) : K Z :=
  match n with
  | O => mret NULL
  | S n =>
      r ← q_nextIter q;
      let candidate := default candidate r in
      if decide (candidate = NULL) then locate_loop n q name candidate
      else
        x ← deref k_sems candidate;
        if decide (strcmp_chars (s_name x) name = 0) then mret candidate
        else locate_loop n q name candidate
  end.

Definition locate_semaphore_by_name (name : list Z) : K Z :=
  q ← registry_queue;
  n ← q_size q;
  if decide (n = 0) then mret NULL
  else
    _ ← q_beginIter q;
    locate_loop (Z.to_nat n) q name NULL.

Definition is_semaphore_valid (a : Z) : K bool :=
  g ← kgets global_semaphore_registry;
  if decide (a = NULL ∨ g = NULL) then mret false
  else
    _ ← lock_registry g;
    q ← registry_queue;
    b ← q_elementExists q (compare_semaphore_pointers a);
    _ ← unlock_registry g;
    mret b.

(** [semOpen] of a name that exists ... *)
Definition reuse_sem (g existing : Z) : K Z :=
  _ ← semLock existing;
  _ ← upd_sem existing (λ x, set_s_users (u16 (s_users x + 1)) x);
  _ ← semUnlock existing;
  _ ← unlock_registry g;
  mret existing.

(** ... and of one that does not. *)
Definition create_sem (g q : Z) (name : list Z) (value : Z) : K Z :=
  new_semaphore ← kalloc SEM_SIZE;
  if decide (new_semaphore = NULL) then
    _ ← unlock_registry g; mret NULL
  else
    bq ← q_create 4;
    _ ← put_sem new_semaphore (Sem name (u16 value) 0 1 bq);
    if decide (bq = NULL) then
      _ ← free_sem new_semaphore;
      _ ← unlock_registry g;
      mret NULL
    else
      _ ← q_enqueue q new_semaphore;
      _ ← unlock_registry g;
      mret new_semaphore.

(** [name] is [None] for a null pointer. *)
Definition semOpen (name : option (list Z)) (value : Z) : K Z :=
  match name with
  | None => mret NULL
  | Some name =>
      if decide (MAX_SEM_LENGTH ≤ Z.of_nat (length name)) then mret NULL
      else
        g ← kgets global_semaphore_registry;
        if decide (g = NULL) then mret NULL
        else
          _ ← lock_registry g;
          q ← registry_queue;
          e ← q_isEmpty q;
          existing ← (if e : bool then mret NULL else locate_semaphore_by_name name);
          if decide (existing ≠ NULL) then reuse_sem g existing
          else create_sem g q name value
  end.

(** The guard every operation on a semaphore starts with: [-1] when the
    registry is missing or the semaphore is not in it. *)
Definition with_valid (a : Z) (m : K Z) : K Z :=
  g ← kgets global_semaphore_registry;
  if decide (g = NULL) then mret (-1)
  else
    valid ← is_semaphore_valid a;
    if negb valid then mret (-1) else m.

Definition semClose (a : Z) : K Z := with_valid a (
  g ← kgets global_semaphore_registry;
  _ ← lock_registry g;
  _ ← semLock a;
  _ ← upd_sem a (λ x, set_s_users (u16 (s_users x - 1)) x);
  x ← deref k_sems a;
  if decide (s_users x ≠ 0) then
    _ ← semUnlock a; _ ← unlock_registry g; mret 0
  else
    q ← registry_queue;
    removed ← q_remove q (compare_semaphore_pointers a);
    if negb removed then
      _ ← upd_sem a (λ x, set_s_users (u16 (s_users x + 1)) x);
      _ ← semUnlock a; _ ← unlock_registry g; mret (-1)
    else
      x ← deref k_sems a;
      _ ← (if decide (blockedProcesses x = NULL) then mret tt
           else
             _ ← q_free (blockedProcesses x);
             upd_sem a (set_blockedProcesses NULL));
      _ ← semUnlock a;
      _ ← free_sem a;
      _ ← unlock_registry g;
      mret 0).

Definition semPost (a : Z) : K Z := with_valid a (
  _ ← semLock a;
  x ← deref k_sems a;
  blocked_count ← q_size (blockedProcesses x);
  result ← (if decide (0 < blocked_count) then
              r ← q_dequeue (blockedProcesses x);
              match r with
              | Some unblocked_pid =>
                  process_to_unblock ← get_process unblocked_pid;
                  _ ← (if decide (process_to_unblock = NULL) then mret tt
                       else _ ← unblock_process process_to_unblock; mret tt);
                  mret 0
              | None => mret (-1)
              end
            else
              _ ← upd_sem a (λ x, set_s_value (u16 (s_value x + 1)) x);
              mret 0);
  _ ← semUnlock a;
  mret result).

Definition semWait (a : Z) : K Z := with_valid a (
  _ ← semLock a;
  x ← deref k_sems a;
  if decide (s_value x = 0) then
    current_process ← get_running_process;
    if decide (current_process = NULL) then _ ← semUnlock a; mret (-1)
    else
      P ← deref k_procs current_process;
      r ← q_enqueue (blockedProcesses x) (pid P);
      if decide (r = NULL) then _ ← semUnlock a; mret (-1)
      else
        _ ← semUnlock a;
        _ ← block_process current_process;
        (* was_blocked *)
        _ ← _force_scheduler_interrupt;
        mret 0
  else
    _ ← upd_sem a (λ x, set_s_value (u16 (s_value x - 1)) x);
    _ ← semUnlock a;
    mret 0).

Definition semGetValue (a : Z) : K Z := with_valid a (
  _ ← semLock a; x ← deref k_sems a; _ ← semUnlock a; mret (s_value x)).

Definition semGetUsersCount (a : Z) : K Z := with_valid a (
  _ ← semLock a; x ← deref k_sems a; _ ← semUnlock a; mret (s_users x)).

Definition semGetBlockedProcessesCount (a : Z) : K Z := with_valid a (
  _ ← semLock a;
  x ← deref k_sems a;
  n ← q_size (blockedProcesses x);
  _ ← semUnlock a;
  mret n).

Definition removeFromSemaphore (a process_id : Z) : K Z :=
  if decide (a = NULL) then mret (-1)
  else
    _ ← semLock a;
    x ← deref k_sems a;
    b ← q_remove (blockedProcesses x) (compare_process_ids process_id);
    _ ← semUnlock a;
    mret (if b : bool then 1 else -1).
End sem.
