(* ===== verification/SemFacts.v ===== *)
(** * Semaphores: invariant and behaviour

    The registry as the kernel keeps it between two calls, and what opening,
    waiting and posting do to it: values count, blocked processes are woken
    in the order they arrived, a waiter gives up the CPU. *)

From S2P Require Import Prelude MemoryManager Queue Arrays Strings Monad KState KQueue.
From S2P Require Import Scheduler SchedulerFacts Sem FirstFit.

Section inv.
Context {St : Type} `{MemoryManager St}.
Implicit Types (s : kst St) (T : Z → Z) (R : Z → list Z).
Implicit Types (L : list Z) (X : Z → sem) (W : Z → list Z).

(** The registered semaphores [L] with their records [X] and the pids [W]
    blocked on each; [q] is the registry's queue, [T] the scheduler's. *)
Record sem_inv s T (q : Z) L X W : Prop := {
  se_registry : global_semaphore_registry s ≠ NULL ∧
    k_semqs s !! global_semaphore_registry s = Some (SemQueue 0 q);
  se_queue : q ≠ NULL ∧ ∃ Q, k_queues s !! q = Some Q ∧ q_vals Q = L ∧
    q_dataSize Q = 8 ∧ queue_wf Q;
  se_foreign : ∀ i, is_prio i → T i ≠ q;
  se_nonnull : NULL ∉ L;
  se_nodup : NoDup L;
  se_sem : ∀ a, a ∈ L → k_sems s !! a = Some (X a) ∧ s_lock (X a) = 0 ∧
    0 ≤ s_value (X a) < 2 ^ 16;
  se_blocked : ∀ a, a ∈ L → blockedProcesses (X a) ≠ q ∧
    (∀ i, is_prio i → T i ≠ blockedProcesses (X a)) ∧
    ∃ it, has_queue s (blockedProcesses (X a)) (W a) it;
  se_inj : ∀ a b, a ∈ L → b ∈ L →
    blockedProcesses (X a) = blockedProcesses (X b) → a = b;
}.

(** ** What the invariant depends on *)

Lemma sem_inv_agree s s' T T' q L X W :
  sem_inv s T q L X W → lost_some T' T →
  global_semaphore_registry s' = global_semaphore_registry s →
  k_semqs s' = k_semqs s → (∀ a, a ∈ L → k_sems s' !! a = k_sems s !! a) →
  (∀ p, p = q ∨ (∃ a, a ∈ L ∧ p = blockedProcesses (X a)) →
     k_queues s' !! p = k_queues s !! p) →
  sem_inv s' T' q L X W.
Proof.
  intros [H1 (Hq & Q & HQ) H3 H4 H5 H6 H7 H8] HT Hg Hsq Hse Hqs.
  assert (∀ p, p ≠ NULL → (∀ i, is_prio i → T i ≠ p) → ∀ i, is_prio i → T' i ≠ p) as HT'.
  { intros p Hp Hne i Hi. destruct (HT i Hi) as [->| ->]; auto. }
  constructor; try done.
  - by rewrite Hg, Hsq.
  - split; [done|]. exists Q. rewrite Hqs by auto. done.
  - by apply HT'.
  - intros a Ha. rewrite Hse by done. auto.
  - intros a Ha. destruct (H7 a Ha) as (? & Hne & it & Hn & Q' & HQ').
    split; [done|]. split; [by apply HT'|]. exists it. split; [done|].
    exists Q'. rewrite Hqs by eauto. done.
Qed.

Lemma sem_inv_frame s s' T T' q L X W :
  sem_inv s T q L X W → lost_some T' T →
  global_semaphore_registry s' = global_semaphore_registry s →
  k_semqs s' = k_semqs s → k_sems s' = k_sems s →
  (∀ p, p ≠ NULL → (∀ i, is_prio i → T i ≠ p) → k_queues s' !! p = k_queues s !! p) →
  sem_inv s' T' q L X W.
Proof.
  intros Hse HT Hg Hsq Hk Hqs. eapply sem_inv_agree; [done..|by rewrite Hk|].
  intros p [->|(a & Ha & ->)].
  - apply Hqs; apply Hse.
  - destruct (se_blocked _ _ _ _ _ _ Hse a Ha) as (_ & ? & it & ? & _). by apply Hqs.
Qed.

Lemma sem_inv_xframe s s' T T' q L X W :
  xframe T s s' → lost_some T' T → sem_inv s T q L X W → sem_inv s' T' q L X W.
Proof.
  intros (?&?&?&?&?&?&?&?)%xframe_fields ? ?. by eapply sem_inv_frame.
Qed.

Lemma sem_inv_ext s T q L X X' W W' :
  (∀ a, a ∈ L → X a = X' a) → (∀ a, a ∈ L → W a = W' a) →
  sem_inv s T q L X W → sem_inv s T q L X' W'.
Proof.
  intros HX HW [H1 H2 H3 H4 H5 H6 H7 H8]. constructor; try done.
  - intros a Ha. rewrite <-HX by done. auto.
  - intros a Ha. rewrite <-HX, <-HW by done. auto.
  - intros a b Ha Hb. rewrite <-!HX by done. auto.
Qed.

(** The scheduler does not look at the semaphores. *)
Lemma sched_inv_ext s s' T R :
  sched_inv s T R → scheduler_online s' = scheduler_online s →
  process_priority_table s' = process_priority_table s → k_arrays s' = k_arrays s →
  k_procs s' = k_procs s → idle_proc s' = idle_proc s →
  running_process s' = running_process s →
  (∀ i, is_prio i → T i ≠ NULL → k_queues s' !! T i = k_queues s !! T i) →
  sched_inv s' T R.
Proof.
  intros [H1 [Ht Hq Hn Hi] H3 H4 H5 H6] Eo Et Ea Ep Ei Er Hqs.
  constructor; rewrite ?Eo, ?Ep, ?Ei, ?Er; try done. constructor; try done.
  - unfold table_rep. by rewrite Et, Ea.
  - intros i Hi' HT. destruct (Hq i Hi' HT) as (it & Hnn & Q & HQ).
    exists it. split; [done|]. exists Q. by rewrite Hqs.
Qed.

(** ** The steps the operations share *)

(** The caller's own semaphore, changed under its lock. *)
Lemma sem_inv_put s T q L X W a x :
  sem_inv s T q L X W → a ∈ L → s_lock x = 0 → 0 ≤ s_value x < 2 ^ 16 →
  blockedProcesses x = blockedProcesses (X a) →
  sem_inv (set_k_sems (<[a := x]> (k_sems s)) s) T q L (fupd X a x) W.
Proof.
  intros [H1 H2 H3 H4 H5 H6 H7 H8] Ha Hl Hv Hb. constructor; try done.
  - intros b Hb'. destruct (decide (b = a)) as [->|].
    + rewrite fupd_eq. simpl. by rewrite lookup_insert_eq.
    + rewrite fupd_ne by done. simpl. rewrite lookup_insert_ne by done. auto.
  - intros b Hb'. destruct (decide (b = a)) as [->|].
    + rewrite fupd_eq, Hb. by apply H7.
    + rewrite fupd_ne by done. by apply H7.
  - intros b c Hb' Hc. unfold fupd.
    repeat case_decide; subst; rewrite ?Hb; auto.
Qed.

(** The queue of blocked pids of one semaphore changed. *)
Lemma sem_inv_queue s s' T q L X W a l it :
  sem_inv s T q L X W → a ∈ L → qframe (blockedProcesses (X a)) s s' →
  has_queue s' (blockedProcesses (X a)) l it →
  sem_inv s' T q L X (fupd W a l).
Proof.
  intros [H1 (Hq & Q & HQ) H3 H4 H5 H6 H7 H8] Ha Hf Hl.
  pose proof Hf as (mm & qs & -> & Hqs).
  constructor; try done.
  - split; [done|]. exists Q. simpl. rewrite Hqs; [done|].
    intros ->. by apply (H7 a Ha).
  - intros b Hb. destruct (H7 b Hb) as (? & ? & it' & Hit').
    split; [done|]. split; [done|]. destruct (decide (b = a)) as [->|Hne].
    + rewrite fupd_eq. by exists it.
    + rewrite fupd_ne by done. exists it'. eapply has_queue_frame; [done| |done].
      intros E. by apply Hne, H8.
Qed.

Lemma sched_inv_queue s s' T R b :
  sched_inv s T R → (∀ i, is_prio i → T i ≠ b) → qframe b s s' → sched_inv s' T R.
Proof.
  intros Hs Hb (mm & qs & -> & Hqs).
  eapply sched_inv_ext; [done..|]. intros i Hi HT. simpl. by apply Hqs, Hb.
Qed.

Lemma sched_inv_sems s s' T R :
  sched_inv s T R → (∃ x, s' = set_k_sems x s) → sched_inv s' T R.
Proof. intros ? [x ->]. by eapply sched_inv_ext. Qed.

(** [is_semaphore_valid] answers whether the semaphore is registered.  It
    leaves the registry as it was. *)
Definition vframe s s' : Prop :=
  ∃ mm qs sq, s' = set_k_semqs sq (set_k_queues qs (set_k_mm mm s)).

Lemma wp_valid pan s T R q L X W a (Q : bool → kst St → Prop) :
  sem_inv s T q L X W → sched_inv s T R → a ≠ NULL → (mm_alloc (k_mm s) 8).1 ≠ NULL →
  (∀ s', vframe s s' → sem_inv s' T q L X W → sched_inv s' T R →
     Q (bool_decide (a ∈ L)) s') →
  wp pan (is_semaphore_valid a) Q s.
Proof.
  intros [[Hg Hr] (Hq & Q0 & HQ0 & HL & Hds & Hwf) Hf Hnn Hnd Hs Hb Hi] Hsch Ha Hmm HQ.
  unfold is_semaphore_valid. wp_step. wp_step. rewrite decide_False by tauto.
  wp_step. unfold lock_registry. wp_step. wp_step. rewrite decide_False by (simpl; tauto).
  apply wp_modify. wp_step. unfold registry_queue. wp_step. wp_step. wp_step. simpl.
  eapply wp_deref; [apply lookup_insert_eq|]. wp_step. wp_step.
  eapply (wp_elementExists _ _ Q0); try done.
  { simpl. by rewrite Hds. }
  intros b s2 Q1 (mm & qs & -> & Hqs) HQ1 HV1 HD1 HW1 Hbb. simpl in HQ1.
  wp_step. unfold unlock_registry. wp_step. simpl.
  eapply wp_deref; [apply lookup_insert_eq|]. apply wp_modify. wp_step. simpl.
  assert (b = bool_decide (a ∈ L)) as ->.
  { apply eq_bool_prop_intro. rewrite bool_decide_spec, Is_true_true, Hbb, HL.
    unfold compare_semaphore_pointers. split.
    - intros (v & Hv & [= E%bool_decide_eq_true]). by subst.
    - intros Hin. exists a. split; [done|]. by rewrite bool_decide_true. }
  apply HQ.
  - by eexists _, _, _.
  - constructor; try done; simpl.
    + by rewrite lookup_insert_eq.
    + split; [done|]. exists Q1. by rewrite HV1, HD1, HL.
    + intros c Hc. destruct (Hb c Hc) as (? & ? & it & Hn & Q' & HQ').
      split; [done|]. split; [done|]. exists it. split; [done|]. exists Q'.
      simpl. by rewrite Hqs.
  - eapply sched_inv_ext; [done..|]. intros i Hi' HT. simpl. rewrite Hqs; [done|].
    by apply Hf.
Qed.

(** Taking and releasing a semaphore's lock. *)
Lemma wp_semLock pan s a x (Q : unit → kst St → Prop) :
  k_sems s !! a = Some x → s_lock x = 0 →
  Q tt (set_k_sems (<[a := set_s_lock 1 x]> (k_sems s)) s) → wp pan (semLock a) Q s.
Proof.
  intros Hx Hl HQ. unfold semLock. wp_step. wp_step. rewrite decide_False by tauto.
  by apply wp_modify.
Qed.

Lemma wp_upd_sem pan s a f x (Q : unit → kst St → Prop) :
  k_sems s !! a = Some x → Q tt (set_k_sems (<[a := f x]> (k_sems s)) s) →
  wp pan (upd_sem a f) Q s.
Proof. intros Hx HQ. unfold upd_sem. wp_step. wp_step. by apply wp_modify. Qed.


(** A call returns [a] in a state that satisfies [Qr], or gives up the CPU
    as [Qs] says (or, if [pan], stops in [panic()]). *)
Definition outcome {A} (pan : bool) (m : K (kst St) A) (Qr : A → kst St → Prop)
    (Qs : kst St → (kst St → res (kst St) A) → Prop) s : Prop :=
  match m s with
  | Ret a s' => Qr a s'
  | Switch s' k => Qs s' k
  | Panic _ _ => pan = true
  | _ => False
  end.

Lemma outcome_wp {A} pan (m : K (kst St) A) Qr Qs s : wp pan m Qr s → outcome pan m Qr Qs s.
Proof. unfold outcome, wp. by destruct (m s). Qed.

Lemma outcome_switches {A} pan (m : K (kst St) A) Qr Qs s :
  switches pan m Qs s → outcome pan m Qr Qs s.
Proof. unfold outcome, switches. by destruct (m s). Qed.

Lemma outcome_bind {A B} pan (m : K (kst St) A) (f : A → K (kst St) B) Qr Qs s :
  wp pan m (λ a s', outcome pan (f a) Qr Qs s') s → outcome pan (m ≫= f) Qr Qs s.
Proof. unfold outcome, wp, mbind, K_bind. by destruct (m s). Qed.

(** The common prologue of the operations, on a registered semaphore ... *)
Lemma wp_with_valid pan s T R q L X W a m (Q : Z → kst St → Prop) :
  sem_inv s T q L X W → sched_inv s T R → a ∈ L → (mm_alloc (k_mm s) 8).1 ≠ NULL →
  (∀ s', vframe s s' → sem_inv s' T q L X W → sched_inv s' T R → wp pan m Q s') →
  wp pan (with_valid a m) Q s.
Proof.
  intros Hse Hsc Ha Hmm HQ. unfold with_valid. wp_step. wp_step.
  rewrite decide_False by apply (se_registry _ _ _ _ _ _ Hse). wp_step.
  eapply wp_valid; [done..| |done|].
  { intros ->. by apply (se_nonnull _ _ _ _ _ _ Hse). }
  intros s' Hf Hse' Hsc'. rewrite bool_decide_true by done. simpl. by apply HQ.
Qed.

Lemma outcome_with_valid pan s T R q L X W a m (Qr : Z → kst St → Prop) Qs :
  sem_inv s T q L X W → sched_inv s T R → a ∈ L → (mm_alloc (k_mm s) 8).1 ≠ NULL →
  (∀ s', vframe s s' → sem_inv s' T q L X W → sched_inv s' T R → outcome pan m Qr Qs s') →
  outcome pan (with_valid a m) Qr Qs s.
Proof.
  intros Hse Hsc Ha Hmm HQ. unfold with_valid. apply outcome_bind. wp_step.
  rewrite decide_False by apply (se_registry _ _ _ _ _ _ Hse). apply outcome_bind.
  eapply wp_valid; [done..| |done|].
  { intros ->. by apply (se_nonnull _ _ _ _ _ _ Hse). }
  intros s' Hf Hse' Hsc'. rewrite bool_decide_true by done. simpl. by apply HQ.
Qed.

(** ... and on anything else. *)
Lemma wp_with_invalid pan s T R q L X W a m (Q : Z → kst St → Prop) :
  sem_inv s T q L X W → sched_inv s T R → a ∉ L → (mm_alloc (k_mm s) 8).1 ≠ NULL →
  (∀ s', vframe s s' → sem_inv s' T q L X W → sched_inv s' T R → Q (-1) s') →
  wp pan (with_valid a m) Q s.
Proof.
  intros Hse Hsc Ha Hmm HQ. unfold with_valid. wp_step. wp_step.
  rewrite decide_False by apply (se_registry _ _ _ _ _ _ Hse). wp_step.
  destruct (decide (a = NULL)) as [->|Hn].
  - unfold is_semaphore_valid. wp_step. wp_step. rewrite decide_True by tauto. wp_step. simpl.
    wp_step. apply HQ; [|done..]. exists (k_mm s), (k_queues s), (k_semqs s). by destruct s.
  - eapply wp_valid; [done..|]. intros s' Hf Hse' Hsc'.
    rewrite bool_decide_false by done. simpl. wp_step. auto.
Qed.

(** Under the lock of a registered semaphore. *)
Lemma sem_locked s T q L X W a :
  sem_inv s T q L X W → a ∈ L →
  k_sems s !! a = Some (X a) ∧ s_lock (X a) = 0 ∧
  set_s_lock 0 (set_s_lock 1 (X a)) = X a.
Proof.
  intros Hse Ha. destruct (se_sem _ _ _ _ _ _ Hse a Ha) as (Hx & Hl & _).
  split; [done|]. split; [done|]. destruct (X a). simpl in *. by rewrite Hl.
Qed.

(** Changing the value under the lock. *)
Lemma sem_inv_value s T q L X W a v :
  sem_inv s T q L X W → a ∈ L → 0 ≤ v < 2 ^ 16 →
  sem_inv (set_k_sems
    (<[a := set_s_lock 0 (set_s_value v (set_s_lock 1 (X a)))]> (k_sems s)) s)
    T q L (fupd X a (set_s_value v (X a))) W.
Proof.
  intros Hse Ha Hv. destruct (sem_locked _ _ _ _ _ _ _ Hse Ha) as (_ & Hl & _).
  replace (set_s_lock 0 _) with (set_s_value v (X a))
    by (destruct (X a); simpl in *; by rewrite Hl).
  by apply sem_inv_put.
Qed.

(** The blocked queue changed while the lock was held. *)
Lemma locked_queue s s3 T R q L X W a l it :
  sem_inv s T q L X W → sched_inv s T R → a ∈ L →
  qframe (blockedProcesses (X a)) (set_k_sems (<[a := set_s_lock 1 (X a)]> (k_sems s)) s) s3 →
  has_queue s3 (blockedProcesses (X a)) l it →
  sched_inv s3 T R ∧ sem_inv (set_k_sems (k_sems s) s3) T q L X (fupd W a l) ∧
  k_sems s3 = <[a := set_s_lock 1 (X a)]> (k_sems s) ∧
  k_procs s3 = k_procs s ∧ running_process s3 = running_process s ∧
  idle_proc s3 = idle_proc s ∧ process_table s3 = process_table s ∧ k_rsp s3 = k_rsp s ∧
  k_pipes s3 = k_pipes s.
Proof.
  intros Hse Hsc Ha Hf Hl. split.
  { eapply sched_inv_queue; [|by apply (se_blocked _ _ _ _ _ _ Hse)|exact Hf].
    by eapply sched_inv_sems; [|by eexists]. }
  split; [|by destruct Hf as (? & ? & -> & _)].
  eapply (sem_inv_queue s); [done..| |exact Hl].
  destruct Hf as (mm & qs & -> & Hqs). exists mm, qs. split; [by destruct s|done].
Qed.

(** ** The registry's queue under its lock *)

Record reg_queue s (q : Z) L (it : option nat) : Prop := {
  rq_nonnull : q ≠ NULL;
  rq_queue : ∃ Q, k_queues s !! q = Some Q ∧ q_vals Q = L ∧ q_dataSize Q = 8 ∧
    queue_wf Q ∧ q_iter Q = it;
}.

Lemma reg_queue_has s q L it : reg_queue s q L it → has_queue s q L it.
Proof. intros [Hn (Q & ? & ? & ? & ? & ?)]. split; [done|]. by exists Q. Qed.

Lemma wp_reg_begin pan q L it s (Q : unit → kst St → Prop) :
  reg_queue s q L it → L ≠ [] →
  (∀ s', qframe q s s' → k_mm s' = k_mm s → reg_queue s' q L (Some O) → Q tt s') →
  wp pan (q_beginIter q) Q s.
Proof.
  intros [Hn (Q0 & HQ & Hv & Hd & Hwf & Hit)] HL Hok. unfold q_beginIter.
  rewrite decide_False by done. wp_step. wp_step.
  destruct (queueBegin_spec Q0) as (Hv' & Hd' & Hi). rewrite Hv in *. specialize (Hi HL).
  apply wp_modify, Hok; [apply qframe_put|done|]. split; [done|].
  eexists. simpl. rewrite lookup_insert_eq. split_and!; try done; [by rewrite Hd'|].
  unfold queue_wf. rewrite Hi. rewrite <-q_vals_length, Hv'. destruct L; simpl; [done|lia].
Qed.

Lemma wp_reg_next pan q L i v s (Q : option Z → kst St → Prop) :
  reg_queue s q L (Some i) → L !! i = Some v →
  (∀ s', qframe q s s' → k_mm s' = k_mm s →
     reg_queue s' q L (Some (if decide (S i < length L)%nat then S i else O)) →
     Q (Some v) s') →
  wp pan (q_nextIter q) Q s.
Proof.
  intros [Hn (Q0 & HQ & Hv & Hd & Hwf & Hit)] Hi Hok. unfold q_nextIter.
  rewrite decide_False by done. wp_step. wp_step. rewrite <-Hv in Hi.
  destruct (queueNext_spec Q0 i v Hit Hi) as (q1 & E & Hv1 & Hi1 & Hd1 & Hw1).
  rewrite E. wp_step. wp_step. wp_step. apply wp_modify. wp_step.
  apply Hok; [apply qframe_put|done|]. rewrite Hv in *. split; [done|].
  eexists. simpl. rewrite lookup_insert_eq. by rewrite Hd1.
Qed.

Lemma wp_reg_enqueue pan q L it v s (Q : Z → kst St → Prop) :
  reg_queue s q L it →
  (∀ s', grants_node (k_mm s) 8 = true → qframe q s s' → reg_queue s' q (L ++ [v]) it → Q q s') →
  (∀ s', grants_node (k_mm s) 8 = false → qframe q s s' → reg_queue s' q L it → Q NULL s') →
  wp pan (q_enqueue q v) Q s.
Proof.
  intros [Hn (Q0 & HQ & Hv & Hd & Hwf & Hit)] Hok Hfail. unfold q_enqueue.
  rewrite decide_False by done. wp_step. wp_step.
  pose proof (enqueue_spec (k_mm s) Q0 v) as Hs.
  pose proof (enqueue_granted (k_mm s) Q0 v) as Hg. rewrite Hd in Hg. unfold wp, kact.
  destruct (enqueue (k_mm s) Q0 v) as [[q1|] mm].
  - destruct Hs as (Hv1 & Hi1 & Hd1 & Hw1). apply Hok; [done|apply qframe_put_mm|].
    split; [done|]. exists q1. simpl.
    rewrite lookup_insert_eq, Hv1, Hi1, Hd1, Hv. split_and!; auto.
  - apply Hfail; [done|exists mm, (k_queues s); split; [by destruct s|done]|].
    split; [done|]. by exists Q0.
Qed.

(** The first registered semaphore of that name. *)
Fixpoint find_sem X (name : list Z) L : Z :=
  match L with
  | [] => NULL
  | a :: L => if decide (s_name (X a) = name) then a else find_sem X name L
  end.

Definition c_name (name : list Z) : Prop := Forall (λ c, c ≠ 0) name.

Lemma wp_locate_loop pan q name L X l : ∀ i s c (Q : Z → kst St → Prop),
  reg_queue s q L (Some i) → drop i L = l → (l = [] → False) →
  c_name name → NULL ∉ L →
  (∀ a, a ∈ L → k_sems s !! a = Some (X a) ∧ c_name (s_name (X a))) →
  (∀ s' it, qframe q s s' → k_mm s' = k_mm s → reg_queue s' q L it →
     Q (find_sem X name l) s') →
  wp pan (locate_loop (length l) q name c) Q s.
Proof.
  induction l as [|a l IH]; intros i s c Q Hq Hd Hl Hname Hnn HX HQ; [by destruct Hl|].
  assert (L !! i = Some a) as Hi by (by rewrite <-(Nat.add_0_r i), <-lookup_drop, Hd).
  assert (a ∈ L) as Ha by (by eapply list_elem_of_lookup_2).
  assert (a ≠ NULL) as Ha0 by (by intros ->).
  cbn [length locate_loop]. wp_step. eapply wp_reg_next; [done..|]. intros s1 Hf Hm1 Hq1.
  simpl. rewrite decide_False by done.
  pose proof Hf as (mm & qs & Es & _). destruct (HX a Ha) as [HXa Hcn].
  wp_step. eapply wp_deref; [rewrite Es; exact HXa|].
  pose proof (strcmp_chars_eq (s_name (X a)) name Hcn Hname) as Hcmp.
  cbn [find_sem] in HQ. destruct (decide (s_name (X a) = name)) as [E|E].
  - rewrite decide_True by tauto. wp_step. by eapply HQ.
  - rewrite decide_False by tauto.
    destruct (decide (l = [])) as [->|Hne].
    + simpl. wp_step. by eapply HQ.
    + assert (drop (S i) L = l) as Hd' by (by rewrite <-Nat.add_1_r, <-drop_drop, Hd).
      assert (S i < length L)%nat as Hlt.
      { destruct (decide (S i < length L)%nat); [done|]. exfalso. apply Hne.
        rewrite <-Hd'. apply drop_ge. lia. }
      rewrite decide_True in Hq1 by done.
      eapply (IH (S i)); try done.
      * intros b Hb. rewrite Es. by apply HX.
      * intros s2 it Hf2 Hm2 Hq2. eapply HQ; [|by rewrite Hm2|done]. by eapply qframe_trans.
Qed.

Lemma find_sem_spec X name L a :
  NULL ∉ L → find_sem X name L = a → a ≠ NULL → a ∈ L ∧ s_name (X a) = name.
Proof.
  induction L as [|b L IH]; simpl; [naive_solver|].
  intros Hnn. case_decide; intros <- Ha; [set_solver|].
  destruct IH; [set_solver|done..|set_solver].
Qed.

(** The lookup of [semOpen]. *)
Lemma wp_lookup pan s q name L X it (Q : Z → kst St → Prop) :
  reg_queue s q L it → c_name name → NULL ∉ L →
  (∃ l, k_semqs s !! global_semaphore_registry s = Some (SemQueue l q)) →
  (∀ a, a ∈ L → k_sems s !! a = Some (X a) ∧ c_name (s_name (X a))) →
  (∀ s' it', qframe q s s' → k_mm s' = k_mm s → reg_queue s' q L it' →
     Q (find_sem X name L) s') →
  wp pan (e ← q_isEmpty q; if e : bool then mret NULL else locate_semaphore_by_name name) Q s.
Proof.
  intros Hq Hname Hnn [lk Hr] HX HQ. wp_step.
  eapply wp_isEmpty; [by apply reg_queue_has|]. destruct (decide (L = [])) as [->|HL].
  { rewrite bool_decide_true by done. wp_step. by eapply HQ; [apply qframe_refl|..]. }
  rewrite bool_decide_false by done. unfold locate_semaphore_by_name, registry_queue.
  do 5 wp_step. simpl. wp_step. wp_step. eapply wp_size; [by apply reg_queue_has|].
  rewrite decide_False by (destruct L; simpl; [done|lia]). wp_step.
  eapply wp_reg_begin; [done..|]. intros s1 Hf1 Hm1 Hq1. rewrite Nat2Z.id.
  eapply (wp_locate_loop _ _ _ _ _ L 0); try done.
  - intros a Ha. destruct Hf1 as (mm & qs & -> & _). by apply HX.
  - intros s2 it2 Hf2 Hm2 Hq2. eapply HQ; [|by rewrite Hm2|done]. by eapply qframe_trans.
Qed.

(** The state between the lookup and the release of the registry. *)
Record reg_locked s T R q L X W : Prop := {
  rl_lock : k_semqs s !! global_semaphore_registry s = Some (SemQueue 1 q);
  rl_queue : ∃ it, reg_queue s q L it;
  rl_sched : sched_inv s T R;
  rl_inv : sem_inv (set_k_semqs
    (<[global_semaphore_registry s := SemQueue 0 q]> (k_semqs s)) s) T q L X W;
}.

Lemma wp_unlock_registry pan s q (Q : unit → kst St → Prop) :
  k_semqs s !! global_semaphore_registry s = Some (SemQueue 1 q) →
  Q tt (set_k_semqs (<[global_semaphore_registry s := SemQueue 0 q]> (k_semqs s)) s) →
  wp pan (unlock_registry (global_semaphore_registry s)) Q s.
Proof. intros Hr HQ. unfold unlock_registry. wp_step. wp_step. by apply wp_modify. Qed.

(** [semOpen] up to the lookup's answer. *)
Lemma wp_open_lookup pan s T R q L X W name v (Q : Z → kst St → Prop) :
  sem_inv s T q L X W → sched_inv s T R → (∀ b, b ∈ L → c_name (s_name (X b))) →
  c_name name → Z.of_nat (length name) < MAX_SEM_LENGTH →
  (∀ s1, vframe s s1 → k_mm s1 = k_mm s → reg_locked s1 T R q L X W →
     wp pan (if decide (find_sem X name L ≠ NULL)
             then reuse_sem (global_semaphore_registry s1) (find_sem X name L)
             else create_sem (global_semaphore_registry s1) q name v) Q s1) →
  wp pan (semOpen (Some name) v) Q s.
Proof.
  intros [[Hg Hr] (Hq & Q0 & HQ0 & HL & Hds & Hwf) Hf Hnn Hnd Hs Hb Hi] Hsc Hns Hn Hlen HQ.
  unfold semOpen. rewrite decide_False by lia. wp_step. wp_step. rewrite decide_False by done.
  wp_step. unfold lock_registry. wp_step. wp_step. rewrite decide_False by (simpl; tauto).
  apply wp_modify. wp_step. unfold registry_queue. wp_step. wp_step. wp_step. simpl.
  eapply wp_deref; [apply lookup_insert_eq|]. wp_step. simpl. apply wp_bind2.
  set (s1 := set_k_semqs _ s).
  eapply (wp_lookup _ _ _ _ L X (q_iter Q0)); [|done|done| | |].
  - split; [done|]. by exists Q0.
  - exists 1. apply lookup_insert_eq.
  - intros a Ha. split; [by apply Hs|by apply Hns].
  - intros s2 it2 (mm & qs & Es2 & Hqs) Hm2 Hq2.
    replace (global_semaphore_registry s) with (global_semaphore_registry s2)
      by (by rewrite Es2).
    apply HQ; [by exists mm, qs, (<[global_semaphore_registry s:=SemQueue 1 q]> (k_semqs s)); rewrite Es2|done|].
    rewrite Es2 in *. constructor; simpl.
    + apply lookup_insert_eq.
    + by exists it2.
    + eapply sched_inv_ext; [done..|]. intros i Hi' HT. simpl. rewrite Hqs; [done|by apply Hf].
    + destruct Hq2 as [_ (Q2 & HQ2 & HL2 & Hd2 & Hw2 & _)].
      constructor; try done; simpl.
      * by rewrite lookup_insert_eq.
      * split; [done|]. by exists Q2.
      * intros a Ha. destruct (Hb a Ha) as (? & ? & it & Hnb & Q' & HQ').
        split; [done|]. split; [done|]. exists it. split; [done|]. exists Q'.
        simpl. by rewrite Hqs.
Qed.

(** A new semaphore at the end of the registry. *)
Lemma sem_inv_add s s' T q L X W p x it :
  sem_inv s T q L X W → p ∉ L → p ≠ NULL →
  s_lock x = 0 → 0 ≤ s_value x < 2 ^ 16 →
  let b := blockedProcesses x in
  b ≠ q → (∀ i, is_prio i → T i ≠ b) → (∀ a, a ∈ L → blockedProcesses (X a) ≠ b) →
  global_semaphore_registry s' = global_semaphore_registry s →
  k_semqs s' = k_semqs s → k_sems s' = <[p := x]> (k_sems s) →
  reg_queue s' q (L ++ [p]) it → has_queue s' b [] None →
  (∀ r, r ≠ q → r ≠ b → k_queues s' !! r = k_queues s !! r) →
  sem_inv s' T q (L ++ [p]) (fupd X p x) (fupd W p []).
Proof.
  intros [H1 H2 H3 H4 H5 H6 H7 H8] HpL Hp Hl Hv b Hbq HbT HbL Eg Eq Es Hreg Hb Hqs.
  assert (∀ a, a ∈ L ++ [p] → a = p ∨ a ≠ p ∧ a ∈ L) as Hcase by set_solver.
  constructor; try done.
  - by rewrite Eg, Eq.
  - destruct Hreg as [? (Q & ? & ? & ? & ? & ?)]. split; [done|]. by exists Q.
  - set_solver.
  - apply NoDup_app. split; [done|]. split; [set_solver|apply NoDup_singleton].
  - intros a [->|[Ha HaL]]%Hcase.
    + by rewrite fupd_eq, Es, lookup_insert_eq.
    + rewrite fupd_ne, Es, lookup_insert_ne by done. auto.
  - intros a [->|[Ha HaL]]%Hcase.
    + rewrite !fupd_eq. split; [done|]. split; [done|]. by exists None.
    + rewrite !fupd_ne by done. destruct (H7 a HaL) as (Hne & HT & it' & Hn & Q' & HQ').
      split; [done|]. split; [done|]. exists it'. split; [done|]. exists Q'.
      rewrite Hqs; [done|done|by apply HbL].
  - intros a c [->|[Ha HaL]]%Hcase [->|[Hc HcL]]%Hcase; auto;
      rewrite ?fupd_eq, ?(fupd_ne X) by done; auto.
    + intros E. exfalso. by apply (HbL c).
    + intros E. exfalso. by apply (HbL a).
Qed.

(** An allocated semaphore [p] with the wait queue [b]: the invariant once the
    registry has taken it in, and when the registry refused it. *)
Lemma sem_inv_created s s' T q L X W p x it :
  let b := blockedProcesses x in
  sem_inv s T q L X W → p ∉ L → p ≠ NULL → s_lock x = 0 → 0 ≤ s_value x < 2 ^ 16 →
  b ≠ q → (∀ i, is_prio i → T i ≠ b) → (∀ a, a ∈ L → blockedProcesses (X a) ≠ b) →
  global_semaphore_registry s' = global_semaphore_registry s →
  k_semqs s' = k_semqs s → k_sems s' = <[p := x]> (k_sems s) →
  (∀ r, r ≠ q → k_queues s' !! r = <[b := Queue [] None 4]> (k_queues s) !! r) →
  (b ≠ NULL → reg_queue s' q (L ++ [p]) it →
     sem_inv s' T q (L ++ [p]) (fupd X p x) (fupd W p [])) ∧
  (reg_queue s' q L it → sem_inv s' T q L X W).
Proof.
  intros b Hse HpL Hp Hl Hv Hbq HbT HbL Eg Eq Es Hqs. split.
  - intros Hb Hreg. eapply sem_inv_add; [done..|exact Hreg| |].
    + split; [done|]. eexists. rewrite Hqs by done. by rewrite lookup_insert_eq.
    + intros r Hr1 Hr2. rewrite Hqs by done. by rewrite lookup_insert_ne.
  - intros [? (Q & ? & ? & ? & ? & ?)]. destruct Hse as [I1 I2 I3 I4 I5 I6 I7 I8].
    constructor; try done.
    + by rewrite Eg, Eq.
    + split; [done|]. by exists Q.
    + intros a Ha. rewrite Es, lookup_insert_ne by (by intros ->). by apply I6.
    + intros a Ha. destruct (I7 a Ha) as (Hnq & ? & it' & Hn & Q' & HQ').
      split; [done|]. split; [done|]. exists it'. split; [done|]. exists Q'.
      rewrite Hqs, lookup_insert_ne; [done|symmetry; by apply HbL|done].
Qed.
End inv.

(** ** Properties *)

Section properties.
Context {St : Type} `{MemoryManager St}.
Implicit Types (s : kst St) (T : Z → Z) (R : Z → list Z).
Implicit Types (L : list Z) (X : Z → sem) (W : Z → list Z).

(** The two calls that meet another process, with the pipes they leave alone. *)
Lemma semPost_wake_spec s T R q L X W a w l p P
    (Hse : sem_inv s T q L X W) (Hsc : sched_inv s T R) (Ha : a ∈ L)
    (Hmm : (mm_alloc (k_mm s) 8).1 ≠ NULL) (Hw : W a = w :: l)
    (Htab : 0 ≤ w < MAX_PROCESSES) (Hp : process_table s !! Z.to_nat w = Some p)
    (HP : k_procs s !! p = Some P) (Hst : state P = BLOCKED)
    (Hp0 : p ≠ NULL) (Hid : p ≠ idle_proc s) (Hpid : pid P ≠ 1)
    (Hpr : is_prio (priority P)) (Hok : stack_ok P) (Hrun : running_process s ≠ p) :
  wp true (semPost a) (λ r s', r = 0 ∧
    k_pipes s' = k_pipes s ∧ k_procs s' = <[p := set_state READY P]> (k_procs s) ∧
    ∃ T' R', lost_some T' T ∧ sched_inv s' T' R' ∧ sem_inv s' T' q L X (fupd W a l) ∧
      ((∀ i, is_prio i → T' i ≠ NULL) →
         R' = fupd R (priority P) (R (priority P) ++ [p]))) s.
Proof.
  unfold semPost. eapply wp_with_valid; [done..|].
  intros s1 (mm & qs & sq & Es) Hse1 Hsc1.
  destruct (sem_locked _ _ _ _ _ _ _ Hse1 Ha) as (Hx & Hl & E).
  destruct (se_blocked _ _ _ _ _ _ Hse1 a Ha) as (_ & _ & it & Hit). rewrite Hw in Hit.
  wp_step. eapply wp_semLock; [done..|].
  set (s2 := set_k_sems _ s1). wp_step.
  eapply wp_deref; [simpl; apply lookup_insert_eq|]. wp_step. simpl.
  eapply (wp_size _ _ (w :: l)); [exact Hit|]. rewrite decide_True by (simpl; lia). wp_step.
  wp_step. eapply (wp_dequeue _ _ w l); [exact Hit|]. intros s3 it' Hf Hit'.
  destruct (locked_queue _ _ _ _ _ _ _ _ _ _ _ Hse1 Hsc1 Ha Hf Hit')
    as (Hsc3 & Hse3 & Ese & Eps & Ern & Eid & Etab & _ & Epip).
  wp_step. unfold get_process. rewrite decide_False by lia. wp_step. wp_step. wp_step.
  replace (process_table s3) with (process_table s) by (rewrite Etab, Es; done).
  rewrite Hp. simpl. wp_step. rewrite decide_False by done. wp_step.
  replace (k_procs s1) with (k_procs s) in Eps by (by rewrite Es).
  replace (running_process s1) with (running_process s) in Ern by (by rewrite Es).
  replace (idle_proc s1) with (idle_proc s) in Eid by (by rewrite Es).
  apply (unblock_spec s3 T R p P); rewrite ?Eps, ?Ern, ?Eid; try done.
  intros s4 T' R' Hx4 _ Hps4 Hsc4 Hl4 HR4. wp_step. wp_step. wp_step.
  unfold semUnlock. pose proof (xframe_fields _ _ _ Hx4) as (Ese4 & ? & Epip4 & _ & _ & ? & _ & Hq4).
  eapply wp_upd_sem; [rewrite Ese4, Ese; apply lookup_insert_eq|]. wp_step.
  rewrite Ese4, Ese, insert_insert_eq, E, insert_id by done.
  split; [done|]. split; [simpl; rewrite Epip4, Epip, Es; done|].
  split; [exact Hps4|]. exists T', R'.
  split; [done|]. split; [apply (sched_inv_sems s4); [done|by eexists]|]. split; [|done].
  eapply sem_inv_frame; [exact Hse3|done..].
Qed.

Lemma semWait_block_spec s T R q L X W a P
    (Hse : sem_inv s T q L X W) (Hsc : sched_inv s T R) (Ha : a ∈ L)
    (Hmm : (mm_alloc (k_mm s) 8).1 ≠ NULL) (Hv : s_value (X a) = 0)
    (HP : k_procs s !! running_process s = Some P) (Hst : state P = RUNNING)
    (Hpid : pid P ≠ 1) (Hp0 : running_process s ≠ NULL)
    (Hid : running_process s ≠ idle_proc s)
    (Hrsp : rsp_ok (k_procs s) (idle_proc s) (running_process s) (k_rsp s))
    (Hfresh : rsp_fresh s) :
  outcome true (semWait a)
    (λ r s', r = -1 ∧ sem_inv s' T q L X W ∧ sched_inv s' T R ∧ k_procs s' = k_procs s ∧
       k_pipes s' = k_pipes s)
    (λ s' k, ∃ sb r s0 T' R', s' = set_k_rsp r s0 ∧ k_pipes s0 = k_pipes s ∧
       k_procs sb =
         <[running_process s := set_wait_ticks 0 (set_state BLOCKED P)]> (k_procs s) ∧
       scheduled sb T R (k_rsp s) r s0 T' R' ∧
       sem_inv s0 T' q L X (fupd W a (W a ++ [pid P])) ∧
       ∀ s2, k s2 = (_ ← _force_scheduler_interrupt; mret 0) s2) s.
Proof.
  unfold semWait. eapply outcome_with_valid; [done..|].
  intros s1 (mm & qs & sq & Es) Hse1 Hsc1.
  destruct (sem_locked _ _ _ _ _ _ _ Hse1 Ha) as (Hx & Hl & E).
  destruct (se_blocked _ _ _ _ _ _ Hse1 a Ha) as (_ & Hfor & it & Hit).
  apply outcome_bind. eapply wp_semLock; [done..|].
  set (s2 := set_k_sems _ s1). apply outcome_bind.
  eapply wp_deref; [simpl; apply lookup_insert_eq|]. simpl. rewrite decide_True by done.
  apply outcome_bind. unfold get_running_process. wp_step.
  replace (running_process s2) with (running_process s) by (unfold s2; by rewrite Es).
  rewrite decide_False by done. apply outcome_bind.
  eapply wp_deref; [unfold s2; rewrite Es; exact HP|]. apply outcome_bind.
  eapply (wp_enqueue _ _ (pid P) (W a)); [exact Hit|..].
  - intros s3 Hf Hit'. rewrite decide_False by apply (proj1 Hit).
    destruct (locked_queue _ _ _ _ _ _ _ _ _ _ _ Hse1 Hsc1 Ha Hf Hit')
      as (Hsc3 & Hse3 & Ese & Eps & Ern & Eid & _ & Ersp & Epip).
    apply outcome_bind. unfold semUnlock.
    eapply wp_upd_sem; [rewrite Ese; apply lookup_insert_eq|].
    rewrite Ese, insert_insert_eq, E, (insert_id (k_sems s1)) by done.
    set (s4 := set_k_sems (k_sems s1) s3) in *.
    assert (k_procs s4 = k_procs s ∧ running_process s4 = running_process s ∧
      idle_proc s4 = idle_proc s ∧ k_rsp s4 = k_rsp s) as (Eps4 & Ern4 & Eid4 & Ersp4)
      by (unfold s4; simpl; rewrite Eps, Ern, Eid, Ersp, Es; done).
    apply outcome_switches, switches_bind_l. rewrite <-Ern4.
    apply (block_running_spec s4 T R P); rewrite ?Eps4, ?Ern4, ?Eid4, ?Ersp4; try done.
    + by eapply sched_inv_sems; [|by eexists].
    + unfold rsp_fresh. by rewrite Eps4, Ern4, Ersp4.
    + intros sb r s0 T' R' k Hxb Hrb Hpb Hsd Hk. exists sb, r, s0, T', R'.
      pose proof (xframe_rframe _ _ _ (sd_frame _ _ _ _ _ _ _ _ Hsd)) as Hx0.
      split; [done|]. split.
      { destruct (xframe_fields _ _ _ Hx0) as (_ & _ & -> & _).
        destruct (xframe_fields _ _ _ Hxb) as (_ & _ & -> & _).
        unfold s4. simpl. by rewrite Epip, Es. }
      split; [done|]. split; [done|]. split.
      * eapply sem_inv_xframe; [apply xframe_rframe, (sd_frame _ _ _ _ _ _ _ _ Hsd)|
          apply (sd_lost _ _ _ _ _ _ _ _ Hsd)|].
        by eapply sem_inv_xframe; [|apply lost_some_refl|].
      * intros s5. by rewrite Hk.
  - intros s3 Hf Hit'. rewrite decide_True by done. apply outcome_wp.
    destruct (locked_queue _ _ _ _ _ _ _ _ _ _ _ Hse1 Hsc1 Ha Hf Hit')
      as (Hsc3 & Hse3 & Ese & Eps & _ & _ & _ & _ & Epip).
    wp_step. unfold semUnlock.
    eapply wp_upd_sem; [rewrite Ese; apply lookup_insert_eq|]. wp_step.
    rewrite Ese, insert_insert_eq, E, insert_id by done.
    split; [done|]. split; [|split; [by eapply sched_inv_sems; [|by eexists]|]].
    + eapply sem_inv_ext; [..|exact Hse3]; [done|]. intros b _.
      unfold fupd. case_decide; by subst.
    + simpl. by rewrite Eps, Epip, Es.
Qed.

(** The two cases without a process switch. *)
Lemma semWait_take_spec s T R q L X W a
    (Hse : sem_inv s T q L X W) (Hsc : sched_inv s T R) (Ha : a ∈ L)
    (Hmm : (mm_alloc (k_mm s) 8).1 ≠ NULL) (Hv : s_value (X a) ≠ 0) :
  wp false (semWait a) (λ r s', r = 0 ∧
    sem_inv s' T q L (fupd X a (set_s_value (s_value (X a) - 1) (X a))) W ∧
    sched_inv s' T R ∧ k_procs s' = k_procs s ∧
    running_process s' = running_process s) s.
Proof.
  unfold semWait. eapply wp_with_valid; [done..|].
  intros s1 (mm & qs & sq & Es) Hse1 Hsc1.
  destruct (sem_locked _ _ _ _ _ _ _ Hse1 Ha) as (Hx & Hl & _).
  pose proof (se_sem _ _ _ _ _ _ Hse1 a Ha) as (_ & _ & Hr).
  wp_step. eapply wp_semLock; [done..|]. wp_step.
  eapply wp_deref; [simpl; apply lookup_insert_eq|]. simpl. rewrite decide_False by done.
  wp_step. eapply wp_upd_sem; [simpl; apply lookup_insert_eq|]. simpl. wp_step.
  unfold semUnlock. eapply wp_upd_sem; [simpl; apply lookup_insert_eq|]. simpl. wp_step.
  rewrite !insert_insert_eq.
  replace (u16 (s_value (X a) - 1)) with (s_value (X a) - 1)
    by (symmetry; apply wrapu_small; lia).
  split; [done|]. split; [apply (sem_inv_value s1); [done..|lia]|].
  split; [apply (sched_inv_sems s1); [done|by eexists]|]. by rewrite Es.
Qed.

Lemma semPost_add_spec s T R q L X W a
    (Hse : sem_inv s T q L X W) (Hsc : sched_inv s T R) (Ha : a ∈ L)
    (Hmm : (mm_alloc (k_mm s) 8).1 ≠ NULL) (Hw : W a = []) :
  wp false (semPost a) (λ r s', r = 0 ∧
    sem_inv s' T q L (fupd X a (set_s_value (u16 (s_value (X a) + 1)) (X a))) W ∧
    sched_inv s' T R ∧ k_procs s' = k_procs s ∧
    running_process s' = running_process s) s.
Proof.
  unfold semPost. eapply wp_with_valid; [done..|].
  intros s1 (mm & qs & sq & Es) Hse1 Hsc1.
  destruct (sem_locked _ _ _ _ _ _ _ Hse1 Ha) as (Hx & Hl & _).
  destruct (se_blocked _ _ _ _ _ _ Hse1 a Ha) as (_ & _ & it & Hit). rewrite Hw in Hit.
  wp_step. eapply wp_semLock; [done..|]. wp_step.
  eapply wp_deref; [simpl; apply lookup_insert_eq|]. wp_step. simpl.
  eapply wp_size; [exact Hit|]. wp_step. simpl.
  wp_step. eapply wp_upd_sem; [simpl; apply lookup_insert_eq|]. simpl. wp_step. wp_step.
  unfold semUnlock. eapply wp_upd_sem; [simpl; apply lookup_insert_eq|]. simpl. wp_step.
  rewrite !insert_insert_eq.
  split; [done|]. split; [apply (sem_inv_value s1); [done..|by apply wrapu_range]|].
  split; [apply (sched_inv_sems s1); [done|by eexists]|]. by rewrite Es.
Qed.

(** [semWait] on a semaphore whose value is not zero takes one unit and
    returns 0 at once: no process changes, no other semaphore changes, both
    locks are free again. *)
Theorem semWait_decrements s T R q L X W a
    (Hse : sem_inv s T q L X W) (Hsc : sched_inv s T R) (Ha : a ∈ L)
    (Hmm : (mm_alloc (k_mm s) 8).1 ≠ NULL) (Hv : s_value (X a) ≠ 0) :
  wp false (semWait a) (λ r s', r = 0 ∧
    sem_inv s' T q L (fupd X a (set_s_value (s_value (X a) - 1) (X a))) W ∧
    sched_inv s' T R ∧ k_procs s' = k_procs s ∧
    running_process s' = running_process s) s.
Proof. by apply (semWait_take_spec s T R q L X W). Qed.

(** [semPost] on a semaphore nobody waits for adds one unit (modulo
    2^16) and changes nothing else. *)
Theorem semPost_increments s T R q L X W a
    (Hse : sem_inv s T q L X W) (Hsc : sched_inv s T R) (Ha : a ∈ L)
    (Hmm : (mm_alloc (k_mm s) 8).1 ≠ NULL) (Hw : W a = []) :
  wp false (semPost a) (λ r s', r = 0 ∧
    sem_inv s' T q L (fupd X a (set_s_value (u16 (s_value (X a) + 1)) (X a))) W ∧
    sched_inv s' T R ∧ k_procs s' = k_procs s ∧
    running_process s' = running_process s) s.
Proof. by apply (semPost_add_spec s T R q L X W). Qed.

(** [semPost] with processes waiting hands the unit to the one that has
    waited longest: its pid leaves the front of the queue, the process becomes
    READY at the end of its ready queue, and the value does not change. *)
Theorem semPost_wakes s T R q L X W a w l p P
    (Hse : sem_inv s T q L X W) (Hsc : sched_inv s T R) (Ha : a ∈ L)
    (Hmm : (mm_alloc (k_mm s) 8).1 ≠ NULL) (Hw : W a = w :: l)
    (Htab : 0 ≤ w < MAX_PROCESSES) (Hp : process_table s !! Z.to_nat w = Some p)
    (HP : k_procs s !! p = Some P) (Hst : state P = BLOCKED)
    (Hp0 : p ≠ NULL) (Hid : p ≠ idle_proc s) (Hpid : pid P ≠ 1)
    (Hpr : is_prio (priority P)) (Hok : stack_ok P) (Hrun : running_process s ≠ p) :
  wp true (semPost a) (λ r s', r = 0 ∧
    k_procs s' = <[p := set_state READY P]> (k_procs s) ∧
    ∃ T' R', lost_some T' T ∧ sched_inv s' T' R' ∧ sem_inv s' T' q L X (fupd W a l) ∧
      ((∀ i, is_prio i → T' i ≠ NULL) →
         R' = fupd R (priority P) (R (priority P) ++ [p]))) s.
Proof.
  eapply wp_mono; [by eapply semPost_wake_spec|]. by intros r s' (? & _ & ? & ?).
Qed.

(** [semWait] on a semaphore whose value is 0 puts the caller at the end
    of the semaphore's queue and gives up the CPU: the process is BLOCKED, the
    scheduler has run, both locks are free; when the process runs again it
    yields once more and returns 0.  (When no queue node can be allocated the
    call fails with -1 and the caller keeps running.) *)
Theorem semWait_blocks s T R q L X W a P
    (Hse : sem_inv s T q L X W) (Hsc : sched_inv s T R) (Ha : a ∈ L)
    (Hmm : (mm_alloc (k_mm s) 8).1 ≠ NULL) (Hv : s_value (X a) = 0)
    (HP : k_procs s !! running_process s = Some P) (Hst : state P = RUNNING)
    (Hpid : pid P ≠ 1) (Hp0 : running_process s ≠ NULL)
    (Hid : running_process s ≠ idle_proc s)
    (Hrsp : rsp_ok (k_procs s) (idle_proc s) (running_process s) (k_rsp s))
    (Hfresh : rsp_fresh s) :
  outcome true (semWait a)
    (λ r s', r = -1 ∧ sem_inv s' T q L X W ∧ sched_inv s' T R ∧ k_procs s' = k_procs s)
    (λ s' k, ∃ sb r s0 T' R', s' = set_k_rsp r s0 ∧
       k_procs sb =
         <[running_process s := set_wait_ticks 0 (set_state BLOCKED P)]> (k_procs s) ∧
       scheduled sb T R (k_rsp s) r s0 T' R' ∧
       sem_inv s0 T' q L X (fupd W a (W a ++ [pid P])) ∧
       ∀ s2, k s2 = (_ ← _force_scheduler_interrupt; mret 0) s2) s.
Proof.
  pose proof (semWait_block_spec s T R q L X W a P Hse Hsc Ha Hmm Hv HP Hst Hpid Hp0 Hid
    Hrsp Hfresh) as Hs.
  unfold outcome in *. destruct (semWait a s); naive_solver.
Qed.

(** [semWait] and [semPost] on anything that is not a registered
    semaphore, a null pointer included, answer -1 and change no process and
    no semaphore. *)
Theorem sem_invalid_rejected s T R q L X W a
    (Hse : sem_inv s T q L X W) (Hsc : sched_inv s T R) (Ha : a ∉ L)
    (Hmm : (mm_alloc (k_mm s) 8).1 ≠ NULL) :
  let rejected := λ r s', r = -1 ∧ sem_inv s' T q L X W ∧ sched_inv s' T R ∧
    k_procs s' = k_procs s ∧ k_sems s' = k_sems s in
  wp false (semWait a) rejected s ∧ wp false (semPost a) rejected s ∧
  wp false (semClose a) rejected s.
Proof.
  intros rejected.
  assert (∀ m, wp false (with_valid a m) rejected s) as Hr.
  { intros m. eapply wp_with_invalid; [done..|]. intros s' (mm & qs & sq & Es) Hse' Hsc'.
    unfold rejected. split_and!; try done; by rewrite Es. }
  split_and!; apply Hr.
Qed.

(** [semOpen] of a name that is registered returns the first semaphore of
    that name, with one user more; its value, its queue and every other
    semaphore stay as they were. *)
Theorem semOpen_existing s T R q L X W name v a
    (Hse : sem_inv s T q L X W) (Hsc : sched_inv s T R)
    (Hnames : ∀ b, b ∈ L → c_name (s_name (X b)))
    (Hname : c_name name) (Hlen : Z.of_nat (length name) < MAX_SEM_LENGTH)
    (Hfind : find_sem X name L = a) (Ha : a ≠ NULL) :
  wp false (semOpen (Some name) v) (λ r s', r = a ∧ a ∈ L ∧ s_name (X a) = name ∧
    sem_inv s' T q L (fupd X a (set_s_users (u16 (s_users (X a) + 1)) (X a))) W ∧
    sched_inv s' T R ∧ k_procs s' = k_procs s) s.
Proof.
  destruct (find_sem_spec X name L a (se_nonnull _ _ _ _ _ _ Hse) Hfind Ha) as [HaL Hna].
  eapply wp_open_lookup; [done..|]. intros s1 (mm & qs & sq & Es) _ [Hlk [it Hq] Hsc1 Hse1].
  rewrite Hfind, decide_True by done. unfold reuse_sem.
  destruct (sem_locked _ _ _ _ _ _ _ Hse1 HaL) as (Hx & Hl & E). simpl in Hx.
  wp_step. eapply wp_semLock; [done..|]. wp_step.
  eapply wp_upd_sem; [simpl; apply lookup_insert_eq|]. simpl. wp_step.
  unfold semUnlock. eapply wp_upd_sem; [simpl; apply lookup_insert_eq|]. wp_step. simpl.
  rewrite !insert_insert_eq. set (y := set_s_lock 0 _).
  match goal with |- wp _ _ _ ?t => set (s2 := t) end.
  change (global_semaphore_registry s1) with (global_semaphore_registry s2).
  eapply wp_unlock_registry; [exact Hlk|]. wp_step.
  split; [done|]. split; [done|]. split; [done|]. split.
  - replace (set_s_users _ (X a)) with y
      by (unfold y; destruct (X a); simpl in *; by rewrite Hl).
    pose proof (se_sem _ _ _ _ _ _ Hse1 a HaL) as (_ & _ & Hr).
    by apply (sem_inv_put _ _ _ _ _ _ a y Hse1).
  - split; [eapply sched_inv_ext; [exact Hsc1|done..]|]. unfold s2. simpl. by rewrite Es.
Qed.

(** The blocks the semaphores and the ready queues live in. *)
Record sem_heap `{!MemoryManagerOk St} s (B : gmap Z Z) T (q : Z) L X : Prop := {
  sh_mm : mm_inv (k_mm s) B;
  sh_queue : q ∈ dom B;
  sh_sched : ∀ i, is_prio i → T i ≠ NULL → T i ∈ dom B;
  sh_sems : ∀ a, a ∈ L → a ∈ dom B ∧ blockedProcesses (X a) ∈ dom B;
}.

Lemma dom_fresh (B : gmap Z Z) x y : B !! x = None → y ∈ dom B → y ≠ x.
Proof. intros Hx Hy ->. apply elem_of_dom in Hy as [? ?]. congruence. Qed.

(** ** What becomes of a new semaphore

    Four allocations decide: the semaphore, the header of its wait queue, and
    the node and the cell with which the registry holds it. *)
Inductive sem_made :=
  | Refused
  | Unlisted (p : Z)
  | Listed (p b : Z).

Definition new_sem (mm : St) : sem_made :=
  let '(p, mm1) := mm_alloc mm SEM_SIZE in
  if decide (p = NULL) then Refused
  else
    let '(b, mm2) := mm_alloc mm1 QUEUE_SIZE in
    if decide (b = NULL) then Refused
    else if grants_node mm2 8 then Listed p b else Unlisted p.

Definition sem_opened s' T q L X W (name : list Z) (v r : Z) (o : sem_made) : Prop :=
  match o with
  | Refused => r = NULL ∧ sem_inv s' T q L X W
  | Unlisted p => r = p ∧ p ≠ NULL ∧ (p ∉ L) ∧ sem_inv s' T q L X W
  | Listed p b => r = p ∧ p ≠ NULL ∧ (p ∉ L) ∧
      sem_inv s' T q (L ++ [p]) (fupd X p (Sem name (u16 v) 0 1 b)) (fupd W p [])
  end.

(** The rest of [semOpen] when no semaphore has the name. *)
Lemma wp_create_sem `{!MemoryManagerOk St} s B T R q L X W name v :
  reg_locked s T R q L X W → sem_heap s B T q L X →
  wp false (create_sem (global_semaphore_registry s) q name v) (λ r s', sched_inv s' T R ∧
    k_procs s' = k_procs s ∧ sem_opened s' T q L X W name v r (new_sem (k_mm s))) s.
Proof.
  intros [Hlk [it Hq] Hsc Hse] [Hinv HqB HTB HLB]. unfold create_sem, new_sem. wp_step.
  eapply wp_kalloc_eq; [done..| |].
  { intros Ep. rewrite decide_True by done. wp_step. eapply wp_unlock_registry; [done|]. wp_step.
    split; [by eapply sched_inv_ext|]. split; [done|].
    destruct (mm_alloc (k_mm s) SEM_SIZE) as [p mm1]. simpl in Ep. by rewrite decide_True. }
  intros p m mm1 -> Hp HpB Hm Hinv1. rewrite !(decide_False (P := p = NULL)) by done.
  assert (p ∉ L) as HpL by (intros Hin; by apply (dom_fresh B p p); [|apply HLB|]).
  wp_step. eapply wp_create_eq; [exact Hinv1|done|..].
  - intros mm2 Eb. simpl in Eb. wp_step. apply wp_modify. rewrite decide_True by done. wp_step.
    unfold free_sem. wp_step. apply wp_modify. apply wp_modify. wp_step. simpl.
    match goal with |- wp _ _ _ ?t => set (s2 := t) end.
    change (global_semaphore_registry s) with (global_semaphore_registry s2).
    eapply wp_unlock_registry; [exact Hlk|]. wp_step.
    split; [by eapply sched_inv_ext|]. split; [done|].
    destruct (mm_alloc mm1 QUEUE_SIZE) as [b mm3]. simpl in Eb. rewrite decide_True by done.
    split; [done|]. eapply sem_inv_agree; [exact Hse|apply lost_some_refl|done|done| |done].
    intros a Ha. simpl. by rewrite lookup_delete_ne, lookup_insert_ne by (by intros ->).
  - intros b mb mm2 Eb Hb HbB Hinv2. simpl in Eb. rewrite Eb, (decide_False (P := b = NULL)) by done.
    assert (∀ y, y ∈ dom B → y ≠ b) as Hfb.
    { intros y Hy. eapply dom_fresh; [exact HbB|]. rewrite dom_insert. set_solver. }
    wp_step. apply wp_modify. rewrite decide_False by done. wp_step.
    match goal with |- wp _ _ _ ?t => set (s2 := t) end.
    assert (reg_queue s2 q L it) as Hq2.
    { destruct Hq as [Hn (Q & HQ & HQ')]. split; [done|]. exists Q. simpl.
      by rewrite lookup_insert_ne by (symmetry; by apply Hfb). }
    assert (sched_inv s2 T R) as Hsc2.
    { eapply sched_inv_ext; [exact Hsc|done..|]. intros i Hi HT. simpl.
      by rewrite lookup_insert_ne by (symmetry; by apply Hfb, HTB). }
    assert (∀ i, is_prio i → T i ≠ b) as HTb.
    { intros i Hi E. destruct (decide (T i = NULL)); [congruence|].
      by apply (Hfb (T i)); [apply HTB|]. }
    eapply (wp_reg_enqueue _ _ _ _ p); [exact Hq2|..]; intros s3 Hg (mm3 & qs3 & Es3 & Hqs3) Hq3;
      (wp_step; change (global_semaphore_registry s) with (global_semaphore_registry s2);
       replace (global_semaphore_registry s2) with (global_semaphore_registry s3)
         by (by rewrite Es3); eapply wp_unlock_registry; [by rewrite Es3|]; wp_step;
       match goal with |- context [sem_opened ?t] => set (s4 := t) end;
       destruct (sem_inv_created _ s4 T q L X W p (Sem name (u16 v) 0 1 b) it Hse)
         as [Hadd Hlost]; try done;
         [by apply wrapu_range|simpl; intros ->; by apply (Hfb q)
         |simpl; intros a Ha; by apply Hfb, HLB|unfold s4; by rewrite Es3..
         |intros r Hr; unfold s4; rewrite Es3; simpl; by apply Hqs3|];
       split; [eapply sched_inv_ext; [exact Hsc2|unfold s4; by rewrite Es3..|];
         intros i Hi HT; unfold s4; rewrite Es3; simpl; rewrite Hqs3; [done|]; by apply Hse|];
       split; [unfold s4; by rewrite Es3|]; simpl in Hg; rewrite Hg; split_and!; try done).
    + apply Hadd; [done|]. by destruct Hq3.
    + apply Hlost. by destruct Hq3.
Qed.

(** C29: what [semOpen] does with a name nobody has registered is decided by
    its allocations.  When they are granted it answers the new semaphore,
    which is appended to the registry with that name, the initial value, one
    user and nobody waiting, in memory nothing else uses, and the others stay
    as they were.  When there is no memory for the semaphore or its queue it
    answers a null pointer and the registry is unchanged.  When only the
    registry's own node is refused nothing notices: the call answers a
    semaphore that is not registered. *)
Theorem semOpen_new `{!MemoryManagerOk St} s B T R q L X W name v
    (Hse : sem_inv s T q L X W) (Hsc : sched_inv s T R) (Hh : sem_heap s B T q L X)
    (Hnames : ∀ b, b ∈ L → c_name (s_name (X b)))
    (Hname : c_name name) (Hlen : Z.of_nat (length name) < MAX_SEM_LENGTH)
    (Hfind : find_sem X name L = NULL) :
  wp false (semOpen (Some name) v) (λ r s', sched_inv s' T R ∧ k_procs s' = k_procs s ∧
    sem_opened s' T q L X W name v r (new_sem (k_mm s))) s.
Proof.
  eapply wp_open_lookup; [done..|]. intros s1 (mm & qs & sq & Es) Hmm Hlk.
  rewrite Hfind, decide_False by tauto.
  eapply wp_mono.
  - apply (wp_create_sem s1 B T R q L X W name v); [done|].
    destruct Hh. by constructor; rewrite ?Hmm.
  - intros r s' (? & Hp & ?). by rewrite Hp, Es, <-Hmm.
Qed.
End properties.

(** ** A concrete registry for the witnesses

    Semaphore 600 ("a") has one unit, semaphore 700 ("b") none and the process
    with pid 3, BLOCKED, waiting for it; PCB 2000 is running. *)
Section demo.
Definition sem_procs : gmap Z Process :=
  list_to_map [(1000, demo_pcb 0 READY 10000); (2000, demo_pcb 2 RUNNING 20000);
    (3000, demo_pcb 3 BLOCKED 30000)].
Definition sem_queues (reg : queue) : gmap Z queue :=
  list_to_map [(100, Queue [] None 8); (101, Queue [] None 8); (102, Queue [] None 8);
    (103, Queue [] None 8); (510, reg); (610, Queue [] None 4);
    (710, Queue [Node 54 64 3] None 4)].
Definition sem_table : gmap Z sem :=
  list_to_map [(600, Sem [97] 1 0 1 610); (700, Sem [98] 0 0 1 710)].
Definition sem_kst : kst ff_state :=
  KState ff_demo true 20500 sem_procs
    (sem_queues (Queue [Node 50 60 600; Node 52 62 700] None 8)) demo_arrays sem_table
    {[500 := SemQueue 0 510]} ∅ ∅ ∅ zeroed (<[3%nat := 3000]> (replicate 64 NULL)) 90 2000
    1000 NULL true 500 3 NULL.

Definition sem_L : list Z := [600; 700].
Definition sem_X (a : Z) : sem := if decide (a = 600) then Sem [97] 1 0 1 610 else Sem [98] 0 0 1 710.
Definition sem_W (a : Z) : list Z := if decide (a = 700) then [3] else [].
Definition no_ready (i : Z) : list Z := [].

Lemma sem_procs_inv p P :
  sem_procs !! p = Some P →
  (p = 1000 ∧ P = demo_pcb 0 READY 10000) ∨ (p = 2000 ∧ P = demo_pcb 2 RUNNING 20000) ∨
  (p = 3000 ∧ P = demo_pcb 3 BLOCKED 30000).
Proof.
  unfold sem_procs. simpl.
  repeat (intros [[<- <-]|[_ HP]]%lookup_insert_Some; [tauto|revert HP]).
  by rewrite lookup_empty.
Qed.

Lemma sem_kst_sched : sched_inv sem_kst demo_T no_ready.
Proof.
  constructor; try done.
  - constructor; try done.
    + split; [done|]. eexists. split; [done|]. constructor; simpl; try done.
      intros [|[|[|[|i]]]] v; simpl; try done; by intros [= <-].
    + intros i Hi _. exists None. split; [unfold demo_T, is_prio, MIN_PRIORITY in *; lia|].
      destruct (is_prio_cases i Hi) as [->|[->|[->| ->]]]; by eexists.
    + intros i j _ _ HT. unfold demo_T in HT. lia.
  - constructor.
    + intros i _. apply NoDup_nil_2.
    + by intros i p _ ?%elem_of_nil.
    + intros p q P Q HP HQ _ _.
      destruct (sem_procs_inv _ _ HP) as [[-> ->]|[[-> ->]|[-> ->]]],
        (sem_procs_inv _ _ HQ) as [[-> ->]|[[-> ->]|[-> ->]]]; simpl; lia.
  - right. by exists (demo_pcb 2 RUNNING 20000).
  - by exists (demo_pcb 0 READY 10000).
Qed.

Lemma sem_kst_inv : sem_inv sem_kst demo_T 510 sem_L sem_X sem_W.
Proof.
  assert (∀ a, a ∈ sem_L → a = 600 ∨ a = 700) as Hc by (unfold sem_L; set_solver).
  assert (∀ i n, is_prio i → 510 ≤ n → demo_T i ≠ n) as HT
    by (unfold demo_T, is_prio, MAX_PRIORITY; lia).
  constructor; try done.
  - split; [done|]. by eexists.
  - intros i Hi. by apply HT.
  - unfold sem_L. set_solver.
  - unfold sem_L. apply (bool_decide_unpack _). by vm_compute.
  - intros a [-> | ->]%Hc; done.
  - intros a [-> | ->]%Hc; (split; [done|]; split; [intros i Hi; by apply HT|]);
      exists None; (split; [done|]); by eexists.
  - intros a b [-> | ->]%Hc [-> | ->]%Hc; done.
Qed.

Lemma semWait_decrements_witness :
  wp false (semWait 600) (λ r s', r = 0 ∧
    sem_inv s' demo_T 510 sem_L (fupd sem_X 600 (Sem [97] 0 0 1 610)) sem_W ∧
    sched_inv s' demo_T no_ready ∧ k_procs s' = sem_procs ∧ running_process s' = 2000) sem_kst.
Proof.
  refine (semWait_decrements sem_kst demo_T no_ready 510 sem_L sem_X sem_W 600
    sem_kst_inv sem_kst_sched _ _ _);
    first [done|apply list_elem_of_here|by vm_compute].
Defined.

Lemma semPost_increments_witness :
  wp false (semPost 600) (λ r s', r = 0 ∧
    sem_inv s' demo_T 510 sem_L (fupd sem_X 600 (Sem [97] 2 0 1 610)) sem_W ∧
    sched_inv s' demo_T no_ready ∧ k_procs s' = sem_procs ∧ running_process s' = 2000) sem_kst.
Proof.
  refine (semPost_increments sem_kst demo_T no_ready 510 sem_L sem_X sem_W 600
    sem_kst_inv sem_kst_sched _ _ _);
    first [done|apply list_elem_of_here|by vm_compute].
Defined.

Lemma semPost_wakes_witness :
  wp true (semPost 700) (λ r s', r = 0 ∧
    k_procs s' = <[3000 := set_state READY (demo_pcb 3 BLOCKED 30000)]> sem_procs ∧
    ∃ T' R', lost_some T' demo_T ∧ sched_inv s' T' R' ∧
      sem_inv s' T' 510 sem_L sem_X (fupd sem_W 700 []) ∧
      ((∀ i, is_prio i → T' i ≠ NULL) → R' = fupd no_ready 0 [3000])) sem_kst.
Proof.
  refine (semPost_wakes sem_kst demo_T no_ready 510 sem_L sem_X sem_W 700 3 [] 3000
    (demo_pcb 3 BLOCKED 30000) sem_kst_inv sem_kst_sched _ _ _ _ _ _ _ _ _ _ _ _ _);
    first [done|apply list_elem_of_further, list_elem_of_here|by vm_compute].
Defined.

Lemma semWait_blocks_witness :
  outcome true (semWait 700)
    (λ r s', r = -1 ∧ sem_inv s' demo_T 510 sem_L sem_X sem_W ∧
       sched_inv s' demo_T no_ready ∧ k_procs s' = sem_procs)
    (λ s' k, ∃ sb r s0 T' R', s' = set_k_rsp r s0 ∧
       k_procs sb = <[2000 := set_wait_ticks 0 (set_state BLOCKED (demo_pcb 2 RUNNING 20000))]>
         sem_procs ∧
       scheduled sb demo_T no_ready 20500 r s0 T' R' ∧
       sem_inv s0 T' 510 sem_L sem_X (fupd sem_W 700 [3; 2]) ∧
       ∀ s2, k s2 = (_ ← _force_scheduler_interrupt; mret 0) s2) sem_kst.
Proof.
  refine (semWait_blocks sem_kst demo_T no_ready 510 sem_L sem_X sem_W 700
    (demo_pcb 2 RUNNING 20000) sem_kst_inv sem_kst_sched _ _ _ _ _ _ _ _ _ _); try done.
  - apply list_elem_of_further, list_elem_of_here.
  - intros P _ [= <-]. by vm_compute.
  - intros x X' Hx _. destruct (sem_procs_inv _ _ Hx) as [[-> ->]|[[-> ->]|[-> ->]]]; done.
Defined.

Lemma sem_invalid_rejected_witness :
  let rejected := λ (r : Z) (s' : kst ff_state), r = -1 ∧
    sem_inv s' demo_T 510 sem_L sem_X sem_W ∧ sched_inv s' demo_T no_ready ∧
    k_procs s' = sem_procs ∧ k_sems s' = sem_table in
  wp false (semWait 800) rejected sem_kst ∧ wp false (semPost 800) rejected sem_kst ∧
  wp false (semClose 800) rejected sem_kst.
Proof.
  refine (sem_invalid_rejected sem_kst demo_T no_ready 510 sem_L sem_X sem_W 800
    sem_kst_inv sem_kst_sched _ _); [unfold sem_L; set_solver|by vm_compute].
Defined.

Lemma semOpen_existing_witness :
  wp false (semOpen (Some [98]) 5) (λ r s', r = 700 ∧ 700 ∈ sem_L ∧ s_name (sem_X 700) = [98] ∧
    sem_inv s' demo_T 510 sem_L (fupd sem_X 700 (Sem [98] 0 0 2 710)) sem_W ∧
    sched_inv s' demo_T no_ready ∧ k_procs s' = sem_procs) sem_kst.
Proof.
  refine (semOpen_existing sem_kst demo_T no_ready 510 sem_L sem_X sem_W [98] 5 700
    sem_kst_inv sem_kst_sched _ _ _ _ _); try done.
  - intros b _. unfold sem_X. case_decide; by apply Forall_singleton.
  - by apply Forall_singleton.
Defined.

(** *** A heap whose blocks are the queues of an empty registry *)

Definition heap_after (n : nat) : ff_state :=
  Nat.iter n (λ st, (mm_alloc st QUEUE_SIZE).2) ff_demo.
Definition heap_T (i : Z) : Z := 5072 - 64 * i.
Definition heap_kst : kst ff_state :=
  KState (heap_after 5) true 20500 sem_procs
    (list_to_map [(5072, Queue [] None 8); (5008, Queue [] None 8); (4944, Queue [] None 8);
      (4880, Queue [] None 8); (4816, Queue [] None 8)])
    {[90 := Array 91 (list_to_map [(0, 5072); (1, 5008); (2, 4944); (3, 4880)]) 8 4 1024 None]}
    ∅ {[500 := SemQueue 0 4816]} ∅ ∅ ∅ zeroed (replicate 64 NULL) 90 2000
    1000 NULL true 500 3 NULL.

Lemma alloc_known (st : ff_state) B n p :
  mm_inv st B → 0 < n < mm_max_request → (mm_alloc st n).1 = p → p ≠ NULL →
  ∃ m, mm_inv (mm_alloc st n).2 (<[p := m]> B).
Proof.
  intros Hi Hn <- Hp. pose proof (mm_alloc_ok _ _ _ Hi Hn) as Ha.
  destruct (mm_alloc st n) as [p st']. simpl in *. rewrite decide_False in Ha by done.
  destruct Ha as (_ & m & _ & ?). by exists m.
Qed.

Lemma heap_kst_blocks : ∃ B, mm_inv (heap_after 5) B ∧
  5072 ∈ dom B ∧ 5008 ∈ dom B ∧ 4944 ∈ dom B ∧ 4880 ∈ dom B ∧ 4816 ∈ dom B.
Proof.
  assert (mm_inv (heap_after 0) ∅) as H0 by (apply ff_boot_inv; lia).
  assert (0 < QUEUE_SIZE < mm_max_request) as Hn by done.
  destruct (alloc_known _ _ _ 5072 H0 Hn) as [m1 H1]; [by vm_compute|done|].
  destruct (alloc_known _ _ _ 5008 H1 Hn) as [m2 H2]; [by vm_compute|done|].
  destruct (alloc_known _ _ _ 4944 H2 Hn) as [m3 H3]; [by vm_compute|done|].
  destruct (alloc_known _ _ _ 4880 H3 Hn) as [m4 H4]; [by vm_compute|done|].
  destruct (alloc_known _ _ _ 4816 H4 Hn) as [m5 H5]; [by vm_compute|done|].
  eexists. split; [exact H5|].
  split_and!; apply elem_of_dom; by eexists.
Qed.

Lemma heap_kst_sched : sched_inv heap_kst heap_T no_ready.
Proof.
  constructor; try done.
  - constructor; try done.
    + split; [done|]. eexists. split; [done|]. constructor; simpl; try done.
      intros [|[|[|[|i]]]] v; simpl; try done; by intros [= <-].
    + intros i Hi _. exists None. split; [unfold heap_T, is_prio, MAX_PRIORITY in *; lia|].
      destruct (is_prio_cases i Hi) as [->|[->|[->| ->]]]; by eexists.
    + intros i j _ _ HT. unfold heap_T in HT. lia.
  - constructor; [intros i _; apply NoDup_nil_2|by intros i p _ ?%elem_of_nil|].
    intros p q P Q HP HQ _ _.
    destruct (sem_procs_inv _ _ HP) as [[-> ->]|[[-> ->]|[-> ->]]],
      (sem_procs_inv _ _ HQ) as [[-> ->]|[[-> ->]|[-> ->]]]; simpl; lia.
  - right. by exists (demo_pcb 2 RUNNING 20000).
  - by exists (demo_pcb 0 READY 10000).
Qed.

Lemma heap_kst_inv : sem_inv heap_kst heap_T 4816 [] sem_X sem_W.
Proof.
  constructor; try done; try (by intros a ?%elem_of_nil); try (by intros a b ?%elem_of_nil).
  - split; [done|]. by eexists.
  - intros i Hi. unfold heap_T, is_prio, MAX_PRIORITY in *. lia.
  - apply not_elem_of_nil.
  - apply NoDup_nil_2.
Qed.

(** The heap has room: the semaphore is listed. *)
Lemma heap_kst_grants : ∃ p b, new_sem (k_mm heap_kst) = Listed p b.
Proof. vm_compute. by do 2 eexists. Qed.

Lemma semOpen_new_witness :
  ∃ p b, wp false (semOpen (Some [99]) 7) (λ r s', sched_inv s' heap_T no_ready ∧
    k_procs s' = k_procs heap_kst ∧ r = p ∧ p ≠ NULL ∧ (p ∉ []) ∧
    sem_inv s' heap_T 4816 [p] (fupd sem_X p (Sem [99] 7 0 1 b)) (fupd sem_W p [])) heap_kst.
Proof.
  destruct heap_kst_grants as (p & b & E). exists p, b.
  destruct heap_kst_blocks as (B & HB & H1 & H2 & H3 & H4 & H5).
  pose proof (semOpen_new heap_kst B heap_T no_ready 4816 [] sem_X sem_W [99] 7
    heap_kst_inv heap_kst_sched) as Hopen. rewrite E in Hopen.
  cbn [sem_opened app] in Hopen. refine (Hopen _ _ _ _ _); clear Hopen E; try done.
  - constructor; try done.
    + intros i Hi _. unfold heap_T.
      destruct (is_prio_cases i Hi) as [->|[->|[->| ->]]]; assumption.
    + by intros a ?%elem_of_nil.
  - by intros b' ?%elem_of_nil.
  - by apply Forall_singleton.
Defined.
End demo.
