(* ===== verification/SemSpec.v ===== *)
(** * What a semaphore promises

    The counting semaphore the programs rely on: a number of units and the
    processes that wait for one, longest first.  The kernel's [semWait] and
    [semPost] ([sem.c]) implement it. *)

From S2P Require Import Prelude MemoryManager Monad KState KQueue Scheduler SchedulerFacts.
From S2P Require Import Sem SemFacts FirstFit.

Record semaphore := Semaphore { units : Z; waiting : list Z }.

(** A process that finds no unit is queued ([false]); it has its unit when a
    post takes it out of the queue. *)
Definition take (p : Z) (x : semaphore) : bool * semaphore :=
  if decide (units x = 0) then (false, Semaphore 0 (waiting x ++ [p]))
  else (true, Semaphore (units x - 1) (waiting x)).

(** The process that is handed the unit, if one waits. *)
Definition give (x : semaphore) : option Z * semaphore :=
  match waiting x with
  | w :: l => (Some w, Semaphore (units x) l)
  | [] => (None, Semaphore (u16 (units x + 1)) [])
  end.

Section refinement.
Context {St : Type} `{MemoryManager St}.
Implicit Types (s : kst St) (T : Z → Z) (R : Z → list Z).
Implicit Types (L : list Z) (X : Z → sem) (W : Z → list Z).

(** The semaphores of a kernel state. *)
Definition abs X W (a : Z) : semaphore := Semaphore (s_value (X a)) (W a).

Definition implements s T q L X W (A : Z → semaphore) : Prop :=
  sem_inv s T q L X W ∧ ∀ a, a ∈ L → abs X W a = A a.

Lemma abs_value X W A L a v :
  (∀ b, b ∈ L → abs X W b = A b) → a ∈ L →
  ∀ b, b ∈ L → abs (fupd X a (set_s_value v (X a))) W b = fupd A a (Semaphore v (W a)) b.
Proof.
  intros HA Ha b Hb. unfold abs, fupd. case_decide; [by subst|]. by apply HA.
Qed.

Lemma abs_waiting X W A L a l :
  (∀ b, b ∈ L → abs X W b = A b) → a ∈ L →
  ∀ b, b ∈ L → abs X (fupd W a l) b = fupd A a (Semaphore (s_value (X a)) l) b.
Proof.
  intros HA Ha b Hb. unfold abs, fupd. case_decide; [by subst|]. by apply HA.
Qed.

(** The process of pid [w] in state [P], that has called [semWait] and not
    returned. *)
Record waiter s w p (P : Process) : Prop := {
  wt_table : 0 ≤ w < MAX_PROCESSES ∧ process_table s !! Z.to_nat w = Some p;
  wt_proc : k_procs s !! p = Some P ∧ p ≠ NULL ∧ p ≠ idle_proc s ∧ running_process s ≠ p;
  wt_state : state P = BLOCKED ∧ pid P ≠ 1 ∧ is_prio (priority P) ∧ stack_ok P;
}.

(** What [semPost] on [a] leaves behind: the process that waited longest is
    READY at the end of its ready queue, or the count has a unit more. *)
Definition posted s T R q L X W (a : Z) s' : Prop :=
  match W a with
  | [] => k_procs s' = k_procs s ∧ sched_inv s' T R ∧
      sem_inv s' T q L (fupd X a (set_s_value (u16 (s_value (X a) + 1)) (X a))) W
  | w :: l => ∃ p P T' R', waiter s w p P ∧
      k_procs s' = <[p := set_state READY P]> (k_procs s) ∧
      lost_some T' T ∧ sched_inv s' T' R' ∧ sem_inv s' T' q L X (fupd W a l) ∧
      ((∀ i, is_prio i → T' i ≠ NULL) →
         R' = fupd R (priority P) (R (priority P) ++ [p]))
  end.

(** Waking is the case that can stop in [panic()]. *)
Definition wakes W (a : Z) : bool := bool_decide (W a ≠ []).

Lemma semPost_posted s T R q L X W a :
  sem_inv s T q L X W → sched_inv s T R → a ∈ L → (mm_alloc (k_mm s) 8).1 ≠ NULL →
  (∀ w l, W a = w :: l → ∃ p P, waiter s w p P) →
  wp (wakes W a) (semPost a) (λ r s', r = 0 ∧ posted s T R q L X W a s') s.
Proof.
  intros Hse Hsc Ha Hmm Hw. unfold wakes, posted. destruct (W a) as [|w l] eqn:EW.
  - eapply wp_mono; [apply wp_nopanic, (semPost_add_spec s T R q L X W); done|].
    by intros r s' (-> & ? & ? & ? & _).
  - destruct (Hw w l eq_refl) as (p & P & Hwt).
    pose proof Hwt as [[Htab Hp] (HP & Hp0 & Hid & Hrun) (Hst & Hpid & Hpr & Hok)].
    rewrite bool_decide_eq_true_2 by done.
    eapply wp_mono; [by eapply (semPost_wake_spec s T R q L X W a w l p P)|].
    intros r s' (-> & _ & Eps & T' & R' & Hl & Hsc' & Hse' & HR). split; [done|].
    by exists p, P, T', R'.
Qed.

(** The process that makes the call. *)
Record caller s (P : Process) : Prop := {
  cl_proc : k_procs s !! running_process s = Some P ∧ state P = RUNNING ∧ pid P ≠ 1;
  cl_running : running_process s ≠ NULL ∧ running_process s ≠ idle_proc s;
  cl_rsp : rsp_ok (k_procs s) (idle_proc s) (running_process s) (k_rsp s) ∧ rsp_fresh s;
}.

(** C3: [semWait] takes a unit of the abstract semaphore: with a unit left it
    returns 0 at once; with none left the caller is queued, BLOCKED, and gives
    up the CPU, to return 0 when it runs again.  The only other outcome is -1,
    when the queue has no memory for the caller: then nothing has changed. *)
Theorem semWait_refines s T R q L X W A a P
    (Hi : implements s T q L X W A) (Hsc : sched_inv s T R) (Ha : a ∈ L)
    (Hmm : (mm_alloc (k_mm s) 8).1 ≠ NULL) (Hc : caller s P) :
  outcome true (semWait a)
    (λ r s', (r = 0 ∧ (take (pid P) (A a)).1 = true ∧ ∃ X',
        implements s' T q L X' W (fupd A a (take (pid P) (A a)).2)) ∨
      (r = -1 ∧ units (A a) = 0 ∧ implements s' T q L X W A))
    (λ s' k, (take (pid P) (A a)).1 = false ∧ ∃ sb r s0 T' R' W', s' = set_k_rsp r s0 ∧
      k_procs sb =
        <[running_process s := set_wait_ticks 0 (set_state BLOCKED P)]> (k_procs s) ∧
      scheduled sb T R (k_rsp s) r s0 T' R' ∧
      implements s0 T' q L X W' (fupd A a (take (pid P) (A a)).2) ∧
      ∀ s2, k s2 = (_ ← _force_scheduler_interrupt; mret 0) s2) s.
Proof.
  destruct Hi as [Hse HA]. pose proof (HA a Ha) as Ea. unfold abs in Ea.
  unfold take. rewrite <-Ea. simpl. case_decide as Hv; simpl.
  - destruct Hc as [(HP & Hst & Hpid) [Hp0 Hid] [Hrsp Hfresh]].
    pose proof (semWait_block_spec s T R q L X W a P Hse Hsc Ha Hmm Hv HP Hst Hpid Hp0 Hid
      Hrsp Hfresh) as Hs.
    unfold outcome in *. destruct (semWait a s) as [r s'|s' k| | |]; try done.
    + destruct Hs as (-> & Hse' & _). right. done.
    + destruct Hs as (sb & r & s0 & T' & R' & -> & _ & Hsb & Hsd & Hse0 & Hk).
      split; [done|]. exists sb, r, s0, T', R', (fupd W a (W a ++ [pid P])).
      do 3 (split; [done|]). split; [|done]. split; [done|].
      replace (Semaphore 0 (W a ++ [pid P]))
        with (Semaphore (s_value (X a)) (W a ++ [pid P])) by (by rewrite Hv).
      by apply abs_waiting.
  - apply outcome_wp. eapply wp_mono;
      [apply wp_nopanic, (semWait_take_spec s T R q L X W); done|].
    intros r s' (-> & Hse' & _). left. do 2 (split; [done|]).
    eexists. split; [done|]. by apply abs_value.
Qed.

(** C4: [semPost] gives a unit to the abstract semaphore: to the process that has
    waited longest, which becomes READY, or else to the count. *)
Theorem semPost_refines s T R q L X W A a
    (Hi : implements s T q L X W A) (Hsc : sched_inv s T R) (Ha : a ∈ L)
    (Hmm : (mm_alloc (k_mm s) 8).1 ≠ NULL)
    (Hw : ∀ w l, waiting (A a) = w :: l → ∃ p P, waiter s w p P) :
  wp true (semPost a) (λ r s', r = 0 ∧
    (∃ T' X' W', implements s' T' q L X' W' (fupd A a (give (A a)).2)) ∧
    match (give (A a)).1 with
    | Some w => ∀ p P, waiter s w p P → k_procs s' = <[p := set_state READY P]> (k_procs s)
    | None => k_procs s' = k_procs s
    end) s.
Proof.
  destruct Hi as [Hse HA]. pose proof (HA a Ha) as Ea. unfold abs in Ea.
  unfold give. rewrite <-Ea in *. simpl in *. destruct (W a) as [|w l] eqn:EW; simpl.
  - eapply wp_mono; [apply wp_nopanic, (semPost_add_spec s T R q L X W); done|].
    intros r s' (-> & Hse' & _ & -> & _). split; [done|]. split; [|done].
    exists T, (fupd X a (set_s_value (u16 (s_value (X a) + 1)) (X a))), W. split; [done|].
    rewrite <-EW. by apply abs_value.
  - destruct (Hw w l eq_refl) as (p & P & Hwt).
    pose proof Hwt as [[Htab Hp] (HP & Hp0 & Hid & Hrun) (Hst & Hpid & Hpr & Hok)].
    eapply wp_mono; [by eapply (semPost_wake_spec s T R q L X W a w l p P)|].
    intros r s' (-> & _ & Eps & T' & R' & _ & _ & Hse' & _). split; [done|]. split.
    + exists T', X, (fupd W a l). split; [done|]. by apply abs_waiting.
    + intros p' P' [[_ Hp'] (HP' & _) _]. simplify_eq. done.
Qed.
End refinement.

(** ** Concrete instances *)

(** Semaphore 600 has one unit; process 3 waits for semaphore 700. *)
Definition two_sems (a : Z) : semaphore :=
  if decide (a = 600) then Semaphore 1 [] else Semaphore 0 [3].

Lemma two_sems_implements : implements sem_kst demo_T 510 sem_L sem_X sem_W two_sems.
Proof.
  split; [apply sem_kst_inv|]. intros a Ha. unfold sem_L in Ha.
  apply list_elem_of_In in Ha as [<-|[<-|[]]]; done.
Qed.

Lemma sem_kst_caller : caller sem_kst (demo_pcb 2 RUNNING 20000).
Proof.
  split; [done|done|]. split.
  - intros P _ [= <-]. by vm_compute.
  - intros x X' Hx _. destruct (sem_procs_inv _ _ Hx) as [[-> ->]|[[-> ->]|[-> ->]]]; done.
Qed.

Lemma semWait_refines_witness :
  outcome true (semWait 700)
    (λ r s', (r = 0 ∧ false = true ∧ ∃ X',
        implements s' demo_T 510 sem_L X' sem_W (fupd two_sems 700 (Semaphore 0 [3; 2]))) ∨
      (r = -1 ∧ units (two_sems 700) = 0 ∧
        implements s' demo_T 510 sem_L sem_X sem_W two_sems))
    (λ s' k, false = false ∧ ∃ sb r s0 T' R' W', s' = set_k_rsp r s0 ∧
      k_procs sb = <[2000 := set_wait_ticks 0 (set_state BLOCKED (demo_pcb 2 RUNNING 20000))]>
        sem_procs ∧
      scheduled sb demo_T no_ready 20500 r s0 T' R' ∧
      implements s0 T' 510 sem_L sem_X W' (fupd two_sems 700 (Semaphore 0 [3; 2])) ∧
      ∀ s2, k s2 = (_ ← _force_scheduler_interrupt; mret 0) s2) sem_kst.
Proof.
  refine (semWait_refines sem_kst demo_T no_ready 510 sem_L sem_X sem_W two_sems 700
    (demo_pcb 2 RUNNING 20000) two_sems_implements sem_kst_sched _ _ sem_kst_caller);
    first [done|apply list_elem_of_further, list_elem_of_here|by vm_compute].
Defined.

Lemma semPost_refines_witness :
  wp true (semPost 700) (λ r s', r = 0 ∧
    (∃ T' X' W', implements s' T' 510 sem_L X' W' (fupd two_sems 700 (Semaphore 0 []))) ∧
    ∀ p P, waiter sem_kst 3 p P → k_procs s' = <[p := set_state READY P]> sem_procs) sem_kst.
Proof.
  refine (semPost_refines sem_kst demo_T no_ready 510 sem_L sem_X sem_W two_sems 700
    two_sems_implements sem_kst_sched _ _ _);
    [apply list_elem_of_further, list_elem_of_here|by vm_compute|].
  intros w l [= <- _]. exists 3000, (demo_pcb 3 BLOCKED 30000).
  split; by vm_compute.
Defined.
