(* ===== verification/Pipe.v ===== *)
(** * Pipes ([pipe.c])

    The array of pipes, their reader/writer book-keeping and the ring buffer
    with its two semaphores.  A pipe is named by an 8-bit id; [pipeStorage]
    holds one pointer per pipe ever opened, null once the pipe is deleted. *)

From S2P Require Import Prelude MemoryManager Queue Arrays Monad KState Scheduler Sem.

(** [NEXT_IDX] and [PREVIOUS_IDX] *)
Definition NEXT_IDX (i : Z) : Z := u64 (i + 1) mod PIPE_BUFFER_SIZE.
Definition PREVIOUS_IDX (i : Z) : Z :=
  if decide (i = 0) then PIPE_BUFFER_SIZE - 1 else i - 1.

(** The name of a pipe's semaphore: "semPipe", two characters for the id and
    the suffix. *)
Definition buildSemName (id suffix : Z) : list Z :=
  [115; 101; 109; 80; 105; 112; 101; i8 (48 + id / 10); i8 (48 + id mod 10); suffix].

Definition SUFFIX_R : Z := 82.
Definition SUFFIX_W : Z := 87.

Section pipe.
Context {St : Type} `{MemoryManager St}.
Abbreviation K := (K (kst St)).

Definition initPipeStorage : K Z :=
  a ← arr_create 8;
  _ ← kmodify (set_pipeStorage a);
  if decide (a = NULL) then panic "Not enough memory to create pipes." else mret 0.

Definition setNextId (id : Z) : K unit := kmodify (set_nextId (u8 id)).

(** The search loops of [getValidPipe] and [deletePipe], at index [i] with
    [n] entries left. *)
Fixpoint getValidPipe_loop (n : nat) (i id : Z) : K Z :=
  match n with
  | O => mret NULL
  | S n =>
      storage ← kgets pipeStorage;
      r ← arr_get storage i;
      match r with
      | None => panic "Invalid pipe array."
      | Some tmp =>
          if decide (tmp = NULL) then getValidPipe_loop n (i + 1) id
          else
            x ← deref k_pipes tmp;
            if decide (p_id x = id) then mret tmp
            else getValidPipe_loop n (i + 1) id
      end
  end.

(** The pipe with this id, or [NULL] where the code answers [-1]. *)
Definition getValidPipe (id : Z) : K Z :=
  storage ← kgets pipeStorage;
  if decide (storage = NULL) then mret NULL
  else
    size ← arr_size storage;
    getValidPipe_loop (Z.to_nat size) 0 id.

Definition freePipe (p : Z) : K unit :=
  if decide (p = NULL) then mret tt
  else
    x ← deref k_pipes p;
    _ ← semClose (canRead x);
    x ← deref k_pipes p;
    _ ← semClose (canWrite x);
    free_pipe p.

Fixpoint deletePipe_loop (n : nat) (i p : Z) : K Z :=
  match n with
  | O => mret (-1)
  | S n =>
      storage ← kgets pipeStorage;
      r ← arr_get storage i;
      match r with
      | None => panic "Invalid pipe array."
      | Some tmp =>
          if decide (tmp = p) then
            b ← arr_set storage i NULL;
            if negb b then mret (-1)
            else _ ← freePipe p; mret 0
          else deletePipe_loop n (i + 1) p
      end
  end.

Definition deletePipe (p : Z) : K Z :=
  storage ← kgets pipeStorage;
  if decide (p = NULL ∨ storage = NULL) then mret (-1)
  else
    size ← arr_size storage;
    deletePipe_loop (Z.to_nat size) 0 p.

Definition createPipe : K Z :=
  p ← kalloc PIPE_SIZE;
  if decide (p = NULL) then mret NULL
  else
    g ← kgets k_dirt;
    id ← kgets nextId;
    _ ← put_pipe p (set_exp_writers 1 (set_exp_readers 1 (set_writers 0 (set_readers 0
          (set_attached 0 (set_waitingToWrite 0 (set_waitingToRead 0
          (set_idxToWrite 0 (set_idxToRead 0 (set_p_id (u8 id) (g_pipe g p)))))))))));
    a ← semOpen (Some (buildSemName (u8 id) SUFFIX_R)) 0;
    _ ← upd_pipe p (set_canRead a);
    if decide (a = NULL) then _ ← freePipe p; mret NULL
    else
      b ← semOpen (Some (buildSemName (u8 id) SUFFIX_W)) 0;
      _ ← upd_pipe p (set_canWrite b);
      if decide (b = NULL) then
        x ← deref k_pipes p;
        _ ← semClose (canRead x);
        _ ← freePipe p;
        mret NULL
      else
        _ ← upd_pipe p (set_attached 0);
        id ← kgets nextId;
        _ ← kmodify (set_nextId (i32 (id + 1)));
        mret p.

Definition openPipe : K Z :=
  id ← kgets nextId;
  if decide (id = MAX_PIPES) then mret (-1)
  else
    p ← createPipe;
    if decide (p = NULL) then mret (-1)
    else
      storage ← kgets pipeStorage;
      r ← arr_add storage p;
      if decide (r = NULL) then mret (-1)
      else x ← deref k_pipes p; mret (p_id x).

Definition attachReader (id : Z) : K Z :=
  p ← getValidPipe id;
  if decide (p = NULL) then mret (-1)
  else
    _ ← upd_pipe p (λ x, set_readers (u16 (readers x + 1)) x);
    _ ← upd_pipe p (λ x, set_attached (u8 (attached x + 1)) x);
    x ← deref k_pipes p;
    _ ← kwhen (bool_decide (0 < exp_readers x))
          (upd_pipe p (λ x, set_exp_readers (exp_readers x - 1) x));
    mret 0.

Definition attachWriter (id : Z) : K Z :=
  p ← getValidPipe id;
  if decide (p = NULL) then mret (-1)
  else
    _ ← upd_pipe p (λ x, set_writers (u16 (writers x + 1)) x);
    _ ← upd_pipe p (λ x, set_attached (u8 (attached x + 1)) x);
    x ← deref k_pipes p;
    _ ← kwhen (bool_decide (0 < exp_writers x))
          (upd_pipe p (λ x, set_exp_writers (exp_writers x - 1) x));
    mret 0.

(** [while (users-- > 0) semPost(s);] *)
Fixpoint post_times (n : nat) (a : Z) : K unit :=
  match n with O => mret tt | S n => _ ← semPost a; post_times n a end.

Definition wake_all (a : Z) : K unit :=
  users ← semGetUsersCount a; post_times (Z.to_nat users) a.

(** The last test of both detach functions. *)
Definition delete_if_unused (p : Z) : K unit :=
  x ← deref k_pipes p;
  kwhen (bool_decide (readers x = 0 ∧ writers x = 0 ∧ exp_readers x = 0 ∧ exp_writers x = 0))
    (_ ← deletePipe p; mret tt).

Definition detachReader (id pid : Z) : K unit :=
  p ← getValidPipe id;
  if decide (p = NULL) then mret tt
  else
    x ← deref k_pipes p;
    _ ← removeFromSemaphore (canRead x) pid;
    x ← deref k_pipes p;
    _ ← removeFromSemaphore (canWrite x) pid;
    x ← deref k_pipes p;
    _ ← kwhen (bool_decide (0 < readers x))
          (_ ← upd_pipe p (λ x, set_readers (readers x - 1) x);
           kwhen (bool_decide (0 < attached x))
             (upd_pipe p (λ x, set_attached (attached x - 1) x)));
    x ← deref k_pipes p;
    _ ← kwhen (bool_decide (readers x = 0 ∧ waitingToWrite x ≠ 0))
          (_ ← wake_all (canWrite x); upd_pipe p (set_waitingToWrite 0));
    delete_if_unused p.

Definition detachWriter (id pid : Z) : K unit :=
  p ← getValidPipe id;
  if decide (p = NULL) then mret tt
  else
    x ← deref k_pipes p;
    _ ← removeFromSemaphore (canRead x) pid;
    x ← deref k_pipes p;
    _ ← removeFromSemaphore (canWrite x) pid;
    x ← deref k_pipes p;
    _ ← kwhen (bool_decide (0 < writers x))
          (_ ← upd_pipe p (λ x, set_writers (writers x - 1) x);
           kwhen (bool_decide (0 < attached x))
             (upd_pipe p (λ x, set_attached (attached x - 1) x)));
    x ← deref k_pipes p;
    _ ← kwhen (bool_decide (writers x = 0 ∧ waitingToRead x ≠ 0))
          (_ ← wake_all (canRead x); upd_pipe p (set_waitingToRead 0));
    delete_if_unused p.

(** The copying loop of [readPipe]: the bytes stored so far are [out]. *)
Fixpoint read_loop (fuel : nat) (p bytes : Z) (out : list Z) : K (list Z) :=
  match fuel with
  | O => diverge
  | S fuel =>
      x ← deref k_pipes p;
      if decide (Z.of_nat (length out) < bytes ∧ idxToRead x ≠ idxToWrite x) then
        c ← kopt (p_buffer x !! idxToRead x);
        _ ← put_pipe p (set_idxToRead (NEXT_IDX (idxToRead x)) x);
        read_loop fuel p bytes (out ++ [c])
      else mret out
  end.

(** Every round moves the read index one place towards the write index. *)
Definition read_fuel : nat := Z.to_nat (PIPE_BUFFER_SIZE + 1).

(** The part of [readPipe] after the wait. *)
Definition finish_read (p bytes : Z) : K (Z * list Z) :=
  out ← read_loop read_fuel p bytes [];
  x ← deref k_pipes p;
  _ ← kwhen (bool_decide (0 < Z.of_nat (length out) ∧ waitingToWrite x ≠ 0))
        (_ ← upd_pipe p (set_waitingToWrite 0);
         r ← semPost (canWrite x);
         if decide (r = -1) then panic "Pipe's sem didn't work." else mret tt);
  mret (Z.of_nat (length out), out).

(** What the call answers, and the bytes it stored in the buffer. *)
Definition readPipe (id : Z) (buffer : Z) (bytes : Z) : K (Z * list Z) :=
  p ← getValidPipe id;
  if decide (p = NULL ∨ buffer = NULL) then mret (-1, [])
  else
    x ← deref k_pipes p;
    if decide (idxToRead x = idxToWrite x ∧ writers x = 0 ∧ exp_writers x = 0)
    then mret (0, [])
    else
      _ ← kwhen (bool_decide (idxToRead x = idxToWrite x))
            (_ ← upd_pipe p (set_waitingToRead 1);
             r ← semWait (canRead x);
             if decide (r = -1) then panic "Pipe's sem didn't work." else mret tt);
      finish_read p bytes.

(** One byte of [writePipe]: wait while the ring is full, then store. *)
Definition write_byte (p c : Z) : K unit :=
  x ← deref k_pipes p;
  _ ← kwhen (bool_decide (idxToWrite x = PREVIOUS_IDX (idxToRead x)))
        (_ ← upd_pipe p (set_waitingToWrite 1);
         r ← semWait (canWrite x);
         if decide (r = -1) then panic "Pipe's sem didn't work." else mret tt);
  upd_pipe p (λ x, set_idxToWrite (NEXT_IDX (idxToWrite x))
    (set_p_buffer (<[idxToWrite x := c]> (p_buffer x)) x)).

(** [n] bytes left to write, the next one at [buffer[i]]. *)
Fixpoint write_loop (n : nat) (p : Z) (data : list Z) (i : nat) : K unit :=
  match n with
  | O => mret tt
  | S n =>
      c ← kopt (data !! i);
      _ ← write_byte p c;
      write_loop n p data (S i)
  end.

(** The end of [writePipe]: a waiting reader is woken. *)
Definition finish_write (p writtenBytes : Z) : K Z :=
  x ← deref k_pipes p;
  _ ← kwhen (bool_decide (0 < writtenBytes ∧ waitingToRead x ≠ 0))
        (_ ← upd_pipe p (set_waitingToRead 0);
         r ← semPost (canRead x);
         if decide (r = -1) then panic "Pipe's sem didn't work." else mret tt);
  mret writtenBytes.

(** [data] is what the caller's buffer holds. *)
Definition writePipe (id : Z) (buffer : Z) (data : list Z) (bytes : Z) : K Z :=
  p ← getValidPipe id;
  if decide (p = NULL ∨ buffer = NULL) then mret (-1)
  else
    let writtenBytes := Z.max 0 (i32 bytes) in
    _ ← write_loop (Z.to_nat writtenBytes) p data 0;
    finish_write p writtenBytes.

Definition unblockPipeReader (id : Z) : K unit :=
  p ← getValidPipe id;
  if decide (p = NULL) then mret tt
  else
    x ← deref k_pipes p;
    kwhen (bool_decide (0 < waitingToRead x))
      (_ ← upd_pipe p (set_waitingToRead 0);
       r ← semPost (canRead x);
       if decide (r = -1) then panic "Pipe's sem didn't work." else mret tt).

(** [users = semGetUsersCount(a); while (users--) semPost(a);]: a count of
    [-1] runs down past the least [int]. *)
Definition post_all (a : Z) : K unit :=
  users ← semGetUsersCount a;
  if decide (users < 0) then undefined else post_times (Z.to_nat users) a.

Definition closePipe (id : Z) : K Z :=
  p ← getValidPipe id;
  if decide (p = NULL) then mret (-1)
  else
    x ← deref k_pipes p;
    _ ← kwhen (bool_decide (id ≠ STDIN ∧ id ≠ STDOUT ∧ attached x ≤ 1))
          (_ ← post_all (canRead x);
           x ← deref k_pipes p;
           post_all (canWrite x));
    x ← deref k_pipes p;
    if decide (attached x = 0 ∨ (id = STDIN ∨ id = STDOUT) ∧ attached x = 1) then
      r ← deletePipe p;
      if decide (r = -1) then panic "Couldn't delete pipe." else mret 0
    else mret 0.

Definition resetPipeStorage : K unit :=
  _ ← kmodify (set_nextId 0);
  storage ← kgets pipeStorage;
  if decide (storage = NULL) then mret tt
  else A ← deref k_arrays storage; put_array storage (arrayResetSize A).

Definition freePipeStorage : K unit :=
  _ ← resetPipeStorage;
  storage ← kgets pipeStorage;
  if decide (storage = NULL) then mret tt
  else A ← deref k_arrays storage; _ ← kfree (a_base A); free_array storage.
End pipe.
