(* ===== verification/PipeFacts.v ===== *)
(** * Pipes: the ring buffer and the operations on it

    A pipe is a bounded queue of bytes: the ring between the two indices holds
    the bytes written and not yet read, in order.  Writing appends to it,
    reading takes from its front, and the two together hand bytes over
    unchanged. *)

From S2P Require Import Prelude MemoryManager Queue Arrays Strings Monad KState KQueue.
From S2P Require Import Scheduler SchedulerFacts Sem SemFacts Pipe FirstFit.

(** ** The ring *)

Record ring (x : pipe) (l : list Z) : Prop := {
  rg_read : 0 ≤ idxToRead x < PIPE_BUFFER_SIZE;
  rg_fits : Z.of_nat (length l) < PIPE_BUFFER_SIZE;
  rg_write : idxToWrite x = (idxToRead x + Z.of_nat (length l)) mod PIPE_BUFFER_SIZE;
  rg_bytes : ∀ i c, l !! i = Some c →
    p_buffer x !! ((idxToRead x + Z.of_nat i) mod PIPE_BUFFER_SIZE) = Some c;
}.

Ltac ring_lia :=
  unfold PIPE_BUFFER_SIZE in *; Z.div_mod_to_equations; lia.

Lemma NEXT_IDX_mod i : 0 ≤ i < PIPE_BUFFER_SIZE → NEXT_IDX i = (i + 1) mod PIPE_BUFFER_SIZE.
Proof.
  intros Hi. unfold NEXT_IDX. rewrite wrapu_small; [done|].
  unfold PIPE_BUFFER_SIZE in Hi. lia.
Qed.

Lemma ring_empty x l : ring x l → idxToRead x = idxToWrite x ↔ l = [].
Proof.
  intros [Hr Hf Hw _]. rewrite Hw. split.
  - intros E. destruct l; [done|]. simpl in *. exfalso. ring_lia.
  - intros ->. simpl. ring_lia.
Qed.

Lemma ring_full x l :
  ring x l →
  idxToWrite x = PREVIOUS_IDX (idxToRead x) ↔ Z.of_nat (length l) = PIPE_BUFFER_SIZE - 1.
Proof.
  intros [Hr Hf Hw _]. rewrite Hw. unfold PREVIOUS_IDX. case_decide; split; ring_lia.
Qed.

Lemma ring_pop x c l :
  ring x (c :: l) → p_buffer x !! idxToRead x = Some c ∧
  ring (set_idxToRead (NEXT_IDX (idxToRead x)) x) l.
Proof.
  intros [Hr Hf Hw Hb]. split.
  - rewrite <-(Hb 0%nat c eq_refl). f_equal. ring_lia.
  - rewrite NEXT_IDX_mod by done. simpl in Hf. constructor; simpl.
    + apply Z.mod_pos_bound. done.
    + lia.
    + rewrite Hw. simpl. rewrite Zplus_mod_idemp_l. f_equal. lia.
    + intros i d Hi. rewrite <-(Hb (S i) d Hi). f_equal. rewrite Zplus_mod_idemp_l.
      f_equal. lia.
Qed.

Lemma ring_push x c l :
  ring x l → Z.of_nat (length l) < PIPE_BUFFER_SIZE - 1 →
  ring (set_idxToWrite (NEXT_IDX (idxToWrite x))
    (set_p_buffer (<[idxToWrite x := c]> (p_buffer x)) x)) (l ++ [c]).
Proof.
  intros [Hr Hf Hw Hb] Hl.
  rewrite NEXT_IDX_mod by (rewrite Hw; by apply Z.mod_pos_bound).
  constructor; simpl; [done|rewrite length_app; simpl; lia|..].
  - rewrite Hw, Zplus_mod_idemp_l, length_app. simpl. f_equal. lia.
  - intros i d Hi. apply lookup_app_Some in Hi as [Hi|[Hge Hi]].
    + rewrite lookup_insert_ne; [by apply Hb|]. rewrite Hw.
      apply lookup_lt_Some in Hi. intros E. ring_lia.
    + apply list_lookup_singleton_Some in Hi as [Hi ->].
      replace i with (length l) by lia. rewrite Hw. by rewrite lookup_insert_eq.
Qed.

(** Book-keeping fields do not matter. *)
Lemma ring_ext x y l :
  ring x l → p_buffer y = p_buffer x → idxToRead y = idxToRead x →
  idxToWrite y = idxToWrite x → ring y l.
Proof. intros [? ? ? ?] E1 E2 E3. constructor; rewrite ?E1, ?E2, ?E3; done. Qed.

(** ** The array of pipes *)

Section pipes.
Context {St : Type} `{MemoryManager St}.
Implicit Types (s : kst St) (ps : list Z) (X : Z → pipe).

(** [pipeStorage] holds the pointers [ps]; the live pipes are [X]. *)
Record pipes_rep s ps X : Prop := {
  pr_storage : pipeStorage s ≠ NULL;
  pr_array : ∃ A, k_arrays s !! pipeStorage s = Some A ∧ array_rep A ps;
  pr_pipes : ∀ p, p ∈ ps → p ≠ NULL → k_pipes s !! p = Some (X p);
}.

(** The pipe [getValidPipe] finds. *)
Fixpoint find_pipe X (id : Z) ps : Z :=
  match ps with
  | [] => NULL
  | p :: ps => if decide (p ≠ NULL ∧ p_id (X p) = id) then p else find_pipe X id ps
  end.

Lemma find_pipe_spec X id ps p :
  find_pipe X id ps = p → p ≠ NULL → p ∈ ps ∧ p_id (X p) = id.
Proof.
  induction ps as [|a ps IH]; simpl; [naive_solver|]. case_decide as E; intros <- Hp.
  - split; [apply list_elem_of_here|tauto].
  - destruct IH; [done..|]. split; [by apply list_elem_of_further|done].
Qed.

Lemma find_pipe_fupd X id ps p x :
  p_id x = p_id (X p) → find_pipe (fupd X p x) id ps = find_pipe X id ps.
Proof.
  intros Hx. induction ps as [|a ps IH]; [done|]. simpl. rewrite IH.
  destruct (decide (a = p)) as [->|]; [by rewrite fupd_eq, Hx|by rewrite fupd_ne].
Qed.

Lemma wp_getValidPipe_loop pan s ps X id l : ∀ i (Q : Z → kst St → Prop),
  pipes_rep s ps X → drop i ps = l → Q (find_pipe X id l) s →
  wp pan (getValidPipe_loop (length l) (Z.of_nat i) id) Q s.
Proof.
  induction l as [|a l IH]; intros i Q Hrep Hd HQ; [done|].
  pose proof Hrep as [Hst (A & HA & Hrp) Hps].
  assert (ps !! i = Some a) as Hi by (by rewrite <-(Nat.add_0_r i), <-lookup_drop, Hd).
  assert (drop (S i) ps = l) as Hd' by (by rewrite <-Nat.add_1_r, <-drop_drop, Hd).
  cbn [length getValidPipe_loop]. wp_step. wp_step. wp_step. unfold arr_get.
  rewrite decide_False by done. wp_step. wp_step.
  eapply wp_kopt; [by apply array_get with ps|].
  replace (Z.of_nat i + 1) with (Z.of_nat (S i)) by lia. simpl in HQ.
  destruct (decide (a = NULL)) as [->|Ha].
  - rewrite decide_False in HQ by tauto. by apply IH.
  - wp_step. eapply wp_deref.
    { apply Hps; [by eapply list_elem_of_lookup_2|done]. }
    destruct (decide (p_id (X a) = id)).
    + rewrite decide_True in HQ by tauto. by wp_step.
    + rewrite decide_False in HQ by tauto. by apply IH.
Qed.

(** [getValidPipe] reads the array and changes nothing. *)
Lemma wp_getValidPipe pan s ps X id (Q : Z → kst St → Prop) :
  pipes_rep s ps X → Q (find_pipe X id ps) s → wp pan (getValidPipe id) Q s.
Proof.
  intros Hrep HQ. pose proof Hrep as [Hst (A & HA & Hrp) Hps].
  unfold getValidPipe. wp_step. wp_step. rewrite decide_False by done. wp_step.
  unfold arr_size. rewrite decide_False by done. wp_step. wp_step. wp_step.
  unfold arraySize. rewrite (ar_count _ _ Hrp), Nat2Z.id.
  by apply (wp_getValidPipe_loop _ s ps X id ps 0).
Qed.

Lemma wp_upd_pipe pan s p f x (Q : unit → kst St → Prop) :
  k_pipes s !! p = Some x → Q tt (set_k_pipes (<[p := f x]> (k_pipes s)) s) →
  wp pan (upd_pipe p f) Q s.
Proof. intros Hx HQ. unfold upd_pipe. wp_step. wp_step. by apply wp_modify. Qed.

(** A pipe of the array changes, its id stays. *)
Lemma pipes_rep_put s ps X p x :
  pipes_rep s ps X → pipes_rep (set_k_pipes (<[p := x]> (k_pipes s)) s) ps (fupd X p x).
Proof.
  intros [H1 H2 H3]. constructor; [done..|]. intros r Hr Hn. simpl.
  destruct (decide (r = p)) as [->|].
  - by rewrite lookup_insert_eq, fupd_eq.
  - rewrite lookup_insert_ne, fupd_ne by done. auto.
Qed.

Lemma pipes_rep_ext s ps X Y :
  pipes_rep s ps X → (∀ p, p ∈ ps → X p = Y p) → pipes_rep s ps Y.
Proof.
  intros [H1 H2 H3] HXY. constructor; [done..|]. intros p Hp Hn. rewrite <-HXY by done. auto.
Qed.

(** ** The copying loops *)

(** The pipe after [n] bytes were taken. *)
Fixpoint taken (n : nat) (x : pipe) : pipe :=
  match n with
  | O => x
  | S n => taken n (set_idxToRead (NEXT_IDX (idxToRead x)) x)
  end.

(** The pipe after [bs] was appended. *)
Fixpoint stored_bytes (bs : list Z) (x : pipe) : pipe :=
  match bs with
  | [] => x
  | c :: bs => stored_bytes bs (set_idxToWrite (NEXT_IDX (idxToWrite x))
      (set_p_buffer (<[idxToWrite x := c]> (p_buffer x)) x))
  end.

Lemma ring_taken n : ∀ x l, ring x l → (n ≤ length l)%nat → ring (taken n x) (drop n l).
Proof.
  induction n as [|n IH]; intros x l Hr Hn; [done|].
  destruct l as [|c l]; simpl in Hn; [lia|]. simpl. apply IH; [|lia].
  by apply (ring_pop x c l).
Qed.

Lemma ring_stored bs : ∀ x l,
  ring x l → Z.of_nat (length l + length bs) < PIPE_BUFFER_SIZE →
  ring (stored_bytes bs x) (l ++ bs).
Proof.
  induction bs as [|c bs IH]; intros x l Hr Hn; simpl; [by rewrite app_nil_r|].
  rewrite cons_middle, app_assoc. apply IH.
  - apply ring_push; [done|]. simpl in Hn. lia.
  - rewrite length_app. simpl in *. lia.
Qed.

Lemma read_loop_spec pan p bytes l : ∀ fuel out x s (Q : list Z → kst St → Prop),
  k_pipes s !! p = Some x → ring x l → (length l < fuel)%nat →
  let n := Nat.min (Z.to_nat (bytes - Z.of_nat (length out))) (length l) in
  Q (out ++ take n l) (set_k_pipes (<[p := taken n x]> (k_pipes s)) s) →
  wp pan (read_loop fuel p bytes out) Q s.
Proof.
  induction l as [|c l IH]; intros fuel out x s Q Hx Hr Hfuel; cbv zeta; intros HQ;
    (destruct fuel as [|fuel]; [simpl in Hfuel; lia|]); cbn [read_loop]; wp_step; wp_step.
  - pose proof (proj2 (ring_empty _ _ Hr) eq_refl). rewrite decide_False by tauto. wp_step.
    simpl in HQ. rewrite Nat.min_0_r, app_nil_r in HQ. simpl in HQ.
    rewrite insert_id in HQ by done. by destruct s.
  - assert (idxToRead x ≠ idxToWrite x) as Hne by (intros E; by apply (ring_empty _ _ Hr) in E).
    destruct (decide (Z.of_nat (length out) < bytes)) as [Hb|Hb].
    + rewrite decide_True by done. destruct (ring_pop _ _ _ Hr) as [Hc Hr'].
      wp_step. eapply wp_kopt; [exact Hc|]. wp_step. apply wp_modify.
      eapply IH; [simpl; apply lookup_insert_eq|exact Hr'|simpl in Hfuel; lia|].
      simpl. rewrite insert_insert_eq, length_app. simpl.
      assert (Z.to_nat (bytes - Z.of_nat (length out)) =
        S (Z.to_nat (bytes - Z.of_nat (length out + 1)))) as E by lia.
      rewrite E in HQ. simpl in HQ. by rewrite <-app_assoc.
    + rewrite decide_False by tauto. wp_step.
      replace (Z.to_nat _) with O in HQ by lia. simpl in HQ.
      rewrite app_nil_r, insert_id in HQ by done. by destruct s.
Qed.

Lemma write_loop_spec pan p data bs : ∀ i x l s (Q : unit → kst St → Prop),
  k_pipes s !! p = Some x → ring x l →
  Z.of_nat (length l + length bs) < PIPE_BUFFER_SIZE →
  (∀ j c, bs !! j = Some c → data !! (i + j)%nat = Some c) →
  Q tt (set_k_pipes (<[p := stored_bytes bs x]> (k_pipes s)) s) →
  wp pan (write_loop (length bs) p data i) Q s.
Proof.
  induction bs as [|c bs IH]; intros i x l s Q Hx Hr Hfit Hd HQ; cbn [length write_loop].
  - wp_step. simpl in HQ. rewrite insert_id in HQ by done. by destruct s.
  - wp_step. eapply wp_kopt; [rewrite <-(Nat.add_0_r i); by apply Hd|]. wp_step.
    unfold write_byte. wp_step. wp_step. simpl in Hfit.
    rewrite bool_decide_false by (rewrite (ring_full _ _ Hr); lia). wp_step. simpl. wp_step.
    eapply wp_upd_pipe; [exact Hx|]. eapply IH.
    + simpl. apply lookup_insert_eq.
    + apply ring_push; [exact Hr|lia].
    + rewrite length_app. simpl. lia.
    + intros j d Hj. rewrite Nat.add_succ_comm. by apply Hd.
    + simpl. by rewrite insert_insert_eq.
Qed.

(** ** Reading and writing without meeting another process *)

(** Only the ring changed. *)
Definition same_book (x y : pipe) : Prop :=
  ∃ b r w, y = set_idxToWrite w (set_idxToRead r (set_p_buffer b x)).

Lemma same_book_refl x : same_book x x.
Proof. exists (p_buffer x), (idxToRead x), (idxToWrite x). by destruct x. Qed.
Lemma same_book_trans x y z : same_book x y → same_book y z → same_book x z.
Proof. intros (b & r & w & ->) (b' & r' & w' & ->). by exists b', r', w'. Qed.

Lemma taken_book n : ∀ x, same_book x (taken n x).
Proof.
  induction n as [|n IH]; intros x; [apply same_book_refl|].
  simpl. eapply same_book_trans; [|apply IH].
  exists (p_buffer x), (NEXT_IDX (idxToRead x)), (idxToWrite x). by destruct x.
Qed.

Lemma stored_book bs : ∀ x, same_book x (stored_bytes bs x).
Proof.
  induction bs as [|c bs IH]; intros x; [apply same_book_refl|].
  simpl. eapply same_book_trans; [|apply IH].
  by eexists _, (idxToRead x), _.
Qed.

Lemma same_book_fields x y :
  same_book x y → p_id y = p_id x ∧ waitingToRead y = waitingToRead x ∧
    waitingToWrite y = waitingToWrite x ∧ canRead y = canRead x ∧ canWrite y = canWrite x ∧
    readers y = readers x ∧ writers y = writers x ∧ exp_readers y = exp_readers x ∧
    exp_writers y = exp_writers x ∧ attached y = attached x.
Proof. by intros (b & r & w & ->). Qed.

(** What [writePipe] does before it looks for a waiting reader. *)
Lemma write_prefix pan s ps X id p l buffer data bytes (Q : Z → kst St → Prop) :
  pipes_rep s ps X → find_pipe X id ps = p → p ≠ NULL → buffer ≠ NULL → ring (X p) l →
  0 ≤ bytes < 2 ^ 31 → bytes ≤ Z.of_nat (length data) →
  Z.of_nat (length l) + bytes < PIPE_BUFFER_SIZE →
  (let x := stored_bytes (take (Z.to_nat bytes) data) (X p) in
   ring x (l ++ take (Z.to_nat bytes) data) → same_book (X p) x →
   wp pan (finish_write p bytes) Q (set_k_pipes (<[p := x]> (k_pipes s)) s)) →
  wp pan (writePipe id buffer data bytes) Q s.
Proof.
  intros Hrep Hfind Hp Hbuf Hring Hb Hd Hfit HQ. unfold writePipe. wp_step.
  eapply wp_getValidPipe; [done|]. rewrite Hfind, decide_False by tauto.
  assert (Z.max 0 (i32 bytes) = bytes) as -> by (rewrite wraps_small; simpl; lia).
  set (bs := take (Z.to_nat bytes) data) in *.
  assert (length bs = Z.to_nat bytes) as Hlen by (unfold bs; rewrite length_take; lia).
  destruct (find_pipe_spec _ _ _ _ Hfind Hp) as [Hin _]. cbv zeta.
  rewrite <-Hlen. wp_step. eapply (write_loop_spec _ _ _ bs); [by apply (pr_pipes _ _ _ Hrep)|done| | |].
  - rewrite Hlen. lia.
  - intros j c Hj. unfold bs in Hj. apply lookup_take_Some in Hj as [? _]. done.
  - apply HQ; [|apply stored_book].
    apply ring_stored; [done|]. rewrite Hlen. lia.
Qed.

Lemma write_spec pan s ps X id p l buffer data bytes (Q : Z → kst St → Prop) :
  pipes_rep s ps X → find_pipe X id ps = p → p ≠ NULL → buffer ≠ NULL → ring (X p) l →
  0 ≤ bytes < 2 ^ 31 → bytes ≤ Z.of_nat (length data) →
  Z.of_nat (length l) + bytes < PIPE_BUFFER_SIZE → waitingToRead (X p) = 0 →
  (∀ x, ring x (l ++ take (Z.to_nat bytes) data) → same_book (X p) x →
     Q bytes (set_k_pipes (<[p := x]> (k_pipes s)) s)) →
  wp pan (writePipe id buffer data bytes) Q s.
Proof.
  intros. eapply write_prefix; [done..|]. intros x Hx Hbook. unfold finish_write.
  wp_step. eapply wp_deref; [simpl; apply lookup_insert_eq|].
  destruct (same_book_fields _ _ Hbook) as (_ & Hw & _).
  rewrite bool_decide_false by (rewrite Hw; tauto). simpl. wp_step. wp_step. wp_step. auto.
Qed.

(** What [readPipe] does after the wait, if no writer waits. *)
Lemma finish_read_spec pan s p x l bytes (Q : Z * list Z → kst St → Prop) :
  k_pipes s !! p = Some x → ring x l → waitingToWrite x = 0 →
  let n := Nat.min (Z.to_nat bytes) (length l) in
  (∀ y, ring y (drop n l) → same_book x y →
     Q (Z.of_nat n, take n l) (set_k_pipes (<[p := y]> (k_pipes s)) s)) →
  wp pan (finish_read p bytes) Q s.
Proof.
  intros Hx Hring Hw n HQ. unfold finish_read. wp_step.
  eapply read_loop_spec; [done|done| |].
  { pose proof (rg_fits _ _ Hring). unfold read_fuel, PIPE_BUFFER_SIZE in *. lia. }
  simpl. rewrite Z.sub_0_r. fold n. wp_step.
  eapply wp_deref; [simpl; apply lookup_insert_eq|].
  destruct (same_book_fields _ _ (taken_book n x)) as (_ & _ & Hw' & _).
  rewrite bool_decide_false by (rewrite Hw'; tauto). simpl. wp_step. wp_step. wp_step.
  rewrite length_take. replace (Nat.min n (length l)) with n by lia.
  apply HQ; [|apply taken_book]. apply ring_taken; [done|]. lia.
Qed.

Lemma read_spec pan s ps X id p l buffer bytes (Q : Z * list Z → kst St → Prop) :
  pipes_rep s ps X → find_pipe X id ps = p → p ≠ NULL → buffer ≠ NULL → ring (X p) l →
  l ≠ [] → waitingToWrite (X p) = 0 →
  let n := Nat.min (Z.to_nat bytes) (length l) in
  (∀ x, ring x (drop n l) → same_book (X p) x →
     Q (Z.of_nat n, take n l) (set_k_pipes (<[p := x]> (k_pipes s)) s)) →
  wp pan (readPipe id buffer bytes) Q s.
Proof.
  intros Hrep Hfind Hp Hbuf Hring Hl Hw n HQ. unfold readPipe. wp_step.
  eapply wp_getValidPipe; [done|]. rewrite Hfind, decide_False by tauto.
  destruct (find_pipe_spec _ _ _ _ Hfind Hp) as [Hin _].
  assert (k_pipes s !! p = Some (X p)) as Hx by (by apply (pr_pipes _ _ _ Hrep)).
  assert (idxToRead (X p) ≠ idxToWrite (X p)) as Hne
    by (intros E; by apply (ring_empty _ _ Hring) in E).
  wp_step. wp_step. rewrite decide_False by tauto. wp_step.
  rewrite bool_decide_false by done. simpl. wp_step. by eapply finish_read_spec.
Qed.
End pipes.

(** ** Properties *)

Section properties.
Context {St : Type} `{MemoryManager St}.
Implicit Types (s : kst St) (ps : list Z) (X : Z → pipe).

(** [writePipe] of [bytes] bytes that fit in the ring appends exactly
    those bytes, in order, after the ones waiting to be read and answers
    [bytes]; nothing else in the kernel changes.  The copying loop ends. *)
Theorem writePipe_appends s ps X id p l buffer data bytes
    (Hrep : pipes_rep s ps X) (Hfind : find_pipe X id ps = p) (Hp : p ≠ NULL)
    (Hbuf : buffer ≠ NULL) (Hring : ring (X p) l)
    (Hb : 0 ≤ bytes < 2 ^ 31) (Hd : bytes ≤ Z.of_nat (length data))
    (Hfit : Z.of_nat (length l) + bytes < PIPE_BUFFER_SIZE)
    (Hw : waitingToRead (X p) = 0) :
  wp false (writePipe id buffer data bytes) (λ r s', r = bytes ∧
    ∃ x, s' = set_k_pipes (<[p := x]> (k_pipes s)) s ∧
      ring x (l ++ take (Z.to_nat bytes) data) ∧ same_book (X p) x ∧
      pipes_rep s' ps (fupd X p x)) s.
Proof.
  eapply write_spec; [done..|]. intros x Hx Hbook. split; [done|]. exists x.
  split_and!; try done. by apply pipes_rep_put.
Qed.

(** [readPipe] from a pipe that holds the bytes [l] stores the first
    [min bytes |l|] of them, in order, answers how many, and leaves the rest
    in the pipe. *)
Theorem readPipe_takes s ps X id p l buffer bytes
    (Hrep : pipes_rep s ps X) (Hfind : find_pipe X id ps = p) (Hp : p ≠ NULL)
    (Hbuf : buffer ≠ NULL) (Hring : ring (X p) l) (Hl : l ≠ [])
    (Hw : waitingToWrite (X p) = 0) :
  let n := Nat.min (Z.to_nat bytes) (length l) in
  wp false (readPipe id buffer bytes) (λ r s', r = (Z.of_nat n, take n l) ∧
    ∃ x, s' = set_k_pipes (<[p := x]> (k_pipes s)) s ∧
      ring x (drop n l) ∧ same_book (X p) x ∧ pipes_rep s' ps (fupd X p x)) s.
Proof.
  intros n. eapply read_spec; [done..|]. intros x Hx Hbook. split; [done|]. exists x.
  split_and!; try done. by apply pipes_rep_put.
Qed.

(** C14: what is written to an empty pipe is what is read from it: writing
    [data] and then reading at least as many bytes gives back [data], byte for
    byte, and the pipe is empty again. *)
Theorem pipe_roundtrip s ps X id p b1 b2 data bytes
    (Hrep : pipes_rep s ps X) (Hfind : find_pipe X id ps = p) (Hp : p ≠ NULL)
    (Hb1 : b1 ≠ NULL) (Hb2 : b2 ≠ NULL) (Hring : ring (X p) [])
    (Hd : 0 < Z.of_nat (length data) < PIPE_BUFFER_SIZE)
    (Hn : Z.of_nat (length data) ≤ bytes)
    (Hr : waitingToRead (X p) = 0) (Hw : waitingToWrite (X p) = 0) :
  wp false (n ← writePipe id b1 data (Z.of_nat (length data)); readPipe id b2 bytes)
    (λ r s', r = (Z.of_nat (length data), data) ∧
       ∃ x, s' = set_k_pipes (<[p := x]> (k_pipes s)) s ∧ ring x []) s.
Proof.
  assert (0 ≤ Z.of_nat (length data) < 2 ^ 31) by (unfold PIPE_BUFFER_SIZE in Hd; lia).
  wp_step. eapply write_spec; [done..|simpl; lia|done|].
  intros x Hx Hbook. simpl in Hx. rewrite Nat2Z.id, firstn_all in Hx.
  pose proof (same_book_fields _ _ Hbook) as (Hid & _ & Hwx & _).
  destruct (find_pipe_spec _ _ _ _ Hfind Hp) as [Hin Hpid].
  eapply (read_spec _ _ ps (fupd X p x) id p data).
  - by apply pipes_rep_put.
  - by rewrite find_pipe_fupd.
  - done.
  - done.
  - by rewrite fupd_eq.
  - intros ->. simpl in Hd. lia.
  - by rewrite fupd_eq, Hwx.
  - replace (Nat.min _ _) with (length data) by lia. rewrite fupd_eq, drop_all, firstn_all.
    intros y Hy _. split; [done|]. exists y. simpl. by rewrite insert_insert_eq.
Qed.

(** C30: when a reader is waiting, [writePipe] stores its bytes and wakes it:
    the reader leaves the queue of the pipe's semaphore and becomes READY, and
    the pipe records that nobody waits any more. *)
Theorem writePipe_wakes_reader s ps X id p l buffer data bytes T R q L Y W w ws t P
    (Hrep : pipes_rep s ps X) (Hfind : find_pipe X id ps = p) (Hp : p ≠ NULL)
    (Hbuf : buffer ≠ NULL) (Hring : ring (X p) l)
    (Hb : 0 < bytes < 2 ^ 31) (Hd : bytes ≤ Z.of_nat (length data))
    (Hfit : Z.of_nat (length l) + bytes < PIPE_BUFFER_SIZE)
    (Hwait : waitingToRead (X p) ≠ 0)
    (Hse : sem_inv s T q L Y W) (Hsc : sched_inv s T R) (Ha : canRead (X p) ∈ L)
    (Hmm : (mm_alloc (k_mm s) 8).1 ≠ NULL) (Hw : W (canRead (X p)) = w :: ws)
    (Htab : 0 ≤ w < MAX_PROCESSES) (Ht : process_table s !! Z.to_nat w = Some t)
    (HP : k_procs s !! t = Some P) (Hst : state P = BLOCKED)
    (Ht0 : t ≠ NULL) (Hid : t ≠ idle_proc s) (Hpid : pid P ≠ 1)
    (Hpr : is_prio (priority P)) (Hok : stack_ok P) (Hrun : running_process s ≠ t) :
  wp true (writePipe id buffer data bytes) (λ r s', r = bytes ∧
    k_procs s' = <[t := set_state READY P]> (k_procs s) ∧
    ∃ x T' R', k_pipes s' = <[p := x]> (k_pipes s) ∧
      ring x (l ++ take (Z.to_nat bytes) data) ∧ waitingToRead x = 0 ∧
      lost_some T' T ∧ sched_inv s' T' R' ∧
      sem_inv s' T' q L Y (fupd W (canRead (X p)) ws)) s.
Proof.
  eapply write_prefix; [done..|lia|done|done|]. intros x Hx Hbook. unfold finish_write.
  destruct (same_book_fields _ _ Hbook) as (_ & Hwr & _ & Hcr & _).
  wp_step. eapply wp_deref; [simpl; apply lookup_insert_eq|].
  rewrite bool_decide_true by (rewrite Hwr; split; [lia|done]). simpl. wp_step. wp_step.
  eapply wp_upd_pipe; [simpl; apply lookup_insert_eq|]. rewrite Hcr. simpl.
  rewrite insert_insert_eq. wp_step. set (y := set_waitingToRead 0 x).
  match goal with |- wp _ _ _ ?u => change u with (set_k_pipes (<[p := y]> (k_pipes s)) s) end.
  set (s1 := set_k_pipes _ s).
  assert (sem_inv s1 T q L Y W) as Hse1
    by (eapply sem_inv_frame; [exact Hse|apply lost_some_refl|done..]).
  assert (sched_inv s1 T R) as Hsc1 by (eapply sched_inv_ext; [exact Hsc|done..]).
  eapply wp_mono; [eapply (semPost_wake_spec s1); done|].
  intros r s' (-> & Hpip & Hps & T' & R' & HT & Hsc' & Hse' & _). simpl.
  wp_step. wp_step. split; [done|]. split; [done|]. exists y, T', R'.
  split_and!; try done. by apply ring_ext with x.
Qed.

(** [readPipe] on an empty pipe that has, or still expects, a writer
    records that a reader waits, puts the caller in the queue of the pipe's
    semaphore and gives up the CPU; when the caller runs again it yields once
    more and then reads what is there.  (If no queue node can be allocated the
    kernel panics.) *)
Theorem readPipe_blocks s ps X id p buffer bytes T R q L Y W P
    (Hrep : pipes_rep s ps X) (Hfind : find_pipe X id ps = p) (Hp : p ≠ NULL)
    (Hbuf : buffer ≠ NULL) (Hring : ring (X p) [])
    (Hwr : writers (X p) ≠ 0 ∨ exp_writers (X p) ≠ 0)
    (Hse : sem_inv s T q L Y W) (Hsc : sched_inv s T R) (Ha : canRead (X p) ∈ L)
    (Hmm : (mm_alloc (k_mm s) 8).1 ≠ NULL) (Hv : s_value (Y (canRead (X p))) = 0)
    (HP : k_procs s !! running_process s = Some P) (Hst : state P = RUNNING)
    (Hpid : pid P ≠ 1) (Hp0 : running_process s ≠ NULL)
    (Hid : running_process s ≠ idle_proc s)
    (Hrsp : rsp_ok (k_procs s) (idle_proc s) (running_process s) (k_rsp s))
    (Hfresh : rsp_fresh s) :
  switches true (readPipe id buffer bytes) (λ s' k,
    k_pipes s' = <[p := set_waitingToRead 1 (X p)]> (k_pipes s) ∧
    (∃ sb r s0 T' R', s' = set_k_rsp r s0 ∧
       k_procs sb =
         <[running_process s := set_wait_ticks 0 (set_state BLOCKED P)]> (k_procs s) ∧
       scheduled sb T R (k_rsp s) r s0 T' R' ∧
       sem_inv s0 T' q L Y (fupd W (canRead (X p)) (W (canRead (X p)) ++ [pid P]))) ∧
    ∀ s2, k s2 ≡ (_ ← _force_scheduler_interrupt; finish_read p bytes) s2) s.
Proof.
  destruct (find_pipe_spec _ _ _ _ Hfind Hp) as [Hin _].
  assert (k_pipes s !! p = Some (X p)) as Hx by (by apply (pr_pipes _ _ _ Hrep)).
  assert (idxToRead (X p) = idxToWrite (X p)) as He by (by apply (ring_empty _ _ Hring)).
  unfold readPipe. apply switches_bind_r. eapply wp_getValidPipe; [done|].
  rewrite Hfind, decide_False by tauto.
  apply switches_bind_r. eapply wp_deref; [exact Hx|]. rewrite decide_False by tauto.
  rewrite bool_decide_true by done. simpl. apply switches_bind_l, switches_bind_r.
  eapply wp_upd_pipe; [exact Hx|].
  set (s1 := set_k_pipes _ s).
  assert (sem_inv s1 T q L Y W) as Hse1
    by (eapply sem_inv_frame; [exact Hse|apply lost_some_refl|done..]).
  assert (sched_inv s1 T R) as Hsc1 by (eapply sched_inv_ext; [exact Hsc|done..]).
  pose proof (semWait_block_spec s1 T R q L Y W (canRead (X p)) P Hse1 Hsc1 Ha Hmm Hv HP
    Hst Hpid Hp0 Hid Hrsp Hfresh) as Hs.
  unfold outcome in Hs. unfold switches, mbind, K_bind.
  destruct (semWait (canRead (X p)) s1) as [r s'|s' k| | |] eqn:E; try done.
  - destruct Hs as (-> & _). simpl. done.
  - simpl. destruct Hs as (sb & r & s0 & T' & R' & -> & Hpip & Hpsb & Hsd & Hse' & Hk).
    split; [done|]. split; [by exists sb, r, s0, T', R'|].
    intros s2. rewrite Hk. unfold mbind, K_bind. by rewrite !res_bind_assoc.
Qed.

(** An empty pipe with no writer left and none expected is at its end:
    [readPipe] answers 0 at once and changes nothing. *)
Theorem readPipe_eof s ps X id p buffer bytes
    (Hrep : pipes_rep s ps X) (Hfind : find_pipe X id ps = p) (Hp : p ≠ NULL)
    (Hbuf : buffer ≠ NULL) (Hring : ring (X p) [])
    (Hwr : writers (X p) = 0) (Hew : exp_writers (X p) = 0) :
  readPipe id buffer bytes s = Ret (0, []) s.
Proof.
  destruct (find_pipe_spec _ _ _ _ Hfind Hp) as [Hin _].
  assert (wp false (readPipe id buffer bytes) (λ r s', r = (0, []) ∧ s' = s) s) as Hw.
  { unfold readPipe. wp_step. eapply wp_getValidPipe; [done|].
    rewrite Hfind, decide_False by tauto. wp_step.
    eapply wp_deref; [by apply (pr_pipes _ _ _ Hrep)|].
    rewrite decide_True by (split; [by apply (ring_empty _ _ Hring)|done]). by wp_step. }
  by apply wp_inv in Hw as (r & s' & -> & -> & ->).
Qed.
End properties.

(** ** A concrete pipe for the witnesses: id 3, readers wait on semaphore 700,
    writers on 600 (the kernel of [SemFacts]). *)
Section demo.
Definition demo_pipe (buf : gmap Z Z) (w waiting : Z) : pipe :=
  Pipe 3 buf 0 w waiting 0 700 600 2 1 1 0 0.
Definition pipe_kst (x : pipe) : kst ff_state :=
  set_k_pipes {[900 := x]} (set_k_arrays
    (<[800 := Array 801 {[0 := 900]} 8 1 1024 None]> demo_arrays)
    (set_pipeStorage 800 sem_kst)).

Lemma pipe_kst_rep x : pipes_rep (pipe_kst x) [900] (λ _, x).
Proof.
  constructor; [done| |].
  - eexists. split; [done|]. constructor; simpl; try done.
    intros [|i] v; simpl; [by intros [= <-]|done].
  - intros p ->%list_elem_of_singleton _. done.
Qed.

Lemma pipe_kst_sem x : sem_inv (pipe_kst x) demo_T 510 sem_L sem_X sem_W.
Proof. eapply sem_inv_frame; [apply sem_kst_inv|apply lost_some_refl|done..]. Qed.

Lemma pipe_kst_sched x : sched_inv (pipe_kst x) demo_T no_ready.
Proof.
  destruct sem_kst_sched as [H1 [[Ht1 Ht2] Hq Hn Hi] H3 H4 H5 H6].
  constructor; try done.
Qed.

Lemma demo_ring_empty w : ring (demo_pipe ∅ 0 w) [].
Proof. constructor; try done. Qed.

Definition three : gmap Z Z := list_to_map [(0, 7); (1, 8); (2, 9)].
Lemma demo_ring_three : ring (demo_pipe three 3 0) [7; 8; 9].
Proof.
  constructor; try done. intros [|[|[|i]]] c; simpl; try done; by intros [= <-].
Qed.

Lemma writePipe_appends_witness :
  wp false (writePipe 3 1 [7; 8; 9] 2) (λ r s', r = 2 ∧
    ∃ x, s' = set_k_pipes (<[900 := x]> {[900 := demo_pipe ∅ 0 0]}) (pipe_kst (demo_pipe ∅ 0 0)) ∧
      ring x [7; 8] ∧ same_book (demo_pipe ∅ 0 0) x ∧
      pipes_rep s' [900] (fupd (λ _, demo_pipe ∅ 0 0) 900 x)) (pipe_kst (demo_pipe ∅ 0 0)).
Proof.
  refine (writePipe_appends (pipe_kst (demo_pipe ∅ 0 0)) [900] (λ _, demo_pipe ∅ 0 0) 3 900 []
    1 [7; 8; 9] 2 (pipe_kst_rep _) _ _ _ (demo_ring_empty 0) _ _ _ _); try done.
Defined.

Lemma readPipe_takes_witness :
  wp false (readPipe 3 1 2) (λ r s', r = (2, [7; 8]) ∧
    ∃ x, s' = set_k_pipes (<[900 := x]> {[900 := demo_pipe three 3 0]})
        (pipe_kst (demo_pipe three 3 0)) ∧
      ring x [9] ∧ same_book (demo_pipe three 3 0) x ∧
      pipes_rep s' [900] (fupd (λ _, demo_pipe three 3 0) 900 x)) (pipe_kst (demo_pipe three 3 0)).
Proof.
  refine (readPipe_takes (pipe_kst (demo_pipe three 3 0)) [900] (λ _, demo_pipe three 3 0) 3 900
    [7; 8; 9] 1 2 (pipe_kst_rep _) _ _ _ demo_ring_three _ _); try done.
Defined.

Lemma pipe_roundtrip_witness :
  wp false (n ← writePipe 3 1 [7; 8; 9] 3; readPipe 3 2 100)
    (λ r s', r = (3, [7; 8; 9]) ∧
       ∃ x, s' = set_k_pipes (<[900 := x]> {[900 := demo_pipe ∅ 0 0]})
         (pipe_kst (demo_pipe ∅ 0 0)) ∧ ring x []) (pipe_kst (demo_pipe ∅ 0 0)).
Proof.
  refine (pipe_roundtrip (pipe_kst (demo_pipe ∅ 0 0)) [900] (λ _, demo_pipe ∅ 0 0) 3 900
    1 2 [7; 8; 9] 100 (pipe_kst_rep _) _ _ _ _ (demo_ring_empty 0) _ _ _ _); try done.
Defined.

Lemma writePipe_wakes_reader_witness :
  wp true (writePipe 3 1 [7; 8; 9] 3) (λ r s', r = 3 ∧
    k_procs s' = <[3000 := set_state READY (demo_pcb 3 BLOCKED 30000)]> sem_procs ∧
    ∃ x T' R', k_pipes s' = <[900 := x]> {[900 := demo_pipe ∅ 0 1]} ∧
      ring x [7; 8; 9] ∧ waitingToRead x = 0 ∧
      lost_some T' demo_T ∧ sched_inv s' T' R' ∧
      sem_inv s' T' 510 sem_L sem_X (fupd sem_W 700 [])) (pipe_kst (demo_pipe ∅ 0 1)).
Proof.
  refine (writePipe_wakes_reader (pipe_kst (demo_pipe ∅ 0 1)) [900] (λ _, demo_pipe ∅ 0 1) 3 900
    [] 1 [7; 8; 9] 3 demo_T no_ready 510 sem_L sem_X sem_W 3 [] 3000 (demo_pcb 3 BLOCKED 30000)
    (pipe_kst_rep _) _ _ _ (demo_ring_empty 1) _ _ _ _ (pipe_kst_sem _) (pipe_kst_sched _)
    _ _ _ _ _ _ _ _ _ _ _ _ _);
    first [done|apply list_elem_of_further, list_elem_of_here|by vm_compute].
Defined.

Lemma readPipe_blocks_witness :
  switches true (readPipe 3 1 5) (λ s' k,
    k_pipes s' = <[900 := set_waitingToRead 1 (demo_pipe ∅ 0 0)]> {[900 := demo_pipe ∅ 0 0]} ∧
    (∃ sb r s0 T' R', s' = set_k_rsp r s0 ∧
       k_procs sb = <[2000 := set_wait_ticks 0 (set_state BLOCKED (demo_pcb 2 RUNNING 20000))]>
         sem_procs ∧
       scheduled sb demo_T no_ready 20500 r s0 T' R' ∧
       sem_inv s0 T' 510 sem_L sem_X (fupd sem_W 700 [3; 2])) ∧
    ∀ s2, k s2 ≡ (_ ← _force_scheduler_interrupt; finish_read 900 5) s2)
    (pipe_kst (demo_pipe ∅ 0 0)).
Proof.
  refine (readPipe_blocks (pipe_kst (demo_pipe ∅ 0 0)) [900] (λ _, demo_pipe ∅ 0 0) 3 900 1 5
    demo_T no_ready 510 sem_L sem_X sem_W (demo_pcb 2 RUNNING 20000)
    (pipe_kst_rep _) _ _ _ (demo_ring_empty 0) _ (pipe_kst_sem _) (pipe_kst_sched _)
    _ _ _ _ _ _ _ _ _ _); try done.
  - by left.
  - apply list_elem_of_further, list_elem_of_here.
  - intros P _ [= <-]. by vm_compute.
  - intros x X' Hx _. destruct (sem_procs_inv _ _ Hx) as [[-> ->]|[[-> ->]|[-> ->]]]; done.
Defined.

Lemma readPipe_eof_witness :
  let x := set_writers 0 (demo_pipe ∅ 0 0) in
  readPipe 3 1 5 (pipe_kst x) = Ret (0, []) (pipe_kst x).
Proof.
  refine (readPipe_eof (pipe_kst (set_writers 0 (demo_pipe ∅ 0 0))) [900]
    (λ _, set_writers 0 (demo_pipe ∅ 0 0)) 3 900 1 5 (pipe_kst_rep _) _ _ _ _ _ _); try done.
Defined.
End demo.
