(* ===== verification/Processes.v ===== *)
(** * Processes ([process.c]) and the scheduler's start-up

    Creation, termination, waiting, the process table and the queries on it,
    and [init_scheduler] of [scheduler.c], which creates the idle process.
    An entry point is an address; the strings of an argument vector are lists
    of characters. *)

From S2P Require Import Prelude MemoryManager Queue Arrays Strings Monad KState.
From S2P Require Import Scheduler Sem Pipe.

Definition MAX_PROCESS_NAME : Z := 32.

(** "wait_", "unknown" *)
Definition WAIT_PREFIX : list Z := [119; 97; 105; 116; 95].
Definition UNKNOWN : list Z := [117; 110; 107; 110; 111; 119; 110].

(** [stackInit] of [asm/libasm.asm]: the frame it builds below the aligned top
    has 20 quadwords. *)
Definition stackInit (stack_top : Z) : Z := u64 (Z.land stack_top (-16) - 20 * 8).

Record ProcessInfo := Info {
  i_pid : Z;
  i_ppid : Z;
  i_name : list Z;
  i_state : ProcessState;
  i_rsp : Z;
  i_stackBase : Z;
  i_priority : Z;
  i_ground : Z;
}.

(** The shift of [wait_child]: the first [n] entries without the first one
    that is [child_pid]; [None] when there is none. *)
Fixpoint remove_child (n : nat) (kids : list Z) (child_pid : Z) : option (list Z) :=
  match n, kids with
  | S n, k :: rest =>
      if decide (k = child_pid) then
        (* entries [i .. n-1] take their successor; the last one stays *)
        Some (take n rest ++ drop n (k :: rest))
      else cons k <$> remove_child n rest child_pid
  | _, _ => None
  end.

Section process.
Context {St : Type} `{MemoryManager St}.
Abbreviation K := (K (kst St)).

(** ** Helpers *)

(** A pointer to a fresh heap string, or [NULL].  [num_to_str] does not
    check the allocation of a number other than 0. *)
Definition build_wait_semaphore_name (pid : Z) : K Z :=
  if decide (pid < 0 ∨ MAX_PROCESSES ≤ pid) then mret NULL
  else
    pid_str ← kalloc (Z.of_nat (length (num_chars pid)) + 1);
    if decide (pid_str = NULL) then
      if decide (pid = 0) then mret NULL else undefined
    else
      name ← kalloc (5 + Z.of_nat (length (num_chars pid)) + 1);
      _ ← kwhen (bool_decide (name ≠ NULL)) (put_str name (WAIT_PREFIX ++ num_chars pid));
      _ ← kfree pid_str;
      mret name.

(** [init->children[init->child_count++] = v] under the guard on the count;
    a negative count writes outside the PCB. *)
Definition push_child (p v : Z) : K unit :=
  P ← deref k_procs p;
  if decide (child_count P < MAX_CHILDREN) then
    if decide (child_count P < 0) then undefined
    else
      put_proc p (set_child_count (child_count P + 1)
        (set_children (<[Z.to_nat (child_count P) := v]> (children P)) P))
  else mret tt.

(** Iteration [i] of the loop of [reparent_children], [n] rounds left. *)
Fixpoint reparent_loop (n : nat) (i dying init : Z) : K unit :=
  match n with
  | O => diverge
  | S n =>
      D ← deref k_procs dying;
      if decide (i < child_count D) then
        child_pid ← kopt (children D !! Z.to_nat i);
        child ← get_process child_pid;
        _ ← (if decide (child = NULL) then mret tt
             else
               C ← deref k_procs child;
               if decide (state C = TERMINATED) then mret tt
               else
                 _ ← upd_proc child (set_ppid 1);
                 push_child init child_pid);
        reparent_loop n (i + 1) dying init
      else mret tt
  end.

(** Reading past entry 31 is out of bounds, so 33 rounds are enough. *)
Definition child_fuel : nat := 33.

Definition reparent_children (dying_pid : Z) : K unit :=
  dying ← get_process dying_pid;
  if decide (dying = NULL) then mret tt
  else
    init ← get_process INIT_PID;
    if decide (init = NULL) then mret tt
    else
      _ ← reparent_loop child_fuel 0 dying init;
      upd_proc dying (set_child_count 0).

(** [for (i = 0; i < argc; i++) if (argv[i] != NULL) mm_free(argv[i]);] *)
Fixpoint free_args (n : nat) (i : nat) (argv_p : Z) : K unit :=
  match n with
  | O => mret tt
  | S n =>
      v ← deref k_argvs argv_p;
      a ← kopt (v !! i);
      _ ← kwhen (bool_decide (a ≠ NULL)) (free_str a);
      free_args n (S i) argv_p
  end.

Definition free_process_resources (p : Z) (remove_from_scheduler : bool) : K unit :=
  if decide (p = NULL) then mret tt
  else
    P ← deref k_procs p;
    _ ← (if decide (argv P = NULL) then mret tt
         else
           _ ← free_args (Z.to_nat (argc P)) 0 (argv P);
           free_argv (argv P));
    P ← deref k_procs p;
    _ ← kwhen (bool_decide (stackBase P ≠ NULL)) (kfree (stackBase P));
    _ ← kwhen remove_from_scheduler (remove_process_from_scheduler p);
    free_proc p.

(** The scan of [assign_pid] from slot [i], [n] slots left. *)
Fixpoint assign_pid_loop (n : nat) (i : Z) : K Z :=
  match n with
  | O => mret (-1)
  | S n =>
      p ← get_process i;
      if decide (p = NULL) then mret i
      else
        P ← deref k_procs p;
        if decide (state P = TERMINATED) then mret i else assign_pid_loop n (i + 1)
  end.
Definition assign_pid : K Z := assign_pid_loop (Z.to_nat MAX_PROCESSES) 0.

Definition add_to_process_table (p : Z) : K Z :=
  if decide (p = NULL) then mret (-1)
  else
    P ← deref k_procs p;
    if decide (pid P < 0 ∨ MAX_PROCESSES ≤ pid P) then mret (-1)
    else
      _ ← kmodify (λ s, set_process_table (<[Z.to_nat (pid P) := p]> (process_table s)) s);
      mret 0.

Definition remove_from_process_table (pid : Z) : K unit :=
  if decide (0 ≤ pid < MAX_PROCESSES) then
    kmodify (λ s, set_process_table (<[Z.to_nat pid := NULL]> (process_table s)) s)
  else mret tt.

Fixpoint reap_loop (n : nat) (i : Z) : K unit :=
  match n with
  | O => mret tt
  | S n =>
      p ← get_process i;
      _ ← (if decide (p = NULL) then mret tt
           else
             P ← deref k_procs p;
             if decide (state P = TERMINATED) then
               _ ← remove_from_process_table (pid P);
               free_process_resources p false
             else mret tt);
      reap_loop n (i + 1)
  end.
Definition reap_terminated_processes : K unit := reap_loop (Z.to_nat MAX_PROCESSES) 0.

(** ** Creation *)

(** Copies [n] argument strings from index [i]; the vector at [v] holds what
    was stored so far.  [false] when an allocation failed. *)
Fixpoint copy_args (n : nat) (i : nat) (p v : Z) (args : list (list Z)) : K bool :=
  match n with
  | O => mret true
  | S n =>
      arg ← kopt (args !! i);
      a ← kalloc (Z.of_nat (length arg) + 1);
      stored ← deref k_argvs v;
      _ ← put_argv v (stored ++ [a]);
      if decide (a = NULL) then _ ← free_process_resources p false; mret false
      else _ ← put_str a arg; copy_args n (S i) p v args
  end.

(** From the argument vector on; [args] is [None] for a null [argv]. *)
Definition create_args (p argc : Z) (args : option (list (list Z))) : K bool :=
  match args with
  | Some args =>
      if decide (0 < argc) then
        v ← kalloc (8 * argc);
        _ ← upd_proc p (set_argv v);
        if decide (v = NULL) then _ ← free_process_resources p false; mret false
        else _ ← put_argv v []; copy_args (Z.to_nat argc) 0 p v args
      else _ ← free_process_resources p false; mret false
  | None => _ ← free_process_resources p false; mret false
  end.

(** The initial contents of the PCB, up to [p->argc = argc]. *)
Definition init_proc (p entry_point prio argc : Z) (hasForeground : bool) : K unit :=
  P ← deref k_procs p;
  _ ← (if decide (pid P ≠ 0) then
         parent ← get_running_process;
         if decide (parent = NULL) then upd_proc p (set_ppid 0)
         else
           R ← deref k_procs parent;
           _ ← upd_proc p (set_ppid (pid R));
           push_child parent (pid P)
       else upd_proc p (set_ppid 0));
  let prio := if decide (prio < MIN_PRIORITY ∨ MAX_PRIORITY < prio)
              then DEFAULT_PRIORITY else prio in
  upd_proc p (λ P, set_argc argc (set_wait_ticks 0 (set_quantum_remaining DEFAULT_QUANTUM
    (set_original_priority prio (KState.set_priority prio (set_rbp 0
    (set_ground (if hasForeground then FOREGROUND else BACKGROUND)
    (set_rip entry_point (set_state READY P))))))))).

(** The wait semaphore, the I/O targets and the pipes behind them. *)
Definition create_wait_sem (pid : Z) : K unit :=
  if decide (pid ≠ 0) then
    name ← build_wait_semaphore_name pid;
    if decide (name = NULL) then mret tt
    else n ← deref k_strs name; _ ← semOpen (Some n) 0; free_str name
  else mret tt.

Definition connect_targets (p : Z) (targets : list Z) : K unit :=
  t0 ← kopt (targets !! 0%nat);
  t1 ← kopt (targets !! 1%nat);
  t2 ← kopt (targets !! 2%nat);
  _ ← upd_proc p (set_targetByFd [u8 t0; u8 t1; u8 t2]);
  _ ← kwhen (bool_decide (u8 t0 ≠ STDIN ∧ u8 t0 ≠ STDOUT)) (_ ← attachReader (u8 t0); mret tt);
  kwhen (bool_decide (u8 t1 ≠ STDIN ∧ u8 t1 ≠ STDOUT)) (_ ← attachWriter (u8 t1); mret tt).

(** The stack frame, the table entry and everything after them. *)
Definition finish_create (p : Z) (targets : list Z) : K Z :=
  P ← deref k_procs p;
  let stack_top := u64 (stackBase P + PROCESS_STACK_SIZE) in
  let sp := stackInit stack_top in
  _ ← upd_proc p (set_rsp sp);
  if decide (sp < stackBase P ∨ stack_top ≤ sp) then
    _ ← free_process_resources p false; mret NULL
  else
    r ← add_to_process_table p;
    if decide (r ≠ 0) then _ ← free_process_resources p false; mret NULL
    else
      _ ← create_wait_sem (pid P);
      _ ← connect_targets p targets;
      _ ← kwhen (bool_decide (pid P ≠ 0))
            (_ ← _cli; _ ← add_to_scheduler p; _sti);
      _ ← reap_terminated_processes;
      mret p.

Definition create_process (argc : Z) (args : option (list (list Z)))
    (entry_point prio : Z) (targets : list Z) (hasForeground : bool) : K Z :=
  _ ← _cli;
  p ← kalloc PROCESS_SIZE;
  if decide (p = NULL) then _ ← _sti; mret NULL
  else
    g ← kgets k_dirt;
    _ ← put_proc p (g_proc g p);
    stack ← kalloc PROCESS_STACK_SIZE;
    _ ← upd_proc p (set_stackBase stack);
    if decide (stack = NULL) then _ ← free_proc p; _ ← _sti; mret NULL
    else
      n ← assign_pid;
      _ ← upd_proc p (set_pid n);
      if decide (n = -1) then _ ← free_process_resources p false; _ ← _sti; mret NULL
      else
        _ ← _sti;
        _ ← init_proc p entry_point prio argc hasForeground;
        ok ← create_args p argc args;
        if negb ok then mret NULL else finish_create p targets.

(** ** Queries and settings *)

Definition get_pid (p : Z) : K Z := P ← deref k_procs p; mret (pid P).
Definition get_parent_pid (p : Z) : K Z := P ← deref k_procs p; mret (ppid P).
Definition get_current_process : K Z := get_running_process.

Definition set_priority (pid new_priority : Z) : K Z :=
  if decide (new_priority < MIN_PRIORITY ∨ MAX_PRIORITY < new_priority) then mret (-1)
  else
    p ← get_process pid;
    if decide (p = NULL) then mret (-1)
    else
      _ ← _cli;
      _ ← upd_proc p (λ P, set_quantum_remaining DEFAULT_QUANTUM
            (set_original_priority new_priority (KState.set_priority new_priority P)));
      _ ← _sti;
      mret 0.

Definition get_priority (pid : Z) : K Z :=
  p ← get_process pid;
  if decide (p = NULL) then mret (-1) else P ← deref k_procs p; mret (priority P).

Definition get_process_count : K Z :=
  t ← kgets process_table;
  mret (Z.of_nat (length (filter (λ p, p ≠ NULL) t))).

(** [callback] is applied to each process, in the order of the table. *)
Fixpoint foreach_loop (n : nat) (i : Z) (callback : Z → K unit) : K unit :=
  match n with
  | O => mret tt
  | S n =>
      p ← get_process i;
      _ ← kwhen (bool_decide (p ≠ NULL)) (callback p);
      foreach_loop n (i + 1) callback
  end.
Definition foreach_process (callback : option (Z → K unit)) : K unit :=
  match callback with
  | None => mret tt
  | Some f => foreach_loop (Z.to_nat MAX_PROCESSES) 0 f
  end.

Definition set_ground (pid ground : Z) : K Z :=
  p ← get_process pid;
  if decide (p = NULL) then mret (-1)
  else _ ← _cli; _ ← upd_proc p (KState.set_ground ground); _ ← _sti; mret 0.

Definition get_ground (pid : Z) : K Z :=
  p ← get_process pid;
  if decide (p = NULL) then mret (-1) else P ← deref k_procs p; mret (ground P).

Definition yield_cpu : K unit :=
  current ← get_current_process;
  _ ← (if decide (current = NULL) then mret tt
       else
         P ← deref k_procs current;
         if decide (state P = RUNNING) then
           _ ← _cli; _ ← upd_proc current (set_quantum_remaining 0); _sti
         else mret tt);
  _force_scheduler_interrupt.

(** ** Termination *)

(** Leaving the pipes behind targets [r] and [w]. *)
Definition detach_targets (r w pid : Z) : K unit :=
  _ ← (if decide (r ≠ STDIN ∧ r ≠ STDOUT) then
         _ ← detachReader r pid; _ ← closePipe r; mret tt
       else mret tt);
  if decide (w ≠ STDIN ∧ w ≠ STDOUT) then
    _ ← detachWriter w pid;
    if decide (w ≠ r) then _ ← closePipe w; mret tt else mret tt
  else mret tt.

(** Waking the process that waits for this one. *)
Definition post_wait_sem (pid : Z) : K unit :=
  name ← build_wait_semaphore_name pid;
  if decide (name = NULL) then mret tt
  else
    n ← deref k_strs name;
    s ← semOpen (Some n) 0;
    _ ← (if decide (s = NULL) then mret tt
         else _ ← semPost s; _ ← semClose s; mret tt);
    free_str name.

Definition kill_process (pid : Z) : K Z :=
  if decide (pid = 0 ∨ pid = 1) then mret (-1)
  else
    p ← get_process pid;
    if decide (p = NULL) then mret (-1)
    else
      running ← get_running_process;
      P ← deref k_procs p;
      r ← kopt (targetByFd P !! Z.to_nat READ_FD);
      w ← kopt (targetByFd P !! Z.to_nat WRITE_FD);
      _ ← detach_targets r w pid;
      _ ← reparent_children pid;
      _ ← post_wait_sem pid;
      _ ← _cli;
      _ ← upd_proc p (set_state TERMINATED);
      _ ← remove_from_process_table pid;
      shell ← kgets shell_proc;
      _ ← kwhen (bool_decide (shell = p)) (kmodify (set_shell_proc NULL));
      _ ← free_process_resources p true;
      _ ← _sti;
      if decide (running = p) then
        _ ← yield_cpu;
        (* for (;;) _hlt(); *)
        diverge
      else mret 0.

Definition kill_foreground_processes : K Z :=
  current ← get_current_process;
  if decide (current = NULL) then mret (-1)
  else
    P ← deref k_procs current;
    if decide (ground P = FOREGROUND ∧ pid P ≠ 0 ∧ pid P ≠ 1)
    then kill_process (pid P) else mret 0.

Definition process_terminator : K unit :=
  cur ← get_current_process;
  if decide (cur = NULL) then panic "process_terminator: Current process is NULL"
  else
    P ← deref k_procs cur;
    r ← kopt (targetByFd P !! Z.to_nat READ_FD);
    w ← kopt (targetByFd P !! Z.to_nat WRITE_FD);
    _ ← detach_targets r w (pid P);
    _ ← reparent_children (pid P);
    _ ← post_wait_sem (pid P);
    _ ← _cli;
    _ ← upd_proc cur (set_state TERMINATED);
    _ ← remove_process_from_scheduler cur;
    running ← kgets running_process;
    _ ← kwhen (bool_decide (running = cur)) (kmodify (set_running_process NULL));
    shell ← kgets shell_proc;
    _ ← kwhen (bool_decide (shell = cur)) (kmodify (set_shell_proc NULL));
    _ ← _sti;
    _ ← yield_cpu;
    (* for (;;) _hlt(); *)
    diverge.

(** ** Waiting *)

Definition forget_child (child_pid : Z) : K unit :=
  cur ← get_current_process;
  if decide (cur = NULL) then mret tt
  else
    P ← deref k_procs cur;
    match remove_child (Z.to_nat (child_count P)) (children P) child_pid with
    | None => if decide (MAX_CHILDREN < child_count P) then undefined else mret tt
    | Some kids =>
        if decide (MAX_CHILDREN < child_count P) then undefined
        else put_proc cur (set_child_count (child_count P - 1) (set_children kids P))
    end.

Definition wait_child (child_pid : Z) : K Z :=
  child ← get_process child_pid;
  if decide (child = NULL) then mret (-1)
  else
    name ← build_wait_semaphore_name child_pid;
    if decide (name = NULL) then mret (-1)
    else
      n ← deref k_strs name;
      s ← semOpen (Some n) 0;
      if decide (s = NULL) then _ ← free_str name; mret (-1)
      else
        result ← semWait s;
        _ ← semClose s;
        _ ← free_str name;
        _ ← reap_terminated_processes;
        if decide (result ≠ 0) then mret (-1)
        else _ ← forget_child child_pid; mret 0.

(** Iteration [i] of the loop, [fuel] rounds left. *)
Fixpoint wait_all_loop (fuel : nat) (i cur : Z) : K Z :=
  match fuel with
  | O => diverge
  | S fuel =>
      P ← deref k_procs cur;
      if decide (i < child_count P) then
        child_pid ← kopt (children P !! Z.to_nat i);
        _ ← (if decide (child_pid ≤ 0) then mret tt
             else _ ← wait_child child_pid; mret tt);
        wait_all_loop fuel (i + 1) cur
      else mret 0
  end.

Definition wait_all_children : K Z :=
  cur ← get_current_process;
  if decide (cur = NULL) then mret (-1) else wait_all_loop child_fuel 0 cur.

(** ** Process information *)

(** The name [ps] reports; it is copied without a bound into a field of
    [MAX_PROCESS_NAME] bytes. *)
Definition process_name (P : Process) : K (list Z) :=
  name ←
    (if decide (0 < argc P ∧ argv P ≠ NULL) then
       v ← deref k_argvs (argv P);
       a ← kopt (v !! 0%nat);
       if decide (a = NULL) then mret UNKNOWN else deref k_strs a
     else mret UNKNOWN);
  if decide (Z.of_nat (length name) < MAX_PROCESS_NAME) then mret name else undefined.

(** Slot [i] of the caller's buffer, [n] slots left. *)
Fixpoint ps_loop (n : nat) (i : Z) (info : list ProcessInfo) : K (list ProcessInfo) :=
  match n, info with
  | S n, slot :: info =>
      p ← get_process i;
      slot' ←
        (let blank := Info (-1) (i_ppid slot) (i_name slot) (i_state slot) (i_rsp slot)
           (i_stackBase slot) (i_priority slot) (i_ground slot) in
         if decide (p = NULL) then mret blank
         else
           P ← deref k_procs p;
           if decide (state P = TERMINATED) then mret blank
           else
             name ← process_name P;
             mret (Info (pid P) (ppid P) name (state P) (rsp P) (stackBase P)
               (priority P) (ground P)));
      rest ← ps_loop n (i + 1) info;
      mret (slot' :: rest)
  | O, _ => mret info
  | S _, [] => undefined
  end.

(** The answer and the buffer afterwards; [None] is a null pointer. *)
Definition ps (process_info : option (list ProcessInfo)) : K (Z * list ProcessInfo) :=
  match process_info with
  | None => mret (-1, [])
  | Some info => out ← ps_loop (Z.to_nat MAX_PROCESSES) 0 info; mret (0, out)
  end.

(** The name field is left as it was; a negative [pid] reads before the
    table. *)
Definition get_process_info (info : option ProcessInfo) (pid : Z)
  : K (Z * option ProcessInfo) :=
  match info with
  | None => mret (-1, None)
  | Some slot =>
      if decide (MAX_PROCESSES ≤ pid) then mret (-1, info)
      else if decide (pid < 0) then undefined
      else
        p ← get_process pid;
        if decide (p = NULL) then mret (-1, info)
        else
          P ← deref k_procs p;
          mret (1, Some (Info (KState.pid P) (ppid P) (i_name slot) (state P) (rsp P)
            (stackBase P) (priority P) (ground P)))
  end.

(** ** [init_scheduler] *)

(** One round per priority, [n] left. *)
Fixpoint init_queues (n : nat) : K unit :=
  match n with
  | O => mret tt
  | S n =>
      q ← q_create 8;
      if decide (q = NULL) then panic "Failed to create priority queue"
      else
        table ← kgets process_priority_table;
        table ← arr_add table q;
        _ ← kmodify (set_process_priority_table table);
        if decide (table = NULL) then panic "Failed to add queue to priority table"
        else init_queues n
  end.

Definition IDLE_NAME : list Z := [105; 100; 108; 101].

(** [idleProcess] is the address of the idle loop. *)
Definition init_scheduler (idleProcess : Z) : K unit :=
  table ← arr_create 8;
  _ ← kmodify (set_process_priority_table table);
  if decide (table = NULL) then panic "Failed to create process priority table"
  else
    _ ← init_queues (Z.to_nat (MAX_PRIORITY - MIN_PRIORITY + 1));
    idle ← create_process 1 (Some [IDLE_NAME]) idleProcess MIN_PRIORITY
             [STDIN; STDOUT; STDOUT] false;
    _ ← kmodify (set_idle_proc idle);
    if decide (idle = NULL) then panic "Idle create failed"
    else
      _ ← kmodify (set_running_process idle);
      _ ← upd_proc idle (set_state RUNNING);
      kmodify (set_scheduler_online true).
End process.
