(* ===== verification/ProcessFacts.v ===== *)
(** * Processes: the table, names, stacks and the family tree

    Properties of [process.c]: pid assignment, the snapshot [ps] takes, the
    frame of a new process, the names of the wait semaphores, adoption of
    orphans; and that aging never leaves a queue with no READY entry. *)

From S2P Require Import Prelude MemoryManager Queue Arrays Strings Monad KState KQueue.
From S2P Require Import Scheduler SchedulerFacts Sem SemFacts Pipe Processes FirstFit.

Section table.
Context {St : Type} `{MemoryManager St}.
Implicit Types (s : kst St).

(** The process table: 64 slots, each null or a live PCB. *)
Record table_ok s : Prop := {
  to_length : length (process_table s) = 64%nat;
  to_live : ∀ i p, process_table s !! i = Some p → p ≠ NULL → is_Some (k_procs s !! p);
}.

(** The PCB in a slot. *)
Definition slot s (i : nat) : option Process :=
  p ← process_table s !! i; if decide (p = NULL) then None else k_procs s !! p.

(** A slot a new process may take. *)
Definition free_slot s (i : nat) : Prop :=
  match slot s i with None => True | Some P => state P = TERMINATED end.

#[local] Instance free_slot_dec s i : Decision (free_slot s i).
Proof. unfold free_slot. destruct (slot s i); apply _. Qed.

Lemma wp_get_process pan s i (Q : Z → kst St → Prop) :
  (i < 64)%nat → table_ok s →
  (∀ p, process_table s !! i = Some p → Q p s) →
  wp pan (get_process (Z.of_nat i)) Q s.
Proof.
  intros Hi [Hlen _] HQ. unfold get_process.
  rewrite decide_False by (unfold MAX_PROCESSES; lia). wp_step. wp_step. wp_step.
  rewrite Nat2Z.id. destruct (lookup_lt_is_Some_2 (process_table s) i) as [p Hp]; [lia|].
  rewrite Hp. by apply HQ.
Qed.

Lemma assign_pid_loop_spec pan s n : ∀ i (Q : Z → kst St → Prop),
  table_ok s → (i + n = 64)%nat →
  (∀ j, (i ≤ j < 64)%nat → free_slot s j → (∀ k, (i ≤ k < j)%nat → ¬ free_slot s k) →
     Q (Z.of_nat j) s) →
  ((∀ k, (i ≤ k < 64)%nat → ¬ free_slot s k) → Q (-1) s) →
  wp pan (assign_pid_loop n (Z.of_nat i)) Q s.
Proof.
  induction n as [|n IH]; intros i Q Ht Hn Hfree Hfull; cbn [assign_pid_loop].
  { wp_step. apply Hfull. intros. lia. }
  wp_step. apply wp_get_process; [lia|done|]. intros p Hp.
  assert (∀ X : Prop, (free_slot s i → X) → (¬ free_slot s i → X) → X) as Hem
    by (intros X; destruct (decide (free_slot s i)); auto).
  assert (free_slot s i → Q (Z.of_nat i) s) as Hi by (intros Hf; apply Hfree; [lia|done|lia]).
  assert (¬ free_slot s i → wp pan (assign_pid_loop n (Z.of_nat i + 1)) Q s) as Hgo.
  { intros Hnf. replace (Z.of_nat i + 1) with (Z.of_nat (S i)) by lia.
    apply IH; [done|lia|..].
    - intros j Hj Hf Hk. apply Hfree; [lia|done|]. intros k Hk'.
      destruct (decide (k = i)) as [->|]; [done|]. apply Hk. lia.
    - intros Hk. apply Hfull. intros k Hk'.
      destruct (decide (k = i)) as [->|]; [done|]. apply Hk. lia. }
  unfold free_slot, slot in Hi, Hgo. rewrite Hp in Hi, Hgo. simpl in Hi, Hgo.
  destruct (decide (p = NULL)) as [->|Hp0]; [wp_step; by apply Hi|].
  destruct (to_live _ Ht i p Hp Hp0) as [P HP]. rewrite HP in Hi, Hgo. simpl in *.
  wp_step. eapply wp_deref; [exact HP|]. case_decide; [wp_step; auto|auto].
Qed.
End table.

(** ** Waiting for a child *)

(** Removing a child from the first [n] entries closes the gap it leaves and
    does not touch the rest. *)
Lemma remove_child_spec l1 c l2 rest :
  c ∉ l1 →
  ∃ x, remove_child (length (l1 ++ c :: l2)) (l1 ++ c :: l2 ++ rest) c =
    Some (l1 ++ l2 ++ x :: rest).
Proof.
  induction l1 as [|a l1 IH]; intros Hc.
  - simpl. rewrite decide_True by done. rewrite take_app_length.
    destruct (l2 ++ rest) eqn:E.
    + destruct l2; [|done]. simpl in *. subst. by exists c.
    + exists (default c (last l2)). do 2 f_equal.
      rewrite <-E. clear. induction l2 as [|b l2 IH] using rev_ind; [done|].
      rewrite last_snoc, length_app. simpl.
      replace (length l2 + 1)%nat with (S (length l2)) by lia. simpl.
      rewrite <-app_assoc. simpl. by rewrite drop_app_length.
  - destruct IH as [x Hx]; [set_solver|]. exists x.
    cbn [length app remove_child]. rewrite decide_False by set_solver.
    by rewrite Hx.
Qed.

(** The PCB of a parent that has forgotten a child. *)
Definition forgotten (kids : list Z) (P : Process) : Process :=
  set_child_count (child_count P - 1) (set_children kids P).

(** ** Names *)

(** The name of the semaphore a parent waits on. *)
Definition wait_name (pid : Z) : list Z := WAIT_PREFIX ++ num_chars pid.

Lemma wait_name_inj p1 p2 :
  0 ≤ p1 < MAX_PROCESSES → 0 ≤ p2 < MAX_PROCESSES → wait_name p1 = wait_name p2 → p1 = p2.
Proof.
  unfold MAX_PROCESSES. intros H1 H2 E%(inj (app WAIT_PREFIX)).
  apply num_chars_inj; [lia..|done].
Qed.

Lemma buildSemName_inj i1 i2 s1 s2 :
  0 ≤ i1 < 256 → 0 ≤ i2 < 256 → buildSemName i1 s1 = buildSemName i2 s2 → i1 = i2 ∧ s1 = s2.
Proof.
  unfold buildSemName. intros H1 H2 E. injection E as E1 E2 ->.
  rewrite !wraps_small in E1, E2 by (simpl; Z.div_mod_to_equations; lia).
  split; [|done]. rewrite (Z_div_mod_eq_full i1 10), (Z_div_mod_eq_full i2 10). lia.
Qed.

(** ** The frame of a new process *)

Lemma land_minus16 x : Z.land x (-16) = x - x mod 16.
Proof.
  change (-16) with (Z.lnot (Z.ones 4)). rewrite <-Z.ldiff_land, Z.ldiff_ones_r by lia.
  rewrite Z.shiftl_mul_pow2, Z.shiftr_div_pow2 by lia.
  change (2 ^ 4) with 16. Z.div_mod_to_equations. lia.
Qed.

(** A stack pointer for the stack at [base]. *)
Record in_stack (base sp : Z) : Prop := {
  is_range : base ≤ sp < base + PROCESS_STACK_SIZE;
  is_aligned : sp mod 16 = 0;
}.

(** ** Adoption of orphans *)

Section adopt.
Context {St : Type} `{MemoryManager St}.
Implicit Types (s : kst St).

(** [push_child] on the PCB. *)
Definition pushed (v : Z) (P : Process) : Process :=
  if decide (child_count P < MAX_CHILDREN) then
    set_child_count (child_count P + 1)
      (set_children (<[Z.to_nat (child_count P) := v]> (children P)) P)
  else P.

(** [get_process] on the table. *)
Definition kid (table : list Z) (k : Z) : Z :=
  if decide (k < 0 ∨ MAX_PROCESSES ≤ k) then NULL else default NULL (table !! Z.to_nat k).

(** The loop of [reparent_children] on the PCBs: the live ones among the
    children [kids] become children of [init]. *)
Fixpoint adopt (table : list Z) (init : Z) (kids : list Z) (procs : gmap Z Process)
  : gmap Z Process :=
  match kids with
  | [] => procs
  | k :: kids =>
      adopt table init kids
        (if decide (kid table k = NULL) then procs
         else match procs !! kid table k with
              | Some C =>
                  if decide (state C = TERMINATED) then procs
                  else alter (pushed k) init (<[kid table k := set_ppid 1 C]> procs)
              | None => procs
              end)
  end.

(** A process the table maps some pid of [kids] to. *)
Definition kid_of (table : list Z) (kids : list Z) (c : Z) : Prop :=
  c ≠ NULL ∧ ∃ k, k ∈ kids ∧ 0 ≤ k < MAX_PROCESSES ∧ table !! Z.to_nat k = Some c.

Lemma wp_push_child pan s p v P (Q : unit → kst St → Prop) :
  k_procs s !! p = Some P → 0 ≤ child_count P →
  Q tt (set_k_procs (alter (pushed v) p (k_procs s)) s) → wp pan (push_child p v) Q s.
Proof.
  intros HP Hc HQ. unfold push_child. wp_step. wp_step.
  assert (alter (pushed v) p (k_procs s) = <[p := pushed v P]> (k_procs s)) as E.
  { apply map_eq. intros x. destruct (decide (x = p)) as [->|].
    - by rewrite lookup_alter_eq, HP, lookup_insert_eq.
    - by rewrite lookup_alter_ne, lookup_insert_ne. }
  rewrite E in HQ. unfold pushed in HQ. case_decide.
  - rewrite decide_False by lia. by apply wp_modify.
  - wp_step. rewrite insert_id in HQ by done. by destruct s.
Qed.

(** What adoption keeps of every PCB. *)
Definition family (P P' : Process) : Prop :=
  ∃ pp ks n, P' = set_ppid pp (set_children ks (set_child_count n P)).

Lemma not_kid_cons table k kids x :
  ¬ kid_of table (k :: kids) x →
  ¬ kid_of table kids x ∧ (x ≠ NULL → x ≠ kid table k).
Proof.
  intros Hk. split.
  - intros (Hx & j & Hj & ?). apply Hk. split; [done|]. exists j.
    split; [by apply list_elem_of_further|done].
  - intros Hx ->. apply Hk. split; [done|]. exists k. split; [apply list_elem_of_here|].
    unfold kid in *. case_decide; [done|]. split; [lia|].
    destruct (table !! Z.to_nat k); simpl in *; [done|congruence].
Qed.

Lemma adopt_init table init kids : ∀ procs I,
  procs !! init = Some I → 0 ≤ child_count I → ¬ kid_of table kids init →
  ∃ I', adopt table init kids procs !! init = Some I' ∧ 0 ≤ child_count I'.
Proof.
  induction kids as [|k kids IH]; intros procs I HI Hc Hk; [by exists I|]. simpl.
  pose proof (not_kid_cons _ _ _ _ Hk) as [Hk' Hkc].
  case_decide as Hc0; [by eapply IH|].
  destruct (procs !! kid table k) as [C|] eqn:HC; [|by eapply IH].
  case_decide; [by eapply IH|].
  eapply (IH _ (pushed k I)); [|unfold pushed; case_decide; simpl; lia|done].
  rewrite lookup_alter_eq, lookup_insert_ne, HI; [done|].
  intros E. apply Hkc; [by rewrite <-E|done].
Qed.

Lemma adopt_ne table init kids x : ∀ procs,
  x ≠ init → x ≠ NULL → ¬ kid_of table kids x → adopt table init kids procs !! x = procs !! x.
Proof.
  induction kids as [|k kids IH]; intros procs Hx Hn Hk; [done|]. simpl.
  destruct (not_kid_cons _ _ _ _ Hk) as [Hk' Hkc]. rewrite IH by done.
  case_decide; [done|]. destruct (procs !! kid table k) as [C|]; [|done].
  case_decide; [done|]. rewrite lookup_alter_ne by done.
  rewrite lookup_insert_ne; [done|]. symmetry. auto.
Qed.

Lemma wp_kid pan s k (Q : Z → kst St → Prop) :
  Q (kid (process_table s) k) s → wp pan (get_process k) Q s.
Proof.
  intros HQ. unfold get_process, kid in *. case_decide; [by wp_step|]. wp_step. wp_step.
  by wp_step.
Qed.

Lemma reparent_loop_spec pan dying init D l : ∀ fuel i s (Q : unit → kst St → Prop),
  k_procs s !! dying = Some D → dying ≠ init → dying ≠ NULL →
  (∃ I, k_procs s !! init = Some I ∧ 0 ≤ child_count I) → init ≠ NULL →
  child_count D = Z.of_nat (i + length l) → take (length l) (drop i (children D)) = l →
  (length l < fuel)%nat →
  ¬ kid_of (process_table s) l init → ¬ kid_of (process_table s) l dying →
  (∀ k, k ∈ l → kid (process_table s) k ≠ NULL →
     is_Some (k_procs s !! kid (process_table s) k)) →
  Q tt (set_k_procs (adopt (process_table s) init l (k_procs s)) s) →
  wp pan (reparent_loop fuel (Z.of_nat i) dying init) Q s.
Proof.
  induction l as [|k l IH]; intros fuel i s Q HD Hne Hd0 (I & HI & Hc) Hi0 Hcnt Hl Hf Hki Hkd
    Hlive HQ; (destruct fuel as [|fuel]; [simpl in Hf; lia|]); cbn [reparent_loop];
    wp_step; wp_step.
  - rewrite decide_False by (simpl in Hcnt; lia). wp_step. simpl in HQ. by destruct s.
  - simpl in Hcnt, Hf. rewrite decide_True by lia.
    assert (children D !! i = Some k) as Hk.
    { rewrite <-(Nat.add_0_r i), <-lookup_drop. simpl in Hl.
      destruct (drop i (children D)); simpl in *; congruence. }
    assert (take (length l) (drop (S i) (children D)) = l) as Hl'.
    { rewrite <-Nat.add_1_r, <-drop_drop. simpl in Hl.
      destruct (drop i (children D)); simpl in *; [done|]. by injection Hl. }
    destruct (not_kid_cons _ _ _ _ Hki) as [Hki' Hkic].
    destruct (not_kid_cons _ _ _ _ Hkd) as [Hkd' Hkdc].
    wp_step. eapply wp_kopt; [rewrite Nat2Z.id; exact Hk|]. wp_step. apply wp_kid. wp_step.
    replace (Z.of_nat i + 1) with (Z.of_nat (S i)) by lia. simpl in HQ.
    set (c := kid (process_table s) k) in *.
    assert (∀ j, j ∈ l → kid (process_table s) j ≠ NULL →
      is_Some (k_procs s !! kid (process_table s) j)) as Hlive'
      by (intros j Hj; apply Hlive; by apply list_elem_of_further).
    destruct (decide (c = NULL)) as [Hc0|Hc0].
    { wp_step. eapply IH; eauto; lia. }
    destruct (Hlive k) as [C HC]; [apply list_elem_of_here|done|]. fold c in HC.
    rewrite HC in HQ. wp_step. eapply wp_deref; [exact HC|]. case_decide.
    { wp_step. eapply IH; eauto; lia. }
    wp_step. eapply wp_upd_proc; [exact HC|].
    eapply wp_push_child; [simpl; rewrite lookup_insert_ne by (by apply not_eq_sym, Hkic); exact HI|done|].
    simpl. eapply IH; simpl; try done; try lia.
    + rewrite lookup_alter_ne, lookup_insert_ne by (try done; by apply not_eq_sym, Hkdc). done.
    + exists (pushed k I). rewrite lookup_alter_eq, lookup_insert_ne, HI by
        (by apply not_eq_sym, Hkic). split; [done|]. unfold pushed. case_decide; simpl; lia.
    + intros j Hj Hj0. specialize (Hlive' j Hj Hj0) as [J HJ].
      destruct (decide (kid (process_table s) j = init)) as [->|].
      * rewrite lookup_alter_eq, lookup_insert_ne, HI by (by apply not_eq_sym, Hkic). eauto.
      * rewrite lookup_alter_ne by done.
        destruct (decide (c = kid (process_table s) j)) as [->|];
          [rewrite lookup_insert_eq|rewrite lookup_insert_ne by done]; eauto.
Qed.

Lemma kid_of_alt table kids x :
  kid_of table kids x ↔ x ≠ NULL ∧ Exists (λ k, kid table k = x) kids.
Proof.
  unfold kid_of, kid. rewrite Exists_exists. split; intros [Hx (k & Hk & Hr)]; (split; [done|]).
  - exists k. split; [done|]. destruct Hr as [? E]. rewrite decide_False by lia. by rewrite E.
  - exists k. split; [done|]. case_decide; [done|]. split; [lia|].
    destruct (table !! Z.to_nat k); simpl in *; congruence.
Qed.

(** Every live child has the new parent, and so has nothing else changed. *)
Lemma adopt_child table init kids x : ∀ procs X,
  kid_of table kids x → x ≠ init → procs !! x = Some X → state X ≠ TERMINATED →
  adopt table init kids procs !! x = Some (set_ppid 1 X).
Proof.
  induction kids as [|k kids IH]; intros procs X Hk Hx HX Hst.
  { by destruct Hk as (_ & j & ?%elem_of_nil & _). }
  simpl. destruct (decide (kid table k = x)) as [Hkx|Hkx].
  - assert (x ≠ NULL) as Hx0 by apply Hk. rewrite Hkx, decide_False, HX, decide_False by done.
    destruct (decide (Exists (λ k, kid table k = x) kids)) as [Hin|Hout].
    + assert (kid_of table kids x) by (by apply kid_of_alt).
      rewrite (IH _ (set_ppid 1 X)); [done|done|done| |done].
      by rewrite lookup_alter_ne, lookup_insert_eq.
    + rewrite adopt_ne by (rewrite ?kid_of_alt; tauto).
      by rewrite lookup_alter_ne, lookup_insert_eq.
  - apply IH; [|done| |done].
    + destruct Hk as (H0 & j & Hj & Hr & Ht). split; [done|].
      apply elem_of_cons in Hj as [->|Hj]; [|by exists j]. exfalso. apply Hkx.
      unfold kid. rewrite decide_False by lia. by rewrite Ht.
    + case_decide; [done|]. destruct (procs !! kid table k); [|done]. case_decide; [done|].
      by rewrite lookup_alter_ne, lookup_insert_ne.
Qed.
End adopt.

(** ** [ps] *)

Section ps.
Context {St : Type} `{MemoryManager St}.
Implicit Types (s : kst St).

Definition blanked (i : ProcessInfo) : ProcessInfo :=
  Info (-1) (i_ppid i) (i_name i) (i_state i) (i_rsp i) (i_stackBase i) (i_priority i) (i_ground i).

(** What [ps] reports for a slot that held [old] in the caller's buffer. *)
Definition reported s (i : nat) (old new : ProcessInfo) : Prop :=
  match slot s i with
  | None => new = blanked old
  | Some P =>
      if decide (state P = TERMINATED) then new = blanked old
      else ∃ name, process_name P s = Ret name s ∧
        new = Info (pid P) (ppid P) name (state P) (rsp P) (stackBase P) (priority P) (ground P)
  end.

Lemma ps_loop_spec pan s n : ∀ i info (Q : list ProcessInfo → kst St → Prop),
  table_ok s → (i + n = 64)%nat → length info = n →
  (∀ j P, slot s j = Some P → state P ≠ TERMINATED → ∃ name, process_name P s = Ret name s) →
  (∀ out, Forall2 (λ oi new, reported s oi.1 oi.2 new)
     (zip (seq i n) info) out → Q out s) →
  wp pan (ps_loop n (Z.of_nat i) info) Q s.
Proof.
  induction n as [|n IH]; intros i info Q Ht Hn Hlen Hnames HQ.
  { simpl. wp_step. destruct info; [|done]. apply HQ. constructor. }
  destruct info as [|old info]; [done|]. cbn [ps_loop]. wp_step.
  apply wp_get_process; [lia|done|]. intros p Hp. wp_step.
  assert (∀ new, reported s i old new →
    wp pan (rest ← ps_loop n (Z.of_nat i + 1) info; mret (new :: rest)) Q s) as Hrest.
  { intros new Hnew. replace (Z.of_nat i + 1) with (Z.of_nat (S i)) by lia.
    wp_step. apply IH; [done|lia|by injection Hlen|done|]. intros out Hout. wp_step.
    apply HQ. by constructor. }
  assert (slot s i = if decide (p = NULL) then None else k_procs s !! p) as Hslot
    by (unfold slot; by rewrite Hp).
  destruct (decide (p = NULL)) as [Hp0|Hp0].
  - wp_step. apply Hrest. unfold reported. by rewrite Hslot.
  - destruct (to_live _ Ht i p Hp Hp0) as [P HP]. rewrite HP in Hslot.
    wp_step. eapply wp_deref; [exact HP|]. destruct (decide (state P = TERMINATED)) as [Ht'|Ht'].
    + wp_step. apply Hrest. unfold reported. rewrite Hslot. by rewrite decide_True.
    + destruct (Hnames i P Hslot Ht') as [name Hname]. wp_step.
      eapply wp_intro; [exact Hname|]. wp_step. apply Hrest. unfold reported.
      rewrite Hslot, decide_False by done. by exists name.
Qed.
End ps.

(** ** Entries of a ready queue that are not READY *)

Section stale.
Context {St : Type} `{MemoryManager St}.
Implicit Types (s : kst St).

(** Entries of a ready queue that are live but not READY. *)
Definition stale s (l : list Z) : Prop :=
  ∀ p, p ∈ l → p ≠ NULL ∧ ∃ P, k_procs s !! p = Some P ∧ state P ≠ READY.

(** The loop of [apply_aging] goes on over entries that are not READY without
    the test that ends it: on a queue with no READY entry it never ends. *)
Lemma aging_stuck q l fuel : ∀ i s,
  has_queue s q l (Some i) → (i < length l)%nat →
  stale s l → aging_loop fuel q s = Diverges.
Proof.
  induction fuel as [|fuel IH]; intros i s Hq Hi Hl; [done|].
  destruct (lookup_lt_is_Some_2 l i Hi) as [p Hp].
  destruct (Hl p) as (Hp0 & P & HP & Hst); [by eapply list_elem_of_lookup_2|].
  assert (wp false (q_nextIter q) (λ r s', r = Some p ∧ k_procs s' = k_procs s ∧
    ∃ i', has_queue s' q l (Some i') ∧ (i' < length l)%nat) s) as Hn.
  { eapply wp_nextIter; [done..|]. intros s' (mm & qs & -> & _) Hq'. split; [done|].
    split; [done|]. eexists. split; [exact Hq'|]. case_decide; lia. }
  apply wp_inv in Hn as (r & s' & E & -> & Hps & i' & Hq' & Hi').
  cbn [aging_loop]. rewrite (bind_ret _ _ _ _ _ E). simpl. rewrite decide_False by done.
  unfold mbind, K_bind, deref. rewrite Hps, HP. simpl. rewrite decide_True by tauto.
  apply (IH i'); [done..|]. unfold stale. by rewrite Hps.
Qed.
End stale.

(** ** Properties *)

Section properties.
Context {St : Type} `{MemoryManager St}.
Implicit Types (s : kst St).

(** [assign_pid] answers the least slot of the table that is free (null or
    TERMINATED), or -1 exactly when none is; it changes nothing. *)
Theorem assign_pid_correct s (Ht : table_ok s) :
  ∃ r, assign_pid s = Ret r s ∧
    ((∃ i, (i < 64)%nat ∧ r = Z.of_nat i ∧ free_slot s i ∧ ∀ j, (j < i)%nat → ¬ free_slot s j) ∨
     r = -1 ∧ ∀ i, (i < 64)%nat → ¬ free_slot s i).
Proof.
  assert (wp false assign_pid (λ r s', s' = s ∧
    ((∃ i, (i < 64)%nat ∧ r = Z.of_nat i ∧ free_slot s i ∧ ∀ j, (j < i)%nat → ¬ free_slot s j) ∨
     r = -1 ∧ ∀ i, (i < 64)%nat → ¬ free_slot s i)) s) as Hw.
  { apply (assign_pid_loop_spec _ s 64 0); [done..| |].
    - intros j Hj Hf Hk. split; [done|]. left. exists j. split; [lia|]. split; [done|].
      split; [done|]. intros k Hk'. apply Hk. lia.
    - intros Hk. split; [done|]. right. split; [done|]. intros i Hi. apply Hk. lia. }
  apply wp_inv in Hw as (r & s' & E & -> & Hr). by exists r.
Qed.

(** [ps] reports every live process in the slot of its pid, with its
    fields and its name, and marks every other slot with pid -1; it reads only
    live memory and changes nothing.  ([process_name] is defined when the name
    fits in its 32-byte field.) *)
Theorem ps_correct s info (Ht : table_ok s) (Hlen : length info = 64%nat)
    (Hnames : ∀ j P, slot s j = Some P → state P ≠ TERMINATED →
       ∃ name, process_name P s = Ret name s) :
  ∃ out, ps (Some info) s = Ret (0, out) s ∧ length out = 64%nat ∧
    ∀ i old new, info !! i = Some old → out !! i = Some new → reported s i old new.
Proof.
  assert (wp false (ps (Some info)) (λ r s', s' = s ∧ r.1 = 0 ∧ length r.2 = 64%nat ∧
    ∀ i old new, info !! i = Some old → r.2 !! i = Some new → reported s i old new) s) as Hw.
  { unfold ps. wp_step. apply (ps_loop_spec _ s 64 0); [done..|]. intros out Hout. wp_step.
    split; [done|]. split; [done|].
    pose proof (Forall2_length _ _ _ Hout) as Hl. rewrite length_zip, length_seq, Hlen in Hl.
    simpl. split; [by rewrite <-Hl|]. intros i old new Hi Hnew.
    eapply Forall2_lookup_lr in Hout; [|apply lookup_zip_Some; split; [|exact Hi]|exact Hnew].
    2: { apply (lookup_seq_lt 0). apply lookup_lt_Some in Hi. lia. }
    done. }
  apply wp_inv in Hw as ([r out] & s' & E & -> & Hr & ?). simpl in *. subst. by exists out.
Qed.

(** [reparent_children] hands every live child of the dying process to
    init: its parent becomes 1, the dying process is left without children,
    and no process but these and init changes. *)
Theorem reparent_children_correct s d dying D init I
    (Hd : kid (process_table s) d = dying) (Hd0 : dying ≠ NULL)
    (HD : k_procs s !! dying = Some D)
    (Hi : kid (process_table s) INIT_PID = init) (Hi0 : init ≠ NULL)
    (HI : k_procs s !! init = Some I) (Hne : dying ≠ init) (Hic : 0 ≤ child_count I)
    (Hcnt : 0 ≤ child_count D ≤ MAX_CHILDREN) (Hlen : length (children D) = 32%nat)
    (Hlive : ∀ k, kid (process_table s) k ≠ NULL →
       is_Some (k_procs s !! kid (process_table s) k))
    (Hki : ¬ kid_of (process_table s) (take (Z.to_nat (child_count D)) (children D)) init)
    (Hkd : ¬ kid_of (process_table s) (take (Z.to_nat (child_count D)) (children D)) dying) :
  let kids := take (Z.to_nat (child_count D)) (children D) in
  wp false (reparent_children d) (λ _ s', ∃ ps, s' = set_k_procs ps s ∧
    ps !! dying = Some (set_child_count 0 D) ∧
    (∀ x X, kid_of (process_table s) kids x → k_procs s !! x = Some X →
       state X ≠ TERMINATED → ps !! x = Some (set_ppid 1 X)) ∧
    (∀ x, x ≠ init → x ≠ dying → x ≠ NULL → ¬ kid_of (process_table s) kids x →
       ps !! x = k_procs s !! x)) s.
Proof.
  intros kids. unfold reparent_children. wp_step. apply wp_kid. rewrite Hd, decide_False by done.
  wp_step. apply wp_kid. rewrite Hi, decide_False by done. wp_step.
  unfold MAX_CHILDREN in Hcnt.
  assert (length kids = Z.to_nat (child_count D)) as Hk by (unfold kids; rewrite length_take; lia).
  apply (reparent_loop_spec _ dying init D kids child_fuel 0); try done.
  - by exists I.
  - lia.
  - by rewrite Hk.
  - unfold child_fuel. lia.
  - auto.
  - eapply wp_upd_proc; [simpl; by rewrite adopt_ne|].
    eexists. split; [done|]. simpl. split; [apply lookup_insert_eq|]. split.
    + intros x X Hx HX Hst.
      assert (x ≠ dying) by (by intros ->). assert (x ≠ init) by (by intros ->).
      rewrite lookup_insert_ne by done. by apply adopt_child.
    + intros x Hxi Hxd Hx0 Hx. rewrite lookup_insert_ne by done. by apply adopt_ne.
Qed.

(** After a wait, [forget_child] closes the gap the child leaves in its
    parent's list of children and counts one child less. *)
Theorem forget_child_correct s P l1 c l2 rest
    (Hcur : running_process s ≠ NULL) (HP : k_procs s !! running_process s = Some P)
    (Hkids : children P = l1 ++ c :: l2 ++ rest)
    (Hcnt : child_count P = Z.of_nat (length (l1 ++ c :: l2))) (Hc : c ∉ l1)
    (Hmax : child_count P ≤ MAX_CHILDREN) :
  wp false (forget_child c) (λ _ s', ∃ x, s' = set_k_procs
    (<[running_process s := forgotten (l1 ++ l2 ++ x :: rest) P]> (k_procs s)) s) s.
Proof.
  unfold forget_child, get_current_process, get_running_process. wp_step. wp_step.
  rewrite decide_False by done. wp_step. eapply wp_deref; [exact HP|].
  destruct (remove_child_spec l1 c l2 rest Hc) as [x Hx].
  rewrite Hcnt, Nat2Z.id, Hkids, Hx, <-Hcnt, decide_False by lia.
  apply wp_modify. by exists x.
Qed.

(** The frame [stackInit] builds lies in the new process's stack, at a
    16-byte boundary at most 175 bytes below its top, so the bounds check of
    [create_process] never rejects a stack the allocator returned. *)
Theorem stackInit_in_stack base
    (Hb : 0 ≤ base) (Hmax : base + PROCESS_STACK_SIZE < 2 ^ 64) :
  let top := u64 (base + PROCESS_STACK_SIZE) in
  in_stack base (stackInit top) ∧ top - 175 ≤ stackInit top.
Proof.
  unfold PROCESS_STACK_SIZE in *. cbv zeta. rewrite (wrapu_small 64) by lia.
  unfold stackInit. rewrite land_minus16.
  rewrite wrapu_small by (Z.div_mod_to_equations; lia).
  split; [constructor|]; unfold PROCESS_STACK_SIZE; Z.div_mod_to_equations; lia.
Qed.

(** The semaphores the kernel names after processes and pipes never get
    in each other's way: different pids and different pipe ends have different
    names, no wait semaphore is a pipe semaphore, and every name is accepted by
    [semOpen]. *)
Theorem sem_names_distinct :
  (∀ p1 p2, 0 ≤ p1 < MAX_PROCESSES → 0 ≤ p2 < MAX_PROCESSES →
     wait_name p1 = wait_name p2 → p1 = p2) ∧
  (∀ i1 i2 x1 x2, 0 ≤ i1 < 256 → 0 ≤ i2 < 256 →
     buildSemName i1 x1 = buildSemName i2 x2 → i1 = i2 ∧ x1 = x2) ∧
  (∀ p i x, wait_name p ≠ buildSemName i x) ∧
  (∀ i x, Z.of_nat (length (buildSemName i x)) < MAX_SEM_LENGTH).
Proof. split_and!; [apply wait_name_inj|apply buildSemName_inj|done..]. Qed.

(** [apply_aging] never comes back from a ready queue none of whose
    entries is READY: whatever the number of rounds, the loop goes on (with
    interrupts off, the machine hangs). *)
Theorem aging_never_ends s q l i
    (Hq : has_queue s q l (Some i)) (Hi : (i < length l)%nat)
    (Hl : stale s l) :
  ∀ fuel, aging_loop fuel q s = Diverges.
Proof. intros fuel. by eapply aging_stuck. Qed.
End properties.

(** ** Concrete instances *)
Section demo.
(** *** Witnesses

    Slots 2 and 3 of the table hold PCBs 2000 and 3000, slot 4 a TERMINATED
    one; the process in slot 3 has two children, 5 (live) and 6 (gone). *)
Definition family_pcb (n : Z) (st : ProcessState) : Process :=
  PCB n 1 st 0 NULL 0 0 0 0 0 1 0 0 0 [0; 1; 2] ([5; 6] ++ replicate 30 0) (if decide (n = 3) then 2 else 0).
Definition family_procs : gmap Z Process :=
  list_to_map [(1000, family_pcb 0 RUNNING); (1100, family_pcb 1 READY);
    (2000, family_pcb 2 READY); (3000, family_pcb 3 BLOCKED); (4000, family_pcb 4 TERMINATED);
    (5000, family_pcb 5 READY)].
Definition family_table : list Z :=
  [1000; 1100; 2000; 3000; 4000; 5000] ++ replicate 58 NULL.
Definition family_kst : kst ff_state :=
  set_running_process 3000 (set_k_procs family_procs (set_process_table family_table demo_kst)).

Lemma family_live p :
  p ∈ family_table → p ≠ NULL → is_Some (k_procs family_kst !! p).
Proof.
  intros Hp. apply (bool_decide_unpack _).
  assert (Forall (λ p, bool_decide (p ≠ NULL → is_Some (k_procs family_kst !! p)))
    family_table) as HF by (apply (bool_decide_unpack _); by vm_compute).
  rewrite Forall_forall in HF. by apply HF.
Qed.

Lemma family_ok : table_ok family_kst.
Proof.
  constructor; [done|]. intros i p Hi. apply family_live. by eapply list_elem_of_lookup_2.
Qed.

Lemma assign_pid_correct_witness :
  ∃ r, assign_pid family_kst = Ret r family_kst ∧
    ((∃ i, (i < 64)%nat ∧ r = Z.of_nat i ∧ free_slot family_kst i ∧
        ∀ j, (j < i)%nat → ¬ free_slot family_kst j) ∨
     r = -1 ∧ ∀ i, (i < 64)%nat → ¬ free_slot family_kst i).
Proof. exact (assign_pid_correct family_kst family_ok). Defined.

Definition blank_info : ProcessInfo := Info 0 0 [] READY 0 0 0 0.

Lemma ps_correct_witness :
  ∃ out, ps (Some (replicate 64 blank_info)) family_kst = Ret (0, out) family_kst ∧
    length out = 64%nat ∧
    ∀ i old new, replicate 64 blank_info !! i = Some old → out !! i = Some new →
      reported family_kst i old new.
Proof.
  refine (ps_correct family_kst (replicate 64 blank_info) family_ok eq_refl _).
  intros j P Hj _. exists UNKNOWN. unfold slot in Hj.
  destruct (process_table family_kst !! j) as [p|] eqn:Hp; [|done]. simpl in Hj.
  case_decide; [done|].
  assert (argc P = 0) as Ha.
  { assert (map_Forall (λ _ P, argc P = 0) family_procs) as HF
      by (apply (bool_decide_unpack _); by vm_compute).
    by apply (HF p). }
  unfold process_name. rewrite decide_False by (rewrite Ha; lia). done.
Defined.

Lemma reparent_children_correct_witness :
  wp false (reparent_children 3) (λ _ s', ∃ ps, s' = set_k_procs ps family_kst ∧
    ps !! 3000 = Some (set_child_count 0 (family_pcb 3 BLOCKED)) ∧
    (∀ x X, kid_of family_table [5; 6] x → family_procs !! x = Some X →
       state X ≠ TERMINATED → ps !! x = Some (set_ppid 1 X)) ∧
    (∀ x, x ≠ 1100 → x ≠ 3000 → x ≠ NULL → ¬ kid_of family_table [5; 6] x →
       ps !! x = family_procs !! x)) family_kst.
Proof.
  refine (reparent_children_correct family_kst 3 3000 (family_pcb 3 BLOCKED) 1100
    (family_pcb 1 READY) _ _ _ _ _ _ _ _ _ _ _ _ _); try done.
  - intros k Hk. apply family_live; [|done]. unfold kid in *. case_decide; [done|].
    destruct (process_table family_kst !! Z.to_nat k) eqn:E; [|done].
    by eapply list_elem_of_lookup_2.
  - rewrite kid_of_alt. intros [_ He]. by vm_compute in He; inversion_clear He as [? ? E|? ? E];
      [|inversion_clear E as [? ? E'|? ? E']; [|inversion E']].
  - rewrite kid_of_alt. intros [_ He]. by vm_compute in He; inversion_clear He as [? ? E|? ? E];
      [|inversion_clear E as [? ? E'|? ? E']; [|inversion E']].
Defined.

Lemma forget_child_correct_witness :
  wp false (forget_child 6) (λ _ s', ∃ x, s' = set_k_procs
    (<[3000 := forgotten ([5] ++ [] ++ x :: replicate 30 0)
       (family_pcb 3 BLOCKED)]> family_procs) family_kst) family_kst.
Proof.
  refine (forget_child_correct family_kst (family_pcb 3 BLOCKED) [5] 6 [] (replicate 30 0)
    _ _ _ _ _ _); try done. set_solver.
Defined.

Lemma stackInit_in_stack_witness :
  let top := u64 (30008 + PROCESS_STACK_SIZE) in
  in_stack 30008 (stackInit top) ∧ top - 175 ≤ stackInit top.
Proof. refine (stackInit_in_stack 30008 _ _); [lia|unfold PROCESS_STACK_SIZE; lia]. Defined.

(** Queue 100 with a BLOCKED entry and the iterator at it. *)
Definition stale_kst : kst ff_state :=
  set_k_queues (<[100 := Queue [Node 50 60 3000] (Some O) 8]> demo_queues) demo_kst.

Lemma aging_never_ends_witness : aging_loop 5000 100 stale_kst = Diverges.
Proof.
  refine (aging_never_ends stale_kst 100 [3000] 0 _ _ _ 5000).
  - split; [done|]. eexists. split; [done|]. split_and!; try done. by vm_compute; lia.
  - simpl. lia.
  - intros p ->%list_elem_of_singleton. split; [done|].
    by exists (demo_pcb 3 BLOCKED 30000).
Defined.
End demo.
