(* ===== verification/PriorityHang.v ===== *)
(** * Changing the priority of a queued process

    [set_priority] does not move the PCB to the ready queue of its new
    priority, and [block_process] looks for it only there. *)

From S2P Require Import Prelude MemoryManager FirstFit Queue Arrays Monad KState KQueue.
From S2P Require Import Scheduler SchedulerFacts Sem Pipe Processes ProcessFacts.

(** ** Computations that never end *)
Section hangs.
Context {S A B : Type}.

Lemma diverges_l (m : K S A) (f : A → K S B) s : m s = Diverges → (m ≫= f) s = Diverges.
Proof. unfold mbind, K_bind. by intros ->. Qed.

Lemma diverges_r (m : K S A) (f : A → K S B) s :
  wp false m (λ a s', f a s' = Diverges) s → (m ≫= f) s = Diverges.
Proof. intros (a & s' & E & Hf)%wp_inv. by rewrite (bind_ret _ _ _ _ _ E). Qed.
End hangs.

Section hang.
Context {St : Type} `{MemoryManager St}.
Implicit Types (s : kst St) (T : Z → Z) (R : Z → list Z).

(** ** Aging *)

(** An empty level is passed over. *)
Lemma age_queue_empty s T R i (Q : unit → kst St → Prop) :
  sched_rep s T R → is_prio i → R i = [] → Q tt s → wp false (age_queue i) Q s.
Proof.
  intros Hrep Hi HR HQ. unfold age_queue. wp_step. eapply wp_get_pq; [done|done|].
  case_decide as HT; [by wp_step|].
  destruct (sr_queue _ _ _ Hrep i Hi HT) as [it Hq]. wp_step.
  eapply wp_isEmpty; [exact Hq|]. rewrite bool_decide_eq_true_2 by done. by wp_step.
Qed.

(** Walking a stale queue from its head never ends. *)
Lemma stale_walk s q l it fuel : has_queue s q l it → l ≠ [] → stale s l →
  (_ ← q_beginIter q; aging_loop fuel q) s = Diverges.
Proof.
  intros Hq Hl Hst. apply diverges_r. eapply wp_beginIter; [exact Hq|done|].
  intros s1 (mm & qs & -> & _) Hq1. eapply aging_stuck; [exact Hq1| |exact Hst].
  destruct l; simpl; [done|lia].
Qed.

Lemma age_queue_hangs s T R i : sched_rep s T R → is_prio i → T i ≠ NULL →
  R i ≠ [] → stale s (R i) → age_queue i s = Diverges.
Proof.
  intros Hrep Hi HT HR Hst. unfold age_queue.
  apply diverges_r. eapply wp_get_pq; [done|done|]. rewrite decide_False by done.
  destruct (sr_queue _ _ _ Hrep i Hi HT) as [it Hq].
  apply diverges_r. eapply wp_isEmpty; [exact Hq|]. rewrite bool_decide_eq_false_2 by done.
  apply diverges_r. eapply wp_beginIter; [exact Hq|done|]. intros s1 Hf1 Hq1.
  pose proof Hq1 as (_ & Q & HQ & _). pose proof Hf1 as (mm & qs & -> & _).
  apply diverges_r. eapply wp_deref; [exact HQ|].
  eapply aging_stuck; [exact Hq1| |exact Hst]. destruct (R i); simpl; [done|lia].
Qed.

(** The tick: [apply_aging] reaches the level when those below are empty. *)
Lemma schedule_hangs s T R i r : scheduler_online s = true → sched_rep s T R →
  0 ≤ i < MAX_PRIORITY → T i ≠ NULL → R i ≠ [] → stale s (R i) →
  (∀ j, 0 ≤ j < i → R j = []) → schedule r s = Diverges.
Proof.
  intros Hon Hrep Hi HT HR Hst Hlow. unfold schedule. apply diverges_r. wp_step. rewrite Hon. simpl.
  apply diverges_l. unfold apply_aging. change (Z.to_nat _) with 3%nat. cbn [kfor].
  change (MIN_PRIORITY + 1 + 1) with 2. change (MIN_PRIORITY + 1) with 1. change MIN_PRIORITY with 0.
  assert (∀ k, 0 ≤ k ≤ 3 → is_prio k) as Hprio by done.
  unfold MAX_PRIORITY in Hi. assert (i = 0 ∨ i = 1 ∨ i = 2) as [->|[->| ->]] by lia.
  - apply diverges_l. by apply (age_queue_hangs s T R); [|apply Hprio; lia|..].
  - apply diverges_r. eapply age_queue_empty; [done|apply Hprio; lia|apply Hlow; lia|].
    apply diverges_l. by apply (age_queue_hangs s T R); [|apply Hprio; lia|..].
  - apply diverges_r. eapply age_queue_empty; [done|apply Hprio; lia|apply Hlow; lia|].
    apply diverges_r. eapply age_queue_empty; [done|apply Hprio; lia|apply Hlow; lia|].
    apply diverges_l. by apply (age_queue_hangs s T R); [|apply Hprio; lia|..].
Qed.

(** ** The wrong queue *)

(** What [set_priority] makes of the PCB. *)
Definition reprioritised (new : Z) (P : Process) : Process :=
  set_quantum_remaining DEFAULT_QUANTUM (set_original_priority new (KState.set_priority new P)).

(** [remove_from_all_priority_queues] finds nothing in a queue whose entries
    have other pids. *)
Lemma remove_misses s T R p P (Q : unit → kst St → Prop) :
  sched_rep s T R → p ≠ NULL → k_procs s !! p = Some P → is_prio (priority P) →
  (∀ w, w ∈ R (priority P) → ∃ W, k_procs s !! w = Some W ∧ pid W ≠ pid P) →
  (∀ s', s' = s ∨ qframe (T (priority P)) s s' → sched_rep s' T R → Q tt s') →
  wp false (remove_from_all_priority_queues p) Q s.
Proof.
  intros Hrep Hp0 HP Hpr Hw HQ. unfold remove_from_all_priority_queues.
  rewrite decide_False by done. wp_step. wp_step. wp_step.
  eapply wp_get_pq; [done|done|]. case_decide as HT; [wp_step; apply HQ; [by left|done]|].
  destruct (sr_queue _ _ _ Hrep _ Hpr HT) as [it Hq].
  wp_step. eapply wp_remove_none; [exact Hq|..].
  { intros w Hin. destruct (Hw w Hin) as (W & HW & Hne).
    unfold compareProcesses. rewrite HW, HP. simpl. by rewrite bool_decide_false by lia. }
  intros s1 Hf Hq1. wp_step. apply HQ; [by right|].
  eapply sched_rep_ext; [done| |by eapply sched_rep_queue].
  intros j _. unfold fupd. case_decide; [by subst|done].
Qed.

(** [set_priority] and then [block_process]: the PCB changes, the queues do
    not. *)
Lemma wp_set_then_block s T R p P n new (Q : Z → kst St → Prop) :
  sched_inv s T R → table_ok s → (n < 64)%nat → process_table s !! n = Some p →
  k_procs s !! p = Some P → is_prio (priority P) → p ∈ R (priority P) → pid P ≠ 1 →
  is_prio new → new ≠ priority P →
  (∀ s', k_procs s' = <[p := set_wait_ticks 0 (set_state BLOCKED (reprioritised new P))]> (k_procs s) →
     scheduler_online s' = true → sched_rep s' T R → Q 0 s') →
  wp false (_ ← Processes.set_priority (Z.of_nat n) new; block_process p) Q s.
Proof.
  intros [Hon Hrep Hready Hro Hidle HI] Ht Hn Hslot HP Hpr Hin Hpid Hnew Hne HQ.
  destruct (ready_ok_lookup _ _ _ _ _ Hready Hpr Hin) as (P' & HP' & Hst & _ & _ & Hp0 & Hid).
  simplify_eq. wp_step. unfold Processes.set_priority.
  rewrite decide_False by (unfold is_prio in Hnew; lia).
  wp_step. apply wp_get_process; [done|done|]. intros p' Hp'. simplify_eq.
  rewrite decide_False by done. wp_step. apply wp_modify. wp_step.
  eapply wp_upd_proc; [exact HP|]. wp_step. apply wp_modify. wp_step. simpl.
  fold (reprioritised new P). set (P1 := reprioritised new P).
  match goal with |- wp _ _ _ ?t => set (s1 := t) end.
  assert (sched_rep s1 T R) as Hrep1 by (by apply sched_rep_if, sched_rep_procs, sched_rep_if).
  assert (k_procs s1 !! p = Some P1) as HP1 by apply lookup_insert_eq.
  unfold block_process. wp_step. wp_step. rewrite decide_False by (simpl; tauto).
  wp_step. eapply wp_deref; [exact HP1|]. rewrite decide_False by (simpl; rewrite Hst; naive_solver).
  wp_step. apply wp_modify. wp_step.
  eapply (remove_misses (set_k_if false s1) T R p P1); [by apply sched_rep_if|done|exact HP1|done|..].
  { intros w Hw. change (priority P1) with new in Hw.
    destruct (ready_ok_lookup _ _ _ _ _ Hready Hnew Hw) as (W & HW & HsW & Hlvl & _).
    assert (w ≠ p) as Hwp by (intros ->; simplify_eq; congruence).
    exists W. simpl. rewrite lookup_insert_ne by done. split; [done|]. intros E. apply Hwp.
    apply (ro_pids _ _ _ Hready w p W P); try done; [by rewrite HsW|by rewrite Hst]. }
  intros s2 Hf Hrep2.
  assert (k_procs s2 = k_procs s1 ∧ idle_proc s2 = idle_proc s ∧
    running_process s2 = running_process s ∧ scheduler_online s2 = true)
    as (Hps & Hid2 & Hrn & Hon2) by (by destruct Hf as [->|(mm & qs & -> & _)]).
  wp_step. eapply wp_upd_proc; [rewrite Hps; exact HP1|].
  wp_step. unfold reset_aging. wp_step. wp_step. simpl.
  rewrite decide_False by (rewrite Hid2; tauto).
  eapply wp_upd_proc; [apply lookup_insert_eq|]. simpl. rewrite insert_insert_eq.
  wp_step. apply wp_modify. wp_step. wp_step. simpl.
  rewrite bool_decide_false.
  2: { rewrite Hrn. intros Hrp. destruct Hro as [E|(X & HX & Hsx & _)]; [congruence|].
       rewrite Hrp in HX. simplify_eq. }
  simpl. wp_step. wp_step. wp_step. apply HQ; simpl; [|done|].
  - rewrite Hps. simpl. by rewrite insert_insert_eq.
  - apply sched_rep_if. by apply sched_rep_procs, sched_rep_procs.
Qed.
End hang.

(** * Properties *)

(** C31: a process that is READY and alone at a level below the highest,
    with the levels below it empty: when its priority is changed and it is
    then blocked, both calls succeed, but its PCB stays in the ready queue of
    its old level, BLOCKED.  From then on the walk of [apply_aging] over that
    queue never ends, whatever the number of steps, so the next timer tick
    never comes back from [schedule]. *)
Theorem set_priority_then_block_hangs {St : Type} `{MemoryManager St} (s : kst St) T R p P n new
    (Hinv : sched_inv s T R) (Ht : table_ok s)
    (Hn : (n < 64)%nat) (Hslot : process_table s !! n = Some p)
    (HP : k_procs s !! p = Some P) (Hpid : pid P ≠ 1) (Hlevel : 0 ≤ priority P < MAX_PRIORITY)
    (Halone : R (priority P) = [p]) (Hlow : ∀ j, 0 ≤ j < priority P → R j = [])
    (Hnew : is_prio new) (Hne : new ≠ priority P) :
  wp false (_ ← Processes.set_priority (Z.of_nat n) new; block_process p) (λ r s', r = 0 ∧
    k_procs s' !! p = Some (set_wait_ticks 0 (set_state BLOCKED (reprioritised new P))) ∧
    (∃ it, has_queue s' (T (priority P)) [p] it) ∧
    (∀ fuel, (_ ← q_beginIter (T (priority P)); aging_loop fuel (T (priority P))) s' = Diverges) ∧
    ∀ current_rsp, schedule current_rsp s' = Diverges) s.
Proof.
  assert (is_prio (priority P)) as Hpr by (unfold is_prio, MAX_PRIORITY, MIN_PRIORITY in *; lia).
  assert (p ∈ R (priority P)) as Hin by (rewrite Halone; apply list_elem_of_here).
  apply (wp_set_then_block s T R p P n new); try done. intros s' Hps Hon Hrep.
  assert (T (priority P) ≠ NULL) as HT.
  { intros E. pose proof (sr_null _ _ _ Hrep _ Hpr E). congruence. }
  destruct (sr_queue _ _ _ Hrep _ Hpr HT) as [it Hq]. rewrite Halone in Hq.
  assert (p ≠ NULL) as Hp0.
  { by destruct (ready_ok_lookup _ _ _ _ p (si_ready _ _ _ Hinv) Hpr Hin)
      as (? & ? & ? & ? & ? & ? & ?). }
  assert (stale s' [p]) as Hstale.
  { intros x ->%list_elem_of_singleton. split; [done|]. eexists.
    rewrite Hps, lookup_insert_eq. by split. }
  split; [done|]. split; [by rewrite Hps, lookup_insert_eq|]. split; [by exists it|].
  split; [intros fuel; by eapply stale_walk|]. intros r.
  apply (schedule_hangs s' T R (priority P)); try done; by rewrite Halone.
Qed.

(** ** A concrete kernel

    The kernel of [SchedulerFacts], whose PCB 2000 is READY in queue 100, with
    pid 2 in the process table. *)
Definition nice_kst : kst ff_state :=
  set_process_table (<[2%nat := 2000]> (replicate 64 NULL)) demo_kst.

Lemma set_priority_then_block_hangs_witness :
  wp false (_ ← Processes.set_priority 2 3; block_process 2000) (λ r s', r = 0 ∧
    k_procs s' !! 2000 = Some (set_wait_ticks 0 (set_state BLOCKED
      (reprioritised 3 (demo_pcb 2 READY 20000)))) ∧
    (∃ it, has_queue s' 100 [2000] it) ∧
    (∀ fuel, (_ ← q_beginIter 100; aging_loop fuel 100) s' = Diverges) ∧
    ∀ current_rsp, schedule current_rsp s' = Diverges) nice_kst.
Proof.
  refine (set_priority_then_block_hangs nice_kst demo_T demo_R 2000 (demo_pcb 2 READY 20000) 2 3
    _ _ _ _ _ _ _ _ _ _ _); try done.
  - destruct demo_inv as [? [? ? ? ?] ? ? ? ?]. by constructor.
  - split; [done|]. intros i q Hq Hq0.
    change (process_table nice_kst) with (<[2%nat := 2000]> (replicate 64 NULL)) in Hq.
    apply list_lookup_insert_Some in Hq as [(<- & <- & _)|[_ Hq]]; [by eexists|].
    by apply lookup_replicate in Hq as [-> _].
  - simpl. lia.
  - simpl. lia.
Defined.
