(* ===== verification/Video.v ===== *)
(** * The frame buffer ([drivers/video.c])

    The linear frame buffer as a byte map, the mode information the boot
    loader leaves at [0x5C00], and the drawing routines.  Pixels are three
    bytes, blue first. *)

From S2P Require Import Prelude.

(** The fields of [vbe_mode_info_structure] the driver reads. *)
Record vbe_mode_info := VBE {
  pitch : Z;
  width : Z;
  height : Z;
  bpp : Z;
  framebuffer : Z;
}.

Definition getWindowHeight (v : vbe_mode_info) : Z := height v.
Definition getWindowWidth (v : vbe_mode_info) : Z := width v.

(** Memory of the adapter, by address. *)
Abbreviation fbmem := (gmap Z Z).

(** [for (i = from; n more times; i++)] *)
Fixpoint for_up {A} (n : nat) (from : Z) (f : Z → A → A) (a : A) : A :=
  match n with
  | O => a
  | S n => for_up n (from + 1) f (f from a)
  end.

(** [framebuffer + x * (bpp >> 3) + y * pitch], in 64 bits. *)
Definition pixel_addr (v : vbe_mode_info) (x y : Z) : Z :=
  u64 (framebuffer v + (x * Z.shiftr (bpp v) 3 + y * pitch v)).

(** The colour bytes of [0xRRGGBB]. *)
Definition blue (c : Z) : Z := Z.land c 0xFF.
Definition green (c : Z) : Z := Z.land (Z.shiftr c 8) 0xFF.
Definition red (c : Z) : Z := Z.land (Z.shiftr c 16) 0xFF.

Definition putPixel (v : vbe_mode_info) (hexColor x y : Z) (m : fbmem) : fbmem :=
  let offset := pixel_addr v x y in
  <[u64 (offset + 2) := red hexColor]>
    (<[u64 (offset + 1) := green hexColor]> (<[offset := blue hexColor]> m)).

Definition drawRectangle (v : vbe_mode_info) (hexColor w h x0 y0 : Z) (m : fbmem) : fbmem :=
  for_up (Z.to_nat h) y0 (λ y, for_up (Z.to_nat w) x0 (λ x, putPixel v hexColor x y)) m.

Definition drawCircle (v : vbe_mode_info) (hexColor topLeftX topLeftY diameter : Z)
    (m : fbmem) : fbmem :=
  let radius := diameter / 2 in
  let centerX := topLeftX + radius in
  let centerY := topLeftY + radius in
  for_up (Z.to_nat (2 * radius)) (- radius) (λ y,
    for_up (Z.to_nat (2 * radius)) (- radius) (λ x m,
      if decide (x * x + y * y ≤ radius * radius)
      then putPixel v hexColor (u64 (centerX + x)) (u64 (centerY + y)) m else m)) m.

(** The loops over the whole screen compute [y * pitch] and [x * (bpp >> 3)]
    in [int] and only then widen them; an [int] product that overflows is
    undefined, and taken to wrap here. *)
Definition row_offset (v : vbe_mode_info) (y : Z) : Z := u64 (i32 (y * pitch v)).
Definition cell_addr (v : vbe_mode_info) (x offset : Z) : Z :=
  u64 (framebuffer v + u64 (i32 (x * Z.shiftr (bpp v) 3) + offset)).

(** The body of the loops that fill. *)
Definition fill_pixel (v : vbe_mode_info) (hexColor yoffset x : Z) (m : fbmem) : fbmem :=
  let offset := cell_addr v x yoffset in
  <[u64 (offset + 2) := red hexColor]>
    (<[u64 (offset + 1) := green hexColor]> (<[offset := blue hexColor]> m)).

Definition fillVideoMemory (v : vbe_mode_info) (hexColor : Z) (m : fbmem) : fbmem :=
  for_up (Z.to_nat (getWindowHeight v)) 0 (λ y,
    let yoffset := row_offset v y in
    for_up (Z.to_nat (getWindowWidth v)) 0 (λ x, fill_pixel v hexColor yoffset x)) m.

(** [framebuffer[a] = framebuffer[b]] *)
Definition copy_byte (a b : Z) (m : fbmem) : fbmem := partial_alter (λ _, m !! b) a m.

Definition copy_pixel (v : vbe_mode_info) (yoffset ynoffset x : Z) (m : fbmem) : fbmem :=
  let offset := cell_addr v x yoffset in
  let new_offset := cell_addr v x ynoffset in
  copy_byte (u64 (offset + 2)) (u64 (new_offset + 2))
    (copy_byte (u64 (offset + 1)) (u64 (new_offset + 1)) (copy_byte offset new_offset m)).

(** The two loops of [scrollVideoMemoryUp]; the second starts at a 16-bit
    [height - scroll]. *)
Definition scrollVideoMemoryUp (v : vbe_mode_info) (scroll fillColor : Z) (m : fbmem) : fbmem :=
  let w := getWindowWidth v in
  let h := getWindowHeight v in
  let m := for_up (Z.to_nat (h - scroll)) 0 (λ y,
    let yoffset := row_offset v y in
    let ynoffset := row_offset v (y + scroll) in
    for_up (Z.to_nat w) 0 (λ x, copy_pixel v yoffset ynoffset x)) m in
  let start := u16 (h - scroll) in
  for_up (Z.to_nat (h - start)) start (λ y,
    let yoffset := row_offset v y in
    for_up (Z.to_nat w) 0 (λ x, fill_pixel v fillColor yoffset x)) m.

(** ** Pixels *)

(** The bytes shown at a pixel. *)
Definition pixel (v : vbe_mode_info) (m : fbmem) (x y : Z) : option Z * option Z * option Z :=
  let a := pixel_addr v x y in (m !! a, m !! u64 (a + 1), m !! u64 (a + 2)).

Definition colour (c : Z) : option Z * option Z * option Z :=
  (Some (blue c), Some (green c), Some (red c)).

(** A mode with at least 24 bits per pixel whose rows do not overlap and
    whose buffer lies below [2^64] and is shorter than [2^31] bytes, so that
    the [int] products of the loops do not overflow. *)
Record vbe_ok (v : vbe_mode_info) : Prop := {
  vo_bytes : 3 ≤ Z.shiftr (bpp v) 3 < 32;
  vo_pitch : 0 ≤ width v < 2 ^ 16 ∧ width v * Z.shiftr (bpp v) 3 ≤ pitch v;
  vo_height : 0 ≤ height v < 2 ^ 16;
  vo_base : 0 ≤ framebuffer v;
  vo_end : framebuffer v + height v * pitch v < 2 ^ 64;
  vo_int : height v * pitch v < 2 ^ 31;
}.

Definition visible (v : vbe_mode_info) (x y : Z) : Prop :=
  0 ≤ x < width v ∧ 0 ≤ y < height v.

Section pixels.
Context (v : vbe_mode_info) (Hv : vbe_ok v).
Implicit Types (m : fbmem).

Lemma pixel_addr_eq x y :
  visible v x y →
  pixel_addr v x y = framebuffer v + (x * Z.shiftr (bpp v) 3 + y * pitch v) ∧
  0 ≤ pixel_addr v x y ∧ pixel_addr v x y + 2 < 2 ^ 64.
Proof.
  intros [Hx Hy]. destruct Hv as [Hb [Hw Hp] Hh H0 He Hi].
  assert (y * pitch v + pitch v ≤ height v * pitch v) by nia.
  assert (x * Z.shiftr (bpp v) 3 + Z.shiftr (bpp v) 3 ≤ width v * Z.shiftr (bpp v) 3) by nia.
  assert (0 ≤ y * pitch v) by nia. assert (0 ≤ x * Z.shiftr (bpp v) 3) by nia.
  unfold pixel_addr. no_wrap. lia.
Qed.

(** The loops reach the same addresses. *)
Lemma cell_addr_eq x y : visible v x y → cell_addr v x (row_offset v y) = pixel_addr v x y.
Proof.
  intros Hxy. destruct (pixel_addr_eq x y Hxy) as [-> _].
  destruct Hxy as [Hx Hy]. destruct Hv as [Hb [Hw Hp] Hh H0 He Hi].
  set (b := Z.shiftr (bpp v) 3) in *. set (p := pitch v) in *.
  assert (0 ≤ width v * b) by (apply Z.mul_nonneg_nonneg; lia).
  assert (0 ≤ p) by lia.
  assert (0 ≤ y * p) by (apply Z.mul_nonneg_nonneg; lia).
  assert (y * p ≤ height v * p) by (apply Z.mul_le_mono_nonneg_r; lia).
  assert (0 ≤ x * b) by (apply Z.mul_nonneg_nonneg; lia).
  assert (x * b ≤ width v * b) by (apply Z.mul_le_mono_nonneg_r; lia).
  assert (width v * b ≤ 2 ^ 16 * 32) by (apply Z.mul_le_mono_nonneg; lia).
  assert (y * p + p ≤ height v * p).
  { replace (y * p + p) with ((y + 1) * p) by lia. apply Z.mul_le_mono_nonneg_r; lia. }
  unfold cell_addr, row_offset. fold b p. rewrite !(wraps_small 32) by lia.
  rewrite (wrapu_small 64 (y * p)), (wrapu_small 64 (x * b + y * p)) by lia.
  apply wrapu_small. lia.
Qed.

Lemma fill_pixel_eq c x y m :
  visible v x y → fill_pixel v c (row_offset v y) x m = putPixel v c x y m.
Proof. intros Hxy. unfold fill_pixel, putPixel. by rewrite cell_addr_eq. Qed.

(** Different pixels do not share bytes. *)
Lemma pixel_addr_apart x y x' y' :
  visible v x y → visible v x' y' → (x, y) ≠ (x', y') →
  pixel_addr v x y + 3 ≤ pixel_addr v x' y' ∨ pixel_addr v x' y' + 3 ≤ pixel_addr v x y.
Proof.
  intros Hxy Hxy' Hne. destruct (pixel_addr_eq x y Hxy) as [-> _].
  destruct (pixel_addr_eq x' y' Hxy') as [-> _].
  destruct Hxy as [Hx Hy], Hxy' as [Hx' Hy'], Hv as [Hb [Hw Hp] Hh H0 He Hi]. clear Hw.
  set (b := Z.shiftr (bpp v) 3) in *.
  assert (x * b + b ≤ pitch v) by nia. assert (x' * b + b ≤ pitch v) by nia.
  assert (0 ≤ x * b) by nia. assert (0 ≤ x' * b) by nia.
  destruct (Z.lt_trichotomy y y') as [Hlt|[->|Hlt]].
  - left. assert (y * pitch v + pitch v ≤ y' * pitch v) by nia. lia.
  - destruct (Z.lt_trichotomy x x') as [Hlt|[->|Hlt]]; [left; nia|done|right; nia].
  - right. assert (y' * pitch v + pitch v ≤ y * pitch v) by nia. lia.
Qed.

(** A write of the three bytes of one pixel. *)
Definition at_pixel (x y : Z) (m m' : fbmem) : Prop :=
  ∀ a, a < pixel_addr v x y ∨ pixel_addr v x y + 3 ≤ a → m' !! a = m !! a.

Lemma at_pixel_other x y x' y' m m' :
  visible v x y → visible v x' y' → (x, y) ≠ (x', y') → at_pixel x y m m' →
  pixel v m' x' y' = pixel v m x' y'.
Proof.
  intros Hxy Hxy' Hne Hat. unfold pixel.
  destruct (pixel_addr_eq x' y' Hxy') as (_ & ? & ?).
  pose proof (pixel_addr_apart x y x' y' Hxy Hxy' Hne).
  no_wrap. rewrite !Hat by lia. done.
Qed.

Lemma putPixel_at c x y m : visible v x y → at_pixel x y m (putPixel v c x y m).
Proof.
  intros Hxy a Ha. destruct (pixel_addr_eq x y Hxy) as (_ & ? & ?).
  unfold putPixel. no_wrap. by rewrite !lookup_insert_ne by lia.
Qed.

Lemma putPixel_same c x y m : visible v x y → pixel v (putPixel v c x y m) x y = colour c.
Proof.
  intros Hxy. destruct (pixel_addr_eq x y Hxy) as (_ & ? & ?).
  unfold pixel, putPixel, colour. no_wrap.
  by repeat first [rewrite lookup_insert_eq | rewrite lookup_insert_ne by lia].
Qed.

Lemma copy_byte_eq a b m : copy_byte a b m !! a = m !! b.
Proof. apply lookup_partial_alter_eq. Qed.

Lemma copy_byte_ne a b c m : c ≠ a → copy_byte a b m !! c = m !! c.
Proof. intros. by apply lookup_partial_alter_ne. Qed.

Lemma copy_pixel_at x y o m : visible v x y → at_pixel x y m (copy_pixel v (row_offset v y) o x m).
Proof.
  intros Hxy a Ha. destruct (pixel_addr_eq x y Hxy) as (_ & ? & ?).
  unfold copy_pixel. rewrite (cell_addr_eq x y) by done.
  rewrite !(wrapu_small 64 (pixel_addr v x y + _)) by lia.
  by rewrite !copy_byte_ne by lia.
Qed.

Lemma copy_pixel_same x y y' m :
  visible v x y → visible v x y' → y ≠ y' →
  pixel v (copy_pixel v (row_offset v y) (row_offset v y') x m) x y = pixel v m x y'.
Proof.
  intros Hxy Hxy' Hne. destruct (pixel_addr_eq x y Hxy) as (_ & ? & ?).
  destruct (pixel_addr_eq x y' Hxy') as (_ & ? & ?).
  assert ((x, y) ≠ (x, y')) as Hne' by congruence.
  pose proof (pixel_addr_apart x y x y' Hxy Hxy' Hne').
  unfold pixel, copy_pixel. rewrite !cell_addr_eq by done. no_wrap.
  by repeat first [rewrite copy_byte_eq | rewrite copy_byte_ne by lia].
Qed.

(** *** Loops over pixels

    [f x y] writes pixel [(x, y)] only; a pixel that is still to be visited
    shows what it showed before the loop. *)
Definition one_pixel (f : Z → Z → fbmem → fbmem) : Prop :=
  ∀ x y m, visible v x y → at_pixel x y m (f x y m).

Lemma row_loop f y n : one_pixel f → ∀ x0 m,
  0 ≤ x0 → x0 + Z.of_nat n ≤ width v → 0 ≤ y < height v →
  let m' := for_up n x0 (λ x, f x y) m in
  (∀ x' y', visible v x' y' → y' ≠ y ∨ x' < x0 ∨ x0 + Z.of_nat n ≤ x' →
    pixel v m' x' y' = pixel v m x' y') ∧
  (∀ x, x0 ≤ x < x0 + Z.of_nat n → ∃ m1, pixel v m' x y = pixel v (f x y m1) x y ∧
    ∀ x' y', visible v x' y' → y' ≠ y → pixel v m1 x' y' = pixel v m x' y').
Proof.
  intros Hf. induction n as [|n IH]; intros x0 m Hx0 Hn Hy; cbn [for_up].
  { split; [done|lia]. }
  assert (visible v x0 y) as Hv0 by (split; lia).
  destruct (IH (x0 + 1) (f x0 y m)) as [IH1 IH2]; [lia..|]. split.
  - intros x' y' Hv' Hne. rewrite IH1 by (done || lia).
    apply (at_pixel_other x0 y); [done..| |by apply Hf]. intros ?. simplify_eq. lia.
  - intros x Hx. destruct (decide (x = x0)) as [->|].
    + exists m. split; [|done]. apply IH1; [done|lia].
    + destruct (IH2 x) as (m1 & -> & Hm1); [lia|]. exists m1. split; [done|].
      intros x' y' Hv' Hne. rewrite Hm1 by done.
      apply (at_pixel_other x0 y); [done..| |by apply Hf]. congruence.
Qed.

Lemma rows_loop f n : one_pixel f → ∀ y0 m,
  0 ≤ y0 → y0 + Z.of_nat n ≤ height v →
  let m' := for_up n y0 (λ y, for_up (Z.to_nat (width v)) 0 (λ x, f x y)) m in
  (∀ x y, visible v x y → y < y0 ∨ y0 + Z.of_nat n ≤ y → pixel v m' x y = pixel v m x y) ∧
  (∀ x y, visible v x y → y0 ≤ y < y0 + Z.of_nat n →
    ∃ m1, pixel v m' x y = pixel v (f x y m1) x y ∧
    ∀ x' y', visible v x' y' → y < y' → pixel v m1 x' y' = pixel v m x' y').
Proof.
  intros Hf. induction n as [|n IH]; intros y0 m Hy0 Hn; cbn [for_up].
  { split; [done|lia]. }
  pose proof (vo_pitch _ Hv) as [[Hw _] _].
  destruct (row_loop f y0 (Z.to_nat (width v)) Hf 0 m) as [R1 R2]; [lia..|].
  set (m0 := for_up (Z.to_nat (width v)) 0 (λ x, f x y0) m) in *.
  destruct (IH (y0 + 1) m0) as [IH1 IH2]; [lia..|]. split.
  - intros x y Hxy Hy. rewrite IH1 by (done || lia). apply R1; [done|lia].
  - intros x y Hxy Hy. destruct (decide (y = y0)) as [->|].
    + destruct Hxy as [Hx Hyv]. destruct (R2 x) as (m1 & E & Hm1); [lia|].
      exists m1. rewrite IH1 by (split_and?; lia || (split; lia)). split; [done|].
      intros x' y' Hv' ?. apply Hm1; [done|lia].
    + destruct (IH2 x y Hxy) as (m1 & -> & Hm1); [lia|]. exists m1. split; [done|].
      intros x' y' Hv' ?. rewrite Hm1 by done. apply R1; [done|lia].
Qed.


(** *** Memory that is not on the screen

    Bytes that belong to no visible pixel: what lies outside the frame buffer
    and the padding of its rows. *)
Definition off_screen (a : Z) : Prop :=
  ∀ x y, visible v x y → a < pixel_addr v x y ∨ pixel_addr v x y + 3 ≤ a.

Definition keeps_off m m' : Prop := ∀ a, off_screen a → m' !! a = m !! a.

#[export] Instance keeps_off_preorder : PreOrder keeps_off.
Proof.
  split; [by intros m a|]. intros m1 m2 m3 H12 H23 a Ha. by rewrite H23, H12.
Qed.

Lemma off_screen_beyond a :
  a < framebuffer v ∨ framebuffer v + height v * pitch v ≤ a → off_screen a.
Proof.
  intros Ha x y Hxy. destruct (pixel_addr_eq x y Hxy) as [-> _].
  destruct Hxy as [Hx Hy]. destruct Hv as [Hb [Hw Hp] Hh H0 He Hi].
  set (b := Z.shiftr (bpp v) 3) in *. set (p := pitch v) in *.
  assert (0 ≤ x * b) by (apply Z.mul_nonneg_nonneg; lia).
  assert (0 ≤ width v * b) by (apply Z.mul_nonneg_nonneg; lia).
  assert (0 ≤ y * p) by (apply Z.mul_nonneg_nonneg; lia).
  assert (x * b + b ≤ width v * b).
  { replace (x * b + b) with ((x + 1) * b) by lia. apply Z.mul_le_mono_nonneg_r; lia. }
  assert (y * p + p ≤ height v * p).
  { replace (y * p + p) with ((y + 1) * p) by lia. apply Z.mul_le_mono_nonneg_r; lia. }
  lia.
Qed.

Lemma at_pixel_keeps x y m m' : visible v x y → at_pixel x y m m' → keeps_off m m'.
Proof. intros Hxy Hat a Ha. apply Hat, Ha, Hxy. Qed.

Lemma for_up_keeps f n : ∀ from m,
  (∀ i m, from ≤ i < from + Z.of_nat n → keeps_off m (f i m)) → keeps_off m (for_up n from f m).
Proof.
  induction n as [|n IH]; intros from m Hf; cbn [for_up]; [done|].
  transitivity (f from m); [apply Hf; lia|]. apply IH. intros i m' Hi. apply Hf. lia.
Qed.

Lemma rows_keep f y0 n m :
  one_pixel f → 0 ≤ y0 → y0 + Z.of_nat n ≤ height v →
  keeps_off m (for_up n y0 (λ y, for_up (Z.to_nat (width v)) 0 (λ x, f x y)) m).
Proof.
  intros Hf Hy0 Hn. apply for_up_keeps. intros y m1 Hy. apply for_up_keeps. intros x m2 Hx.
  assert (visible v x y) by (split; lia). by apply (at_pixel_keeps x y), Hf.
Qed.

Lemma fill_one_pixel c : one_pixel (λ x y, fill_pixel v c (row_offset v y) x).
Proof. intros x y m Hxy. rewrite fill_pixel_eq by done. by apply putPixel_at. Qed.
Lemma copy_one_pixel scroll :
  one_pixel (λ x y, copy_pixel v (row_offset v y) (row_offset v (y + scroll)) x).
Proof. intros x y m Hxy. by apply copy_pixel_at. Qed.

Lemma fill_rows c y0 n m :
  0 ≤ y0 → y0 + Z.of_nat n ≤ height v →
  let m' := for_up n y0 (λ y, for_up (Z.to_nat (width v)) 0
    (λ x, fill_pixel v c (row_offset v y) x)) m in
  ∀ x y, visible v x y →
    pixel v m' x y = if decide (y0 ≤ y < y0 + Z.of_nat n) then colour c else pixel v m x y.
Proof.
  intros Hy0 Hn. cbn zeta. intros x y Hxy.
  destruct (rows_loop (λ x y, fill_pixel v c (row_offset v y) x) n) with (y0 := y0) (m := m)
    as [R1 R2]; [apply fill_one_pixel|done|done|].
  case_decide as Hd.
  - destruct (R2 x y Hxy Hd) as (m1 & -> & _). rewrite fill_pixel_eq by done.
    by apply putPixel_same.
  - apply R1; [done|lia].
Qed.
End pixels.

(** ** Scrolling *)

Lemma scroll_pixels v scroll c m (Hv : vbe_ok v) (Hs : 0 < scroll ≤ height v) x y :
  visible v x y → pixel v (scrollVideoMemoryUp v scroll c m) x y =
    if decide (y + scroll < height v) then pixel v m x (y + scroll) else colour c.
Proof.
  intros Hxy. pose proof (vo_height _ Hv) as Hh. pose proof Hxy as [Hx Hy].
  unfold scrollVideoMemoryUp, getWindowHeight, getWindowWidth. no_wrap.
  rewrite (fill_rows v Hv c (height v - scroll)) by (done || lia).
  destruct (rows_loop v Hv _ (Z.to_nat (height v - scroll)) (copy_one_pixel v Hv scroll))
    with (y0 := 0) (m := m) as [R1 R2]; [lia..|].
  case_decide as Hd; [rewrite decide_False by lia; done|].
  rewrite decide_True by lia. destruct (R2 x y Hxy) as (m1 & -> & Hm1); [lia|].
  assert (visible v x (y + scroll)) by (split; lia).
  rewrite copy_pixel_same by (done || lia). apply Hm1; [done|lia].
Qed.

Lemma scroll_keeps v scroll c m : vbe_ok v → 0 < scroll ≤ height v →
  keeps_off v m (scrollVideoMemoryUp v scroll c m).
Proof.
  intros Hv Hs. pose proof (vo_height _ Hv) as Hh.
  unfold scrollVideoMemoryUp, getWindowHeight, getWindowWidth. no_wrap.
  transitivity (for_up (Z.to_nat (height v - scroll)) 0 (λ y,
    for_up (Z.to_nat (width v)) 0 (λ x,
      copy_pixel v (row_offset v y) (row_offset v (y + scroll)) x)) m).
  - by apply (rows_keep v _ 0 _ m (copy_one_pixel v Hv scroll)); lia.
  - apply (rows_keep v _ (height v - scroll)); [by apply fill_one_pixel|lia..].
Qed.

(** ** Properties *)

(** [fillVideoMemory] gives every visible pixel the colour. *)
Theorem fillVideoMemory_correct v c m (Hv : vbe_ok v) x y (Hxy : visible v x y) :
  pixel v (fillVideoMemory v c m) x y = colour c.
Proof.
  pose proof (vo_height _ Hv). unfold fillVideoMemory, getWindowHeight, getWindowWidth.
  rewrite fill_rows by (done || lia). rewrite decide_True; [done|].
  destruct Hxy. lia.
Qed.

(** C22: scrolling in place is the same as redrawing the screen from a copy
    of it taken before: every visible pixel shows what was [scroll] rows
    below it, the rows that come in from below have the fill colour, and no
    byte outside the visible pixels changes. *)
Theorem scrollVideoMemoryUp_correct v scroll c m (Hv : vbe_ok v) (Hs : 0 < scroll ≤ height v) :
  (∀ x y, visible v x y → pixel v (scrollVideoMemoryUp v scroll c m) x y =
    if decide (y + scroll < height v) then pixel v m x (y + scroll) else colour c) ∧
  keeps_off v m (scrollVideoMemoryUp v scroll c m).
Proof. split; [intros x y; by apply scroll_pixels|by apply scroll_keeps]. Qed.

(** A screen of 32 by 24 pixels of 24 bits. *)
Definition vbe_demo : vbe_mode_info := VBE 96 32 24 24 0xFD000000.

Lemma vbe_demo_ok : vbe_ok vbe_demo.
Proof. by split; vm_compute. Qed.

Lemma fillVideoMemory_correct_witness :
  pixel vbe_demo (fillVideoMemory vbe_demo 0x102030 ∅) 3 4 = (Some 0x30, Some 0x20, Some 0x10).
Proof.
  refine (fillVideoMemory_correct vbe_demo 0x102030 ∅ vbe_demo_ok 3 4 _).
  split; simpl; lia.
Defined.

Lemma scrollVideoMemoryUp_correct_witness :
  pixel vbe_demo (scrollVideoMemoryUp vbe_demo 8 0 (putPixel vbe_demo 0x102030 3 12 ∅)) 3 4 =
    (Some 0x30, Some 0x20, Some 0x10).
Proof.
  refine (proj1 (scrollVideoMemoryUp_correct vbe_demo 8 0 _ vbe_demo_ok _) 3 4 _).
  - simpl. lia.
  - split; simpl; lia.
Defined.
