(* ===== verification/Console.v ===== *)
(** * The text console ([fonts.c])

    The static variables of [fonts.c] with the frame buffer they draw to.
    [fonts.c] also prints to a descriptor and converts numbers; those parts
    are in [Keyboard.v], which it calls back, and in [Numerals.v].  A read of
    the font outside its table is [None]. *)

From S2P Require Import Prelude FontData Video.

Definition DEFAULT_TEXT_COLOR : Z := 0x00FFFFFF.
Definition DEFAULT_ERROR_COLOR : Z := 0x00DE382B.
Definition DEFAULT_BACKGROUND_COLOR : Z := 0x00000000.
Definition DEFAULT_GLYPH_SIZE_X : Z := 8.
Definition DEFAULT_GLYPH_SIZE_Y : Z := 8.
Definition NEW_LINE_CHAR : Z := 10.
Definition TABULATOR_CHAR : Z := 9.
Definition CARRIAGE_RETURN_CHAR : Z := 13.
Definition TAB_SIZE : Z := 4.

(** [glyphSizeX] and [glyphSizeY] are never assigned. *)
Definition glyphSizeX : Z := DEFAULT_GLYPH_SIZE_X.
Definition glyphSizeY : Z := DEFAULT_GLYPH_SIZE_Y.

Record screen := Screen {
  sc_fb : fbmem;
  sc_vbe : vbe_mode_info;
  sc_if : bool;              (* the interrupt flag, which scrolling sets *)
  fontSize : Z;
  xBufferPosition : Z;
  yBufferPosition : Z;
  maxGlyphSizeYOnLine : Z;
  dirty_line : Z;
  text_color : Z;
  background_color : Z;
  file_descriptor : Z;
}.

Implicit Types (s : screen).

Definition set_fb m s : screen := Screen m (sc_vbe s) (sc_if s) (fontSize s)
  (xBufferPosition s) (yBufferPosition s) (maxGlyphSizeYOnLine s) (dirty_line s)
  (text_color s) (background_color s) (file_descriptor s).
Definition set_sc_if b s : screen := Screen (sc_fb s) (sc_vbe s) b (fontSize s)
  (xBufferPosition s) (yBufferPosition s) (maxGlyphSizeYOnLine s) (dirty_line s)
  (text_color s) (background_color s) (file_descriptor s).
Definition set_font f s : screen := Screen (sc_fb s) (sc_vbe s) (sc_if s) f
  (xBufferPosition s) (yBufferPosition s) (maxGlyphSizeYOnLine s) (dirty_line s)
  (text_color s) (background_color s) (file_descriptor s).
Definition set_x x s : screen := Screen (sc_fb s) (sc_vbe s) (sc_if s) (fontSize s)
  x (yBufferPosition s) (maxGlyphSizeYOnLine s) (dirty_line s)
  (text_color s) (background_color s) (file_descriptor s).
Definition set_y y s : screen := Screen (sc_fb s) (sc_vbe s) (sc_if s) (fontSize s)
  (xBufferPosition s) y (maxGlyphSizeYOnLine s) (dirty_line s)
  (text_color s) (background_color s) (file_descriptor s).
Definition set_max g s : screen := Screen (sc_fb s) (sc_vbe s) (sc_if s) (fontSize s)
  (xBufferPosition s) (yBufferPosition s) g (dirty_line s)
  (text_color s) (background_color s) (file_descriptor s).
Definition set_dirty d s : screen := Screen (sc_fb s) (sc_vbe s) (sc_if s) (fontSize s)
  (xBufferPosition s) (yBufferPosition s) (maxGlyphSizeYOnLine s) d
  (text_color s) (background_color s) (file_descriptor s).
Definition setTextColor c s : screen := Screen (sc_fb s) (sc_vbe s) (sc_if s) (fontSize s)
  (xBufferPosition s) (yBufferPosition s) (maxGlyphSizeYOnLine s) (dirty_line s)
  c (background_color s) (file_descriptor s).
Definition setBackgroundColor c s : screen := Screen (sc_fb s) (sc_vbe s) (sc_if s)
  (fontSize s) (xBufferPosition s) (yBufferPosition s) (maxGlyphSizeYOnLine s)
  (dirty_line s) (text_color s) c (file_descriptor s).
Definition set_descriptor d s : screen := Screen (sc_fb s) (sc_vbe s) (sc_if s) (fontSize s)
  (xBufferPosition s) (yBufferPosition s) (maxGlyphSizeYOnLine s) (dirty_line s)
  (text_color s) (background_color s) d.

Definition getTextColor s : Z := text_color s.
Definition getBackgroundColor s : Z := background_color s.
Definition getXBufferPosition s : Z := u16 (xBufferPosition s).

(** The size of a glyph on the screen. *)
Definition cellX s : Z := glyphSizeX * fontSize s.
Definition cellY s : Z := glyphSizeY * fontSize s.

(** ** Drawing *)

Definition glyph_colour s (rows : list Z) (x y : Z) : Z :=
  if Z.testbit (nth (Z.to_nat (y / fontSize s)) rows 0) (x / fontSize s)
  then text_color s else background_color s.

Definition renderFromBitmap (rows : list Z) (xBase yBase : Z) s : screen :=
  set_fb (for_up (Z.to_nat (cellX s)) 0 (λ x,
    for_up (Z.to_nat (cellY s)) 0 (λ y,
      putPixel (sc_vbe s) (glyph_colour s rows x y) (i32 (xBase + x)) (u64 (yBase + y))))
    (sc_fb s)) s.

(** [bitmap + ascii * glyphSizeY]; [ascii] is a signed [char]. *)
Definition font_rows (ascii : Z) : option (list Z) :=
  if decide (0 ≤ ascii) then font8x8_basic !! Z.to_nat ascii else None.

Definition renderAscii (ascii x y : Z) s : option screen :=
  if decide (ascii < 128) then
    rows ← font_rows ascii; Some (renderFromBitmap rows x y s)
  else Some s.

(** ** Cursor movement *)

Definition scrollBufferPositionIfNeeded s : screen :=
  if decide (getWindowHeight (sc_vbe s) < yBufferPosition s + cellY s) then
    let fb := scrollVideoMemoryUp (sc_vbe s) (u16 (cellY s)) DEFAULT_BACKGROUND_COLOR (sc_fb s) in
    set_y (yBufferPosition s - cellY s) (set_sc_if true (set_fb fb s))
  else s.

Definition newLine s : screen :=
  let s := set_dirty 0 s in
  let s := set_y (yBufferPosition s + maxGlyphSizeYOnLine s) s in
  let s := set_x 0 s in
  let s := set_max (u16 (fontSize s * glyphSizeY)) s in
  scrollBufferPositionIfNeeded s.

Definition retractPosition s : screen :=
  let window_width := getWindowWidth (sc_vbe s) in
  if decide (xBufferPosition s = 0) then
    let s := set_y (yBufferPosition s - cellY s) s in
    if decide (yBufferPosition s < 0) then set_y 0 s
    else
      let s := set_x (window_width - window_width mod (fontSize s * glyphSizeX)) s in
      set_x (xBufferPosition s - cellX s) s
  else set_x (xBufferPosition s - cellX s) s.

(** The default case of [putChar]. *)
Definition put_glyph (ascii : Z) s : option screen :=
  let s := if decide (getWindowWidth (sc_vbe s) < xBufferPosition s + cellX s)
           then newLine s else s in
  s ← renderAscii ascii (xBufferPosition s) (yBufferPosition s) s;
  Some (set_x (xBufferPosition s + cellX s) s).

(** [putChar(' ')] *)
Definition put_space s : option screen := put_glyph 32 (set_dirty 1 s).

Definition showCursor s : option screen :=
  retractPosition <$> put_glyph 124 (set_dirty 1 s).
Definition hideCursor s : option screen := retractPosition <$> put_space s.

(** [do putChar(' '); while (x % (TAB_SIZE * glyphSizeX * fontSize) != 0)] *)
Fixpoint tab_loop (fuel : nat) s : option screen :=
  match fuel with
  | O => None
  | S fuel =>
      s ← put_space s;
      if decide (Z.rem (xBufferPosition s) (TAB_SIZE * glyphSizeX * fontSize s) = 0)
      then Some s else tab_loop fuel s
  end.

(** [while (xBufferPosition > 0) retractPosition()] *)
Fixpoint cr_loop (fuel : nat) s : option screen :=
  match fuel with
  | O => None
  | S fuel =>
      if decide (0 < xBufferPosition s) then cr_loop fuel (retractPosition s) else Some s
  end.

(** Enough for a whole line of glyphs of one pixel, twice. *)
Definition line_fuel s : nat := Z.to_nat (2 * getWindowWidth (sc_vbe s) + 8).

Definition putChar (ascii : Z) s : option screen :=
  let s := set_dirty 1 s in
  if decide (ascii = NEW_LINE_CHAR) then newLine <$> hideCursor s
  else if decide (ascii = CARRIAGE_RETURN_CHAR) then
    s ← hideCursor s; cr_loop (line_fuel s) s
  else if decide (ascii = TABULATOR_CHAR) then tab_loop (line_fuel s) s
  else put_glyph ascii s.

Fixpoint putChars (l : list Z) s : option screen :=
  match l with
  | [] => Some s
  | c :: l => s ← putChar c s; putChars l s
  end.

Definition clear s : screen :=
  set_y 0 (set_x 0 (set_fb (fillVideoMemory (sc_vbe s) DEFAULT_BACKGROUND_COLOR (sc_fb s)) s)).

Definition clearPreviousCharacter s : option screen :=
  s ← hideCursor s; showCursor (retractPosition s).

(** ** Font size *)

Definition fit_line s : screen :=
  set_max (u16 (if decide (dirty_line s = 1)
                then Z.max (maxGlyphSizeYOnLine s) (cellY s) else cellY s)) s.

Definition increaseFontSize s : screen :=
  let s := set_font (if decide (9 < fontSize s) then fontSize s else u16 (fontSize s + 1)) s in
  scrollBufferPositionIfNeeded (fit_line s).

Definition decreaseFontSize s : screen :=
  fit_line (set_font (if decide (fontSize s ≤ 1) then fontSize s else u16 (fontSize s - 1)) s).

(** [size] is a signed byte. *)
Definition setFontSize (size : Z) s : screen :=
  fit_line (set_font (if decide (size < 1) then 1
                      else if decide (10 < size) then 10 else size) s).

Definition getFontSize s : Z := u8 (fontSize s).

(** The variables' initial values. *)
Definition console_init (v : vbe_mode_info) : screen :=
  Screen ∅ v false 1 0 0 DEFAULT_GLYPH_SIZE_Y 0 DEFAULT_TEXT_COLOR DEFAULT_BACKGROUND_COLOR 1.

(** ** The invariant

    A mode large enough for the largest font; the cursor at a column that is
    a multiple of the glyph width, and its line inside the screen. *)
Record console_ok s : Prop := {
  co_vbe : vbe_ok (sc_vbe s);
  co_width : 320 ≤ width (sc_vbe s);
  co_height : 160 ≤ height (sc_vbe s);
  co_font : 1 ≤ fontSize s ≤ 10;
  co_x : 0 ≤ xBufferPosition s ≤ width (sc_vbe s);
  co_column : (cellX s | xBufferPosition s);
  co_y : 0 ≤ yBufferPosition s;
  co_max : cellY s ≤ maxGlyphSizeYOnLine s ≤ 80;
  co_line : yBufferPosition s + maxGlyphSizeYOnLine s ≤ height (sc_vbe s);
}.

(** What never changes while printing. *)
Definition same_mode s s' : Prop :=
  sc_vbe s' = sc_vbe s ∧ fontSize s' = fontSize s ∧ text_color s' = text_color s ∧
  background_color s' = background_color s ∧ file_descriptor s' = file_descriptor s.

#[export] Instance same_mode_preorder : PreOrder same_mode.
Proof. split; [done|]. unfold same_mode. intros ???. naive_solver congruence. Qed.

Lemma cell_bounds s : 1 ≤ fontSize s ≤ 10 → cellX s = cellY s ∧ 8 ≤ cellX s ≤ 80.
Proof.
  unfold cellX, cellY, glyphSizeX, glyphSizeY, DEFAULT_GLYPH_SIZE_X, DEFAULT_GLYPH_SIZE_Y. lia.
Qed.

Lemma set_dirty_ok d s : console_ok s → console_ok (set_dirty d s).
Proof. intros []. by split. Qed.

Lemma newLine_ok s :
  console_ok s → console_ok (newLine s) ∧ same_mode s (newLine s) ∧
    xBufferPosition (newLine s) = 0.
Proof.
  intros [Hv Hw Hh Hf Hx Hc Hy Hm Hl]. destruct (cell_bounds s Hf) as [E Hb].
  pose proof (vo_height _ Hv).
  assert (u16 (fontSize s * glyphSizeY) = cellY s) as Hmax.
  { unfold cellY in *. rewrite wrapu_small; lia. }
  unfold newLine, scrollBufferPositionIfNeeded, getWindowHeight. cbn.
  rewrite Hmax. unfold cellY, cellX in *; cbn.
  case_decide; (split; [|split; [done|done]]); split; cbn; try done; try lia;
    unfold cellX, cellY in *; cbn; try apply Z.divide_0_r; lia.
Qed.

Lemma retractPosition_eq s :
  retractPosition s =
    if decide (xBufferPosition s = 0) then
      if decide (yBufferPosition s < cellY s) then set_y 0 s
      else set_y (yBufferPosition s - cellY s)
        (set_x (width (sc_vbe s) - width (sc_vbe s) mod cellX s - cellX s) s)
    else set_x (xBufferPosition s - cellX s) s.
Proof.
  unfold retractPosition, getWindowWidth, cellX, cellY. cbn.
  rewrite (Z.mul_comm (fontSize s) glyphSizeX).
  repeat case_decide; (reflexivity || lia).
Qed.

Lemma retractPosition_ok s :
  console_ok s → console_ok (retractPosition s) ∧ same_mode s (retractPosition s).
Proof.
  intros [Hv Hw Hh Hf Hx [q Hq] Hy Hm Hl]. destruct (cell_bounds s Hf) as [E Hb].
  rewrite retractPosition_eq. unfold cellX, cellY in *.
  set (c := glyphSizeX * fontSize s) in *.
  repeat case_decide; (split; [|done]); split; cbn; try done; unfold cellX, cellY; cbn;
    fold c; try lia.
  - by exists q.
  - pose proof (Z.mod_pos_bound (width (sc_vbe s)) c).
    pose proof (Z.div_mod (width (sc_vbe s)) c).
    assert (4 ≤ width (sc_vbe s) / c) by (apply Z.div_le_lower_bound; lia). nia.
  - exists (width (sc_vbe s) / c - 1). pose proof (Z.div_mod (width (sc_vbe s)) c). lia.
  - assert (1 ≤ q) by nia. rewrite Hq in *. nia.
  - exists (q - 1). lia.
Qed.

(** ** Painting a cell *)
Section paint.
Context (v : vbe_mode_info) (Hv : vbe_ok v) (c : Z → Z → Z) (X Y w h : Z).
Context (HX : 0 ≤ X ∧ X + w ≤ width v) (HY : 0 ≤ Y ∧ Y + h ≤ height v).
Implicit Types (m : fbmem).

Lemma cell_visible i j : 0 ≤ i < w → 0 ≤ j < h → visible v (X + i) (Y + j).
Proof. split; lia. Qed.

Lemma cell_coords i j :
  0 ≤ i < w → 0 ≤ j < h → i32 (X + i) = X + i ∧ u64 (Y + j) = Y + j.
Proof.
  intros. pose proof (vo_pitch _ Hv) as [? _]. pose proof (vo_height _ Hv).
  split; [apply wraps_small|apply wrapu_small]; lia.
Qed.

(** One column, from row [j0] on. *)
Lemma paint_column i n : ∀ j0 m,
  0 ≤ i < w → 0 ≤ j0 → j0 + Z.of_nat n ≤ h →
  let m' := for_up n j0 (λ j, putPixel v (c i j) (i32 (X + i)) (u64 (Y + j))) m in
  ∀ x y, visible v x y → pixel v m' x y =
    if decide (x = X + i ∧ Y + j0 ≤ y < Y + j0 + Z.of_nat n)
    then colour (c i (y - Y)) else pixel v m x y.
Proof.
  induction n as [|n IH]; intros j0 m Hi Hj Hn; cbn zeta; cbn [for_up]; intros x y Hxy.
  { by rewrite decide_False by lia. }
  pose proof (cell_visible i j0 Hi) as Hvis. specialize (Hvis ltac:(lia)).
  rewrite IH by (done || lia).
  destruct (cell_coords i j0 Hi) as [-> ->]; [lia|].
  destruct (decide ((x, y) = (X + i, Y + j0))) as [Heq|Hne].
  - simplify_eq. rewrite decide_False by lia. rewrite decide_True by lia.
    rewrite putPixel_same by done. do 2 f_equal. lia.
  - rewrite (at_pixel_other v Hv (X + i) (Y + j0) x y m) by
      (try apply putPixel_at; congruence || done).
    case_decide; case_decide; try done; exfalso; [lia|].
    apply Hne. f_equal; lia.
Qed.

Lemma paint_cell n : ∀ i0 m,
  0 ≤ i0 → i0 + Z.of_nat n ≤ w → 0 ≤ h →
  let m' := for_up n i0 (λ i, for_up (Z.to_nat h) 0
    (λ j, putPixel v (c i j) (i32 (X + i)) (u64 (Y + j)))) m in
  ∀ x y, visible v x y → pixel v m' x y =
    if decide (X + i0 ≤ x < X + i0 + Z.of_nat n ∧ Y ≤ y < Y + h)
    then colour (c (x - X) (y - Y)) else pixel v m x y.
Proof.
  induction n as [|n IH]; intros i0 m Hi Hn Hh; cbn zeta; cbn [for_up]; intros x y Hxy.
  { by rewrite decide_False by lia. }
  rewrite IH by (done || lia).
  rewrite paint_column by (done || lia). rewrite Z2Nat.id by lia.
  do 2 case_decide; try case_decide; try done; try lia.
  do 2 f_equal. lia.
Qed.
End paint.

Lemma renderFromBitmap_spec s rows x y i j :
  console_ok s → 0 ≤ x → x + cellX s ≤ width (sc_vbe s) →
  0 ≤ y → y + cellY s ≤ height (sc_vbe s) → visible (sc_vbe s) i j →
  pixel (sc_vbe s) (sc_fb (renderFromBitmap rows x y s)) i j =
    if decide (x ≤ i < x + cellX s ∧ y ≤ j < y + cellY s)
    then colour (glyph_colour s rows (i - x) (j - y))
    else pixel (sc_vbe s) (sc_fb s) i j.
Proof.
  intros Hs Hx Hxw Hy Hyh Hij. destruct (cell_bounds s (co_font _ Hs)) as [E Hb].
  unfold renderFromBitmap. cbn.
  rewrite (paint_cell (sc_vbe s) (co_vbe _ Hs) (glyph_colour s rows) x y (cellX s) (cellY s))
    by (done || lia).
  rewrite Z.add_0_r, Z2Nat.id by lia. done.
Qed.

(** ** Printing keeps the invariant *)

Lemma font_rows_some c : 0 ≤ c < 128 → is_Some (font_rows c).
Proof.
  intros. unfold font_rows. rewrite decide_True by lia.
  apply lookup_lt_is_Some. destruct font_shape as [-> _]. lia.
Qed.

(** The line a glyph goes to: a new one when the current one is full. *)
Definition fit_glyph s : screen :=
  if decide (getWindowWidth (sc_vbe s) < xBufferPosition s + cellX s) then newLine s else s.

Lemma fit_glyph_ok s :
  console_ok s → console_ok (fit_glyph s) ∧ same_mode s (fit_glyph s) ∧
    xBufferPosition (fit_glyph s) + cellX s ≤ width (sc_vbe s) ∧
    xBufferPosition (fit_glyph s) =
      if decide (width (sc_vbe s) < xBufferPosition s + cellX s) then 0 else xBufferPosition s.
Proof.
  intros Hs. unfold fit_glyph, getWindowWidth. destruct (cell_bounds s (co_font _ Hs)).
  pose proof (co_width _ Hs). case_decide.
  - destruct (newLine_ok s Hs) as (? & ? & ->). split_and!; try done. lia.
  - split_and!; try done. lia.
Qed.

Lemma cellX_same s s' : same_mode s s' → cellX s' = cellX s.
Proof. intros (_ & E & _). unfold cellX. by rewrite E. Qed.

Lemma put_glyph_ok s c :
  console_ok s → 0 ≤ c < 128 →
  ∃ s', put_glyph c s = Some s' ∧ console_ok s' ∧ same_mode s s' ∧
    xBufferPosition s' = (if decide (width (sc_vbe s) < xBufferPosition s + cellX s)
                          then 0 else xBufferPosition s) + cellX s ∧
    ∃ rows, font_rows c = Some rows ∧ sc_fb s' =
      sc_fb (renderFromBitmap rows (xBufferPosition (fit_glyph s))
        (yBufferPosition (fit_glyph s)) (fit_glyph s)).
Proof.
  intros Hs Hc. destruct (font_rows_some c Hc) as [rows Hrows].
  destruct (fit_glyph_ok s Hs) as (Hs1 & Hm1 & Hfit & Hx1).
  unfold put_glyph. fold (fit_glyph s). unfold renderAscii.
  rewrite decide_True by lia. rewrite Hrows. cbn [mbind option_bind].
  eexists. split; [done|].
  pose proof (cellX_same _ _ Hm1) as EX. pose proof (proj1 Hm1) as EV.
  set (s1 := fit_glyph s) in *.
  change (cellX (renderFromBitmap rows (xBufferPosition s1) (yBufferPosition s1) s1))
    with (cellX s1).
  split_and!.
  - destruct Hs1 as [Hv Hw Hh Hf Hx Hcol Hy Hm Hl]. split; cbn; try done.
    + destruct (cell_bounds s1 Hf). rewrite EV. rewrite EX in *. lia.
    + apply Z.divide_add_r; [done|]. apply Z.divide_refl.
  - by etransitivity.
  - cbn. by rewrite Hx1, EX.
  - by exists rows.
Qed.

Lemma put_space_ok s :
  console_ok s → ∃ s', put_space s = Some s' ∧ console_ok s' ∧ same_mode s s' ∧
    xBufferPosition s' = (if decide (width (sc_vbe s) < xBufferPosition s + cellX s)
                          then 0 else xBufferPosition s) + cellX s.
Proof.
  intros Hs. destruct (put_glyph_ok (set_dirty 1 s) 32) as (s' & ? & ? & ? & ? & _);
    [by apply set_dirty_ok|lia|]. by exists s'.
Qed.

Lemma cursor_ok s c :
  console_ok s → 0 ≤ c < 128 → ∃ s', retractPosition <$> put_glyph c (set_dirty 1 s) = Some s' ∧
    console_ok s' ∧ same_mode s s'.
Proof.
  intros Hs Hc. destruct (put_glyph_ok (set_dirty 1 s) c) as (s' & -> & Hs' & Hm & _);
    [by apply set_dirty_ok|done|].
  destruct (retractPosition_ok s' Hs'). eexists. split; [done|]. split; [done|].
  by transitivity s'.
Qed.

Lemma showCursor_ok s :
  console_ok s → ∃ s', showCursor s = Some s' ∧ console_ok s' ∧ same_mode s s'.
Proof. intros. by apply cursor_ok. Qed.

Lemma hideCursor_ok s :
  console_ok s → ∃ s', hideCursor s = Some s' ∧ console_ok s' ∧ same_mode s s'.
Proof. intros. by apply cursor_ok. Qed.

Lemma cr_loop_ok fuel : ∀ s,
  console_ok s → (Z.to_nat (xBufferPosition s) < fuel)%nat →
  ∃ s', cr_loop fuel s = Some s' ∧ console_ok s' ∧ same_mode s s' ∧ xBufferPosition s' = 0.
Proof.
  induction fuel as [|fuel IH]; intros s Hs Hf; [lia|]. simpl.
  pose proof (co_x _ Hs). case_decide as Hx; [|exists s; split_and!; [done..|lia]].
  destruct (retractPosition_ok s Hs) as [Hs' Hm'].
  destruct (cell_bounds s (co_font _ Hs)) as [_ Hb].
  destruct (IH (retractPosition s) Hs') as (s' & ? & ? & ? & ?).
  - pose proof (co_x _ Hs'). rewrite retractPosition_eq in *.
    rewrite decide_False in * by lia. cbn in *. lia.
  - exists s'. split_and!; try done. by transitivity (retractPosition s).
Qed.

(** *** The tabulator loop ends

    Counting columns in glyphs, there are at least four to a line; from
    column [k] the loop stops at the next multiple of four, or wraps to column
    1 of the next line first. *)
Section tab.

Lemma tab_stop c k :
  0 < c → 0 ≤ k → Z.rem (k * c) (TAB_SIZE * c) = 0 ↔ k mod 4 = 0.
Proof.
  intros Hc Hk. unfold TAB_SIZE. rewrite Z.rem_mod_nonneg, (Z.mul_comm k c), (Z.mul_comm 4 c) by lia.
  rewrite Z.mul_mod_distr_l by lia. lia.
Qed.

Lemma tab_step s k :
  console_ok s → xBufferPosition s = k * cellX s → 0 ≤ k →
  ∃ s', put_space s = Some s' ∧ console_ok s' ∧ same_mode s s' ∧
    xBufferPosition s' =
      (if decide (k < width (sc_vbe s) / cellX s) then k + 1 else 1) * cellX s' ∧
    k ≤ width (sc_vbe s) / cellX s ∧ 4 ≤ width (sc_vbe s) / cellX s.
Proof.
  intros Hs Hx Hk. destruct (cell_bounds s (co_font _ Hs)) as [_ Hb].
  pose proof (co_x _ Hs). pose proof (co_width _ Hs).
  pose proof (Z.div_mod (width (sc_vbe s)) (cellX s) ltac:(lia)) as Hdm.
  pose proof (Z.mod_pos_bound (width (sc_vbe s)) (cellX s) ltac:(lia)) as Hmod.
  set (n := width (sc_vbe s) / cellX s) in *.
  destruct (put_space_ok s Hs) as (s' & Hp & Hs' & Hm & Hx').
  exists s'. rewrite Hx', (cellX_same _ _ Hm), Hx. clear Hx'.
  split_and!; try done; [| |apply Z.div_le_lower_bound; lia].
  - case_decide; case_decide; try lia; exfalso.
    + assert ((k + 1) * cellX s ≤ n * cellX s) by (apply Z.mul_le_mono_nonneg_r; lia). lia.
    + assert (n * cellX s ≤ k * cellX s) by (apply Z.mul_le_mono_nonneg_r; lia). lia.
  - apply Z.nlt_ge. intros ?.
    assert ((n + 1) * cellX s ≤ k * cellX s) by (apply Z.mul_le_mono_nonneg_r; lia). lia.
Qed.

Lemma tab_done s k s' :
  put_space s = Some s' → console_ok s' → xBufferPosition s' = k * cellX s' → 0 ≤ k →
  Z.rem (xBufferPosition s') (TAB_SIZE * glyphSizeX * fontSize s') = 0 ↔ k mod 4 = 0.
Proof.
  intros _ Hs' -> Hk. destruct (cell_bounds s' (co_font _ Hs')) as [_ Hb].
  rewrite <-Z.mul_assoc. apply tab_stop; [unfold cellX in Hb; lia|done].
Qed.

Lemma tab_loop_low fuel : ∀ s k,
  console_ok s → xBufferPosition s = k * cellX s → 0 ≤ k < 4 → 4 - k ≤ Z.of_nat fuel →
  ∃ s', tab_loop fuel s = Some s' ∧ console_ok s' ∧ same_mode s s'.
Proof.
  induction fuel as [|fuel IH]; intros s k Hs Hx Hk Hf; [lia|]. cbn [tab_loop].
  destruct (tab_step s k Hs Hx) as (s' & Hp & Hs' & Hm & Hx' & Hk1 & Hn); [lia|].
  rewrite Hp. cbn [mbind option_bind]. rewrite decide_True in Hx' by lia.
  case_decide as Hd; [by exists s'|].
  rewrite (tab_done s (k + 1) s') in Hd by (done || lia).
  assert (k + 1 ≠ 4) by (intros E; by rewrite E in Hd).
  destruct (IH s' (k + 1) Hs' Hx') as (s2 & -> & ? & ?); [lia..|].
  exists s2. split_and!; try done. by transitivity s'.
Qed.

Lemma tab_loop_any fuel : ∀ s k,
  console_ok s → xBufferPosition s = k * cellX s → 0 ≤ k →
  width (sc_vbe s) / cellX s - k + 5 ≤ Z.of_nat fuel →
  ∃ s', tab_loop fuel s = Some s' ∧ console_ok s' ∧ same_mode s s'.
Proof.
  induction fuel as [|fuel IH]; intros s k Hs Hx Hk Hf.
  { destruct (tab_step s k Hs Hx Hk) as (_ & _ & _ & _ & _ & ? & _). lia. }
  cbn [tab_loop]. destruct (tab_step s k Hs Hx Hk) as (s' & Hp & Hs' & Hm & Hx' & Hk1 & Hn).
  rewrite Hp. cbn [mbind option_bind].
  destruct (decide (Z.rem (xBufferPosition s') _ = 0)) as [Hd|Hd]; [by exists s'|].
  assert (∃ s2, tab_loop fuel s' = Some s2 ∧ console_ok s2 ∧ same_mode s' s2)
    as (s2 & -> & ? & ?).
  { case_decide as Hlt.
    - apply (IH s' (k + 1)); try done; [lia|].
      rewrite (proj1 Hm), (cellX_same _ _ Hm). lia.
    - apply (tab_loop_low fuel s' 1); try done; lia. }
  exists s2. split_and!; try done. by transitivity s'.
Qed.
End tab.

Lemma putChar_ok_gen s c :
  console_ok s → 0 ≤ c < 128 →
  ∃ s', putChar c s = Some s' ∧ console_ok s' ∧ same_mode s s'.
Proof.
  intros Hs Hc. pose proof (set_dirty_ok 1 s Hs) as Hs1.
  unfold putChar. set (s1 := set_dirty 1 s) in *.
  assert (same_mode s s1) as Hm1 by done.
  repeat case_decide.
  - destruct (hideCursor_ok s1 Hs1) as (s2 & -> & Hs2 & Hm2).
    destruct (newLine_ok s2 Hs2) as (Hs3 & Hm3 & _). eexists. split; [done|].
    split; [done|]. by transitivity s2.
  - destruct (hideCursor_ok s1 Hs1) as (s2 & -> & Hs2 & Hm2). cbn [mbind option_bind].
    destruct (cr_loop_ok (line_fuel s2) s2 Hs2) as (s3 & -> & Hs3 & Hm3 & _).
    + pose proof (co_x _ Hs2). unfold line_fuel, getWindowWidth. lia.
    + exists s3. split_and!; try done. by transitivity s2.
  - destruct (co_column _ Hs1) as [k Hk].
    destruct (cell_bounds s1 (co_font _ Hs1)) as [_ Hb]. pose proof (co_x _ Hs1).
    apply (tab_loop_any _ s1 k Hs1 Hk); [nia|].
    assert (width (sc_vbe s1) / cellX s1 ≤ width (sc_vbe s1)).
    { apply Z.div_le_upper_bound; [lia|]. pose proof (co_width _ Hs1). nia. }
    unfold line_fuel, getWindowWidth. assert (0 ≤ k) by nia. lia.
  - destruct (put_glyph_ok s1 c Hs1 Hc) as (s2 & -> & Hs2 & Hm2 & _).
    by exists s2.
Qed.

Lemma putChars_gen l s : console_ok s → Forall (λ c, 0 ≤ c < 128) l →
  ∃ s', putChars l s = Some s' ∧ console_ok s' ∧ same_mode s s'.
Proof.
  intros Hs Hl. revert s Hs. induction Hl as [|c l Hc _ IH]; intros s Hs; [by exists s|].
  destruct (putChar_ok_gen s c Hs Hc) as (s1 & Hp & Hs1 & Hm1). simpl. rewrite Hp.
  destruct (IH s1 Hs1) as (s2 & E & Hs2 & Hm2). exists s2. split_and!; try done.
  by transitivity s1.
Qed.

(** ** Properties *)

(** A printable character that fits on its line is drawn exactly in the
    cell at the cursor: a pixel of the cell has the text colour where the
    scaled font has a bit and the background colour elsewhere, no other
    visible pixel changes, and the cursor moves one cell right. *)
Theorem putChar_draws s c rows (Hs : console_ok s) (Hc : 32 ≤ c < 128)
    (Hrows : font_rows c = Some rows)
    (Hfit : xBufferPosition s + cellX s ≤ width (sc_vbe s)) :
  ∃ s', putChar c s = Some s' ∧ yBufferPosition s' = yBufferPosition s ∧
    xBufferPosition s' = xBufferPosition s + cellX s ∧
    ∀ i j, visible (sc_vbe s) i j → pixel (sc_vbe s) (sc_fb s') i j =
      if decide (xBufferPosition s ≤ i < xBufferPosition s + cellX s ∧
                 yBufferPosition s ≤ j < yBufferPosition s + cellY s)
      then colour (glyph_colour s rows (i - xBufferPosition s) (j - yBufferPosition s))
      else pixel (sc_vbe s) (sc_fb s) i j.
Proof.
  pose proof (set_dirty_ok 1 s Hs) as Hs1.
  unfold putChar. unfold NEW_LINE_CHAR, CARRIAGE_RETURN_CHAR, TABULATOR_CHAR.
  rewrite !decide_False by lia. unfold put_glyph, getWindowWidth. cbn [sc_vbe set_dirty xBufferPosition].
  change (cellX (set_dirty 1 s)) with (cellX s). rewrite decide_False by lia.
  unfold renderAscii. rewrite decide_True by lia. rewrite Hrows. cbn [mbind option_bind].
  eexists. split; [done|]. do 2 (split; [done|]).
  intros i j Hij. pose proof (co_x _ Hs) as H. pose proof (co_y _ Hs) as H0.
  pose proof (co_line _ Hs). pose proof (co_max _ Hs).
  assert (yBufferPosition s + cellY s ≤ height (sc_vbe s)) as Hyh by lia.
  exact (renderFromBitmap_spec (set_dirty 1 s) rows _ _ i j Hs1 (proj1 H) Hfit H0 Hyh Hij).
Qed.

(** [setFontSize] does not scroll: after it the current line can stick
    out of the window, and the next glyph is written past the last row of
    the frame buffer (increasing the size step by step scrolls). *)
Theorem setFontSize_overflows s size (Hs : console_ok s) (Hsz : 1 ≤ size ≤ 10)
    (Hbig : height (sc_vbe s) < yBufferPosition s + 8 * size) :
  ¬ console_ok (setFontSize size s) ∧
  yBufferPosition (setFontSize size s) + cellY (setFontSize size s) > height (sc_vbe s).
Proof.
  assert (cellY (setFontSize size s) = 8 * size) as E.
  { unfold setFontSize, fit_line, cellY. cbn. by rewrite !decide_False by lia. }
  split; [|rewrite E; cbn; lia].
  intros H'. pose proof (co_max _ H'). pose proof (co_line _ H'). rewrite E in *.
  cbn in *. lia.
Qed.

(** A byte above 127 is a negative [char], passes the test
    [ascii < 128], and reads before the font table. *)
Theorem putChar_high_byte s c (Hc : -128 ≤ c < 0) : putChar c s = None.
Proof.
  unfold putChar, NEW_LINE_CHAR, CARRIAGE_RETURN_CHAR, TABULATOR_CHAR.
  rewrite !decide_False by lia. unfold put_glyph, renderAscii, font_rows.
  rewrite (decide_True (P := c < 128)) by lia.
  by rewrite (decide_False (P := 0 ≤ c)) by lia.
Qed.

(** A window of 320 by 160 pixels. *)
Definition vbe_small : vbe_mode_info := VBE 960 320 160 24 0xFD000000.
Definition console_demo : screen := console_init vbe_small.

Lemma console_demo_ok : console_ok console_demo.
Proof.
  split.
  1: by split; vm_compute.
  5: apply Z.divide_0_r.
  all: by vm_compute.
Qed.

Lemma putChar_draws_witness :
  ∃ s', putChar 72 console_demo = Some s' ∧ yBufferPosition s' = 0 ∧ xBufferPosition s' = 8 ∧
    ∀ i j, visible vbe_small i j → pixel vbe_small (sc_fb s') i j =
      if decide (0 ≤ i < 8 ∧ 0 ≤ j < 8)
      then colour (glyph_colour console_demo [51; 51; 51; 63; 51; 51; 51; 0] (i - 0) (j - 0))
      else pixel vbe_small ∅ i j.
Proof.
  refine (putChar_draws console_demo 72 [51; 51; 51; 63; 51; 51; 51; 0] console_demo_ok _ _ _);
    [lia|reflexivity|vm_compute; congruence].
Defined.

(** The console with the cursor on the last line. *)
Definition console_low : screen := set_y 152 console_demo.

Lemma console_low_ok : console_ok console_low.
Proof.
  destruct console_demo_ok as [Hv Hw Hh Hf Hx Hc Hy Hm Hl]. split; cbn in *; try done; lia.
Qed.

Lemma setFontSize_overflows_witness :
  ¬ console_ok (setFontSize 3 console_low) ∧
  yBufferPosition (setFontSize 3 console_low) + cellY (setFontSize 3 console_low) > 160.
Proof. refine (setFontSize_overflows console_low 3 console_low_ok _ _); cbn; lia. Defined.

Lemma putChar_high_byte_witness : putChar (i8 0xE1) console_demo = None.
Proof. apply (putChar_high_byte console_demo (i8 0xE1)). vm_compute. split; congruence. Defined.
