(* ===== verification/ConsoleSpec.v ===== *)
(** * What the console shows

    An abstract page: the picture of the window as a function of the pixel,
    and the place of the next glyph as a column of the grid and a line.  Text
    is typed on it a glyph at a time; the console of [Console] implements it
    on the bytes of the frame buffer and touches no other byte. *)

From S2P Require Import Prelude FontData Video Console.

(** ** The page *)

Record page := Page {
  pg_pix : Z → Z → option Z * option Z * option Z;
  pg_col : Z;      (* in glyphs *)
  pg_top : Z;      (* the first row of pixels of the line *)
  pg_tall : Z;     (* the height of the line *)
}.

(** What stays the same while text is typed: the window, in columns of
    glyphs and rows of pixels, the scale of the font and the colours. *)
Record style := Style {
  st_cols : Z;
  st_rows : Z;
  st_scale : Z;
  st_ink : Z;
  st_paper : Z;
}.

Section page.
Context (st : style).
Implicit Types (p : page).

(** The side of a glyph. *)
Definition side : Z := 8 * st_scale st.

(** The colour of a point of a glyph: every bit of the font is a square. *)
Definition dot (ch i j : Z) : option Z * option Z * option Z :=
  let bits := nth (Z.to_nat (j / st_scale st)) (nth (Z.to_nat ch) font8x8_basic []) 0 in
  colour (if Z.testbit bits (i / st_scale st) then st_ink st else st_paper st).

(** A glyph on the page, the cursor where it was. *)
Definition stamp (ch : Z) p : page :=
  let x := pg_col p * side in
  let y := pg_top p in
  Page (λ i j, if decide (x ≤ i < x + side ∧ y ≤ j < y + side) then dot ch (i - x) (j - y)
               else pg_pix p i j) (pg_col p) y (pg_tall p).

(** The next line; when a glyph would not fit below it the picture moves up
    by a line of glyphs. *)
Definition line_feed p : page :=
  let top := pg_top p + pg_tall p in
  if decide (st_rows st < top + side)
  then Page (λ i j, if decide (j + side < st_rows st) then pg_pix p i (j + side) else colour 0)
         0 (top - side) side
  else Page (pg_pix p) 0 top side.

Definition at_col (col : Z) p : page := Page (pg_pix p) col (pg_top p) (pg_tall p).

(** A full line is left for the next one. *)
Definition fit p : page := if decide (st_cols st ≤ pg_col p) then line_feed p else p.

Definition type_glyph (ch : Z) p : page :=
  let p := fit p in at_col (pg_col p + 1) (stamp ch p).

(** The cursor's own glyph is wiped out before the line is left. *)
Definition wipe p : page := stamp 32 (fit p).

(** Blanks up to the next multiple of four columns; when there is none on the
    line, the rest of the line and four columns of the next one. *)
Definition tab_width (col : Z) : Z :=
  let n := 4 - col mod 4 in if decide (col + n ≤ st_cols st) then n else st_cols st - col + 4.

Definition type_char (ch : Z) p : page :=
  if decide (ch = 10) then line_feed (wipe p)
  else if decide (ch = 13) then at_col 0 (wipe p)
  else if decide (ch = 9) then Nat.iter (Z.to_nat (tab_width (pg_col p))) (type_glyph 32) p
  else type_glyph ch p.

Definition type_text (l : list Z) p : page := foldl (λ p ch, type_char ch p) p l.
End page.

(** ** The console and the page *)

Definition style_of (s : screen) : style :=
  Style (width (sc_vbe s) / cellX s) (height (sc_vbe s)) (fontSize s)
    (text_color s) (background_color s).

Record shows (s : screen) (p : page) : Prop := {
  sh_col : 0 ≤ pg_col p ∧ xBufferPosition s = pg_col p * cellX s;
  sh_top : yBufferPosition s = pg_top p;
  sh_tall : maxGlyphSizeYOnLine s = pg_tall p;
  sh_pix : ∀ i j, visible (sc_vbe s) i j → pixel (sc_vbe s) (sc_fb s) i j = pg_pix p i j;
}.

(** The console went from [s] to [s'], which shows [p'], and wrote to visible
    pixels only. *)
Record drawn (s s' : screen) (p' : page) : Prop := {
  dr_ok : console_ok s';
  dr_mode : same_mode s s';
  dr_shows : shows s' p';
  dr_keeps : keeps_off (sc_vbe s) (sc_fb s) (sc_fb s');
}.

Lemma style_same s s' : same_mode s s' → style_of s' = style_of s.
Proof.
  intros (Ev & Ef & Et & Eb & _). unfold style_of, cellX. by rewrite Ev, Ef, Et, Eb.
Qed.

Lemma drawn_trans s1 s2 s3 p2 p3 : drawn s1 s2 p2 → drawn s2 s3 p3 → drawn s1 s3 p3.
Proof.
  intros [Ho Hm Hs Hk] [Ho' Hm' Hs' Hk']. constructor; try done; [by transitivity s2|].
  rewrite (proj1 Hm) in Hk'. by transitivity (sc_fb s2).
Qed.

Lemma shows_dirty d s p : shows s p → shows (set_dirty d s) p.
Proof. intros []. by constructor. Qed.

Section steps.
Implicit Types (s : screen) (p : page).

Lemma side_cell s : side (style_of s) = cellX s.
Proof. done. Qed.

(** Columns and pixels. *)
Lemma cols_spec s k : console_ok s →
  width (sc_vbe s) < k * cellX s + cellX s ↔ st_cols (style_of s) ≤ k.
Proof.
  intros Hs. destruct (cell_bounds s (co_font _ Hs)) as [_ Hb]. cbn.
  pose proof (Z.div_mod (width (sc_vbe s)) (cellX s) ltac:(lia)) as Hd.
  pose proof (Z.mod_pos_bound (width (sc_vbe s)) (cellX s) ltac:(lia)) as Hm.
  set (n := width (sc_vbe s) / cellX s) in *. split; intros Hk.
  - destruct (Z.lt_ge_cases k n); [exfalso|done].
    assert ((k + 1) * cellX s ≤ n * cellX s) by (apply Z.mul_le_mono_nonneg_r; lia). lia.
  - assert (n * cellX s ≤ k * cellX s) by (apply Z.mul_le_mono_nonneg_r; lia). lia.
Qed.

Lemma newLine_drawn s p :
  console_ok s → shows s p → drawn s (newLine s) (line_feed (style_of s) p).
Proof.
  intros Hs [[Hc0 Hc] Ht Hl Hp]. destruct (newLine_ok s Hs) as (Ho & Hm & Hx).
  destruct (cell_bounds s (co_font _ Hs)) as [E Hb]. pose proof (co_height _ Hs).
  pose proof (co_vbe _ Hs) as Hv.
  assert (u16 (fontSize s * glyphSizeY) = cellX s) as Hmax.
  { rewrite E. unfold cellY in *. rewrite wrapu_small; lia. }
  assert (0 < cellX s ≤ height (sc_vbe s)) as Hsc by lia.
  constructor; [done..| |].
  - revert Hx. unfold line_feed. rewrite side_cell, <-Ht, <-Hl.
    unfold newLine, scrollBufferPositionIfNeeded, getWindowHeight. cbn. rewrite Hmax.
    change (cellY (set_max _ _)) with (cellY s). rewrite <-E, (wrapu_small 16 (cellX s)) by lia.
    intros _. case_decide; (constructor; cbn; [by split|done|done|]); [|done].
    intros i j Hij. rewrite (scroll_pixels _ _ _ _ Hv Hsc i j Hij).
    case_decide; [|done]. apply Hp. destruct Hij. split; lia.
  - unfold newLine, scrollBufferPositionIfNeeded, getWindowHeight. cbn.
    change (cellY (set_max _ _)) with (cellY s). rewrite <-E, (wrapu_small 16 (cellX s)) by lia.
    case_decide; [|done]. by apply scroll_keeps.
Qed.

Lemma fit_drawn s p :
  console_ok s → shows s p → drawn s (fit_glyph s) (fit (style_of s) p).
Proof.
  intros Hs Hp. pose proof (sh_col _ _ Hp) as [_ Hx].
  pose proof (cols_spec s (pg_col p) Hs) as Hcols. rewrite <-Hx in Hcols.
  unfold fit_glyph, fit, getWindowWidth. repeat case_decide; try tauto; [by apply newLine_drawn|].
  by constructor.
Qed.

(** A glyph where it fits. *)
Definition stamped (rows : list Z) s : screen :=
  renderFromBitmap rows (xBufferPosition s) (yBufferPosition s) s.

Lemma render_keeps s rows x y : console_ok s → 0 ≤ x → x + cellX s ≤ width (sc_vbe s) →
  0 ≤ y → y + cellY s ≤ height (sc_vbe s) →
  keeps_off (sc_vbe s) (sc_fb s) (sc_fb (renderFromBitmap rows x y s)).
Proof.
  intros Hs Hx Hxw Hy Hyh. destruct (cell_bounds s (co_font _ Hs)) as [E Hb].
  unfold renderFromBitmap. cbn. apply for_up_keeps. intros i m Hi.
  apply for_up_keeps. intros j m' Hj.
  destruct (cell_coords (sc_vbe s) (co_vbe _ Hs) x y (cellX s) (cellY s)
    (conj Hx Hxw) (conj Hy Hyh) i j) as [-> ->]; [lia..|].
  assert (visible (sc_vbe s) (x + i) (y + j)) as Hij by (split; lia).
  apply (at_pixel_keeps (sc_vbe s) (x + i) (y + j)); [done|].
  by apply (putPixel_at _ (co_vbe _ Hs)).
Qed.

Lemma stamped_drawn s p ch rows :
  console_ok s → shows s p → font_rows ch = Some rows → pg_col p < st_cols (style_of s) →
  drawn s (stamped rows s) (stamp (style_of s) ch p).
Proof.
  intros Hs [[Hc0 Hc] Ht Hl Hp] Hr Hfit. destruct (cell_bounds s (co_font _ Hs)) as [E Hb].
  pose proof (co_x _ Hs) as [Hx _]. pose proof (co_y _ Hs). pose proof (co_line _ Hs).
  pose proof (co_max _ Hs).
  assert (xBufferPosition s + cellX s ≤ width (sc_vbe s)) as Hxw.
  { apply Z.nlt_ge. rewrite Hc, cols_spec by done. lia. }
  assert (yBufferPosition s + cellY s ≤ height (sc_vbe s)) as Hyh by lia.
  unfold stamped. constructor; [by destruct Hs|done| |by apply render_keeps].
  constructor; cbn; [by split|done|done|]. intros i j Hij.
  change (for_up _ 0 _ (sc_fb s)) with
    (sc_fb (renderFromBitmap rows (xBufferPosition s) (yBufferPosition s) s)).
  rewrite renderFromBitmap_spec by (done || lia).
  rewrite side_cell, <-Hc, <-Ht, <-E. case_decide; [|by apply Hp].
  assert (nth (Z.to_nat ch) font8x8_basic [] = rows) as <-; [|done].
  unfold font_rows in Hr. case_decide; [|done]. by apply nth_lookup_Some.
Qed.

(** The cursor after a glyph. *)
Lemma advance_drawn s s' p :
  drawn s s' p → pg_col p < st_cols (style_of s) →
  drawn s (set_x (xBufferPosition s' + cellX s') s') (at_col (pg_col p + 1) p).
Proof.
  intros [Ho Hm [[Hc0 Hc] Ht Hl Hp] Hk] Hfit.
  assert (xBufferPosition s' + cellX s' ≤ width (sc_vbe s')) as Hxw.
  { apply Z.nlt_ge. rewrite Hc, cols_spec, (style_same s s') by done. lia. }
  constructor; [|done| |done].
  - destruct (cell_bounds s' (co_font _ Ho)) as [_ Hb]. destruct Ho. constructor; cbn; try done.
    + unfold cellX in *. cbn in *. lia.
    + apply Z.divide_add_r; [done|]. apply Z.divide_refl.
  - constructor; cbn; try done. change (cellX (set_x _ s')) with (cellX s'). lia.
Qed.

Lemma fit_column s p : console_ok s → shows s p →
  pg_col (fit (style_of s) p) < st_cols (style_of s).
Proof.
  intros Hs Hp. destruct (cell_bounds s (co_font _ Hs)) as [_ Hb]. pose proof (co_width _ Hs).
  assert (0 < st_cols (style_of s)) by (apply Z.div_str_pos; lia).
  unfold fit, line_feed. case_decide; [|lia]. by case_decide.
Qed.

Lemma put_glyph_eq s ch rows : 0 ≤ ch < 128 → font_rows ch = Some rows →
  put_glyph ch s = Some (let s' := stamped rows (fit_glyph s) in
                         set_x (xBufferPosition s' + cellX s') s').
Proof.
  intros Hch Hr. unfold put_glyph. fold (fit_glyph s). unfold renderAscii.
  rewrite decide_True by lia. by rewrite Hr.
Qed.

Lemma stamp_fit_drawn s p ch rows :
  console_ok s → shows s p → font_rows ch = Some rows →
  drawn s (stamped rows (fit_glyph s)) (stamp (style_of s) ch (fit (style_of s) p)).
Proof.
  intros Hs Hp Hr. pose proof (fit_drawn s p Hs Hp) as Hd.
  pose proof (fit_column s p Hs Hp) as Hf.
  pose proof (style_same _ _ (dr_mode _ _ _ Hd)) as Est.
  eapply drawn_trans; [exact Hd|]. rewrite <-Est.
  apply stamped_drawn; [apply Hd|rewrite Est; apply Hd|done|by rewrite Est].
Qed.

Lemma put_glyph_drawn s p ch :
  console_ok s → shows s p → 0 ≤ ch < 128 →
  ∃ s', put_glyph ch s = Some s' ∧ drawn s s' (type_glyph (style_of s) ch p).
Proof.
  intros Hs Hp Hch. destruct (font_rows_some ch Hch) as [rows Hr].
  rewrite (put_glyph_eq s ch rows) by done. eexists. split; [done|].
  apply (advance_drawn s _ (stamp (style_of s) ch (fit (style_of s) p))); [|by apply fit_column].
  by apply stamp_fit_drawn.
Qed.

(** [hideCursor]: a blank, and back. *)
Lemma hideCursor_drawn s p :
  console_ok s → shows s p → ∃ s', hideCursor s = Some s' ∧ drawn s s' (wipe (style_of s) p).
Proof.
  intros Hs Hp. pose proof (set_dirty_ok 1 s Hs) as Hs1. pose proof (shows_dirty 1 s p Hp) as Hp1.
  destruct (font_rows_some 32) as [rows Hr]; [lia|]. unfold hideCursor, put_space.
  rewrite (put_glyph_eq _ 32 rows) by (done || lia). eexists. split; [done|].
  set (s1 := set_dirty 1 s) in *.
  pose proof (stamp_fit_drawn s1 p 32 rows Hs1 Hp1 Hr) as Hd2.
  set (s2 := stamped rows (fit_glyph s1)) in *. cbv zeta.
  assert (retractPosition (set_x (xBufferPosition s2 + cellX s2) s2) = s2) as ->.
  { destruct (cell_bounds s2 (co_font _ (dr_ok _ _ _ Hd2))) as [_ Hb].
    pose proof (co_x _ (dr_ok _ _ _ Hd2)). rewrite retractPosition_eq.
    change (cellX (set_x _ s2)) with (cellX s2).
    change (xBufferPosition (set_x ?x s2)) with x.
    rewrite decide_False, Z.add_simpl_r by lia. by destruct s2. }
  destruct Hd2. by constructor.
Qed.

Lemma cr_loop_drawn fuel s p : console_ok s → shows s p →
  (Z.to_nat (xBufferPosition s) < fuel)%nat →
  ∃ s', cr_loop fuel s = Some s' ∧ drawn s s' (at_col 0 p).
Proof.
  revert s p. induction fuel as [|fuel IH]; intros s p Hs Hp Hf; [lia|]. cbn [cr_loop].
  pose proof (co_x _ Hs). pose proof (sh_col _ _ Hp) as [Hc0 Hc].
  destruct (cell_bounds s (co_font _ Hs)) as [_ Hb].
  case_decide as Hx.
  - destruct (retractPosition_ok s Hs) as [Hs' Hm']. rewrite retractPosition_eq in *.
    rewrite decide_False in * by lia.
    destruct (IH (set_x (xBufferPosition s - cellX s) s) (at_col (pg_col p - 1) p))
      as (s' & -> & Hd); [done| |cbn; lia|].
    + destruct Hp. constructor; cbn; try done. change (cellX (set_x _ s)) with (cellX s). nia.
    + exists s'. split; [done|]. destruct Hd. by constructor.
  - exists s. split; [done|]. constructor; try done. destruct Hp.
    constructor; try done. cbn. lia.
Qed.

(** One blank of the tabulator less. *)
Lemma tab_width_step st col : 4 ≤ st_cols st → 0 ≤ col ≤ st_cols st →
  let col' := if decide (st_cols st ≤ col) then 1 else col + 1 in
  0 ≤ col' ≤ st_cols st ∧
  tab_width st col = if decide (col' mod 4 = 0) then 1 else 1 + tab_width st col'.
Proof.
  intros Hn Hc. unfold tab_width. cbv zeta.
  repeat case_decide; Z.div_mod_to_equations; lia.
Qed.

Lemma tab_width_pos st col : 0 ≤ col ≤ st_cols st → 0 < tab_width st col.
Proof. intros. unfold tab_width. case_decide; Z.div_mod_to_equations; lia. Qed.

Lemma type_glyph_col st ch p :
  pg_col (type_glyph st ch p) = if decide (st_cols st ≤ pg_col p) then 1 else pg_col p + 1.
Proof. unfold type_glyph, fit, line_feed. cbn. repeat case_decide; done. Qed.

Lemma tab_loop_drawn fuel : ∀ s p s',
  console_ok s → shows s p → tab_loop fuel s = Some s' →
  drawn s s' (Nat.iter (Z.to_nat (tab_width (style_of s) (pg_col p)))
    (type_glyph (style_of s) 32) p).
Proof.
  induction fuel as [|fuel IH]; intros s p s' Hs Hp; cbn [tab_loop]; [done|].
  destruct (put_glyph_drawn (set_dirty 1 s) p 32) as (s1 & E1 & Hd1);
    [by apply set_dirty_ok|by apply shows_dirty|lia|].
  unfold put_space. rewrite E1. cbn [mbind option_bind].
  change (style_of (set_dirty 1 s)) with (style_of s) in Hd1.
  assert (drawn s s1 (type_glyph (style_of s) 32 p)) as Hd by (destruct Hd1; by constructor).
  pose proof (dr_ok _ _ _ Hd) as Ho1. pose proof (style_same _ _ (dr_mode _ _ _ Hd)) as Est.
  destruct (cell_bounds s (co_font _ Hs)) as [_ Hb]. pose proof (co_width _ Hs).
  pose proof (sh_col _ _ Hp) as [Hc0 Hc].
  assert (4 ≤ st_cols (style_of s)) as Hn by (apply Z.div_le_lower_bound; lia).
  assert (pg_col p ≤ st_cols (style_of s)) as Hcn.
  { apply Z.div_le_lower_bound; [lia|]. pose proof (co_x _ Hs). lia. }
  destruct (tab_width_step (style_of s) (pg_col p) Hn (conj Hc0 Hcn)) as [Hc' Hw].
  rewrite <-(type_glyph_col (style_of s) 32 p) in Hc', Hw.
  set (p1 := type_glyph (style_of s) 32 p) in *.
  pose proof (sh_col _ _ (dr_shows _ _ _ Hd)) as [_ Hx1].
  assert (Z.rem (xBufferPosition s1) (TAB_SIZE * glyphSizeX * fontSize s1) = 0 ↔
    pg_col p1 mod 4 = 0) as Hrem.
  { rewrite Hx1, <-Z.mul_assoc. apply tab_stop; [|lia].
    destruct (cell_bounds s1 (co_font _ Ho1)) as [_ Hb1]. unfold cellX in Hb1. lia. }
  rewrite Hw. destruct (decide (pg_col p1 mod 4 = 0)) as [Hr|Hr].
  - rewrite decide_True by (by apply Hrem). by intros [= <-].
  - rewrite decide_False by (by rewrite Hrem). intros Hrun.
    pose proof (tab_width_pos (style_of s) (pg_col p1) Hc').
    replace (Z.to_nat (1 + _)) with (S (Z.to_nat (tab_width (style_of s) (pg_col p1)))) by lia.
    specialize (IH s1 p1 s' Ho1 (dr_shows _ _ _ Hd) Hrun). rewrite Est in IH.
    rewrite Nat.iter_succ_r. by eapply drawn_trans.
Qed.
Lemma putChar_drawn s p c :
  console_ok s → shows s p → 0 ≤ c < 128 →
  ∃ s', putChar c s = Some s' ∧ drawn s s' (type_char (style_of s) c p).
Proof.
  intros Hs Hp Hc. pose proof (set_dirty_ok 1 s Hs) as Hs1.
  pose proof (shows_dirty 1 s p Hp) as Hp1.
  assert (∀ s' p', drawn (set_dirty 1 s) s' p' → drawn s s' p') as Hback.
  { intros s' p' []. by constructor. }
  destruct (hideCursor_drawn (set_dirty 1 s) p Hs1 Hp1) as (s2 & Eh & Hd2).
  change (style_of (set_dirty 1 s)) with (style_of s) in Hd2. apply Hback in Hd2.
  pose proof (style_same _ _ (dr_mode _ _ _ Hd2)) as Est.
  unfold putChar, type_char, NEW_LINE_CHAR, CARRIAGE_RETURN_CHAR, TABULATOR_CHAR.
  destruct (decide (c = 10)); [|destruct (decide (c = 13)); [|destruct (decide (c = 9))]].
  - rewrite Eh. eexists. split; [done|]. eapply drawn_trans; [exact Hd2|]. rewrite <-Est.
    apply newLine_drawn; [apply Hd2|]. rewrite Est. apply Hd2.
  - rewrite Eh. cbn [mbind option_bind].
    destruct (cr_loop_drawn (line_fuel s2) s2 (wipe (style_of s) p)) as (s3 & -> & Hd3);
      [apply Hd2..| |].
    + pose proof (co_x _ (dr_ok _ _ _ Hd2)). unfold line_fuel, getWindowWidth. lia.
    + exists s3. split; [done|]. by eapply drawn_trans.
  - destruct (putChar_ok_gen s 9 Hs) as (s' & E & _); [lia|].
    change (putChar 9 s) with (tab_loop (line_fuel (set_dirty 1 s)) (set_dirty 1 s)) in E.
    exists s'. split; [done|]. apply Hback.
    by apply (tab_loop_drawn _ (set_dirty 1 s) p s' Hs1 Hp1 E).
  - destruct (put_glyph_drawn (set_dirty 1 s) p c Hs1 Hp1 Hc) as (s' & E & Hd).
    exists s'. split; [done|]. by apply Hback.
Qed.

Lemma putChars_drawn l : ∀ s p,
  console_ok s → shows s p → Forall (λ c, 0 ≤ c < 128) l →
  ∃ s', putChars l s = Some s' ∧ drawn s s' (type_text (style_of s) l p).
Proof.
  induction l as [|c l IH]; intros s p Hs Hp Hl.
  { exists s. split; [done|]. by constructor. }
  apply Forall_cons in Hl as [Hc Hl].
  destruct (putChar_drawn s p c Hs Hp Hc) as (s1 & E & Hd). cbn [putChars]. rewrite E.
  cbn [mbind option_bind].
  destruct (IH s1 (type_char (style_of s) c p) (dr_ok _ _ _ Hd) (dr_shows _ _ _ Hd) Hl)
    as (s2 & -> & Hd2).
  exists s2. split; [done|]. rewrite (style_same _ _ (dr_mode _ _ _ Hd)) in Hd2.
  by eapply drawn_trans.
Qed.
End steps.

(** * Properties *)

(** C23: printing ASCII text draws it: if the console shows a page, then
    after [putChars] it shows the page with the text typed on it, glyph by
    glyph (new lines, returns, tabulators, full lines and the scrolling of a
    full window included).  The window, the colours and the font size are
    kept, the cursor's line fits in the window again, and only bytes of
    visible pixels are written: none outside the frame buffer, and none of
    the padding of its rows. *)
Theorem putChars_types l s p (Hs : console_ok s) (Hp : shows s p)
    (Hl : Forall (λ c, 0 ≤ c < 128) l) :
  ∃ s', putChars l s = Some s' ∧ console_ok s' ∧ same_mode s s' ∧
    shows s' (type_text (style_of s) l p) ∧ keeps_off (sc_vbe s) (sc_fb s) (sc_fb s') ∧
    ∀ a, a < framebuffer (sc_vbe s) ∨
         framebuffer (sc_vbe s) + height (sc_vbe s) * pitch (sc_vbe s) ≤ a →
      sc_fb s' !! a = sc_fb s !! a.
Proof.
  destruct (putChars_drawn l s p Hs Hp Hl) as (s' & E & [Ho Hm Hsh Hk]).
  exists s'. split_and!; try done. intros a Ha.
  by apply Hk, off_screen_beyond; [apply co_vbe|].
Qed.

(** ** A concrete page *)

Definition page_demo : page := Page (pixel vbe_small ∅) 0 0 8.

Lemma page_demo_shows : shows console_demo page_demo.
Proof. by constructor. Qed.

(** "Hi", a new line, a tabulator and "!". *)
Lemma putChars_types_witness :
  ∃ s', putChars [72; 105; 10; 9; 33] console_demo = Some s' ∧ console_ok s' ∧
    same_mode console_demo s' ∧
    shows s' (type_text (style_of console_demo) [72; 105; 10; 9; 33] page_demo) ∧
    keeps_off vbe_small ∅ (sc_fb s') ∧
    ∀ a, a < 0xFD000000 ∨ 0xFD000000 + 160 * 960 ≤ a → sc_fb s' !! a = None.
Proof.
  refine (putChars_types [72; 105; 10; 9; 33] console_demo page_demo console_demo_ok
    page_demo_shows _).
  repeat constructor; lia.
Defined.

(** What the page is then: five columns on the second line, the "!" in the
    fifth, and the first column of the first line holding the "H". *)
Lemma page_demo_typed :
  let p := type_text (style_of console_demo) [72; 105; 10; 9; 33] page_demo in
  (pg_col p, pg_top p, pg_tall p) = (5, 8, 8) ∧
  pg_pix p 0 0 = colour DEFAULT_TEXT_COLOR ∧ pg_pix p 2 0 = colour DEFAULT_BACKGROUND_COLOR ∧
  pg_pix p 35 8 = colour DEFAULT_TEXT_COLOR ∧ pg_pix p 32 8 = colour DEFAULT_BACKGROUND_COLOR.
Proof. by vm_compute. Qed.
