(* ===== verification/Machine.v ===== *)
(** * The whole machine

    The kernel state of [KState] together with the drivers' variables, the
    memory of the program that is calling, and the devices.  A computation of
    the kernel proper runs on the machine through [in_kernel], one of the
    console through [on_screen]. *)

From S2P Require Import Prelude MemoryManager Queue Arrays Monad KState Processes Video Console.

(** The variables of [drivers/keyboard.c].  [KeyFnMap] holds pairs
    [(registered_from_kernel, fn)]. *)
Record keyboard := Keyboard {
  buffer_sem : Z;
  keyboard_mutex : Z;
  SHIFT_KEY_PRESSED : Z;
  CAPS_LOCK_KEY_PRESSED : Z;
  CONTROL_KEY_PRESSED : Z;
  kb_buffer : list Z;      (* buffer, BUFFER_SIZE signed bytes *)
  to_write : Z;
  to_read : Z;
  keyboard_options : Z;
  KeyFnMap : list (Z * Z);
}.

(** Writes to device ports. *)
Inductive port_write :=
  | PIT_mode (v : Z)
  | PIT_frequency (v : Z)
  | Speaker (v : Z)
  | PIC_master (mask : Z)
  | PIC_slave (mask : Z)
  | Outw (port v : Z).

Record machine {St : Type} := Machine {
  m_k : kst St;   (* the kernel proper *)
  m_scr : screen;   (* fonts.c and the frame buffer *)
  m_kbd : keyboard;   (* keyboard.c *)
  ticks : Z;   (* time.c *)
  soft_irq0 : Z;   (* asm/interrupts.asm *)
  shared_mvar_value : Z;   (* shared_mvar.c *)
  m_user : gmap Z Z;   (* memory of the calling program *)
  m_infos : gmap Z (list ProcessInfo);   (* its buffers of process records *)
  register_snapshot : list Z;   (* asm/interrupts.asm *)
  register_snapshot_taken : Z;
  m_rtc : Z * Z * Z;   (* hour, minute and second of the clock chip *)
  m_ports : list port_write;   (* what was written to device ports, oldest first *)
}.
Arguments machine : clear implicits.
Arguments Machine {St}.

Section setters.
Context {St : Type}.
Implicit Type m : machine St.

Definition set_m_k (v : kst St) m : machine St := Machine v (m_scr m) (m_kbd m)
  (ticks m) (soft_irq0 m) (shared_mvar_value m) (m_user m) (m_infos m)
  (register_snapshot m) (register_snapshot_taken m) (m_rtc m) (m_ports m).
Definition set_m_scr (v : screen) m : machine St := Machine (m_k m) v (m_kbd m)
  (ticks m) (soft_irq0 m) (shared_mvar_value m) (m_user m) (m_infos m)
  (register_snapshot m) (register_snapshot_taken m) (m_rtc m) (m_ports m).
Definition set_m_kbd (v : keyboard) m : machine St := Machine (m_k m) (m_scr m) v
  (ticks m) (soft_irq0 m) (shared_mvar_value m) (m_user m) (m_infos m)
  (register_snapshot m) (register_snapshot_taken m) (m_rtc m) (m_ports m).
Definition set_ticks (v : Z) m : machine St := Machine (m_k m) (m_scr m) (m_kbd m) v
  (soft_irq0 m) (shared_mvar_value m) (m_user m) (m_infos m) (register_snapshot m)
  (register_snapshot_taken m) (m_rtc m) (m_ports m).
Definition set_soft_irq0 (v : Z) m : machine St := Machine (m_k m) (m_scr m) (m_kbd
  m) (ticks m) v (shared_mvar_value m) (m_user m) (m_infos m) (register_snapshot m)
  (register_snapshot_taken m) (m_rtc m) (m_ports m).
Definition set_shared_mvar_value (v : Z) m : machine St := Machine (m_k m) (m_scr m)
  (m_kbd m) (ticks m) (soft_irq0 m) v (m_user m) (m_infos m) (register_snapshot m)
  (register_snapshot_taken m) (m_rtc m) (m_ports m).
Definition set_m_user (v : gmap Z Z) m : machine St := Machine (m_k m) (m_scr m)
  (m_kbd m) (ticks m) (soft_irq0 m) (shared_mvar_value m) v (m_infos m)
  (register_snapshot m) (register_snapshot_taken m) (m_rtc m) (m_ports m).
Definition set_m_infos (v : gmap Z (list ProcessInfo)) m : machine St := Machine (m_k
  m) (m_scr m) (m_kbd m) (ticks m) (soft_irq0 m) (shared_mvar_value m) (m_user m) v
  (register_snapshot m) (register_snapshot_taken m) (m_rtc m) (m_ports m).
Definition set_register_snapshot (v : list Z) m : machine St := Machine (m_k m)
  (m_scr m) (m_kbd m) (ticks m) (soft_irq0 m) (shared_mvar_value m) (m_user m) (m_infos
  m) v (register_snapshot_taken m) (m_rtc m) (m_ports m).
Definition set_register_snapshot_taken (v : Z) m : machine St := Machine (m_k m)
  (m_scr m) (m_kbd m) (ticks m) (soft_irq0 m) (shared_mvar_value m) (m_user m) (m_infos
  m) (register_snapshot m) v (m_rtc m) (m_ports m).
Definition set_m_rtc (v : Z * Z * Z) m : machine St := Machine (m_k m) (m_scr m)
  (m_kbd m) (ticks m) (soft_irq0 m) (shared_mvar_value m) (m_user m) (m_infos m)
  (register_snapshot m) (register_snapshot_taken m) v (m_ports m).
Definition set_m_ports (v : list port_write) m : machine St := Machine (m_k m) (m_scr
  m) (m_kbd m) (ticks m) (soft_irq0 m) (shared_mvar_value m) (m_user m) (m_infos m)
  (register_snapshot m) (register_snapshot_taken m) (m_rtc m) v.
End setters.


(** ** Running a part on the machine *)
Section lift.
Context {St : Type}.
Abbreviation machine := (machine St).
Abbreviation M := (K machine).

(** A kernel call that gives up the CPU resumes in the kernel part of
    whatever machine it is resumed in. *)
Fixpoint lift_res {A} (r : res (kst St) A) (m : machine) : res machine A :=
  match r with
  | Ret a s => Ret a (set_m_k s m)
  | Switch s k => Switch (set_m_k s m) (λ m', lift_res (k (m_k m')) m')
  | Panic msg s => Panic msg (set_m_k s m)
  | Undefined => Undefined
  | Diverges => Diverges
  end.

Definition in_kernel {A} (c : K (kst St) A) : M A := λ m, lift_res (c (m_k m)) m.

(** The console shares the interrupt flag with the kernel. *)
Definition load_screen (m : machine) : screen := set_sc_if (k_if (m_k m)) (m_scr m).
Definition store_screen (s : screen) (m : machine) : machine :=
  set_m_scr s (set_m_k (set_k_if (sc_if s) (m_k m)) m).

Definition on_screen (f : screen → option screen) : M unit := λ m,
  match f (load_screen m) with
  | Some s => Ret tt (store_screen s m)
  | None => Undefined
  end.

Definition screen_do (f : screen → screen) : M unit := on_screen (λ s, Some (f s)).

Definition on_kbd (f : keyboard → keyboard) : M unit :=
  kmodify (λ m, set_m_kbd (f (m_kbd m)) m).
Definition get_kbd {A} (f : keyboard → A) : M A := kgets (λ m, f (m_kbd m)).

Definition out_port (w : port_write) : M unit :=
  kmodify (λ m, set_m_ports (m_ports m ++ [w]) m).

(** Memory of the calling program, byte by byte. *)
Fixpoint load_bytes (mem : gmap Z Z) (a : Z) (n : nat) : option (list Z) :=
  match n with
  | O => Some []
  | S n => b ← mem !! a; l ← load_bytes mem (a + 1) n; Some (b :: l)
  end.

Fixpoint store_bytes (mem : gmap Z Z) (a : Z) (l : list Z) : gmap Z Z :=
  match l with
  | [] => mem
  | b :: l => store_bytes (<[a := u8 b]> mem) (a + 1) l
  end.

Definition user_load (a n : Z) : M (list Z) := λ m,
  match load_bytes (m_user m) a (Z.to_nat n) with
  | Some l => Ret l m
  | None => Undefined
  end.

Definition user_store (a : Z) (l : list Z) : M unit :=
  kmodify (λ m, set_m_user (store_bytes (m_user m) a l) m).

(** Little-endian words. *)
Fixpoint le_value (l : list Z) : Z :=
  match l with [] => 0 | b :: l => b + 256 * le_value l end.
Fixpoint le_bytes (n : nat) (v : Z) : list Z :=
  match n with O => [] | S n => v mod 256 :: le_bytes n (v / 256) end.

(** A null-terminated string of at most [fuel] characters. *)
Fixpoint load_cstr (mem : gmap Z Z) (a : Z) (fuel : nat) : option (list Z) :=
  match fuel with
  | O => None
  | S fuel =>
      b ← mem !! a;
      if decide (b = 0) then Some [] else l ← load_cstr mem (a + 1) fuel; Some (b :: l)
  end.

Definition user_string (a : Z) : M (list Z) := λ m,
  match load_cstr (m_user m) a (S (size (m_user m))) with
  | Some l => Ret l m
  | None => Undefined
  end.

(** *** Reasoning *)

Lemma wp_in_kernel {A} pan (c : K (kst St) A) Q m :
  wp pan c (λ a s, Q a (set_m_k s m)) (m_k m) → wp pan (in_kernel c) Q m.
Proof. unfold wp, in_kernel. by destruct (c (m_k m)). Qed.

Lemma wp_on_screen pan f Q m s :
  f (load_screen m) = Some s → Q tt (store_screen s m) → wp pan (on_screen f) Q m.
Proof. unfold wp, on_screen. by intros ->. Qed.

Lemma wp_on_kbd pan f Q m : Q tt (set_m_kbd (f (m_kbd m)) m) → wp pan (on_kbd f) Q m.
Proof. done. Qed.

Lemma wp_get_kbd {A} pan (f : keyboard → A) Q m : Q (f (m_kbd m)) m → wp pan (get_kbd f) Q m.
Proof. done. Qed.

(** The kernel part of the machine an outcome is put into does not matter. *)
Lemma lift_res_frame {A} (r : res (kst St) A) s m : lift_res r (set_m_k s m) = lift_res r m.
Proof. by destruct r. Qed.

(** Lifting commutes with sequencing. *)
Lemma lift_bind {A B} (f : A → K (kst St) B) (r : res (kst St) A) m :
  lift_res (res_bind f r) m ≡ res_bind (λ a, in_kernel (f a)) (lift_res r m).
Proof.
  revert m. induction r as [a s|s k IH|msg s| |]; intros m; simpl; try done.
  - unfold in_kernel. by rewrite lift_res_frame.
  - constructor. intros m'. apply IH.
Qed.

Lemma le_roundtrip n : ∀ v, le_value (le_bytes n v) = v mod 256 ^ Z.of_nat n.
Proof.
  induction n as [|n IH]; intros v; cbn [le_bytes le_value].
  - by rewrite Z.mod_1_r.
  - rewrite IH, Nat2Z.inj_succ, Z.pow_succ_r by lia.
    rewrite Z.rem_mul_r by lia. lia.
Qed.

Lemma le_bytes_length n : ∀ v, length (le_bytes n v) = n.
Proof. induction n as [|n IH]; intros v; cbn; [done|]. by rewrite IH. Qed.

Lemma le_bytes_range n : ∀ v, Forall (λ b, 0 ≤ b < 256) (le_bytes n v).
Proof.
  induction n as [|n IH]; intros v; cbn [le_bytes]; [constructor|]. constructor; [|apply IH].
  by apply Z.mod_pos_bound.
Qed.

End lift.
