(* ===== verification/Keyboard.v ===== *)
(** * The keyboard ([drivers/keyboard.c]) and output to descriptors

    The ring buffer of characters, the translation of scan codes, the special
    keys, and the handler of interrupt 1.  [printToFd] of [fonts.c] is here
    because it writes to the keyboard's buffer when asked to print on
    descriptor 0.  A call through [KeyFnMap] runs code of the kernel or of a
    program, which is the argument [call_fn]; the scan code the controller
    delivers is the argument of [keyboardHandler]. *)

From S2P Require Import Prelude MemoryManager Monad KState Sem Processes Video Console Machine.

Definition BUFFER_SIZE : Z := 1024.
Definition ESCAPE_KEY : Z := 0x01.
Definition BACKSPACE_KEY : Z := 0x0E.
Definition TABULATOR_KEY : Z := 0x0F.
Definition RETURN_KEY : Z := 0x1C.
Definition CONTROL_KEY_L : Z := 0x1D.
Definition D_KEY : Z := 0x20.
Definition SHIFT_KEY_L : Z := 0x2A.
Definition C_KEY : Z := 0x2E.
Definition SHIFT_KEY_R : Z := 0x36.
Definition CAPS_LOCK_KEY : Z := 0x3A.
Definition F12_KEY : Z := 0x58.

Definition SHOW_BUFFER_WHILE_TYPING : Z := 1.
Definition AWAIT_RETURN_KEY : Z := 2.
Definition MODIFY_BUFFER : Z := 4.
Definition EOF : Z := -1.

(** ASCII and shifted ASCII by scan code. *)
Definition scancodeMap : list (Z * Z) := [
  (0, 0); (1, 1); (49, 33); (50, 64); (51, 35); (52, 36); (53, 37); (54, 94); (55,
  38); (56, 42); (57, 40); (48, 41); (45, 95); (61, 43); (14, 14); (15, 15); (113,
  81); (119, 87); (101, 69); (114, 82); (116, 84); (121, 89); (117, 85); (105, 73);
  (111, 79); (112, 80); (91, 123); (93, 125); (28, 28); (29, 29); (97, 65); (115, 83);
  (100, 68); (102, 70); (103, 71); (104, 72); (106, 74); (107, 75); (108, 76); (59,
  58); (39, 34); (96, 126); (42, 42); (92, 124); (122, 90); (120, 88); (99, 67); (118,
  86); (98, 66); (110, 78); (109, 77); (44, 60); (46, 62); (47, 63); (54, 54); (42,
  42); (56, 184); (32, 32); (58, 58); (59, 59); (60, 60); (61, 61); (62, 62); (63,
  63); (64, 64); (65, 65); (66, 66); (67, 67); (68, 68); (69, 69); (70, 70); (71, 55);
  (72, 56); (73, 57); (45, 45); (75, 52); (76, 53); (77, 54); (43, 43); (79, 49); (80,
  50); (81, 51); (82, 48); (83, 46); (0, 0); (0, 0); (45, 45); (87, 87); (88, 88)
].

(** ** The macros *)

Definition INC_MOD (x m : Z) : Z := (x + 1) mod m.
Definition SUB_MOD (a b m : Z) : Z := if decide (a - b < 0) then m - b + a else a - b.
Definition DEC_MOD (x m : Z) : Z := SUB_MOD x 1 m.

(** The remainder is that of signed integers. *)
Definition BUFFER_IS_FULL (k : keyboard) : bool :=
  bool_decide (Z.rem (to_write k - to_read k) BUFFER_SIZE = BUFFER_SIZE - 1).

Definition IS_ALPHA (c : Z) : bool := bool_decide (97 ≤ c ≤ 122).
Definition TO_UPPER (c : Z) : Z := if IS_ALPHA c then c - 97 + 65 else c.
Definition IS_KEYCODE (c : Z) : bool := bool_decide (ESCAPE_KEY ≤ c ≤ F12_KEY).

Definition IS_PRINTABLE (shift c : Z) : bool :=
  IS_KEYCODE c &&
  (bool_decide (0x02 ≤ c ≤ 0x0D) || bool_decide (0x0F ≤ c ≤ 0x1C) ||
   bool_decide (0x1E ≤ c ≤ 0x29) || bool_decide (0x2B ≤ c ≤ 0x35) ||
   bool_decide (c = 0x37) || bool_decide (c = 0x39) ||
   (negb (bool_decide (shift = 0)) && bool_decide (0x47 ≤ c ≤ 0x53)) ||
   bool_decide (c = 0x4A ∨ c = 0x4E) || bool_decide (c = 0x56)).

Definition isReleased (scancode : Z) : Z := Z.land scancode 0x80.
Definition isPressed (scancode : Z) : Z := if decide (isReleased scancode = 0) then 1 else 0.
Definition makeCode (scancode : Z) : Z := Z.land scancode 0x7F.

(** ** The record's fields *)
Section setters.
Implicit Types (k : keyboard).

Definition set_sems b y k : keyboard := Keyboard b y (SHIFT_KEY_PRESSED k)
  (CAPS_LOCK_KEY_PRESSED k) (CONTROL_KEY_PRESSED k) (kb_buffer k) (to_write k) (to_read k)
  (keyboard_options k) (KeyFnMap k).
Definition set_shift v k : keyboard := Keyboard (buffer_sem k) (keyboard_mutex k) v
  (CAPS_LOCK_KEY_PRESSED k) (CONTROL_KEY_PRESSED k) (kb_buffer k) (to_write k) (to_read k)
  (keyboard_options k) (KeyFnMap k).
Definition set_caps v k : keyboard := Keyboard (buffer_sem k) (keyboard_mutex k)
  (SHIFT_KEY_PRESSED k) v (CONTROL_KEY_PRESSED k) (kb_buffer k) (to_write k) (to_read k)
  (keyboard_options k) (KeyFnMap k).
Definition set_control v k : keyboard := Keyboard (buffer_sem k) (keyboard_mutex k)
  (SHIFT_KEY_PRESSED k) (CAPS_LOCK_KEY_PRESSED k) v (kb_buffer k) (to_write k) (to_read k)
  (keyboard_options k) (KeyFnMap k).
Definition set_buffer b k : keyboard := Keyboard (buffer_sem k) (keyboard_mutex k)
  (SHIFT_KEY_PRESSED k) (CAPS_LOCK_KEY_PRESSED k) (CONTROL_KEY_PRESSED k) b (to_write k)
  (to_read k) (keyboard_options k) (KeyFnMap k).
Definition set_to_write v k : keyboard := Keyboard (buffer_sem k) (keyboard_mutex k)
  (SHIFT_KEY_PRESSED k) (CAPS_LOCK_KEY_PRESSED k) (CONTROL_KEY_PRESSED k) (kb_buffer k) v
  (to_read k) (keyboard_options k) (KeyFnMap k).
Definition set_to_read v k : keyboard := Keyboard (buffer_sem k) (keyboard_mutex k)
  (SHIFT_KEY_PRESSED k) (CAPS_LOCK_KEY_PRESSED k) (CONTROL_KEY_PRESSED k) (kb_buffer k)
  (to_write k) v (keyboard_options k) (KeyFnMap k).
Definition set_options v k : keyboard := Keyboard (buffer_sem k) (keyboard_mutex k)
  (SHIFT_KEY_PRESSED k) (CAPS_LOCK_KEY_PRESSED k) (CONTROL_KEY_PRESSED k) (kb_buffer k)
  (to_write k) (to_read k) v (KeyFnMap k).
Definition set_KeyFnMap v k : keyboard := Keyboard (buffer_sem k) (keyboard_mutex k)
  (SHIFT_KEY_PRESSED k) (CAPS_LOCK_KEY_PRESSED k) (CONTROL_KEY_PRESSED k) (kb_buffer k)
  (to_write k) (to_read k) (keyboard_options k) v.
End setters.

(** The initial values: zeroed statics. *)
Definition keyboard_init : keyboard :=
  Keyboard NULL NULL 0 0 0 (replicate (Z.to_nat BUFFER_SIZE) 0) 0 0 0
    (replicate (Z.to_nat (F12_KEY - ESCAPE_KEY + 1)) (0, NULL)).

(** ** Special keys

    The map has [F12_KEY - ESCAPE_KEY + 1] entries and is indexed by the scan
    code itself; an index outside it is [None]. *)

Fixpoint restore_loop (n : nat) (i : Z) (map : list Z) (keys : list (Z * Z))
  : option (list (Z * Z)) :=
  match n with
  | O => Some keys
  | S n =>
      '(k, f) ← keys !! Z.to_nat i;
      if decide (k = 0) then
        f' ← map !! Z.to_nat i;
        restore_loop n (i + 1) map (<[Z.to_nat i := (k, f')]> keys)
      else restore_loop n (i + 1) map keys
  end.

Definition restoreKeyFnMapNonKernel (map : list Z) (k : keyboard) : option keyboard :=
  keys ← restore_loop (Z.to_nat (F12_KEY - ESCAPE_KEY)) ESCAPE_KEY map (KeyFnMap k);
  Some (set_KeyFnMap keys k).

Fixpoint clear_loop (n : nat) (i : Z) (map : list Z) (keys : list (Z * Z))
  : option (list Z * list (Z * Z)) :=
  match n with
  | O => Some (map, keys)
  | S n =>
      '(k, f) ← keys !! Z.to_nat i;
      if decide (k = 0) then
        clear_loop n (i + 1) (<[Z.to_nat i := f]> map) (<[Z.to_nat i := (k, NULL)]> keys)
      else clear_loop n (i + 1) map keys
  end.

Definition clearKeyFnMapNonKernel (map : list Z) (k : keyboard) : option (list Z * keyboard) :=
  '(map, keys) ← clear_loop (Z.to_nat (F12_KEY - ESCAPE_KEY)) ESCAPE_KEY map (KeyFnMap k);
  Some (map, set_KeyFnMap keys k).

Definition registerSpecialKey (scancode fn registeredFromKernel : Z) (k : keyboard)
  : option (Z * keyboard) :=
  if IS_KEYCODE scancode then
    '(_, f) ← KeyFnMap k !! Z.to_nat scancode;
    if decide (registeredFromKernel ≠ 0 ∨ registeredFromKernel = 0 ∧ f = NULL) then
      Some (1, set_KeyFnMap (<[Z.to_nat scancode := (registeredFromKernel, fn)]> (KeyFnMap k)) k)
    else Some (0, k)
  else Some (0, k).

Section keyboard.
Context {St : Type} `{MemoryManager St}.
Abbreviation machine := (machine St).
Abbreviation M := (K machine).

(** ** The buffer *)

(** [buffer[to_write] = ascii; INC_MOD(to_write, BUFFER_SIZE);] *)
Definition push_char (ascii : Z) (k : keyboard) : option keyboard :=
  if decide (to_write k < BUFFER_SIZE) then
    Some (set_to_write (INC_MOD (to_write k) BUFFER_SIZE)
      (set_buffer (<[Z.to_nat (to_write k) := ascii]> (kb_buffer k)) k))
  else None.

(** [addCharToBuffer] of a character that is not a tabulator. *)
Definition add_plain (ascii : Z) (showOutput : bool) : M unit :=
  k ← get_kbd id;
  k ← kopt (push_char ascii k);
  _ ← on_kbd (λ _, k);
  _ ← kwhen showOutput (on_screen (putChar ascii));
  kwhen (negb (bool_decide (Z.land (keyboard_options k) MODIFY_BUFFER = 0)))
    (_ ← in_kernel (semPost (buffer_sem k)); mret tt).

(** [do addCharToBuffer(' ', showOutput); while (...)] *)
Fixpoint add_tab (fuel : nat) (showOutput : bool) : M unit :=
  match fuel with
  | O => diverge
  | S fuel =>
      _ ← add_plain 32 showOutput;
      k ← get_kbd id;
      s ← kgets m_scr;
      if decide (BUFFER_IS_FULL k = false ∧
                 Z.rem (getXBufferPosition s) (TAB_SIZE * DEFAULT_GLYPH_SIZE_X * getFontSize s) ≠ 0)
      then add_tab fuel showOutput else mret tt
  end.

(** The loop goes on while the buffer is not full: [BUFFER_SIZE] rounds
    reach every state of the ring. *)
Definition tab_fuel : nat := Z.to_nat (2 * BUFFER_SIZE).

Definition addCharToBuffer (ascii : Z) (showOutput : bool) : M unit :=
  if decide (ascii ≠ TABULATOR_CHAR) then add_plain ascii showOutput
  else add_tab tab_fuel showOutput.

Definition clearBuffer : M Z :=
  k ← get_kbd id;
  let aux := u16 (SUB_MOD (to_write k) (to_read k) BUFFER_SIZE) in
  if decide (aux = 0) then mret 0
  else
    _ ← on_kbd (set_to_write (DEC_MOD (to_write k) BUFFER_SIZE));
    _ ← on_screen clearPreviousCharacter;
    mret aux.

(** The character before [to_write]. *)
Definition last_char (k : keyboard) : option Z :=
  kb_buffer k !! Z.to_nat (SUB_MOD (to_write k) 1 BUFFER_SIZE).

(** [while (1)] of [getKeyboardCharacter]: every round but the last waits on
    the semaphore. *)
Fixpoint await_loop (fuel : nat) : M unit :=
  match fuel with
  | O => diverge
  | S fuel =>
      k ← get_kbd id;
      if decide (to_write k = to_read k) then
        _ ← in_kernel (semWait (buffer_sem k)); await_loop fuel
      else if decide (Z.land (keyboard_options k) AWAIT_RETURN_KEY ≠ 0) then
        c ← kopt (last_char k);
        if decide (c = NEW_LINE_CHAR ∨ c = EOF) then mret tt
        else _ ← in_kernel (semWait (buffer_sem k)); await_loop fuel
      else mret tt
  end.

(** [fuel] bounds the rounds of the wait. *)
Definition getKeyboardCharacter (fuel : nat) (ops : Z) : M Z :=
  _ ← on_kbd (set_options (Z.lor ops MODIFY_BUFFER));
  _ ← await_loop fuel;
  _ ← on_kbd (set_options 0);
  k ← get_kbd id;
  _ ← in_kernel (semWait (keyboard_mutex k));
  k ← get_kbd id;
  aux ← kopt (kb_buffer k !! Z.to_nat (to_read k));
  _ ← on_kbd (set_to_read (INC_MOD (to_read k) BUFFER_SIZE));
  k ← get_kbd id;
  _ ← in_kernel (semPost (keyboard_mutex k));
  mret aux.

(** ** The interrupt *)

(** The [switch] on the make code. *)
Definition track_modifiers (scancode : Z) (k : keyboard) : keyboard :=
  let is_pressed := isPressed scancode in
  let c := makeCode scancode in
  if decide (c = SHIFT_KEY_L ∨ c = SHIFT_KEY_R) then set_shift is_pressed k
  else if decide (c = CONTROL_KEY_L) then set_control is_pressed k
  else if decide (c = CAPS_LOCK_KEY) then
    if decide (is_pressed ≠ 0)
    then set_caps (if decide (CAPS_LOCK_KEY_PRESSED k = 0) then 1 else 0) k else k
  else k.

(** [scancodeMap[scancode][SHIFT_KEY_PRESSED]] as a signed byte, in upper
    case under caps lock. *)
Definition translate (scancode : Z) (k : keyboard) : option Z :=
  '(plain, shifted) ← scancodeMap !! Z.to_nat scancode;
  let c := i8 (if decide (SHIFT_KEY_PRESSED k = 0) then plain else shifted) in
  Some (if decide (CAPS_LOCK_KEY_PRESSED k = 1) then TO_UPPER c else c).

(** The body of [if ((keyboard_options & MODIFY_BUFFER) != 0)]: whether the
    handler goes on to the special keys. *)
Definition buffer_key (scancode : Z) : M bool :=
  k ← get_kbd id;
  c ← kopt (translate scancode k);
  if IS_PRINTABLE (SHIFT_KEY_PRESSED k) scancode then
    let show := negb (bool_decide (Z.land (keyboard_options k) SHOW_BUFFER_WHILE_TYPING = 0)) in
    if decide (c = RETURN_KEY) then
      if decide (to_write k ≠ to_read k ∧ last_char k = Some NEW_LINE_CHAR) then mret false
      else _ ← addCharToBuffer NEW_LINE_CHAR show; mret true
    else
      _ ← addCharToBuffer (if decide (c = TABULATOR_KEY) then TABULATOR_CHAR else c) show;
      mret true
  else if decide (c = BACKSPACE_KEY ∧ to_write k ≠ to_read k) then
    _ ← on_kbd (set_to_write (DEC_MOD (to_write k) BUFFER_SIZE));
    _ ← on_screen clearPreviousCharacter;
    mret true
  else mret true.

Section handler.
Context (call_fn : Z → Z → M unit).

Definition special_key (scancode : Z) : M unit :=
  k ← get_kbd id;
  '(_, fn) ← kopt (KeyFnMap k !! Z.to_nat scancode);
  if decide (fn = NULL) then mret tt else call_fn fn scancode.

Definition keyboardHandler (scancode : Z) : M Z :=
  k ← get_kbd id;
  if BUFFER_IS_FULL k then
    _ ← on_kbd (λ k, set_to_read 0 (set_to_write 0 k));
    mret scancode
  else
    _ ← on_kbd (track_modifiers scancode);
    k ← get_kbd id;
    if negb (negb (bool_decide (isPressed scancode = 0)) && IS_KEYCODE scancode)
    then mret scancode
    else if decide (CONTROL_KEY_PRESSED k ≠ 0 ∧ makeCode scancode = C_KEY) then
      _ ← in_kernel kill_foreground_processes; mret scancode
    else if decide (CONTROL_KEY_PRESSED k ≠ 0 ∧ makeCode scancode = D_KEY) then
      _ ← kwhen (bool_decide (to_write k = to_read k)) (addCharToBuffer EOF false);
      mret (u8 EOF)
    else
      go ← (if decide (Z.land (keyboard_options k) MODIFY_BUFFER ≠ 0)
            then buffer_key scancode else mret true);
      _ ← kwhen go (special_key scancode);
      mret scancode.
End handler.

(** ["keyboard_mutex"] and ["buffer_sem"] *)
Definition KEYBOARD_MUTEX_NAME : list Z :=
  [107; 101; 121; 98; 111; 97; 114; 100; 95; 109; 117; 116; 101; 120].
Definition BUFFER_SEM_NAME : list Z := [98; 117; 102; 102; 101; 114; 95; 115; 101; 109].

Definition keyboard_sem_init : M unit :=
  y ← in_kernel (semOpen (Some KEYBOARD_MUTEX_NAME) 1);
  k ← get_kbd id;
  _ ← on_kbd (set_sems (buffer_sem k) y);
  b ← in_kernel (semOpen (Some BUFFER_SEM_NAME) 0);
  _ ← on_kbd (set_sems b y);
  if decide (y = NULL ∨ b = NULL)
  then panic "Failed to initialize keyboard semaphores" else mret tt.

(** ** Printing ([fonts.c]) *)

Fixpoint add_chars (l : list Z) : M unit :=
  match l with
  | [] => mret tt
  | c :: l => _ ← addCharToBuffer c true; add_chars l
  end.

(** The colours of a descriptor that was not the last one printed to. *)
Definition choose_descriptor (fd : Z) (s : screen) : screen :=
  if decide (fd = 1) then
    set_descriptor 1 (setBackgroundColor DEFAULT_BACKGROUND_COLOR
      (setTextColor DEFAULT_TEXT_COLOR s))
  else if decide (fd = 2) then
    set_descriptor 2 (setBackgroundColor DEFAULT_BACKGROUND_COLOR
      (setTextColor DEFAULT_ERROR_COLOR s))
  else s.

(** [string] is the [count] bytes to print; the answer is their number. *)
Definition printToFd (fd : Z) (string : list Z) : M Z :=
  s ← kgets m_scr;
  if decide (fd ≠ file_descriptor s ∧ fd = 0) then
    _ ← add_chars string; mret (Z.of_nat (length string))
  else
    _ ← kwhen (negb (bool_decide (fd = file_descriptor s))) (screen_do (choose_descriptor fd));
    _ ← on_screen (putChars string);
    mret (Z.of_nat (length string)).

(** [print] of a string without its terminator. *)
Definition print (string : list Z) : M unit := _ ← printToFd 1 string; mret tt.
End keyboard.
