(* ===== verification/KeyboardFacts.v ===== *)
(** * The keyboard buffer and its interrupt handler

    The characters typed and not yet read form a queue.  The handler appends
    to it and posts the semaphore, a reader takes from its front; the test
    for a full buffer works only when nothing has been read since the last
    reset. *)

From S2P Require Import Prelude MemoryManager FirstFit Queue Arrays Monad KState.
From S2P Require Import Scheduler SchedulerFacts Sem SemFacts SemSpec Processes.
From S2P Require Import FontData Video Console Machine Keyboard.

(** ** The ring *)

(** The characters [l] are in the buffer, oldest first. *)
Record typed (k : keyboard) (l : list Z) : Prop := {
  ty_size : length (kb_buffer k) = Z.to_nat BUFFER_SIZE;
  ty_read : 0 ≤ to_read k < BUFFER_SIZE;
  ty_fits : Z.of_nat (length l) < BUFFER_SIZE;
  ty_write : to_write k = (to_read k + Z.of_nat (length l)) mod BUFFER_SIZE;
  ty_chars : ∀ i c, l !! i = Some c →
    kb_buffer k !! Z.to_nat ((to_read k + Z.of_nat i) mod BUFFER_SIZE) = Some c;
}.

Ltac kb_lia := unfold BUFFER_SIZE in *; Z.div_mod_to_equations; lia.

Section ring.
Implicit Types (k : keyboard) (l : list Z).

Lemma typed_write_range k l : typed k l → 0 ≤ to_write k < BUFFER_SIZE.
Proof. intros [_ _ _ -> _]. by apply Z.mod_pos_bound. Qed.

Lemma typed_empty k l : typed k l → to_write k = to_read k ↔ l = [].
Proof.
  intros [_ Hr Hf -> _]. split.
  - intros E. destruct l; [done|]. cbn [length] in *. exfalso. kb_lia.
  - intros ->. cbn [length]. kb_lia.
Qed.

(** Other fields do not matter. *)
Lemma typed_ext k k' l :
  typed k l → kb_buffer k' = kb_buffer k → to_read k' = to_read k →
  to_write k' = to_write k → typed k' l.
Proof. intros [] E1 E2 E3. split; rewrite ?E1, ?E2, ?E3; done. Qed.

Lemma typed_last k l c : typed k (l ++ [c]) → last_char k = Some c.
Proof.
  intros HT. pose proof (typed_write_range _ _ HT). destruct HT as [Hs Hr Hf Hw Hc].
  unfold last_char. rewrite <-(Hc (length l) c) by (by apply list_lookup_middle).
  do 2 f_equal. rewrite length_app in *. cbn [length] in *. unfold SUB_MOD. case_decide; kb_lia.
Qed.

Lemma typed_push k l c k' :
  typed k l → push_char c k = Some k' →
  typed k' (if decide (Z.of_nat (length l) = BUFFER_SIZE - 1) then [] else l ++ [c]).
Proof.
  intros HT. pose proof (typed_write_range _ _ HT) as Hwr. destruct HT as [Hs Hr Hf Hw Hc].
  unfold push_char. rewrite decide_True by lia. intros [= <-].
  case_decide as Hl; split; cbn; rewrite ?length_insert; try done.
  - rewrite Hw. unfold INC_MOD. kb_lia.
  - rewrite length_app. cbn [length]. lia.
  - rewrite Hw, length_app. unfold INC_MOD. cbn [length].
    rewrite Zplus_mod_idemp_l. f_equal. lia.
  - intros i d Hi. apply lookup_app_Some in Hi as [Hi|[Hge Hi]].
    + rewrite list_lookup_insert_ne; [by apply Hc|].
      apply lookup_lt_Some in Hi. rewrite Hw. intros E. apply Z2Nat.inj in E; kb_lia.
    + apply list_lookup_singleton_Some in Hi as [Hi ->].
      replace i with (length l) by lia. rewrite <-Hw.
      apply list_lookup_insert_eq. rewrite Hs. lia.
Qed.

Lemma push_char_frame c k k' :
  push_char c k = Some k' → buffer_sem k' = buffer_sem k ∧
  keyboard_options k' = keyboard_options k ∧ KeyFnMap k' = KeyFnMap k.
Proof. unfold push_char. case_decide; [|done]. by intros [= <-]. Qed.

Lemma typed_pop k c l :
  typed k (c :: l) → kb_buffer k !! Z.to_nat (to_read k) = Some c ∧
  typed (set_to_read (INC_MOD (to_read k) BUFFER_SIZE) k) l.
Proof.
  intros [Hs Hr Hf Hw Hc]. split.
  - rewrite <-(Hc 0%nat c eq_refl). do 2 f_equal. kb_lia.
  - cbn [length] in Hf. split; cbn; try done.
    + by apply Z.mod_pos_bound.
    + lia.
    + rewrite Hw. unfold INC_MOD. cbn [length]. rewrite Zplus_mod_idemp_l. f_equal. lia.
    + intros i d Hi. rewrite <-(Hc (S i) d Hi). do 2 f_equal. unfold INC_MOD.
      rewrite Zplus_mod_idemp_l. f_equal. lia.
Qed.

Lemma typed_erase k l c :
  typed k (l ++ [c]) → typed (set_to_write (DEC_MOD (to_write k) BUFFER_SIZE) k) l.
Proof.
  intros HT. pose proof (typed_write_range _ _ HT). destruct HT as [Hs Hr Hf Hw Hc].
  rewrite length_app in *. cbn [length] in *. split; cbn; try done.
  - lia.
  - unfold DEC_MOD, SUB_MOD. case_decide; kb_lia.
  - intros i d Hi. apply Hc. by apply lookup_app_l_Some.
Qed.

(** The test of [BUFFER_IS_FULL] on a signed remainder. *)
Lemma BUFFER_IS_FULL_spec k l :
  typed k l →
  BUFFER_IS_FULL k = true ↔ Z.of_nat (length l) = BUFFER_SIZE - 1 ∧ to_read k = 0.
Proof.
  intros HT. pose proof (typed_write_range _ _ HT) as Hwr. destruct HT as [_ Hr Hf Hw _].
  unfold BUFFER_IS_FULL. rewrite bool_decide_eq_true.
  assert (Z.rem (to_write k - to_read k) BUFFER_SIZE = to_write k - to_read k) as ->.
  { unfold BUFFER_SIZE in *. destruct (decide (0 ≤ to_write k - to_read k)).
    - rewrite Z.rem_small by lia. done.
    - rewrite <-(Z.opp_involutive (to_write k - to_read k)).
      rewrite Z.rem_opp_l by lia. rewrite Z.rem_small by lia. done. }
  rewrite Hw in *. kb_lia.
Qed.
End ring.

(** ** Special keys *)

Section special_keys.
Implicit Types (keys : list (Z * Z)) (map : list Z).

(** What the two loops do to entry [j]. *)
Lemma clear_loop_spec n : ∀ i map keys,
  0 ≤ i → (Z.to_nat i + n ≤ length keys)%nat → length map = length keys →
  ∃ map' keys', clear_loop n i map keys = Some (map', keys') ∧
    length map' = length keys ∧ length keys' = length keys ∧
    ∀ j k f, keys !! j = Some (k, f) →
      if decide ((Z.to_nat i ≤ j < Z.to_nat i + n)%nat ∧ k = 0)
      then map' !! j = Some f ∧ keys' !! j = Some (0, NULL)
      else map' !! j = map !! j ∧ keys' !! j = Some (k, f).
Proof.
  induction n as [|n IH]; intros i map keys Hi Hn Hl; cbn [clear_loop].
  { exists map, keys. split_and!; try done. intros j k f Hj. by rewrite decide_False by lia. }
  destruct (lookup_lt_is_Some_2 keys (Z.to_nat i)) as [[k f] Hk]; [lia|]. rewrite Hk. simpl.
  assert (Z.to_nat (i + 1) = S (Z.to_nat i)) as Ei by lia.
  case_decide as Hk0.
  - subst k. destruct (IH (i + 1) (<[Z.to_nat i := f]> map) (<[Z.to_nat i := (0, NULL)]> keys))
      as (map' & keys' & -> & Hm & Hk' & Hj); rewrite ?length_insert; try lia.
    rewrite !length_insert in *. exists map', keys'. split_and!; try done. intros j k g Hjk.
    destruct (decide (j = Z.to_nat i)) as [->|Hne].
    + simplify_eq. rewrite decide_True by lia.
      specialize (Hj (Z.to_nat i) 0 NULL). rewrite list_lookup_insert_eq in Hj by lia.
      specialize (Hj eq_refl). rewrite decide_False in Hj by lia.
      by rewrite list_lookup_insert_eq in Hj by lia.
    + specialize (Hj j k g). rewrite !list_lookup_insert_ne in Hj by done.
      specialize (Hj Hjk). case_decide; case_decide; try done; lia.
  - destruct (IH (i + 1) map keys) as (map' & keys' & -> & Hm & Hk' & Hj); try lia.
    exists map', keys'. split_and!; try done. intros j k' g Hjk.
    specialize (Hj j k' g Hjk). destruct (decide (j = Z.to_nat i)) as [->|Hne].
    + simplify_eq. rewrite decide_False by lia. by rewrite decide_False in Hj by lia.
    + case_decide; case_decide; try done; lia.
Qed.

Lemma restore_loop_spec n : ∀ i map keys,
  0 ≤ i → (Z.to_nat i + n ≤ length keys)%nat → length map = length keys →
  ∃ keys', restore_loop n i map keys = Some keys' ∧ length keys' = length keys ∧
    ∀ j k f, keys !! j = Some (k, f) →
      keys' !! j = if decide ((Z.to_nat i ≤ j < Z.to_nat i + n)%nat ∧ k = 0)
        then (λ g, (0, g)) <$> map !! j else Some (k, f).
Proof.
  induction n as [|n IH]; intros i map keys Hi Hn Hl; cbn [restore_loop].
  { exists keys. split_and!; try done. intros j k f Hj. by rewrite decide_False by lia. }
  destruct (lookup_lt_is_Some_2 keys (Z.to_nat i)) as [[k f] Hk]; [lia|]. rewrite Hk. simpl.
  assert (Z.to_nat (i + 1) = S (Z.to_nat i)) as Ei by lia.
  case_decide as Hk0.
  - subst k. destruct (lookup_lt_is_Some_2 map (Z.to_nat i)) as [g Hg]; [lia|].
    rewrite Hg. simpl. destruct (IH (i + 1) map (<[Z.to_nat i := (0, g)]> keys))
      as (keys' & -> & Hk' & Hj); rewrite ?length_insert; try lia.
    rewrite length_insert in Hk'. exists keys'. split_and!; try done. intros j k h Hjk.
    destruct (decide (j = Z.to_nat i)) as [->|Hne].
    + simplify_eq. rewrite decide_True by lia. rewrite Hg.
      rewrite (Hj (Z.to_nat i) 0 g) by (rewrite list_lookup_insert_eq by lia; done).
      by rewrite decide_False by lia.
    + rewrite (Hj j k h) by (by rewrite list_lookup_insert_ne).
      case_decide; case_decide; try done; lia.
  - destruct (IH (i + 1) map keys) as (keys' & -> & Hk' & Hj); try lia.
    exists keys'. split_and!; try done. intros j k' g Hjk.
    rewrite (Hj j k' g Hjk). destruct (decide (j = Z.to_nat i)) as [->|Hne].
    + simplify_eq. by rewrite !decide_False by lia.
    + case_decide; case_decide; try done; lia.
Qed.

(** Keys a program registers one after another. *)
Fixpoint register_all (regs : list (Z * Z)) (k : keyboard) : option keyboard :=
  match regs with
  | [] => Some k
  | (c, fn) :: regs => '(_, k) ← registerSpecialKey c fn 0 k; register_all regs k
  end.

(** Registering without the kernel's flag touches only entries without it. *)
Definition same_kernel keys keys' : Prop :=
  length keys' = length keys ∧ keys' !! 0%nat = keys !! 0%nat ∧
  ∀ j k f, keys !! j = Some (k, f) →
    keys' !! j = Some (k, f) ∨ (k = 0 ∧ ∃ g, keys' !! j = Some (0, g)).

Lemma register_all_same regs : ∀ k k',
  register_all regs k = Some k' →
  (∀ c f, KeyFnMap k !! c = Some (f, NULL) → f = 0) →
  same_kernel (KeyFnMap k) (KeyFnMap k') ∧ k' = set_KeyFnMap (KeyFnMap k') k.
Proof.
  induction regs as [|[c fn] regs IH]; intros k k' H Hnull; cbn [register_all] in H.
  { simplify_eq. split; [|by destruct k']. split_and!; auto. }
  unfold registerSpecialKey, IS_KEYCODE, ESCAPE_KEY in H.
  destruct (bool_decide (1 ≤ c ≤ F12_KEY)) eqn:Hc; [|by apply IH].
  apply bool_decide_eq_true in Hc.
  destruct (KeyFnMap k !! Z.to_nat c) as [[q f]|] eqn:Hq; [|done]. cbn [mbind option_bind] in H.
  case_decide as Hf; [|by apply IH].
  destruct Hf as [Hf|[_ ->]]; [lia|].
  assert (q = 0) as -> by by eapply Hnull.
  pose proof (lookup_lt_Some _ _ _ Hq) as Hlt.
  destruct (IH _ _ H) as [(Hl & H0 & Hs) Hk]; cbn in *.
  { intros d g. destruct (decide (d = Z.to_nat c)) as [->|].
    - rewrite list_lookup_insert_eq by done. congruence.
    - rewrite list_lookup_insert_ne by done. apply Hnull. }
  rewrite length_insert in Hl. split; [|by rewrite Hk at 1].
  split; [done|]. split.
  - rewrite H0, list_lookup_insert_ne by lia. done.
  - intros j p g Hj. destruct (decide (j = Z.to_nat c)) as [->|].
    + simplify_eq. right. split; [done|].
      destruct (Hs (Z.to_nat c) 0 fn) as [->|[_ ?]]; eauto.
      by rewrite list_lookup_insert_eq.
    + apply Hs. by rewrite list_lookup_insert_ne.
Qed.
(** Saving the programs' keys and restoring them, whatever the programs did to
    entries that are not the kernel's. *)
Lemma clear_restore k map :
  length (KeyFnMap k) = Z.to_nat (F12_KEY - ESCAPE_KEY + 1) →
  length map = length (KeyFnMap k) →
  ∃ map' keys1, clearKeyFnMapNonKernel map k = Some (map', set_KeyFnMap keys1 k) ∧
    (∀ j f, (0 < j)%nat → keys1 !! j = Some (0, f) → f = NULL) ∧
    (∀ j p f, keys1 !! j = Some (p, f) → f = NULL → p ≠ 0 → KeyFnMap k !! j = Some (p, f)) ∧
    ∀ k2, same_kernel keys1 (KeyFnMap k2) →
      restoreKeyFnMapNonKernel map' k2 = Some (set_KeyFnMap (KeyFnMap k) k2).
Proof.
  intros Hl Hm. assert (Z.to_nat (F12_KEY - ESCAPE_KEY) = 87%nat) as En by done.
  assert (Z.to_nat (F12_KEY - ESCAPE_KEY + 1) = 88%nat) as En1 by done.
  assert (Z.to_nat ESCAPE_KEY = 1%nat) as Ee by done.
  destruct (clear_loop_spec (Z.to_nat (F12_KEY - ESCAPE_KEY)) ESCAPE_KEY map (KeyFnMap k))
    as (map' & keys1 & Hc & Hm1 & Hl1 & Hj1); [done|lia|done|].
  exists map', keys1. split.
  { unfold clearKeyFnMapNonKernel. by rewrite Hc. }
  assert (∀ j p f, keys1 !! j = Some (p, f) → ∃ p' f', KeyFnMap k !! j = Some (p', f')) as Hback.
  { intros j p f Hj. apply lookup_lt_Some in Hj. rewrite Hl1 in Hj.
    apply lookup_lt_is_Some_2 in Hj as [[p' f'] ?]. eauto. }
  split.
  { intros j f Hj Hk. destruct (Hback _ _ _ Hk) as (p' & f' & Hk').
    specialize (Hj1 _ _ _ Hk'). apply lookup_lt_Some in Hk' as Hlt.
    case_decide as Hd; destruct Hj1 as [_ Hj1]; rewrite Hk in Hj1; [congruence|].
    exfalso. apply Hd. split; [lia|congruence]. }
  split.
  { intros j p f Hk -> Hp. destruct (Hback _ _ _ Hk) as (p' & f' & Hk').
    specialize (Hj1 _ _ _ Hk'). case_decide as Hd; destruct Hj1 as [_ Hj1]; congruence. }
  intros k2 (Hl2 & H0 & Hs2). unfold restoreKeyFnMapNonKernel.
  destruct (restore_loop_spec (Z.to_nat (F12_KEY - ESCAPE_KEY)) ESCAPE_KEY map' (KeyFnMap k2))
    as (keys3 & -> & Hl3 & Hj3); [done|lia..|]. simpl. do 2 f_equal.
  apply list_eq_same_length with (length (KeyFnMap k)); [done|lia|].
  intros j [p f] [p' f'] Hjl Hj3' Hj0. specialize (Hj1 _ _ _ Hj0).
  destruct (decide (j = 0%nat)) as [->|Hne].
  - rewrite decide_False in Hj1 by lia. destruct Hj1 as [_ Hj1].
    rewrite Hj1 in H0. specialize (Hj3 _ _ _ H0). rewrite decide_False in Hj3 by lia. congruence.
  - destruct (decide (p' = 0)) as [->|Hp].
    + rewrite decide_True in Hj1 by lia. destruct Hj1 as [Hm' Hj1].
      destruct (Hs2 _ _ _ Hj1) as [Hj2|[_ [g Hj2]]]; specialize (Hj3 _ _ _ Hj2);
        rewrite decide_True in Hj3 by lia; rewrite Hm' in Hj3; simpl in Hj3; congruence.
    + rewrite decide_False in Hj1 by lia. destruct Hj1 as [_ Hj1].
      destruct (Hs2 _ _ _ Hj1) as [Hj2|[? _]]; [|done].
      specialize (Hj3 _ _ _ Hj2). rewrite decide_False in Hj3 by lia. congruence.
Qed.
End special_keys.

(** ** The handler *)
Section handler.
Context {St : Type} `{MemoryManager St}.
Abbreviation machine := (machine St).
Implicit Types (m : machine) (k : keyboard).

Lemma console_ok_if b s : console_ok s → console_ok (set_sc_if b s).
Proof. intros []. by split. Qed.

(** [add_plain] on a buffer with room: the character is stored, echoed if
    asked, and the semaphore gets a unit. *)
Lemma wp_add_plain m l c show T R q L X W (Q : unit → machine → Prop) :
  let k := m_kbd m in
  typed k l → Z.of_nat (length l) < BUFFER_SIZE - 1 →
  (show = true → console_ok (m_scr m) ∧ 0 ≤ c < 128) →
  sem_inv (m_k m) T q L X W → sched_inv (m_k m) T R → buffer_sem k ∈ L →
  (∀ w ws, W (buffer_sem k) = w :: ws → ∃ p P, waiter (m_k m) w p P) →
  (mm_alloc (k_mm (m_k m)) 8).1 ≠ NULL →
  Z.land (keyboard_options k) MODIFY_BUFFER ≠ 0 →
  (∀ m' k' s', push_char c k = Some k' → typed k' (l ++ [c]) → m_kbd m' = k' →
     (if show then putChar c (load_screen m) = Some s' ∧ console_ok s' else s' = m_scr m) →
     m_scr m' = s' → posted (m_k m) T R q L X W (buffer_sem k) (m_k m') → Q tt m') →
  wp (wakes W (buffer_sem k)) (add_plain c show) Q m.
Proof.
  intros k HT Hl Hshow Hse Hsc Ha Hw Hmm Hopt HQ.
  pose proof (typed_write_range _ _ HT) as Hwr. unfold add_plain.
  destruct (push_char c k) as [k'|] eqn:Hp;
    [|unfold push_char in Hp; by rewrite decide_True in Hp by lia].
  pose proof (typed_push _ _ _ _ HT Hp) as HT'. rewrite decide_False in HT' by lia.
  destruct (push_char_frame _ _ _ Hp) as (Hb & Ho & _).
  wp_step. apply wp_get_kbd. cbv beta. wp_step. eapply wp_kopt; [exact Hp|].
  wp_step. apply wp_on_kbd. cbv beta. wp_step.
  set (m1 := set_m_kbd k' m).
  assert (∃ m2 s' b, m_k m2 = set_k_if b (m_k m) ∧
    m_kbd m2 = k' ∧ m_scr m2 = s' ∧
    (if show then putChar c (load_screen m) = Some s' ∧ console_ok s' else s' = m_scr m) ∧
    ∀ pan (Q' : unit → machine → Prop), Q' tt m2 →
      wp pan (kwhen show (on_screen (putChar c))) Q' m1)
    as (m2 & s' & b & Ek & Ekb & Es & Hs' & Hrun).
  { destruct show.
    - destruct (Hshow eq_refl) as [Hok Hc].
      destruct (putChar_ok_gen (load_screen m) c) as (s' & Hput & Hok' & _);
        [by apply console_ok_if|done|].
      exists (store_screen s' m1), s', (sc_if s'). split_and!; try done.
      intros pan Q' HQ'. by eapply wp_on_screen.
    - exists m1, (m_scr m), (k_if (m_k m)). split_and!; try done. by destruct m as [[]]. }
  apply Hrun. rewrite Ho. unfold kwhen. rewrite bool_decide_eq_false_2 by done. simpl.
  wp_step. apply wp_in_kernel. rewrite Hb.
  assert (sem_inv (m_k m2) T q L X W) as Hse2.
  { rewrite Ek. eapply (sem_inv_frame _ _ T T); try done. intros i _. auto. }
  assert (sched_inv (m_k m2) T R) as Hsc2 by (rewrite Ek; by apply sched_inv_if).
  assert (∀ w p P, waiter (m_k m2) w p P ↔ waiter (m_k m) w p P) as Hwt.
  { intros w p P. rewrite Ek. by split; intros []. }
  eapply wp_mono; [apply (semPost_posted (m_k m2) T R q L X W (buffer_sem k)); try done|].
  { by rewrite Ek. }
  { intros w ws HW. destruct (Hw w ws HW) as (p & P & HP). exists p, P. by apply Hwt. }
  intros r s2 (_ & Hpost). apply wp_ret. apply (HQ (set_m_k s2 m2) k' s'); try done.
  revert Hpost. unfold posted. cbn [m_k set_m_k].
  assert (k_procs (m_k m2) = k_procs (m_k m)) as -> by (by rewrite Ek).
  destruct (W (buffer_sem k)) as [|w ws]; [done|].
  intros (p & P & T' & R' & HP & Hrest). exists p, P, T', R'. by rewrite <-Hwt.
Qed.

(** What a printable key stands for is an ASCII code, and printable keys are
    not modifiers. *)
Definition key_table_ok : bool :=
  forallb (λ c, forallb (λ shift, forallb (λ caps,
    implb (IS_PRINTABLE shift c)
      (match translate c (set_caps caps (set_shift shift keyboard_init)) with
       | Some a => bool_decide (0 ≤ a < 128 ∧ (a ≠ TABULATOR_KEY ∨ c = TABULATOR_KEY) ∧
           a ≠ TABULATOR_CHAR)
       | None => false
       end && bool_decide (makeCode c = c) && bool_decide (isPressed c = 1) &&
       bool_decide (c ∉ [SHIFT_KEY_L; SHIFT_KEY_R; CONTROL_KEY_L; CAPS_LOCK_KEY])))
    [0; 1]) [0; 1]) (Z.of_nat <$> seq 0 89).

Definition bit (z : Z) : Prop := z = 0 ∨ z = 1.

Lemma printable_key k c a :
  bit (SHIFT_KEY_PRESSED k) → bit (CAPS_LOCK_KEY_PRESSED k) →
  IS_PRINTABLE (SHIFT_KEY_PRESSED k) c = true → translate c k = Some a →
  0 ≤ a < 128 ∧ makeCode c = c ∧ isPressed c = 1 ∧ IS_KEYCODE c = true ∧
  track_modifiers c k = k ∧ (c ≠ TABULATOR_KEY → a ∉ [TABULATOR_KEY; TABULATOR_CHAR]).
Proof.
  intros Hs Hc Hp Ht.
  assert (IS_KEYCODE c = true) as Hk by (unfold IS_PRINTABLE in Hp; by destruct (IS_KEYCODE c)).
  assert (key_table_ok = true) as Hok by (vm_compute; reflexivity).
  unfold key_table_ok in Hok. rewrite forallb_forall in Hok.
  assert (In c (Z.of_nat <$> seq 0 89)) as Hin.
  { unfold IS_KEYCODE, ESCAPE_KEY, F12_KEY in Hk. apply bool_decide_eq_true in Hk.
    apply list_elem_of_In, list_elem_of_fmap. exists (Z.to_nat c).
    split; [lia|]. apply elem_of_seq. lia. }
  specialize (Hok c Hin). rewrite forallb_forall in Hok.
  specialize (Hok (SHIFT_KEY_PRESSED k)). rewrite forallb_forall in Hok.
  assert (∀ z, bit z → In z [0; 1]) as Hbit.
  { intros z [->| ->]; simpl; auto. }
  specialize (Hok (Hbit _ Hs) (CAPS_LOCK_KEY_PRESSED k) (Hbit _ Hc)).
  rewrite Hp in Hok. cbn [implb] in Hok.
  change (translate c (set_caps _ _)) with (translate c k) in Hok.
  rewrite Ht in Hok. rewrite !andb_true_iff, !bool_decide_eq_true in Hok.
  destruct Hok as [[[(Ha & Ht1 & Ht2) Hm] Hpr] Hne]. rewrite !not_elem_of_cons in Hne.
  split_and!; try done; try apply Ha.
  - unfold track_modifiers. rewrite Hm. by rewrite !decide_False by tauto.
  - intros Hct. rewrite !not_elem_of_cons. split_and!; [tauto|done|apply not_elem_of_nil].
Qed.

(** What a key adds to the input: the return key a line feed, unless the
    input ends with one already. *)
Definition key_adds (l : list Z) (c : Z) : option Z :=
  if decide (c = RETURN_KEY)
  then if decide (last l = Some NEW_LINE_CHAR) then None else Some NEW_LINE_CHAR
  else Some c.

Lemma last_is_newline k l : typed k l →
  (to_write k ≠ to_read k ∧ last_char k = Some NEW_LINE_CHAR) ↔ last l = Some NEW_LINE_CHAR.
Proof.
  intros HT. rewrite (typed_empty _ _ HT).
  destruct l as [|c l _] using rev_ind; [cbn; naive_solver|].
  rewrite (typed_last _ _ _ HT), last_snoc. split; [by intros [_ ?]|].
  intros ?. split; [by destruct l|done].
Qed.

(** The machine after a printable key. *)
Definition key_typed m (l : list Z) (c : Z) (show : bool) T R q L X W m' : Prop :=
  match key_adds l c with
  | None => typed (m_kbd m') l ∧ m_scr m' = m_scr m ∧ m_k m' = m_k m
  | Some c => typed (m_kbd m') (l ++ [c]) ∧
      (if show then putChar c (load_screen m) = Some (m_scr m') ∧ console_ok (m_scr m')
       else m_scr m' = m_scr m) ∧
      posted (m_k m) T R q L X W (buffer_sem (m_kbd m)) (m_k m')
  end.

Lemma wp_keyboardHandler call_fn m l scancode c kf T R q L X W :
  let k := m_kbd m in
  let show := negb (bool_decide (Z.land (keyboard_options k) SHOW_BUFFER_WHILE_TYPING = 0)) in
  typed k l → Z.of_nat (length l) < BUFFER_SIZE - 1 →
  (show = true → console_ok (m_scr m)) →
  sem_inv (m_k m) T q L X W → sched_inv (m_k m) T R → buffer_sem k ∈ L →
  (∀ w ws, W (buffer_sem k) = w :: ws → ∃ p P, waiter (m_k m) w p P) →
  (mm_alloc (k_mm (m_k m)) 8).1 ≠ NULL →
  Z.land (keyboard_options k) MODIFY_BUFFER ≠ 0 →
  bit (SHIFT_KEY_PRESSED k) → bit (CAPS_LOCK_KEY_PRESSED k) → CONTROL_KEY_PRESSED k = 0 →
  IS_PRINTABLE (SHIFT_KEY_PRESSED k) scancode = true → translate scancode k = Some c →
  scancode ≠ TABULATOR_KEY → KeyFnMap k !! Z.to_nat scancode = Some (kf, NULL) →
  wp (wakes W (buffer_sem k)) (keyboardHandler call_fn scancode) (λ r m', r = scancode ∧
    key_typed m l c show T R q L X W m') m.
Proof.
  intros k show HT Hl Hshow Hse Hsc Ha Hw Hmm Hopt Hs Hc Hctl Hpr Htr Htab Hkey.
  destruct (printable_key k scancode c Hs Hc Hpr Htr) as (Hascii & Hmk & Hpre & Hkc & Htm & Hne).
  specialize (Hne Htab). rewrite !not_elem_of_cons in Hne. destruct Hne as (Hn2 & Hn3 & _).
  unfold keyboardHandler. wp_step. apply wp_get_kbd. cbn [id]. fold k.
  destruct (BUFFER_IS_FULL k) eqn:Hfull.
  { apply (BUFFER_IS_FULL_spec k l HT) in Hfull. lia. }
  wp_step. apply wp_on_kbd. fold k. rewrite Htm. cbv beta. wp_step. apply wp_get_kbd.
  cbn [id m_kbd set_m_kbd]. rewrite Hkc, Hpre. simpl.
  rewrite (decide_False (P := _ ∧ makeCode scancode = C_KEY)) by tauto.
  rewrite (decide_False (P := _ ∧ makeCode scancode = D_KEY)) by tauto.
  rewrite decide_True by done. wp_step.
  unfold buffer_key. wp_step. apply wp_get_kbd. cbn [id m_kbd set_m_kbd]. wp_step.
  eapply wp_kopt; [exact Htr|]. rewrite Hpr. fold show.
  assert (∀ c' (Q : unit → machine → Prop), key_adds l c = Some c' → 0 ≤ c' < 128 → c' ≠ TABULATOR_CHAR →
    (∀ m', key_typed m l c show T R q L X W m' → KeyFnMap (m_kbd m') = KeyFnMap k → Q tt m') →
    wp (wakes W (buffer_sem k)) (addCharToBuffer c' show) Q (set_m_kbd k m)) as Hadd.
  { intros c' Q Ec Hc' Hct HQ. unfold addCharToBuffer. rewrite decide_True by done.
    apply (wp_add_plain (set_m_kbd k m) l c' show T R q L X W); try done.
    { intros E. split; [by apply Hshow|done]. }
    intros m' k' s' Hp HT' Ek Hscr Es Hpost. apply HQ.
    - unfold key_typed. rewrite Ec, Ek, Es. by destruct show.
    - rewrite Ek. by apply push_char_frame in Hp as (_ & _ & ->). }
  assert (∀ m' (b : bool), KeyFnMap (m_kbd m') = KeyFnMap k → key_typed m l c show T R q L X W m' →
    wp (wakes W (buffer_sem k)) (_ ← kwhen b (special_key call_fn scancode); mret scancode)
      (λ r m', r = scancode ∧ key_typed m l c show T R q L X W m') m') as Hspecial.
  { intros m' [] Hk Hm'; [|cbn [kwhen]; wp_step; wp_step; by wp_step]. wp_step. unfold kwhen, special_key.
    wp_step. apply wp_get_kbd. cbn [id]. rewrite Hk. wp_step.
    eapply wp_kopt; [exact Hkey|]. cbv beta iota. rewrite decide_True by done.
    wp_step. by wp_step. }
  unfold key_adds in Hadd. destruct (decide (c = RETURN_KEY)) as [->|Hret].
  - pose proof (last_is_newline k l HT) as Hlast.
    destruct (decide (last l = Some NEW_LINE_CHAR)) as [E|E].
    + rewrite decide_True by tauto. wp_step. apply (Hspecial _ false); [done|].
      unfold key_typed, key_adds. rewrite !decide_True by done. by destruct m.
    + rewrite decide_False by tauto. wp_step. apply (Hadd NEW_LINE_CHAR); [done|done|done|].
      intros m' Hm' Hk. wp_step. by apply Hspecial.
  - rewrite decide_False by done. wp_step. apply (Hadd c); [done|done|done|].
    intros m' Hm' Hk. wp_step. by apply Hspecial.
Qed.
End handler.

(** ** Reading *)
Section reader.
Context {St : Type} `{MemoryManager St}.
Abbreviation machine := (machine St).
Implicit Types (m : machine) (k : keyboard).

(** A reader that has nothing to wait for. *)
Definition no_wait (ops : Z) (l : list Z) : Prop :=
  Z.land (Z.lor ops MODIFY_BUFFER) AWAIT_RETURN_KEY = 0 ∨
  ∃ l0 c, l = l0 ++ [c] ∧ (c = NEW_LINE_CHAR ∨ c = EOF).

Lemma wp_await_ready pan m fuel ops l (Q : unit → machine → Prop) :
  let k := m_kbd m in
  typed k l → l ≠ [] → keyboard_options k = Z.lor ops MODIFY_BUFFER → no_wait ops l →
  Q tt m → wp pan (await_loop (S fuel)) Q m.
Proof.
  intros k HT Hl Ho Hw HQ. cbn [await_loop]. wp_step. apply wp_get_kbd. cbn [id]. fold k.
  rewrite decide_False by (rewrite (typed_empty _ _ HT); done). rewrite Ho.
  destruct Hw as [->|(l0 & c & -> & Hc)].
  - by rewrite decide_False by tauto.
  - case_decide; [|done]. wp_step. eapply wp_kopt; [by eapply typed_last|].
    by rewrite decide_True.
Qed.

Lemma getKeyboardCharacter_spec m fuel ops c l T R q L X W :
  let k := m_kbd m in
  typed k (c :: l) → no_wait ops (c :: l) →
  sem_inv (m_k m) T q L X W → sched_inv (m_k m) T R → keyboard_mutex k ∈ L →
  s_value (X (keyboard_mutex k)) ≠ 0 → W (keyboard_mutex k) = [] →
  (mm_alloc (k_mm (m_k m)) 8).1 ≠ NULL →
  (∀ r s', semWait (keyboard_mutex k) (m_k m) = Ret r s' → (mm_alloc (k_mm s') 8).1 ≠ NULL) →
  wp false (getKeyboardCharacter (S fuel) ops) (λ r m', r = c ∧ typed (m_kbd m') l ∧
    keyboard_options (m_kbd m') = 0 ∧ sem_inv (m_k m') T q L X W ∧ sched_inv (m_k m') T R ∧
    m_scr m' = m_scr m) m.
Proof.
  intros k HT Hw Hse Hsc Ha Hv Hq Hmm Hmm2. unfold getKeyboardCharacter.
  destruct (typed_pop _ _ _ HT) as [Hc HT'].
  wp_step. apply wp_on_kbd. cbv beta. wp_step.
  eapply (wp_await_ready _ _ fuel ops (c :: l)); try done.
  { by eapply typed_ext. }
  wp_step. apply wp_on_kbd. cbv beta. wp_step. apply wp_get_kbd. cbn [id]. wp_step.
  apply wp_in_kernel. cbn.
  pose proof (semWait_take_spec (m_k m) T R q L X W (keyboard_mutex k) Hse Hsc Ha Hmm Hv) as Hwait.
  apply wp_inv in Hwait as (r & s1 & Hrun & _ & Hse1 & Hsc1 & _).
  eapply wp_intro; [exact Hrun|]. wp_step. apply wp_get_kbd. cbn. wp_step.
  eapply wp_kopt; [exact Hc|]. wp_step. apply wp_on_kbd. cbv beta. wp_step. apply wp_get_kbd.
  cbn. wp_step. apply wp_in_kernel. cbn. fold k.
  eapply wp_mono; [apply (semPost_add_spec s1 T R q L _ W _ Hse1 Hsc1 Ha (Hmm2 _ _ Hrun) Hq)|].
  intros r2 s2 (_ & Hse2 & Hsc2 & _). split; [done|].
  split; [by eapply typed_ext|]. split; [done|]. split; [|done].
  eapply sem_inv_ext; [..|exact Hse2]; [|done]. intros b Hb. cbn.
  unfold fupd. case_decide; [|done]. subst b. rewrite decide_True by done.
  pose proof (se_sem _ _ _ _ _ _ Hse _ Ha) as (_ & _ & Hr).
  destruct (X (keyboard_mutex k)); simpl in *.
  rewrite Z.sub_add, wrapu_small by lia. done.
Qed.

(** ** A tabulator without echo *)

Lemma lift_ret {A} (c : K (kst St) A) m a m' :
  in_kernel c m = Ret a m' → ∃ s, m' = set_m_k s m.
Proof. unfold in_kernel. destruct (c (m_k m)); simpl; try done. intros [= _ <-]. eauto. Qed.

Lemma add_plain_ret c m m' :
  add_plain c false m = Ret tt m' →
  m_scr m' = m_scr m ∧ push_char c (m_kbd m) = Some (m_kbd m').
Proof.
  unfold add_plain, get_kbd, kgets, kopt, on_kbd, kmodify, kwhen, mbind, K_bind. simpl.
  destruct (push_char c (m_kbd m)) as [k'|] eqn:Hp; [|done]. simpl.
  destruct (negb _); simpl.
  - destruct (in_kernel _ _) as [r m1| | | |] eqn:E; try done. simpl.
    apply lift_ret in E as [s ->]. unfold mret, K_ret. intros [= <-]. by rewrite <-Hp.
  - unfold mret, K_ret. intros [= <-]. by rewrite <-Hp.
Qed.

Lemma add_tab_stuck fuel : ∀ m m' l,
  typed (m_kbd m) l → to_read (m_kbd m) ≠ 0 →
  Z.rem (getXBufferPosition (m_scr m))
    (TAB_SIZE * DEFAULT_GLYPH_SIZE_X * getFontSize (m_scr m)) ≠ 0 →
  add_tab fuel false m ≠ Ret tt m'.
Proof.
  induction fuel as [|fuel IH]; intros m m' l HT Hr Hx; cbn [add_tab]; [done|].
  unfold mbind at 1, K_bind at 1.
  destruct (add_plain 32 false m) as [[] m1| | | |] eqn:E; try done.
  destruct (add_plain_ret _ _ _ E) as [Es Hp].
  pose proof (typed_push _ _ _ _ HT Hp) as HT1.
  assert (to_read (m_kbd m1) = to_read (m_kbd m)) as Er.
  { clear HT1. unfold push_char in Hp. case_decide; [|done]. injection Hp as E1; rewrite <-E1; reflexivity. }
  unfold get_kbd, kgets, mbind, K_bind. simpl.
  assert (BUFFER_IS_FULL (m_kbd m1) = false) as ->.
  { apply not_true_is_false. rewrite (BUFFER_IS_FULL_spec _ _ HT1). lia. }
  rewrite decide_True by (by rewrite Es).
  eapply IH; [exact HT1|by rewrite Er|by rewrite Es].
Qed.
End reader.

(** * Properties *)

(** C33: the test for a full buffer recognises a ring of 1023 characters only
    if none has been read since the indices were last zero; otherwise the
    next character is stored over the ring and the whole input is lost. *)
Theorem BUFFER_IS_FULL_misses k l (HT : typed k l) :
  (BUFFER_IS_FULL k = true ↔ Z.of_nat (length l) = BUFFER_SIZE - 1 ∧ to_read k = 0) ∧
  ∀ c, ∃ k', push_char c k = Some k' ∧
    typed k' (if decide (Z.of_nat (length l) = BUFFER_SIZE - 1) then [] else l ++ [c]).
Proof.
  split; [by apply BUFFER_IS_FULL_spec|]. intros c.
  pose proof (typed_write_range _ _ HT) as Hwr. eexists.
  assert (push_char c k = Some (set_to_write (INC_MOD (to_write k) BUFFER_SIZE)
    (set_buffer (<[Z.to_nat (to_write k):=c]> (kb_buffer k)) k))) as E
    by (unfold push_char; by rewrite decide_True by lia).
  split; [exact E|]. by eapply typed_push.
Qed.

(** Clearing the programs' special keys, letting a program register keys
    of its own in any order, and restoring from the saved map gives back the
    table of before; meanwhile the program sees no handler but the
    kernel's. *)
Theorem special_keys_roundtrip k map
    (Hl : length (KeyFnMap k) = Z.to_nat (F12_KEY - ESCAPE_KEY + 1))
    (Hm : length map = length (KeyFnMap k))
    (Hnull : ∀ c f, KeyFnMap k !! c = Some (f, NULL) → f = 0) :
  ∃ map' k1, clearKeyFnMapNonKernel map k = Some (map', k1) ∧
    (∀ j f, (0 < j)%nat → KeyFnMap k1 !! j = Some (0, f) → f = NULL) ∧
    ∀ regs k2, register_all regs k1 = Some k2 → restoreKeyFnMapNonKernel map' k2 = Some k.
Proof.
  destruct (clear_restore k map Hl Hm) as (map' & keys1 & Hc & Hno & Hsame & Hr).
  exists map', (set_KeyFnMap keys1 k). split; [done|]. split; [done|].
  intros regs k2 Hreg. destruct (register_all_same _ _ _ Hreg) as [Hs ->].
  - intros j f Hk. cbn in Hk. destruct (decide (f = 0)); [done|].
    by eapply Hnull, (Hsame j f NULL).
  - rewrite Hr by exact Hs. by destruct k.
Qed.

Section properties.
Context {St : Type} `{MemoryManager St}.
Abbreviation machine := (machine St).
Implicit Types (m : machine) (k : keyboard).

(** C24: pressing a printable key while a program reads appends the key's
    character (with shift and caps lock applied, the return key as a line
    feed) to the input queue, echoes it on a console that stays well formed if
    the program asked for echo, and posts the semaphore the readers wait on:
    the reader that has waited longest becomes READY at the end of its ready
    queue, or, when none waits, the semaphore has a unit more.  A return key
    after a line feed that was not read yet is ignored.  Only the tabulator is
    left out, whose loop types several characters. *)
Theorem keyboardHandler_types call_fn m l scancode c kf T R q L X W
    (k := m_kbd m)
    (show := negb (bool_decide (Z.land (keyboard_options k) SHOW_BUFFER_WHILE_TYPING = 0)))
    (HT : typed k l) (Hl : Z.of_nat (length l) < BUFFER_SIZE - 1)
    (Hscr : show = true → console_ok (m_scr m))
    (Hse : sem_inv (m_k m) T q L X W) (Hsc : sched_inv (m_k m) T R) (Ha : buffer_sem k ∈ L)
    (Hw : ∀ w ws, W (buffer_sem k) = w :: ws → ∃ p P, waiter (m_k m) w p P)
    (Hmm : (mm_alloc (k_mm (m_k m)) 8).1 ≠ NULL)
    (Hopt : Z.land (keyboard_options k) MODIFY_BUFFER ≠ 0)
    (Hs : bit (SHIFT_KEY_PRESSED k)) (Hc : bit (CAPS_LOCK_KEY_PRESSED k))
    (Hctl : CONTROL_KEY_PRESSED k = 0)
    (Hpr : IS_PRINTABLE (SHIFT_KEY_PRESSED k) scancode = true)
    (Htr : translate scancode k = Some c) (Htab : scancode ≠ TABULATOR_KEY)
    (Hkey : KeyFnMap k !! Z.to_nat scancode = Some (kf, NULL)) :
  wp (wakes W (buffer_sem k)) (keyboardHandler call_fn scancode) (λ r m', r = scancode ∧
    key_typed m l c show T R q L X W m') m.
Proof. by eapply wp_keyboardHandler. Qed.

(** A reader that has nothing to wait for (input is there, and its last
    character ends the line if the reader asked for whole lines) returns the
    oldest character of the input, removes just that one, turns echo off, and
    leaves semaphores and scheduler as they were. *)
Theorem getKeyboardCharacter_takes m fuel ops c l T R q L X W (k := m_kbd m)
    (HT : typed k (c :: l)) (Hw : no_wait ops (c :: l))
    (Hse : sem_inv (m_k m) T q L X W) (Hsc : sched_inv (m_k m) T R)
    (Ha : keyboard_mutex k ∈ L) (Hv : s_value (X (keyboard_mutex k)) ≠ 0)
    (Hq : W (keyboard_mutex k) = []) (Hmm : (mm_alloc (k_mm (m_k m)) 8).1 ≠ NULL)
    (Hmm2 : ∀ r s', semWait (keyboard_mutex k) (m_k m) = Ret r s' →
      (mm_alloc (k_mm s') 8).1 ≠ NULL) :
  wp false (getKeyboardCharacter (S fuel) ops) (λ r m', r = c ∧ typed (m_kbd m') l ∧
    keyboard_options (m_kbd m') = 0 ∧ sem_inv (m_k m') T q L X W ∧ sched_inv (m_k m') T R ∧
    m_scr m' = m_scr m) m.
Proof. by apply (getKeyboardCharacter_spec m fuel ops c l T R q L X W). Qed.

(** A tabulator typed while echo is off, once some input has been read
    and the cursor is not at a tab stop, never returns, with any number of
    rounds: no cursor moves, and the ring is never found full. *)
Theorem addCharToBuffer_tab_hangs m m' l fuel (HT : typed (m_kbd m) l)
    (Hr : to_read (m_kbd m) ≠ 0)
    (Hx : Z.rem (getXBufferPosition (m_scr m))
      (TAB_SIZE * DEFAULT_GLYPH_SIZE_X * getFontSize (m_scr m)) ≠ 0) :
  add_tab fuel false m ≠ Ret tt m' ∧ addCharToBuffer TABULATOR_CHAR false m ≠ Ret tt m'.
Proof.
  split; [by apply (add_tab_stuck fuel m m' l)|]. unfold addCharToBuffer.
  rewrite decide_False by tauto. by apply (add_tab_stuck tab_fuel m m' l).
Qed.

(** The table of special keys has an entry less than its indices need:
    pressing F12 (scan code 0x58) reads past it, when no program reads. *)
Theorem keyboardHandler_F12_undefined call_fn m (k := m_kbd m)
    (Hl : length (KeyFnMap k) = Z.to_nat (F12_KEY - ESCAPE_KEY + 1))
    (Hf : BUFFER_IS_FULL k = false) (Ho : keyboard_options k = 0) :
  keyboardHandler call_fn F12_KEY m = Undefined.
Proof.
  unfold keyboardHandler, special_key, get_kbd, on_kbd, kgets, kmodify, kopt, mbind, K_bind.
  simpl. fold k. rewrite Hf. simpl.
  change (track_modifiers F12_KEY (m_kbd m)) with k.
  rewrite !(decide_False (P := _ ∧ 88 = _)) by (intros [_ E]; by vm_compute in E).
  rewrite Ho. unfold kwhen, mret, K_ret.
  rewrite (decide_False (P := Z.land 0 MODIFY_BUFFER ≠ 0)) by (by vm_compute).
  cbn -[lookup Z.to_nat F12_KEY].
  rewrite lookup_ge_None_2; [done|]. fold k. rewrite Hl. by vm_compute.
Qed.
End properties.

(** ** A machine for the witnesses *)
Section demo.
Definition kbd_demo (l : list Z) (ops : Z) : keyboard :=
  Keyboard 600 600 0 0 0 (l ++ replicate (Z.to_nat BUFFER_SIZE - length l) 0)
    (Z.of_nat (length l)) 0 ops (KeyFnMap keyboard_init).
Definition machine_demo (k : keyboard) : machine ff_state :=
  Machine sem_kst console_demo k 0 0 0 ∅ ∅ [] 0 (0, 0, 0) [].

Lemma kbd_demo_typed l ops : (length l < 1024)%nat → typed (kbd_demo l ops) l.
Proof.
  intros Hl. split; cbn [kb_buffer to_read to_write kbd_demo]; try done.
  - rewrite length_app, length_replicate. unfold BUFFER_SIZE. lia.
  - unfold BUFFER_SIZE. lia.
  - rewrite Z.mod_small; unfold BUFFER_SIZE; lia.
  - intros i c Hi. apply lookup_lt_Some in Hi as ?.
    rewrite Z.mod_small by (unfold BUFFER_SIZE; lia). rewrite Z.add_0_l, Nat2Z.id.
    by apply lookup_app_l_Some.
Qed.

(** A ring that wraps: 1023 characters from index 5 on. *)
Definition kbd_full : keyboard :=
  Keyboard 600 600 0 0 0 (replicate 1024 97) 4 5 0 (KeyFnMap keyboard_init).

Lemma kbd_full_typed : typed kbd_full (replicate 1023 97).
Proof.
  split; cbn [kb_buffer to_read to_write kbd_full]; try done.
  intros i c [-> Hi]%lookup_replicate. apply lookup_replicate. split; [done|]. kb_lia.
Qed.

Lemma BUFFER_IS_FULL_misses_witness :
  (BUFFER_IS_FULL kbd_full = true ↔
     Z.of_nat (length (replicate 1023 97)) = 1023 ∧ 5 = 0) ∧
  ∀ c, ∃ k', push_char c kbd_full = Some k' ∧
    typed k' (if decide (Z.of_nat (length (replicate 1023 97)) = 1023) then []
              else replicate 1023 97 ++ [c]).
Proof. exact (BUFFER_IS_FULL_misses kbd_full _ kbd_full_typed). Defined.

(** F1 is the kernel's, F2 a program's. *)
Definition kbd_keys : keyboard :=
  set_KeyFnMap (<[59%nat := (1, 4096)]> (<[60%nat := (0, 8192)]> (KeyFnMap keyboard_init)))
    keyboard_init.

Lemma special_keys_roundtrip_witness :
  ∃ map' k1, clearKeyFnMapNonKernel (replicate 88 0) kbd_keys = Some (map', k1) ∧
    (∀ j f, (0 < j)%nat → KeyFnMap k1 !! j = Some (0, f) → f = NULL) ∧
    ∀ regs k2, register_all regs k1 = Some k2 →
      restoreKeyFnMapNonKernel map' k2 = Some kbd_keys.
Proof.
  refine (special_keys_roundtrip kbd_keys (replicate 88 0) _ _ _);
    [by vm_compute|by vm_compute|].
  intros c f Hc. unfold kbd_keys in Hc. cbn [KeyFnMap set_KeyFnMap keyboard_init] in Hc.
  apply list_lookup_insert_Some in Hc as [(_ & E & _)|[_ Hc]]; [done|].
  apply list_lookup_insert_Some in Hc as [(_ & E & _)|[_ Hc]]; [done|].
  apply lookup_replicate in Hc as [E _]. congruence.
Defined.

(** A reader, process 3, waits on semaphore 700. *)
Definition kbd_waiting (l : list Z) (ops : Z) : keyboard := set_sems 700 600 (kbd_demo l ops).

Lemma demo_waiter w ws : sem_W 700 = w :: ws → ∃ p P, waiter sem_kst w p P.
Proof.
  intros [= <- <-]. exists 3000, (demo_pcb 3 BLOCKED 30000). by split; vm_compute.
Qed.

(** The key A, echoed, when nobody waits; the return key, not echoed, when a
    reader does. *)
Lemma keyboardHandler_types_witness :
  wp false (keyboardHandler (λ _ _, undefined) 30) (λ r m', r = 30 ∧
    typed (m_kbd m') [104; 97] ∧
    (putChar 97 (load_screen (machine_demo (kbd_demo [104] 5))) = Some (m_scr m') ∧
     console_ok (m_scr m')) ∧
    posted sem_kst demo_T no_ready 510 sem_L sem_X sem_W 600 (m_k m'))
    (machine_demo (kbd_demo [104] 5)) ∧
  wp true (keyboardHandler (λ _ _, undefined) 28) (λ r m', r = 28 ∧
    typed (m_kbd m') [104; 10] ∧ m_scr m' = console_demo ∧
    posted sem_kst demo_T no_ready 510 sem_L sem_X sem_W 700 (m_k m'))
    (machine_demo (kbd_waiting [104] 4)).
Proof.
  split.
  - refine (keyboardHandler_types (λ _ _, undefined) (machine_demo (kbd_demo [104] 5)) [104] 30 97 0
      demo_T no_ready 510 sem_L sem_X sem_W (kbd_demo_typed _ _ _) _ (λ _, console_demo_ok)
      sem_kst_inv sem_kst_sched _ _ _ _ (or_introl eq_refl) (or_introl eq_refl) eq_refl _ _ _ _).
    3: apply list_elem_of_here.
    1: simpl; lia.
    all: by vm_compute.
  - refine (keyboardHandler_types (λ _ _, undefined) (machine_demo (kbd_waiting [104] 4)) [104] 28 28 0
      demo_T no_ready 510 sem_L sem_X sem_W (typed_ext _ _ _ (kbd_demo_typed [104] 4 _) _ _ _) _ _
      sem_kst_inv sem_kst_sched _ demo_waiter _ _ (or_introl eq_refl) (or_introl eq_refl) eq_refl _ _ _ _).
    all: first [done|apply list_elem_of_further, list_elem_of_here|by vm_compute|simpl; lia].
Defined.

Lemma getKeyboardCharacter_takes_witness :
  wp false (getKeyboardCharacter 1 AWAIT_RETURN_KEY) (λ r m', r = 104 ∧
    typed (m_kbd m') [10] ∧ keyboard_options (m_kbd m') = 0 ∧
    sem_inv (m_k m') demo_T 510 sem_L sem_X sem_W ∧ sched_inv (m_k m') demo_T no_ready ∧
    m_scr m' = console_demo) (machine_demo (kbd_demo [104; 10] 0)).
Proof.
  refine (getKeyboardCharacter_takes (machine_demo (kbd_demo [104; 10] 0)) 0 AWAIT_RETURN_KEY
    104 [10] demo_T no_ready 510 sem_L sem_X sem_W (kbd_demo_typed _ _ _) _ sem_kst_inv
    sem_kst_sched _ _ _ _ _).
  3: apply list_elem_of_here.
  3-5: by vm_compute.
  - simpl. lia.
  - right. exists [104], 10. auto.
  - assert (match semWait 600 sem_kst with
            | Ret _ s' => bool_decide ((mm_alloc (k_mm s') 8).1 ≠ NULL)
            | _ => true end = true) as E by by vm_compute.
    intros r s' Hw. cbn in Hw. rewrite Hw in E.
    exact (proj1 (bool_decide_eq_true _) E).
Defined.

(** Some input has been read, and the cursor is after one character. *)
Definition kbd_read : keyboard := set_to_read 1 (kbd_demo [104] 0).

Lemma kbd_read_typed : typed kbd_read [].
Proof.
  apply (typed_ext (set_to_read (INC_MOD 0 BUFFER_SIZE) (kbd_demo [104] 0))); [|done..].
  eapply typed_pop, kbd_demo_typed. simpl. lia.
Qed.

Lemma addCharToBuffer_tab_hangs_witness :
  let m := set_m_scr (set_x 8 console_demo) (machine_demo kbd_read) in
  add_tab 7 false m ≠ Ret tt m ∧ addCharToBuffer TABULATOR_CHAR false m ≠ Ret tt m.
Proof.
  refine (addCharToBuffer_tab_hangs (set_m_scr (set_x 8 console_demo) (machine_demo kbd_read))
    _ [] 7 kbd_read_typed _ _); by vm_compute.
Defined.

Lemma keyboardHandler_F12_undefined_witness :
  keyboardHandler (λ _ _, undefined) 88 (machine_demo (kbd_demo [] 0)) = Undefined.
Proof.
  refine (keyboardHandler_F12_undefined (λ _ _, undefined) (machine_demo (kbd_demo [] 0)) _ _ _);
    by vm_compute.
Defined.
End demo.
