(* ===== verification/Fd.v ===== *)
(** * File descriptors ([fd.c])

    A process reads and writes through three descriptors, each bound to a
    target: the terminal or a pipe.  [fd_read] and [fd_write] choose the
    keyboard, the console or the pipe, and move the bytes between it and the
    memory of the caller. *)

From S2P Require Import Prelude MemoryManager Monad KState Processes Pipe.
From S2P Require Import Console Machine Keyboard.

(** The answer, and the array afterwards; [None] is a null array. *)
Definition setReadTarget (targetByFd : option (list Z)) (target : Z) : Z * option (list Z) :=
  match targetByFd with
  | None => (-1, None)
  | Some t => (0, Some (<[Z.to_nat READ_FD := target]> t))
  end.

Definition setWriteTarget (targetByFd : option (list Z)) (target : Z) : Z * option (list Z) :=
  match targetByFd with
  | None => (-1, None)
  | Some t => (0, Some (<[Z.to_nat WRITE_FD := target]> t))
  end.

Section fd.
Context {St : Type} `{MemoryManager St}.
Abbreviation machine := (machine St).
Abbreviation M := (K machine).

(** The readable bytes from [a] on, at most [n]. *)
Fixpoint load_prefix (mem : gmap Z Z) (a : Z) (n : nat) : list Z :=
  match n with
  | O => []
  | S n => match mem !! a with Some b => b :: load_prefix mem (a + 1) n | None => [] end
  end.

(** The loop of [fd_read] on the keyboard, [n] characters left; each
    [getKeyboardCharacter] waits at most [fuel] rounds. *)
Fixpoint read_keys (fuel n : nat) (userBuff i : Z) : M Z :=
  match n with
  | O => mret i
  | S n =>
      c ← getKeyboardCharacter fuel (Z.lor AWAIT_RETURN_KEY SHOW_BUFFER_WHILE_TYPING);
      if decide (c = EOF) then mret i
      else _ ← user_store (userBuff + i) [c]; read_keys fuel n userBuff (i + 1)
  end.

Definition fd_read (fuel : nat) (fd userBuff count : Z) : M Z :=
  proc ← in_kernel get_current_process;
  if decide (proc = NULL) then mret (-1)
  else if decide (userBuff = NULL ∨ count < 0) then mret (-1)
  else if decide (fd < 0 ∨ ERR_FD < fd) then mret (-1)
  else
    P ← in_kernel (deref k_procs proc);
    target ← kopt (targetByFd P !! Z.to_nat fd);
    if decide (fd = READ_FD ∧ target = STDIN) then read_keys fuel (Z.to_nat count) userBuff 0
    else
      '(r, out) ← in_kernel (readPipe target userBuff count);
      _ ← user_store userBuff out;
      mret r.

(** [writePipe] reads the caller's memory byte by byte; what it can read is
    the prefix given to it. *)
Definition fd_write (fd userBuff count : Z) : M Z :=
  proc ← in_kernel get_current_process;
  if decide (proc = NULL) then mret (-1)
  else if decide (userBuff = NULL ∨ count < 0) then mret (-1)
  else if decide (fd < 0 ∨ ERR_FD < fd) then mret (-1)
  else
    P ← in_kernel (deref k_procs proc);
    target ← kopt (targetByFd P !! Z.to_nat fd);
    if decide (fd = WRITE_FD ∧ target = STDOUT ∨ fd = ERR_FD ∧ target = STDERR) then
      string ← user_load userBuff count;
      printToFd target (i8 <$> string)
    else
      data ← kgets (λ m, load_prefix (m_user m) userBuff (Z.to_nat count));
      in_kernel (writePipe target userBuff data count).
End fd.
