(* ===== verification/Syscalls.v ===== *)
(** * System calls ([idt/syscallDispatcher.c])

    One definition per [sys_] function, and the dispatcher on the registers
    the entry stub saves.  Arguments are narrowed to the types the functions
    declare; answers are narrowed to the [int32_t] the dispatcher returns.
    The program given to [sys_exec] and the rounds a reader may wait are
    arguments of the definitions that use them.  [cursor.c], [time.c],
    [sound.c] and [shared_mvar.c] are here too. *)

From S2P Require Import Prelude MemoryManager Monad KState Scheduler Sem Pipe Processes.
From S2P Require Import Video Console Machine Keyboard Fd.

(** The saved registers, in the order of the structure. *)
Record Registers := Regs {
  r15 : Z; r14 : Z; r13 : Z; r12 : Z; r11 : Z; r10 : Z; r9 : Z; r8 : Z;
  rsi : Z; rdi : Z; g_rbp : Z; rdx : Z; rcx : Z; rbx : Z; rax : Z; g_rip : Z;
}.

(** ** Numbers *)
Definition SYS_READ : Z := 3.
Definition SYS_WRITE : Z := 4.
Definition SYS_START_BEEP : Z := 10.
Definition SYS_STOP_BEEP : Z := 11.
Definition SYS_FONTS_TEXT_COLOR : Z := 12.
Definition SYS_FONTS_BACKGROUND_COLOR : Z := 13.
Definition SYS_FONTS_DECREASE_SIZE : Z := 14.
Definition SYS_FONTS_INCREASE_SIZE : Z := 15.
Definition SYS_FONTS_SET_SIZE : Z := 16.
Definition SYS_CLEAR_SCREEN : Z := 17.
Definition SYS_CLEAR_INPUT_BUFFER : Z := 18.
Definition SYS_HOUR : Z := 19.
Definition SYS_MINUTE : Z := 20.
Definition SYS_SECOND : Z := 21.
Definition SYS_CIRCLE : Z := 22.
Definition SYS_RECTANGLE : Z := 23.
Definition SYS_FILL_VIDEO_MEMORY : Z := 24.
Definition SYS_EXEC : Z := 25.
Definition SYS_REGISTER_KEY : Z := 26.
Definition SYS_WINDOW_WIDTH : Z := 27.
Definition SYS_WINDOW_HEIGHT : Z := 28.
Definition SYS_SLEEP_MILIS : Z := 29.
Definition SYS_GET_REGISTER_SNAPSHOT : Z := 30.
Definition SYS_GET_CHARACTER_NO_DISPLAY : Z := 31.
Definition SYS_MALLOC : Z := 32.
Definition SYS_FREE : Z := 33.
Definition SYS_MM_STATS : Z := 34.
Definition SYS_CREATE_PROCESS : Z := 35.
Definition SYS_GET_PID : Z := 36.
Definition SYS_KILL_PROCESS : Z := 37.
Definition SYS_MODIFY_PRIORITY : Z := 38.
Definition SYS_PS : Z := 39.
Definition SYS_BLOCK_PROCESS : Z := 40.
Definition SYS_YIELD : Z := 41.
Definition SYS_WAIT_PID : Z := 42.
Definition SYS_WAIT_FOR_CHILDREN : Z := 43.
Definition SYS_PIPE_OPEN : Z := 45.
Definition SYS_PIPE_CLOSE : Z := 47.
Definition SYS_SET_READ_TARGET : Z := 48.
Definition SYS_SET_WRITE_TARGET : Z := 49.
Definition SYS_SEM_OPEN : Z := 50.
Definition SYS_SEM_CLOSE : Z := 51.
Definition SYS_SEM_WAIT : Z := 52.
Definition SYS_SEM_POST : Z := 53.
Definition SYS_SHUTDOWN : Z := 54.
Definition SYS_UNBLOCK_PROCESS : Z := 55.
Definition SYS_SET_MVAR_VALUE : Z := 56.
Definition SYS_GET_MVAR_VALUE : Z := 57.

Definition SECONDS_TO_TICKS : Z := 18.
Definition TOGGLE_TICKS : Z := 9.
Definition SPEAKER_ON : Z := 0xFF.
Definition SPEAKER_OFF : Z := 0.

Section syscalls.
Context {St : Type} `{MemoryManager St}.
Abbreviation machine := (machine St).
Abbreviation M := (K machine).

(** ** Clock ([drivers/time.c]) *)

Definition timer_handler : M unit :=
  soft ← kgets soft_irq0;
  if decide (soft ≠ 0) then kmodify (set_soft_irq0 0)
  else kmodify (λ m, set_ticks (u64 (ticks m + 1)) m).

Definition ticks_elapsed : M Z := t ← kgets ticks; mret (i32 t).
Definition seconds_elapsed : M Z := t ← kgets ticks; mret (i32 (t / SECONDS_TO_TICKS)).

(** [sti; hlt]: the CPU waits for an interrupt, whose handler may run other
    processes before this one goes on. *)
Definition _hlt : M unit := λ m,
  Switch (set_m_k (set_k_if true (m_k m)) m) (λ m', Ret tt m').

(** [while (ticks < start + sleep_t) _hlt();], at most [fuel] rounds. *)
Fixpoint sleep_loop (fuel : nat) (until : Z) : M unit :=
  match fuel with
  | O => diverge
  | S fuel =>
      t ← kgets ticks;
      if decide (t < until) then _ ← _hlt; sleep_loop fuel until else mret tt
  end.

Definition sleepTicks (fuel : nat) (sleep_t : Z) : M unit :=
  start ← kgets ticks; sleep_loop fuel (u64 (start + sleep_t)).

Definition sleep (fuel : nat) (seconds : Z) : M unit :=
  sleepTicks fuel (u64 (i32 (seconds * SECONDS_TO_TICKS))).

(** ** Cursor ([cursor.c]) *)

Definition toggleSpeed : M Z := t ← ticks_elapsed; mret (Z.quot t TOGGLE_TICKS).

(** [shown] is [IS_SHOWING]; the answer is its new value. *)
Definition toggleCursor (shown : Z) : M Z :=
  speed ← toggleSpeed;
  let toggle := Z.rem speed 2 in
  k ← get_kbd id;
  if decide (keyboard_options k = 0 ∨ keyboard_options k = MODIFY_BUFFER) then mret 0
  else if decide (toggle = 1 ∧ shown = 0) then _ ← on_screen showCursor; mret 1
  else if decide (toggle = 0 ∧ shown ≠ 0) then _ ← on_screen hideCursor; mret 0
  else mret shown.

(** ** Sound ([drivers/sound.c]) *)

Definition setSpeaker (status : Z) : M unit := out_port (Speaker status).

Definition play_sound (nFrequence : Z) : M unit :=
  if decide (nFrequence = 0) then undefined
  else
    let div := 1193180 / nFrequence in
    _ ← out_port (PIT_mode 0xb6);
    _ ← out_port (PIT_frequency (u16 div));
    setSpeaker SPEAKER_ON.

(** ** [shared_mvar.c] *)

Definition set_mvar_value (value : Z) : M unit := kmodify (set_shared_mvar_value value).
Definition get_mvar_value : M Z := kgets shared_mvar_value.

(** ** The calls *)

Definition sys_write (fd user_buf count : Z) : M Z := fd_write fd user_buf count.
Definition sys_read (fuel : nat) (fd user_buf count : Z) : M Z := fd_read fuel fd user_buf count.

Definition sys_start_beep (nFrequence : Z) : M Z := _ ← play_sound nFrequence; mret 0.
Definition sys_stop_beep : M Z := _ ← setSpeaker SPEAKER_OFF; mret 0.

Definition sys_fonts_text_color (color : Z) : M Z := _ ← screen_do (setTextColor color); mret 0.
Definition sys_fonts_background_color (color : Z) : M Z :=
  _ ← screen_do (setBackgroundColor color); mret 0.

(** The size functions answer the size they leave, as a byte. *)
Definition with_font_size (f : screen → screen) : M Z :=
  _ ← screen_do f; s ← kgets m_scr; mret (getFontSize s).
Definition sys_fonts_decrease_size : M Z := with_font_size decreaseFontSize.
Definition sys_fonts_increase_size : M Z := with_font_size increaseFontSize.
Definition sys_fonts_set_size (size : Z) : M Z := with_font_size (setFontSize (i8 size)).

Definition sys_clear_screen : M Z := _ ← screen_do clear; mret 0.

(** [while (clearBuffer() != 0);]: a round per character in the buffer. *)
Fixpoint clear_input_loop (fuel : nat) : M unit :=
  match fuel with
  | O => diverge
  | S fuel => n ← clearBuffer; if decide (n ≠ 0) then clear_input_loop fuel else mret tt
  end.
Definition sys_clear_input_buffer : M Z :=
  _ ← clear_input_loop (Z.to_nat (BUFFER_SIZE + 1)); mret 0.

Definition sys_window_width : M Z := kgets (λ m, getWindowWidth (sc_vbe (m_scr m))).
Definition sys_window_height : M Z := kgets (λ m, getWindowHeight (sc_vbe (m_scr m))).

(** The clock chip's registers, stored as they are read. *)
Definition getHour : M Z := kgets (λ m, (m_rtc m).1.1).
Definition getMinute : M Z := kgets (λ m, (m_rtc m).1.2).
Definition getSecond : M Z := kgets (λ m, (m_rtc m).2).

Definition store_int (a v : Z) : M unit := user_store a (le_bytes 4 v).

Definition sys_hour (hour : Z) : M Z := v ← getHour; _ ← store_int hour v; mret 0.
Definition sys_minute (minute : Z) : M Z := v ← getMinute; _ ← store_int minute v; mret 0.
Definition sys_second (second : Z) : M Z := v ← getSecond; _ ← store_int second v; mret 0.

Definition draw (f : vbe_mode_info → fbmem → fbmem) : M Z :=
  _ ← screen_do (λ s, set_fb (f (sc_vbe s) (sc_fb s)) s); mret 0.
Definition sys_circle (hexColor topLeftX topLeftY diameter : Z) : M Z :=
  draw (λ v, drawCircle v hexColor topLeftX topLeftY diameter).
Definition sys_rectangle (color width_pixels height_pixels x y : Z) : M Z :=
  draw (λ v, drawRectangle v color width_pixels height_pixels x y).
Definition sys_fill_video_memory (hexColor : Z) : M Z := draw (λ v, fillVideoMemory v hexColor).

(** [run] is the program at [fnPtr]. *)
Definition sys_exec (run : M Z) : M Z :=
  _ ← screen_do clear;
  s ← kgets m_scr;
  let fontSize := getFontSize s in
  let text_color := getTextColor s in
  let background_color := getBackgroundColor s in
  k ← get_kbd id;
  '(map, k) ← kopt (clearKeyFnMapNonKernel
    (replicate (Z.to_nat (F12_KEY - ESCAPE_KEY + 1)) NULL) k);
  _ ← on_kbd (λ _, k);
  aux ← run;
  k ← get_kbd id;
  k ← kopt (restoreKeyFnMapNonKernel map k);
  _ ← on_kbd (λ _, k);
  _ ← screen_do (setFontSize (i8 fontSize));
  _ ← screen_do (setTextColor text_color);
  _ ← screen_do (setBackgroundColor background_color);
  _ ← screen_do clear;
  mret aux.

Definition sys_register_key (scancode fn : Z) : M Z :=
  k ← get_kbd id;
  '(_, k) ← kopt (registerSpecialKey scancode fn 0 k);
  _ ← on_kbd (λ _, k);
  mret 0.

(** The product is computed in 32 bits. *)
Definition sys_sleep_milis (fuel : nat) (milis : Z) : M Z :=
  _ ← sleepTicks fuel (u32 (milis * SECONDS_TO_TICKS) / 1000); mret 0.

(** [while (i < 18) *(registers++) = register_snapshot[i++];] *)
Fixpoint store_words (a : Z) (l : list Z) : M unit :=
  match l with
  | [] => mret tt
  | w :: l => _ ← user_store a (le_bytes 8 w); store_words (a + 8) l
  end.
Definition sys_get_register_snapshot (registers : Z) : M Z :=
  taken ← kgets register_snapshot_taken;
  if decide (taken = 0) then mret 0
  else l ← kgets register_snapshot; _ ← store_words registers l; mret 1.

Definition sys_get_character_without_display (fuel : nat) : M Z := getKeyboardCharacter fuel 0.

Definition sys_malloc (size : Z) : M Z := in_kernel (kalloc size).
Definition sys_free (ap : Z) : M unit := in_kernel (kfree ap).

Definition sys_get_memory_stats (total available used : Z) : M unit :=
  aux ← kgets (λ m, mm_get_stats (k_mm (m_k m)));
  _ ← store_int total (total_memory aux);
  _ ← store_int available (free_memory aux);
  store_int used (occupied_memory aux).

(** The strings [argv] points to; [None] when it is null. *)
Fixpoint load_args (n : nat) (argv : Z) : M (list (list Z)) :=
  match n with
  | O => mret []
  | S n =>
      p ← user_load argv 8;
      s ← user_string (le_value p);
      l ← load_args n (argv + 8);
      mret (s :: l)
  end.
Definition user_args (argc argv : Z) : M (option (list (list Z))) :=
  if decide (argv = NULL) then mret None
  else l ← load_args (Z.to_nat argc) argv; mret (Some l).

(** Three [int]s. *)
Fixpoint load_ints (n : nat) (a : Z) : M (list Z) :=
  match n with
  | O => mret []
  | S n => w ← user_load a 4; l ← load_ints n (a + 4); mret (i32 (le_value w) :: l)
  end.

(** The argument strings and the targets are read before the process is
    created. *)
Definition sys_create_process (argc argv entryPoint priority targets hasForeground : Z) : M Z :=
  args ← user_args argc argv;
  t ← load_ints 3 targets;
  p ← in_kernel (create_process argc args entryPoint priority t (negb (bool_decide (hasForeground = 0))));
  if decide (p = NULL) then mret (-1) else in_kernel (get_pid p).

Definition sys_get_pid : M Z := in_kernel get_running_pid.
Definition sys_kill (pid : Z) : M Z := in_kernel (kill_process pid).
Definition sys_modify_priority (pid new_priority : Z) : M unit :=
  _ ← in_kernel (Processes.set_priority pid new_priority); mret tt.

Definition sys_ps (process_info : Z) : M Z :=
  if decide (process_info = NULL) then
    '(r, _) ← in_kernel (ps None); mret r
  else
    info ← deref m_infos process_info;
    '(r, info) ← in_kernel (ps (Some info));
    _ ← kmodify (λ m, set_m_infos (<[process_info := info]> (m_infos m)) m);
    mret r.

Definition sys_block_process (pid : Z) : M Z := in_kernel (
  p ← get_process pid;
  idle ← kgets idle_proc;
  if decide (p = NULL ∨ p = idle) then mret (-1)
  else
    P ← deref k_procs p;
    if decide (state P = TERMINATED) then mret (-1)
    else
      _ ← (if decide (state P = BLOCKED) then unblock_process p else block_process p);
      mret 0).

Definition sys_unblock_process (pid : Z) : M Z := in_kernel (
  p ← get_process pid;
  if decide (p = NULL) then mret (-1) else unblock_process p).

Definition sys_yield : M unit := in_kernel yield_cpu.
Definition sys_wait_pid (pid : Z) : M Z := in_kernel (wait_child pid).
Definition sys_wait_for_children : M Z := in_kernel wait_all_children.

Definition sys_pipe_open : M Z := in_kernel openPipe.
Definition sys_pipe_close (id : Z) : M Z := in_kernel (closePipe id).

(** [p->targetByFd] through one of the setters of [fd.c]. *)
Definition assign_target (set : option (list Z) → Z → Z * option (list Z)) (p id : Z)
  : K (kst St) Z :=
  P ← deref k_procs p;
  match set (Some (targetByFd P)) id with
  | (r, Some t) => _ ← upd_proc p (set_targetByFd t); mret r
  | (r, None) => mret r
  end.

Definition sys_set_read_target_sys (id : Z) : M Z := in_kernel (
  p ← get_current_process;
  if decide (p = NULL) then mret (-1)
  else
    P ← deref k_procs p;
    old ← kopt (targetByFd P !! Z.to_nat READ_FD);
    _ ← kwhen (bool_decide (old ≠ STDIN ∧ old ≠ STDOUT)) (detachReader old (pid P));
    if decide (id ≠ STDIN ∧ id ≠ STDOUT) then
      r ← attachReader id;
      if decide (r < 0) then mret (-1) else assign_target setReadTarget p id
    else assign_target setReadTarget p id).

Definition sys_set_write_target_sys (id : Z) : M Z := in_kernel (
  p ← get_current_process;
  if decide (p = NULL) then mret (-1)
  else
    P ← deref k_procs p;
    old ← kopt (targetByFd P !! Z.to_nat WRITE_FD);
    _ ← kwhen (bool_decide (old ≠ STDIN ∧ old ≠ STDOUT)) (detachWriter old (pid P));
    if decide (id ≠ STDIN ∧ id ≠ STDOUT) then
      r ← attachWriter id;
      if decide (r < 0) then mret (-1) else assign_target setWriteTarget p id
    else assign_target setWriteTarget p id).

Definition sys_sem_open (name value : Z) : M Z :=
  if decide (name = NULL) then in_kernel (semOpen None value)
  else n ← user_string name; in_kernel (semOpen (Some n) value).
Definition sys_sem_close (a : Z) : M Z := in_kernel (semClose a).
Definition sys_sem_wait (a : Z) : M Z := in_kernel (semWait a).
Definition sys_sem_post (a : Z) : M Z := in_kernel (semPost a).

Definition sys_set_mvar_value (value : Z) : M unit := set_mvar_value value.
Definition sys_get_mvar_value : M Z := get_mvar_value.

(** ** The dispatcher *)

(** The call a register frame asks for; its answer before narrowing. *)
Definition dispatch_call (fuel : nat) (run : Z → M Z) (r : Registers) : M Z :=
  let n := rax r in
  if decide (n = SYS_READ) then sys_read fuel (i32 (rdi r)) (u64 (rsi r)) (i32 (rdx r))
  else if decide (n = SYS_WRITE) then sys_write (i32 (rdi r)) (u64 (rsi r)) (i32 (rdx r))
  else if decide (n = SYS_START_BEEP) then sys_start_beep (u32 (rdi r))
  else if decide (n = SYS_STOP_BEEP) then sys_stop_beep
  else if decide (n = SYS_FONTS_TEXT_COLOR) then sys_fonts_text_color (u32 (rdi r))
  else if decide (n = SYS_FONTS_BACKGROUND_COLOR) then sys_fonts_background_color (u32 (rdi r))
  else if decide (n = SYS_FONTS_DECREASE_SIZE) then sys_fonts_decrease_size
  else if decide (n = SYS_FONTS_INCREASE_SIZE) then sys_fonts_increase_size
  else if decide (n = SYS_FONTS_SET_SIZE) then sys_fonts_set_size (u8 (rdi r))
  else if decide (n = SYS_CLEAR_SCREEN) then sys_clear_screen
  else if decide (n = SYS_CLEAR_INPUT_BUFFER) then sys_clear_input_buffer
  else if decide (n = SYS_HOUR) then sys_hour (u64 (rdi r))
  else if decide (n = SYS_MINUTE) then sys_minute (u64 (rdi r))
  else if decide (n = SYS_SECOND) then sys_second (u64 (rdi r))
  else if decide (n = SYS_CIRCLE) then
    sys_circle (u32 (rdi r)) (u64 (rsi r)) (u64 (rdx r)) (u64 (rcx r))
  else if decide (n = SYS_RECTANGLE) then
    sys_rectangle (u32 (rdi r)) (u64 (rsi r)) (u64 (rdx r)) (u64 (rcx r)) (u64 (r8 r))
  else if decide (n = SYS_FILL_VIDEO_MEMORY) then sys_fill_video_memory (u32 (rdi r))
  else if decide (n = SYS_EXEC) then sys_exec (run (u64 (rdi r)))
  else if decide (n = SYS_REGISTER_KEY) then sys_register_key (u8 (rdi r)) (u64 (rsi r))
  else if decide (n = SYS_WINDOW_WIDTH) then sys_window_width
  else if decide (n = SYS_WINDOW_HEIGHT) then sys_window_height
  else if decide (n = SYS_SLEEP_MILIS) then sys_sleep_milis fuel (u32 (rdi r))
  else if decide (n = SYS_GET_REGISTER_SNAPSHOT) then sys_get_register_snapshot (u64 (rdi r))
  else if decide (n = SYS_GET_CHARACTER_NO_DISPLAY) then sys_get_character_without_display fuel
  else if decide (n = SYS_MALLOC) then sys_malloc (u64 (rdi r))
  else if decide (n = SYS_FREE) then _ ← sys_free (u64 (rdi r)); mret 0
  else if decide (n = SYS_MM_STATS) then
    _ ← sys_get_memory_stats (u64 (rdi r)) (u64 (rsi r)) (u64 (rdx r)); mret 0
  else if decide (n = SYS_CREATE_PROCESS) then
    sys_create_process (i32 (rdi r)) (u64 (rsi r)) (u64 (rdx r)) (i32 (rcx r)) (u64 (r8 r))
      (i32 (r9 r))
  else if decide (n = SYS_GET_PID) then sys_get_pid
  else if decide (n = SYS_KILL_PROCESS) then sys_kill (i32 (rdi r))
  else if decide (n = SYS_MODIFY_PRIORITY) then
    _ ← sys_modify_priority (i32 (rdi r)) (i32 (rsi r)); mret 0
  else if decide (n = SYS_PS) then sys_ps (u64 (rdi r))
  else if decide (n = SYS_BLOCK_PROCESS) then sys_block_process (i32 (rdi r))
  else if decide (n = SYS_UNBLOCK_PROCESS) then sys_unblock_process (i32 (rdi r))
  else if decide (n = SYS_YIELD) then _ ← sys_yield; mret 0
  else if decide (n = SYS_WAIT_PID) then sys_wait_pid (i32 (rdi r))
  else if decide (n = SYS_WAIT_FOR_CHILDREN) then sys_wait_for_children
  else if decide (n = SYS_PIPE_OPEN) then sys_pipe_open
  else if decide (n = SYS_PIPE_CLOSE) then sys_pipe_close (u8 (rdi r))
  else if decide (n = SYS_SET_READ_TARGET) then sys_set_read_target_sys (u8 (rdi r))
  else if decide (n = SYS_SET_WRITE_TARGET) then sys_set_write_target_sys (u8 (rdi r))
  else if decide (n = SYS_SEM_OPEN) then sys_sem_open (u64 (rdi r)) (u16 (rsi r))
  else if decide (n = SYS_SEM_CLOSE) then sys_sem_close (u64 (rdi r))
  else if decide (n = SYS_SEM_WAIT) then sys_sem_wait (u64 (rdi r))
  else if decide (n = SYS_SEM_POST) then sys_sem_post (u64 (rdi r))
  else if decide (n = SYS_SHUTDOWN) then _ ← out_port (Outw 0x604 0x2000); mret 0
  else if decide (n = SYS_SET_MVAR_VALUE) then _ ← sys_set_mvar_value (i8 (rdi r)); mret 0
  else if decide (n = SYS_GET_MVAR_VALUE) then sys_get_mvar_value
  else mret 0.

Definition syscallDispatcher (fuel : nat) (run : Z → M Z) (registers : Registers) : M Z :=
  v ← dispatch_call fuel run registers; mret (i32 v).

(** ** Hardware interrupts ([idt/irqDispatcher.c]) *)

Definition int_20 : M Z := _ ← timer_handler; mret 0.
Definition int_21 (call_fn : Z → Z → M unit) (scancode : Z) : M Z :=
  keyboardHandler call_fn scancode.

Definition irqDispatcher (call_fn : Z → Z → M unit) (scancode irq : Z) : M Z :=
  if decide (irq < 2) then
    if decide (irq = 0) then int_20 else int_21 call_fn scancode
  else mret 0.
End syscalls.
