(* ===== verification/SyscallFacts.v ===== *)
(** * What the system calls do

    Moving bytes between a program's memory and the terminal or a pipe, the
    state [sys_exec] gives back, and the dispatcher's answers. *)

From S2P Require Import Prelude MemoryManager FirstFit Queue Arrays Monad KState.
From S2P Require Import KQueue Scheduler SchedulerFacts Sem SemFacts Pipe PipeFacts Processes.
From S2P Require Import Video Console Machine Keyboard KeyboardFacts Fd Syscalls.

(** ** A program's memory *)
Section memory.
Implicit Types (mem : gmap Z Z) (l : list Z).

Lemma store_bytes_out l : ∀ mem a b,
  b < a ∨ a + Z.of_nat (length l) ≤ b → store_bytes mem a l !! b = mem !! b.
Proof.
  induction l as [|c l IH]; intros mem a b Hb; cbn [store_bytes]; [done|].
  cbn [length] in Hb. rewrite IH by lia. apply lookup_insert_ne. lia.
Qed.

Lemma load_bytes_ext n : ∀ mem mem' a,
  (∀ b, a ≤ b < a + Z.of_nat n → mem' !! b = mem !! b) →
  load_bytes mem' a n = load_bytes mem a n.
Proof.
  induction n as [|n IH]; intros mem mem' a Hag; [done|]. cbn [load_bytes].
  rewrite Hag by lia. destruct (mem !! a); [|done]. cbn [mbind option_bind].
  rewrite (IH mem mem'); [done|]. intros b Hb. apply Hag. lia.
Qed.

Lemma load_store_bytes l : ∀ mem a,
  load_bytes (store_bytes mem a l) a (length l) = Some (u8 <$> l).
Proof.
  induction l as [|c l IH]; intros mem a; [done|]. cbn [length load_bytes store_bytes].
  rewrite store_bytes_out by lia. rewrite lookup_insert_eq. cbn [mbind option_bind].
  by rewrite IH.
Qed.

Lemma load_prefix_bytes n : ∀ mem a l, load_bytes mem a n = Some l → load_prefix mem a n = l.
Proof.
  induction n as [|n IH]; intros mem a l; cbn [load_bytes load_prefix]; [by intros [= <-]|].
  destruct (mem !! a); [|done]. cbn [mbind option_bind].
  destruct (load_bytes mem (a + 1) n) eqn:E; [|done]. cbn [mbind option_bind].
  intros [= <-]. f_equal. eauto.
Qed.

Lemma load_bytes_length n : ∀ mem a l, load_bytes mem a n = Some l → length l = n.
Proof.
  induction n as [|n IH]; intros mem a l; cbn [load_bytes]; [by intros [= <-]|].
  destruct (mem !! a); [|done]. cbn [mbind option_bind].
  destruct (load_bytes mem (a + 1) n) eqn:E; [|done]. cbn [mbind option_bind].
  intros [= <-]. cbn. f_equal. eauto.
Qed.

(** A range of memory that holds bytes. *)
Definition byte_range mem a n : Prop :=
  ∃ l, load_bytes mem a n = Some l ∧ Forall (λ b, 0 ≤ b < 256) l.

Lemma u8_bytes l : Forall (λ b, 0 ≤ b < 256) l → u8 <$> l = l.
Proof.
  induction 1 as [|b l Hb _ IH]; [done|]. cbn. rewrite IH. f_equal. by apply wrapu_small.
Qed.

Lemma i8_bytes l : Forall (λ b, 0 ≤ b < 128) l → i8 <$> l = l.
Proof.
  induction 1 as [|b l Hb _ IH]; [done|]. cbn. rewrite IH. f_equal.
  apply wraps_small; cbn; lia.
Qed.
End memory.

(** Eight bytes per register. *)
Fixpoint load_words (mem : gmap Z Z) (a : Z) (n : nat) : option (list Z) :=
  match n with
  | O => Some []
  | S n => w ← load_bytes mem a 8; l ← load_words mem (a + 8) n; Some (le_value w :: l)
  end.

Section machine.
Context {St : Type} `{MemoryManager St}.
Abbreviation machine := (machine St).
Implicit Types (m : machine).

Lemma wp_user_load pan a n l m (Q : list Z → machine → Prop) :
  load_bytes (m_user m) a (Z.to_nat n) = Some l → Q l m → wp pan (user_load a n) Q m.
Proof. unfold wp, user_load. by intros ->. Qed.

Lemma wp_user_store pan a l m (Q : unit → machine → Prop) :
  Q tt (set_m_user (store_bytes (m_user m) a l) m) → wp pan (user_store a l) Q m.
Proof. done. Qed.

Lemma wp_screen_do pan f m (Q : unit → machine → Prop) :
  Q tt (store_screen (f (load_screen m)) m) → wp pan (screen_do f) Q m.
Proof. intros HQ. by eapply wp_on_screen. Qed.

Lemma wp_store_words pan l : ∀ a m (Q : unit → machine → Prop),
  (∀ mem, load_words mem a (length l) = Some (u64 <$> l) →
     (∀ b, b < a ∨ a + 8 * Z.of_nat (length l) ≤ b → mem !! b = m_user m !! b) →
     Q tt (set_m_user mem m)) →
  wp pan (store_words a l) Q m.
Proof.
  induction l as [|w l IH]; intros a m Q HQ; cbn [store_words].
  - wp_step. specialize (HQ (m_user m)). cbn in HQ. destruct m; apply HQ; auto.
  - wp_step. apply wp_user_store. apply IH. cbn [m_user set_m_user].
    intros mem Hmem Hout. cbn [length] in *.
    change (set_m_user mem (set_m_user (store_bytes (m_user m) a (le_bytes 8 w)) m))
      with (set_m_user mem m).
    apply HQ.
    + cbn [load_words]. rewrite (load_bytes_ext 8 (store_bytes (m_user m) a (le_bytes 8 w))).
      2: { intros b Hb. apply Hout. lia. }
      pose proof (load_store_bytes (le_bytes 8 w) (m_user m) a) as Hl.
      rewrite le_bytes_length in Hl. rewrite Hl, u8_bytes by apply le_bytes_range.
      cbn [mbind option_bind]. rewrite Hmem. cbn [mbind option_bind]. rewrite le_roundtrip. done.
    + intros b Hb. rewrite Hout by lia. apply store_bytes_out. rewrite le_bytes_length. lia.
Qed.

(** Printing to the terminal. *)
Lemma wp_printToFd pan fd l m (Q : Z → machine → Prop) :
  fd ≠ 0 → console_ok (m_scr m) → Forall (λ c, 0 ≤ c < 128) l →
  (∀ s, putChars l (if decide (fd = file_descriptor (m_scr m)) then load_screen m
                    else choose_descriptor fd (load_screen m)) = Some s →
     console_ok s → Q (Z.of_nat (length l)) (store_screen s m)) →
  wp pan (printToFd fd l) Q m.
Proof.
  intros Hfd Hok Hl HQ. unfold printToFd. wp_step. wp_step. rewrite decide_False by tauto.
  assert (console_ok (load_screen m)) as Hok1 by by apply console_ok_if.
  destruct (decide (fd = file_descriptor (m_scr m))) as [E|E].
  - rewrite bool_decide_eq_true_2 by done. cbn [negb kwhen]. wp_step. wp_step. wp_step.
    destruct (putChars_gen l _ Hok1 Hl) as (s & Hs & Hoks & _).
    eapply wp_on_screen; [exact Hs|]. wp_step. auto.
  - rewrite bool_decide_eq_false_2 by done. cbn [negb kwhen]. wp_step. apply wp_screen_do.
    wp_step. set (s0 := choose_descriptor fd (load_screen m)).
    assert (console_ok s0) as Hok0.
    { destruct Hok1 as [Hv Hw Hh Hf Hx Hc Hy Hm Hli]. unfold s0, choose_descriptor.
      repeat case_decide; by constructor. }
    assert (load_screen (store_screen s0 m) = s0) as Es by by destruct s0.
    destruct (putChars_gen l s0 Hok0 Hl) as (s & Hs & Hoks & _).
    eapply wp_on_screen; [by rewrite Es|]. wp_step. by apply HQ.
Qed.
End machine.

(** ** Detaching from a pipe *)
Section detach.
Context {St : Type} `{MemoryManager St}.
Implicit Types (s : kst St) (ps : list Z).

(** Fields of the kernel that detaching a process that waits nowhere leaves. *)
Definition same_but_pipes s s' : Prop :=
  k_procs s' = k_procs s ∧ running_process s' = running_process s ∧
  k_arrays s' = k_arrays s ∧ pipeStorage s' = pipeStorage s.

#[local] Instance same_but_pipes_preorder : PreOrder same_but_pipes.
Proof. split; [done|]. unfold same_but_pipes. intros ???. naive_solver congruence. Qed.

Lemma wp_remove_absent pan s T R q L Y W a n (Q : Z → kst St → Prop) :
  sem_inv s T q L Y W → sched_inv s T R → a ∈ L → n ∉ W a →
  (∀ s', sem_inv s' T q L Y W → sched_inv s' T R → same_but_pipes s s' →
     k_pipes s' = k_pipes s → Q (-1) s') →
  wp pan (removeFromSemaphore a n) Q s.
Proof.
  intros Hse Hsc Ha Hn HQ. destruct (sem_locked _ _ _ _ _ _ _ Hse Ha) as (Hx & Hl & Hxx).
  destruct (se_blocked _ _ _ _ _ _ Hse a Ha) as (_ & _ & it & Hit).
  unfold removeFromSemaphore. rewrite decide_False.
  2: { intros ->. by apply (se_nonnull _ _ _ _ _ _ Hse). }
  wp_step. eapply wp_semLock; [done..|]. wp_step.
  eapply wp_deref; [cbn; apply lookup_insert_eq|]. wp_step. cbn [blockedProcesses set_s_lock].
  eapply wp_remove_none; [exact Hit| |].
  { intros w Hw. unfold compare_process_ids. rewrite bool_decide_eq_false_2; [done|].
    intros E. apply Hn. by replace n with w by lia. }
  intros s3 Hf Hq3.
  destruct (locked_queue _ _ _ _ _ _ _ _ _ _ _ Hse Hsc Ha Hf Hq3)
    as (Hsc3 & Hse3 & Es & Eps & Er & _ & _ & _ & Epip).
  wp_step. unfold semUnlock. eapply wp_upd_sem; [rewrite Es; apply lookup_insert_eq|].
  rewrite Es, insert_insert_eq, Hxx, insert_id by done. wp_step.
  assert (k_arrays s3 = k_arrays s ∧ pipeStorage s3 = pipeStorage s) as [Ea Ep]
    by (by destruct Hf as (? & ? & -> & _)).
  apply HQ.
  - eapply sem_inv_ext; [..|exact Hse3]; [done|]. intros b _. unfold fupd.
    case_decide; by subst.
  - by eapply sched_inv_sems; [|by eexists].
  - done.
  - done.
Qed.

(** A reader leaves a pipe that keeps another one. *)
Lemma wp_detachReader pan s T R q L Y W ps X id p n (Q : unit → kst St → Prop) :
  sem_inv s T q L Y W → sched_inv s T R → pipes_rep s ps X → find_pipe X id ps = p →
  p ≠ NULL → canRead (X p) ∈ L → canWrite (X p) ∈ L →
  n ∉ W (canRead (X p)) → n ∉ W (canWrite (X p)) → 1 < readers (X p) →
  (∀ s' x, k_pipes s' = <[p := x]> (k_pipes s) → readers x = readers (X p) - 1 →
     p_id x = p_id (X p) → same_but_pipes s s' → Q tt s') →
  wp pan (detachReader id n) Q s.
Proof.
  intros Hse Hsc Hrep Hfind Hp Har Haw Hnr Hnw Hrd HQ.
  destruct (find_pipe_spec _ _ _ _ Hfind Hp) as [Hin _].
  pose proof (pr_pipes _ _ _ Hrep p Hin Hp) as Hx.
  unfold detachReader. wp_step. eapply wp_getValidPipe; [done|].
  rewrite Hfind, decide_False by done. wp_step. eapply wp_deref; [exact Hx|]. wp_step.
  eapply wp_remove_absent; [done..|]. intros s1 Hse1 Hsc1 Hf1 Ep1. wp_step.
  eapply wp_deref; [by rewrite Ep1|]. wp_step.
  eapply wp_remove_absent; [done..|]. intros s2 Hse2 Hsc2 Hf2 Ep2. wp_step.
  assert (k_pipes s2 !! p = Some (X p)) as Hx2 by by rewrite Ep2, Ep1.
  eapply wp_deref; [exact Hx2|]. rewrite bool_decide_eq_true_2 by lia. cbn [kwhen]. wp_step.
  wp_step. eapply wp_upd_pipe; [exact Hx2|].
  set (x1 := set_readers (readers (X p) - 1) (X p)).
  set (x2 := if decide (0 < attached (X p)) then set_attached (attached x1 - 1) x1 else x1).
  assert (∀ Q' : unit → kst St → Prop,
    Q' tt (set_k_pipes (<[p := x2]> (k_pipes s2)) s2) →
    wp pan (kwhen (bool_decide (0 < attached (X p)))
      (upd_pipe p (λ x, set_attached (attached x - 1) x))) Q'
      (set_k_pipes (<[p := x1]> (k_pipes s2)) s2)) as Hatt.
  { intros Q' HQ'. unfold x2 in HQ'. destruct (decide (0 < attached (X p))).
    - rewrite bool_decide_eq_true_2 by done. cbn [kwhen].
      eapply wp_upd_pipe; [cbn; apply lookup_insert_eq|]. cbn. by rewrite insert_insert_eq.
    - rewrite bool_decide_eq_false_2 by done. cbn [kwhen]. by wp_step. }
  apply Hatt. assert (readers x2 = readers (X p) - 1) as Er2 by (unfold x2; by case_decide).
  wp_step. eapply wp_deref; [cbn; apply lookup_insert_eq|]. wp_step.
  rewrite bool_decide_eq_false_2 by (rewrite Er2; lia). cbn [kwhen]. wp_step.
  unfold delete_if_unused. wp_step. eapply wp_deref; [cbn; apply lookup_insert_eq|].
  rewrite bool_decide_eq_false_2 by (rewrite Er2; lia). cbn [kwhen]. wp_step.
  apply (HQ _ x2).
  - cbn. by rewrite Ep2, Ep1.
  - done.
  - unfold x2. by case_decide.
  - etransitivity; [exact Hf1|]. etransitivity; [exact Hf2|]. done.
Qed.
End detach.

(** * Properties *)
Section properties.
Context {St : Type} `{MemoryManager St}.
Abbreviation machine := (machine St).
Implicit Types (m : machine) (k : keyboard).

(** C20: bytes a process writes through a descriptor bound to an empty pipe
    are the bytes it reads back through another descriptor bound to it:
    both calls answer their number, they arrive at the reader's address in
    order, and no other byte of the program's memory changes. *)
Theorem fd_roundtrip m ps X id p P fw fr w r n data fuel
    (Hrun : k_procs (m_k m) !! running_process (m_k m) = Some P)
    (Hr0 : running_process (m_k m) ≠ NULL)
    (Hw : 0 ≤ fw ≤ 2) (Hfw : targetByFd P !! Z.to_nat fw = Some id)
    (Hr : 0 ≤ fr ≤ 2) (Hfr : targetByFd P !! Z.to_nat fr = Some id) (Hid : 2 < id)
    (Hrep : pipes_rep (m_k m) ps X) (Hfind : find_pipe X id ps = p) (Hp : p ≠ NULL)
    (Hring : ring (X p) []) (Hwr : waitingToRead (X p) = 0) (Hww : waitingToWrite (X p) = 0)
    (Hb1 : w ≠ NULL) (Hb2 : r ≠ NULL) (Hn : 0 < n < PIPE_BUFFER_SIZE)
    (Hdata : load_bytes (m_user m) w (Z.to_nat n) = Some data)
    (Hbytes : Forall (λ b, 0 ≤ b < 256) data) :
  wp false (a ← fd_write fw w n; b ← fd_read fuel fr r n; mret (a, b)) (λ ab m',
    ab = (n, n) ∧ load_bytes (m_user m') r (Z.to_nat n) = Some data ∧
    (∀ b, b < r ∨ r + n ≤ b → m_user m' !! b = m_user m !! b) ∧
    m_scr m' = m_scr m ∧ m_kbd m' = m_kbd m) m.
Proof.
  pose proof (load_bytes_length _ _ _ _ Hdata) as Hlen.
  assert (STDIN = 0 ∧ STDOUT = 1 ∧ STDERR = 2) as (E0 & E1 & E2) by done.
  wp_step. unfold fd_write, WRITE_FD, ERR_FD. wp_step. apply wp_in_kernel. unfold get_current_process, get_running_process.
  wp_step. rewrite decide_False by done. rewrite decide_False by lia.
  rewrite decide_False by lia. wp_step. apply wp_in_kernel. cbn [m_k set_m_k].
  eapply wp_deref; [exact Hrun|]. wp_step. eapply wp_kopt; [exact Hfw|].
  rewrite decide_False by lia. wp_step. wp_step. apply wp_in_kernel. cbn [m_k set_m_k m_user].
  erewrite load_prefix_bytes by exact Hdata.
  assert (PIPE_BUFFER_SIZE < 2 ^ 31) by done.
  eapply write_spec; [done..|lia|lia|cbn [length]; lia|done|].
  intros x Hx Hbook. rewrite <-Hlen, firstn_all in Hx. cbn [app] in Hx.
  pose proof (same_book_fields _ _ Hbook) as (Hpid & _ & Hwx & _).
  destruct (find_pipe_spec _ _ _ _ Hfind Hp) as [Hin _].
  wp_step. unfold fd_read, READ_FD, ERR_FD. wp_step. apply wp_in_kernel. unfold get_current_process, get_running_process.
  wp_step. cbn [m_k set_m_k running_process set_k_pipes].
  rewrite decide_False by done. rewrite decide_False by lia.
  rewrite decide_False by lia. wp_step. apply wp_in_kernel. cbn [m_k set_m_k].
  eapply wp_deref; [exact Hrun|]. wp_step. eapply wp_kopt; [exact Hfr|].
  rewrite decide_False by lia. wp_step. apply wp_in_kernel. cbn [m_k set_m_k].
  eapply (read_spec _ _ ps (fupd X p x) id p data).
  - by apply pipes_rep_put.
  - by rewrite find_pipe_fupd.
  - done.
  - done.
  - by rewrite fupd_eq.
  - intros ->. cbn in Hlen. lia.
  - by rewrite fupd_eq, Hwx.
  - replace (Nat.min _ _) with (length data) by lia. rewrite firstn_all.
    intros y _ _. wp_step. apply wp_user_store. wp_step. wp_step.
    cbn [m_user set_m_user m_scr m_kbd set_m_k].
    split; [f_equal; lia|]. split; [by rewrite <-Hlen, load_store_bytes, u8_bytes|].
    split; [|done]. intros b Hb. apply store_bytes_out. lia.
Qed.

(** Writing ASCII text to a descriptor bound to the terminal prints it:
    the call answers the number of bytes, the console is the one [putChars]
    leaves (in the colours of the descriptor, if it was not the last one
    used), still well formed, and nothing but the console and the interrupt
    flag changes. *)
Theorem fd_write_prints m P fd t buf n data
    (Hrun : k_procs (m_k m) !! running_process (m_k m) = Some P)
    (Hr0 : running_process (m_k m) ≠ NULL)
    (Hfd : fd = WRITE_FD ∧ t = STDOUT ∨ fd = ERR_FD ∧ t = STDERR)
    (Ht : targetByFd P !! Z.to_nat fd = Some t) (Hbuf : buf ≠ NULL) (Hn : 0 ≤ n)
    (Hdata : load_bytes (m_user m) buf (Z.to_nat n) = Some data)
    (Hascii : Forall (λ c, 0 ≤ c < 128) data) (Hok : console_ok (m_scr m)) :
  wp false (fd_write fd buf n) (λ r m', r = n ∧ ∃ s,
    putChars data (if decide (t = file_descriptor (m_scr m)) then load_screen m
                   else choose_descriptor t (load_screen m)) = Some s ∧
    console_ok s ∧ m' = store_screen s m) m.
Proof.
  pose proof (load_bytes_length _ _ _ _ Hdata) as Hlen.
  assert (0 ≤ fd ≤ 2 ∧ t ≠ 0) as [Hfd2 Ht0].
  { destruct Hfd as [[-> ->]|[-> ->]]; by vm_compute. }
  unfold fd_write. wp_step. apply wp_in_kernel. unfold get_current_process, get_running_process.
  wp_step. rewrite decide_False by done. rewrite decide_False by lia.
  rewrite decide_False by (unfold ERR_FD; lia). wp_step. apply wp_in_kernel. cbn [m_k set_m_k].
  eapply wp_deref; [exact Hrun|]. wp_step. eapply wp_kopt; [exact Ht|].
  rewrite decide_True by done. wp_step. eapply wp_user_load; [exact Hdata|].
  rewrite i8_bytes by done. apply wp_printToFd; [done..|].
  intros s Hs Hoks. split; [lia|]. exists s. split; [exact Hs|]. split; [done|]. by destruct m.
Qed.

(** [sys_exec] gives back what it saved: whatever the program did to the
    colours, the font size, the screen and the special keys (but for the
    kernel's keys), afterwards the colours, the size and the table of special
    keys are those of before, the screen is cleared with the cursor at the
    top, and the answer is the program's. *)
Theorem sys_exec_restores m (run : K machine Z) aux m1
    (Hf : 1 ≤ fontSize (m_scr m) ≤ 10)
    (Hl : length (KeyFnMap (m_kbd m)) = Z.to_nat (F12_KEY - ESCAPE_KEY + 1))
    (Hrun : ∀ m0 map keys, clearKeyFnMapNonKernel (replicate 88 NULL) (m_kbd m) =
         Some (map, set_KeyFnMap keys (m_kbd m)) →
       m0 = set_m_kbd (set_KeyFnMap keys (m_kbd m)) (store_screen (clear (load_screen m)) m) →
       run m0 = Ret aux m1 ∧ same_kernel keys (KeyFnMap (m_kbd m1))) :
  wp false (sys_exec run) (λ r m', r = aux ∧
    m_kbd m' = set_KeyFnMap (KeyFnMap (m_kbd m)) (m_kbd m1) ∧
    fontSize (m_scr m') = fontSize (m_scr m) ∧ text_color (m_scr m') = text_color (m_scr m) ∧
    background_color (m_scr m') = background_color (m_scr m) ∧
    xBufferPosition (m_scr m') = 0 ∧ yBufferPosition (m_scr m') = 0 ∧
    sc_fb (m_scr m') = fillVideoMemory (sc_vbe (m_scr m1)) DEFAULT_BACKGROUND_COLOR
      (sc_fb (m_scr m1))) m.
Proof.
  change (Z.to_nat (F12_KEY - ESCAPE_KEY + 1)) with 88%nat in Hl.
  destruct (clear_restore (m_kbd m) (replicate 88 NULL)) as (map & keys & Hc & _ & _ & Hres);
    [exact Hl|by rewrite length_replicate, Hl|].
  destruct (Hrun _ _ _ Hc eq_refl) as [Hret Hsame]. specialize (Hres _ Hsame).
  unfold sys_exec. change (Z.to_nat (F12_KEY - ESCAPE_KEY + 1)) with 88%nat.
  wp_step. apply wp_screen_do. wp_step. wp_step. wp_step. apply wp_get_kbd.
  cbn [id m_kbd store_screen set_m_scr set_m_k]. wp_step. eapply wp_kopt; [exact Hc|].
  cbv beta iota. wp_step. apply wp_on_kbd. wp_step. eapply wp_intro; [exact Hret|].
  wp_step. apply wp_get_kbd. cbn [id]. wp_step. eapply wp_kopt; [exact Hres|].
  wp_step. apply wp_on_kbd. do 4 (wp_step; apply wp_screen_do). wp_step.
  split; [done|]. split; [done|]. cbn -[fillVideoMemory i8 u8].
  assert (i8 (getFontSize (clear (load_screen m))) = fontSize (m_scr m)) as ->.
  { unfold getFontSize. cbn. rewrite wrapu_small, wraps_small by (cbn; lia). done. }
  rewrite !decide_False by lia. done.
Qed.

(** The snapshot call answers 0 and writes nothing until a snapshot was
    taken; then it answers 1 and leaves the eighteen saved registers at the
    program's address, changing no other byte of its memory. *)
Theorem sys_get_register_snapshot_correct m a :
  wp false (sys_get_register_snapshot a) (λ r m',
    if decide (register_snapshot_taken m = 0) then r = 0 ∧ m' = m
    else r = 1 ∧
      load_words (m_user m') a (length (register_snapshot m)) = Some (u64 <$> register_snapshot m) ∧
      ∀ b, b < a ∨ a + 8 * Z.of_nat (length (register_snapshot m)) ≤ b →
        m_user m' !! b = m_user m !! b) m.
Proof.
  unfold sys_get_register_snapshot. wp_step. wp_step.
  destruct (decide (register_snapshot_taken m = 0)); [by wp_step|].
  wp_step. wp_step. wp_step. apply wp_store_words. intros mem Hmem Hout. wp_step. auto.
Qed.

(** A number that is no system call (44 and 46 among them, the second of
    which the headers name) is answered 0 and changes nothing. *)
Theorem syscall_unknown fuel run r m
    (Hn : ¬ (3 ≤ rax r ≤ 4 ∨ 10 ≤ rax r ≤ 43 ∨ rax r = 45 ∨ 47 ≤ rax r ≤ 57)) :
  syscallDispatcher fuel run r m = Ret 0 m.
Proof.
  assert (dispatch_call fuel run r m = Ret 0 m) as E; [|unfold syscallDispatcher, mbind, K_bind; by rewrite E].
  unfold dispatch_call. repeat match goal with
  | |- context [decide (rax r = ?c)] =>
      rewrite (decide_False (P := rax r = c)) by (intros Er; rewrite Er in Hn; vm_compute in Hn; intuition congruence)
  end. done.
Qed.

(** [sys_block_process] is a switch: called twice on a READY process of
    the table it first takes it out of its queue as BLOCKED and then puts it
    back as READY, at the end of the queue and with its aging reset; both
    calls answer 0. *)
Theorem sys_block_process_twice m T R n p P (s := m_k m)
    (Hinv : sched_inv s T R) (HP : k_procs s !! p = Some P) (Hst : state P = READY)
    (Hn : 0 ≤ n < MAX_PROCESSES) (Htab : process_table s !! Z.to_nat n = Some p)
    (Hin : p ∈ R (priority P)) (Hpid : pid P ≠ 1) (Hpr : is_prio (priority P))
    (Hok : stack_ok P) (Hrun : running_process s ≠ p) (Hp0 : p ≠ NULL) (Hid : p ≠ idle_proc s) :
  wp true (a ← sys_block_process n; b ← sys_block_process n; mret (a, b)) (λ ab m',
    ab = (0, 0) ∧ k_procs (m_k m') = <[p := set_wait_ticks 0 P]> (k_procs s) ∧
    ∃ T' R' l1 l2, R (priority P) = l1 ++ p :: l2 ∧ sched_inv (m_k m') T' R' ∧
      lost_some T' T ∧
      ((∀ i, is_prio i → T' i ≠ NULL) →
         ∀ i, R' i = fupd R (priority P) ((l1 ++ l2) ++ [p]) i)) m.
Proof.
  wp_step. unfold sys_block_process at 1. apply wp_in_kernel. fold s. wp_step.
  unfold get_process. rewrite decide_False by lia. wp_step. wp_step. wp_step. rewrite Htab.
  cbn [default]. wp_step. wp_step. rewrite decide_False by tauto. wp_step.
  eapply wp_deref; [exact HP|]. rewrite Hst. rewrite decide_False by done. wp_step.
  rewrite decide_False by done.
  eapply wp_mono; [apply wp_nopanic; by apply (block_queued_spec s T R p P)|].
  intros r1 s1 (-> & Hps1 & Htb1 & Hid1 & Hrn1 & l1 & l2 & HR & Hinv1 & Hun1).
  wp_step. wp_step. unfold sys_block_process. apply wp_in_kernel. cbn [m_k set_m_k]. wp_step.
  unfold get_process. rewrite decide_False by lia. wp_step. wp_step. wp_step. rewrite Htb1, Htab.
  cbn [default]. wp_step. wp_step. rewrite Hid1, decide_False by tauto.
  set (P1 := set_wait_ticks 0 (set_state BLOCKED P)) in *. wp_step.
  eapply wp_deref; [rewrite Hps1; apply lookup_insert_eq|].
  change (state P1) with BLOCKED. rewrite decide_False by done. wp_step.
  rewrite decide_True by done.
  eapply (unblock_spec s1 T (fupd R (priority P) (l1 ++ l2)) p P1); try done.
  - by rewrite Hps1, lookup_insert_eq.
  - by rewrite Hid1.
  - by rewrite Hrn1.
  - intros s2 T' R' _ _ Hps2 Hinv2 HT HX. wp_step. wp_step. split; [done|].
    cbn [m_k set_m_k]. rewrite Hps2, Hps1, insert_insert_eq. split.
    { f_equal. destruct P; cbn in *; by subst. }
    exists T', R', l1, l2. split_and!; try done. intros HT' i. rewrite (HX HT').
    change (priority P1) with (priority P). rewrite fupd_eq. unfold fupd. by case_decide.
Qed.

(** Redirecting a process's input to a pipe that does not exist answers
    -1, but the process was already detached from its old pipe: its
    descriptor still names that pipe, which now counts one reader less than
    it has. *)
Theorem sys_set_read_target_stale m ps X old id p P T R q L Y W (s := m_k m)
    (Hse : sem_inv s T q L Y W) (Hsc : sched_inv s T R) (Hrep : pipes_rep s ps X)
    (HP : k_procs s !! running_process s = Some P) (Hr0 : running_process s ≠ NULL)
    (Ht : targetByFd P !! 0%nat = Some old) (Hold : 2 < old) (Hfind : find_pipe X old ps = p)
    (Hp : p ≠ NULL) (Har : canRead (X p) ∈ L) (Haw : canWrite (X p) ∈ L)
    (Hnr : pid P ∉ W (canRead (X p))) (Hnw : pid P ∉ W (canWrite (X p)))
    (Hrd : 1 < readers (X p)) (Hid : 2 < id) (Hnone : find_pipe X id ps = NULL) :
  wp false (sys_set_read_target_sys id) (λ r m', r = -1 ∧ k_procs (m_k m') = k_procs s ∧
    ∃ x, k_pipes (m_k m') = <[p := x]> (k_pipes s) ∧ p_id x = old ∧
      readers x = readers (X p) - 1) m.
Proof.
  assert (STDIN = 0 ∧ STDOUT = 1) as (E0 & E1) by done.
  unfold sys_set_read_target_sys. apply wp_in_kernel. fold s.
  unfold get_current_process, get_running_process. wp_step. wp_step.
  rewrite decide_False by done. wp_step. wp_step. wp_step. eapply wp_kopt; [exact Ht|].
  wp_step. rewrite bool_decide_eq_true_2 by lia. cbn [kwhen].
  eapply (wp_detachReader _ s); try done. intros s1 x Ep Er Ei (Eps & Erun & Ea & Est).
  rewrite decide_True by lia. wp_step. unfold attachReader. wp_step.
  assert (pipes_rep s1 ps (fupd X p x)) as Hrep1.
  { destruct Hrep as [H1 (A & HA & HA') H3]. constructor.
    - by rewrite Est.
    - exists A. by rewrite Est, Ea.
    - intros p' Hin Hn. rewrite Ep. unfold fupd. case_decide; subst.
      + by rewrite lookup_insert_eq.
      + rewrite lookup_insert_ne by done. auto. }
  eapply wp_getValidPipe; [exact Hrep1|].
  rewrite (find_pipe_fupd X id ps p x) by done. rewrite Hnone, decide_True by done.
  wp_step. rewrite decide_True by lia. wp_step.
  split; [done|]. split; [done|]. exists x. split; [done|]. split; [|done].
  rewrite Ei. by destruct (find_pipe_spec _ _ _ _ Hfind Hp).
Qed.
End properties.

(** ** A machine for the witnesses

    The kernel of [PipeFacts] with the running process bound to pipe 3. *)
Section demo.
Definition bound_pcb : Process := set_targetByFd [3; 3; 2] (demo_pcb 2 RUNNING 20000).
Definition bound_kst (x : pipe) : kst ff_state :=
  set_k_procs (<[2000 := bound_pcb]> sem_procs) (pipe_kst x).
(** "hi" at address 100. *)
Definition hi_mem : gmap Z Z := list_to_map [(100, 104); (101, 105)].
Definition sys_demo (s : kst ff_state) : machine ff_state :=
  Machine s console_demo (kbd_demo [] 0) 0 0 0 hi_mem ∅ [7; 2 ^ 64 - 1] 1 (0, 0, 0) [].

Lemma bound_rep x : pipes_rep (bound_kst x) [900] (λ _, x).
Proof. destruct (pipe_kst_rep x) as [H1 H2 H3]. by constructor. Qed.

Lemma bound_sem x : sem_inv (bound_kst x) demo_T 510 sem_L sem_X sem_W.
Proof. eapply sem_inv_frame; [apply (pipe_kst_sem x)|apply lost_some_refl|done..]. Qed.

Lemma bound_sched x : sched_inv (bound_kst x) demo_T no_ready.
Proof.
  destruct (pipe_kst_sched x) as [H1 H2 H3 H4 H5 H6]. constructor; try done.
  - by apply sched_rep_procs.
  - apply (ready_ok_insert sem_procs 1000 no_ready 2000 (demo_pcb 2 RUNNING 20000)); try done.
    by intros i _ ?%elem_of_nil.
  - right. by exists bound_pcb.
Qed.

Lemma fd_roundtrip_witness :
  let m := sys_demo (bound_kst (demo_pipe ∅ 0 0)) in
  wp false (a ← fd_write 1 100 2; b ← fd_read 0 0 200 2; mret (a, b)) (λ ab m',
    ab = (2, 2) ∧ load_bytes (m_user m') 200 2 = Some [104; 105] ∧
    (∀ b, b < 200 ∨ 200 + 2 ≤ b → m_user m' !! b = hi_mem !! b) ∧
    m_scr m' = console_demo ∧ m_kbd m' = kbd_demo [] 0) m.
Proof.
  refine (fd_roundtrip (sys_demo (bound_kst (demo_pipe ∅ 0 0))) [900] (λ _, demo_pipe ∅ 0 0) 3 900
    bound_pcb 1 0 100 200 2 [104; 105] 0 _ _ _ _ _ _ _ (bound_rep _) _ _ (demo_ring_empty 0)
    _ _ _ _ _ _ _); try done.
  repeat constructor; lia.
Defined.

Lemma fd_write_prints_witness :
  let m := sys_demo sem_kst in
  wp false (fd_write 2 100 2) (λ r m', r = 2 ∧ ∃ s,
    putChars [104; 105] (choose_descriptor 2 (load_screen m)) = Some s ∧
    console_ok s ∧ m' = store_screen s m) m.
Proof.
  refine (fd_write_prints (sys_demo sem_kst) (demo_pcb 2 RUNNING 20000) 2 2 100 2 [104; 105]
    _ _ _ _ _ _ _ _ console_demo_ok); try done.
  - by right.
  - repeat constructor; lia.
Defined.

(** A program that changes the colour and answers 7. *)
Definition exec_demo : machine ff_state := set_m_kbd kbd_keys (sys_demo sem_kst).
Definition exec_after : machine ff_state :=
  let m0 := store_screen (clear (load_screen exec_demo)) exec_demo in
  let keys := <[60%nat := (0, 0)]> (KeyFnMap kbd_keys) in
  let m1 := set_m_kbd (set_KeyFnMap keys kbd_keys) m0 in
  store_screen (setTextColor 5 (load_screen m1)) m1.

Lemma sys_exec_restores_witness :
  wp false (sys_exec (_ ← screen_do (setTextColor 5); mret 7)) (λ r m', r = 7 ∧
    m_kbd m' = set_KeyFnMap (KeyFnMap kbd_keys) (m_kbd exec_after) ∧
    fontSize (m_scr m') = 1 ∧ text_color (m_scr m') = DEFAULT_TEXT_COLOR ∧
    background_color (m_scr m') = DEFAULT_BACKGROUND_COLOR ∧
    xBufferPosition (m_scr m') = 0 ∧ yBufferPosition (m_scr m') = 0 ∧
    sc_fb (m_scr m') = fillVideoMemory vbe_small DEFAULT_BACKGROUND_COLOR
      (sc_fb (m_scr exec_after))) exec_demo.
Proof.
  refine (sys_exec_restores exec_demo (_ ← screen_do (setTextColor 5); mret 7) 7 exec_after
    _ _ _).
  - cbn. lia.
  - by vm_compute.
  - assert (snd <$> clearKeyFnMapNonKernel (replicate 88 NULL) kbd_keys =
      Some (set_KeyFnMap (<[60%nat := (0, 0)]> (KeyFnMap kbd_keys)) kbd_keys)) as E
      by by vm_compute.
    intros m0 map keys Hc ->. cbn [m_kbd exec_demo set_m_kbd] in Hc. rewrite Hc in E.
    cbn [fmap option_fmap option_map snd] in E. injection E as E. subst keys.
    split; [reflexivity|]. split_and!; [done|done|]. auto.
Defined.

Lemma sys_set_read_target_stale_witness :
  let x := set_readers 2 (demo_pipe ∅ 0 0) in
  wp false (sys_set_read_target_sys 9) (λ r m', r = -1 ∧
    k_procs (m_k m') = <[2000 := bound_pcb]> sem_procs ∧
    ∃ y, k_pipes (m_k m') = <[900 := y]> {[900 := x]} ∧ p_id y = 3 ∧ readers y = 2 - 1)
    (sys_demo (bound_kst x)).
Proof.
  refine (sys_set_read_target_stale (sys_demo (bound_kst (set_readers 2 (demo_pipe ∅ 0 0)))) [900]
    (λ _, set_readers 2 (demo_pipe ∅ 0 0)) 3 9 900 bound_pcb demo_T no_ready 510 sem_L sem_X sem_W
    (bound_sem _) (bound_sched _) (bound_rep _) _ _ _ _ _ _ _ _ _ _ _ _ _); try done.
  - apply list_elem_of_further, list_elem_of_here.
  - apply list_elem_of_here.
  - by apply (bool_decide_unpack _).
  - by apply (bool_decide_unpack _).
Defined.

(** Call 46 with arguments. *)
Definition regs_demo : Registers := Regs 0 0 0 0 0 0 0 0 5 3 0 1 0 0 46 0.
Lemma syscall_unknown_witness :
  syscallDispatcher 0 (λ _, undefined) regs_demo (sys_demo sem_kst) = Ret 0 (sys_demo sem_kst).
Proof. apply (syscall_unknown 0 (λ _, undefined) regs_demo). cbn. lia. Defined.

Lemma sys_block_process_twice_witness :
  let m := Machine (set_process_table (<[2%nat := 2000]> (replicate 64 NULL)) demo_kst)
    console_demo (kbd_demo [] 0) 0 0 0 ∅ ∅ [] 0 (0, 0, 0) [] in
  wp true (a ← sys_block_process 2; b ← sys_block_process 2; mret (a, b)) (λ ab m',
    ab = (0, 0) ∧
    k_procs (m_k m') = <[2000 := set_wait_ticks 0 (demo_pcb 2 READY 20000)]> demo_procs ∧
    ∃ T' R' l1 l2, demo_R 0 = l1 ++ 2000 :: l2 ∧ sched_inv (m_k m') T' R' ∧
      lost_some T' demo_T ∧
      ((∀ i, is_prio i → T' i ≠ NULL) →
         ∀ i, R' i = fupd demo_R 0 ((l1 ++ l2) ++ [2000]) i)) m.
Proof.
  refine (sys_block_process_twice (Machine
    (set_process_table (<[2%nat := 2000]> (replicate 64 NULL)) demo_kst)
    console_demo (kbd_demo [] 0) 0 0 0 ∅ ∅ [] 0 (0, 0, 0) []) demo_T demo_R 2 2000
    (demo_pcb 2 READY 20000) _ _ _ _ _ _ _ _ _ _ _ _); try done.
  - eapply sched_inv_ext; [apply demo_inv|done..].
  - apply list_elem_of_here.
Defined.
End demo.
