(* ===== verification/Numerals.v ===== *)
(** * Numbers on the screen ([uintToBase] of [fonts.c]) and panics

    The digits are written into a buffer of 64 characters, least significant
    first, terminated and then reversed in place.  A store outside the buffer
    is [None]. *)

From S2P Require Import Prelude MemoryManager Monad KState Strings Console Machine Keyboard.

Definition digit_char (remainder : Z) : Z :=
  if decide (remainder < 10) then remainder + 48 else remainder + 65 - 10.

(** [*p = c] *)
Definition put_at (p : nat) (c : Z) (buffer : list Z) : option (list Z) :=
  if decide (p < length buffer)%nat then Some (<[p := c]> buffer) else None.

(** [do ... while (value /= base);] from position [p]. *)
Fixpoint base_loop (fuel : nat) (value base : Z) (buffer : list Z) (p : nat)
  : option (list Z * nat) :=
  match fuel with
  | O => None
  | S fuel =>
      buffer ← put_at p (digit_char (u32 (value mod base))) buffer;
      if decide (value / base = 0) then Some (buffer, S p)
      else base_loop fuel (value / base) base buffer (S p)
  end.

(** [while (p1 < p2)] swap and move inwards. *)
Fixpoint reverse_loop (fuel : nat) (p1 p2 : nat) (buffer : list Z) : option (list Z) :=
  match fuel with
  | O => None
  | S fuel =>
      if decide (p1 < p2)%nat then
        tmp ← buffer !! p1;
        c ← buffer !! p2;
        buffer ← put_at p1 c buffer;
        buffer ← put_at p2 tmp buffer;
        reverse_loop fuel (S p1) (p2 - 1) buffer
      else Some buffer
  end.

(** The number of digits, and the buffer. *)
Definition uintToBase (value base : Z) (buffer : list Z) : option (Z * list Z) :=
  '(buffer, p) ← base_loop 65 value base buffer 0;
  buffer ← put_at p 0 buffer;
  buffer ← reverse_loop (S p) 0 (p - 1) buffer;
  Some (Z.of_nat p, buffer).

(** [static char buffer[64] = {'0'};] *)
Definition number_buffer : list Z := 48 :: replicate 63 0.

(** The characters before the terminator. *)
Fixpoint until_nul (l : list Z) : option (list Z) :=
  match l with
  | [] => None
  | c :: l => if decide (c = 0) then Some [] else l' ← until_nul l; Some (c :: l')
  end.

Section printing.
Context {St : Type} `{MemoryManager St}.
Abbreviation M := (K (machine St)).

(** The answer is the buffer afterwards. *)
Definition printBase (value base : Z) (buffer : list Z) : M (list Z) :=
  '(_, buffer) ← kopt (uintToBase value base buffer);
  s ← kopt (until_nul buffer);
  _ ← print s;
  mret buffer.

Definition printDec (value : Z) (buffer : list Z) : M (list Z) := printBase value 10 buffer.
Definition printHex (value : Z) (buffer : list Z) : M (list Z) := printBase value 16 buffer.
Definition printBin (value : Z) (buffer : list Z) : M (list Z) := printBase value 2 buffer.
End printing.

(** ** The reference

    The digits of a number, most significant first, and the number they
    denote. *)
Fixpoint numeral (fuel : nat) (base value : Z) : list Z :=
  match fuel with
  | O => []
  | S fuel => if decide (value / base = 0) then [value mod base]
              else numeral fuel base (value / base) ++ [value mod base]
  end.
Definition numeral_value (base : Z) (l : list Z) : Z := foldl (λ v d, v * base + d) 0 l.

Section facts.
Implicit Types (buffer l : list Z).

Lemma numeral_value_spec fuel : ∀ base value,
  1 < base → 0 ≤ value < base ^ Z.of_nat fuel → (0 < fuel)%nat →
  numeral_value base (numeral fuel base value) = value.
Proof.
  induction fuel as [|fuel IH]; intros base value Hb Hv Hf; [lia|]. cbn [numeral].
  pose proof (Z.div_mod value base). case_decide as E.
  - unfold numeral_value. cbn. lia.
  - unfold numeral_value. rewrite foldl_snoc. fold (numeral_value base (numeral fuel base (value / base))).
    rewrite Nat2Z.inj_succ, Z.pow_succ_r in Hv by lia.
    assert (0 ≤ value / base < base ^ Z.of_nat fuel) as Hd.
    { split; [apply Z.div_pos; lia|apply Z.div_lt_upper_bound; lia]. }
    destruct fuel as [|fuel]; [cbn in Hd; lia|].
    rewrite IH by (done || lia). lia.
Qed.

Lemma numeral_range fuel : ∀ base value, 0 < base →
  Forall (λ d, 0 ≤ d < base) (numeral fuel base value).
Proof.
  induction fuel as [|fuel IH]; intros base value Hb; cbn [numeral]; [constructor|].
  pose proof (Z.mod_pos_bound value base Hb).
  case_decide; [by apply Forall_singleton|]. apply Forall_app.
  split; [auto|by apply Forall_singleton].
Qed.

Lemma numeral_short fuel : ∀ n base value,
  1 < base → 0 ≤ value < base ^ Z.of_nat n → (0 < n)%nat → (length (numeral fuel base value) ≤ n)%nat.
Proof.
  induction fuel as [|fuel IH]; intros n base value Hb Hv Hn; cbn [numeral]; [simpl; lia|].
  case_decide as E; [simpl; lia|]. rewrite length_app. cbn [length].
  destruct n as [|n]; [lia|]. rewrite Nat2Z.inj_succ, Z.pow_succ_r in Hv by lia.
  assert (0 ≤ value / base < base ^ Z.of_nat n) as Hd.
  { split; [apply Z.div_pos; lia|apply Z.div_lt_upper_bound; lia]. }
  destruct n as [|n]; [cbn in Hd; lia|]. specialize (IH (S n) base (value / base) Hb Hd). lia.
Qed.

Lemma numeral_long fuel : ∀ n base value,
  1 < base → base ^ Z.of_nat n ≤ value → (n < fuel)%nat → (n < length (numeral fuel base value))%nat.
Proof.
  induction fuel as [|fuel IH]; intros n base value Hb Hv Hn; [lia|]. cbn [numeral].
  destruct n as [|n]; [case_decide; rewrite ?length_app; cbn; lia|].
  rewrite Nat2Z.inj_succ, Z.pow_succ_r in Hv by lia.
  assert (base ^ Z.of_nat n ≤ value / base) as Hd by (apply Z.div_le_lower_bound; lia).
  pose proof (Z.pow_pos_nonneg base (Z.of_nat n)).
  rewrite decide_False by lia. rewrite length_app. cbn [length].
  specialize (IH n base (value / base) Hb Hd). lia.
Qed.

Lemma put_at_spec p c buffer :
  put_at p c buffer = if decide (p < length buffer)%nat then Some (<[p := c]> buffer) else None.
Proof. done. Qed.

(** The loop writes the digits in reverse from [p] on, or runs out of
    buffer. *)
Lemma base_loop_spec fuel : ∀ value base buffer p,
  1 < base < 2 ^ 32 → 0 ≤ value < base ^ Z.of_nat fuel → (0 < fuel)%nat →
  (p ≤ length buffer)%nat →
  let ds := digit_char <$> reverse (numeral fuel base value) in
  base_loop fuel value base buffer p =
    if decide (p + length ds ≤ length buffer)%nat
    then Some (take p buffer ++ ds ++ drop (p + length ds) buffer, (p + length ds)%nat)
    else None.
Proof.
  induction fuel as [|fuel IH]; intros value base buffer p Hb Hv Hf Hp; [lia|].
  cbn [base_loop numeral]. pose proof (Z.mod_pos_bound value base).
  assert (u32 (value mod base) = value mod base) as -> by (apply wrapu_small; lia).
  set (c := digit_char (value mod base)). unfold put_at.
  destruct (decide (value / base = 0)) as [E|E].
  - cbn. fold c. destruct (decide (p < length buffer)%nat) as [Hl|Hl].
    + cbn [mbind option_bind]. rewrite decide_True by lia. do 2 f_equal; [|lia]. rewrite insert_take_drop by done.
      by replace (S p) with (p + 1)%nat by lia.
    + by rewrite decide_False by lia.
  - rewrite reverse_snoc. cbn [fmap list_fmap list_fmap]. fold c. cbn [length].
    rewrite Nat2Z.inj_succ, Z.pow_succ_r in Hv by lia.
    assert (0 ≤ value / base < base ^ Z.of_nat fuel) as Hd.
    { split; [apply Z.div_pos; lia|apply Z.div_lt_upper_bound; lia]. }
    destruct fuel as [|fuel]; [cbn in Hd; lia|].
    destruct (decide (p < length buffer)%nat) as [Hl|Hl];
      [|by rewrite decide_False by (rewrite length_fmap; lia)].
    cbn [mbind option_bind].
    rewrite IH; [|done|done|lia|rewrite length_insert; lia].
    rewrite length_insert. set (ds := digit_char <$> reverse _).
    change (length (digit_char <$> _)) with (length ds).
    replace (p + S (length ds))%nat with (S p + length ds)%nat by lia.
    case_decide as Hfit; [|done]. do 2 f_equal.
    rewrite insert_take_drop by done.
    rewrite (take_app_ge _ _ (S p)), (drop_app_ge _ _ (S p + length ds)) by (rewrite length_take; lia).
    rewrite length_take. replace (S p - min p (length buffer))%nat with 1%nat by lia.
    replace (S p + length ds - min p (length buffer))%nat with (S (length ds)) by lia.
    cbn [take drop]. rewrite drop_drop, take_0, <-app_assoc. cbn [app]. do 3 f_equal.
Qed.

Lemma put_at_app a x y b : put_at (length a) y (a ++ x :: b) = Some (a ++ y :: b).
Proof.
  unfold put_at. rewrite decide_True by (rewrite length_app; cbn; lia).
  by rewrite insert_app_r_alt, Nat.sub_diag by lia.
Qed.

(** Reversing the part between [p1] and [p2]. *)
Lemma reverse_loop_spec fuel : ∀ a l b,
  (length l ≤ fuel)%nat → (0 < fuel)%nat →
  reverse_loop fuel (length a) (length a + length l - 1) (a ++ l ++ b) = Some (a ++ reverse l ++ b).
Proof.
  induction fuel as [|fuel IH]; intros a l b Hf H0; [lia|]. cbn [reverse_loop].
  destruct (decide (length a < length a + length l - 1)%nat) as [Hlt|Hge].
  2: { destruct l as [|x [|y l]]; cbn in Hge; [done|done|lia]. }
  destruct l as [|x l]; [cbn in Hlt; lia|].
  destruct l as [|y l _] using rev_ind; [cbn in Hlt; lia|].
  assert ((length a + length (x :: l ++ [y]) - 1) = length (a ++ x :: l))%nat as ->
    by (rewrite length_cons, !length_app, length_cons; cbn; lia).
  assert (∀ z z', a ++ (z :: l ++ [z']) ++ b = (a ++ z :: l) ++ z' :: b) as E1
    by (intros z z'; cbn; by rewrite <-!app_assoc).
  assert ((a ++ (x :: l ++ [y]) ++ b) !! length a = Some x) as ->
    by (rewrite lookup_app_r, Nat.sub_diag by lia; done).
  cbn [mbind option_bind].
  assert ((a ++ (x :: l ++ [y]) ++ b) !! length (a ++ x :: l) = Some y) as ->
    by (rewrite E1, lookup_app_r, Nat.sub_diag by lia; done).
  cbn [mbind option_bind]. cbn [app]. rewrite put_at_app. cbn [mbind option_bind].
  assert (length (a ++ x :: l) = length (a ++ y :: l)) as -> by (rewrite !length_app; done).
  change (a ++ y :: (l ++ [y]) ++ b) with (a ++ (y :: l ++ [y]) ++ b).
  rewrite E1, put_at_app. cbn [mbind option_bind]. rewrite <-E1.
  cbn [length] in Hf. rewrite length_app in Hf. cbn [length] in Hf.
  destruct fuel as [|fuel]; [lia|].
  specialize (IH (a ++ [y]) l (x :: b)). rewrite length_app in IH. cbn [length] in IH.
  replace (S (length a)) with (length a + 1)%nat by lia.
  replace (length (a ++ y :: l) - 1)%nat with (length a + 1 + length l - 1)%nat
    by (rewrite length_app; cbn; lia).
  replace (a ++ (y :: l ++ [x]) ++ b) with ((a ++ [y]) ++ l ++ x :: b)
    by (cbn; by rewrite <-!app_assoc).
  rewrite IH by lia. f_equal. rewrite reverse_cons, reverse_snoc.
  cbn [app]. by rewrite <-!app_assoc.
Qed.

Lemma digit_char_nonzero d : 0 ≤ d → digit_char d ≠ 0.
Proof. unfold digit_char. case_decide; lia. Qed.

Lemma until_nul_app l b : Forall (λ c, c ≠ 0) l → until_nul (l ++ 0 :: b) = Some l.
Proof.
  induction 1 as [|c l Hc _ IH]; [done|]. cbn. rewrite decide_False by done. by rewrite IH.
Qed.

(** The whole function. *)
Lemma uintToBase_spec value base buffer :
  1 < base < 2 ^ 32 → 0 ≤ value < 2 ^ 64 →
  let ds := digit_char <$> numeral 65 base value in
  uintToBase value base buffer =
    if decide (length ds < length buffer)%nat
    then Some (Z.of_nat (length ds), ds ++ 0 :: drop (S (length ds)) buffer) else None.
Proof.
  intros Hb Hv ds. unfold uintToBase.
  assert (0 ≤ value < base ^ Z.of_nat 65) as Hv2.
  { split; [lia|]. eapply Z.lt_le_trans; [apply Hv|].
    transitivity (2 ^ Z.of_nat 65); [done|]. apply Z.pow_le_mono_l. lia. }
  rewrite base_loop_spec by (done || lia). rewrite fmap_reverse, length_reverse. fold ds. clearbody ds.
  rewrite take_0. cbn [app]. rewrite Nat.add_0_l. destruct (decide (length ds ≤ length buffer)%nat) as [Hle|Hgt].
  2: { by rewrite decide_False by lia. }
  cbn [mbind option_bind]. destruct (decide (length ds < length buffer)%nat) as [Hlt|Hge].
  2: { unfold put_at. by rewrite decide_False by (rewrite length_app, length_reverse, length_drop; lia). }
  destruct (drop (length ds) buffer) as [|x b] eqn:Ed.
  { apply (f_equal length) in Ed. rewrite length_drop in Ed. cbn in Ed. lia. }
  assert (drop (S (length ds)) buffer = b) as ->.
  { replace (S (length ds)) with (length ds + 1)%nat by lia. by rewrite <-drop_drop, Ed. }
  assert (put_at (length ds) 0 (reverse ds ++ x :: b) = Some (reverse ds ++ 0 :: b)) as ->.
  { rewrite <-(length_reverse ds). apply put_at_app. }
  cbn [mbind option_bind].
  pose proof (reverse_loop_spec (S (length ds)) [] (reverse ds) (0 :: b)) as Hr.
  rewrite length_reverse in Hr. cbn [length app] in Hr. rewrite Nat.add_0_l in Hr.
  rewrite Hr by lia. cbn [mbind option_bind]. by rewrite reverse_involutive.
Qed.
End facts.

(** * Properties *)

(** For every base up to 36 the routine writes the digits of the value,
    most significant first, and a terminator, and leaves the rest of the
    buffer; the digits denote the value.  It fits exactly when the digits and
    the terminator do. *)
Theorem uintToBase_roundtrip value base buffer (Hb : 1 < base ≤ 36) (Hv : 0 ≤ value < 2 ^ 64) :
  let ds := numeral 65 base value in
  numeral_value base ds = value ∧ Forall (λ d, 0 ≤ d < base) ds ∧
  ((length ds < length buffer)%nat → ∃ buffer',
     uintToBase value base buffer = Some (Z.of_nat (length ds), buffer') ∧
     until_nul buffer' = Some (digit_char <$> ds) ∧
     drop (S (length ds)) buffer' = drop (S (length ds)) buffer ∧
     length buffer' = length buffer) ∧
  ((length buffer ≤ length ds)%nat → uintToBase value base buffer = None).
Proof.
  intros ds. assert (0 ≤ value < base ^ Z.of_nat 65) as Hv2.
  { split; [lia|]. eapply Z.lt_le_trans; [apply Hv|].
    transitivity (2 ^ Z.of_nat 65); [done|]. apply Z.pow_le_mono_l. lia. }
  split; [apply numeral_value_spec; (done || lia)|].
  pose proof (numeral_range 65 base value) as Hr. fold ds in Hr.
  split; [apply Hr; lia|].
  pose proof (uintToBase_spec value base buffer) as Hs. cbv zeta in Hs. fold ds in Hs. clearbody ds.
  rewrite length_fmap in Hs. split; intros Hl; rewrite Hs by lia.
  - rewrite decide_True by done. eexists. split; [done|]. split; [|split].
    + apply until_nul_app, Forall_fmap. eapply Forall_impl; [apply Hr; lia|].
      intros d [Hd _]. by apply digit_char_nonzero.
    + rewrite drop_app_ge by (rewrite length_fmap; lia). rewrite length_fmap.
      by replace (S (length ds) - length ds)%nat with 1%nat by lia.
    + rewrite length_app, length_fmap. cbn [length]. rewrite length_drop. lia.
  - by rewrite decide_False by lia.
Qed.

(** The 64 characters the kernel reserves are enough for decimal and
    hexadecimal, but not for binary: the terminator of a number of 2^63 or
    more is written past the buffer. *)
Theorem printBin_overflows value buffer (Hv : 0 ≤ value < 2 ^ 64)
    (Hl : length buffer = 64%nat) :
  (uintToBase value 2 buffer = None ↔ 2 ^ 63 ≤ value) ∧
  uintToBase value 10 buffer ≠ None ∧ uintToBase value 16 buffer ≠ None.
Proof.
  assert (∀ base, 2 ≤ base ≤ 16 → uintToBase value base buffer ≠ None ↔
    (length (numeral 65 base value) < 64)%nat) as Hs.
  { intros base Hb. rewrite uintToBase_spec, length_fmap, Hl by lia. by case_decide. }
  split; [|split].
  - destruct (decide (2 ^ 63 ≤ value)) as [Hbig|Hsmall].
    + pose proof (numeral_long 65 63 2 value). split; [done|]. intros _.
      destruct (uintToBase value 2 buffer) eqn:E; [|done].
      assert (uintToBase value 2 buffer ≠ None) as Hn by (by rewrite E).
      apply Hs in Hn; [|lia]. lia.
    + pose proof (numeral_short 65 63 2 value). split; [|done]. intros E.
      destruct (proj2 (Hs 2 ltac:(lia))); [lia|done].
  - apply Hs; [lia|]. pose proof (numeral_short 65 20 10 value). lia.
  - apply Hs; [lia|]. pose proof (numeral_short 65 16 16 value). lia.
Qed.

Lemma uintToBase_roundtrip_witness :
  numeral_value 16 [11; 14; 14; 15] = 0xBEEF ∧
  Forall (λ d, 0 ≤ d < 16) [11; 14; 14; 15] ∧
  ((4 < 64)%nat → ∃ buffer',
     uintToBase 0xBEEF 16 number_buffer = Some (4, buffer') ∧
     until_nul buffer' = Some [66; 69; 69; 70] ∧
     drop 5 buffer' = drop 5 number_buffer ∧ length buffer' = 64%nat) ∧
  ((64 ≤ 4)%nat → uintToBase 0xBEEF 16 number_buffer = None).
Proof. apply (uintToBase_roundtrip 0xBEEF 16 number_buffer); lia. Defined.

Lemma printBin_overflows_witness :
  (uintToBase (2 ^ 63) 2 number_buffer = None ↔ 2 ^ 63 ≤ 2 ^ 63) ∧
  uintToBase (2 ^ 63) 10 number_buffer ≠ None ∧ uintToBase (2 ^ 63) 16 number_buffer ≠ None.
Proof. apply (printBin_overflows (2 ^ 63) number_buffer); [lia|reflexivity]. Defined.
