(* ===== verification/Lib.v ===== *)
(** * Block memory operations and modules ([lib.c], [moduleLoader.c],
      [Toolchain/ModulePacker/main.c])

    [memset] and [memcpy] on byte memory; the image the packer writes (kernel,
    number of modules, and for each its size and its bytes) and the loader
    that unpacks it.  Reading a byte that is not mapped is [None]. *)

From S2P Require Import Prelude Machine.

Abbreviation mem := (gmap Z Z).

(** ** [lib.c] *)

(** [while (length--) dst[length] = chr;] *)
Fixpoint memset_loop (length : nat) (m : mem) (dst chr : Z) : mem :=
  match length with
  | O => m
  | S length => memset_loop length (<[dst + Z.of_nat length := chr]> m) dst chr
  end.

(** The answer is the destination. *)
Definition memset (m : mem) (destination c length : Z) : Z * mem :=
  (destination, memset_loop (Z.to_nat length) m destination (u8 c)).

(** [for (i = 0; i < n; i++) d[i] = s[i];] on bytes ... *)
Fixpoint copy_bytes (n : nat) (m : mem) (d s : Z) : option mem :=
  match n with
  | O => Some m
  | S n => b ← m !! s; copy_bytes n (<[d := b]> m) (d + 1) (s + 1)
  end.

(** ... and on [uint32_t]. *)
Fixpoint copy_words (n : nat) (m : mem) (d s : Z) : option mem :=
  match n with
  | O => Some m
  | S n =>
      w ← load_bytes m s 4;
      copy_words n (store_bytes m d (le_bytes 4 (le_value w))) (d + 4) (s + 4)
  end.

Definition memcpy (m : mem) (destination source length : Z) : option (Z * mem) :=
  m ← (if decide (destination mod 4 = 0 ∧ source mod 4 = 0 ∧ length mod 4 = 0)
       then copy_words (Z.to_nat (length / 4)) m destination source
       else copy_bytes (Z.to_nat length) m destination source);
  Some (destination, m).

(** ** [moduleLoader.c] *)

(** The value, and the address after it. *)
Definition readUint32 (m : mem) (address : Z) : option (Z * Z) :=
  l ← load_bytes m address 4; Some (le_value l, address + 4).

Definition loadModule (m : mem) (module targetModuleAddress : Z) : option (Z * mem) :=
  '(moduleSize, module) ← readUint32 m module;
  '(_, m) ← memcpy m targetModuleAddress module moduleSize;
  Some (module + moduleSize, m).

(** [n] modules left; the array of targets may be too short. *)
Fixpoint load_loop (n : nat) (m : mem) (currentModule : Z) (targets : list Z) : option mem :=
  match n with
  | O => Some m
  | S n =>
      match targets with
      | [] => None
      | t :: targets =>
          '(currentModule, m) ← loadModule m currentModule t;
          load_loop n m currentModule targets
      end
  end.

Definition loadModules (m : mem) (payloadStart : Z) (targetModuleAddress : list Z) : option mem :=
  '(moduleCount, currentModule) ← readUint32 m payloadStart;
  load_loop (Z.to_nat moduleCount) m currentModule targetModuleAddress.

(** ** The packer

    A file is the list of its bytes; [files] is the file system. *)

Definition BUFFER_SIZE : nat := 128.

(** [while (!feof(source))]: read a buffer, write what was read; the end is
    seen by the read that comes short. *)
Fixpoint write_file_loop (fuel : nat) (target source : list Z) : option (list Z) :=
  match fuel with
  | O => None
  | S fuel =>
      let buffer := take BUFFER_SIZE source in
      let target := target ++ buffer in
      if decide (length buffer < BUFFER_SIZE)%nat then Some target
      else write_file_loop fuel target (drop BUFFER_SIZE source)
  end.
Definition write_file (target source : list Z) : option (list Z) :=
  write_file_loop (S (length source)) target source.

Definition write_size (target file : list Z) : list Z :=
  target ++ le_bytes 4 (u32 (Z.of_nat (length file))).

(** [for (i = 1 ; i < fileArray.length ; i++)] *)
Fixpoint pack_modules (target : list Z) (modules : list (list Z)) : option (list Z) :=
  match modules with
  | [] => Some target
  | f :: modules => target ← write_file (write_size target f) f; pack_modules target modules
  end.

Definition buildImage (fileArray : list (list Z)) : option (list Z) :=
  match fileArray with
  | [] => None
  | kernel :: modules =>
      target ← write_file [] kernel;
      pack_modules (target ++ le_bytes 4 (u32 (Z.of_nat (length modules)))) modules
  end.

Definition checkFiles {N} `{Countable N} (files : gmap N (list Z)) (names : list N) : bool :=
  forallb (λ f, bool_decide (is_Some (files !! f))) names.

(** The exit code, and the image. *)
Definition packer_main {N} `{Countable N} (files : gmap N (list Z)) (names : list N)
  : option (Z * list Z) :=
  if negb (checkFiles files names) then Some (1, [])
  else
    fileArray ← mapM (λ f, files !! f) names;
    image ← buildImage fileArray; Some (0, image).

(** ** Facts *)

Section facts.
Implicit Types (m : mem) (l : list Z).

(** [len] bytes moved from [s] to [d]. *)
Definition moved m m' (d s len : Z) : Prop :=
  ∀ a, m' !! a = if decide (d ≤ a < d + len) then m !! (s + (a - d)) else m !! a.

(** A forward copy reads each byte before it is overwritten. *)
Definition forward_safe (d s len : Z) : Prop := d ≤ s ∨ s + len ≤ d.

Lemma memset_loop_spec n : ∀ m dst chr a,
  memset_loop n m dst chr !! a =
    if decide (dst ≤ a < dst + Z.of_nat n) then Some chr else m !! a.
Proof.
  induction n as [|n IH]; intros m dst chr a; cbn [memset_loop].
  { by rewrite decide_False by lia. }
  rewrite IH. destruct (decide (a = dst + Z.of_nat n)) as [->|Hne].
  - rewrite decide_False, decide_True by lia. apply lookup_insert_eq.
  - rewrite lookup_insert_ne by done. repeat case_decide; (done || lia).
Qed.

Lemma copy_bytes_spec n : ∀ m d s,
  forward_safe d s (Z.of_nat n) → (∀ a, s ≤ a < s + Z.of_nat n → is_Some (m !! a)) →
  ∃ m', copy_bytes n m d s = Some m' ∧ moved m m' d s (Z.of_nat n).
Proof.
  induction n as [|n IH]; intros m d s Hd Hm; cbn [copy_bytes].
  { exists m. split; [done|]. intros a. by rewrite decide_False by lia. }
  destruct (Hm s) as [b Hb]; [lia|]. rewrite Hb. cbn [mbind option_bind].
  destruct (decide (d = s)) as [->|Hne].
  - destruct (IH (<[s := b]> m) (s + 1) (s + 1)) as (m' & -> & Hmv).
    + left. lia.
    + intros a Ha. rewrite lookup_insert_is_Some. destruct (decide (s = a)); [by left|right].
      split; [done|]. apply Hm. lia.
    + exists m'. split; [done|]. intros a. rewrite Hmv, insert_id by done.
      repeat case_decide; try done; try (f_equal; lia).
  - destruct (IH (<[d := b]> m) (d + 1) (s + 1)) as (m' & -> & Hmv).
    + unfold forward_safe in *. lia.
    + intros a Ha. rewrite lookup_insert_is_Some. destruct (decide (d = a)); [by left|right].
      split; [done|]. apply Hm. lia.
    + exists m'. split; [done|]. intros a. rewrite Hmv. unfold forward_safe in Hd.
      destruct (decide (a = d)) as [->|].
      * rewrite decide_False, decide_True by lia. rewrite lookup_insert_eq, <-Hb. f_equal. lia.
      * repeat case_decide; try lia; (rewrite lookup_insert_ne by lia); [f_equal; lia|done].
Qed.

Lemma store_bytes_lookup l : ∀ m d a,
  store_bytes m d l !! a =
    if decide (d ≤ a < d + Z.of_nat (length l)) then u8 <$> l !! Z.to_nat (a - d) else m !! a.
Proof.
  induction l as [|c l IH]; intros m d a; cbn [store_bytes length].
  { by rewrite decide_False by lia. }
  rewrite IH. destruct (decide (a = d)) as [->|Hne].
  - rewrite decide_False, decide_True by lia. rewrite lookup_insert_eq.
    by replace (Z.to_nat (d - d)) with 0%nat by lia.
  - rewrite lookup_insert_ne by done. repeat case_decide; try done; try lia.
    by replace (Z.to_nat (a - d)) with (S (Z.to_nat (a - (d + 1)))) by lia.
Qed.

Lemma load_bytes_lookup n : ∀ m s l, load_bytes m s n = Some l →
  length l = n ∧ ∀ i, (i < n)%nat → m !! (s + Z.of_nat i) = l !! i.
Proof.
  induction n as [|n IH]; intros m s l; cbn [load_bytes].
  { intros [= <-]. split; [done|]. lia. }
  destruct (m !! s) as [b|] eqn:Hb; [|done]. cbn [mbind option_bind].
  destruct (load_bytes m (s + 1) n) as [l'|] eqn:E; [|done]. cbn [mbind option_bind].
  intros [= <-]. destruct (IH _ _ _ E) as [Hl Hi]. split; [cbn; by rewrite Hl|].
  intros [|i] Hlt; cbn; [by rewrite Z.add_0_r|]. rewrite <-Hi by lia. f_equal. lia.
Qed.

Lemma load_bytes_is_Some n : ∀ m s,
  (∀ a, s ≤ a < s + Z.of_nat n → is_Some (m !! a)) → is_Some (load_bytes m s n).
Proof.
  induction n as [|n IH]; intros m s Hm; cbn [load_bytes]; [by eexists|].
  destruct (Hm s) as [b ->]; [lia|]. cbn [mbind option_bind].
  destruct (IH m (s + 1)) as [l ->]; [|by eexists]. intros a Ha. apply Hm. lia.
Qed.

Lemma load_bytes_intro m s l :
  (∀ i, (i < length l)%nat → m !! (s + Z.of_nat i) = l !! i) →
  load_bytes m s (length l) = Some l.
Proof.
  intros Hm. destruct (load_bytes_is_Some (length l) m s) as [l' E].
  - intros a Ha. specialize (Hm (Z.to_nat (a - s)) ltac:(lia)).
    replace (s + Z.of_nat (Z.to_nat (a - s))) with a in Hm by lia. rewrite Hm.
    apply lookup_lt_is_Some_2. lia.
  - rewrite E. f_equal. destruct (load_bytes_lookup _ _ _ _ E) as [Hl Hi].
    apply list_eq_same_length with (length l); [done|done|].
    intros i x y Hlt Hx Hy. specialize (Hi i Hlt). specialize (Hm i Hlt). congruence.
Qed.

(** A 32-bit value read and written back gives its four bytes. *)
Lemma le_value_bytes l : Forall (λ b, 0 ≤ b < 256) l → le_bytes (length l) (le_value l) = l.
Proof.
  induction 1 as [|b l Hb _ IH]; cbn [length le_bytes le_value]; [done|].
  rewrite (Z.mul_comm 256), Z_mod_plus_full, Z.mod_small by done.
  rewrite Z.div_add, Z.div_small, Z.add_0_l by lia. by rewrite IH.
Qed.

Definition bytes_at m (s len : Z) : Prop :=
  ∀ a, s ≤ a < s + len → ∃ b, m !! a = Some b ∧ 0 ≤ b < 256.

(** One word is four bytes, when the two words are not partly on top of each
    other. *)
Lemma copy_word m d s w :
  load_bytes m s 4 = Some w → Forall (λ b, 0 ≤ b < 256) w →
  moved m (store_bytes m d (le_bytes 4 (le_value w))) d s 4.
Proof.
  intros Hw Hb a. destruct (load_bytes_lookup _ _ _ _ Hw) as [Hl Hi].
  assert (le_bytes 4 (le_value w) = w) as -> by (rewrite <-Hl; by apply le_value_bytes).
  rewrite store_bytes_lookup, Hl. change (Z.of_nat 4) with 4. case_decide as Ha; [|done].
  specialize (Hi (Z.to_nat (a - d)) ltac:(lia)).
  replace (s + Z.of_nat (Z.to_nat (a - d))) with (s + (a - d)) in Hi by lia. rewrite Hi.
  destruct (w !! Z.to_nat (a - d)) as [b|] eqn:E; [|done]. cbn. f_equal.
  eapply Forall_lookup_1 in E; [|done]. by apply wrapu_small.
Qed.

Lemma copy_words_spec n : ∀ m d s,
  forward_safe d s (4 * Z.of_nat n) → d mod 4 = s mod 4 → bytes_at m s (4 * Z.of_nat n) →
  ∃ m', copy_words n m d s = Some m' ∧ moved m m' d s (4 * Z.of_nat n).
Proof.
  induction n as [|n IH]; intros m d s Hd Hal Hm; cbn [copy_words].
  { exists m. split; [done|]. intros a. by rewrite decide_False by lia. }
  destruct (load_bytes_is_Some 4 m s) as [w Hw].
  { intros a Ha. destruct (Hm a) as (b & -> & _); [lia|by eexists]. }
  rewrite Hw. cbn [mbind option_bind].
  assert (Forall (λ b, 0 ≤ b < 256) w) as Hb.
  { apply Forall_lookup. intros i b Hib. destruct (load_bytes_lookup _ _ _ _ Hw) as [Hl Hi].
    apply lookup_lt_Some in Hib as Hlt. rewrite <-Hi in Hib by lia.
    destruct (Hm (s + Z.of_nat i)) as (b' & Hb' & ?); [lia|]. congruence. }
  pose proof (copy_word m d s w Hw Hb) as Hmv1. set (m1 := store_bytes m d _) in *.
  assert (d ≤ s - 4 ∨ d = s ∨ s + 4 ≤ d) as Hsep
    by (unfold forward_safe in Hd; Z.div_mod_to_equations; lia).
  destruct (IH m1 (d + 4) (s + 4)) as (m' & -> & Hmv).
  - unfold forward_safe in *. lia.
  - by rewrite <-(Z.add_mod_idemp_l d), Hal, Z.add_mod_idemp_l by lia.
  - intros a Ha. rewrite Hmv1. case_decide; [|apply Hm; lia].
    apply Hm. lia.
  - exists m'. split; [done|]. intros a. rewrite Hmv, !Hmv1. unfold forward_safe in Hd.
    repeat case_decide; try lia; try done; f_equal; lia.
Qed.

(** Both branches of [memcpy] move the bytes. *)
Lemma memcpy_spec m d s len :
  0 ≤ len → forward_safe d s len → bytes_at m s len →
  ∃ m', memcpy m d s len = Some (d, m') ∧ moved m m' d s len.
Proof.
  intros Hlen Hd Hm. unfold memcpy. case_decide as Hal.
  - assert (4 * Z.of_nat (Z.to_nat (len / 4)) = len) as E
      by (Z.div_mod_to_equations; lia).
    destruct (copy_words_spec (Z.to_nat (len / 4)) m d s) as (m' & -> & Hmv);
      rewrite ?E; [done|lia|done|].
    exists m'. rewrite E in Hmv. done.
  - destruct (copy_bytes_spec (Z.to_nat len) m d s) as (m' & -> & Hmv);
      rewrite ?Z2Nat.id by done; [done| |].
    + intros a Ha. destruct (Hm a Ha) as (b & -> & _). by eexists.
    + exists m'. rewrite Z2Nat.id in Hmv by done. done.
Qed.
End facts.

(** ** The image *)
Section image.
Implicit Types (m : mem) (l f : list Z) (modules : list (list Z)).

Lemma write_file_loop_spec fuel : ∀ target source,
  (length source < fuel)%nat → write_file_loop fuel target source = Some (target ++ source).
Proof.
  induction fuel as [|fuel IH]; intros target source Hf; [lia|]. cbn [write_file_loop].
  rewrite length_take. case_decide as Hlt.
  - rewrite take_ge; [done|]. unfold BUFFER_SIZE in *. lia.
  - rewrite IH by (rewrite length_drop; unfold BUFFER_SIZE in *; lia).
    by rewrite <-app_assoc, take_drop.
Qed.

Lemma write_file_spec target source : write_file target source = Some (target ++ source).
Proof. apply write_file_loop_spec. lia. Qed.

(** What the packer writes for the modules. *)
Definition payload modules : list Z :=
  concat ((λ f, le_bytes 4 (u32 (Z.of_nat (length f))) ++ f) <$> modules).

Lemma pack_modules_spec modules : ∀ target,
  pack_modules target modules = Some (target ++ payload modules).
Proof.
  induction modules as [|f modules IH]; intros target; cbn [pack_modules].
  - by rewrite app_nil_r.
  - rewrite write_file_spec. cbn [mbind option_bind]. rewrite IH. unfold write_size, payload.
    cbn [fmap list_fmap concat]. by rewrite <-!app_assoc.
Qed.

Lemma load_bytes_add n1 n2 : ∀ m s,
  load_bytes m s (n1 + n2) =
    (l1 ← load_bytes m s n1; l2 ← load_bytes m (s + Z.of_nat n1) n2; Some (l1 ++ l2)).
Proof.
  induction n1 as [|n1 IH]; intros m s.
  - cbn [Nat.add load_bytes mbind option_bind]. replace (s + Z.of_nat 0) with s by lia.
    by destruct (load_bytes m s n2).
  - cbn [Nat.add load_bytes]. destruct (m !! s) as [b|]; [|done]. cbn [mbind option_bind].
    rewrite IH. replace (s + 1 + Z.of_nat n1) with (s + Z.of_nat (S n1)) by lia.
    destruct (load_bytes m (s + 1) n1); [|done]. cbn [mbind option_bind].
    by destruct (load_bytes m (s + Z.of_nat (S n1)) n2).
Qed.

Lemma load_bytes_app l1 l2 m s :
  load_bytes m s (length (l1 ++ l2)) = Some (l1 ++ l2) →
  load_bytes m s (length l1) = Some l1 ∧ load_bytes m (s + Z.of_nat (length l1)) (length l2) = Some l2.
Proof.
  rewrite length_app, load_bytes_add.
  destruct (load_bytes m s (length l1)) as [k1|] eqn:E1; [|done].
  destruct (load_bytes m _ (length l2)) as [k2|] eqn:E2; [|done].
  intros [= Ek]. apply app_inj_1 in Ek as [-> ->]; [done|].
  by apply load_bytes_lookup in E1 as [? _].
Qed.

Lemma load_bytes_moved m m' d s l :
  moved m m' d s (Z.of_nat (length l)) → load_bytes m s (length l) = Some l →
  load_bytes m' d (length l) = Some l.
Proof.
  intros Hmv Hl. destruct (load_bytes_lookup _ _ _ _ Hl) as [_ Hi].
  apply load_bytes_intro. intros i Hlt. rewrite Hmv, decide_True by lia.
  rewrite <-Hi by done. f_equal. lia.
Qed.

Lemma load_bytes_frame n m m' s :
  (∀ a, s ≤ a < s + Z.of_nat n → m' !! a = m !! a) → load_bytes m' s n = load_bytes m s n.
Proof.
  revert s. induction n as [|n IH]; intros s Hag; [done|]. cbn [load_bytes].
  rewrite Hag by lia. rewrite IH; [done|]. intros a Ha. apply Hag. lia.
Qed.

Lemma load_bytes_at m s l :
  load_bytes m s (length l) = Some l → Forall (λ b, 0 ≤ b < 256) l →
  bytes_at m s (Z.of_nat (length l)).
Proof.
  intros Hl Hb a Ha. destruct (load_bytes_lookup _ _ _ _ Hl) as [_ Hi].
  specialize (Hi (Z.to_nat (a - s)) ltac:(lia)).
  replace (s + Z.of_nat (Z.to_nat (a - s))) with a in Hi by lia.
  destruct (lookup_lt_is_Some_2 l (Z.to_nat (a - s))) as [b Hlb]; [lia|].
  exists b. split; [congruence|]. exact (Forall_lookup_1 _ _ _ _ Hb Hlb).
Qed.

Lemma readUint32_spec m a v :
  0 ≤ v < 2 ^ 32 → load_bytes m a (length (le_bytes 4 v)) = Some (le_bytes 4 v) →
  readUint32 m a = Some (v, a + 4).
Proof.
  intros Hv Hl. unfold readUint32. change (length (le_bytes 4 v)) with 4%nat in Hl.
  rewrite Hl. cbn [mbind option_bind]. do 2 f_equal. rewrite le_roundtrip.
  change (256 ^ Z.of_nat 4) with (2 ^ 32). by apply Z.mod_small.
Qed.

Definition apart (a n b k : Z) : Prop := a + n ≤ b ∨ b + k ≤ a.

(** Every module has a target that meets neither the payload [lo .. hi) nor
    the target of a later module. *)
Fixpoint placed (lo hi : Z) modules (targets : list Z) : Prop :=
  match modules, targets with
  | [], _ => True
  | f :: modules, t :: targets =>
      apart t (Z.of_nat (length f)) lo (hi - lo) ∧
      (∀ j f' t', modules !! j = Some f' → targets !! j = Some t' →
         apart t (Z.of_nat (length f)) t' (Z.of_nat (length f'))) ∧
      placed lo hi modules targets
  | _ :: _, [] => False
  end.

Definition file_ok f : Prop :=
  Forall (λ b, 0 ≤ b < 256) f ∧ Z.of_nat (length f) < 2 ^ 32.

Lemma load_loop_spec lo hi modules : ∀ targets m cur,
  Forall file_ok modules → placed lo hi modules targets →
  lo ≤ cur → cur + Z.of_nat (length (payload modules)) ≤ hi →
  load_bytes m cur (length (payload modules)) = Some (payload modules) →
  ∃ m', load_loop (length modules) m cur targets = Some m' ∧
    (∀ i f t, modules !! i = Some f → targets !! i = Some t →
       load_bytes m' t (length f) = Some f) ∧
    (∀ a, (∀ i f t, modules !! i = Some f → targets !! i = Some t →
       a < t ∨ t + Z.of_nat (length f) ≤ a) → m' !! a = m !! a).
Proof.
  induction modules as [|f modules IH]; intros targets m cur Hok Hpl Hlo Hhi Hm.
  { exists m. split; [done|]. split; [by intros i ? ?; rewrite lookup_nil|done]. }
  destruct targets as [|t targets]; [done|]. cbn [placed] in Hpl. destruct Hpl as (Hap & Hlater & Hpl).
  apply Forall_cons in Hok as [[Hb Hsz] Hok].
  assert (payload (f :: modules) =
    le_bytes 4 (u32 (Z.of_nat (length f))) ++ f ++ payload modules) as Epl.
  { unfold payload. cbn [fmap list_fmap concat]. by rewrite <-app_assoc. }
  rewrite Epl in Hm, Hhi. rewrite wrapu_small in Hm, Hhi by lia.
  apply load_bytes_app in Hm as [H4 Hm]. change (length (le_bytes 4 _)) with 4%nat in Hm.
  change (Z.of_nat 4) with 4 in Hm. rewrite !length_app in Hhi.
  change (length (le_bytes 4 _)) with 4%nat in Hhi.
  apply load_bytes_app in Hm as [Hf Hm].
  cbn [length load_loop]. unfold loadModule. rewrite (readUint32_spec m cur (Z.of_nat (length f))) by (done || lia).
  cbn [mbind option_bind].
  destruct (memcpy_spec m t (cur + 4) (Z.of_nat (length f))) as (m1 & -> & Hmv);
    [lia|unfold forward_safe, apart in *; lia|by apply load_bytes_at|].
  cbn [mbind option_bind].
  destruct (IH targets m1 (cur + 4 + Z.of_nat (length f))) as (m' & -> & Hmods & Hframe);
    [done|done|lia|lia| |].
  { rewrite (load_bytes_frame _ m); [done|]. intros a Ha. rewrite Hmv.
    rewrite decide_False; [done|]. unfold apart in Hap. lia. }
  exists m'. split; [done|]. split.
  - intros [|i] f' t' Hf' Ht'; cbn in Hf', Ht'; [|by eapply Hmods].
    simplify_eq. rewrite (load_bytes_frame _ m1).
    + eapply load_bytes_moved; done.
    + intros a Ha. apply Hframe. intros i f'' t'' Hf'' Ht''.
      specialize (Hlater i f'' t'' Hf'' Ht''). unfold apart in Hlater. lia.
  - intros a Ha. rewrite Hframe.
    + rewrite Hmv. rewrite decide_False; [done|]. specialize (Ha 0%nat f t eq_refl eq_refl). lia.
    + intros i f' t' Hf' Ht'. by apply (Ha (S i)).
Qed.
End image.

(** * Properties *)

(** C28: [memcpy] is the byte-by-byte forward copy whichever branch its
    alignment test takes: copying 32-bit words changes no result, for buffers
    that do not overlap or whose destination comes first. *)
Theorem memcpy_equiv m d s len (Hlen : 0 ≤ len) (Hd : forward_safe d s len)
    (Hm : bytes_at m s len) :
  memcpy m d s len = (λ m', (d, m')) <$> copy_bytes (Z.to_nat len) m d s ∧
  ∃ m', memcpy m d s len = Some (d, m') ∧ moved m m' d s len.
Proof.
  destruct (memcpy_spec m d s len Hlen Hd Hm) as (m1 & E1 & Hm1).
  destruct (copy_bytes_spec (Z.to_nat len) m d s) as (m2 & E2 & Hm2).
  { by rewrite Z2Nat.id. }
  { intros a Ha. destruct (Hm a) as (b & -> & _); [lia|by eexists]. }
  rewrite Z2Nat.id in Hm2 by done. split; [|by exists m1].
  rewrite E1, E2. cbn. do 2 f_equal. apply map_eq. intros a. by rewrite Hm1, Hm2.
Qed.

(** [memset] sets exactly the bytes of its range to the low byte of its
    argument. *)
Theorem memset_correct m d c len a (Hlen : 0 ≤ len) :
  (memset m d c len).2 !! a = if decide (d ≤ a < d + len) then Some (u8 c) else m !! a.
Proof. cbn [memset snd]. rewrite memset_loop_spec. by rewrite Z2Nat.id. Qed.

(** C27: what the packer packs the kernel's loader unpacks: with the image in
    memory and a target per module apart from it and from each other, loading
    ends and leaves at each target the bytes of its module. *)
Theorem pack_load_roundtrip kernel modules image m base targets
    (Hpack : buildImage (kernel :: modules) = Some image)
    (Hok : Forall file_ok modules) (Hn : Z.of_nat (length modules) < 2 ^ 32)
    (Hm : load_bytes m base (length image) = Some image)
    (start := base + Z.of_nat (length kernel))
    (Hpl : placed start (base + Z.of_nat (length image)) modules targets) :
  ∃ m', loadModules m start targets = Some m' ∧
    ∀ i f t, modules !! i = Some f → targets !! i = Some t →
      load_bytes m' t (length f) = Some f.
Proof.
  unfold buildImage in Hpack. rewrite write_file_spec in Hpack. cbn [app mbind option_bind] in Hpack.
  rewrite pack_modules_spec, wrapu_small in Hpack by lia. injection Hpack as <-.
  rewrite <-app_assoc in Hm, Hpl. apply load_bytes_app in Hm as [_ Hm].
  apply load_bytes_app in Hm as [H4 Hm].
  unfold loadModules. fold start in H4. rewrite (readUint32_spec m start (Z.of_nat (length modules))) by (done || lia).
  cbn [mbind option_bind]. rewrite Nat2Z.id.
  destruct (load_loop_spec start (base + Z.of_nat (length (kernel ++
    le_bytes 4 (Z.of_nat (length modules)) ++ payload modules))) modules targets m (start + 4))
    as (m' & -> & Hmods & _); try done.
  - lia.
  - rewrite !length_app. change (length (le_bytes 4 _)) with 4%nat. lia.
  - by exists m'.
Qed.

(** Seven bytes at 100. *)
Definition lib_mem : mem := list_to_map (zip [100; 101; 102; 103; 104; 105; 106] [1; 2; 3; 4; 5; 6; 7]).

Lemma lib_mem_bytes len : len ≤ 7 → bytes_at lib_mem 100 len.
Proof.
  intros Hlen a Ha.
  assert (a = 100 ∨ a = 101 ∨ a = 102 ∨ a = 103 ∨ a = 104 ∨ a = 105 ∨ a = 106) as Hin by lia.
  repeat (destruct Hin as [->|Hin]; [by eexists|]). subst. by eexists.
Qed.

Lemma memcpy_equiv_witness :
  memcpy lib_mem 96 100 4 = (λ m', (96, m')) <$> copy_bytes 4 lib_mem 96 100 ∧
  ∃ m', memcpy lib_mem 96 100 4 = Some (96, m') ∧ moved lib_mem m' 96 100 4.
Proof.
  refine (memcpy_equiv lib_mem 96 100 4 _ _ _); [lia|left; lia|apply lib_mem_bytes; lia].
Defined.

Lemma memset_correct_witness :
  (memset lib_mem 100 0x141 3).2 !! 101 = if decide (100 ≤ 101 < 100 + 3) then Some 0x41 else Some 2.
Proof. apply (memset_correct lib_mem 100 0x141 3 101). lia. Defined.

(** A kernel of two bytes and modules of three and one, at 1000. *)
Definition image_demo : list Z := [9; 9; 2; 0; 0; 0; 3; 0; 0; 0; 5; 6; 7; 1; 0; 0; 0; 8].

Lemma pack_load_roundtrip_witness :
  let m := store_bytes ∅ 1000 image_demo in
  ∃ m', loadModules m 1002 [2000; 3000] = Some m' ∧
    ∀ i f t, [[5; 6; 7]; [8]] !! i = Some f → [2000; 3000] !! i = Some t →
      load_bytes m' t (length f) = Some f.
Proof.
  refine (pack_load_roundtrip [9; 9] [[5; 6; 7]; [8]] image_demo (store_bytes ∅ 1000 image_demo)
    1000 [2000; 3000] _ _ _ _ _).
  - by vm_compute.
  - repeat constructor; cbn; lia.
  - cbn. lia.
  - by vm_compute.
  - cbn. unfold apart. split; [lia|]. split; [|split; [lia|split; [|done]]].
    + intros [|j] f t; cbn; [intros [= <-] [= <-]; cbn; lia|]. by destruct j.
    + intros j f t. by rewrite lookup_nil.
Defined.
