(* ===== verification/Boot.v ===== *)
(** * Start-up and exceptions ([kernel.c], [idt/idtLoader.c],
      [idt/exceptionDispatcher.c])

    The addresses of code (the handlers, the idle loop, [init_process], the
    shell) and of the end of the kernel's image come from the linker: they are
    arguments.  So is [mm_init], the function of the allocator the kernel is
    built with. *)

From Stdlib Require Import Ascii String.
From S2P Require Import Prelude MemoryManager Monad KState Scheduler Sem Pipe Processes.
From S2P Require Import Console Machine Keyboard Syscalls Numerals Lib.

(** The bytes of a string literal. *)
Definition chars (s : string) : list Z := Z.of_N ∘ N_of_ascii <$> list_ascii_of_string s.

(** ** The interrupt descriptor table *)

Record DESCR_INT := Descr {
  offset_l : Z;
  selector : Z;
  d_zero : Z;
  access : Z;
  offset_m : Z;
  offset_h : Z;
  other_zero : Z;
}.

Definition ACS_PRESENT : Z := 0x80.
Definition ACS_INT_386 : Z := 0x0E.
Definition ACS_INT : Z := Z.lor ACS_PRESENT ACS_INT_386.
Definition TIMER_PIC_MASTER : Z := 0xFE.
Definition KEYBOARD_PIC_MASTER : Z := 0xFD.
Definition NO_INTERRUPTS : Z := 0xFF.

Definition setup_IDT_entry (idt : list DESCR_INT) (index offset cs_selector : Z)
  : list DESCR_INT :=
  <[Z.to_nat index := Descr (Z.land offset 0xFFFF) cs_selector 0 ACS_INT
      (Z.land (Z.shiftr offset 16) 0xFFFF) (Z.land (Z.shiftr offset 32) 0xFFFFFFFF) 0]> idt.

(** [handlers] gives the address of the entry stub of a vector. *)
Definition idt_vectors : list Z := [0x00; 0x06; 0x08; 0x0D; 0x0E; 0x20; 0x21; 0x80].
Definition fill_idt (handlers : Z → Z) (kernel_cs : Z) (idt : list DESCR_INT) : list DESCR_INT :=
  foldl (λ idt v, setup_IDT_entry idt v (handlers v) kernel_cs) idt idt_vectors.

(** [static DESCR_INT idt[256];] *)
Definition idt_blank : list DESCR_INT := replicate 256 (Descr 0 0 0 0 0 0 0).

Section boot.
Context {St : Type} `{MemoryManager St}.
Abbreviation machine := (machine St).
Abbreviation M := (K machine).

(** The table is filled by [fill_idt]; here are the other effects. *)
Definition load_idt : M unit :=
  _ ← in_kernel _cli;
  _ ← out_port (PIC_master (Z.land KEYBOARD_PIC_MASTER TIMER_PIC_MASTER));
  _ ← out_port (PIC_slave NO_INTERRUPTS);
  in_kernel _sti.

(** ** [kernel.c] *)

Definition PageSize : Z := 0x1000.
Definition HEAP_END_ADDRESS : Z := 0x20000000.
Definition shellModuleAddress : Z := 0x400000.

Definition clearBSS (m : mem) (bssAddress bssSize : Z) : mem := (memset m bssAddress 0 bssSize).2.

Definition getStackBase (endOfKernel : Z) : Z := u64 (endOfKernel + PageSize * 8 - 8).

(** The memory afterwards, and the stack base. *)
Definition initializeKernelBinary (m : mem) (endOfKernelBinary bss endOfKernel : Z)
  : option (mem * Z) :=
  m ← loadModules m endOfKernelBinary [shellModuleAddress];
  Some (clearBSS m bss (endOfKernel - bss), getStackBase endOfKernel).

(** [(end + 8 pages + 0x1FFFFF) & ~0x1FFFFF], at least [0x600000]. *)
Definition heap_start (endOfKernel : Z) : Z :=
  let heapStartOriginal := u64 (endOfKernel + PageSize * 8) in
  let base := Z.land (u64 (heapStartOriginal + 0x1FFFFF)) (u64 (Z.lnot 0x1FFFFF)) in
  if decide (base < 0x600000) then 0x600000 else base.
Definition heap_size (endOfKernel : Z) : Z := u64 (HEAP_END_ADDRESS - heap_start endOfKernel).

Definition create_shell : M unit :=
  p ← in_kernel (create_process 1 (Some [chars "shell"]) shellModuleAddress MIN_PRIORITY
        [STDIN; STDOUT; 2] true);
  in_kernel (kmodify (set_shell_proc p)).

(** One round of the loop of [init_process]; its delay loop has no effect. *)
Definition init_round : M unit :=
  p ← in_kernel get_shell_process;
  start ← (if decide (p = NULL) then mret true
           else P ← in_kernel (deref k_procs p); mret (bool_decide (state P = TERMINATED)));
  _ ← kwhen start create_shell;
  in_kernel yield_cpu.

(** [while (1)], at most [fuel] rounds. *)
Fixpoint init_process (fuel : nat) : M unit :=
  match fuel with
  | O => diverge
  | S fuel => _ ← init_round; init_process fuel
  end.

(** [init_process_address] is where [init_process] is. *)
Definition create_init (init_process_address : Z) : M Z :=
  in_kernel (create_process 1 (Some [chars "init"]) init_process_address MIN_PRIORITY
    [STDIN; STDOUT; 2] false).

(** After [_force_scheduler_interrupt] comes [__builtin_unreachable]. *)
Definition main (mm_init : Z → Z → St → St) (idleProcess init_process_address endOfKernel : Z)
  : M unit :=
  _ ← load_idt;
  _ ← screen_do (setFontSize 2);
  _ ← in_kernel (kmodify (λ s,
        set_k_mm (mm_init (heap_start endOfKernel) (heap_size endOfKernel) (k_mm s)) s));
  _ ← in_kernel initSemQueue;
  _ ← in_kernel initPipeStorage;
  _ ← in_kernel (setNextId 2);
  _ ← in_kernel (init_scheduler idleProcess);
  _ ← keyboard_sem_init;
  init ← create_init init_process_address;
  _ ← (if decide (init = NULL) then panic "Failed to create init process" else mret tt);
  _ ← in_kernel _sti;
  _ ← in_kernel _force_scheduler_interrupt;
  undefined.

(** ** Exceptions *)

Definition register_names : list string :=
  ["rax"; "rbx"; "rcx"; "rdx"; "rbp"; "rdi"; "rsi"; "r8 "; "r9 "; "r10"; "r11"; "r12"; "r13";
   "r14"; "r15"; "rsp"; "rip"; "rflags"]%string.

Definition ZERO_EXCEPTION_ID : Z := 0.
Definition INVALID_OPCODE_ID : Z := 6.
Definition DOUBLE_FAULT_EXCEPTION_ID : Z := 8.
Definition GENERAL_PROTECTION_FAULT_ID : Z := 13.
Definition PAGE_FAULT_ID : Z := 14.

(** [print] of a literal. *)
Definition say (s : string) : M unit := print (chars s).
Definition NL : string := String (ascii_of_nat 10) EmptyString.

(** One line per register; [b] is the number buffer. *)
Fixpoint print_registers (names : list string) (registers : list Z) (b : list Z) : M (list Z) :=
  match names with
  | [] => mret b
  | n :: names =>
      match registers with
      | [] => undefined
      | r :: registers =>
          _ ← say n;
          _ ← say ": ";
          b ← printHex (u64 r) b;
          _ ← screen_do newLine;
          print_registers names registers b
      end
  end.

(** [while ((a = getKeyboardCharacter(0)) != 'r')] *)
Fixpoint await_r (fuel rounds : nat) : M unit :=
  match fuel with
  | O => diverge
  | S fuel =>
      a ← getKeyboardCharacter rounds 0;
      if decide (a = 114) then mret tt else await_r fuel rounds
  end.

(** What is shown before the key is awaited. *)
Definition exception_report (registers : list Z) (errorCode : Z) (b : list Z) : M (list Z) :=
  _ ← say "Exception (# ";
  b ← printDec (u64 errorCode) b;
  _ ← say (") triggered" ++ NL);
  _ ← say ("Current registers values are" ++ NL);
  b ← print_registers register_names registers b;
  _ ← screen_do (setTextColor 0x00FFFFFF);
  _ ← say "Press r to go back to Shell";
  mret b.

Definition printExceptionData (fuel rounds : nat) (registers : list Z) (errorCode : Z)
    (b : list Z) : M (list Z) :=
  b ← exception_report registers errorCode b;
  _ ← out_port (PIC_master KEYBOARD_PIC_MASTER);
  _ ← out_port (PIC_slave NO_INTERRUPTS);
  _ ← await_r fuel rounds;
  _ ← out_port (PIC_master (Z.land KEYBOARD_PIC_MASTER TIMER_PIC_MASTER));
  _ ← out_port (PIC_slave NO_INTERRUPTS);
  mret b.

Definition banner (color : Z) (first second : string) : M unit :=
  _ ← screen_do (setTextColor color);
  _ ← screen_do (setFontSize 3);
  _ ← say (first ++ NL);
  _ ← screen_do (setFontSize 2);
  say (second ++ NL).

Definition zero_division (fuel rounds : nat) (registers : list Z) (errorCode : Z) (b : list Z)
  : M (list Z) :=
  _ ← banner 0x00FF0000 "Division exception" "Arqui Screen of Death";
  printExceptionData fuel rounds registers errorCode b.

Definition invalid_opcode (fuel rounds : nat) (registers : list Z) (errorCode : Z) (b : list Z)
  : M (list Z) :=
  _ ← banner 0x00FF6600 "Invalid Opcode Exception" "Arqui screen of death";
  printExceptionData fuel rounds registers errorCode b.

(** The stubs [_exceptionHandler08], [0D] and [0E] are declared as pointer
    variables: the call jumps to the first bytes of their code taken as an
    address. *)
Definition exceptionDispatcher (fuel rounds : nat) (exception : Z) (registers : list Z)
    (b : list Z) : M (list Z) :=
  if decide (exception = ZERO_EXCEPTION_ID) then zero_division fuel rounds registers exception b
  else if decide (exception = INVALID_OPCODE_ID) then
    invalid_opcode fuel rounds registers exception b
  else if decide (exception = DOUBLE_FAULT_EXCEPTION_ID) then undefined
  else if decide (exception = GENERAL_PROTECTION_FAULT_ID) then undefined
  else if decide (exception = PAGE_FAULT_ID) then undefined
  else mret b.
End boot.
