(* ===== verification/BootFacts.v ===== *)
(** * The kernel starts

    The interrupt table, the layout of memory and the exception report; the
    run of [main] is in [BootRun]. *)

From S2P Require Import Prelude MemoryManager FirstFit Buddy Queue Arrays Monad KState.
From S2P Require Import Scheduler Sem Pipe Processes FontData Video Console Machine.
From S2P Require Import Keyboard KeyboardFacts Syscalls SyscallFacts Numerals Lib Boot.

(** ** Descriptors *)

(** The address a gate jumps to. *)
Definition gate_offset (d : DESCR_INT) : Z :=
  offset_l d + offset_m d * 2 ^ 16 + offset_h d * 2 ^ 32.

Lemma gate_offset_split z : 0 ≤ z < 2 ^ 64 →
  Z.land z 0xFFFF + Z.land (Z.shiftr z 16) 0xFFFF * 2 ^ 16 +
    Z.land (Z.shiftr z 32) 0xFFFFFFFF * 2 ^ 32 = z.
Proof.
  intros Hz. change 0xFFFF with (Z.ones 16). change 0xFFFFFFFF with (Z.ones 32).
  rewrite !Z.land_ones, !Z.shiftr_div_pow2 by lia. Z.div_mod_to_equations; lia.
Qed.

(** ** Printable text is always drawn *)
Section text.
Implicit Types (s : screen) (l : list Z).

Definition plain (c : Z) : Prop := c = NEW_LINE_CHAR ∨ 32 ≤ c < 128.

Lemma put_glyph_some c s : 0 ≤ c < 128 → is_Some (put_glyph c s).
Proof.
  intros Hc. unfold put_glyph, renderAscii, font_rows. cbv zeta.
  rewrite (decide_True (P := c < 128)), (decide_True (P := 0 ≤ c)) by lia.
  destruct (lookup_lt_is_Some_2 font8x8_basic (Z.to_nat c)) as [rows ->].
  - change (length font8x8_basic) with 128%nat. lia.
  - by eexists.
Qed.

Lemma putChar_some c s : plain c → is_Some (putChar c s).
Proof.
  intros Hc. unfold putChar, hideCursor, put_space. cbv zeta. case_decide as E.
  { destruct (put_glyph_some 32 (set_dirty 1 (set_dirty 1 s))) as [s1 ->]; [lia|]. by eexists. }
  destruct Hc as [->|Hc]; [done|]. unfold CARRIAGE_RETURN_CHAR, TABULATOR_CHAR.
  rewrite !decide_False by lia. apply put_glyph_some. lia.
Qed.

Lemma putChars_some l : ∀ s, Forall plain l → is_Some (putChars l s).
Proof.
  induction l as [|c l IH]; intros s Hl; cbn [putChars]; [by eexists|].
  apply Forall_cons in Hl as [Hc Hl]. destruct (putChar_some c s Hc) as [s1 ->].
  cbn [mbind option_bind]. by apply IH.
Qed.
End text.

Section report.
Context {St : Type} `{MemoryManager St}.
Abbreviation machine := (machine St).
Implicit Types (m : machine).

(** Everything but the console and the interrupt flag is as it was. *)
Definition only_console m m' : Prop :=
  ∃ s b, m' = set_m_scr s (set_m_k (set_k_if b (m_k m)) m).

#[export] Instance only_console_preorder : PreOrder only_console.
Proof.
  split.
  - intros m. exists (m_scr m), (k_if (m_k m)). by destruct m as [[]].
  - intros m1 m2 m3 (s2 & b2 & ->) (s3 & b3 & ->). by exists s3, b3.
Qed.

Lemma store_screen_only s m : only_console m (store_screen s m).
Proof. by exists s, (sc_if s). Qed.

Lemma wp_print pan l m (Q : unit → machine → Prop) :
  Forall plain l → (∀ m', only_console m m' → Q tt m') → wp pan (print l) Q m.
Proof.
  intros Hl HQ. unfold print, printToFd. wp_step. wp_step. wp_step.
  rewrite decide_False by lia. wp_step.
  destruct (decide (1 = file_descriptor (m_scr m))) as [E|E].
  - rewrite bool_decide_eq_true_2 by done. cbn [negb kwhen]. wp_step. wp_step.
    destruct (putChars_some l (load_screen m) Hl) as [s Hs].
    eapply wp_on_screen; [exact Hs|]. wp_step. wp_step. apply HQ, store_screen_only.
  - rewrite bool_decide_eq_false_2 by done. cbn [negb kwhen]. apply wp_screen_do.
    set (s0 := choose_descriptor 1 (load_screen m)). wp_step.
    destruct (putChars_some l (load_screen (store_screen s0 m)) Hl) as [s Hs].
    eapply wp_on_screen; [exact Hs|]. wp_step. wp_step. apply HQ.
    etransitivity; apply store_screen_only.
Qed.

(** [print] of a literal; the text is checked by computation. *)
Lemma wp_say pan (t : string) m (Q : unit → machine → Prop) :
  forallb (λ c, bool_decide (c = NEW_LINE_CHAR ∨ 32 ≤ c < 128)) (chars t) = true →
  (∀ m', only_console m m' → Q tt m') → wp pan (say t) Q m.
Proof.
  intros Ht HQ. apply wp_print; [|done]. apply Forall_forall. intros c Hc.
  rewrite forallb_forall in Ht. apply (bool_decide_unpack _), Is_true_true, Ht.
  by apply list_elem_of_In.
Qed.

(** A number whose digits fit the buffer. *)
Lemma wp_printBase pan value base b m (Q : list Z → machine → Prop) :
  base = 10 ∨ base = 16 → 0 ≤ value < 2 ^ 64 → length b = 64%nat →
  (∀ b' m', length b' = 64%nat → only_console m m' → Q b' m') →
  wp pan (printBase value base b) Q m.
Proof.
  intros Hbase Hv Hb HQ. unfold printBase.
  assert (length (numeral 65 base value) < 64)%nat as Hd.
  { pose proof (numeral_short 65 20 10 value). pose proof (numeral_short 65 16 16 value).
    destruct Hbase as [->| ->]; lia. }
  pose proof (uintToBase_spec value base b) as Hs. cbv zeta in Hs.
  rewrite length_fmap, Hb, decide_True in Hs by done.
  wp_step. eapply wp_kopt; [apply Hs; lia|]. cbv beta iota. wp_step.
  assert (Forall (λ d, 0 ≤ d < base) (numeral 65 base value)) as Hr
    by (apply numeral_range; lia).
  eapply wp_kopt.
  { apply until_nul_app, Forall_fmap. eapply Forall_impl; [exact Hr|].
    intros d [Hd0 _]. by apply digit_char_nonzero. }
  wp_step. apply wp_print.
  { apply Forall_fmap. eapply Forall_impl; [exact Hr|].
    intros d [Hd0 Hd1]. right. cbv [compose digit_char]. case_decide; lia. }
  intros m' Hm'. wp_step. apply HQ; [|done].
  rewrite length_app, length_fmap. cbn [length]. rewrite length_drop. lia.
Qed.

Lemma wp_print_registers pan names : ∀ registers b m (Q : list Z → machine → Prop),
  Forall (λ n, forallb (λ c, bool_decide (c = NEW_LINE_CHAR ∨ 32 ≤ c < 128)) (chars n) = true)
    names →
  (length names ≤ length registers)%nat → length b = 64%nat →
  (∀ b' m', length b' = 64%nat → only_console m m' → Q b' m') →
  wp pan (print_registers names registers b) Q m.
Proof.
  induction names as [|n names IH]; intros registers b m Q Hn Hl Hb HQ; cbn [print_registers].
  { wp_step. by apply HQ. }
  destruct registers as [|r registers]; [cbn in Hl; lia|]. cbn [length] in Hl.
  apply Forall_cons in Hn as [Hn1 Hn]. wp_step. apply wp_say; [done|]. intros m1 H1.
  wp_step. apply wp_say; [done|]. intros m2 H2. wp_step.
  apply wp_printBase; [by right|by apply wrapu_range|done|]. intros b3 m3 Hb3 H3.
  wp_step. apply wp_screen_do. apply IH; [done|lia|done|]. intros b' m' Hb' Hm'.
  apply HQ; [done|]. etransitivity; [exact H1|]. etransitivity; [exact H2|].
  etransitivity; [exact H3|]. etransitivity; [apply store_screen_only|exact Hm'].
Qed.
End report.

(** ** The heap *)

(** A machine with blank memory. *)
Definition kst_blank {St} (mm : St) (rsp : Z) : kst St :=
  KState mm false rsp ∅ ∅ ∅ ∅ ∅ ∅ ∅ ∅ zeroed (replicate 64 NULL) NULL NULL NULL NULL false
    NULL 0 NULL.
Definition boot_machine {St} (mm : St) (rsp : Z) : machine St :=
  Machine (kst_blank mm rsp) (console_init vbe_small) keyboard_init 0 0 0 ∅ ∅ [] 0 (0, 0, 0) [].

(** The bit mask rounds up to a multiple of 2 MiB. *)
Lemma heap_start_spec endOfKernel : 0 ≤ endOfKernel ≤ 0x1FC00000 - 0x8000 →
  heap_start endOfKernel =
    Z.max 0x600000 ((endOfKernel + 0x8000 + 0x1FFFFF) / 0x200000 * 0x200000).
Proof.
  intros He. unfold heap_start, PageSize. change (0x1000 * 8) with 0x8000. cbv zeta.
  rewrite (wrapu_small 64 (endOfKernel + 0x8000)), wrapu_small by lia.
  change (u64 (Z.lnot 0x1FFFFF)) with (Z.ldiff (Z.ones 64) (Z.ones 21)).
  set (w := endOfKernel + 0x8000 + 0x1FFFFF).
  assert (Z.land w (Z.ldiff (Z.ones 64) (Z.ones 21)) = w / 0x200000 * 0x200000) as ->.
  { assert (0 ≤ w < 2 ^ 64) as Hw by (unfold w; lia).
    change 0x200000 with (2 ^ 21). rewrite <-Z.shiftl_mul_pow2, <-Z.shiftr_div_pow2 by lia.
    rewrite <-Z.ldiff_ones_r by lia. apply Z.bits_inj'. intros n Hn.
    rewrite Z.land_spec, !Z.ldiff_spec. destruct (decide (n < 64)).
    - rewrite (Z.testbit_ones 64) by lia.
      assert ((0 <=? n) && (n <? 64) = true) as -> by lia. done.
    - rewrite (Z.bits_above_log2 w n); [done|lia|].
      destruct (decide (w = 0)) as [->|]; [cbn; lia|].
      apply Z.log2_lt_pow2; [lia|]. eapply Z.lt_le_trans; [apply Hw|].
      apply Z.pow_le_mono_r; lia. }
  case_decide; lia.
Qed.

Lemma heap_start_low e : 0 ≤ e ≤ 0x5F8000 → heap_start e = 0x600000.
Proof. intros He. rewrite heap_start_spec by lia. Z.div_mod_to_equations; lia. Qed.
Lemma heap_size_low e : 0 ≤ e ≤ 0x5F8000 → heap_size e = 0x1FA00000.
Proof. intros He. unfold heap_size. by rewrite heap_start_low. Qed.

(** * Properties *)

(** [load_idt] fills a gate for the eight vectors the kernel handles: the
    three pieces of its offset are the handler's address, with the kernel's
    code selector, present and an interrupt gate; every other gate stays
    absent. *)
Theorem fill_idt_correct handlers cs v (Hh : ∀ v, 0 ≤ handlers v < 2 ^ 64) (Hv : 0 ≤ v < 256) :
  ∃ d, fill_idt handlers cs idt_blank !! Z.to_nat v = Some d ∧
    (if decide (v ∈ idt_vectors)
     then gate_offset d = handlers v ∧ selector d = cs ∧ access d = 0x8E
     else d = Descr 0 0 0 0 0 0 0).
Proof.
  unfold fill_idt, idt_vectors, setup_IDT_entry. cbn [foldl].
  assert (∀ u (d : DESCR_INT), 0 ≤ u < 256 → ∀ idt, length idt = 256%nat →
    (<[Z.to_nat u := d]> idt) !! Z.to_nat v =
      if decide (u = v) then Some d else idt !! Z.to_nat v) as Hins.
  { intros u d Hu idt Hl. case_decide; [subst; by apply list_lookup_insert_eq; lia|].
    apply list_lookup_insert_ne. lia. }
  rewrite !Hins by (rewrite ?length_insert; done || lia).
  assert (idt_blank !! Z.to_nat v = Some (Descr 0 0 0 0 0 0 0)) as ->.
  { apply lookup_replicate. split; [done|lia]. }
  destruct (decide (0x80 = v)); [|destruct (decide (0x21 = v)); [|destruct (decide (0x20 = v));
    [|destruct (decide (0x0E = v)); [|destruct (decide (0x0D = v)); [|destruct (decide (0x08 = v));
    [|destruct (decide (0x06 = v)); [|destruct (decide (0x00 = v))]]]]]]]; subst;
    (eexists; split; [done|]).
  9: by rewrite decide_False by set_solver.
  all: rewrite decide_True by set_solver; split; [|done]; apply gate_offset_split, Hh.
Qed.

(** Wherever the linker ends the kernel, up to 4 MiB and a stack below the end,
    the heap starts on a 2 MiB boundary above the kernel's stack (whose top
    [getStackBase] gives) and above the 2 MiB the shell's image may take, and
    it ends at the fixed end of memory. *)
Theorem heap_layout endOfKernel (He : 0 <= endOfKernel <= 0x1FC00000 - 0x8000) :
  heap_start endOfKernel mod 0x200000 = 0 ∧ 0x600000 ≤ heap_start endOfKernel ∧
  shellModuleAddress + 0x200000 ≤ heap_start endOfKernel ∧
  getStackBase endOfKernel + 8 ≤ heap_start endOfKernel ∧
  heap_start endOfKernel + heap_size endOfKernel = HEAP_END_ADDRESS ∧
  0 < heap_size endOfKernel.
Proof.
  pose proof (heap_start_spec endOfKernel He) as E.
  unfold heap_size, getStackBase, HEAP_END_ADDRESS, PageSize, shellModuleAddress. rewrite E.
  change (0x1000 * 8) with 0x8000.
  rewrite !wrapu_small by (Z.div_mod_to_equations; lia).
  split; [|Z.div_mod_to_equations; lia].
  destruct (Z.max_spec 0x600000 ((endOfKernel + 0x8000 + 0x1FFFFF) / 0x200000 * 0x200000))
    as [[_ ->]|[_ ->]]; [by apply Z.mod_mul|done].
Qed.

(** The report of an exception never fails: whatever the console shows
    and whatever the registers hold, with the eighteen values the stub saves
    it is printed and only the console changes (no panic, no wild access, no
    wait), and the number buffer is left whole. *)
Theorem exception_report_total {St} `{MemoryManager St} (m : machine St) registers errorCode b
    (Hr : (18 ≤ length registers)%nat) (Hb : length b = 64%nat) :
  wp false (exception_report registers errorCode b)
    (λ b' m', length b' = 64%nat ∧ only_console m m') m.
Proof.
  unfold exception_report. wp_step. apply wp_say; [done|]. intros m1 H1. wp_step.
  apply wp_printBase; [by left|by apply wrapu_range|done|]. intros b2 m2 Hb2 H2. wp_step.
  apply wp_say; [done|]. intros m3 H3. wp_step. apply wp_say; [done|]. intros m4 H4. wp_step.
  apply wp_print_registers; [by repeat constructor|done|done|]. intros b5 m5 Hb5 H5. wp_step.
  apply wp_screen_do. wp_step. apply wp_say; [done|]. intros m6 H6. wp_step. split; [done|].
  etransitivity; [exact H1|]. etransitivity; [exact H2|]. etransitivity; [exact H3|].
  etransitivity; [exact H4|]. etransitivity; [exact H5|].
  etransitivity; [apply store_screen_only|exact H6].
Qed.

(** ** Concrete instances *)

Definition handler_at (v : Z) : Z := 0x100000 + 16 * (v mod 256).

Lemma fill_idt_correct_witness :
  (∃ d, fill_idt handler_at 8 idt_blank !! 0x20%nat = Some d ∧
    gate_offset d = 0x100200 ∧ selector d = 8 ∧ access d = 0x8E) ∧
  ∃ d, fill_idt handler_at 8 idt_blank !! 0x22%nat = Some d ∧ d = Descr 0 0 0 0 0 0 0.
Proof.
  assert (∀ v, 0 ≤ handler_at v < 2 ^ 64) as Hh.
  { intros v. unfold handler_at. pose proof (Z.mod_pos_bound v 256). lia. }
  split; [apply (fill_idt_correct handler_at 8 0x20 Hh)|apply (fill_idt_correct handler_at 8 0x22 Hh)];
    lia.
Defined.

Lemma heap_layout_witness :
  heap_start 0x6123456 = 0x6200000 ∧ 0x6200000 + heap_size 0x6123456 = HEAP_END_ADDRESS.
Proof.
  split; [reflexivity|].
  destruct (heap_layout 0x6123456) as (_ & _ & _ & _ & He & _); [lia|exact He].
Defined.

Lemma exception_report_total_witness :
  wp false (exception_report (replicate 18 0xBEEF) 6 number_buffer)
    (λ b' m', length b' = 64%nat ∧
       only_console (boot_machine (ff_blank UNIT_SIZE) 0x9000) m')
    (boot_machine (ff_blank UNIT_SIZE) 0x9000).
Proof. apply exception_report_total; reflexivity || (cbn; lia). Defined.
