(* ===== verification/BootRun.v ===== *)
(** * Booting

    [main] ([kernel.c]) run from the loader's machine to its first context
    switch, with either allocator, whatever the memory that was never written
    holds.  What does not depend on that is computed; the one decision that
    does is the number of children of the idle process. *)

From S2P Require Import Prelude MemoryManager FirstFit Buddy Queue Arrays Monad KState.
From S2P Require Import Scheduler Sem Pipe Processes FontData Video Console Machine.
From S2P Require Import Keyboard KeyboardFacts Syscalls SyscallFacts Numerals Lib Boot BootFacts.

(** ** What the kernel finds *)



(** ** Running a computation piece by piece *)
Section runs.
Context {S : Type}.









End runs.

(** A kernel call of [main], and the rest of [main] behind it. *)
Section kernel.
Context {St : Type}.




End kernel.




(** ** The claim *)







(** * Properties *)


(** ** Concrete instances *)


