(* ===== verification/UserString.v ===== *)
(** * The programs' strings and numbers ([Userland/libc/string.c],
      [Userland/libc/stdlib.c])

    Memory holds signed characters, as in [Strings]; reading an address
    outside it is [None].  An [int] that overflows is undefined in C, so it
    is [None] too.  The variables [last] of [strtok] and [next] of [rand] are
    passed and returned. *)

From S2P Require Import Prelude Strings Numerals.

(** A result of [int] arithmetic. *)
Definition int_ok (z : Z) : option Z :=
  if decide (- 2 ^ 31 ≤ z < 2 ^ 31) then Some z else None.

(** ** [string.c] *)

Section code.
Implicit Types (m : mem) (fuel : nat).

Definition strlen m (str : Z) : option Z := strlen_loop (S (size m)) m str 0.

Fixpoint cmp_loop fuel m (str1 str2 i : Z) : option Z :=
  match fuel with
  | O => None
  | S fuel =>
      a ← m !! (str1 + i); b ← m !! (str2 + i);
      if decide (a ≠ 0 ∧ b ≠ 0) then
        if decide (a ≠ b) then Some (a - b) else cmp_loop fuel m str1 str2 (i + 1)
      else Some (a - b)
  end.
Definition strcmp m (str1 str2 : Z) : option Z := cmp_loop (S (size m)) m str1 str2 0.

Definition _toupper (a : Z) : Z := if decide (97 ≤ a ≤ 122) then a - (97 - 65) else a.

Fixpoint casecmp_loop fuel m (str1 str2 i : Z) : option Z :=
  match fuel with
  | O => None
  | S fuel =>
      a ← m !! (str1 + i); b ← m !! (str2 + i);
      if decide (a ≠ 0 ∧ b ≠ 0) then
        if decide (_toupper a ≠ _toupper b) then Some (a - b)
        else casecmp_loop fuel m str1 str2 (i + 1)
      else Some (a - b)
  end.
Definition strcasecmp m (str1 str2 : Z) : option Z := casecmp_loop (S (size m)) m str1 str2 0.

Definition strcpy m (dest src : Z) : option mem := strcpy_loop (S (size m)) m dest src 0.

Fixpoint strncpy_loop fuel m (dest src n i : Z) : option mem :=
  match fuel with
  | O => None
  | S fuel =>
      if decide (i < n) then
        c ← m !! (src + i);
        if decide (c = 0) then Some (<[dest + i := 0]> m)
        else strncpy_loop fuel (<[dest + i := c]> m) dest src n (i + 1)
      else Some (<[dest + i := 0]> m)
  end.
Definition strncpy m (dest src n : Z) : option mem :=
  strncpy_loop (S (Z.to_nat n)) m dest src n 0.

(** [while (s2[i] != 0)]: is [c] one of the delimiters? *)
Fixpoint delim_loop fuel m (c s2 i : Z) : option bool :=
  match fuel with
  | O => None
  | S fuel =>
      d ← m !! (s2 + i);
      if decide (d = 0) then Some false
      else if decide (c = d) then Some true
      else delim_loop fuel m c s2 (i + 1)
  end.

(** [while ( *last != 0)]: the token, the memory, and [last]. *)
Fixpoint token_loop fuel m (last s1 s2 : Z) : option (Z * mem * Z) :=
  match fuel with
  | O => None
  | S fuel =>
      c ← m !! last;
      if decide (c = 0) then Some (s1, m, last)
      else
        found ← delim_loop (S (size m)) m c s2 0;
        if found : bool then Some (s1, <[last := 0]> m, last + 1)
        else token_loop fuel m (last + 1) s1 s2
  end.

Definition strtok m (last s1 s2 : Z) : option (Z * mem * Z) :=
  if decide (s1 ≠ NULL) then token_loop (S (size m)) m s1 s1 s2
  else
    c ← m !! last;
    if decide (c = 0) then Some (NULL, m, last)
    else token_loop (S (size m)) m last last s2.

(** ** [stdlib.c] *)

(** [next] is an [unsigned long]: 64 bits. *)
Definition rand (next : Z) : Z * Z :=
  let next := u64 (next * 1103515245 + 12345) in (u32 (next / 65536) mod 32768, next).
Definition srand (seed : Z) : Z := u32 seed.

Fixpoint skip_blanks fuel m (str i : Z) : option Z :=
  match fuel with
  | O => None
  | S fuel =>
      c ← m !! (str + i);
      if decide (c = 32 ∨ c = 9 ∨ c = 10) then skip_blanks fuel m str (i + 1) else Some i
  end.

Fixpoint atoi_loop fuel m (str i result : Z) : option Z :=
  match fuel with
  | O => None
  | S fuel =>
      c ← m !! (str + i);
      if decide (48 ≤ c ≤ 57) then
        result ← int_ok (result * 10);
        result ← int_ok (result + (c - 48));
        atoi_loop fuel m str (i + 1) result
      else Some result
  end.

Definition atoi m (str : Z) : option Z :=
  i ← skip_blanks (S (size m)) m str 0;
  c ← m !! (str + i);
  let '(sign, i) := if decide (c = 45) then (-1, i + 1)
                    else if decide (c = 43) then (1, i + 1) else (1, i) in
  result ← atoi_loop (S (size m)) m str i 0;
  Some (sign * result).

(** [%] and [/] of C round towards zero. *)
Fixpoint itoa_digits fuel m (ptr value base : Z) : option (mem * Z) :=
  match fuel with
  | O => None
  | S fuel =>
      if decide (value = 0) then Some (m, ptr)
      else
        let tmp_value := Z.rem value base in
        let c := if decide (tmp_value < 10) then tmp_value + 48 else tmp_value - 10 + 97 in
        itoa_digits fuel (<[ptr := i8 c]> m) (ptr + 1) (Z.quot value base) base
  end.

Fixpoint itoa_reverse fuel m (ptr1 ptr : Z) : option mem :=
  match fuel with
  | O => None
  | S fuel =>
      if decide (ptr1 < ptr) then
        tmp_char ← m !! ptr;
        c ← m !! ptr1;
        itoa_reverse fuel (<[ptr1 := tmp_char]> (<[ptr := c]> m)) (ptr1 + 1) (ptr - 1)
      else Some m
  end.

(** A 32-bit number has at most 32 digits. *)
Definition itoa m (value str base : Z) : option (Z * mem) :=
  if decide (str = NULL ∨ base < 2 ∨ 36 < base) then Some (NULL, m)
  else if decide (value = 0) then Some (str, <[str + 1 := 0]> (<[str := 48]> m))
  else
    let is_negative := bool_decide (value < 0 ∧ base = 10) in
    value ← (if is_negative then int_ok (- value) else Some value);
    '(m, ptr) ← itoa_digits 33 m str value base;
    let '(m, ptr) := if is_negative then (<[ptr := 45]> m, ptr + 1) else (m, ptr) in
    m ← itoa_reverse 34 (<[ptr := 0]> m) str (ptr - 1);
    Some (str, m).
End code.

(** ** The reference *)

(** The pieces of [l] between delimiters; nothing after a last delimiter is a
    piece. *)
Fixpoint tokens (ds l : list Z) : list (list Z) :=
  match l with
  | [] => [[]]
  | c :: l =>
      if decide (c ∈ ds) then [] :: match l with [] => [] | _ => tokens ds l end
      else match tokens ds l with t :: ts => (c :: t) :: ts | [] => [[c]] end
  end.

(** [strtok(s1, s2)] and then [strtok(NULL, s2)] until it answers [NULL]. *)
Fixpoint strtok_rest fuel (m : mem) (last s2 : Z) : option (list Z * mem) :=
  match fuel with
  | O => None
  | S fuel =>
      '(tok, m, last) ← strtok m last NULL s2;
      if decide (tok = NULL) then Some ([], m)
      else '(toks, m) ← strtok_rest fuel m last s2; Some (tok :: toks, m)
  end.
Definition strtok_all fuel (m : mem) (last s1 s2 : Z) : option (list Z * mem) :=
  '(tok, m, last) ← strtok m last s1 s2;
  '(toks, m) ← strtok_rest fuel m last s2; Some (tok :: toks, m).

Definition lower_digit (d : Z) : Z := if decide (d < 10) then d + 48 else d - 10 + 97.
Definition itoa_chars (base v : Z) : list Z :=
  (if decide (v < 0) then [45] else []) ++ (lower_digit <$> numeral 32 base (Z.abs v)).

Section facts.
Implicit Types (m : mem) (l ds : list Z).

(** Comparing. *)
Lemma cmp_loop_spec m l1 : ∀ l2 fuel p q i,
  cstr m (p + i) l1 → cstr m (q + i) l2 → (length l1 < fuel)%nat →
  cmp_loop fuel m p q i = Some (strcmp_chars l1 l2).
Proof.
  induction l1 as [|a l1 IH]; intros l2 [|fuel] p q i H1 H2 Hf; simpl in Hf; try lia;
    cbn [cmp_loop].
  - apply cstr_nil in H1 as ->. cbn [mbind option_bind]. destruct l2 as [|b l2].
    + apply cstr_nil in H2 as ->. done.
    + apply cstr_cons in H2 as (-> & ? & _). cbn [mbind option_bind strcmp_chars].
      rewrite decide_False by naive_solver. f_equal.
  - apply cstr_cons in H1 as (-> & Ha & H1). cbn [mbind option_bind]. destruct l2 as [|b l2].
    + apply cstr_nil in H2 as ->. cbn [mbind option_bind strcmp_chars].
      rewrite decide_False by naive_solver. f_equal. lia.
    + apply cstr_cons in H2 as (-> & Hb & H2). cbn [mbind option_bind strcmp_chars].
      rewrite decide_True by done. destruct (decide (a = b)) as [->|Hne].
      * rewrite decide_False by tauto. rewrite <-Z.add_assoc in H1, H2. apply IH; [done..|lia].
      * by rewrite decide_True.
Qed.

(** Comparing two strings, with and without case. *)
Lemma strcmp_eq m p q l1 l2 : cstr m p l1 → cstr m q l2 →
  ∃ d, strcmp m p q = Some d ∧ (d = 0 ↔ l1 = l2).
Proof.
  intros H1 H2. exists (strcmp_chars l1 l2). split.
  - unfold strcmp. apply cmp_loop_spec; rewrite ?Z.add_0_r; [done..|by eapply cstr_fuel].
  - apply strcmp_chars_eq; [apply H1|apply H2].
Qed.

Lemma casecmp_loop_spec m l1 : ∀ l2 fuel p q i,
  cstr m (p + i) l1 → cstr m (q + i) l2 → (length l1 < fuel)%nat →
  ∃ d, casecmp_loop fuel m p q i = Some d ∧ (d = 0 ↔ _toupper <$> l1 = _toupper <$> l2).
Proof.
  induction l1 as [|a l1 IH]; intros l2 [|fuel] p q i H1 H2 Hf; simpl in Hf; try lia;
    cbn [casecmp_loop].
  - apply cstr_nil in H1 as ->. cbn [mbind option_bind]. destruct l2 as [|b l2].
    + apply cstr_nil in H2 as ->. by exists 0.
    + apply cstr_cons in H2 as (-> & ? & _). cbn [mbind option_bind].
      rewrite decide_False by naive_solver. eexists. split; [done|]. cbn. split; [lia|done].
  - apply cstr_cons in H1 as (-> & Ha & H1). cbn [mbind option_bind]. destruct l2 as [|b l2].
    + apply cstr_nil in H2 as ->. cbn [mbind option_bind].
      rewrite decide_False by naive_solver. eexists. split; [done|]. cbn. split; [lia|done].
    + apply cstr_cons in H2 as (-> & Hb & H2). cbn [mbind option_bind].
      rewrite decide_True by done. destruct (decide (_toupper a = _toupper b)) as [E|Hne].
      * rewrite decide_False by tauto. rewrite <-Z.add_assoc in H1, H2.
        destruct (IH l2 fuel p q (i + 1)) as (d & -> & Hd); [done..|lia|].
        exists d. split; [done|]. rewrite Hd. cbn. rewrite E. split; [by intros ->|by intros [= ?]].
      * rewrite decide_True by done. eexists. split; [done|]. cbn. split; [|naive_solver].
        intros Hab. destruct Hne. f_equal. lia.
Qed.

Lemma strcasecmp_eq m p q l1 l2 : cstr m p l1 → cstr m q l2 →
  ∃ d, strcasecmp m p q = Some d ∧ (d = 0 ↔ _toupper <$> l1 = _toupper <$> l2).
Proof.
  intros H1 H2. unfold strcasecmp.
  apply casecmp_loop_spec; rewrite ?Z.add_0_r; [done..|by eapply cstr_fuel].
Qed.

(** The delimiters. *)
Lemma delim_loop_spec m c ds : ∀ fuel p i,
  cstr m (p + i) ds → (length ds < fuel)%nat → c ≠ 0 →
  delim_loop fuel m c p i = Some (bool_decide (c ∈ ds)).
Proof.
  induction ds as [|d ds IH]; intros [|fuel] p i Hd Hf Hc; simpl in Hf; try lia;
    cbn [delim_loop].
  - by apply cstr_nil in Hd as ->.
  - apply cstr_cons in Hd as (-> & Hd0 & Hd). cbn [mbind option_bind].
    rewrite decide_False by done. destruct (decide (c = d)) as [->|Hne].
    + by rewrite bool_decide_eq_true_2 by set_solver.
    + rewrite <-Z.add_assoc in Hd. rewrite (IH fuel p (i + 1)) by (done || lia). f_equal.
      apply bool_decide_ext. set_solver.
Qed.

(** A token ends at the first delimiter, which is overwritten, or with the
    string. *)
Lemma token_loop_plain m s1 s2 ds l : ∀ fuel last,
  cstr m last l → cstr m s2 ds → Forall (λ c, c ∉ ds) l → (length l < fuel)%nat →
  token_loop fuel m last s1 s2 = Some (s1, m, last + Z.of_nat (length l)).
Proof.
  induction l as [|c l IH]; intros [|fuel] last Hl Hd Hn Hf; simpl in Hf; try lia;
    cbn [token_loop length].
  - apply cstr_nil in Hl as ->. cbn [mbind option_bind]. by rewrite decide_True, Z.add_0_r.
  - apply cstr_cons in Hl as (-> & Hc & Hl). apply Forall_cons in Hn as [Hcd Hn].
    cbn [mbind option_bind]. rewrite decide_False by done.
    rewrite (delim_loop_spec m c ds) by (rewrite ?Z.add_0_r; eauto using cstr_fuel).
    rewrite bool_decide_eq_false_2 by done. cbn [mbind option_bind].
    rewrite IH by (done || lia). do 2 f_equal. lia.
Qed.

Lemma token_loop_cut m s1 s2 ds a d b : ∀ fuel last,
  cstr m last (a ++ d :: b) → cstr m s2 ds → Forall (λ c, c ∉ ds) a → d ∈ ds →
  (length a < fuel)%nat →
  token_loop fuel m last s1 s2 =
    Some (s1, <[last + Z.of_nat (length a) := 0]> m, last + Z.of_nat (length a) + 1).
Proof.
  induction a as [|c a IH]; intros [|fuel] last Hl Hd Hn Hin Hf; simpl in Hf; try lia;
    cbn [token_loop length]; cbn [app] in Hl.
  - apply cstr_cons in Hl as (-> & Hc & Hl). cbn [mbind option_bind]. rewrite decide_False by done.
    rewrite (delim_loop_spec m d ds) by (rewrite ?Z.add_0_r; eauto using cstr_fuel).
    rewrite bool_decide_eq_true_2 by done. cbn [mbind option_bind]. by rewrite Z.add_0_r.
  - apply cstr_cons in Hl as (-> & Hc & Hl). apply Forall_cons in Hn as [Hcd Hn].
    cbn [mbind option_bind]. rewrite decide_False by done.
    rewrite (delim_loop_spec m c ds) by (rewrite ?Z.add_0_r; eauto using cstr_fuel).
    rewrite bool_decide_eq_false_2 by done. cbn [mbind option_bind].
    rewrite IH by (done || lia).
    by replace (last + 1 + Z.of_nat (length a)) with (last + Z.of_nat (S (length a))) by lia.
Qed.

(** Every string has no delimiter or a first one. *)
Lemma cut_delim ds l : Forall (λ c, c ∉ ds) l ∨
  ∃ a d b, l = a ++ d :: b ∧ Forall (λ c, c ∉ ds) a ∧ d ∈ ds.
Proof.
  induction l as [|c l IH]; [left; constructor|].
  destruct (decide (c ∈ ds)) as [Hc|Hc]; [right; by exists [], c, l|].
  destruct IH as [Hl|(a & d & b & -> & Ha & Hd)]; [left; by constructor|].
  right. exists (c :: a), d, b. split; [done|]. split; [by constructor|done].
Qed.

Lemma tokens_plain ds l : Forall (λ c, c ∉ ds) l → tokens ds l = [l].
Proof.
  induction 1 as [|c l Hc _ IH]; [done|]. cbn [tokens]. by rewrite decide_False, IH.
Qed.

Lemma tokens_cut ds a d b : Forall (λ c, c ∉ ds) a → d ∈ ds →
  tokens ds (a ++ d :: b) = a :: match b with [] => [] | _ => tokens ds b end.
Proof.
  intros Ha Hd. induction Ha as [|c a Hc _ IH]; cbn [app tokens].
  - by rewrite decide_True.
  - by rewrite decide_False, IH.
Qed.

Lemma cstr_ext m m' p l :
  (∀ a, p ≤ a ≤ p + Z.of_nat (length l) → m' !! a = m !! a) → cstr m p l → cstr m' p l.
Proof.
  intros Hm [Hs Hz]. split; [|done]. eapply stored_ext; [|done]. intros a Ha. apply Hm.
  rewrite length_app in Ha. cbn in Ha. lia.
Qed.

Lemma cstr_app m p a b : cstr m p (a ++ b) → cstr m (p + Z.of_nat (length a)) b.
Proof.
  intros [Hs Hz]. rewrite <-app_assoc in Hs. apply stored_app in Hs as [_ Hs].
  apply Forall_app in Hz as [_ Hz]. by split.
Qed.

(** Cutting a string with a zero. *)
Lemma cstr_cut m p a d b :
  cstr m p (a ++ d :: b) → let m' := <[p + Z.of_nat (length a) := 0]> m in
  cstr m' p a ∧ cstr m' (p + Z.of_nat (length a) + 1) b.
Proof.
  intros Hc m'. split.
  - destruct Hc as [Hs Hz]. apply Forall_app in Hz as [Hz _]. split; [|done].
    rewrite <-app_assoc in Hs. apply stored_app in Hs as [Hs _]. apply stored_app. split.
    + eapply stored_ext; [|done]. intros x Hx. apply lookup_insert_ne. lia.
    + split; [apply lookup_insert_eq|done].
  - apply cstr_app, cstr_cons in Hc as (_ & _ & Hb). eapply cstr_ext; [|done].
    intros x Hx. apply lookup_insert_ne. lia.
Qed.

(** One token [t] is cut off; what follows it, [b], is still a string. *)
Lemma token_loop_step m s1 s2 ds l last fuel :
  cstr m last l → cstr m s2 ds → (length l < fuel)%nat →
  ∃ t b k m', token_loop fuel m last s1 s2 = Some (s1, m', last + Z.of_nat k) ∧
    tokens ds l = t :: match b with [] => [] | _ => tokens ds b end ∧
    cstr m' last t ∧ cstr m' (last + Z.of_nat k) b ∧
    (k + length b = length l)%nat ∧ (length t < k ∨ length t = k ∧ b = [])%nat ∧
    (∀ a, a < last ∨ last + Z.of_nat (length l) ≤ a → m' !! a = m !! a).
Proof.
  intros Hl Hd Hf. destruct (cut_delim ds l) as [Hn|(a & d & b & -> & Ha & Hin)].
  - exists l, [], (length l), m. rewrite (token_loop_plain m s1 s2 ds l) by done.
    split; [done|]. split; [by apply tokens_plain|]. split; [done|].
    split; [apply cstr_app; by rewrite app_nil_r|]. split; [cbn; lia|]. split; [by right|done].
  - rewrite length_app in Hf |- *. cbn [length] in Hf |- *.
    exists a, b, (length a + 1)%nat, (<[last + Z.of_nat (length a) := 0]> m).
    destruct (cstr_cut m last a d b Hl) as [Hca Hcb].
    replace (last + Z.of_nat (length a + 1)) with (last + Z.of_nat (length a) + 1) by lia.
    rewrite (token_loop_cut m s1 s2 ds a d b) by (done || lia). split; [done|].
    split; [by apply tokens_cut|]. split; [done|]. split; [done|]. split; [lia|].
    split; [left; lia|]. intros x Hx. apply lookup_insert_ne. lia.
Qed.

(** The tokens still stand when those after them have been cut off. *)
Lemma token_survives m m' last t (b : list Z) k :
  cstr m last t → (length t < k ∨ length t = k ∧ b = [])%nat →
  (∀ a, a < last + Z.of_nat k ∨ last + Z.of_nat k + Z.of_nat (length b) ≤ a → m' !! a = m !! a) →
  cstr m' last t.
Proof.
  intros Ht Hk Hm. eapply cstr_ext; [|done]. intros a Ha. apply Hm.
  destruct Hk as [Hk|[Hk ->]]; cbn [length]; lia.
Qed.

Lemma strtok_rest_spec s2 ds : ∀ fuel l m last,
  (length l < fuel)%nat → cstr m last l → cstr m s2 ds → 0 < last →
  last + Z.of_nat (length l) < s2 ∨ s2 + Z.of_nat (length ds) < last →
  ∃ qs m', strtok_rest fuel m last s2 = Some (qs, m') ∧
    Forall2 (cstr m') qs (match l with [] => [] | _ => tokens ds l end) ∧
    (∀ a, a < last ∨ last + Z.of_nat (length l) ≤ a → m' !! a = m !! a).
Proof.
  induction fuel as [|fuel IH]; intros l m last Hf Hl Hd Hp Hsep; [lia|].
  cbn [strtok_rest]. unfold strtok at 1. rewrite decide_False by tauto.
  destruct (decide (l = [])) as [->|Hne].
  { apply cstr_nil in Hl as ->. cbn [mbind option_bind]. rewrite !decide_True by done. eauto. }
  assert (∃ c, m !! last = Some c ∧ c ≠ 0) as (c & Hc & Hc0).
  { destruct l as [|c l]; [done|]. apply cstr_cons in Hl as (? & ? & _). eauto. }
  rewrite Hc. cbn [mbind option_bind]. rewrite decide_False by done.
  destruct (token_loop_step m last s2 ds l last (S (size m)))
    as (t & b & k & m1 & -> & Htok & Ht & Hb & Hlen & Hk & Hm1); [done|done|by eapply cstr_fuel|].
  cbn [mbind option_bind]. rewrite decide_False by lia.
  assert (length l ≠ 0%nat) as Hl0 by (by destruct l).
  destruct (IH b m1 (last + Z.of_nat k)) as (qs & m' & -> & Hqs & Hm').
  - destruct Hk as [Hk|[Hk ->]]; cbn [length] in *; lia.
  - done.
  - eapply cstr_ext; [|exact Hd]. intros a Ha. apply Hm1. lia.
  - lia.
  - lia.
  - cbn [mbind option_bind]. eexists _, m'. split; [done|]. split.
    + destruct l; [done|]. rewrite Htok. constructor; [|done].
      eapply token_survives; [exact Ht|exact Hk|exact Hm'].
    + intros a Ha. rewrite Hm', Hm1 by lia. done.
Qed.

(** Digits to memory. *)
Lemma itoa_digits_pos fuel m ptr value base : 0 < value → 2 ≤ base ≤ 36 →
  itoa_digits (S fuel) m ptr value base =
    itoa_digits fuel (<[ptr := lower_digit (value mod base)]> m) (ptr + 1) (value / base) base.
Proof.
  intros Hv Hb. cbn [itoa_digits]. rewrite decide_False by lia.
  rewrite Z.rem_mod_nonneg, Z.quot_div_nonneg by lia.
  pose proof (Z.mod_pos_bound value base) as Hmod. do 2 f_equal.
  unfold lower_digit. case_decide; apply wraps_small; lia.
Qed.

Lemma itoa_digits_spec base : 2 ≤ base ≤ 36 → ∀ fuel value m ptr,
  0 < value < base ^ Z.of_nat fuel →
  let ds := reverse (lower_digit <$> numeral fuel base value) in
  ∃ m', itoa_digits (S fuel) m ptr value base = Some (m', ptr + Z.of_nat (length ds)) ∧
    stored m' ptr ds ∧
    (∀ a, a < ptr ∨ ptr + Z.of_nat (length ds) ≤ a → m' !! a = m !! a).
Proof.
  intros Hb. induction fuel as [|fuel IH]; intros value m ptr Hv; [cbn in Hv; lia|].
  rewrite itoa_digits_pos by lia. cbn [numeral].
  rewrite Nat2Z.inj_succ, Z.pow_succ_r in Hv by lia.
  destruct (decide (value / base = 0)) as [E|E].
  { rewrite E. cbn [fmap list_fmap list_fmap reverse rev_append length].
    exists (<[ptr := lower_digit (value mod base)]> m). split.
    { cbn [itoa_digits]. by rewrite decide_True. }
    split; [split; [apply lookup_insert_eq|done]|]. intros a Ha. apply lookup_insert_ne. lia. }
  destruct (IH (value / base) (<[ptr := lower_digit (value mod base)]> m) (ptr + 1))
    as (m' & Hm' & Hst & Hk).
  { split; [pose proof (Z.div_pos value base); lia|]. apply Z.div_lt_upper_bound; lia. }
  exists m'. cbv zeta. rewrite fmap_app, reverse_app. cbn [fmap list_fmap list_fmap].
  rewrite reverse_singleton. cbn [app length stored]. split; [|split].
  - rewrite Hm'. do 2 f_equal. lia.
  - split; [|done]. rewrite Hk by lia. apply lookup_insert_eq.
  - intros a Ha. rewrite Hk by lia. apply lookup_insert_ne. lia.
Qed.

(** Reversing the characters from [a] on. *)
Lemma itoa_reverse_spec fuel : ∀ l m a,
  stored m a l → (length l < fuel)%nat →
  ∃ m', itoa_reverse fuel m a (a + Z.of_nat (length l) - 1) = Some m' ∧
    stored m' a (reverse l) ∧
    (∀ x, x < a ∨ a + Z.of_nat (length l) ≤ x → m' !! x = m !! x).
Proof.
  induction fuel as [|fuel IH]; intros l m a Hl Hf; [lia|]. cbn [itoa_reverse].
  destruct l as [|x l]; [rewrite decide_False by (cbn; lia); eauto|].
  destruct l as [|y l _] using rev_ind; [rewrite decide_False by (cbn; lia); eauto|].
  rewrite length_cons, length_app in Hf |- *. cbn [length] in Hf |- *.
  rewrite decide_True by lia. cbn [stored] in Hl. destruct Hl as [Hx Hl].
  apply stored_app in Hl as [Hl [Hy _]].
  replace (a + Z.of_nat (S (length l + 1)) - 1) with (a + 1 + Z.of_nat (length l)) by lia.
  rewrite Hy, Hx. cbn [mbind option_bind].
  set (m1 := <[a := y]> (<[a + 1 + Z.of_nat (length l) := x]> m)).
  destruct (IH l m1 (a + 1)) as (m' & Hm' & Hst & Hk).
  { eapply stored_ext; [|exact Hl]. intros z Hz. unfold m1. by rewrite !lookup_insert_ne by lia. }
  { lia. }
  exists m'. rewrite Hm'. split; [done|]. split.
  - rewrite reverse_cons, reverse_snoc. cbn [app stored]. split.
    + rewrite Hk by lia. apply lookup_insert_eq.
    + apply stored_app. split; [done|]. rewrite length_reverse. split; [|done].
      rewrite Hk by lia. unfold m1. rewrite lookup_insert_ne by lia. apply lookup_insert_eq.
  - intros z Hz. rewrite Hk by lia. unfold m1. by rewrite !lookup_insert_ne by lia.
Qed.

Lemma foldl_decimal_ge ds : Forall (λ d, 0 ≤ d < 10) ds → ∀ z, 0 ≤ z →
  z ≤ foldl (λ v d, v * 10 + d) z ds.
Proof.
  induction 1 as [|x ds Hx _ IH]; intros z Hz; cbn [foldl]; [lia|].
  etransitivity; [|apply IH; lia]. lia.
Qed.

(** Reading digits up to a character that is none. *)
Lemma atoi_loop_spec m str t ds : ∀ fuel i acc,
  stored m (str + i) (((λ d, d + 48) <$> ds) ++ [t]) → ¬ 48 ≤ t ≤ 57 →
  Forall (λ d, 0 ≤ d < 10) ds → 0 ≤ acc → foldl (λ v d, v * 10 + d) acc ds < 2 ^ 31 →
  (length ds < fuel)%nat →
  atoi_loop fuel m str i acc = Some (foldl (λ v d, v * 10 + d) acc ds).
Proof.
  induction ds as [|d ds IH]; intros [|fuel] i acc Hs Ht Hd Hacc Hmax Hf; simpl in Hf; try lia;
    cbn [atoi_loop]; cbn [fmap list_fmap list_fmap app stored] in Hs.
  - destruct Hs as [-> _]. cbn [mbind option_bind]. by rewrite decide_False.
  - destruct Hs as [-> Hs]. apply Forall_cons in Hd as [Hd0 Hd]. cbn [mbind option_bind].
    rewrite decide_True by lia. cbn [foldl] in Hmax |- *.
    assert (acc * 10 + d ≤ foldl (λ v d, v * 10 + d) (acc * 10 + d) ds) as Hge
      by (apply foldl_decimal_ge; [done|lia]).
    unfold int_ok. rewrite !decide_True by lia. cbn [mbind option_bind].
    rewrite decide_True by lia. cbn [mbind option_bind].
    replace (acc * 10 + (d + 48 - 48)) with (acc * 10 + d) by lia.
    rewrite <-Z.add_assoc in Hs. apply IH; (done || lia).
Qed.

Lemma numeral_nonempty fuel base v : numeral (S fuel) base v ≠ [].
Proof. cbn [numeral]. case_decide; [done|]. by destruct (numeral fuel base (v / base)). Qed.

(** A signed decimal number. *)
Lemma atoi_spec m str v :
  - 2 ^ 31 < v < 2 ^ 31 → cstr m str (itoa_chars 10 v) → atoi m str = Some v.
Proof.
  intros Hv Hc. pose proof (cstr_fuel _ _ _ Hc) as Hf. destruct Hc as [Hc _]. unfold itoa_chars in *.
  pose proof (numeral_range 32 10 (Z.abs v)) as Hr.
  pose proof (numeral_value_spec 32 10 (Z.abs v)) as Hval. unfold numeral_value in Hval.
  destruct (numeral 32 10 (Z.abs v)) as [|d ds] eqn:En.
  { by apply numeral_nonempty in En. }
  assert (lower_digit <$> d :: ds = (λ d, d + 48) <$> d :: ds) as Hlow.
  { apply list_fmap_ext. intros i x Hx. unfold lower_digit. rewrite decide_True; [done|].
    assert (Forall (λ d, 0 ≤ d < 10) (d :: ds)) as Hr0 by (apply Hr; lia).
    eapply Forall_lookup_1 in Hr0; [|exact Hx]. lia. }
  rewrite Hlow in Hc, Hf. rewrite length_app, length_fmap in Hf.
  assert (Forall (λ d, 0 ≤ d < 10) (d :: ds)) as Hr0 by (apply Hr; lia).
  pose proof Hr0 as Hd0. apply Forall_cons in Hd0 as [Hd0 _].
  assert (foldl (λ v d, v * 10 + d) 0 (d :: ds) = Z.abs v) as Hval0 by (apply Hval; lia).
  unfold atoi. cbn [skip_blanks]. rewrite Z.add_0_r. destruct (decide (v < 0)) as [Hneg|Hpos].
  - cbn [app stored] in Hc. destruct Hc as [Hm Hc]. rewrite Hm. cbn [mbind option_bind].
    rewrite decide_False by lia. cbn [mbind option_bind]. rewrite Z.add_0_r, Hm.
    cbn [mbind option_bind]. rewrite decide_True by done. rewrite Z.add_0_l.
    rewrite (atoi_loop_spec m str 0 (d :: ds)) by (done || lia). cbn [mbind option_bind].
    f_equal. lia.
  - rewrite app_nil_l in Hc. pose proof Hc as [Hm _]. rewrite Hm. cbn [mbind option_bind].
    rewrite decide_False by lia. cbn [mbind option_bind]. rewrite Z.add_0_r, Hm.
    cbn [mbind option_bind]. rewrite !decide_False by lia.
    rewrite (atoi_loop_spec m str 0 (d :: ds)) by (rewrite ?Z.add_0_r; cbn [app length] in *; done || lia).
    cbn [mbind option_bind]. f_equal. lia.
Qed.

Lemma lower_digit_nonzero d : 0 ≤ d → lower_digit d ≠ 0.
Proof. unfold lower_digit. case_decide; lia. Qed.

(** Sign, terminator, and the reversal in place. *)
Lemma itoa_finish m str ds sg :
  stored m str (reverse ds) → Forall (λ c, c ≠ 0) ds → (length ds ≤ 32)%nat →
  sg = [] ∨ sg = [45] →
  let ptr := str + Z.of_nat (length ds) in
  let '(m1, ptr) := match sg with [] => (m, ptr) | c :: _ => (<[ptr := c]> m, ptr + 1) end in
  ∃ m', itoa_reverse 34 (<[ptr := 0]> m1) str (ptr - 1) = Some m' ∧ cstr m' str (sg ++ ds) ∧
    (∀ a, a < str ∨ str + Z.of_nat (length (sg ++ ds)) < a → m' !! a = m !! a).
Proof.
  intros Hs Hz Hl Hsg. cbv zeta.
  assert (∀ m1 l, stored m1 str (reverse l) → Forall (λ c, c ≠ 0) l → (length l < 34)%nat →
    ∃ m', itoa_reverse 34 (<[str + Z.of_nat (length l) := 0]> m1) str
        (str + Z.of_nat (length l) - 1) = Some m' ∧ cstr m' str l ∧
      (∀ a, a < str ∨ str + Z.of_nat (length l) < a → m' !! a = m1 !! a)) as Hrev.
  { intros m1 l Hst Hl0 Hlen.
    destruct (itoa_reverse_spec 34 (reverse l) (<[str + Z.of_nat (length l) := 0]> m1) str)
      as (m' & Hm' & Hst' & Hk).
    { eapply stored_ext; [|exact Hst]. rewrite length_reverse. intros a Ha.
      apply lookup_insert_ne. lia. }
    { by rewrite length_reverse. }
    rewrite length_reverse in Hm', Hk. rewrite reverse_involutive in Hst'.
    exists m'. split; [done|]. split.
    - split; [|done]. apply stored_app. split; [done|]. split; [|done].
      rewrite Hk by lia. apply lookup_insert_eq.
    - intros a Ha. rewrite Hk by lia. apply lookup_insert_ne. lia. }
  destruct Hsg as [->| ->].
  - apply (Hrev m ds); (done || lia).
  - destruct (Hrev (<[str + Z.of_nat (length ds) := 45]> m) (45 :: ds)) as (m' & Hm' & Hc & Hk).
    + rewrite reverse_cons. apply stored_app. rewrite length_reverse. split.
      * eapply stored_ext; [|exact Hs]. rewrite length_reverse. intros a Ha.
        apply lookup_insert_ne. lia.
      * split; [apply lookup_insert_eq|done].
    + by constructor.
    + cbn [length]. lia.
    + cbn [length] in Hm', Hk.
      replace (str + Z.of_nat (length ds) + 1) with (str + Z.of_nat (S (length ds))) by lia.
      exists m'. split; [done|]. split; [done|]. cbn [app length]. intros a Ha.
      rewrite Hk by lia. apply lookup_insert_ne. lia.
Qed.
(** [itoa] writes the notation of the number and nothing else. *)
Lemma itoa_spec m v str base (Hb : 2 ≤ base ≤ 36) (Hv : - 2 ^ 31 < v < 2 ^ 31)
    (Hs : 0 ≤ v ∨ base = 10) (Hp : str ≠ NULL) :
  ∃ m', itoa m v str base = Some (str, m') ∧ cstr m' str (itoa_chars base v) ∧
    (∀ a, a < str ∨ str + Z.of_nat (length (itoa_chars base v)) < a → m' !! a = m !! a).
Proof.
  unfold itoa. rewrite decide_False by lia. destruct (decide (v = 0)) as [->|Hv0].
  { exists (<[str + 1:=0]> (<[str:=48]> m)). split; [done|]. unfold itoa_chars.
    rewrite decide_False by lia. cbn [numeral]. rewrite decide_True by done. cbn. split.
    - split; [|by repeat constructor]. cbn. rewrite lookup_insert_ne, !lookup_insert_eq by lia. done.
    - intros a Ha. by rewrite !lookup_insert_ne by lia. }
  assert (0 < Z.abs v < base ^ Z.of_nat 32) as Habs.
  { split; [lia|]. apply Z.lt_le_trans with (2 ^ Z.of_nat 32); [lia|].
    apply Z.pow_le_mono_l. lia. }
  assert (2 ^ 31 ≤ base ^ Z.of_nat 32) as Hpow.
  { transitivity (2 ^ Z.of_nat 32); [lia|]. apply Z.pow_le_mono_l. lia. }
  assert ((if bool_decide (v < 0 ∧ base = 10) then int_ok (- v) else Some v) = Some (Z.abs v)) as ->.
  { case_bool_decide as Hn; [unfold int_ok; rewrite decide_True by lia|]; f_equal; lia. }
  cbn [mbind option_bind].
  destruct (itoa_digits_spec base Hb 32 (Z.abs v) m str Habs) as (m1 & -> & Hst & Hk).
  cbn [mbind option_bind]. rewrite length_reverse in Hk |- *.
  set (ds := lower_digit <$> numeral 32 base (Z.abs v)) in *.
  assert (Forall (λ c, c ≠ 0) ds) as Hz.
  { apply Forall_fmap. eapply Forall_impl; [apply numeral_range; lia|].
    intros d [Hd _]. by apply lower_digit_nonzero. }
  assert (length ds ≤ 32)%nat as Hlen.
  { unfold ds. rewrite length_fmap. apply numeral_short; lia. }
  unfold itoa_chars. fold ds.
  assert (bool_decide (v < 0 ∧ base = 10) = bool_decide (v < 0)) as -> by (apply bool_decide_ext; lia).
  case_bool_decide as Hn; case_decide; try done.
  - destruct (itoa_finish m1 str ds [45] Hst Hz Hlen) as (m' & -> & Hc & Hk'); [by right|].
    cbn [mbind option_bind]. exists m'. split; [done|]. split; [done|].
    intros a Ha. rewrite Hk', Hk; [done| |done]. rewrite length_app in Ha. cbn [length] in Ha. lia.
  - destruct (itoa_finish m1 str ds [] Hst Hz Hlen) as (m' & -> & Hc & Hk'); [by left|].
    cbn [mbind option_bind]. exists m'. split; [done|]. split; [done|].
    intros a Ha. rewrite Hk', Hk; [done| |done]. cbn [app] in Ha. lia.
Qed.
End facts.

(** A memory that holds a text. *)
Fixpoint put_text (m : mem) (p : Z) (l : list Z) : mem :=
  match l with [] => <[p := 0]> m | c :: l => <[p := c]> (put_text m (p + 1) l) end.

Lemma cstr_put_text m p l : Forall (λ c, c ≠ 0) l → cstr (put_text m p l) p l.
Proof.
  intros Hl. revert p. induction Hl as [|c l Hc _ IH]; intros p.
  - apply cstr_nil. apply lookup_insert_eq.
  - apply cstr_cons. cbn [put_text]. split; [apply lookup_insert_eq|]. split; [done|].
    eapply cstr_ext; [|apply IH]. intros a Ha. apply lookup_insert_ne. lia.
Qed.

(** * Properties *)

(** C36: calling [strtok] on a string and then on [NULL] until it answers
    [NULL] ends, and gives exactly the pieces of the string between
    delimiters (two delimiters in a row enclose an empty piece, and nothing
    comes after a last delimiter); all of them stay readable, and no
    character outside the string is changed. *)
Theorem strtok_tokens m last s1 s2 l ds (Hl : cstr m s1 l) (Hd : cstr m s2 ds) (Hp : 0 < s1)
    (Hsep : s1 + Z.of_nat (length l) < s2 ∨ s2 + Z.of_nat (length ds) < s1) :
  ∃ qs m', strtok_all (S (length l)) m last s1 s2 = Some (s1 :: qs, m') ∧
    Forall2 (cstr m') (s1 :: qs) (tokens ds l) ∧
    (∀ a, a < s1 ∨ s1 + Z.of_nat (length l) ≤ a → m' !! a = m !! a).
Proof.
  unfold strtok_all, strtok at 1. rewrite decide_True by lia.
  destruct (token_loop_step m s1 s2 ds l s1 (S (size m)))
    as (t & b & k & m1 & -> & Htok & Ht & Hb & Hlen & Hk & Hm1); [done|done|by eapply cstr_fuel|].
  cbn [mbind option_bind].
  destruct (strtok_rest_spec s2 ds (S (length l)) b m1 (s1 + Z.of_nat k))
    as (qs & m' & -> & Hqs & Hm').
  - lia.
  - done.
  - eapply cstr_ext; [|exact Hd]. intros a Ha. apply Hm1. lia.
  - lia.
  - lia.
  - cbn [mbind option_bind]. exists qs, m'. split; [done|]. rewrite Htok. split.
    + constructor; [|done]. eapply token_survives; [exact Ht|exact Hk|exact Hm'].
    + intros a Ha. rewrite Hm', Hm1 by lia. done.
Qed.

(** C37: [itoa] writes the notation of its argument in any base from 2 to 36
    (in base 10 with a sign) and nothing else, and [atoi] reads the decimal
    notation back as the same number. *)
Theorem itoa_atoi_roundtrip m v str base (Hb : 2 ≤ base ≤ 36) (Hv : - 2 ^ 31 < v < 2 ^ 31)
    (Hs : 0 ≤ v ∨ base = 10) (Hp : str ≠ NULL) :
  ∃ m', itoa m v str base = Some (str, m') ∧ cstr m' str (itoa_chars base v) ∧
    (∀ a, a < str ∨ str + Z.of_nat (length (itoa_chars base v)) < a → m' !! a = m !! a) ∧
    (base = 10 → atoi m' str = Some v).
Proof.
  destruct (itoa_spec m v str base) as (m' & Hm' & Hc & Hk); [done..|].
  exists m'. do 3 (split; [done|]). intros ->. by apply atoi_spec.
Qed.

(** "ls  -a" at 10 and the delimiter " " at 30. *)
Definition cmd_mem : mem :=
  list_to_map [(10, 108); (11, 115); (12, 32); (13, 32); (14, 45); (15, 97); (16, 0);
    (30, 32); (31, 0)].

Lemma strtok_tokens_witness :
  ∃ qs m', strtok_all 7 cmd_mem 0 10 30 = Some (10 :: qs, m') ∧
    Forall2 (cstr m') (10 :: qs) [[108; 115]; []; [45; 97]] ∧
    (∀ a, a < 10 ∨ 10 + 6 ≤ a → m' !! a = cmd_mem !! a).
Proof.
  apply (strtok_tokens cmd_mem 0 10 30 [108; 115; 32; 32; 45; 97] [32]); [..|lia|cbn; lia];
    split; repeat constructor; lia.
Defined.

Lemma itoa_atoi_roundtrip_witness :
  ∃ m', itoa ∅ (-1205) 200 10 = Some (200, m') ∧ cstr m' 200 [45; 49; 50; 48; 53] ∧
    (∀ a, a < 200 ∨ 200 + 5 < a → m' !! a = (∅ : mem) !! a) ∧ (10 = 10 → atoi m' 200 = Some (-1205)).
Proof. apply (itoa_atoi_roundtrip ∅ (-1205) 200 10); lia. Defined.
