(* ===== verification/UserStdio.v ===== *)
(** * Formatted input and output of the programs ([Userland/libc/stdio.c],
      [Userland/libsys/ansiColors.c])

    A program's state is its memory of characters, the number buffer of
    [stdio.c], what its reads will be answered, and the system calls it has
    made.  The variable arguments of a call are the list of their 64-bit
    slots; taking one that is not there is [Undefined]. *)

From S2P Require Import Prelude Strings Monad Machine Numerals UserString.

(** The system calls a program makes. *)
Inductive call :=
  | Write (fd : Z) (text : list Z)   (* sys_write *)
  | Text_color (color : Z)   (* sys_fonts_text_color *)
  | Background_color (color : Z)   (* sys_fonts_background_color *)
  | Sys (number : Z) (args : list Z).   (* any other *)

Record program := Program {
  u_mem : mem;
  u_buffer : list Z;   (* buffer, 64 characters *)
  u_reads : list (Z * Z);   (* answers of sys_read: the count and the byte *)
  u_calls : list call;   (* oldest first *)
}.
Definition set_u_mem v p : program := Program v (u_buffer p) (u_reads p) (u_calls p).
Definition set_u_buffer v p : program := Program (u_mem p) v (u_reads p) (u_calls p).
Definition set_u_reads v p : program := Program (u_mem p) (u_buffer p) v (u_calls p).
Definition set_u_calls v p : program := Program (u_mem p) (u_buffer p) (u_reads p) v.

Abbreviation M := (K program).

Definition FD_STDIN : Z := 0.
Definition FD_STDOUT : Z := 1.
Definition FD_STDERR : Z := 2.
Definition EOF : Z := -1.

Definition syscall (c : call) : M unit := kmodify (λ p, set_u_calls (u_calls p ++ [c]) p).
Definition sys_write (fd : Z) (text : list Z) : M unit := syscall (Write fd text).

Definition rd (a : Z) : M Z := deref u_mem a.
Definition wr (a c : Z) : M unit := kmodify (λ p, set_u_mem (<[a := c]> (u_mem p)) p).

(** [*va_arg(args, int * ) = v] *)
Fixpoint wr_chars (a : Z) (l : list Z) : M unit :=
  match l with [] => mret tt | c :: l => _ ← wr a (i8 c); wr_chars (a + 1) l end.
Definition wr_int (a v : Z) : M unit := wr_chars a (le_bytes 4 (u32 v)).

Definition va_arg (args : list Z) : M (Z * list Z) :=
  match args with a :: args => mret (a, args) | [] => undefined end.

(** ** Colours *)

Definition ansi_palette : list (Z * Z) :=
  [(30, 0x00000000); (31, 0x00DE382B); (32, 0x0039B54A); (33, 0x00FFC706); (34, 0x00006FB8);
   (35, 0x00762671); (36, 0x002CB5E9); (37, 0x00CCCCCC); (90, 0x00808080); (91, 0x00FF0000);
   (92, 0x0000FF00); (93, 0x00FFFF00); (94, 0x000000FF); (95, 0x00FF00FF); (96, 0x0000FFFF);
   (97, 0x00FFFFFF)].

Definition setANSIProp (prop : Z) : M unit :=
  let background := bool_decide (40 ≤ prop ≤ 47 ∨ 100 ≤ prop ≤ 107) in
  let prop := if background then prop - 10 else prop in
  if decide (prop = 0) then
    _ ← syscall (Text_color 0x00FFFFFF);
    syscall (Background_color 0x00000000)
  else
    match list_find (λ e : Z * Z, e.1 = prop) ansi_palette with
    | Some (_, (_, color)) =>
        syscall (if background then Background_color color else Text_color color)
    | None => mret tt
    end.

(** [do ... while (string[( *i)++] != 'm');] the answer is [*i]. *)
Fixpoint ansi_loop (fuel : nat) (string i prop : Z) : M Z :=
  match fuel with
  | O => diverge
  | S fuel =>
      c ← rd (string + i);
      prop ← (if decide (c = 59 ∨ c = 109) then _ ← setANSIProp prop; mret 0
              else mret (u8 (prop * 10 + (c - 48))));
      if decide (c = 109) then mret (i + 1) else ansi_loop fuel string (i + 1) prop
  end.

Definition parseANSI (string i : Z) : M Z :=
  a ← rd (string + (i + 1));
  if decide (a ≠ 91) then mret i
  else
    b ← rd (string + (i + 2));
    if decide (b = 0) then mret i
    else
      m ← kgets u_mem;
      ansi_loop (S (size m)) string (i + 2) 0.

(** ** Output *)

(** [uintToBase(value, buffer, base); sys_write(fd, buffer, strlen(buffer))] *)
Definition write_number (fd value base : Z) : M unit :=
  b ← kgets u_buffer;
  '(_, b) ← kopt (uintToBase value (u32 base) b);
  _ ← kmodify (set_u_buffer b);
  s ← kopt (until_nul b);
  sys_write fd s.

(** Negating the least [int] overflows. *)
Definition printBase (fd num base : Z) : M unit :=
  if decide (num < 0) then
    _ ← sys_write fd [45];
    value ← kopt (int_ok (- num));
    write_number fd value base
  else write_number fd num base.

Definition printLongBase (fd num base : Z) : M unit :=
  if decide (num < 0) then
    _ ← sys_write fd [45];
    write_number fd (if decide (num = -9223372036854775807 - 1) then 9223372036854775808
                     else - num) base
  else write_number fd num base.

Definition printUnsignedLongBase (fd num base : Z) : M unit := write_number fd num base.

Section format.
(** [fprintf(fd, str)], for [%s]. *)
Context (fprintf_s : Z → Z → M unit).

(** After [%l]: the arguments left and the position. *)
Definition long_conversion (fd format : Z) (args : list Z) (i : Z) : M (list Z * Z) :=
  c ← rd (format + i);
  if decide (c = 100) then
    '(a, args) ← va_arg args; _ ← printLongBase fd (i64 a) 10; mret (args, i)
  else if decide (c = 117) then
    '(a, args) ← va_arg args; _ ← printUnsignedLongBase fd (u64 a) 10; mret (args, i)
  else if decide (c = 120) then
    '(a, args) ← va_arg args; _ ← printUnsignedLongBase fd (u64 a) 16; mret (args, i)
  else _ ← sys_write fd [108]; mret (args, i - 1).

(** The [switch] on the character after [%]. *)
Definition conversion (fd format : Z) (args : list Z) (i : Z) : M (list Z * Z) :=
  c ← rd (format + i);
  if decide (c = 120) then
    '(a, args) ← va_arg args; _ ← printBase fd (i32 a) 16; mret (args, i)
  else if decide (c = 100) then
    '(a, args) ← va_arg args; _ ← printBase fd (i32 a) 10; mret (args, i)
  else if decide (c = 111) then
    '(a, args) ← va_arg args; _ ← printBase fd (i32 a) 8; mret (args, i)
  else if decide (c = 98) then
    '(a, args) ← va_arg args; _ ← printBase fd (i32 a) 2; mret (args, i)
  else if decide (c = 108) then long_conversion fd format args (i + 1)
  else if decide (c = 99) then
    '(a, args) ← va_arg args; _ ← sys_write fd [i8 a]; mret (args, i)
  else if decide (c = 115) then
    '(a, args) ← va_arg args; _ ← fprintf_s fd (u64 a); mret (args, i)
  else if decide (c = 37) then _ ← sys_write fd [37]; mret (args, i)
  else mret (args, i).

Fixpoint format_loop (fuel : nat) (fd format : Z) (args : list Z) (i : Z) : M unit :=
  match fuel with
  | O => diverge
  | S fuel =>
      c ← rd (format + i);
      if decide (c = 0) then mret tt
      else if decide (c = 27) then
        _ ← sys_write fd [];
        i ← parseANSI format i;
        format_loop fuel fd format args i
      else if decide (c = 37) then
        '(args, i) ← conversion fd format args (i + 1);
        format_loop fuel fd format args (i + 1)
      else
        _ ← sys_write fd [c];
        format_loop fuel fd format args (i + 1)
  end.
End format.

(** A string printed by [%s] is a format of its own, without arguments: a
    [%s] in it has nothing to print. *)
Definition fprintf_s (fuel : nat) (fd str : Z) : M unit :=
  format_loop (λ _ _, undefined) fuel fd str [] 0.
Definition vfprintf (fuel : nat) (fd format : Z) (args : list Z) : M unit :=
  format_loop (fprintf_s fuel) fuel fd format args 0.
Definition fprintf (fuel : nat) (fd str : Z) (args : list Z) : M unit :=
  vfprintf fuel fd str args.
Definition printf (fuel : nat) (format : Z) (args : list Z) : M unit :=
  vfprintf fuel FD_STDOUT format args.
(** [printf] of a line feed writes it. *)
Definition puts (fuel : nat) (str : Z) : M unit :=
  _ ← printf fuel str []; sys_write FD_STDOUT [10].
Definition perror (fuel : nat) (s1 : Z) : M unit := fprintf fuel FD_STDERR s1 [].
Definition putchar (c : Z) : M unit := sys_write FD_STDOUT [c].

(** ** Input *)

(** [while ((n = sys_read(FD_STDIN, &c, 1)) == -1)]; with no answer left the
    program waits for ever. *)
Fixpoint getchar_loop (reads : list (Z * Z)) : M Z :=
  match reads with
  | [] => diverge
  | (n, c) :: reads =>
      _ ← kmodify (set_u_reads reads);
      if decide (n = -1) then getchar_loop reads
      else if decide (n = 0) then mret EOF else mret (u8 c)
  end.
Definition getchar : M Z := reads ← kgets u_reads; getchar_loop reads.

(** [c = getchar()] into a [char]. *)
Definition getchar_c : M Z := c ← getchar; mret (i8 c).

(** A result of [int64_t] arithmetic. *)
Definition int64_ok (z : Z) : option Z :=
  if decide (- 2 ^ 63 ≤ z < 2 ^ 63) then Some z else None.

(** The loops below read at least once per round. *)
Definition read_fuel : M nat := kgets (λ p, S (length (u_reads p))).

(** [while ((c = getchar()) != '\n');] *)
Fixpoint skip_line (fuel : nat) : M unit :=
  match fuel with
  | O => diverge
  | S fuel => c ← getchar_c; if decide (c = 10) then mret tt else skip_line fuel
  end.

(** [do ... while (...);] the number and its sign. *)
Fixpoint scan_number (fuel : nat) (c num : Z) (negative : bool) : M (Z * bool) :=
  match fuel with
  | O => diverge
  | S fuel =>
      '(num, negative) ← (if decide (c = 45) then mret (num, true)
                          else
                            t ← kopt (int64_ok (num * 10));
                            t ← kopt (int64_ok (t + c));
                            num ← kopt (int64_ok (t - 48)); mret (num, negative));
      c ← getchar_c;
      if decide (48 ≤ c ≤ 57 ∨ num = 0 ∧ c = 45) then scan_number fuel c num negative
      else mret (num, negative)
  end.

(** [while ((c = getchar()) != ' ' && c != '\n')] store it. *)
Fixpoint scan_word (fuel : nat) (str : Z) : M Z :=
  match fuel with
  | O => diverge
  | S fuel =>
      c ← getchar_c;
      if decide (c = 32 ∨ c = 10) then mret str
      else _ ← wr str c; scan_word fuel (str + 1)
  end.

(** After [%]: the arguments left and how many were read. *)
Definition scan_conversion (c : Z) (args : list Z) : M (list Z * Z) :=
  if decide (c = 100) then
    c ← getchar_c;
    if decide (c ≠ 45 ∧ (c < 48 ∨ 57 < c)) then
      fuel ← read_fuel; _ ← skip_line fuel; mret (args, 0)
    else
      fuel ← read_fuel;
      '(num, negative) ← scan_number fuel c 0 false;
      '(a, args) ← va_arg args;
      _ ← wr_int (u64 a) (i32 (num * (if negative : bool then -1 else 1)));
      mret (args, 1)
  else if decide (c = 99) then
    '(a, args) ← va_arg args;
    c ← getchar_c;
    _ ← wr (u64 a) c;
    mret (args, 1)
  else if decide (c = 115) then
    '(a, args) ← va_arg args;
    fuel ← read_fuel;
    str ← scan_word fuel (u64 a);
    _ ← wr str 0;
    mret (args, 1)
  else mret (args, 0).

Fixpoint vscanf_loop (fuel : nat) (format : Z) (args : list Z) (i args_read : Z) : M Z :=
  match fuel with
  | O => diverge
  | S fuel =>
      c ← rd (format + i);
      if decide (c = 0) then mret args_read
      else if decide (c = 37) then
        c ← rd (format + (i + 1));
        '(args, n) ← scan_conversion c args;
        vscanf_loop fuel format args (i + 2) (args_read + n)
      else vscanf_loop fuel format args (i + 1) args_read
  end.
Definition vscanf (fuel : nat) (format : Z) (args : list Z) : M Z :=
  vscanf_loop fuel format args 0 0.
Definition scanf := vscanf.

(** *** From a string *)

(** [while (buffer[buf_i] >= '0' && buffer[buf_i] <= '9')] *)
Fixpoint sscan_number (fuel : nat) (buffer buf_i num read_num : Z) : M (Z * Z * Z) :=
  match fuel with
  | O => diverge
  | S fuel =>
      c ← rd (buffer + buf_i);
      if decide (48 ≤ c ≤ 57) then
        t ← kopt (int_ok (num * 10));
        t ← kopt (int_ok (t + c));
        num ← kopt (int_ok (t - 48));
        sscan_number fuel buffer (buf_i + 1) num 1
      else mret (num, buf_i, read_num)
  end.

(** [*(str++) = buffer[buf_i]; str++; buf_i++;] *)
Fixpoint sscan_word (fuel : nat) (buffer buf_i str : Z) : M (Z * Z) :=
  match fuel with
  | O => diverge
  | S fuel =>
      c ← rd (buffer + buf_i);
      if decide (c ≠ 32 ∧ c ≠ 10 ∧ c ≠ 0) then
        _ ← wr str c; sscan_word fuel buffer (buf_i + 1) (str + 1 + 1)
      else mret (str, buf_i)
  end.

(** After [%]: the arguments left, the position, and how many were read. *)
Definition sscan_conversion (fuel : nat) (buffer buf_i c : Z) (args : list Z)
  : M (list Z * Z * Z) :=
  if decide (c = 100) then
    b ← rd (buffer + buf_i);
    if decide (b ≠ 45 ∧ (b < 48 ∨ 57 < b)) then mret (args, buf_i, 0)
    else
      let negative := bool_decide (b = 45) in
      '(num, buf_i, read_num) ←
        sscan_number fuel buffer (if negative then buf_i + 1 else buf_i) 0 0;
      '(a, args) ← va_arg args;
      _ ← wr_int (u64 a) (num * (if negative then -1 else 1));
      mret (args, buf_i, read_num)
  else if decide (c = 99) then
    '(a, args) ← va_arg args;
    b ← rd (buffer + buf_i);
    _ ← wr (u64 a) b;
    mret (args, buf_i + 1, 1)
  else if decide (c = 115) then
    '(a, args) ← va_arg args;
    '(str, buf_i) ← sscan_word fuel buffer buf_i (u64 a);
    _ ← wr str 0;
    mret (args, buf_i, 1)
  else mret (args, buf_i, 0).

Fixpoint vsscanf_loop (fuel : nat) (buffer format : Z) (args : list Z)
    (form_i buf_i args_read : Z) : M Z :=
  match fuel with
  | O => diverge
  | S fuel' =>
      c ← rd (format + form_i);
      if decide (c = 0) then mret args_read
      else if decide (c = 37) then
        c ← rd (format + (form_i + 1));
        '(args, buf_i, n) ← sscan_conversion fuel buffer buf_i c args;
        vsscanf_loop fuel' buffer format args (form_i + 2) buf_i (args_read + n)
      else vsscanf_loop fuel' buffer format args (form_i + 1) buf_i args_read
  end.
Definition vsscanf (fuel : nat) (buffer format : Z) (args : list Z) : M Z :=
  vsscanf_loop fuel buffer format args 0 0 0.
Definition sscanf := vsscanf.

(** ** The reference

    A format as a list of pieces, how each is spelled, and what it prints for
    the arguments it takes. *)

Inductive piece :=
  | P_char (c : Z)
  | P_int (base : Z)   (* %x %d %o %b *)
  | P_long   (* %ld *)
  | P_ulong (base : Z)   (* %lu %lx *)
  | P_c
  | P_s
  | P_percent.

Definition int_letter (base : Z) : Z :=
  if decide (base = 16) then 120 else if decide (base = 10) then 100
  else if decide (base = 8) then 111 else 98.
Definition ulong_letter (base : Z) : Z := if decide (base = 10) then 117 else 120.

Definition spell (pc : piece) : list Z :=
  match pc with
  | P_char c => [c]
  | P_int base => [37; int_letter base]
  | P_long => [37; 108; 100]
  | P_ulong base => [37; 108; ulong_letter base]
  | P_c => [37; 99]
  | P_s => [37; 115]
  | P_percent => [37; 37]
  end.

(** The notation of a number, in upper case, with its sign. *)
Definition number_text (base v : Z) : list Z :=
  (if decide (v < 0) then [45] else []) ++ (digit_char <$> numeral 65 base (Z.abs v)).

(** Characters that stand for themselves. *)
Definition plain (c : Z) : Prop := c ≠ 0 ∧ c ≠ 27 ∧ c ≠ 37.

Inductive prints (m : mem) : piece → list Z → list Z → Prop :=
  | prints_char c : plain c → prints m (P_char c) [] [c]
  | prints_int base a : base ∈ [2; 8; 10; 16] → i32 a ≠ - 2 ^ 31 →
      prints m (P_int base) [a] (number_text base (i32 a))
  | prints_long a : prints m P_long [a] (number_text 10 (i64 a))
  | prints_ulong base a : base ∈ [10; 16] → prints m (P_ulong base) [a] (number_text base (u64 a))
  | prints_c a : prints m P_c [a] [i8 a]
  | prints_s a l : cstr m (u64 a) l → Forall plain l → prints m P_s [a] l
  | prints_percent : prints m P_percent [] [37].

(** The text of a whole format; arguments may be left over. *)
Inductive prints_all (m : mem) : list piece → list Z → list Z → Prop :=
  | prints_nil args : prints_all m [] args []
  | prints_cons pc ps a args t text :
      prints m pc a t → prints_all m ps args text →
      prints_all m (pc :: ps) (a ++ args) (t ++ text).

(** Decide the comparisons of a [switch] on a known character. *)
Ltac pick_case :=
  unfold int_letter, ulong_letter;
  repeat match goal with
  | |- context [decide (?a = ?b)] =>
      first [rewrite (decide_True (P := a = b)) by done
            |rewrite (decide_False (P := a = b)) by done]
  end; cbn [va_arg].

Section facts.
Implicit Types (p : program) (l t : list Z).

(** What was written to [fd] between two states is [t]. *)
Definition wrote (fd : Z) t p p' : Prop :=
  u_mem p' = u_mem p ∧ u_reads p' = u_reads p ∧ length (u_buffer p') = length (u_buffer p) ∧
  ∃ ws, u_calls p' = u_calls p ++ (Write fd <$> ws) ∧ concat ws = t.

Lemma wrote_nil fd p : wrote fd [] p p.
Proof. do 3 (split; [done|]). exists []. by rewrite app_nil_r. Qed.

Lemma wrote_app fd t1 t2 p1 p2 p3 :
  wrote fd t1 p1 p2 → wrote fd t2 p2 p3 → wrote fd (t1 ++ t2) p1 p3.
Proof.
  intros (Hm1 & Hr1 & Hb1 & w1 & Hc1 & <-) (Hm2 & Hr2 & Hb2 & w2 & Hc2 & <-).
  do 3 (split; [congruence|]). exists (w1 ++ w2). rewrite concat_app. split; [|done].
  by rewrite Hc2, Hc1, fmap_app, app_assoc.
Qed.

Lemma wp_sys_write fd t p (Q : unit → program → Prop) :
  (∀ p', wrote fd t p p' → Q tt p') → wp false (sys_write fd t) Q p.
Proof.
  intros HQ. apply wp_modify, HQ. do 3 (split; [done|]). exists [t]. cbn. by rewrite app_nil_r.
Qed.

Lemma wp_write_number fd value base p (Q : unit → program → Prop) :
  1 < base ≤ 16 → 0 ≤ value < 2 ^ 64 → length (u_buffer p) = 64%nat →
  (length (numeral 65 base value) < 64)%nat →
  (∀ p', wrote fd (digit_char <$> numeral 65 base value) p p' → Q tt p') →
  wp false (write_number fd value base) Q p.
Proof.
  intros Hb Hv Hbuf Hl HQ. unfold write_number. wp_step. wp_step. wp_step.
  pose proof (uintToBase_spec value (u32 base) (u_buffer p)) as Hs. cbv zeta in Hs.
  assert (u32 base = base) as Hu by (apply wrapu_small; lia). rewrite Hu in *.
  rewrite length_fmap, Hbuf, decide_True in Hs by done.
  eapply wp_kopt; [apply Hs; lia|]. wp_step. wp_step. wp_step.
  assert (Forall (λ d, 0 ≤ d < base) (numeral 65 base value)) as Hr by (apply numeral_range; lia).
  eapply wp_kopt.
  { apply until_nul_app, Forall_fmap. eapply Forall_impl; [exact Hr|].
    intros d [Hd _]. by apply digit_char_nonzero. }
  apply wp_sys_write. intros p' (Hm & Hrd & Hbf & Hc). apply HQ.
  split; [exact Hm|]. split; [exact Hrd|]. split; [|exact Hc]. rewrite Hbf. cbn [u_buffer set_u_buffer].
  rewrite length_app, length_fmap. cbn [length]. rewrite length_drop. lia.
Qed.

(** Every number the library prints fits the buffer: in base 2 only 32-bit
    numbers are printed. *)
Lemma number_fits base v :
  0 ≤ v < 2 ^ 64 → base ∈ [10; 16] ∨ base ∈ [2; 8] ∧ v < 2 ^ 32 →
  1 < base ≤ 16 ∧ (length (numeral 65 base v) < 64)%nat.
Proof.
  intros Hv Hb. pose proof (numeral_short 65 20 10 v). pose proof (numeral_short 65 16 16 v).
  pose proof (numeral_short 65 32 2 v). pose proof (numeral_short 65 11 8 v).
  rewrite !elem_of_cons, !elem_of_nil in Hb.
  destruct Hb as [[->|[->|[]]]|[[->|[->|[]]] Hs]]; lia.
Qed.

(** A sign and the digits. *)
Lemma wp_signed fd v base p (Q : unit → program → Prop) :
  - 2 ^ 63 ≤ v < 2 ^ 63 → base ∈ [10; 16] ∨ base ∈ [2; 8] ∧ - 2 ^ 31 ≤ v < 2 ^ 31 →
  length (u_buffer p) = 64%nat →
  (∀ p', wrote fd (number_text base v) p p' → Q tt p') →
  wp false (if decide (v < 0) then _ ← sys_write fd [45]; write_number fd (- v) base
            else write_number fd v base) Q p.
Proof.
  intros Hv Hb Hbuf HQ. unfold number_text in HQ. case_decide as Hn.
  - destruct (number_fits base (- v)) as [Hb1 Hl]; [lia|destruct Hb as [?|[? ?]]; [by left|right; split; [done|lia]]|].
    wp_step. apply wp_sys_write. intros p1 H1. replace (Z.abs v) with (- v) in HQ by lia.
    apply wp_write_number; [done|lia|destruct H1 as (_ & _ & -> & _); done|done|].
    intros p2 H2. apply HQ. by eapply wrote_app.
  - destruct (number_fits base v) as [Hb1 Hl]; [lia|destruct Hb as [?|[? ?]]; [by left|right; split; [done|lia]]|].
    replace (Z.abs v) with v in HQ by lia. by apply wp_write_number; [done|lia|..].
Qed.

Lemma wp_print_int fd num base p (Q : unit → program → Prop) :
  - 2 ^ 31 < num < 2 ^ 31 → base ∈ [2; 8; 10; 16] → length (u_buffer p) = 64%nat →
  (∀ p', wrote fd (number_text base num) p p' → Q tt p') →
  wp false (printBase fd num base) Q p.
Proof.
  intros Hn Hb Hbuf HQ.
  assert (printBase fd num base p = (if decide (num < 0)
    then _ ← sys_write fd [45]; write_number fd (- num) base else write_number fd num base) p) as E.
  { unfold printBase, int_ok. case_decide; [|done]. by rewrite decide_True by lia. }
  unfold wp. rewrite E. apply wp_signed; [lia| |done|done].
  rewrite !elem_of_cons, !elem_of_nil in *. lia.
Qed.

Lemma wp_printLongBase fd num p (Q : unit → program → Prop) :
  - 2 ^ 63 ≤ num < 2 ^ 63 → length (u_buffer p) = 64%nat →
  (∀ p', wrote fd (number_text 10 num) p p' → Q tt p') →
  wp false (printLongBase fd num 10) Q p.
Proof.
  intros Hn Hbuf HQ.
  assert (printLongBase fd num 10 = (if decide (num < 0)
    then _ ← sys_write fd [45]; write_number fd (- num) 10 else write_number fd num 10)) as ->.
  { unfold printLongBase. destruct (decide (num = _)) as [->|]; done. }
  apply wp_signed; [done|left; set_solver|done|done].
Qed.

Lemma cstr_at m a c l i : cstr m (a + i) (c :: l) → m !! (a + i) = Some c ∧ cstr m (a + (i + 1)) l.
Proof. rewrite cstr_cons, Z.add_assoc. naive_solver. Qed.

(** A string without [%] and escapes prints itself. *)
Lemma wp_format_plain sub fd args l : ∀ fuel p format i (Q : unit → program → Prop),
  cstr (u_mem p) (format + i) l → Forall plain l → (length l < fuel)%nat →
  (∀ p', wrote fd l p p' → Q tt p') →
  wp false (format_loop sub fuel fd format args i) Q p.
Proof.
  induction l as [|c l IH]; intros [|fuel] p format i Q Hc Hp Hf HQ; simpl in Hf; try lia;
    cbn [format_loop]; wp_step.
  - apply cstr_nil in Hc. eapply wp_deref; [exact Hc|]. rewrite decide_True by done. wp_step.
    apply HQ, wrote_nil.
  - apply cstr_at in Hc as [Hc Hl]. apply Forall_cons in Hp as [(Hc0 & Hc1 & Hc2) Hp].
    eapply wp_deref; [exact Hc|]. rewrite !decide_False by done. wp_step. apply wp_sys_write.
    intros p1 H1. pose proof H1 as (Hm & _). apply IH; [by rewrite Hm|done|lia|].
    intros p2 H2. apply HQ. by apply (wrote_app fd [c] l p p1 p2).
Qed.

(** Every piece but a character starts with [%]. *)
Lemma wp_conversion fuel fd format pc a t rest args i p
    (Q : list Z * Z → program → Prop) :
  prints (u_mem p) pc a t → (∀ c, pc ≠ P_char c) →
  cstr (u_mem p) (format + i) (tail (spell pc) ++ rest) →
  length (u_buffer p) = 64%nat → (size (u_mem p) < fuel)%nat →
  (∀ p', wrote fd t p p' → Q (args, i + Z.of_nat (length (spell pc)) - 2) p') →
  wp false (conversion (fprintf_s fuel) fd format (a ++ args) i) Q p.
Proof.
  intros Hpr Hnc Hc Hbuf Hf HQ. unfold conversion. wp_step.
  destruct Hpr as [c ?|base a Hb Hmin|a|base a Hb|a|a l Hl Hpl|]; cbn [spell tail app length] in *.
  - by destruct (Hnc c).
  - apply cstr_at in Hc as [Hc _]. eapply wp_deref; [exact Hc|].
    assert (- 2 ^ 31 < i32 a < 2 ^ 31) as Hr.
    { unfold wraps in *. pose proof (Z.mod_pos_bound (a + 2 ^ (32 - 1)) (2 ^ 32)). lia. }
    replace (i + Z.of_nat 2 - 2) with i in HQ by lia. pose proof Hb as Hb'.
    rewrite !elem_of_cons, elem_of_nil in Hb'.
    destruct Hb' as [->|[->|[->|[->|[]]]]]; pick_case; wp_step; wp_step; wp_step;
      (apply wp_print_int; [done|exact Hb|done|]); intros p' H'; wp_step; by apply HQ.
  - apply cstr_at in Hc as [Hc Hc']. eapply wp_deref; [exact Hc|]. pick_case.
    apply cstr_at in Hc' as [Hc' _]. unfold long_conversion. wp_step.
    eapply wp_deref; [exact Hc'|]. pick_case. wp_step. wp_step. wp_step.
    apply wp_printLongBase; [|done|].
    { unfold wraps. pose proof (Z.mod_pos_bound (a + 2 ^ (64 - 1)) (2 ^ 64)). lia. }
    intros p' H'. wp_step. replace (i + 1) with (i + Z.of_nat 3 - 2) by lia. by apply HQ.
  - apply cstr_at in Hc as [Hc Hc']. eapply wp_deref; [exact Hc|]. pick_case.
    apply cstr_at in Hc' as [Hc' _]. unfold long_conversion. wp_step.
    eapply wp_deref; [exact Hc'|]. replace (i + Z.of_nat 3 - 2) with (i + 1) in HQ by lia.
    assert (0 ≤ u64 a < 2 ^ 64) as Ha by (by apply wrapu_range).
    destruct (number_fits base (u64 a)) as [Hb1 Hl]; [done|by left|].
    unfold number_text in HQ. rewrite decide_False, Z.abs_eq in HQ by lia.
    rewrite !elem_of_cons, elem_of_nil in Hb. destruct Hb as [->|[->|[]]]; pick_case;
      wp_step; wp_step; wp_step; (apply wp_write_number; [lia|done|done|done|]);
      intros p' H'; wp_step; by apply HQ.
  - apply cstr_at in Hc as [Hc _]. eapply wp_deref; [exact Hc|]. pick_case.
    wp_step. wp_step. wp_step. apply wp_sys_write. intros p' H'. wp_step.
    replace i with (i + Z.of_nat 2 - 2) by lia. by apply HQ.
  - apply cstr_at in Hc as [Hc _]. eapply wp_deref; [exact Hc|]. pick_case.
    wp_step. wp_step. wp_step. unfold fprintf_s.
    apply wp_format_plain with l; [by rewrite Z.add_0_r|done| |].
    { apply cstr_fuel in Hl. lia. }
    intros p' H'. wp_step. replace i with (i + Z.of_nat 2 - 2) by lia. by apply HQ.
  - apply cstr_at in Hc as [Hc _]. eapply wp_deref; [exact Hc|]. pick_case.
    wp_step. apply wp_sys_write. intros p' H'. wp_step.
    replace i with (i + Z.of_nat 2 - 2) by lia. by apply HQ.
Qed.

Lemma prints_mem m m' pc a t : m' = m → prints m pc a t → prints m' pc a t.
Proof. by intros ->. Qed.

Lemma spell_not_char pc : (∀ c, pc ≠ P_char c) → spell pc = 37 :: tail (spell pc).
Proof. intros H. by destruct pc; [destruct (H c)|..]. Qed.

(** The loop over the format. *)
Lemma wp_format_loop fd fmem format ps args text : prints_all fmem ps args text →
  ∀ n fuel p i (Q : unit → program → Prop),
  u_mem p = fmem → cstr fmem (format + i) (concat (spell <$> ps)) →
  length (u_buffer p) = 64%nat → (size fmem < fuel)%nat →
  (length (concat (spell <$> ps)) < n)%nat →
  (∀ p', wrote fd text p p' → Q tt p') →
  wp false (format_loop (fprintf_s fuel) n fd format args i) Q p.
Proof.
  induction 1 as [args|pc ps a args t text Hpr _ IH];
    intros [|n] fuel p i Q Hm Hc Hbuf Hf Hn HQ; try lia.
  { apply wp_format_plain with []; [by subst|constructor|cbn; lia|done]. }
  cbn [fmap list_fmap list_fmap concat] in Hc, Hn. rewrite length_app in Hn.
  cbn [format_loop]. wp_step.
  assert (∀ p' i' (Q' : unit → program → Prop), wrote fd t p p' →
    i' = i + Z.of_nat (length (spell pc)) →
    (∀ p'', wrote fd (t ++ text) p p'' → Q' tt p'') →
    wp false (format_loop (fprintf_s fuel) n fd format args i') Q' p') as Hrest.
  { intros p' i' Q' H' -> HQ'. pose proof H' as (Hm' & _ & Hb' & _).
    apply IH; [congruence| |congruence|done| |].
    - apply cstr_app in Hc. by rewrite Z.add_assoc.
    - destruct pc; cbn in Hn; lia.
    - intros p'' H''. apply HQ'. by eapply wrote_app. }
  assert ((∃ c, pc = P_char c) ∨ ∀ c, pc ≠ P_char c) as [[c ->]|Hnc] by (destruct pc; eauto).
  - inversion Hpr as [? (Hc0 & Hc1 & Hc2)| | | | | |]; subst. cbn [spell app] in Hc.
    apply cstr_at in Hc as [Hc _]. eapply wp_deref; [exact Hc|]. rewrite !decide_False by done.
    wp_step. apply wp_sys_write. intros p1 H1. by apply Hrest.
  - rewrite (spell_not_char pc Hnc) in Hc. cbn [app] in Hc. apply cstr_at in Hc as [Hc Hc'].
    eapply wp_deref; [by rewrite Hm|]. pick_case. wp_step.
    eapply wp_conversion; [by rewrite Hm|done|by rewrite Hm|done|by rewrite Hm|].
    intros p1 H1. cbv beta iota. apply Hrest; [done|lia|done].
Qed.

(** An [int] in memory. *)
Definition load_int (m : mem) (a : Z) : option Z :=
  l ← load_bytes m a 4; Some (i32 (le_value (u8 <$> l))).

Lemma u8_i8 b : 0 ≤ b < 256 → u8 (i8 b) = b.
Proof.
  intros Hb. unfold wrapu, wraps. change (8 - 1) with 7. Z.div_mod_to_equations. lia.
Qed.

Lemma wp_wr_chars l : ∀ a p (Q : unit → program → Prop),
  (∀ m', load_bytes m' a (length l) = Some (i8 <$> l) →
    (∀ x, x < a ∨ a + Z.of_nat (length l) ≤ x → m' !! x = u_mem p !! x) →
    Q tt (set_u_mem m' p)) →
  wp false (wr_chars a l) Q p.
Proof.
  induction l as [|c l IH]; intros a p Q HQ; cbn [wr_chars].
  { wp_step. replace p with (set_u_mem (u_mem p) p) by by destruct p. by apply HQ. }
  wp_step. unfold wr. wp_step. apply IH. intros m' Hm' Hk. cbn [u_mem set_u_mem] in Hk.
  change (set_u_mem m' (set_u_mem (<[a := i8 c]> (u_mem p)) p)) with (set_u_mem m' p).
  apply HQ.
  - cbn [length load_bytes fmap list_fmap list_fmap]. rewrite Hk, lookup_insert_eq by lia.
    cbn [mbind option_bind]. by rewrite Hm'.
  - cbn [length]. intros x Hx. rewrite Hk by lia. apply lookup_insert_ne. lia.
Qed.

Lemma wp_wr_int a v p (Q : unit → program → Prop) :
  - 2 ^ 31 ≤ v < 2 ^ 31 →
  (∀ m', load_int m' a = Some v →
    (∀ x, x < a ∨ a + 4 ≤ x → m' !! x = u_mem p !! x) → Q tt (set_u_mem m' p)) →
  wp false (wr_int a v) Q p.
Proof.
  intros Hv HQ. apply wp_wr_chars. rewrite le_bytes_length. intros m' Hl Hk.
  apply HQ; [|exact Hk]. unfold load_int. rewrite Hl. cbn [mbind option_bind]. f_equal.
  rewrite <-list_fmap_compose.
  assert (u8 ∘ i8 <$> le_bytes 4 (u32 v) = le_bytes 4 (u32 v)) as ->.
  { rewrite <-(list_fmap_id (le_bytes 4 (u32 v))) at 2. apply list_fmap_ext.
    intros j b Hb. pose proof (le_bytes_range 4 (u32 v)) as Hr.
    eapply Forall_lookup_1 in Hr; [|exact Hb]. by apply u8_i8. }
  rewrite le_roundtrip. unfold wrapu, wraps. change (256 ^ Z.of_nat 4) with (2 ^ 32).
  Z.div_mod_to_equations. lia.
Qed.

(** Digits up to a character that is none. *)
Lemma wp_sscan_number buffer c (ds : list Z) :
  ∀ fuel i num r p (Q : Z * Z * Z → program → Prop),
  stored (u_mem p) (buffer + i) (((λ d, d + 48) <$> ds) ++ [c]) → ¬ 48 ≤ c ≤ 57 →
  Forall (λ d, 0 ≤ d < 10) ds → 0 ≤ num →
  foldl (λ v d, v * 10 + d) num ds < 2 ^ 31 - 48 → (length ds < fuel)%nat →
  Q (foldl (λ v d, v * 10 + d) num ds, i + Z.of_nat (length ds),
     if decide (ds = []) then r else 1) p →
  wp false (sscan_number fuel buffer i num r) Q p.
Proof.
  induction ds as [|d ds IH]; intros [|fuel] i num r p Q Hs Hc Hd Hnum Hmax Hf HQ;
    simpl in Hf; try lia; cbn [sscan_number]; cbn [fmap list_fmap list_fmap app stored] in Hs;
    destruct Hs as [Hm Hs]; wp_step; (eapply wp_deref; [exact Hm|]).
  - rewrite decide_False by done. wp_step. cbn [foldl length] in HQ.
    by replace (i + Z.of_nat 0) with i in HQ by lia.
  - apply Forall_cons in Hd as [Hd0 Hd]. rewrite decide_True by lia. cbn [foldl] in Hmax, HQ.
    assert (num * 10 + d ≤ foldl (λ v d, v * 10 + d) (num * 10 + d) ds) as Hge
      by (apply foldl_decimal_ge; [done|lia]).
    unfold int_ok. rewrite !decide_True by lia.
    wp_step. wp_step. wp_step. rewrite decide_True by lia. wp_step. wp_step.
    rewrite decide_True by lia. wp_step.
    replace (num * 10 + (d + 48) - 48) with (num * 10 + d) by lia.
    apply IH; [by rewrite <-Z.add_assoc in Hs|done|done|lia|done|lia|].
    rewrite decide_False in HQ by done. cbn [length] in HQ.
    replace (i + 1 + Z.of_nat (length ds)) with (i + Z.of_nat (S (length ds))) by lia.
    by case_decide.
Qed.

(** The word [%s] reads: every other character of the target is set. *)
Lemma wp_sscan_word buffer c l : ∀ fuel i str p (Q : Z * Z → program → Prop),
  stored (u_mem p) (buffer + i) (l ++ [c]) → c = 32 ∨ c = 10 ∨ c = 0 →
  Forall (λ b, b ≠ 32 ∧ b ≠ 10 ∧ b ≠ 0) l → (length l < fuel)%nat →
  str + 2 * Z.of_nat (length l) ≤ buffer + i ∨ buffer + i + Z.of_nat (length l) < str →
  (∀ m', (∀ x, m' !! x = if decide (str ≤ x < str + 2 * Z.of_nat (length l) ∧ (x - str) mod 2 = 0)
                          then l !! Z.to_nat ((x - str) / 2) else u_mem p !! x) →
    Q (str + 2 * Z.of_nat (length l), i + Z.of_nat (length l)) (set_u_mem m' p)) →
  wp false (sscan_word fuel buffer i str) Q p.
Proof.
  induction l as [|b l IH]; intros [|fuel] i str p Q Hs Hc Hl Hf Hsep HQ; simpl in Hf; try lia;
    cbn [sscan_word]; cbn [app stored] in Hs; destruct Hs as [Hm Hs]; wp_step;
    (eapply wp_deref; [exact Hm|]).
  - rewrite decide_False by lia. wp_step. cbn [length] in HQ.
    replace p with (set_u_mem (u_mem p) p) by by destruct p.
    replace str with (str + 2 * Z.of_nat 0) at 1 by lia.
    replace i with (i + Z.of_nat 0) at 1 by lia. apply HQ. intros x. by rewrite decide_False by lia.
  - apply Forall_cons in Hl as [Hb Hl]. rewrite decide_True by done. cbn [length] in Hsep, HQ.
    wp_step. unfold wr. wp_step. apply IH; cbn [u_mem set_u_mem]; [|done|done|lia|lia|].
    + rewrite <-Z.add_assoc in Hs. eapply stored_ext; [|exact Hs]. intros x Hx.
      rewrite length_app in Hx. cbn [length] in Hx. apply lookup_insert_ne. lia.
    + intros m' Hm'.
      replace (str + 1 + 1 + 2 * Z.of_nat (length l)) with (str + 2 * Z.of_nat (S (length l))) by lia.
      replace (i + 1 + Z.of_nat (length l)) with (i + Z.of_nat (S (length l))) by lia.
      change (set_u_mem m' (set_u_mem (<[str := b]> (u_mem p)) p)) with (set_u_mem m' p).
      apply HQ. intros x. rewrite Hm'. destruct (decide (x = str)) as [->|Hne].
      * rewrite decide_False by lia. rewrite lookup_insert_eq, Z.sub_diag.
        by rewrite decide_True by (split; [lia|done]).
      * rewrite lookup_insert_ne by done. replace (x - (str + 1 + 1)) with (x - str + (-1) * 2) by lia.
        rewrite Z.mod_add, Z.div_add by lia. set (y := x - str) in *.
        pose proof (Z.div_mod y 2). pose proof (Z.mod_pos_bound y 2).
        repeat case_decide; try lia; [|done].
        replace (Z.to_nat (y / 2)) with (S (Z.to_nat (y / 2 + -1))) by lia. done.
Qed.
End facts.

(** The decimal notation of an [int]: a sign and digits. *)
Lemma decimal_text v : - 2 ^ 31 < v < 2 ^ 31 → ∃ d ds,
  number_text 10 v = (if decide (v < 0) then [45] else []) ++ ((λ d, d + 48) <$> d :: ds) ∧
  Forall (λ d, 0 ≤ d < 10) (d :: ds) ∧ foldl (λ v d, v * 10 + d) 0 (d :: ds) = Z.abs v.
Proof.
  intros Hv. unfold number_text. pose proof (numeral_range 65 10 (Z.abs v)) as Hr.
  pose proof (numeral_value_spec 65 10 (Z.abs v)) as Hval. unfold numeral_value in Hval.
  destruct (numeral 65 10 (Z.abs v)) as [|d ds] eqn:En; [by apply numeral_nonempty in En|].
  exists d, ds. specialize (Hr ltac:(lia)). split; [|split; [done|apply Hval; lia]]. f_equal.
  apply list_fmap_ext. intros i x Hx. unfold digit_char. eapply Forall_lookup_1 in Hr; [|exact Hx].
  by rewrite decide_True by lia.
Qed.

(** A conversion without an argument. *)
Lemma format_takes_argument sub n fd str c rest l : c ∈ [120; 100; 111; 98; 99; 115] →
  Forall plain l → ∀ i p, cstr (u_mem p) (str + i) (l ++ 37 :: c :: rest) → (length l < n)%nat →
  format_loop sub n fd str [] i p = Undefined.
Proof.
  intros Hc Hp. revert n. induction Hp as [|b l (Hb0 & Hb1 & Hb2) _ IH]; intros [|n] i p Hl Hn;
    cbn [length] in Hn; try lia; cbn [format_loop app] in *; apply cstr_at in Hl as [H1 Hl].
  - rewrite (bind_ret (rd (str + i)) _ p 37 p) by (unfold rd, deref; by rewrite H1).
    rewrite decide_False, decide_False, decide_True by done. apply cstr_at in Hl as [H2 _].
    unfold conversion. unfold mbind at 1, K_bind at 1.
    rewrite (bind_ret (rd (str + (i + 1))) _ p c p) by (unfold rd, deref; by rewrite H2).
    rewrite !elem_of_cons, elem_of_nil in Hc.
    destruct Hc as [->|[->|[->|[->|[->|[->|[]]]]]]]; pick_case; done.
  - rewrite (bind_ret (rd (str + i)) _ p b p) by (unfold rd, deref; by rewrite H1).
    rewrite !decide_False by done. unfold mbind at 1, K_bind at 1. cbn [res_bind].
    unfold sys_write, syscall, kmodify. cbn [res_bind]. apply IH; [done|lia].
Qed.

(** [printf] and its kin, for use. *)
Lemma wp_vfprintf fuel fd format ps args text p (Q : unit → program → Prop) :
  prints_all (u_mem p) ps args text → cstr (u_mem p) format (concat (spell <$> ps)) →
  length (u_buffer p) = 64%nat → (size (u_mem p) < fuel)%nat →
  (∀ p', wrote fd text p p' → Q tt p') → wp false (vfprintf fuel fd format args) Q p.
Proof.
  intros Hp Hc Hb Hf HQ.
  eapply wp_format_loop; [exact Hp|done|by rewrite Z.add_0_r|done|done| |done].
  apply cstr_fuel in Hc. lia.
Qed.

(** * Properties *)

(** C35: a format prints what its pieces stand for: plain characters
    themselves, numbers in their notation (signed where the conversion is),
    characters and strings as they are; every conversion takes its argument
    in order.  Only the descriptor's output and the number buffer change. *)
Theorem printf_correct fuel fd format ps args text p
    (Hp : prints_all (u_mem p) ps args text)
    (Hc : cstr (u_mem p) format (concat (spell <$> ps)))
    (Hb : length (u_buffer p) = 64%nat) (Hf : (size (u_mem p) < fuel)%nat) :
  wp false (vfprintf fuel fd format args) (λ _ p',
    u_mem p' = u_mem p ∧ u_reads p' = u_reads p ∧
    ∃ ws, u_calls p' = u_calls p ++ (Write fd <$> ws) ∧ concat ws = text) p.
Proof.
  eapply wp_vfprintf; [exact Hp|done..|]. by intros p' (Hm & Hr & _ & Hw).
Qed.

(** An escape character without an opening bracket after it is never passed: the call
    writes nothing for ever. *)
Theorem printf_escape_hangs fuel fd format args c p
    (Hesc : u_mem p !! format = Some 27) (Hc : u_mem p !! (format + 1) = Some c) (Hne : c ≠ 91) :
  vfprintf fuel fd format args p = Diverges.
Proof.
  unfold vfprintf. generalize (fprintf_s fuel). intros sub. revert p Hesc Hc.
  induction fuel as [|fuel IH]; intros p Hesc Hc; cbn [format_loop]; [done|].
  set (p1 := set_u_calls (u_calls p ++ [Write fd []]) p).
  rewrite (bind_ret (rd (format + 0)) _ p 27 p) by (unfold rd, deref; by rewrite Z.add_0_r, Hesc).
  rewrite decide_False, decide_True by done.
  rewrite (bind_ret (sys_write fd []) _ p tt p1) by done.
  rewrite (bind_ret (parseANSI format 0) _ p1 0 p1); [by apply IH|]. unfold parseANSI.
  rewrite (bind_ret (rd (format + (0 + 1))) _ p1 c p1) by (unfold rd, deref;
    change (u_mem p1 !! (format + (0 + 1))) with (u_mem p !! (format + 1)); by rewrite Hc).
  by rewrite decide_True.
Qed.

(** A string printed with [%s] is read as a format again: one with a
    conversion in it takes an argument nobody gave. *)
Theorem printf_string_conversion fuel fd format a l c rest p
    (Hfmt : cstr (u_mem p) format [37; 115])
    (Hl : cstr (u_mem p) (u64 a) (l ++ 37 :: c :: rest)) (Hp : Forall plain l)
    (Hc : c ∈ [120; 100; 111; 98; 99; 115]) (Hf : (size (u_mem p) < fuel)%nat) :
  vfprintf fuel fd format [a] p = Undefined.
Proof.
  unfold vfprintf. destruct fuel as [|fuel]; [lia|]. cbn [format_loop].
  rewrite <-(Z.add_0_r format) in Hfmt. apply cstr_at in Hfmt as [H1 Hfmt].
  apply cstr_at in Hfmt as [H2 _].
  rewrite (bind_ret (rd (format + 0)) _ p 37 p) by (unfold rd, deref; by rewrite H1).
  rewrite decide_False, decide_False, decide_True by done. unfold conversion.
  unfold mbind at 1, K_bind at 1.
  rewrite (bind_ret (rd (format + (0 + 1))) _ p 115 p) by (unfold rd, deref; by rewrite H2).
  rewrite !decide_False, decide_True by done. cbn [va_arg].
  rewrite (bind_ret (mret (a, [])) _ p (a, []) p) by done. unfold mbind at 1, K_bind at 1.
  unfold fprintf_s.
  rewrite (format_takes_argument _ (S fuel) fd (u64 a) c rest l); try done.
  - by rewrite Z.add_0_r.
  - apply cstr_fuel in Hl. rewrite length_app in Hl. lia.
Qed.

(** [sscanf] with [%d] reads back what [printf] with [%d] writes, up to
    the first character that is no digit: it answers 1 and stores the number
    in the four bytes of its argument.  (The last digits of numbers of
    2^31 - 48 or more overflow before their character code is taken off.) *)
Theorem sscanf_decimal fuel p buffer format a v c
    (Hfmt : cstr (u_mem p) format [37; 100])
    (Hbuf : stored (u_mem p) buffer (number_text 10 v ++ [c])) (Hc : ¬ 48 ≤ c ≤ 57)
    (Hv : - (2 ^ 31 - 48) < v < 2 ^ 31 - 48) (Hf : (size (u_mem p) < fuel)%nat)
    (Hsep : format + 2 < u64 a ∨ u64 a + 4 ≤ format) :
  wp false (sscanf fuel buffer format [a]) (λ n p',
    n = 1 ∧ load_int (u_mem p') (u64 a) = Some v ∧
    (∀ x, x < u64 a ∨ u64 a + 4 ≤ x → u_mem p' !! x = u_mem p !! x) ∧
    p' = set_u_mem (u_mem p') p) p.
Proof.
  destruct (decimal_text v) as (d & ds & Et & Hr & Hval); [lia|]. rewrite Et in Hbuf.
  pose proof (stored_size _ _ _ Hbuf) as Hsz. rewrite !length_app, length_fmap in Hsz.
  rewrite <-(Z.add_0_r format) in Hfmt. apply cstr_at in Hfmt as [H1 H2].
  apply cstr_at in H2 as [H2 H3]. apply cstr_nil in H3.
  unfold sscanf, vsscanf. destruct fuel as [|[|fuel]]; [lia|cbn in Hsz; lia|].
  cbn [vsscanf_loop]. wp_step. eapply wp_deref; [exact H1|]. pick_case. wp_step.
  eapply wp_deref; [exact H2|]. wp_step. unfold sscan_conversion. pick_case. wp_step.
  assert (∃ b, u_mem p !! (buffer + 0) = Some b ∧ (b = 45 ∨ 48 ≤ b ≤ 57) ∧
    bool_decide (b = 45) = bool_decide (v < 0) ∧
    stored (u_mem p) (buffer + (if bool_decide (v < 0) then 0 + 1 else 0))
      (((λ d, d + 48) <$> d :: ds) ++ [c])) as (b & Hb & Hb1 & Hb2 & Hst).
  { rewrite Z.add_0_r. apply Forall_cons in Hr as [Hd _]. case_bool_decide as Hn.
    - rewrite decide_True in Hbuf by done. cbn [app stored] in Hbuf. destruct Hbuf as [Hb Hbuf].
      exists 45. split; [done|]. split; [by left|]. by rewrite bool_decide_eq_true_2.
    - rewrite decide_False in Hbuf by done. rewrite app_nil_l in Hbuf. pose proof Hbuf as [Hb _].
      exists (d + 48). split; [done|]. split; [lia|].
      rewrite bool_decide_eq_false_2, Z.add_0_r by lia. done. }
  eapply wp_deref; [exact Hb|]. rewrite decide_False by lia. rewrite Hb2. wp_step.
  apply wp_sscan_number with c (d :: ds); [done|done|done|lia|lia|cbn [length] in *; lia|].
  rewrite decide_False, Hval by done. cbn [va_arg]. wp_step. wp_step. wp_step.
  assert (Z.abs v * (if bool_decide (v < 0) then -1 else 1) = v) as ->
    by (case_bool_decide; lia).
  apply wp_wr_int; [lia|]. intros m' Hm' Hk. wp_step. wp_step.
  eapply wp_deref; [cbn [u_mem set_u_mem]; rewrite Hk by lia; exact H3|].
  rewrite decide_True by done. wp_step. done.
Qed.

(** [sscanf] with [%s] advances its target twice per character: the word
    is stored in every other byte, the terminator at twice its length, and
    the bytes between keep what they held. *)
Theorem sscanf_word_gaps fuel p buffer format a l c
    (Hfmt : cstr (u_mem p) format [37; 115])
    (Hbuf : stored (u_mem p) buffer (l ++ [c])) (Hc : c = 32 ∨ c = 10 ∨ c = 0)
    (Hl : Forall (λ b, b ≠ 32 ∧ b ≠ 10 ∧ b ≠ 0) l) (Hf : (size (u_mem p) < fuel)%nat)
    (Hsep : format + 2 < u64 a ∨ u64 a + 2 * Z.of_nat (length l) < format)
    (Hsep2 : buffer + Z.of_nat (length l) < u64 a ∨ u64 a + 2 * Z.of_nat (length l) ≤ buffer) :
  wp false (sscanf fuel buffer format [a]) (λ n p',
    n = 1 ∧ (∀ i, (i < length l)%nat → u_mem p' !! (u64 a + 2 * Z.of_nat i) = l !! i) ∧
    u_mem p' !! (u64 a + 2 * Z.of_nat (length l)) = Some 0 ∧
    (∀ i, (i < length l)%nat →
       u_mem p' !! (u64 a + 2 * Z.of_nat i + 1) = u_mem p !! (u64 a + 2 * Z.of_nat i + 1))) p.
Proof.
  pose proof (stored_size _ _ _ Hbuf) as Hsz. rewrite length_app in Hsz.
  rewrite <-(Z.add_0_r format) in Hfmt. apply cstr_at in Hfmt as [H1 H2].
  apply cstr_at in H2 as [H2 H3]. apply cstr_nil in H3.
  unfold sscanf, vsscanf. destruct fuel as [|[|fuel]]; [lia|cbn in Hsz; lia|].
  cbn [vsscanf_loop]. wp_step. eapply wp_deref; [exact H1|]. pick_case. wp_step.
  eapply wp_deref; [exact H2|]. wp_step. unfold sscan_conversion. pick_case.
  wp_step. wp_step. wp_step.
  apply wp_sscan_word with c l; [by rewrite Z.add_0_r|done|done|cbn [length] in Hsz; lia|lia|].
  intros m' Hm'. wp_step. unfold wr. wp_step. wp_step. wp_step.
  eapply wp_deref.
  { cbn [u_mem set_u_mem]. rewrite lookup_insert_ne, Hm', decide_False by lia. exact H3. }
  rewrite decide_True by done. wp_step. cbn [u_mem set_u_mem]. split; [done|]. split; [|split].
  - intros i Hi. rewrite lookup_insert_ne, Hm' by lia. set (y := u64 a + 2 * Z.of_nat i - u64 a).
    assert (y = Z.of_nat i * 2) as Hy by (unfold y; lia). rewrite Hy, Z.mod_mul, Z.div_mul by lia.
    rewrite decide_True by lia. by rewrite Nat2Z.id.
  - apply lookup_insert_eq.
  - intros i Hi. rewrite lookup_insert_ne, Hm' by lia. rewrite decide_False; [done|].
    intros [_ Hmod].
    replace (u64 a + 2 * Z.of_nat i + 1 - u64 a) with (1 + Z.of_nat i * 2) in Hmod by lia.
    rewrite Z.mod_add in Hmod by lia. done.
Qed.

(** ** Concrete instances *)

(** "n%d%s" at 10, "ok" at 40, "%d" at 50, "-42 " at 60, "%s" at 70, "a%x"
    at 80, and an escape at 90. *)
Definition stdio_mem : mem :=
  list_to_map [(10, 110); (11, 37); (12, 100); (13, 37); (14, 115); (15, 0);
    (40, 111); (41, 107); (42, 0); (50, 37); (51, 100); (52, 0);
    (60, 45); (61, 52); (62, 50); (63, 32); (70, 37); (71, 115); (72, 0);
    (80, 97); (81, 37); (82, 120); (83, 0); (90, 27); (91, 65)].
Definition stdio_demo : program := Program stdio_mem number_buffer [] [].

Ltac demo_cstr := split; vm_compute; repeat constructor; done.

Lemma printf_correct_witness :
  wp false (vfprintf 100 1 10 [-5; 40]) (λ _ p',
    u_mem p' = stdio_mem ∧ u_reads p' = [] ∧
    ∃ ws, u_calls p' = [] ++ (Write 1 <$> ws) ∧ concat ws = [110; 45; 53; 111; 107]) stdio_demo.
Proof.
  apply (printf_correct 100 1 10 [P_char 110; P_int 10; P_s] [-5; 40] [110; 45; 53; 111; 107]
    stdio_demo); [|demo_cstr
    |reflexivity|vm_compute; lia].
  apply (prints_cons _ (P_char 110) [P_int 10; P_s] [] [-5; 40] [110] [45; 53; 111; 107]).
  { constructor. by repeat split. }
  apply (prints_cons _ (P_int 10) [P_s] [-5] [40] [45; 53] [111; 107]).
  { change [45; 53] with (number_text 10 (i32 (-5))). constructor; [set_solver|done]. }
  apply (prints_cons _ P_s [] [40] [] [111; 107] []); [|constructor].
  constructor; [demo_cstr|repeat constructor; lia].
Defined.

Lemma printf_escape_hangs_witness : vfprintf 1000 1 90 [] stdio_demo = Diverges.
Proof. apply (printf_escape_hangs 1000 1 90 [] 65 stdio_demo); [reflexivity..|lia]. Defined.

Lemma printf_string_conversion_witness : vfprintf 100 1 70 [80] stdio_demo = Undefined.
Proof.
  apply (printf_string_conversion 100 1 70 80 [97] 120 [] stdio_demo);
    [demo_cstr
    |demo_cstr
    |repeat constructor; lia|set_solver|vm_compute; lia].
Defined.

Lemma sscanf_decimal_witness :
  wp false (sscanf 100 60 50 [200]) (λ n p',
    n = 1 ∧ load_int (u_mem p') 200 = Some (-42) ∧
    (∀ x, x < 200 ∨ 200 + 4 ≤ x → u_mem p' !! x = stdio_mem !! x) ∧
    p' = set_u_mem (u_mem p') stdio_demo) stdio_demo.
Proof.
  apply (sscanf_decimal 100 stdio_demo 60 50 200 (-42) 32);
    [demo_cstr|vm_compute; repeat split|lia|lia|vm_compute; lia|change (u64 200) with 200; lia].
Defined.

Lemma sscanf_word_gaps_witness :
  wp false (sscanf 100 40 70 [200]) (λ n p',
    n = 1 ∧ (∀ i, (i < 2)%nat → u_mem p' !! (200 + 2 * Z.of_nat i) = [111; 107] !! i) ∧
    u_mem p' !! 204 = Some 0 ∧
    (∀ i, (i < 2)%nat →
       u_mem p' !! (200 + 2 * Z.of_nat i + 1) = stdio_mem !! (200 + 2 * Z.of_nat i + 1))) stdio_demo.
Proof.
  apply (sscanf_word_gaps 100 stdio_demo 40 70 200 [111; 107] 0);
    [demo_cstr|vm_compute; repeat split|lia|repeat constructor; lia|vm_compute; lia
    |change (u64 200) with 200; lia|change (u64 200) with 200; cbn; lia].
Defined.
