(* ===== verification/Loader.v ===== *)
(** * The start of a program ([Userland/Shell/_loader.c])

    The variables without an initial value are cleared, then [main] runs.  The
    [memset] of the file has the text of the kernel's. *)

From S2P Require Import Prelude Strings Monad UserString UserStdio Lib.

(** [bss] and [endOfBinary] are addresses the linker gives. *)
Definition _start (bss endOfBinary : Z) (main : K program Z) : K program Z :=
  let start := u64 bss in
  let end_ := u64 endOfBinary in
  let size := if decide (start < end_) then u64 (end_ - start) else 0 in
  _ ← kmodify (λ p, set_u_mem (memset (u_mem p) bss 0 size).2 p);
  main.

(** [main] starts with the memory cleared from [bss] on, and nothing else
    changed. *)
Theorem start_clears_bss bss endOfBinary main p (Q : Z → program → Prop)
    (Hbss : 0 ≤ bss < 2 ^ 64) (Hend : 0 ≤ endOfBinary < 2 ^ 64)
    (Hmain : ∀ m, (∀ x, m !! x = if decide (bss ≤ x < endOfBinary) then Some 0 else u_mem p !! x) →
       wp false main Q (set_u_mem m p)) :
  wp false (_start bss endOfBinary main) Q p.
Proof.
  unfold _start. rewrite (wrapu_small 64 bss), (wrapu_small 64 endOfBinary) by lia.
  wp_step. wp_step. apply Hmain. intros x. unfold memset. cbn [snd].
  rewrite memset_loop_spec by done. apply decide_ext. case_decide; [|lia].
  no_wrap. lia.
Qed.
