(* ===== verification/Libsys.v ===== *)
(** * The system library of the programs ([Userland/libsys/libsys.c])

    Each wrapper puts its arguments in the registers of one system call and
    narrows the answer to its type.  What the kernel answers, and what it
    writes to the caller's memory, is the interface [Kernel]: a function of
    the calls the program made before, the number, the registers and the
    memory. *)

From S2P Require Import Prelude Strings Monad UserStdio.

Class Kernel := kernel_answer : list call → Z → list Z → mem → Z * mem.

Section libsys.
Context `{Kernel}.
Abbreviation M := (K program).

Definition sysc (number : Z) (args : list Z) : M Z := λ p,
  let '(r, m) := kernel_answer (u_calls p) number args (u_mem p) in
  Ret r (Program m (u_buffer p) (u_reads p) (u_calls p ++ [Sys number args])).
Definition sys_int (number : Z) (args : list Z) : M Z := r ← sysc number args; mret (i32 r).
Definition sys_ptr (number : Z) (args : list Z) : M Z := r ← sysc number args; mret (u64 r).
Definition sys_void (number : Z) (args : list Z) : M unit := _ ← sysc number args; mret tt.

(** ** Sound, screen, keyboard and clock *)

Definition startBeep (nFrequence : Z) : M unit := sys_void 10 [u32 nFrequence].
Definition stopBeep : M unit := sys_void 11 [].
Definition setTextColor (color : Z) : M unit := syscall (Text_color (u32 color)).
Definition setBackgroundColor (color : Z) : M unit := syscall (Background_color (u32 color)).
Definition decreaseFontSize : M Z := r ← sys_int 14 []; mret (u8 r).
Definition increaseFontSize : M Z := r ← sys_int 15 []; mret (u8 r).
Definition setFontSize (size : Z) : M Z := r ← sys_int 16 [u8 size]; mret (u8 r).
Definition clearScreen : M unit := sys_void 17 [].
Definition getDate (hour minute second : Z) : M unit :=
  _ ← sys_void 19 [hour]; _ ← sys_void 20 [minute]; sys_void 21 [second].
Definition drawCircle (color topleftX topLefyY diameter : Z) : M unit :=
  sys_void 22 [i32 color; topleftX; topLefyY; diameter].
Definition drawRectangle (color width_pixels height_pixels initial_pos_x initial_pos_y : Z)
    : M unit :=
  sys_void 23 [i32 color; width_pixels; height_pixels; initial_pos_x; initial_pos_y].
Definition fillVideoMemory (hexColor : Z) : M unit := sys_void 24 [u32 hexColor].
Definition exec (fnPtr : Z) : M Z := sys_int 25 [fnPtr].
Definition registerKey (scancode fn : Z) : M unit := sys_void 26 [u8 scancode; fn].
Definition getWindowWidth : M Z := sys_int 27 [].
Definition getWindowHeight : M Z := sys_int 28 [].
Definition sleep (miliseconds : Z) : M unit := sys_void 29 [u32 miliseconds].
Definition getRegisterSnapshot (registers : Z) : M Z := sys_int 30 [registers].
Definition getCharacterWithoutDisplay : M Z := sys_int 31 [].

(** ** Memory *)

Definition allocMemory (size : Z) : M Z := sys_ptr 32 [u64 size].
Definition freeMemory (ptr : Z) : M unit := sys_void 33 [ptr].
Definition memoryStats (total available used : Z) : M unit := sys_void 34 [total; available; used].

(** ** Processes: the arrays of [createProcess] are given by their contents *)

Definition createProcess (argc : Z) (argv : list Z) (entry_point priority : Z) (targets : list Z)
    (hasForeground : Z) : M Z :=
  sys_int 35 (i32 argc :: entry_point :: i32 priority :: i32 hasForeground :: targets ++ argv).
Definition getMyPid : M Z := sys_int 36 [].
Definition killProcess (pid : Z) : M Z := sys_int 37 [i32 pid].
Definition setProcessPriority (pid priority : Z) : M unit := sys_void 38 [i32 pid; i32 priority].
Definition ps (process_info : Z) : M Z := sys_int 39 [process_info].
Definition blockProcess (pid : Z) : M Z := sys_int 40 [i32 pid].
Definition unblockProcess (pid : Z) : M Z := sys_int 55 [i32 pid].
Definition yieldCPU : M unit := sys_void 41 [].
Definition waitPid (pid : Z) : M Z := sys_int 42 [i32 pid].
Definition waitForChildren : M Z := sys_int 43 [].

(** ** Pipes and semaphores *)

Definition pipeOpen : M Z := sys_int 45 [].
Definition pipeClose (id : Z) : M Z := sys_int 47 [u8 id].
Definition setReadTarget (id : Z) : M Z := sys_int 48 [u8 id].
Definition setWriteTarget (id : Z) : M Z := sys_int 49 [u8 id].
Definition semOpen (name initialValue : Z) : M Z := sys_ptr 50 [name; u16 initialValue].
Definition semClose (s : Z) : M Z := sys_int 51 [s].
Definition semWait (s : Z) : M Z := sys_int 52 [s].
Definition semPost (s : Z) : M Z := sys_int 53 [s].

(** ** The shared cell and the end *)

Definition setMVarValue (value : Z) : M unit := sys_void 56 [i8 value].
Definition getMVarValue : M Z := r ← sysc 57 []; mret (i8 r).
Definition shutdown : M unit := sys_void 54 [].

(** ** Reasoning: a call does what the kernel answers *)

Lemma wp_sysc number args p r m (Q : Z → program → Prop) :
  kernel_answer (u_calls p) number args (u_mem p) = (r, m) →
  Q r (Program m (u_buffer p) (u_reads p) (u_calls p ++ [Sys number args])) →
  wp false (sysc number args) Q p.
Proof. intros E HQ. unfold wp, sysc. by rewrite E. Qed.
End libsys.
