(* ===== verification/Commands.v ===== *)
(** * The commands of the shell ([Userland/Shell/commands])

    Each command is a program that gets [argc] and [argv], the list of the
    addresses of its arguments.  String literals are at the addresses [lit]
    gives them; [local] is where a command keeps its [int] variables and
    arrays; [fuel] bounds the loops of [stdio.c] over a format. *)

From S2P Require Import Prelude Strings Monad Machine UserString UserStdio Libsys.

(** A literal that ends a line. *)
Definition nl (s : string) : list Z := chars s ++ [10].

(** ** The table of commands ([shell.h], [shell.c]) *)

Record Command := {
  c_name : list Z;
  c_description : list Z;
  c_isBuiltIn : Z;
}.

Definition tabs (n : nat) : list Z := replicate n 9.
Definition usage (n : nat) (what s : string) : list Z := chars what ++ [10] ++ tabs n ++ chars s.

Definition commands : list Command := [
  Build_Command (chars "block") (chars "Blocks or unblocks a process") 0;
  Build_Command (chars "cat") (chars "Prints the content of the file") 0;
  Build_Command (chars "clear") (chars "Clears the screen") 0;
  Build_Command (chars "echo") (chars "Prints the input string") 0;
  Build_Command (chars "exit") (chars "Closes qemu window") 1;
  Build_Command (chars "help") (chars "Prints the available commands") 0;
  Build_Command (chars "man") (chars "Prints the description of the provided command") 1;
  Build_Command (chars "test_mm")
    (usage 3 "Runs the Memory Manager stress test." "Usage: test_mm <bytes>") 0;
  Build_Command (chars "test_prio")
    (usage 3 "Runs the priority test." "Usage: test_prio <priority>") 0;
  Build_Command (chars "test_processes")
    (usage 3 "Runs the process test." "Usage: test_processes <processes>") 0;
  Build_Command (chars "test_sync")
    (usage 3 "Runs the synchronization test." "Usage: test_sync <value> <flag>") 0;
  Build_Command (chars "ps") (chars "Lists all processes") 0;
  Build_Command (chars "loop")
    (usage 3 "Prints hello message every N seconds" "Usage: loop <delay_seconds>") 0;
  Build_Command (chars "kill") (usage 3 "Kills a process by PID" "Usage: kill <pid>") 0;
  Build_Command (chars "nice")
    (usage 3 "Changes process priority" "Usage: nice <pid> <priority>") 0;
  Build_Command (chars "mem") (chars "Shows memory status") 0;
  Build_Command (chars "wc") (chars "Counts inputs's total lines") 0;
  Build_Command (chars "filter") (chars "Removes all vowels from input string") 0;
  Build_Command (chars "mvar") (chars "MVar demo: Usage mvar <writers> <readers>") 0;
  Build_Command (chars "font")
    (usage 4 "Increases or decreases the font size" "Use:" ++ [10] ++ tabs 5 ++
     chars "  + font increase" ++ [10] ++ tabs 5 ++ chars "  + font decrease") 0].

Definition commands_size : Z := Z.of_nat (length commands).

Section commands.
Context `{Kernel}.
Variables (fuel : nat) (lit : list Z → Z) (local : Z).
Abbreviation M := (K program).

Definition say (s : list Z) : M unit := printf fuel (lit s) [].
Definition complain (s : list Z) : M unit := perror fuel (lit s).
Definition arg (argv : list Z) (i : nat) : M Z := kopt (argv !! i).
Definition user {A} (f : mem → option A) : M A := m ← kgets u_mem; kopt (f m).
Definition read_int (a : Z) : M Z := user (λ m, load_int m a).

(** [for (i = from; i < argc; i++)] over the arguments. *)
Fixpoint each_arg (n : nat) (i : Z) (argv : list Z) (body : Z → Z → M unit) : M unit :=
  match n with
  | O => mret tt
  | S n => a ← arg argv (Z.to_nat i); _ ← body i a; each_arg n (i + 1) argv body
  end.

(** ** [echo.c], [cat.c] *)

Definition _echo (argc : Z) (argv : list Z) : M Z :=
  if decide (argc < 2) then
    _ ← say (nl "Cantidad de parametros invalida, uso: echo <string>"); mret (-1)
  else
    _ ← each_arg (Z.to_nat (argc - 1)) 1 argv (λ i a,
      _ ← printf fuel (lit (chars "%s")) [a];
      if decide (i + 1 < argc) then say (chars " ") else mret tt);
    _ ← say [10];
    mret 0.

(** [while ((c = getchar()) != EOF)]: what the body leaves, from [acc]. *)
Fixpoint until_eof {A} (n : nat) (body : Z → A → M A) (acc : A) : M A :=
  match n with
  | O => diverge
  | S n =>
      c ← getchar;
      if decide (c = EOF) then mret acc else acc ← body c acc; until_eof n body acc
  end.
Definition read_all {A} (body : Z → A → M A) (acc : A) : M A :=
  n ← read_fuel; until_eof n body acc.

Definition _cat (argc : Z) (argv : list Z) : M Z :=
  if decide (1 < argc) then
    _ ← each_arg (Z.to_nat (argc - 1)) 1 argv (λ _ a, printf fuel (lit (chars "%s ")) [a]);
    _ ← say [10];
    mret 0
  else
    _ ← read_all (λ c (_ : unit), printf fuel (lit (chars "%c")) [c]) tt;
    mret 0.

(** ** [clear.c], [exit.c] *)

Definition _clear (argc : Z) (argv : list Z) : M Z :=
  if decide (1 < argc) then _ ← complain (nl "Usage: clear"); mret 1
  else _ ← clearScreen; mret 0.

Definition _exit (argc : Z) (argv : list Z) : M Z := _ ← shutdown; mret 0.

(** ** [filter.c] *)

Definition IS_VOWEL (c : Z) : bool := bool_decide (c ∈ chars "aeiouAEIOU").

(** [for (char *p = argv[i]; *p; ++p)] *)
Fixpoint filter_arg (n : nat) (p : Z) : M unit :=
  match n with
  | O => diverge
  | S n =>
      c ← rd p;
      if decide (c = 0) then mret tt
      else _ ← (if IS_VOWEL c then mret tt else putchar c); filter_arg n (p + 1)
  end.

Definition filter_char (c printed_any : Z) : M Z :=
  if decide (c = 10) then _ ← putchar 10; mret 1
  else if IS_VOWEL c then mret printed_any
  else _ ← putchar (i8 c); mret 1.

(** The loop only ends on [EOF], so [c == EOF] after it. *)
Definition _filter (argc : Z) (argv : list Z) : M Z :=
  if decide (1 < argc) then
    _ ← each_arg (Z.to_nat (argc - 1)) 1 argv (λ i a,
      m ← kgets u_mem;
      _ ← filter_arg (S (size m)) a;
      if decide (i + 1 < argc) then putchar 32 else mret tt);
    _ ← putchar 10;
    mret 0
  else
    printed_any ← read_all filter_char 0;
    _ ← (if decide (printed_any = 0 ∨ (printed_any ≠ 0 ∧ EOF = EOF)) then putchar 10
         else mret tt);
    mret 0.

(** ** [wc.c] *)

Definition wc_char (c : Z) (acc : Z * Z) : M (Z * Z) :=
  mret (if decide (c = 10) then u32 (acc.1 + 1) else acc.1, 1).

Definition _wc (argc : Z) (argv : list Z) : M Z :=
  if decide (1 < argc) then
    _ ← say (nl "Se registro 1 linea por stdin"); mret 0
  else
    '(lines, saw_char) ← read_all wc_char (0, 0);
    let lines := if decide (saw_char ≠ 0 ∧ lines = 0) then 1 else lines in
    _ ← printf fuel (lit (nl "Se registraron %d lineas por stdin")) [lines];
    mret 0.

(** ** [help.c], [man.c] *)

Definition longest (acc : Z) (c : Command) : M Z :=
  l ← user (λ m, UserString.strlen m (lit (c_name c)));
  mret (if decide (acc < l) then u8 l else acc).
Fixpoint max_name_length (l : list Command) (acc : Z) : M Z :=
  match l with [] => mret acc | c :: l => acc ← longest acc c; max_name_length l acc end.

(** The array [padding] has [n] characters; its terminator is written after
    them. *)
Definition help_line (max_name_length : Z) (c : Command) : M unit :=
  l ← user (λ m, UserString.strlen m (lit (c_name c)));
  let n := max_name_length - l in
  _ ← kfor (Z.to_nat n) 0 1 (λ j, wr (local + j) 32);
  _ ← wr (local + n) 0;
  printf fuel (lit (chars "%s%s -" ++ [9] ++ chars "%s" ++ [10; 10]))
    [lit (c_name c); local; lit (c_description c)].
Fixpoint help_lines (max_name_length : Z) (l : list Command) : M unit :=
  match l with
  | [] => mret tt
  | c :: l => _ ← help_line max_name_length c; help_lines max_name_length l
  end.

Definition _help (argc : Z) (argv : list Z) : M Z :=
  if decide (1 < argc) then _ ← complain (nl "Usage: help"); mret 1
  else
    _ ← say (nl "Available commands:");
    n ← max_name_length commands 0;
    _ ← help_lines n commands;
    _ ← say [10];
    mret 0.

Fixpoint man_loop (l : list Command) (command : Z) : M Z :=
  match l with
  | [] => _ ← complain (nl "Command not found"); mret 1
  | c :: l =>
      d ← user (λ m, strcasecmp m (lit (c_name c)) command);
      if decide (d = 0) then
        _ ← printf fuel (lit (nl "Command: %s" ++ nl "Information: %s"))
              [lit (c_name c); lit (c_description c)];
        mret 0
      else man_loop l command
  end.

Definition _man (argc : Z) (argv : list Z) : M Z :=
  let bad := _ ← complain (nl "Usage: man <command>"); mret 1 in
  if decide (argc < 2) then bad
  else
    command ← arg argv 1;
    if decide (command = NULL ∨ 2 < argc) then bad else man_loop commands command.

(** ** [kill.c], [nice.c], [block.c] *)

(** [int v = 0; r = sscanf(a, "%d", &v)]: [r] and [v]. *)
Definition scan_int (a v : Z) : M (Z * Z) :=
  _ ← wr_int v 0;
  r ← sscanf fuel a (lit (chars "%d")) [v];
  n ← read_int v;
  mret (r, n).

Definition _kill (argc : Z) (argv : list Z) : M Z :=
  if decide (argc ≠ 2) then _ ← complain (nl "Usage: kill <pid>"); mret 1
  else
    a ← arg argv 1;
    s ← scan_int a local;
    let pid := s.2 in
    if decide (pid ≤ 0) then _ ← complain (nl "Invalid PID"); mret 1
    else
      ret ← killProcess pid;
      if decide (ret = -1) then _ ← complain (nl "Error killing process"); mret 1
      else mret 0.

Definition _nice (argc : Z) (argv : list Z) : M Z :=
  if decide (argc ≠ 3) then
    _ ← complain (nl "Usage: nice <pid> <value> (Where value is between 0 and 3)"); mret 1
  else
    a ← arg argv 1;
    '(r, pid) ← scan_int a local;
    if decide (r ≠ 1 ∨ pid ≤ 0) then _ ← complain (nl "Invalid pid"); mret 1
    else
      a ← arg argv 2;
      '(r, new_prio) ← scan_int a (local + 4);
      if decide (r ≠ 1 ∨ new_prio < 0 ∨ 3 < new_prio) then
        _ ← complain (nl "Invalid value"); mret 1
      else _ ← setProcessPriority pid new_prio; mret 0.

Definition _block (argc : Z) (argv : list Z) : M Z :=
  if decide (argc ≠ 2) then _ ← complain (chars "Usage: block <pid>"); mret 1
  else
    a ← arg argv 1;
    s ← scan_int a local;
    let pid := s.2 in
    if decide (pid ≤ 0) then _ ← complain (chars "Invalid pid"); mret 1
    else _ ← blockProcess pid; mret 0.

(** ** [font.c], [loop.c], [mem.c] *)

Definition _font (argc : Z) (argv : list Z) : M Z :=
  if decide (argc < 2) then _ ← complain (nl "Usage: font <increase|decrease>"); mret 1
  else
    a ← arg argv 1;
    d ← user (λ m, strcasecmp m a (lit (chars "increase")));
    if decide (d = 0) then Libsys.increaseFontSize
    else
      d ← user (λ m, strcasecmp m a (lit (chars "decrease")));
      if decide (d = 0) then Libsys.decreaseFontSize
      else _ ← complain (nl "Invalid argument"); mret 0.

(** [rounds] turns of [while (1)]; the command never returns. *)
Fixpoint loop_rounds (rounds : nat) (pid milliseconds : Z) : M Z :=
  match rounds with
  | O => diverge
  | S rounds =>
      _ ← printf fuel (lit (nl "Hello from PID: %d")) [pid];
      _ ← Libsys.sleep milliseconds;
      loop_rounds rounds pid milliseconds
  end.

(** A null argument leaves [milliseconds] 0. *)
Definition _loop (rounds : nat) (argc : Z) (argv : list Z) : M Z :=
  if decide (argc ≠ 2) then _ ← complain (nl "Usage: loop <miliseconds>"); mret 1
  else
    a ← arg argv 1;
    '(r, milliseconds) ← (if decide (a ≠ NULL) then scan_int a local
                          else _ ← wr_int local 0; mret (1, 1));
    if decide (r ≠ 1 ∨ milliseconds ≤ 0) then _ ← complain (nl "Invalid time interval"); mret 1
    else
      milliseconds ← read_int local;
      pid ← getMyPid;
      loop_rounds rounds pid milliseconds.

Definition HEADER_SIZE : Z := 16.   (* sizeof(Header) *)

Definition _mem (argc : Z) (argv : list Z) : M Z :=
  if decide (1 < argc) then _ ← say (nl "Cantidad invlaida de argumentos"); mret 1
  else
    let total_bytes := local in
    let free_bytes := local + 4 in
    let used_bytes := local + 8 in
    _ ← wr_int free_bytes 0;
    _ ← wr_int used_bytes 0;
    _ ← wr_int total_bytes 0;
    _ ← memoryStats total_bytes free_bytes used_bytes;
    _ ← printf fuel (lit (nl "%d")) [HEADER_SIZE];
    t ← read_int total_bytes; f ← read_int free_bytes; u ← read_int used_bytes;
    _ ← printf fuel (lit (nl "Datos de memoria:" ++ nl "Total de bytes: %d" ++
          nl "Bytes Disponibles: %d" ++ nl "Bytes usados: %d")) [t; f; u];
    mret 0.
End commands.
