(* ===== verification/CommandFacts.v ===== *)
(** * What the commands do

    The filters read their input to the end and write what they promise; the
    commands on processes make exactly the system call asked for, or
    complain and make none. *)

From S2P Require Import Prelude Strings Monad Machine Numerals UserString UserStdio Libsys.
From S2P Require Import Commands.

(** The answers of [read] hand out the bytes [bs], then the end of the input;
    failed reads are tried again. *)
Inductive feeds : list (Z * Z) → list Z → list (Z * Z) → Prop :=
  | feeds_eof c r : feeds ((0, c) :: r) [] r
  | feeds_retry c r bs r' : feeds r bs r' → feeds ((-1, c) :: r) bs r'
  | feeds_byte n c r bs r' : n ≠ -1 → n ≠ 0 → feeds r bs r' → feeds ((n, c) :: r) (u8 c :: bs) r'.

Section facts.
Implicit Types (p : program) (t : list Z).

(** Between two states, [t] was written to [fd] and the reads left are [r]. *)
Definition did (fd : Z) t (r : list (Z * Z)) p p' : Prop :=
  u_mem p' = u_mem p ∧ u_reads p' = r ∧ length (u_buffer p') = length (u_buffer p) ∧
  ∃ ws, u_calls p' = u_calls p ++ (Write fd <$> ws) ∧ concat ws = t.

Lemma wrote_did fd t p p' : wrote fd t p p' ↔ did fd t (u_reads p) p p'.
Proof. done. Qed.

Lemma did_app fd t1 t2 r1 r2 p1 p2 p3 :
  did fd t1 r1 p1 p2 → did fd t2 r2 p2 p3 → did fd (t1 ++ t2) r2 p1 p3.
Proof.
  intros (Hm1 & Hr1 & Hb1 & w1 & Hc1 & <-) (Hm2 & Hr2 & Hb2 & w2 & Hc2 & <-).
  split; [congruence|]. split; [done|]. split; [congruence|]. exists (w1 ++ w2).
  rewrite concat_app. split; [|done]. by rewrite Hc2, Hc1, fmap_app, app_assoc.
Qed.

Lemma feeds_length r bs r' : feeds r bs r' → (length r' + length bs < length r)%nat.
Proof. induction 1; cbn [length]; lia. Qed.

Lemma feeds_bytes r bs r' : feeds r bs r' → Forall (λ c, 0 ≤ c < 256) bs.
Proof. induction 1; [constructor|done|]. constructor; [by apply wrapu_range|done]. Qed.

(** The next character, or the end. *)
Lemma wp_getchar_loop r1 bs r : feeds r1 bs r → ∀ p (Q : Z → program → Prop),
  match bs with
  | [] => Q EOF (set_u_reads r p)
  | c :: bs => ∀ r0, feeds r0 bs r → Q c (set_u_reads r0 p)
  end → wp false (getchar_loop r1) Q p.
Proof.
  induction 1 as [c r|c r bs r' Hf IH|n c r bs r' H1 H0 Hf IH]; intros p Q HQ;
    cbn [getchar_loop]; wp_step; wp_step.
  - rewrite decide_False, decide_True by done. by wp_step.
  - rewrite decide_True by done. apply IH. by destruct bs.
  - rewrite !decide_False by done. wp_step. by apply HQ.
Qed.

(** A loop that reads to the end, whose body folds [f] and writes [t]. *)
Lemma wp_until_eof {A} (body : Z → A → K program A) (f : A → Z → A) (t : Z → list Z) P bs :
  (∀ c acc p, 0 ≤ c < 256 → P p → wp false (body c acc) (λ acc' p',
     acc' = f acc c ∧ wrote FD_STDOUT (t c) p p' ∧ P p') p) →
  (∀ p r, P p → P (set_u_reads r p)) →
  ∀ n p acc r, feeds (u_reads p) bs r → (length bs < n)%nat → P p →
  wp false (until_eof n body acc) (λ acc' p',
    acc' = foldl f acc bs ∧ did FD_STDOUT (bs ≫= t) r p p' ∧ P p') p.
Proof.
  intros Hbody Hreads. induction bs as [|c bs IH]; intros [|n] p acc r Hf Hn HP; cbn [length] in Hn;
    try lia; cbn [until_eof]; wp_step; unfold getchar; wp_step; wp_step;
    (eapply wp_getchar_loop; [exact Hf|]).
  - rewrite decide_True by done. wp_step. split; [done|]. split; [|by apply Hreads].
    do 3 (split; [done|]). exists []. cbn. by rewrite app_nil_r.
  - intros r0 Hf0. apply feeds_bytes in Hf as Hc. apply Forall_cons in Hc as [Hc _].
    rewrite decide_False by (unfold EOF; lia). wp_step.
    eapply wp_mono; [apply Hbody; [done|by apply Hreads]|].
    intros acc1 p1 (-> & H1 & HP1). apply wrote_did in H1. cbn [u_reads set_u_reads] in H1.
    pose proof H1 as (Hm1 & Hr1 & _).
    eapply wp_mono; [apply IH; [by rewrite Hr1|lia|done]|].
    intros acc2 p2 (-> & H2 & HP2). split; [done|]. split; [|done]. cbn [mbind list_bind].
    eapply did_app; [|exact H2]. exact H1.
Qed.

Lemma wp_read_all {A} (body : Z → A → K program A) (f : A → Z → A) (t : Z → list Z) P bs p acc r :
  (∀ c acc p, 0 ≤ c < 256 → P p → wp false (body c acc) (λ acc' p',
     acc' = f acc c ∧ wrote FD_STDOUT (t c) p p' ∧ P p') p) →
  (∀ p r, P p → P (set_u_reads r p)) → feeds (u_reads p) bs r → P p →
  wp false (read_all body acc) (λ acc' p',
    acc' = foldl f acc bs ∧ did FD_STDOUT (bs ≫= t) r p p' ∧ P p') p.
Proof.
  intros Hbody Hreads Hf HP. unfold read_all, read_fuel. wp_step. wp_step.
  eapply wp_until_eof; [done..| |done]. apply feeds_length in Hf. lia.
Qed.
End facts.

(** ** The filters *)

Section filters.
Context (k : Kernel).
Variables (fuel : nat) (lit : list Z → Z).
Implicit Types (p : program).

Definition no_vowels (l : list Z) : list Z := List.filter (λ c, negb (IS_VOWEL c)) l.

Lemma filter_texts bs :
  (bs ≫= λ c, if decide (c = 10) then [10] else if IS_VOWEL c then [] else [i8 c]) =
    i8 <$> no_vowels bs.
Proof.
  induction bs as [|c bs IH]; [done|]. cbn [mbind list_bind no_vowels List.filter].
  fold (no_vowels bs). rewrite IH. destruct (decide (c = 10)) as [->|]; [done|].
  by destruct (IS_VOWEL c).
Qed.

(** What a filter leaves behind. *)
Definition filtered (t : list Z) (r : list (Z * Z)) p (ret : Z) (p' : program) : Prop :=
  ret = 0 ∧ did FD_STDOUT t r p p'.

(** C38: [filter] without arguments copies its input without the vowels, and ends
    it with a line feed. *)
Theorem filter_correct p bs r argv (Hin : feeds (u_reads p) bs r) :
  wp false (_filter 1 argv) (filtered ((i8 <$> no_vowels bs) ++ [10]) r p) p.
Proof.
  unfold _filter. rewrite decide_False by lia. wp_step. eapply wp_mono.
  { apply (wp_read_all filter_char
      (λ acc c, if decide (c = 10) then 1 else if IS_VOWEL c then acc else 1)
      (λ c, if decide (c = 10) then [10] else if IS_VOWEL c then [] else [i8 c])
      (λ _, True)); [|done|exact Hin|done].
    intros c acc p1 _ _. unfold filter_char. destruct (decide (c = 10)) as [->|].
    - wp_step. unfold putchar. apply wp_sys_write. intros p2 H2. wp_step. done.
    - destruct (IS_VOWEL c); [wp_step; split; [done|]; split; [apply wrote_nil|done]|].
      wp_step. unfold putchar. apply wp_sys_write. intros p2 H2. wp_step. done. }
  intros acc p1 (_ & H1 & _). rewrite filter_texts in H1. wp_step.
  assert (acc = 0 ∨ acc ≠ 0 ∧ EOF = EOF) as Hacc by lia.
  rewrite decide_True by done. unfold putchar. apply wp_sys_write. intros p2 H2. wp_step.
  split; [done|]. eapply did_app; [exact H1|].
  change (did FD_STDOUT [10] (u_reads p1) p1 p2) in H2.
  pose proof H1 as (_ & Hr & _). by rewrite Hr in H2.
Qed.

(** A state in which [printf] can print the literal [s]. *)
Definition prints_ok m0 p : Prop :=
  u_mem p = m0 ∧ length (u_buffer p) = 64%nat ∧ (size m0 < fuel)%nat.

Lemma prints_ok_wrote m0 fd t p p' : prints_ok m0 p → wrote fd t p p' → prints_ok m0 p'.
Proof. intros (Hm & Hb & Hf) (Hm' & _ & Hb' & _). split; [congruence|]. by rewrite Hb', Hb. Qed.

(** [cat] without arguments copies its input. *)
Theorem cat_correct p bs r argv (Hin : feeds (u_reads p) bs r)
    (Hlit : cstr (u_mem p) (lit (chars "%c")) (chars "%c")) (Hp : prints_ok (u_mem p) p) :
  wp false (_cat fuel lit 1 argv) (filtered (i8 <$> bs) r p) p.
Proof.
  unfold _cat. rewrite decide_False by lia. wp_step. eapply wp_mono.
  { apply (wp_read_all (λ c (_ : unit), printf fuel (lit (chars "%c")) [c]) (λ acc c, acc)
      (λ c, [i8 c]) (prints_ok (u_mem p))); [|done|exact Hin|done].
    intros c [] p1 Hc Hp1. pose proof Hp1 as (Hm1 & Hb1 & Hf1).
    apply (wp_vfprintf _ _ _ [P_c] [c] [i8 c]); [|by rewrite Hm1|done|by rewrite Hm1|].
    - apply (prints_cons _ P_c [] [c] [] [i8 c] []); constructor.
    - intros p2 H2. split; [done|]. split; [done|by eapply prints_ok_wrote]. }
  intros acc p1 (_ & H1 & _). wp_step. split; [done|].
  assert ((bs ≫= λ c, [i8 c]) = i8 <$> bs) as <-; [|done].
  induction bs as [|c bs IH]; [done|]. cbn. f_equal.
Qed.

(** Plain text in a format prints itself. *)
Lemma prints_text m l ps args text : Forall plain l → prints_all m ps args text →
  prints_all m ((P_char <$> l) ++ ps) args (l ++ text).
Proof.
  intros Hl Hps. induction Hl as [|c l Hc _ IH]; [done|]. cbn.
  apply (prints_cons _ _ _ [] args [c]); [by constructor|done].
Qed.

Lemma spell_text l ps : concat (spell <$> (P_char <$> l) ++ ps) = l ++ concat (spell <$> ps).
Proof. induction l as [|c l IH]; [done|]. cbn. by rewrite IH. Qed.

(** ** [wc] *)

Definition newlines (bs : list Z) : Z := Z.of_nat (length (List.filter (Z.eqb 10) bs)).
Definition wc_lines (bs : list Z) : Z :=
  if decide (bs ≠ [] ∧ newlines bs = 0) then 1 else newlines bs.
Definition wc_text (n : Z) : list Z :=
  chars "Se registraron " ++ number_text 10 n ++ nl " lineas por stdin".

Lemma wc_fold bs : ∀ a s, 0 ≤ a → a + Z.of_nat (length bs) < 2 ^ 32 →
  foldl (λ (acc : Z * Z) c, (if decide (c = 10) then u32 (acc.1 + 1) else acc.1, 1)) (a, s) bs =
    (a + newlines bs, if decide (bs = []) then s else 1).
Proof.
  induction bs as [|c bs IH]; intros a s Ha Hl; cbn [foldl fst].
  { by rewrite Z.add_0_r. }
  cbn [length] in Hl. unfold newlines. cbn [List.filter].
  destruct (decide (c = 10)) as [->|Hc].
  - no_wrap. rewrite IH by lia. rewrite Z.eqb_refl. cbn [length].
    rewrite Nat2Z.inj_succ. f_equal; [unfold newlines; lia|]. by destruct bs.
  - rewrite IH by lia. rewrite (proj2 (Z.eqb_neq 10 c)) by lia. f_equal. by destruct bs.
Qed.

Lemma newlines_bound bs : 0 ≤ newlines bs ≤ Z.of_nat (length bs).
Proof. unfold newlines. pose proof (List.filter_length_le (Z.eqb 10) bs). lia. Qed.

Theorem wc_correct p bs r argv (Hin : feeds (u_reads p) bs r)
    (Hlit : let s := nl "Se registraron %d lineas por stdin" in cstr (u_mem p) (lit s) s)
    (Hp : prints_ok (u_mem p) p) (Hlen : Z.of_nat (length bs) < 2 ^ 31) :
  wp false (_wc fuel lit 1 argv) (filtered (wc_text (wc_lines bs)) r p) p.
Proof.
  unfold _wc. rewrite decide_False by lia. wp_step. eapply wp_mono.
  { apply (wp_read_all wc_char (λ acc c, (if decide (c = 10) then u32 (acc.1 + 1) else acc.1, 1))
      (λ _, []) (prints_ok (u_mem p))); [|done|exact Hin|done].
    intros c acc p1 _ Hp1. unfold wc_char. wp_step. split; [done|]. split; [apply wrote_nil|done]. }
  intros acc p1 (-> & H1 & Hp1). pose proof (newlines_bound bs) as Hn.
  rewrite wc_fold by lia. cbv beta iota. rewrite Z.add_0_l.
  assert ((if decide ((if decide (bs = []) then 0 else 1) ≠ 0 ∧ newlines bs = 0) then 1
    else newlines bs) = wc_lines bs) as ->.
  { unfold wc_lines. destruct bs; [done|]. apply decide_ext. naive_solver. }
  assert (0 ≤ wc_lines bs < 2 ^ 31) as Hw.
  { unfold wc_lines. case_decide; lia. }
  destruct Hp1 as (Hm1 & Hb1 & Hf1). wp_step.
  apply (wp_vfprintf _ _ _ ((P_char <$> chars "Se registraron ") ++
    P_int 10 :: (P_char <$> nl " lineas por stdin") ++ []) _ (wc_text (wc_lines bs)));
    [|by rewrite Hm1|done|by rewrite Hm1|].
  - apply prints_text; [by repeat constructor|].
    apply (prints_cons _ _ _ [wc_lines bs] [] (number_text 10 (wc_lines bs))).
    + assert (i32 (wc_lines bs) = wc_lines bs) as E by (apply wraps_small; lia).
      rewrite <-E at 2. constructor; [set_solver|]. rewrite E. lia.
    + rewrite <-(app_nil_r (nl _)). apply prints_text; [by repeat constructor|constructor].
  - intros p2 H2. wp_step. split; [done|].
    assert ((bs ≫= λ _ : Z, []) = ([] : list Z)) as E by (clear; induction bs; done).
    rewrite E in H1. change (wc_text (wc_lines bs)) with ([] ++ wc_text (wc_lines bs)).
    eapply did_app; [exact H1|]. change (did FD_STDOUT (wc_text (wc_lines bs)) (u_reads p1) p1 p2) in H2.
    pose proof H1 as (_ & Hr & _). by rewrite Hr in H2.
Qed.
End filters.

(** ** Commands on processes *)

Section processes.
Context (k : Kernel).
Variables (fuel : nat) (lit : list Z → Z) (local : Z).
Implicit Types (p : program).

(** [m'] differs from [m] in [n] cells from [a] on, at most. *)
Definition same_but (a n : Z) (m m' : mem) : Prop := ∀ x, x < a ∨ a + n ≤ x → m' !! x = m !! x.

Lemma same_but_size a n m m' : 0 ≤ n → same_but a n m m' → (size m' ≤ size m + Z.to_nat n)%nat.
Proof.
  intros Hn Hs. rewrite <-!size_dom.
  assert (dom m' ⊆ dom m ∪ list_to_set (seqZ a n)) as Hd.
  { intros x Hx. apply elem_of_dom in Hx as [c Hc]. destruct (decide (a ≤ x < a + n)) as [Hin|Hout].
    - apply elem_of_union_r, elem_of_list_to_set, elem_of_seqZ. lia.
    - apply elem_of_union_l, elem_of_dom. exists c. rewrite <-Hs by lia. done. }
  apply subseteq_size in Hd. etrans; [exact Hd|].
  rewrite size_union_alt. apply Nat.add_le_mono_l. etrans; [apply subseteq_size, subseteq_difference_l; done|].
  rewrite size_list_to_set by apply NoDup_seqZ. by rewrite length_seqZ.
Qed.

Lemma same_but_cstr a n m m' q l : same_but a n m m' →
  q + Z.of_nat (length l) < a ∨ a + n ≤ q → cstr m q l → cstr m' q l.
Proof. intros Hs Hq. apply cstr_ext. intros x Hx. apply Hs. lia. Qed.

(** The argument [a] is the numeral of [v]. *)
Definition numeral_at (m : mem) (a v : Z) : Prop := cstr m a (number_text 10 v).
Definition small (v : Z) : Prop := - (2 ^ 31 - 48) < v < 2 ^ 31 - 48.

Lemma wp_scan_int p a v n (Q : Z * Z → program → Prop) :
  let f := chars "%d" in
  numeral_at (u_mem p) a n → small n → cstr (u_mem p) (lit f) f → 0 < v < 2 ^ 64 - 4 →
  (size (u_mem p) + 4 < fuel)%nat →
  a + Z.of_nat (length (number_text 10 n)) < v ∨ v + 4 ≤ a →
  lit f + 2 < v ∨ v + 4 ≤ lit f →
  (∀ m', same_but v 4 (u_mem p) m' → Q (1, n) (set_u_mem m' p)) →
  wp false (scan_int fuel lit a v) Q p.
Proof.
  intros f Ha Hn Hf Hv Hfuel Hsep Hsepf HQ. unfold scan_int. wp_step.
  apply wp_wr_int; [lia|]. intros m1 _ Hk1. fold (same_but v 4 (u_mem p) m1) in Hk1. wp_step.
  assert (u64 v = v) as Ev by (apply wrapu_small; lia).
  eapply wp_mono.
  { apply (sscanf_decimal fuel _ a (lit f) v n 0); rewrite ?Ev; cbn [u_mem set_u_mem].
    - by eapply same_but_cstr.
    - eapply (same_but_cstr v 4); done.
    - lia.
    - done.
    - pose proof (same_but_size v 4 _ _ ltac:(lia) Hk1). lia.
    - done. }
  intros r p2 (-> & Hl & Hk2 & Hp2). rewrite Ev in *. cbn [u_mem set_u_mem] in Hk2. wp_step.
  unfold read_int, user. wp_step. wp_step. eapply wp_kopt; [exact Hl|]. wp_step. rewrite Hp2.
  apply HQ. intros x Hx. rewrite Hk2 by done. by apply Hk1.
Qed.

(** The literals [ls] are in memory, away from the variables. *)
Definition literals (m : mem) (n : Z) (ls : list (list Z)) : Prop :=
  ∀ s, s ∈ ls → cstr m (lit s) s ∧
    (lit s + Z.of_nat (length s) < local ∨ local + n ≤ lit s).

Definition complained (t : list Z) p (r : Z) (p' : program) : Prop :=
  r = 1 ∧ ∃ ws, u_calls p' = u_calls p ++ (Write FD_STDERR <$> ws) ∧ concat ws = t.
Definition called (number : Z) (args : list Z) p (r : Z) (p' : program) : Prop :=
  r = 0 ∧ u_calls p' = u_calls p ++ [Sys number args].

Lemma wp_complain p s : cstr (u_mem p) (lit s) s → Forall plain s →
  length (u_buffer p) = 64%nat → (size (u_mem p) < fuel)%nat →
  wp false (_ ← complain fuel lit s; mret 1) (complained s p) p.
Proof.
  intros Hc Hs Hb Hf. wp_step. unfold complain, perror, fprintf.
  assert (concat (spell <$> (P_char <$> s) ++ []) = s) as Es by (by rewrite spell_text, app_nil_r).
  apply (wp_vfprintf _ _ _ ((P_char <$> s) ++ []) [] s); [|by rewrite Es|done|done|].
  - rewrite <-(app_nil_r s) at 2. apply prints_text; [done|constructor].
  - intros p' (_ & _ & _ & Hw). wp_step. by split.
Qed.

(** C39: [nice] with two decimal arguments makes one system call, which changes
    the priority of that process to that value; with a pid that is not
    positive or a priority out of range it makes none, writes what is wrong
    to standard error and answers 1. *)
Theorem nice_correct p a0 a1 a2 pid prio
    (H1 : numeral_at (u_mem p) a1 pid) (H2 : numeral_at (u_mem p) a2 prio)
    (Hpid : small pid) (Hprio : small prio) (Hlocal : 0 < local < 2 ^ 64 - 8)
    (Hlits : literals (u_mem p) 8 [chars "%d"; nl "Invalid pid"; nl "Invalid value"])
    (Hs1 : a1 + Z.of_nat (length (number_text 10 pid)) < local ∨ local + 8 ≤ a1)
    (Hs2 : a2 + Z.of_nat (length (number_text 10 prio)) < local ∨ local + 8 ≤ a2)
    (Hb : length (u_buffer p) = 64%nat) (Hf : (size (u_mem p) + 8 < fuel)%nat) :
  wp false (_nice fuel lit local 3 [a0; a1; a2])
    (if decide (0 < pid)
     then if decide (0 ≤ prio ≤ 3) then called 38 [pid; prio] p
          else complained (nl "Invalid value") p
     else complained (nl "Invalid pid") p) p.
Proof.
  destruct (Hlits (chars "%d")) as [Hd1 Hd2]; [set_solver|].
  change (Z.of_nat (length (chars "%d"))) with 2 in Hd2.
  unfold _nice. rewrite decide_False by lia. wp_step. unfold arg. eapply wp_kopt; [done|]. wp_step.
  apply (wp_scan_int p a1 local pid); [done|done|done|lia|lia|lia|lia|].
  intros m1 Hm1.
  assert (∀ s, s ∈ [chars "%d"; nl "Invalid pid"; nl "Invalid value"] → cstr m1 (lit s) s) as Hl1.
  { intros s Hs. destruct (Hlits s Hs) as [Hc Ha]. eapply same_but_cstr; [exact Hm1|lia|done]. }
  assert (size m1 + 4 < fuel)%nat as Hf1.
  { pose proof (same_but_size local 4 _ _ ltac:(lia) Hm1). lia. }
  destruct (decide (0 < pid)) as [Hp|Hp].
  2: { rewrite decide_True by lia. eapply wp_mono; [apply wp_complain|]; cbn [u_mem set_u_mem u_buffer].
       - apply Hl1. set_solver.
       - by repeat constructor.
       - done.
       - lia.
       - by intros r p' [Hr Hw]. }
  rewrite decide_False by lia. wp_step. eapply wp_kopt; [done|]. wp_step.
  apply (wp_scan_int _ a2 (local + 4) prio); cbn [u_mem set_u_mem u_buffer];
    [eapply same_but_cstr; [exact Hm1|lia|done]|done|apply Hl1; set_solver|lia|lia|lia|lia|].
  intros m2 Hm2. cbn [u_mem set_u_mem] in Hm2.
  destruct (decide (0 ≤ prio ≤ 3)) as [Hv|Hv].
  - rewrite decide_False by lia. wp_step. unfold setProcessPriority, sys_void. wp_step.
    match goal with |- wp _ (sysc ?n ?l) _ ?st =>
      destruct (kernel_answer (u_calls st) n l (u_mem st)) as [r m3] eqn:E end.
    eapply wp_sysc; [exact E|]. wp_step. wp_step. split; [done|]. cbn.
    assert (i32 pid = pid ∧ i32 prio = prio) as [-> ->]; [|done].
    unfold small in *. split; apply wraps_small; lia.
  - rewrite decide_True by lia. eapply wp_mono; [apply wp_complain|]; cbn [u_mem set_u_mem u_buffer].
    + eapply same_but_cstr; [exact Hm2| |apply Hl1; set_solver].
      destruct (Hlits (nl "Invalid value")) as [_ Ha]; [set_solver|]. lia.
    + by repeat constructor.
    + done.
    + pose proof (same_but_size (local + 4) 4 _ _ ltac:(lia) Hm2). lia.
    + by intros r p' [Hr Hw].
Qed.
End processes.

(** ** Concrete instances *)

Definition demo_kernel : Kernel := λ _ _ _ m, (0, m).
Definition demo_lit (s : list Z) : Z :=
  if decide (s = chars "%d") then 100 else if decide (s = nl "Invalid pid") then 200
  else if decide (s = nl "Invalid value") then 300 else 400.
Definition demo_texts : mem :=
  put_text (put_text (put_text (put_text (put_text (put_text ∅ 100 (chars "%d"))
    200 (nl "Invalid pid")) 300 (nl "Invalid value"))
    400 (nl "Se registraron %d lineas por stdin")) 500 (chars "12")) 600 (chars "3").

(** "hi" and "you", with a failed read between the lines. *)
Definition demo_prog : program :=
  Program demo_texts number_buffer
    [(1, 104); (1, 105); (1, 10); (-1, 0); (1, 121); (1, 111); (1, 117); (0, 0)] [].

Lemma demo_feeds : feeds (u_reads demo_prog) [104; 105; 10; 121; 111; 117] [].
Proof.
  apply (feeds_byte 1 104), (feeds_byte 1 105), (feeds_byte 1 10), feeds_retry, (feeds_byte 1 121),
    (feeds_byte 1 111), (feeds_byte 1 117), feeds_eof; done.
Qed.

Lemma filter_correct_witness :
  wp false (_filter 1 []) (filtered [104; 10; 121; 10] [] demo_prog) demo_prog.
Proof. apply (filter_correct demo_prog _ [] [] demo_feeds). Defined.

Lemma wc_correct_witness :
  wp false (_wc 1000 demo_lit 1 []) (filtered (wc_text 1) [] demo_prog) demo_prog.
Proof.
  apply (wc_correct 1000 demo_lit demo_prog _ [] [] demo_feeds); [demo_cstr| |done].
  split; [done|]. split; [done|]. vm_compute. lia.
Defined.

Lemma nice_correct_witness :
  wp false (_nice (H := demo_kernel) 1000 demo_lit 700 3 [0; 500; 600])
    (called 38 [12; 3] demo_prog) demo_prog.
Proof.
  apply (nice_correct demo_kernel 1000 demo_lit 700 demo_prog 0 500 600 12 3);
    [demo_cstr|demo_cstr|by vm_compute|by vm_compute|lia| |left; by vm_compute|left; by vm_compute|
     done|vm_compute; lia].
  intros s Hs. apply list_elem_of_In in Hs as [<-|[<-|[<-|[]]]];
    (split; [demo_cstr|left; by vm_compute]).
Defined.
