(* ===== verification/Shell.v ===== *)
(** * The shell ([Userland/Shell/shell.c])

    [main] reads a line, cuts it into commands, runs one command or a
    pipeline of two, and releases the arguments.  Its buffers are at fixed
    addresses of the program's memory; the array of parsed commands and the
    static variables, [last] of [strtok] included, are the record [shell]. *)

From S2P Require Import Prelude Strings Monad UserString UserStdio Libsys Commands.

Definition MAX_BUFFER_SIZE : Z := 1024.
Definition HISTORY_SIZE : Z := 10.
Definition MAX_ARGUMENT_COUNT : Z := 10.
Definition MAX_ARGUMENT_SIZE : Z := 256.
Definition INC_MOD (x m : Z) : Z := Z.rem (x + 1) m.

(** [function] is the number of the command in [commands]. *)
Record ParsedCommand := {
  name : Z;
  function : nat;
  argc : Z;
  argv : list Z;   (* MAX_ARGUMENT_COUNT pointers *)
  isBuiltIn : Z;
}.
Definition PARSED_SIZE : Z := 112.   (* sizeof(ParsedCommand) *)
Definition set_argc v c := Build_ParsedCommand (name c) (function c) v (argv c) (isBuiltIn c).
Definition set_argv i v c :=
  Build_ParsedCommand (name c) (function c) (argc c) (<[Z.to_nat i := v]> (argv c)) (isBuiltIn c).

Record shell := {
  parsedCommands : list ParsedCommand;
  parsed_array : Z;   (* where the array is *)
  buffer_dim : Z;
  last : Z;   (* of strtok *)
  command_history_last : Z;
  last_command_arrowed : Z;
}.
Definition parsed_commands_dim (s : shell) : Z := Z.of_nat (length (parsedCommands s)).
Definition set_parsed v s := Build_shell v (parsed_array s) (buffer_dim s) (last s)
  (command_history_last s) (last_command_arrowed s).
Definition set_array v s := Build_shell (parsedCommands s) v (buffer_dim s) (last s)
  (command_history_last s) (last_command_arrowed s).
Definition set_dim v s := Build_shell (parsedCommands s) (parsed_array s) v (last s)
  (command_history_last s) (last_command_arrowed s).
Definition set_last v s := Build_shell (parsedCommands s) (parsed_array s) (buffer_dim s) v
  (command_history_last s) (last_command_arrowed s).
Definition set_history v s := Build_shell (parsedCommands s) (parsed_array s) (buffer_dim s) (last s)
  v v.

Section shell.
Context `{Kernel}.
Variables (fuel : nat) (lit : list Z → Z) (local : Z).
(** The entry points, and what the heap's bytes say before they are written. *)
Variables (entry : nat → Z) (garbage : ParsedCommand).
(** [buffer], [command], [command_history], [command_history_buffer] and
    [invalid_cmd]. *)
Variables (buffer command command_history command_history_buffer invalid_cmd : Z).
Abbreviation M := (K program).

(** ** Cutting a line ([parse_command]) *)

Definition next_token (s1 last : Z) : M (Z * Z) :=
  '(tok, m, last) ← user (λ m, strtok m last s1 (lit [32]));
  _ ← kmodify (set_u_mem m);
  mret (tok, last).

Definition copy_string (dest src : Z) : M unit :=
  m ← user (λ m, UserString.strcpy m dest src); kmodify (set_u_mem m).

Fixpoint skip_bars (n : nat) (tok last : Z) : M (Z * Z) :=
  match n with
  | O => diverge
  | S n =>
      if decide (tok = NULL) then mret (tok, last)
      else
        d ← user (λ m, strcmp m tok (lit [124]));
        if decide (d = 0) then '(tok, last) ← next_token NULL last; skip_bars n tok last
        else mret (tok, last)
  end.

(** The first command with the name at [command], if any, and its number. *)
Fixpoint find_command (l : list Command) (i : nat) (command : Z) : M (option (nat * Command)) :=
  match l with
  | [] => mret None
  | c :: l =>
      d ← user (λ m, strcmp m (lit (c_name c)) command);
      if decide (d = 0) then mret (Some (i, c)) else find_command l (S i) command
  end.

(** [for (i = from; i < argc; i++) freeMemory(argv[i])] *)
Fixpoint free_parsed (n : nat) (i : Z) (c : ParsedCommand) : M unit :=
  match n with
  | O => mret tt
  | S n => a ← arg (argv c) (Z.to_nat i); _ ← freeMemory a; free_parsed n (i + 1) c
  end.

(** The arguments; the result is [-1] when there is no memory for one. *)
Fixpoint parse_args (n : nat) (a last : Z) (c : ParsedCommand) : M (Z * ParsedCommand * Z) :=
  match n with
  | O => diverge
  | S n =>
      if decide (a = NULL) then mret (1, c, last)
      else
        d ← user (λ m, strcasecmp m a (lit [124]));
        if decide (d = 0 ∨ MAX_ARGUMENT_COUNT - 1 ≤ argc c) then mret (1, c, last)
        else
          l ← user (λ m, UserString.strlen m a);
          p ← allocMemory (l + 1);
          let c := set_argv (argc c) p c in
          if decide (p = NULL) then
            _ ← complain fuel lit (chars "Memory allocation failed for command argument");
            _ ← free_parsed (Z.to_nat (argc c - 1)) 1 c;
            mret (-1, c, last)
          else
            _ ← copy_string p a;
            '(a, last) ← next_token NULL last;
            parse_args n a last (set_argc (argc c + 1) c)
  end.

Definition parse_fuel : nat := Z.to_nat MAX_BUFFER_SIZE + 1.

Definition parse_command (buf : Z) (last : Z) (c : ParsedCommand) : M (Z * ParsedCommand * Z) :=
  '(tok, last) ← next_token buf last;
  if decide (tok = NULL) then mret (-1, c, last)
  else
    '(tok, last) ← skip_bars parse_fuel tok last;
    if decide (tok = NULL) then mret (-1, c, last)
    else
      _ ← copy_string command tok;
      c0 ← rd command;
      if decide (c0 = 0) then mret (-1, c, last)
      else
        found ← find_command commands 0 command;
        match found with
        | None => mret (-1, c, last)
        | Some (i, cmd) =>
            '(a, last) ← next_token NULL last;
            let nm := lit (c_name cmd) in
            let c := set_argv 0 nm (Build_ParsedCommand nm i 1 (argv c) (isBuiltIn c)) in
            '(r, c, last) ← parse_args parse_fuel a last c;
            if decide (r = -1) then mret (-1, c, last)
            else
              let c := set_argv (argc c) NULL c in
              mret (1, Build_ParsedCommand (name c) (function c) (argc c) (argv c)
                (c_isBuiltIn cmd), last)
        end.

(** ** Reading a line *)

(** The number of characters read and the last one. *)
Fixpoint read_line (n : nat) (dim c : Z) : M (Z * Z) :=
  match n with
  | O => diverge
  | S n =>
      if decide (dim < MAX_BUFFER_SIZE - 1) then
        c ← getchar_c;
        if decide (c = 10) then mret (dim, c)
        else
          _ ← wr (command_history_buffer + dim) c;
          _ ← wr (buffer + dim) c;
          read_line n (dim + 1) c
      else mret (dim, c)
  end.

Fixpoint skip_rest (n : nat) (c : Z) : M unit :=
  match n with
  | O => diverge
  | S n => if decide (c = 10) then mret tt else c ← getchar_c; skip_rest n c
  end.

(** ** All the commands of the line *)

Definition free_all (parsed : Z) (cs : list ParsedCommand) : M unit :=
  kfor (Z.to_nat parsed) 0 1 (λ p,
    c ← kopt (cs !! Z.to_nat p);
    kfor (Z.to_nat (argc c - 1)) 1 1 (λ i,
      a ← arg (argv c) (Z.to_nat i);
      if decide (a ≠ NULL) then freeMemory a else mret tt)).

(** The array grows by five when the last of its commands is parsed;
    [None]: there was no memory, and [main] returns [-1]. *)
Definition grow (parsed : Z) (s : shell) : M (option shell) :=
  if decide (Z.rem parsed 5 = 0 ∧ parsed_commands_dim s ≤ parsed) then
    a ← allocMemory (PARSED_SIZE * (parsed_commands_dim s + 5));
    if decide (a = NULL) then
      _ ← complain fuel lit (chars "Memory allocation failed for parsed commands");
      _ ← free_all parsed (parsedCommands s);
      _ ← freeMemory (parsed_array s);
      mret None
    else
      _ ← freeMemory (parsed_array s);
      mret (Some (set_array a (set_parsed (parsedCommands s ++ replicate 5 garbage) s)))
  else mret (Some s).

Fixpoint parse_loop (n : nat) (parsed : Z) (s : shell) : M (option (Z * shell)) :=
  match n with
  | O => diverge
  | S n =>
      c ← kopt (parsedCommands s !! Z.to_nat parsed);
      '(r, c, last) ← parse_command (if decide (parsed = 0) then buffer else NULL) (last s) c;
      let s := set_last last (set_parsed (<[Z.to_nat parsed := c]> (parsedCommands s)) s) in
      if decide (r = -1) then mret (Some (parsed, s))
      else
        g ← grow (parsed + 1) s;
        match g with None => mret None | Some s => parse_loop n (parsed + 1) s end
  end.

(** ** Running them *)

(** [&] as the last argument: the command without it, and whether it was
    there. *)
Definition wants_background (c : ParsedCommand) : M (bool * ParsedCommand) :=
  if decide (1 < argc c) then
    lastArg ← arg (argv c) (Z.to_nat (argc c - 1));
    d ← (if decide (lastArg = NULL) then mret 1 else user (λ m, strcmp m lastArg (lit [38])));
    if decide (lastArg ≠ NULL ∧ d = 0) then
      mret (true, set_argc (argc c - 1) (set_argv (argc c - 1) NULL c))
    else mret (false, c)
  else mret (false, c).

Definition start_command (c : ParsedCommand) (targets : list Z) (hasForeground : bool) : M Z :=
  createProcess (argc c) (take (Z.to_nat (argc c)) (argv c)) (entry (function c)) 2 targets
    (if hasForeground then 1 else 0).

(** The two built-in commands of the table. *)
Definition call_builtin (c : ParsedCommand) : M Z :=
  if decide (function c = 4)%nat then _exit (argc c) (argv c)
  else if decide (function c = 6)%nat then _man fuel lit (argc c) (argv c)
  else undefined.

Definition run_single (c : ParsedCommand) : M ParsedCommand :=
  if decide (isBuiltIn c ≠ 0) then _ ← call_builtin c; mret c
  else
    '(wantsBackground, c) ← wants_background c;
    pid ← start_command c [0; 1; 2] (negb wantsBackground);
    _ ← (if decide (wantsBackground = false ∧ 0 < pid) then _ ← waitPid pid; mret tt
         else mret tt);
    mret c.

Definition run_pipeline (c1 c2 : ParsedCommand) : M (ParsedCommand * ParsedCommand) :=
  if decide (isBuiltIn c1 ≠ 0 ∨ isBuiltIn c2 ≠ 0) then
    _ ← say fuel lit (nl "Pipelines with built-in commands are not supported.");
    mret (c1, c2)
  else
    pipeId ← pipeOpen;
    if decide (pipeId < 0) then
      _ ← complain fuel lit (chars "Failed to open pipe"); mret (c1, c2)
    else
      '(b1, c1) ← wants_background c1;
      '(b2, c2) ← wants_background c2;
      let wantsBackground := b1 || b2 in
      pidLeft ← start_command c1 [0; pipeId; 2] false;
      pidRight ← start_command c2 [pipeId; 1; 2] (negb wantsBackground);
      _ ← (if decide (wantsBackground = false ∧ 0 < pidRight ∧ 0 < pidLeft) then
             _ ← waitPid pidLeft; _ ← waitPid pidRight; mret tt
           else mret tt);
      _ ← pipeClose pipeId;
      mret (c1, c2).

Definition run_line (parsed : Z) (cs : list ParsedCommand) : M (list ParsedCommand) :=
  if decide (parsed = 1) then
    c ← kopt (cs !! 0%nat); c ← run_single c; mret (<[0%nat := c]> cs)
  else if decide (parsed = 2) then
    c1 ← kopt (cs !! 0%nat); c2 ← kopt (cs !! 1%nat);
    '(c1, c2) ← run_pipeline c1 c2;
    mret (<[0%nat := c1]> (<[1%nat := c2]> cs))
  else
    _ ← say fuel lit (nl "Pipelines with more than 2 commands are not supported.");
    mret cs.

(** ** After the line *)

(** [argv[i]] for [i] from 1 to [argc - 1]; then [argc = 1], [argv[1] = NULL]. *)
Fixpoint release_args (n : nat) (i : Z) (c : ParsedCommand) : M ParsedCommand :=
  match n with
  | O => mret (set_argv 1 NULL (set_argc 1 c))
  | S n =>
      a ← arg (argv c) (Z.to_nat i);
      c ← (if decide (a ≠ NULL) then _ ← freeMemory a; mret (set_argv i NULL c) else mret c);
      release_args n (i + 1) c
  end.

Fixpoint release (n : nat) (p : nat) (cs : list ParsedCommand) : M (list ParsedCommand) :=
  match n with
  | O => mret cs
  | S n =>
      c ← kopt (cs !! p);
      c ← release_args (Z.to_nat (argc c - 1)) 1 c;
      release n (S p) (<[p := c]> cs)
  end.

Definition not_found (s : shell) : M shell :=
  _ ← kfor (Z.to_nat MAX_ARGUMENT_SIZE) 0 1 (λ i, wr (invalid_cmd + i) 0);
  '(cmd_tok, last) ← next_token buffer (last s);
  _ ← (if decide (cmd_tok ≠ NULL) then
         _ ← copy_string invalid_cmd cmd_tok;
         printf fuel (lit (nl "Command '%s' not found")) [invalid_cmd]
       else mret tt);
  _ ← say fuel lit (nl "For a list of valid commands type 'help'");
  mret (set_last last s).

Definition remember (s : shell) : M shell :=
  let row := command_history + command_history_last s * MAX_BUFFER_SIZE in
  m ← user (λ m, UserString.strncpy m row command_history_buffer 255);
  _ ← kmodify (set_u_mem m);
  _ ← wr (row + buffer_dim s) 0;
  mret (set_history (INC_MOD (command_history_last s) HISTORY_SIZE) s).

(** ** [main] *)

Definition prompt : list Z :=
  27 :: chars "[0mshell (%d) " ++ 27 :: chars "[0;32m$" ++ 27 :: chars "[0m ".

(** The commands of the line in [buffer], of [dim] characters. *)
Definition handle_line (s : shell) : M (option shell) :=
  r ← parse_loop parse_fuel 0 s;
  match r with
  | None => mret None
  | Some (parsed, s) =>
      s ← (if decide (parsed = 0 ∧ 0 < buffer_dim s) then not_found s else mret s);
      s ← (if decide (parsed ≠ 0) then remember s else mret s);
      cs ← (if decide (1 ≤ parsed) then run_line parsed (parsedCommands s)
            else mret (parsedCommands s));
      cs ← release (Z.to_nat parsed) 0 cs;
      _ ← wr buffer 0;
      mret (Some (set_dim 0 (set_parsed cs s)))
  end.

(** One turn of [while (1)]; [None]: [main] returned [-1]. *)
Definition main_round (s : shell) : M (option shell) :=
  pid ← getMyPid;
  _ ← printf fuel (lit prompt) [pid];
  '(dim, c) ← read_line (S (Z.to_nat MAX_BUFFER_SIZE)) (buffer_dim s) 0;
  _ ← wr (buffer + dim) 0;
  if decide (MAX_BUFFER_SIZE - 1 ≤ dim) then
    _ ← complain fuel lit (27 :: chars "[0;31mShell buffer overflow" ++ 27 :: nl "[0m");
    _ ← wr buffer 0;
    n ← read_fuel;
    _ ← skip_rest n c;
    mret (Some (set_dim 0 s))
  else handle_line (set_dim dim s).

Fixpoint main_loop (rounds : nat) (s : shell) : M Z :=
  match rounds with
  | O => diverge
  | S rounds =>
      r ← main_round s;
      match r with None => mret (-1) | Some s => main_loop rounds s end
  end.

Definition main (rounds : nat) : M Z :=
  _ ← clearScreen;
  _ ← wr buffer 0;
  _ ← kfor (Z.to_nat MAX_ARGUMENT_SIZE) 0 1 (λ i, wr (command + i) 0);
  a ← allocMemory (PARSED_SIZE * 5);
  if decide (a = NULL) then
    _ ← complain fuel lit (chars "Memory allocation failed for parsed commands"); mret (-1)
  else main_loop rounds (Build_shell (replicate 5 garbage) a 0 NULL 0 0).
End shell.
