(* ===== verification/ShellFacts.v ===== *)
(** * How the shell reads and runs a line

    The reference is on the tokens of the line ([line_spec]); the shell's
    parser follows it token by token.  The heap is any allocator whose blocks
    never overlap ([heap_ok]). *)

From S2P Require Import Prelude Strings Monad Numerals UserString UserStdio Libsys Commands.
From S2P Require Import CommandFacts Shell.

(** ** The reference *)

Definition bar : list Z := [124].
Definition toks (l : list Z) : list (list Z) :=
  match l with [] => [] | _ => tokens [32] l end.

Fixpoint skip_spec (ts : list (list Z)) : list (list Z) :=
  match ts with
  | t :: ts' => if decide (t = bar) then skip_spec ts' else ts
  | [] => []
  end.

Fixpoint find_spec (l : list Command) (i : nat) (t : list Z) : option (nat * Command) :=
  match l with
  | [] => None
  | c :: l => if decide (c_name c = t) then Some (i, c) else find_spec l (S i) t
  end.

(** At most [n] arguments; the bar that ends them is taken, and so is the
    token that is one too many. *)
Fixpoint args_spec (n : nat) (ts : list (list Z)) {struct ts} :
    list (list Z) * list (list Z) :=
  match ts with
  | [] => ([], [])
  | t :: ts =>
      if decide (t = bar) then ([], ts)
      else match n with
           | O => ([], ts)
           | S n => let '(args, rest) := args_spec n ts in (t :: args, rest)
           end
  end.

Definition one_spec (ts : list (list Z)) :
    option (nat * Command * list (list Z) * list (list Z)) :=
  match skip_spec ts with
  | [] => None
  | t :: ts =>
      if decide (t = []) then None
      else '(i, c) ← find_spec commands 0 t; let '(args, rest) := args_spec 8 ts in
           Some (i, c, args, rest)
  end.

Fixpoint line_spec (n : nat) (ts : list (list Z)) : list (nat * Command * list (list Z)) :=
  match n with
  | O => []
  | S n => match one_spec ts with
           | Some (i, c, args, rest) => (i, c, args) :: line_spec n rest
           | None => []
           end
  end.

Example line_spec_pipeline :
  (λ x, (x.1.1, x.2)) <$> line_spec 10 (tokens [32] (chars "cat hi | wc")) =
    [(1%nat, [chars "hi"]); (16%nat, [])].
Proof. vm_compute. done. Qed.

(** A tenth argument is read as a command. *)
Example line_spec_long :
  (λ x, (x.1.1, length x.2)) <$> line_spec 10 (tokens [32] (chars "echo a b c d e f g h i ps")) =
    [(3%nat, 8%nat); (11%nat, 0%nat)].
Proof. vm_compute. done. Qed.

(** ** The heap *)

(** What the shell relies on of the kernel's allocator: the blocks it handed
    out and has not been given back, by address, never overlap and lie above
    [H]; a request that leaves [64] bytes of the [room] is granted; only
    allocations and releases change the blocks, and neither touches the
    program's memory. *)
Record heap_ok (k : Kernel) (H : Z) (blocks : list call → gmap Z Z) (room : list call → Z) : Prop := {
  hp_malloc : ∀ cs n m, 0 < n → n + 64 ≤ room cs → ∃ a, k cs 32 [u64 n] m = (a, m) ∧
    0 < a ∧ H ≤ a ∧ a + n < 2 ^ 64 ∧ blocks cs !! a = None ∧
    (∀ b l, blocks cs !! b = Some l → b + l ≤ a ∨ a + n ≤ b) ∧
    blocks (cs ++ [Sys 32 [u64 n]]) = <[a := n]> (blocks cs) ∧
    room cs - n - 64 ≤ room (cs ++ [Sys 32 [u64 n]]);
  hp_free : ∀ cs a n m, blocks cs !! a = Some n → ∃ r, k cs 33 [a] m = (r, m) ∧
    blocks (cs ++ [Sys 33 [a]]) = delete a (blocks cs) ∧ room cs ≤ room (cs ++ [Sys 33 [a]]);
  hp_other : ∀ cs n regs, n ≠ 32 → n ≠ 33 → blocks (cs ++ [Sys n regs]) = blocks cs;
}.

(** The memory the tokens of a line need: a copy of each, and with it a new
    array of commands, when the token is a command for which the array has no
    entry left. *)
Fixpoint need (ts : list (list Z)) : Z :=
  match ts with [] => 0 | t :: ts => Z.of_nat (length t) + 2 ^ 18 + need ts end.

Lemma need_nonneg ts : 0 ≤ need ts.
Proof. induction ts; cbn [need]; lia. Qed.

Section parse.
Context (k : Kernel) (H : Z) (blocks : list call → gmap Z Z) (room : list call → Z).
Hypothesis Hheap : heap_ok k H blocks room.
Variables (fuel : nat) (lit : list Z → Z) (garbage : ParsedCommand).
Variables (buffer command : Z).
Implicit Types (p : program) (m : mem) (c : ParsedCommand) (args : list (list Z)).
Implicit Types (arr : Z) (qs : list Z) (L : Z → Prop).

(** The blocks of the shell other than the array of commands [arr], and the
    addresses that are its own. *)
Definition others arr p : gmap Z Z := delete arr (blocks (u_calls p)).
Definition own arr p (x : Z) : Prop :=
  x < H ∨ ∃ a n, others arr p !! a = Some n ∧ a ≤ x < a + n.

(** The literals the parser compares with. *)
Definition lits : list (list Z) := [32] :: bar :: (c_name <$> commands).
Definition layout m : Prop := ∀ s, s ∈ lits → cstr m (lit s) s.

(** Addresses the parser does not write to: not in the rest of the line, not
    in [command], not in the heap that is free. *)
Definition kept (lo hi : Z) L (x : Z) : Prop :=
  (x < lo ∨ hi ≤ x) ∧ (x < command ∨ command + MAX_ARGUMENT_SIZE ≤ x) ∧ L x.
Definition keeps (lo hi : Z) L m m' : Prop := ∀ x, kept lo hi L x → m' !! x = m !! x.

Record setting : Prop := {
  se_lits : ∀ s, s ∈ lits → ∀ x, lit s ≤ x ≤ lit s + Z.of_nat (length s) →
    kept buffer (buffer + MAX_BUFFER_SIZE) (λ x, x < H) x;
  se_pos : 0 < buffer ∧ 0 < command;
  se_apart : buffer + MAX_BUFFER_SIZE ≤ command ∨ command + MAX_ARGUMENT_SIZE ≤ buffer;
  se_below : buffer + MAX_BUFFER_SIZE ≤ H ∧ command + MAX_ARGUMENT_SIZE ≤ H;
}.
Hypothesis Hset : setting.

Lemma keeps_weaken lo hi L lo' hi' L' m m' :
  keeps lo' hi' L' m m' → hi' ≤ lo' ∨ lo ≤ lo' ∧ hi' ≤ hi → (∀ x, L x → L' x) → keeps lo hi L m m'.
Proof. intros Hk Hr HL x (? & ? & ?). apply Hk. split; [lia|]. split; [done|by apply HL]. Qed.

Lemma keeps_trans lo hi L m1 m2 m3 :
  keeps lo hi L m1 m2 → keeps lo hi L m2 m3 → keeps lo hi L m1 m3.
Proof. intros H12 H23 x Hx. rewrite H23 by done. by apply H12. Qed.

Lemma keeps_cstr lo hi L m m' q l : keeps lo hi L m m' →
  (∀ x, q ≤ x ≤ q + Z.of_nat (length l) → kept lo hi L x) → cstr m q l → cstr m' q l.
Proof. intros Hk Hq. apply cstr_ext. intros x Hx. by apply Hk, Hq. Qed.

(** Writes inside the line's buffer, [command] and the heap. *)
Definition inside (lo hi : Z) L : Prop :=
  (hi ≤ lo ∨ buffer ≤ lo ∧ hi ≤ buffer + MAX_BUFFER_SIZE) ∧ ∀ x, x < H → L x.

Lemma layout_keeps lo hi L m m' : inside lo hi L → keeps lo hi L m m' → layout m → layout m'.
Proof.
  intros [Hr HL] Hk Hl s Hs. eapply keeps_cstr; [exact Hk| |by apply Hl].
  intros x Hx. destruct (se_lits Hset s Hs x Hx) as (? & ? & ?).
  split; [lia|]. split; [done|by apply HL].
Qed.

Lemma own_low arr p x : x < H → own arr p x.
Proof. by left. Qed.

Lemma wp_user {A} (f : mem → option A) a p (Q : A → program → Prop) :
  f (u_mem p) = Some a → Q a p → wp false (user f) Q p.
Proof. intros E HQ. unfold user. wp_step. wp_step. by eapply wp_kopt. Qed.

(** ** Tokens *)

(** The rest of the line is [l], from [last] on. *)
Definition rest_is p (last : Z) (l : list Z) : Prop :=
  cstr (u_mem p) last l ∧ buffer ≤ last ∧ last + Z.of_nat (length l) < buffer + MAX_BUFFER_SIZE ∧
  layout (u_mem p).

(** [tok] is the token last cut off, the first of [ts]; the others are in the
    rest [l] of the line. *)
Definition token_is m (tok last : Z) (l : list Z) (ts : list (list Z)) : Prop :=
  match ts with
  | [] => tok = NULL ∧ l = []
  | t :: ts => ts = toks l ∧ cstr m tok t ∧ buffer ≤ tok ∧
      (tok + Z.of_nat (length t) < last ∨ tok + Z.of_nat (length t) = last ∧ l = [])
  end.
Definition cursor p tok last l ts : Prop := rest_is p last l ∧ token_is (u_mem p) tok last l ts.

Lemma cursor_keeps p p' lo hi L tok last l ts : inside lo hi L → hi ≤ lo →
  keeps lo hi L (u_mem p) (u_mem p') → cursor p tok last l ts → cursor p' tok last l ts.
Proof.
  intros Hi Hr Hk ((Hc & Hlo & Hhi & Hla) & Ht).
  pose proof (se_below Hset) as Hb. pose proof (se_apart Hset) as Ha. destruct Hi as [Hi HL].
  assert (∀ q s, cstr (u_mem p) q s → buffer ≤ q → q + Z.of_nat (length s) < buffer + MAX_BUFFER_SIZE →
    cstr (u_mem p') q s) as Hin.
  { intros q s Hs Hq1 Hq2. eapply keeps_cstr; [exact Hk| |exact Hs]. intros x Hx.
    split; [lia|]. split; [lia|apply HL; lia]. }
  split.
  - split; [by apply Hin|]. split; [done|]. split; [done|].
    apply (layout_keeps lo hi L (u_mem p)); [split; [by left|done]|done|done].
  - destruct ts as [|t ts]; [done|]. destruct Ht as (-> & Ht & Htb & Hend).
    split; [done|]. split; [|done]. apply Hin; [done|done|].
    destruct Hend as [?|[? ->]]; [|cbn in *]; lia.
Qed.

(** What a call of [strtok] leaves, of the line from [last] on. *)
Definition cut p (last : Z) (l : list Z) L p' (tok last' : Z) (l' : list Z) ts : Prop :=
  p' = set_u_mem (u_mem p') p ∧ keeps last (last + Z.of_nat (length l)) L (u_mem p) (u_mem p') ∧
  cursor p' tok last' l' ts ∧ last ≤ last' ∧
  last' + Z.of_nat (length l') = last + Z.of_nat (length l) ∧
  (tok = NULL ∨ tok = last) ∧ (length l' < length l ∨ l = [])%nat.

Lemma token_loop_cut_ok f p last l L (Q : Z * mem * Z → program → Prop) :
  f (u_mem p) = token_loop (S (size (u_mem p))) (u_mem p) last last (lit [32]) →
  (∀ x, x < H → L x) → rest_is p last l →
  (∀ last' m' l', cut p last l L (set_u_mem m' p) last last' l' (tokens [32] l) →
     Q (last, m', last') p) →
  wp false (user f) Q p.
Proof.
  intros Ef HL (Hc & Hlo & Hhi & Hla) HQ.
  assert (cstr (u_mem p) (lit [32]) [32]) as Hsp by (apply Hla; by left).
  destruct (token_loop_step (u_mem p) last (lit [32]) [32] l last (S (size (u_mem p))))
    as (t & b & n & m' & E & Htok & Ht & Hb & Hlen & Hn & Hk);
    [done|done|by eapply cstr_fuel|].
  rewrite E in Ef. eapply wp_user; [exact Ef|]. apply (HQ _ _ b).
  assert (keeps last (last + Z.of_nat (length l)) L (u_mem p) m') as Hkeep.
  { intros x (Hx & _). apply Hk. lia. }
  split; [done|]. split; [done|]. split.
  - split.
    + split; [done|]. split; [lia|]. split; [lia|].
      apply (layout_keeps last (last + Z.of_nat (length l)) L (u_mem p));
        [split; [right; lia|done]|done|done].
    + rewrite Htok. split; [by destruct b|]. split; [done|]. split; [done|].
      destruct Hn as [?|[? ->]]; [left; lia|right; split; [lia|done]].
  - split; [lia|]. split; [lia|]. split; [by right|].
    destruct l as [|x l]; [by right|left].
    destruct Hn as [?|[Hn ->]]; cbn [length] in *; lia.
Qed.

Lemma wp_next_token p s1 last l L (Q : Z * Z → program → Prop) : (∀ x, x < H → L x) →
  let start := if decide (s1 = NULL) then last else s1 in
  rest_is p start l →
  (∀ p' tok last' l', cut p start l L p' tok last' l'
     (if decide (s1 = NULL) then toks l else tokens [32] l) → Q (tok, last') p') →
  wp false (next_token lit s1 last) Q p.
Proof.
  intros HL start Hrest HQ. unfold next_token, strtok. subst start.
  destruct (decide (s1 = NULL)) as [->|Hs1].
  - destruct l as [|x l].
    + destruct Hrest as (Hc & Hr). apply cstr_nil in Hc as Hz. wp_step. eapply wp_user.
      { rewrite decide_False by tauto. rewrite Hz. cbn [mbind option_bind]. by rewrite decide_True. }
      wp_step. wp_step. wp_step. apply (HQ _ _ _ []). split; [done|]. split; [done|].
      split; [by split|]. split; [done|]. split; [done|]. split; [by left|by right].
    + wp_step. eapply token_loop_cut_ok; [|exact HL|exact Hrest|].
      * rewrite decide_False by tauto. destruct Hrest as (Hc & _).
        apply cstr_cons in Hc as (-> & Hx & _). cbn [mbind option_bind]. by rewrite decide_False.
      * intros last' m' l' Hcut. wp_step. wp_step. wp_step. by apply (HQ _ _ _ l').
  - wp_step. eapply token_loop_cut_ok; [|exact HL|exact Hrest|].
    + by rewrite decide_True.
    + intros last' m' l' Hcut. wp_step. wp_step. wp_step. by apply (HQ _ _ _ l').
Qed.

(** ** What the parser may do

    It allocates and releases, and writes to the line, to [command] and to
    blocks that are not its own yet; the array of commands may move. *)
Definition heap_call (c : call) : Prop := ∃ n a, c = Sys n [a] ∧ (n = 32 ∨ n = 33).
Definition parsing arr arr' p p' : Prop :=
  (∃ cs, p' = Program (u_mem p') (u_buffer p) (u_reads p) (u_calls p ++ cs) ∧ Forall heap_call cs) ∧
  keeps buffer (buffer + MAX_BUFFER_SIZE) (own arr p) (u_mem p) (u_mem p') ∧
  others arr p ⊆ others arr' p'.

Lemma own_mono arr arr' p p' x : others arr p ⊆ others arr' p' → own arr p x → own arr' p' x.
Proof.
  intros Hs [Hx|(a & n & Ha & Hx)]; [by left|right]. exists a, n. split; [|done].
  by eapply lookup_weaken.
Qed.

Lemma parsing_refl arr p : parsing arr arr p p.
Proof.
  split; [|done]. exists []. rewrite app_nil_r. by destruct p.
Qed.

Lemma parsing_trans arr1 arr2 arr3 p1 p2 p3 :
  parsing arr1 arr2 p1 p2 → parsing arr2 arr3 p2 p3 → parsing arr1 arr3 p1 p3.
Proof.
  intros ((cs1 & E1 & H1) & Hk1 & Hb1) ((cs2 & E2 & H2) & Hk2 & Hb2).
  split; [|split; [|by etrans]].
  - exists (cs1 ++ cs2). split; [|by apply Forall_app]. rewrite E2, E1. cbn. by rewrite app_assoc.
  - eapply keeps_trans; [exact Hk1|]. eapply keeps_weaken; [exact Hk2|right; lia|].
    intros x. by apply own_mono.
Qed.

Lemma parsing_mem arr m p :
  keeps buffer (buffer + MAX_BUFFER_SIZE) (own arr p) (u_mem p) m → parsing arr arr p (set_u_mem m p).
Proof. intros Hk. split; [|by split]. exists []. cbn. by rewrite app_nil_r. Qed.

Lemma wp_token p s1 last l arr (Q : Z * Z → program → Prop) :
  let start := if decide (s1 = NULL) then last else s1 in
  rest_is p start l →
  (∀ p' tok last' l',
     cursor p' tok last' l' (if decide (s1 = NULL) then toks l else tokens [32] l) →
     parsing arr arr p p' → u_calls p' = u_calls p → (length l' < length l ∨ l = [])%nat →
     Q (tok, last') p') →
  wp false (next_token lit s1 last) Q p.
Proof.
  intros start Hrest HQ. apply (wp_next_token p s1 last l (own arr p)); [apply own_low|done|].
  intros p' tok last' l' (Ep & Hk & Hcur & _ & _ & _ & Hlen). pose proof Hrest as (_ & ? & ? & _).
  apply (HQ _ _ _ l'); [done| |by rewrite Ep|done]. rewrite Ep. apply parsing_mem.
  eapply keeps_weaken; [exact Hk|right; fold start; lia|done].
Qed.

Lemma cursor_null p tok last l ts : cursor p tok last l ts → tok = NULL ↔ ts = [].
Proof.
  pose proof (se_pos Hset) as [Hb _]. intros [_ Ht]. destruct ts as [|t ts]; cbn in Ht; [tauto|].
  destruct Ht as (_ & _ & Ht & _). split; [lia|done].
Qed.

Lemma wp_skip_bars arr n : ∀ p tok last l ts (Q : Z * Z → program → Prop),
  cursor p tok last l ts → (length l + 1 < n)%nat →
  (∀ p' tok' last' l', cursor p' tok' last' l' (skip_spec ts) →
     parsing arr arr p p' → u_calls p' = u_calls p → (length l' ≤ length l)%nat → Q (tok', last') p') →
  wp false (skip_bars lit n tok last) Q p.
Proof.
  induction n as [|n IH]; intros p tok last l ts Q Hcur Hn HQ; [lia|]. cbn [skip_bars].
  pose proof (cursor_null _ _ _ _ _ Hcur) as Hnull.
  destruct ts as [|t ts].
  { rewrite decide_True by tauto. wp_step. apply (HQ _ _ _ l); [done|apply parsing_refl|done|lia]. }
  rewrite decide_False by naive_solver. wp_step.
  pose proof Hcur as ((_ & _ & _ & Hla) & -> & Ht & _).
  destruct (strcmp_eq (u_mem p) tok (lit bar) t bar) as (d & Hd & Hd0);
    [done|apply Hla; set_solver|].
  eapply wp_user; [exact Hd|]. cbn [skip_spec] in HQ.
  destruct (decide (t = bar)) as [->|Hne].
  - rewrite decide_True by tauto. wp_step.
    apply (wp_token p NULL last l arr); [by apply Hcur|]. rewrite decide_True by done.
    intros p1 tok1 last1 l1 Hcur1 Hp1 Hb1 Hlen. cbv beta iota.
    destruct l as [|x l].
    + cbn [toks] in *. destruct n as [|n]; [cbn in Hn; lia|]. cbn [skip_bars].
      rewrite decide_True by (by apply (cursor_null _ _ _ _ _ Hcur1)). wp_step.
      eapply HQ; [exact Hcur1|done|done|]. destruct Hcur1 as [_ [_ ->]]. done.
    + eapply IH; [exact Hcur1|cbn [length] in *; destruct Hlen; [lia|done]|].
      intros p2 tok2 last2 l2 Hcur2 Hp2 Hb2 Hlen2. eapply HQ;
        [exact Hcur2|by eapply parsing_trans|by rewrite Hb2|destruct Hlen; [lia|done]].
  - rewrite decide_False by tauto. wp_step. apply (HQ _ _ _ l); [done|apply parsing_refl|done|lia].
Qed.

Lemma wp_find_command t l : ∀ i p (Q : option (nat * Command) → program → Prop),
  cstr (u_mem p) command t → (∀ s, s ∈ c_name <$> l → cstr (u_mem p) (lit s) s) →
  Q (find_spec l i t) p → wp false (find_command lit l i command) Q p.
Proof.
  induction l as [|c l IH]; intros i p Q Ht Hl HQ; cbn [find_command find_spec] in *; [by wp_step|].
  wp_step. destruct (strcmp_eq (u_mem p) (lit (c_name c)) command (c_name c) t) as (d & Hd & Hd0);
    [apply Hl; set_solver|done|].
  eapply wp_user; [exact Hd|]. destruct (decide (c_name c = t)).
  - rewrite decide_True by tauto. by wp_step.
  - rewrite decide_False by tauto. apply IH; [done| |done]. intros s Hs. apply Hl. set_solver.
Qed.

(** ** Arguments *)

(** The block at [q] is one of the shell's and holds the string [t]. *)
Definition points arr p q (t : list Z) : Prop :=
  H ≤ q ∧ q ≠ NULL ∧ cstr (u_mem p) q t ∧
  ∃ n, others arr p !! q = Some n ∧ Z.of_nat (length t) < n.

(** The command holds copies of [args] in the blocks [qs]. *)
Definition holds arr p c args qs : Prop :=
  argc c = 1 + Z.of_nat (length args) ∧ Z.of_nat (length (argv c)) = MAX_ARGUMENT_COUNT ∧
  take (length args) (drop 1 (argv c)) = qs ∧ Forall2 (points arr p) qs args.

Lemma points_parsing arr arr' p p' q t : parsing arr arr' p p' → points arr p q t → points arr' p' q t.
Proof.
  pose proof (se_below Hset) as [Hb1 Hb2].
  intros (_ & Hk & Hs) (Hq & Hq0 & Hc & n & Hn & Hl). do 2 (split; [done|]). split.
  - eapply keeps_cstr; [exact Hk| |done]. intros x Hx. split; [lia|]. split; [lia|].
    right. exists q, n. split; [done|lia].
  - exists n. split; [|done]. by eapply lookup_weaken.
Qed.

Lemma holds_parsing arr arr' p p' c args qs :
  parsing arr arr' p p' → holds arr p c args qs → holds arr' p' c args qs.
Proof.
  intros Hp (Ha & Hl & Ht & Hargs). do 3 (split; [done|]).
  eapply Forall2_impl; [exact Hargs|]. intros q t. by apply points_parsing.
Qed.

(** A new argument. *)
Lemma holds_snoc arr p c args qs q t : holds arr p c args qs →
  Z.of_nat (length args) + 1 < MAX_ARGUMENT_COUNT → points arr p q t →
  holds arr p (set_argc (argc c + 1) (set_argv (argc c) q c)) (args ++ [t]) (qs ++ [q]).
Proof.
  intros (Ha & Hl & Ht & Hargs) Hn Hq. unfold MAX_ARGUMENT_COUNT in *.
  assert (Z.to_nat (argc c) = S (length args)) as Ei by lia.
  split; [cbn; rewrite length_app; cbn; lia|]. split; [cbn; by rewrite length_insert|].
  split; [|apply Forall2_app; [done|by constructor]].
  cbn [argv set_argc set_argv]. rewrite Ei, length_app, Nat.add_1_r, drop_insert_ge by lia.
  rewrite (take_S_r _ _ q).
  - rewrite take_insert_ge by lia. by rewrite Ht.
  - replace (S (length args) - 1)%nat with (length args) by lia.
    apply list_lookup_insert_eq. rewrite length_drop. lia.
Qed.

Definition same_head c c' : Prop :=
  name c' = name c ∧ function c' = function c ∧ isBuiltIn c' = isBuiltIn c ∧
  argv c' !! 0%nat = argv c !! 0%nat.

Lemma set_argv_head i v c : 0 < i → same_head c (set_argv i v c).
Proof. intros Hi. do 3 (split; [done|]). cbn. rewrite list_lookup_insert_ne by lia. done. Qed.

Definition has_array arr p : Prop := is_Some (blocks (u_calls p) !! arr).

(** A new block is not the array, and nothing else of the shell's. *)
Lemma wp_allocMemory arr p n (Q : Z → program → Prop) :
  0 < n → n + 64 ≤ room (u_calls p) → has_array arr p →
  (∀ a p', a ≠ NULL → H ≤ a → a ≠ arr → u_mem p' = u_mem p → has_array arr p' →
     others arr p' = <[a := n]> (others arr p) → others arr p !! a = None →
     others a p' = blocks (u_calls p) →
     (∀ x, own arr p x → x < a ∨ a + n ≤ x) →
     room (u_calls p) - n - 64 ≤ room (u_calls p') → parsing arr arr p p' → Q a p') →
  wp false (allocMemory n) Q p.
Proof.
  intros Hn Hroom [la Harr] HQ. unfold allocMemory, sys_ptr. wp_step.
  destruct (hp_malloc _ _ _ _ Hheap (u_calls p) n (u_mem p))
    as (a & E & Ha0 & Ha & Hmax & Hnew & Hsep & Eb & Er); [done|done|].
  eapply wp_sysc; [exact E|]. wp_step. assert (u64 a = a) as -> by (apply wrapu_small; lia).
  assert (a ≠ arr) as Hne by congruence.
  assert (others arr p !! a = None) as Hfresh by (unfold others; by rewrite lookup_delete_ne).
  set (p' := Program _ _ _ _).
  assert (others arr p' = <[a := n]> (others arr p)) as Eo.
  { unfold others, p'. cbn [u_calls]. rewrite Eb. by rewrite delete_insert_ne. }
  apply HQ; [lia|done|done|done| |done|done| | |done|].
  - unfold has_array, p'. cbn [u_calls]. rewrite Eb, lookup_insert_ne by done. by eexists.
  - unfold others, p'. cbn [u_calls]. rewrite Eb. by rewrite delete_insert_id.
  - intros x [Hx|(b & l & Hb & Hx)]; [lia|]. unfold others in Hb. apply lookup_delete_Some in Hb as [_ Hb].
    destruct (Hsep b l Hb); lia.
  - split; [|split; [done|]].
    + eexists [_]. split; [done|]. constructor; [|done]. eexists 32, _. split; [done|by left].
    + rewrite Eo. by apply insert_subseteq.
Qed.

(** Copying a token to a place off the line. *)
Lemma wp_copy_string p tok last l t ts dest (Q : unit → program → Prop) :
  cursor p tok last l (t :: ts) →
  buffer + MAX_BUFFER_SIZE ≤ dest ∨ dest + Z.of_nat (length t) < buffer →
  (∀ m, cstr m dest t →
     (∀ x, x < dest ∨ dest + Z.of_nat (length t) < x → m !! x = u_mem p !! x) →
     Q tt (set_u_mem m p)) →
  wp false (copy_string dest tok) Q p.
Proof.
  intros ((_ & _ & Hhi & _) & _ & Ht & Hlo & Hend) Hd HQ. unfold copy_string. wp_step.
  destruct (strcpy_loop_spec t (S (size (u_mem p))) (u_mem p) dest tok 0) as (m & E & Hm & Hk);
    [by rewrite Z.add_0_r|by eapply cstr_fuel|destruct Hend as [?|[? ->]]; cbn in *; lia|].
  rewrite ?Z.add_0_r in *. eapply wp_user; [exact E|]. wp_step. by apply HQ.
Qed.

Lemma toupper_bar t : _toupper <$> t = _toupper <$> bar ↔ t = bar.
Proof.
  split; [|by intros ->]. change (_toupper <$> bar) with [124].
  destruct t as [|c [|d t]]; cbn [fmap list_fmap]; [done| |done]. intros [= Hc]. unfold bar. f_equal.
  unfold _toupper in Hc. destruct (decide (97 ≤ c ≤ 122)); lia.
Qed.

(** The new blocks between two states. *)
Definition added arr arr' p p' qs : Prop :=
  dom (others arr' p') = dom (others arr p) ∪ list_to_set qs ∧ NoDup qs ∧
  ∀ q, q ∈ qs → q ∉ dom (others arr p).

Lemma added_trans arr1 arr2 arr3 p1 p2 p3 qs1 qs2 :
  added arr1 arr2 p1 p2 qs1 → added arr2 arr3 p2 p3 qs2 → added arr1 arr3 p1 p3 (qs1 ++ qs2).
Proof.
  intros (D1 & N1 & F1) (D2 & N2 & F2). rewrite D1 in F2. split; [|split].
  - rewrite D2, D1, list_to_set_app_L. by rewrite assoc_L by apply _.
  - apply NoDup_app. split; [done|]. split; [|done]. intros q H1 H2. apply (F2 q H2).
    apply elem_of_union_r. by apply elem_of_list_to_set.
  - intros q [Hq|Hq]%elem_of_app; [by apply F1|]. intros Hd. apply (F2 q Hq). by apply elem_of_union_l.
Qed.

Lemma others_calls arr p p' : u_calls p' = u_calls p → others arr p' = others arr p.
Proof. unfold others. by intros ->. Qed.

Lemma added_same arr p p' : u_calls p' = u_calls p → added arr arr p p' [].
Proof.
  intros E. split; [|split; [constructor|by intros q Hq%elem_of_nil]].
  rewrite (others_calls _ _ _ E). symmetry. apply union_empty_r_L.
Qed.

Lemma added_one arr p p' q n :
  others arr p !! q = None → others arr p' = <[q := n]> (others arr p) → added arr arr p p' [q].
Proof.
  intros Hq E. split; [|split; [apply NoDup_singleton|]].
  - rewrite E, dom_insert_L. cbn. clear. set_solver.
  - intros q' ->%list_elem_of_singleton. by apply not_elem_of_dom.
Qed.


(** The state after the token at [a] was copied to the new block [q]. *)
Lemma argument_copied arr p p1 q a last l t m2 :
  let p2 := set_u_mem m2 p1 in
  cursor p a last l (t :: toks l) → H ≤ q → q ≠ NULL → parsing arr arr p p1 → u_mem p1 = u_mem p →
  others arr p1 = <[q := Z.of_nat (length t) + 1]> (others arr p) →
  (∀ x, own arr p x → x < q ∨ q + (Z.of_nat (length t) + 1) ≤ x) → cstr m2 q t →
  (∀ x, x < q ∨ q + Z.of_nat (length t) < x → m2 !! x = u_mem p1 !! x) →
  parsing arr arr p p2 ∧ cursor p2 a last l (t :: toks l) ∧ points arr p2 q t.
Proof.
  intros p2 Hcur HqH Hq0 Hp1 Hm1 Eo Hsep Ht Hk.
  assert (keeps 0 0 (own arr p) (u_mem p) m2) as Hkeep.
  { intros x (_ & _ & Hx). apply Hsep in Hx. rewrite Hk by lia. by rewrite Hm1. }
  split; [|split].
  - destruct Hp1 as ((cs & E & Hcs) & _ & Hb). split; [|split; [|done]].
    + exists cs. split; [|done]. unfold p2. by rewrite E.
    + eapply keeps_weaken; [exact Hkeep|left; lia|done].
  - apply (cursor_keeps p _ 0 0 (own arr p)); [split; [by left|apply own_low]|done|done|done].
  - do 3 (split; [done|]). exists (Z.of_nat (length t) + 1). split; [|lia].
    change (others arr p2) with (others arr p1). rewrite Eo. apply lookup_insert_eq.
Qed.

Lemma wp_parse_args arr n : ∀ p a last l ts c args qs (Q : Z * ParsedCommand * Z → program → Prop),
  has_array arr p → cursor p a last l ts → (length l + length (take 1 ts) < n)%nat →
  holds arr p c args qs → (length args ≤ 8)%nat → need ts ≤ room (u_calls p) →
  (∀ p' c' last' l' new_qs, let '(new, rest) := args_spec (8 - length args) ts in
     rest_is p' last' l' → toks l' = rest → (length l' ≤ length l)%nat → parsing arr arr p p' →
     has_array arr p' → room (u_calls p) - need ts ≤ room (u_calls p') - need rest →
     holds arr p' c' (args ++ new) (qs ++ new_qs) → added arr arr p p' new_qs → same_head c c' →
     Q (1, c', last') p') →
  wp false (parse_args fuel lit n a last c) Q p.
Proof.
  induction n as [|n IH]; intros p a last l ts c args qs Q HA Hcur Hn Hc Hlen Hroom HQ; [lia|].
  cbn [parse_args]. pose proof (cursor_null _ _ _ _ _ Hcur) as Hnull.
  assert (∀ rest, args_spec (8 - length args) ts = ([], rest) → toks l = rest →
    need rest ≤ need ts → Q (1, c, last) p) as Hstop.
  { intros rest Espec Etoks Hneed. specialize (HQ p c last l []). rewrite Espec, !app_nil_r in HQ.
    apply HQ; [by apply Hcur|done|done|apply parsing_refl|done|lia|done|by apply added_same|done]. }
  destruct ts as [|t ts].
  { rewrite decide_True by tauto. wp_step. pose proof Hcur as [_ [_ ->]]. by apply (Hstop []). }
  rewrite decide_False by naive_solver. wp_step.
  pose proof Hcur as (Hr & -> & Ht & _). pose proof Hr as (_ & _ & _ & Hla).
  destruct (strcasecmp_eq (u_mem p) a (lit bar) t bar) as (d & Hd & Hd0);
    [done|apply Hla; set_solver|].
  rewrite toupper_bar in Hd0. eapply wp_user; [exact Hd|]. cbn [args_spec need] in *.
  pose proof Hc as (Hargc & _ & _). pose proof (need_nonneg (toks l)) as Hneed.
  destruct (decide (t = bar)) as [->|Hne].
  { rewrite decide_True by tauto. wp_step. apply (Hstop (toks l)); [done|done|lia]. }
  destruct (8 - length args)%nat as [|left] eqn:Eleft.
  { rewrite decide_True by (right; unfold MAX_ARGUMENT_COUNT; lia). wp_step.
    apply (Hstop (toks l)); [done|done|lia]. }
  clear Hstop. rewrite decide_False by (unfold MAX_ARGUMENT_COUNT; intros [?|?]; [tauto|lia]).
  wp_step. eapply wp_user.
  { apply (strlen_loop_spec (u_mem p) t); [by rewrite Z.add_0_r|by eapply cstr_fuel]. }
  rewrite Z.add_0_l. wp_step. apply (wp_allocMemory arr); [lia|lia|done|].
  intros q p1 Hq0 HqH Hqa Hm1 HA1 Eo1 Hnew _ Hsep Hroom1 Hp1. rewrite decide_False by done. wp_step.
  pose proof (se_below Hset) as [Hbelow _].
  assert (cursor p1 a last l (t :: toks l)) as Hcur1.
  { apply (cursor_keeps p p1 0 0 (λ _, True)); [split; [by left|done]|done| |done]. by rewrite Hm1. }
  eapply wp_copy_string; [exact Hcur1|left; lia|]. intros m2 Ht2 Hk2. wp_step.
  destruct (argument_copied arr p p1 q a last l t m2) as (Hp2 & Hcur2 & Hpts); [done..|].
  set (p2 := set_u_mem m2 p1) in *.
  apply (wp_token p2 NULL last l arr); [by apply Hcur2|].
  rewrite decide_True by done. intros p3 a3 last3 l3 Hcur3 Hp3 Hb3 Hlen3. cbv beta iota.
  pose proof (parsing_trans _ _ _ _ _ _ Hp2 Hp3) as Hp.
  assert (others arr p3 = <[q := Z.of_nat (length t) + 1]> (others arr p)) as Eo3.
  { by rewrite <-Eo1, (others_calls arr p2 p3). }
  assert (holds arr p3 (set_argc (argc (set_argv (argc c) q c) + 1) (set_argv (argc c) q c))
    (args ++ [t]) (qs ++ [q])) as Hc3.
  { cbn [argc set_argv]. apply holds_snoc; [by eapply holds_parsing|unfold MAX_ARGUMENT_COUNT; lia|].
    by apply (points_parsing arr arr p2). }
  eapply (IH p3 a3 last3 l3 (toks l) _ (args ++ [t]) (qs ++ [q]));
    [unfold has_array; by rewrite Hb3|done| |done|rewrite length_app; cbn; lia|rewrite Hb3; cbn; lia|].
  { cbn [length take] in Hn. rewrite length_take. destruct Hlen3 as [? | ->]; [lia|].
    destruct Hcur3 as [_ [_ ->]]. cbn. lia. }
  intros p' c' last' l' new_qs. rewrite length_app. cbn [length].
  replace (8 - (length args + 1))%nat with left by lia. specialize (HQ p' c' last' l' (q :: new_qs)).
  destruct (args_spec left (toks l)) as [new rest]. cbv beta iota in HQ |- *.
  rewrite <-!app_assoc. cbn [app]. rewrite Hb3. change (u_calls p2) with (u_calls p1).
  intros H1 H2 H3 H4 H5 H6 H7 H8 (Hn1 & Hn2 & Hn3 & Hn4).
  apply HQ; [done|done| |by eapply parsing_trans|done|lia|done| |].
  - destruct Hlen3 as [? | ->]; [lia|]. destruct Hcur3 as [_ [_ ->]]. done.
  - apply (added_trans arr arr arr p p3 p' [q] new_qs); [by eapply added_one|done].
  - split; [done|]. split; [done|]. split; [done|]. rewrite Hn4. apply set_argv_head. lia.
Qed.

(** ** Commands *)

Definition command_is arr p c (x : nat * Command * list (list Z)) qs : Prop :=
  let '(i, cmd, args) := x in
  function c = i ∧ isBuiltIn c = c_isBuiltIn cmd ∧ name c = lit (c_name cmd) ∧
  argv c !! 0%nat = Some (lit (c_name cmd)) ∧ holds arr p c args qs ∧
  argv c !! S (length args) = Some NULL.

Lemma command_is_parsing arr arr' p p' c x qs :
  parsing arr arr' p p' → command_is arr p c x qs → command_is arr' p' c x qs.
Proof.
  destruct x as [[i cmd] args]. intros Hp (? & ? & ? & ? & Hh & ?).
  do 4 (split; [done|]). split; [by eapply holds_parsing|done].
Qed.

Lemma args_spec_length n ts : (length (args_spec n ts).1 ≤ n)%nat.
Proof.
  revert n. induction ts as [|t ts IH]; intros n; cbn [args_spec]; [cbn; lia|].
  destruct (decide (t = bar)); [cbn; lia|]. destruct n as [|n]; [cbn; lia|].
  specialize (IH n). destruct (args_spec n ts). cbn in *. lia.
Qed.

Lemma holds_end arr p c args qs : holds arr p c args qs → (length args ≤ 8)%nat →
  holds arr p (set_argv (argc c) NULL c) args qs ∧
  argv (set_argv (argc c) NULL c) !! S (length args) = Some NULL.
Proof.
  intros (Ha & Hl & Ht & Hargs) Hn. unfold MAX_ARGUMENT_COUNT in Hl. cbn [argv set_argv].
  assert (Z.to_nat (argc c) = S (length args)) as Ei by lia. rewrite Ei.
  split; [|by rewrite list_lookup_insert_eq by lia].
  split; [done|]. split; [cbn; by rewrite length_insert|]. split; [|done].
  cbn [argv set_argv]. rewrite Ei, drop_insert_ge, take_insert_ge by lia. done.
Qed.

(** Copying the first token to [command]. *)
Lemma wp_copy_command arr p tok last l t ts (Q : unit → program → Prop) :
  cursor p tok last l (t :: ts) → Z.of_nat (length t) < MAX_ARGUMENT_SIZE →
  (∀ p', cursor p' tok last l (t :: ts) → parsing arr arr p p' → u_calls p' = u_calls p →
     cstr (u_mem p') command t → Q tt p') →
  wp false (copy_string command tok) Q p.
Proof.
  intros Hcur Ht HQ. pose proof (se_apart Hset) as Ha.
  eapply wp_copy_string; [exact Hcur|lia|]. intros m Hc Hk.
  assert (keeps 0 0 (own arr p) (u_mem p) m) as Hkeep.
  { intros x (_ & Hx & _). apply Hk. lia. }
  apply HQ; [|apply parsing_mem|done|done].
  - by eapply (cursor_keeps p _ 0 0 (own arr p)); [split; [by left|apply own_low]| | |].
  - eapply keeps_weaken; [exact Hkeep|left; lia|done].
Qed.

(** The tokens from the name of the command on. *)
Lemma skip_need ts : need (skip_spec ts) ≤ need ts ∧
  (Forall (λ t, Z.of_nat (length t) < MAX_ARGUMENT_SIZE) ts →
   Forall (λ t, Z.of_nat (length t) < MAX_ARGUMENT_SIZE) (skip_spec ts)).
Proof.
  induction ts as [|t ts [IH1 IH2]]; [done|]. cbn [skip_spec].
  destruct (decide (t = bar)); [|by split]. split; [cbn [need]; lia|].
  intros [_ Hts]%Forall_cons. by apply IH2.
Qed.

Lemma wp_parse_command arr p buf last l c (Q : Z * ParsedCommand * Z → program → Prop) :
  let start := if decide (buf = NULL) then last else buf in
  let ts := if decide (buf = NULL) then toks l else tokens [32] l in
  has_array arr p → rest_is p start l → Z.of_nat (length (argv c)) = MAX_ARGUMENT_COUNT →
  Forall (λ t, Z.of_nat (length t) < MAX_ARGUMENT_SIZE) ts → need ts ≤ room (u_calls p) →
  match one_spec ts with
  | None => ∀ p' last', parsing arr arr p p' → u_calls p' = u_calls p → Q (-1, c, last') p'
  | Some (i, cmd, args, rest) => ∀ p' c' last' l' qs, rest_is p' last' l' → toks l' = rest →
      parsing arr arr p p' → has_array arr p' → added arr arr p p' qs →
      room (u_calls p) - need ts + 2 ^ 18 ≤ room (u_calls p') - need rest →
      command_is arr p' c' (i, cmd, args) qs → Q (1, c', last') p'
  end → wp false (parse_command fuel lit command buf last c) Q p.
Proof.
  intros start ts HA Hrest Hargv Hshort Hroom HQ. unfold parse_command. wp_step.
  pose proof Hrest as (_ & Hlo & Hhi & _). unfold MAX_BUFFER_SIZE in Hhi.
  apply (wp_token p buf last l arr); [done|]. fold ts. intros p1 tok last1 l1 Hcur1 Hp1 Hb1 Hlen1.
  pose proof (cursor_null _ _ _ _ _ Hcur1) as Hnull. cbv beta iota.
  destruct (decide (tok = NULL)) as [Et|Et].
  { apply Hnull in Et. rewrite Et in HQ. cbn in HQ. wp_step. by apply HQ. }
  wp_step. assert (length l1 + 1 < parse_fuel)%nat as Hfuel.
  { change parse_fuel with 1025%nat. destruct Hlen1 as [? | ->]; [lia|].
    destruct Hcur1 as ((_ & ? & ? & _) & _). unfold MAX_BUFFER_SIZE in *. lia. }
  eapply (wp_skip_bars arr); [exact Hcur1|done|].
  intros p2 tok2 last2 l2 Hcur2 Hp2 Hb2 Hlen2. pose proof (parsing_trans _ _ _ _ _ _ Hp1 Hp2) as Hp12.
  pose proof (cursor_null _ _ _ _ _ Hcur2) as Hnull2. unfold one_spec in HQ. cbv beta iota.
  destruct (skip_need ts) as [Hneed Hshort2]. specialize (Hshort2 Hshort).
  assert (u_calls p2 = u_calls p) as Hcalls2 by congruence.
  destruct (skip_spec ts) as [|t rest] eqn:Eskip.
  { rewrite decide_True by tauto. wp_step. by apply HQ. }
  rewrite decide_False by naive_solver. wp_step. apply Forall_cons in Hshort2 as [Ht2 _].
  eapply (wp_copy_command arr); [exact Hcur2|done|].
  intros p3 Hcur3 Hp3 Hcalls3 Hcmd. pose proof (parsing_trans _ _ _ _ _ _ Hp12 Hp3) as Hp.
  rewrite Hcalls2 in Hcalls3. pose proof Hcur3 as ((_ & _ & _ & Hla) & Hrest3 & _).
  destruct t as [|x t].
  { apply cstr_nil in Hcmd. wp_step. unfold rd. wp_step. rewrite decide_True by done. wp_step.
    rewrite decide_True in HQ by done. by apply HQ. }
  pose proof Hcmd as (Hx & Hx0 & _)%cstr_cons. wp_step. unfold rd. wp_step.
  rewrite decide_False by done. rewrite decide_False in HQ by done. wp_step.
  apply (wp_find_command (x :: t));
    [done|intros s Hs; by apply Hla, elem_of_cons; right; apply elem_of_cons; right|].
  destruct (find_spec commands 0 (x :: t)) as [[i cmd]|]; cbn [mbind option_bind] in HQ;
    [|wp_step; by apply HQ].
  wp_step. apply (wp_token p3 NULL last2 l2 arr); [by apply Hcur3|]. rewrite decide_True by done.
  intros p4 a last4 l4 Hcur4 Hp4 Hb4 Hlen4. wp_step. rewrite <-Hrest3 in Hcur4.
  rewrite Hcalls3 in Hb4. set (c0 := set_argv 0 _ _).
  assert (holds arr p4 c0 [] []) as Hc0.
  { split; [done|]. split; [cbn; by rewrite length_insert|]. by split. }
  cbn [need] in Hneed. pose proof (need_nonneg rest) as Hnn.
  eapply (wp_parse_args arr _ _ _ _ _ _ _ [] []);
    [unfold has_array; by rewrite Hb4|exact Hcur4| |done|cbn; lia|rewrite Hb4; lia|].
  { rewrite length_take. destruct Hlen4 as [? | ->]; [lia|].
    assert (length l4 = 0%nat) by (rewrite Hrest3 in Hcur4; destruct Hcur4 as [_ [_ ->]]; done). lia. }
  intros p5 c5 last5 l5 qs. cbn [length Nat.sub app].
  pose proof (args_spec_length 8 rest) as Hl8. destruct (args_spec 8 rest) as [args rest'].
  rewrite Hb4. intros Hrest5 Etoks _ Hp5 HA5 Hbudget Hc5 Hadd (Hn1 & Hn2 & Hn3 & Hn4). cbv beta iota.
  rewrite decide_False by done. wp_step.
  eapply HQ; [exact Hrest5|done| |done| |lia|].
  - eapply parsing_trans; [exact Hp|]. by eapply parsing_trans.
  - unfold added in Hadd |- *. by rewrite (others_calls arr p p4) in Hadd.
  - destruct (holds_end arr p5 c5 args qs Hc5 Hl8) as [Hh Hnull5].
    split; [done|]. split; [done|]. split; [done|]. split; [|by split].
    destruct (set_argv_head (argc c5) NULL c5) as (_ & _ & _ & E); [destruct Hc5; lia|].
    cbn [argv]. rewrite E, Hn4. cbn. rewrite list_lookup_insert_eq; [done|].
    unfold MAX_ARGUMENT_COUNT in Hargv. lia.
Qed.

(** ** The whole line *)

Lemma skip_suffix ts : ∃ pre, ts = pre ++ skip_spec ts.
Proof.
  induction ts as [|t ts [pre IH]]; [by exists []|]. cbn [skip_spec].
  destruct (decide (t = bar)); [|by exists []]. exists (t :: pre). cbn. by rewrite <-IH.
Qed.

Lemma args_suffix ts : ∀ n, ∃ pre, ts = pre ++ (args_spec n ts).2.
Proof.
  induction ts as [|t ts IH]; intros n; cbn [args_spec]; [by exists []|].
  destruct (decide (t = bar)); [by exists [t]|]. destruct n as [|n]; [by exists [t]|].
  destruct (IH n) as [pre E]. destruct (args_spec n ts). exists (t :: pre). cbn in *. by rewrite <-E.
Qed.

Lemma one_suffix ts x rest : one_spec ts = Some (x, rest) → ∃ t pre, ts = t :: pre ++ rest.
Proof.
  unfold one_spec. destruct (skip_suffix ts) as [pre Epre].
  destruct (skip_spec ts) as [|t rest1]; [done|]. destruct (decide (t = [])); [done|].
  destruct (args_suffix rest1 8) as [pre2 Epre2].
  destruct (find_spec commands 0 t) as [[i c]|]; [|done]. cbn [mbind option_bind].
  destruct (args_spec 8 rest1) as [args rest2]. intros [= _ <-]. cbn in Epre2.
  destruct pre as [|t0 pre]; cbn in Epre; rewrite Epre, Epre2; [by exists t, pre2|].
  exists t0, (pre ++ t :: pre2). by rewrite <-app_assoc.
Qed.

(** Releasing the old array once there is a new one. *)
Lemma wp_free_array arr a p (Q : unit → program → Prop) :
  a ≠ arr → has_array arr p → has_array a p →
  (∀ p', u_mem p' = u_mem p → has_array a p' → others a p' = delete arr (others a p) →
     room (u_calls p) ≤ room (u_calls p') →
     (∃ cs, p' = Program (u_mem p') (u_buffer p) (u_reads p) (u_calls p ++ cs) ∧
        Forall heap_call cs) → Q tt p') →
  wp false (freeMemory arr) Q p.
Proof.
  intros Hne [n Harr] Ha HQ. unfold freeMemory, sys_void. wp_step.
  destruct (hp_free _ _ _ _ Hheap (u_calls p) arr n (u_mem p) Harr) as (r & E & Eb & Er).
  eapply wp_sysc; [exact E|]. wp_step. set (p' := Program _ _ _ _).
  apply HQ; [done| | |done|].
  - unfold has_array, p'. cbn [u_calls]. by rewrite Eb, lookup_delete_ne.
  - unfold others, p'. cbn [u_calls]. by rewrite Eb, delete_delete.
  - eexists [_]. split; [done|]. constructor; [|done]. eexists 33, _. split; [done|by right].
Qed.

(** The array has room, comes in fives, and its entries hold ten pointers. *)
Definition fits (parsed : Z) (s : shell) : Prop :=
  0 ≤ parsed < parsed_commands_dim s ∧ parsed_commands_dim s mod 5 = 0 ∧
  Forall (λ c, Z.of_nat (length (argv c)) = MAX_ARGUMENT_COUNT) (parsedCommands s).
Definition same_shell (s s' : shell) : Prop :=
  buffer_dim s' = buffer_dim s ∧ command_history_last s' = command_history_last s ∧
  last_command_arrowed s' = last_command_arrowed s.

Lemma wp_grow p parsed s (Q : option shell → program → Prop) :
  let arr := parsed_array s in
  Z.of_nat (length (argv garbage)) = MAX_ARGUMENT_COUNT →
  has_array arr p → 2 ^ 18 ≤ room (u_calls p) → fits parsed s → parsed < 2048 →
  (∀ p' s', let arr' := parsed_array s' in
     u_mem p' = u_mem p → parsing arr arr' p p' → has_array arr' p' → added arr arr' p p' [] →
     room (u_calls p) - 2 ^ 18 ≤ room (u_calls p') → fits (parsed + 1) s' →
     same_shell s s' → last s' = last s → parsedCommands s `prefix_of` parsedCommands s' →
     Q (Some s') p') →
  wp false (grow fuel lit garbage (parsed + 1) s) Q p.
Proof.
  intros arr Hg HA Hroom (Hp & Hm & Hall) Hsmall HQ. unfold grow, PARSED_SIZE.
  case_decide as Hd.
  - wp_step. apply (wp_allocMemory arr); [lia|lia|done|].
    intros a p1 Ha _ Hne Hm1 HA1 Eo1 Hfresh Ea1 _ Hr1 [(cs1 & E1 & Hcs1) _].
    rewrite decide_False by done. wp_step. apply (wp_free_array arr a); [done|done| |].
    { assert (others arr p1 !! a ≠ None) as Hin by (rewrite Eo1, lookup_insert_eq; done).
      unfold others in Hin. rewrite lookup_delete_ne in Hin by done.
      unfold has_array. by destruct (blocks (u_calls p1) !! a). }
    intros p2 Hm2 HA2 Eo2 Hr2 (cs2 & E2 & Hcs2). wp_step.
    assert (others a p2 = others arr p) as Eo by (rewrite Eo2, Ea1; done).
    apply HQ; [by rewrite Hm2| |done| |lia| |done|done|by eexists].
    + split; [|split; [|change (others arr p ⊆ others a p2); by rewrite Eo]].
      * exists (cs1 ++ cs2). split; [|by apply Forall_app]. rewrite E2, E1. cbn. by rewrite app_assoc.
      * intros x _. by rewrite Hm2, Hm1.
    + split; [|split; [constructor|by intros q Hq%elem_of_nil]].
      change (dom (others a p2) = dom (others arr p) ∪ ∅). by rewrite Eo, union_empty_r_L.
    + unfold fits, parsed_commands_dim in *. cbn. rewrite length_app. cbn.
      split; [lia|]. rewrite Nat2Z.inj_add. change (Z.of_nat 5) with (1 * 5).
      rewrite Z_mod_plus_full. split; [done|]. apply Forall_app. split; [done|]. by repeat constructor.
  - wp_step. apply HQ; [done|apply parsing_refl|done|by apply added_same|lia| |done|done|done].
    split; [|by split]. rewrite Z.rem_mod_nonneg in Hd by lia. split; [lia|].
    apply dec_stable. intros Hge. apply Hd. assert (parsed + 1 = parsed_commands_dim s) as -> by lia.
    split; [done|lia].
Qed.

(** The first commands of the array are those of the line, their arguments in
    the blocks [qss]. *)
Definition parsed_as arr p (xs : list (nat * Command * list (list Z))) (qss : list (list Z))
    (cs : list ParsedCommand) : Prop :=
  length qss = length xs ∧
  ∀ i x qs, xs !! i = Some x → qss !! i = Some qs →
    ∃ c, cs !! i = Some c ∧ command_is arr p c x qs.

Lemma parsed_as_more arr arr' p p' xs qss cs cs' :
  parsing arr arr' p p' → cs `prefix_of` cs' → parsed_as arr p xs qss cs →
  parsed_as arr' p' xs qss cs'.
Proof.
  intros Hp [tl ->] [Hl Hx]. split; [done|]. intros i x qs Hi Hq.
  destruct (Hx i x qs Hi Hq) as (c & Hc & Hr).
  exists c. split; [by apply lookup_app_l_Some|by eapply command_is_parsing].
Qed.

Lemma parsed_as_insert arr p xs qss cs c : (length xs < length cs)%nat → parsed_as arr p xs qss cs →
  parsed_as arr p xs qss (<[length xs := c]> cs) ∧
  ∀ x qs, command_is arr p c x qs →
    parsed_as arr p (xs ++ [x]) (qss ++ [qs]) (<[length xs := c]> cs).
Proof.
  intros Hlt [Hl Hx]. assert (parsed_as arr p xs qss (<[length xs := c]> cs)) as [_ Hx'].
  { split; [done|]. intros i x qs Hi Hq. apply lookup_lt_Some in Hi as Hli.
    rewrite list_lookup_insert_ne by lia. by apply Hx. }
  split; [by split|]. intros x qs Hc. split; [by rewrite !length_app, Hl|].
  intros i y qs' Hi Hq. destruct (decide (i < length xs)%nat).
  - rewrite !lookup_app_l in * by lia. by apply Hx'.
  - rewrite !lookup_app_r in * by lia. rewrite Hl in Hq.
    destruct (i - length xs)%nat eqn:Ei; [|done]. injection Hi as ->. injection Hq as ->.
    assert (i = length xs) as -> by lia. exists c. by rewrite list_lookup_insert_eq.
Qed.

Lemma wp_parse_loop n : ∀ p s l ts don qss (Q : option (Z * shell) → program → Prop),
  let parsed := Z.of_nat (length don) in
  let start := if decide (parsed = 0) then buffer else last s in
  let arr := parsed_array s in
  ts = (if decide (parsed = 0) then tokens [32] l else toks l) →
  Z.of_nat (length (argv garbage)) = MAX_ARGUMENT_COUNT →
  has_array arr p → rest_is p start l → fits parsed s → parsed + Z.of_nat (length ts) < 2048 →
  Forall (λ t, Z.of_nat (length t) < MAX_ARGUMENT_SIZE) ts → need ts ≤ room (u_calls p) →
  (length ts < n)%nat → parsed_as arr p don qss (parsedCommands s) →
  (∀ p' s' new, let arr' := parsed_array s' in
     parsing arr arr' p p' → has_array arr' p' → same_shell s s' →
     fits (parsed + Z.of_nat (length (line_spec n ts))) s' →
     parsed_as arr' p' (don ++ line_spec n ts) (qss ++ new) (parsedCommands s') →
     added arr arr' p p' (concat new) →
     Q (Some (parsed + Z.of_nat (length (line_spec n ts)), s')) p') →
  wp false (parse_loop fuel lit garbage buffer command n parsed s) Q p.
Proof.
  induction n as [|n IH]; intros p s l ts don qss Q parsed start arr Ets Hg HA Hrest Hfits Hmany
    Hshort Hroom Hn Hdone HQ; [lia|]. cbn [parse_loop line_spec] in *.
  destruct Hfits as (Hp & Hm & Hall). unfold parsed_commands_dim in Hp.
  destruct (lookup_lt_is_Some_2 (parsedCommands s) (length don)) as [c Hc]; [lia|].
  pose proof (proj1 (Forall_lookup _ _) Hall _ _ Hc) as Hargv. pose proof (se_pos Hset) as [Hb0 _].
  wp_step. unfold parsed at 1. rewrite Nat2Z.id. eapply wp_kopt; [exact Hc|]. wp_step.
  set (buf := if decide (parsed = 0) then buffer else NULL).
  assert ((if decide (buf = NULL) then last s else buf) = start ∧
    (if decide (buf = NULL) then toks l else tokens [32] l) = ts) as [Estart Ets'].
  { unfold buf, start. subst ts. destruct (decide (parsed = 0)).
    - rewrite !decide_False by lia. done.
    - by rewrite !decide_True. }
  apply (wp_parse_command arr p buf (last s) l c); rewrite ?Estart, ?Ets'; [done..|].
  pose proof (one_suffix ts) as Hsuffix.
  destruct (parsed_as_insert arr p don qss (parsedCommands s) c) as [Hsame _]; [lia|done|].
  destruct (one_spec ts) as [[[[i cmd] args] rest]|].
  2: { intros p' last' Hp' Ecalls. rewrite decide_True by done. wp_step. cbn [app length] in HQ.
       rewrite app_nil_r, Z.add_0_r in HQ. specialize (HQ p' (set_last last' (set_parsed
         (<[Z.to_nat parsed := c]> (parsedCommands s)) s)) []). rewrite app_nil_r in HQ.
       apply HQ; [done|unfold has_array; by rewrite Ecalls|done| | |].
       - split; [|split]; unfold parsed_commands_dim; cbn; rewrite ?length_insert; [done..|].
         by apply Forall_insert.
       - cbn. unfold parsed. rewrite Nat2Z.id. by eapply parsed_as_more.
       - by apply added_same. }
  destruct (Hsuffix (i, cmd, args) rest) as (t & pre & Esuf); [done|]. clear Hsuffix.
  intros p1 c1 last1 l1 qs Hrest1 Etoks1 Hp1 HA1 Hadd1 Hb1 Hc1. rewrite decide_False by done.
  wp_step. assert (length ts = S (length pre) + length rest)%nat as Elen.
  { rewrite Esuf. cbn. by rewrite length_app. }
  pose proof (need_nonneg rest) as Hnn. set (s1 := set_last _ _).
  assert (fits parsed s1) as Hfits1.
  { split; [|split].
    - unfold parsed_commands_dim. cbn. rewrite length_insert. lia.
    - unfold parsed_commands_dim. cbn. by rewrite length_insert.
    - cbn. apply Forall_insert; [done|]. by destruct Hc1 as (_ & _ & _ & _ & (_ & ? & _) & _). }
  apply wp_grow; [done|done|lia|done|lia|].
  intros p2 s2 arr2 Hm2 Hp2 HA2 Hadd2 Hb2 Hfits2 Hsame2 Hlast2 Hpre2.
  change (parsed_array s1) with arr in Hp2, Hadd2.
  assert (parsed + 1 = Z.of_nat (length (don ++ [(i, cmd, args)]))) as Enext.
  { rewrite length_app. cbn. lia. }
  rewrite Enext. eapply (IH p2 s2 l1 rest (don ++ [(i, cmd, args)]) (qss ++ [qs])); rewrite <-?Enext.
  - by rewrite decide_False by lia.
  - done.
  - done.
  - rewrite decide_False by lia. rewrite Hlast2. unfold rest_is. by rewrite Hm2.
  - done.
  - lia.
  - rewrite Esuf in Hshort. apply Forall_cons in Hshort as [_ Hshort].
    by apply Forall_app in Hshort as [_ Hshort].
  - lia.
  - lia.
  - destruct (parsed_as_insert arr p1 don qss (parsedCommands s) c1) as [_ Hins]; [lia| |].
    + by eapply parsed_as_more.
    + eapply parsed_as_more; [exact Hp2|exact Hpre2|]. cbn. unfold parsed. rewrite Nat2Z.id.
      by apply Hins.
  - intros p' s' new Hp' HA' Hsame' Hfits' Hx' Hadd'. cbn [length] in HQ.
    rewrite <-!app_assoc in Hx'. specialize (HQ p' s' (qs :: new)).
    replace (parsed + Z.of_nat (S (length (line_spec n rest))))
      with (parsed + 1 + Z.of_nat (length (line_spec n rest))) in HQ by lia.
    apply HQ; [by eapply parsing_trans; [|eapply parsing_trans]|done| |done|done|].
    + destruct Hsame2 as (? & ? & ?), Hsame' as (? & ? & ?). cbn in *.
      split; [congruence|]. split; congruence.
    + cbn [concat]. eapply added_trans; [exact Hadd1|]. by eapply (added_trans _ _ _ _ _ _ []).
Qed.

Lemma tokens_need ds l : need (tokens ds l) ≤ (2 ^ 18 + 1) * (Z.of_nat (length l) + 1) ∧
  (length (tokens ds l) ≤ S (length l))%nat.
Proof.
  remember (length l) as n eqn:En. revert l En. induction n as [n IH] using lt_wf_ind.
  intros l ->. destruct (cut_delim ds l) as [Hn|(a & d & b & -> & Ha & Hin)].
  - rewrite tokens_plain by done. cbn [need length]. split; lia.
  - rewrite tokens_cut by done. rewrite length_app. cbn [need length].
    assert (need (match b with [] => [] | _ => tokens ds b end) ≤
      (2 ^ 18 + 1) * (Z.of_nat (length b) + 1) ∧
      (length (match b with [] => [] | _ => tokens ds b end) ≤ S (length b))%nat) as [H1 H2].
    { destruct b; [cbn; lia|]. apply IH; [rewrite length_app; cbn; lia|done]. }
    split; lia.
Qed.

(** Half the kernel's memory is enough for any line. *)
Lemma need_line l : Z.of_nat (length l) < MAX_BUFFER_SIZE →
  need (tokens [32] l) ≤ 2 ^ 28 + 2 ^ 11.
Proof. intros Hl. destruct (tokens_need [32] l) as [Hn _]. unfold MAX_BUFFER_SIZE in Hl. lia. Qed.

(** C12: The loop over [parse_command] ends, and the commands it leaves in the
    array are those of the line, each with its name, its arguments copied to
    new blocks of the heap and a final null pointer; these are the only new
    blocks of the shell, and it makes no system call other than allocations
    and releases.  The memory that must be left is what the tokens of the line
    [need], at most 2^28 + 2^11 bytes. *)
Theorem parse_line_correct p s l (Hline : cstr (u_mem p) buffer l)
    (Hlen : Z.of_nat (length l) < MAX_BUFFER_SIZE) (Hlits : layout (u_mem p))
    (Hshort : Forall (λ t, Z.of_nat (length t) < MAX_ARGUMENT_SIZE) (tokens [32] l))
    (Hg : Z.of_nat (length (argv garbage)) = MAX_ARGUMENT_COUNT) (Hfits : fits 0 s)
    (Harr : has_array (parsed_array s) p) (Hroom : need (tokens [32] l) ≤ room (u_calls p)) :
  let xs := line_spec parse_fuel (tokens [32] l) in
  wp false (parse_loop fuel lit garbage buffer command parse_fuel 0 s) (λ r p', ∃ s' qss,
    let arr := parsed_array s in
    let arr' := parsed_array s' in
    r = Some (Z.of_nat (length xs), s') ∧ parsed_as arr' p' xs qss (parsedCommands s') ∧
    added arr arr' p p' (concat qss) ∧ has_array arr' p' ∧
    fits (Z.of_nat (length xs)) s' ∧ same_shell s s' ∧ parsing arr arr' p p') p.
Proof.
  intros xs. destruct (tokens_need [32] l) as [_ Hcount]. unfold MAX_BUFFER_SIZE in Hlen.
  apply (wp_parse_loop parse_fuel p s l (tokens [32] l) [] []);
    [done|done|done| |done| |done|done| |done|].
  2: { change (0 + Z.of_nat (length (tokens [32] l)) < 2048). lia. }
  - split; [done|]. split; [done|]. split; [|done].
    change (buffer + Z.of_nat (length l) < buffer + 1024). lia.
  - change parse_fuel with 1025%nat. lia.
  - intros p' s' new arr' Hp' HA' Hs' Hf Hx Ha. by exists s', new.
Qed.
End parse.
