(* ===== verification/ShellRun.v ===== *)
(** * How the shell runs a line

    What the shell asks of the kernel for a line of one command and for a
    pipeline of two, in the foreground and in the background, and which
    arguments it releases afterwards. *)

From S2P Require Import Prelude Strings Monad UserString UserStdio Libsys Commands.
From S2P Require Import Shell ShellFacts.

(** ** The reference *)

Definition amp : list Z := [38].
(** [&] as the last argument asks for the background; it is not passed on. *)
Definition background (args : list (list Z)) : bool := bool_decide (List.last args [] = amp).
Definition passed (args : list (list Z)) : nat :=
  if background args then pred (length args) else length args.

Definition add_calls (cs : list call) (p : program) : program := set_u_calls (u_calls p ++ cs) p.

Lemma add_calls_add cs1 cs2 p : add_calls cs2 (add_calls cs1 p) = add_calls (cs1 ++ cs2) p.
Proof. unfold add_calls, set_u_calls. cbn. by rewrite app_assoc. Qed.
Lemma add_calls_nil p : add_calls [] p = p.
Proof. unfold add_calls, set_u_calls. rewrite app_nil_r. by destruct p. Qed.

Section trace.
(** What the kernel answers to a call, given those before. *)
Variables (ans : list call → Z → list Z → Z) (entry : nat → Z).

Definition answer (cs : list call) (c : call) : Z :=
  match c with Sys n args => i32 (ans cs n args) | _ => 0 end.

Definition create_call (i : nat) (argv targets : list Z) (fg : Z) : call :=
  Sys 35 (Z.of_nat (length argv) :: entry i :: 2 :: fg :: targets ++ argv).
Definition wait_call (pid : Z) : call := Sys 42 [i32 pid].
Definition free_call (q : Z) : call := Sys 33 [q].

(** One command: the process is waited for unless it runs in the background. *)
Definition single_calls (cs : list call) (i : nat) (argv : list Z) (bg : bool) : list call :=
  let create := create_call i argv [0; 1; 2] (if bg then 0 else 1) in
  create ::
  if decide (bg = false ∧ 0 < answer cs create) then [wait_call (answer cs create)] else [].

(** A pipeline: the output of the left process and the input of the right
    one are the pipe, both are waited for, and then the pipe is closed. *)
Definition pipeline_calls (cs : list call) (i1 : nat) (argv1 : list Z) (i2 : nat) (argv2 : list Z)
    (bg : bool) : list call :=
  let open := Sys 45 [] in
  let pipe := answer cs open in
  let left := create_call i1 argv1 [0; pipe; 2] 0 in
  let l := answer (cs ++ [open]) left in
  let right := create_call i2 argv2 [pipe; 1; 2] (if bg then 0 else 1) in
  let r := answer (cs ++ [open; left]) right in
  [open; left; right] ++
  (if decide (bg = false ∧ 0 < r ∧ 0 < l) then [wait_call l; wait_call r] else []) ++
  [Sys 47 [u8 pipe]].
End trace.

Section run.
Context (k : Kernel) (H : Z) (blocks : list call → gmap Z Z) (room : list call → Z).
Hypothesis Hheap : heap_ok k H blocks room.
Variables (fuel : nat) (lit : list Z → Z) (entry : nat → Z).
Variables (arr : Z) (ans : list call → Z → list Z → Z).
Implicit Types (p : program) (c : ParsedCommand) (args : list (list Z)) (qs : list Z).

(** The calls on processes and pipes leave the shell's memory alone. *)
Definition quiet_numbers : list Z := [35; 42; 45; 47].
Definition kernel_quiet : Prop := ∀ cs n regs m, n ∈ quiet_numbers →
  kernel_answer cs n regs m = (ans cs n regs, m).
Hypothesis Hquiet : kernel_quiet.

Lemma wp_quiet p n regs (Q : Z → program → Prop) : n ∈ quiet_numbers →
  Q (answer ans (u_calls p) (Sys n regs)) (add_calls [Sys n regs] p) →
  wp false (sys_int n regs) Q p.
Proof.
  intros Hn HQ. unfold sys_int. wp_step. eapply wp_sysc; [by apply Hquiet|]. by wp_step.
Qed.

(** ** The blocks of the shell *)

Definition quiet_call (c : call) : Prop := ∃ n regs, c = Sys n regs ∧ n ∈ quiet_numbers.

Lemma others_quiet cs : ∀ p, Forall quiet_call cs →
  blocks (u_calls (add_calls cs p)) = blocks (u_calls p).
Proof.
  induction cs as [|c cs IH]; intros p Hcs; [by rewrite add_calls_nil|].
  apply Forall_cons in Hcs as [(n & regs & -> & Hn) Hcs].
  change (Sys n regs :: cs) with ([Sys n regs] ++ cs). rewrite <-add_calls_add, IH by done.
  apply (hp_other _ _ _ _ Hheap); intros ->; unfold quiet_numbers in Hn; clear -Hn; set_solver.
Qed.

(** Blocks that may be released one after the other. *)
Definition live (bs : gmap Z Z) qs : Prop := NoDup qs ∧ ∀ q, q ∈ qs → is_Some (bs !! q).

Lemma live_cons bs q qs : live bs (q :: qs) → is_Some (bs !! q) ∧ live (delete q bs) qs.
Proof.
  intros [[Hq Hn]%NoDup_cons Hl]. split; [apply Hl; by left|]. split; [done|].
  intros q' Hq'. rewrite lookup_delete_ne by (by intros ->). apply Hl. by right.
Qed.

Lemma live_app bs qs1 qs2 : live bs (qs1 ++ qs2) →
  live bs qs1 ∧ live (foldl (λ bs q, delete q bs) bs qs1) qs2.
Proof.
  revert bs. induction qs1 as [|q qs1 IH]; intros bs Hl; cbn [foldl app] in *.
  { split; [|done]. split; [constructor|]. by intros ? ?%elem_of_nil. }
  apply live_cons in Hl as [Hq Hl']. destruct (IH _ Hl') as [[Hn H1] H2]. split; [|done].
  split.
  - constructor; [|done]. intros Hin. destruct (H1 q Hin) as [x Hx]. by rewrite lookup_delete_eq in Hx.
  - intros q' [-> |Hin]%elem_of_cons; [done|]. destruct (H1 q' Hin) as [x Hx].
    apply lookup_delete_Some in Hx as [_ Hx]. by eexists.
Qed.

Lemma blocks_freed qs : ∀ p, live (blocks (u_calls p)) qs →
  blocks (u_calls (add_calls (free_call <$> qs) p)) =
  foldl (λ bs q, delete q bs) (blocks (u_calls p)) qs.
Proof.
  induction qs as [|q qs IH]; intros p Hl; cbn [fmap list_fmap foldl]; [by rewrite add_calls_nil|].
  apply live_cons in Hl as [[n Hn] Hl].
  destruct (hp_free _ _ _ _ Hheap (u_calls p) q n (u_mem p) Hn) as (r & _ & E & _).
  change (free_call q :: (free_call <$> qs)) with ([free_call q] ++ (free_call <$> qs)).
  assert (blocks (u_calls (add_calls [free_call q] p)) = delete q (blocks (u_calls p))) as E' by exact E.
  rewrite <-add_calls_add, IH, E'; [done|]. by rewrite E'.
Qed.

Lemma others_freed qs p : live (blocks (u_calls p)) qs →
  dom (others blocks arr (add_calls (free_call <$> qs) p)) =
  dom (others blocks arr p) ∖ list_to_set qs.
Proof.
  intros Hl. unfold others. rewrite blocks_freed by done. generalize (blocks (u_calls p)). clear.
  induction qs as [|q qs IH]; intros bs; cbn [foldl]; [cbn; set_solver|].
  rewrite IH, !dom_delete_L. cbn. set_solver.
Qed.

Lemma array_freed qs p : live (blocks (u_calls p)) qs → arr ∉ qs → has_array blocks arr p →
  has_array blocks arr (add_calls (free_call <$> qs) p).
Proof.
  intros Hl. unfold has_array. rewrite blocks_freed by done. generalize (blocks (u_calls p)). clear.
  induction qs as [|q qs IH]; intros bs Hq Hb; cbn [foldl]; [done|].
  apply IH; [set_solver|]. rewrite lookup_delete_ne; [done|set_solver].
Qed.

Lemma wp_free p q (Q : unit → program → Prop) : is_Some (blocks (u_calls p) !! q) →
  (blocks (u_calls (add_calls [free_call q] p)) = delete q (blocks (u_calls p)) →
   Q tt (add_calls [free_call q] p)) → wp false (freeMemory q) Q p.
Proof.
  intros [n Hn] HQ. unfold freeMemory, sys_void. wp_step.
  destruct (hp_free _ _ _ _ Hheap (u_calls p) q n (u_mem p) Hn) as (r & E & Hb & _).
  eapply wp_sysc; [exact E|]. wp_step. by apply HQ.
Qed.

(** ** A command and its arguments *)

(** The pointers of [argv] are the name [nm] and the blocks of [args]. *)
Abbreviation points := (ShellFacts.points H blocks arr).
Definition ready p c i nm qs args : Prop :=
  function c = i ∧ argv c !! 0%nat = Some nm ∧ (length args ≤ 8)%nat ∧
  holds H blocks arr p c args qs.

Lemma ready_length p c i nm qs args : ready p c i nm qs args → length qs = length args.
Proof. intros (_ & _ & _ & _ & _ & _ & Hq). by eapply Forall2_length. Qed.

Lemma ready_argv p c i nm qs args : ready p c i nm qs args →
  take (S (length args)) (argv c) = nm :: qs.
Proof.
  intros (_ & Hn & _ & _ & _ & Ht & _). destruct (argv c) as [|a0 tl]; [done|].
  injection Hn as ->. change (take (length args) tl = qs) in Ht. cbn [take]. by rewrite Ht.
Qed.

Lemma ready_lookup p c i nm qs args j q : ready p c i nm qs args → qs !! j = Some q →
  argv c !! S j = Some q ∧ q ≠ NULL ∧ q ≠ arr.
Proof.
  intros Hr Hj. pose proof (ready_argv _ _ _ _ _ _ Hr) as Ht.
  destruct Hr as (_ & _ & _ & _ & _ & _ & Hq).
  destruct (Forall2_lookup_l _ _ _ _ _ Hq Hj) as (t & Htj & _ & Hne & _ & n & Hn & _).
  apply lookup_lt_Some in Htj. split; [|split; [done|]].
  - rewrite <-(lookup_take_lt _ (S (length args))), Ht by lia. done.
  - intros ->. unfold others in Hn. by rewrite lookup_delete_eq in Hn.
Qed.

Lemma points_mem p p' q t : (∀ x, H ≤ x → u_mem p' !! x = u_mem p !! x) →
  others blocks arr p' = others blocks arr p → points p q t → points p' q t.
Proof.
  intros Hm E (Hq & Hq0 & Hc & Hn). do 2 (split; [done|]). rewrite E. split; [|done].
  eapply cstr_ext; [|exact Hc]. intros x Hx. apply Hm. lia.
Qed.

Lemma ready_mem p p' c i nm qs args : (∀ x, H ≤ x → u_mem p' !! x = u_mem p !! x) →
  others blocks arr p' = others blocks arr p → ready p c i nm qs args → ready p' c i nm qs args.
Proof.
  intros Hm E (? & ? & ? & ? & ? & ? & Hq). do 6 (split; [done|]).
  eapply Forall2_impl; [exact Hq|]. intros q t. by apply points_mem.
Qed.

Lemma command_ready p c i cmd args qs : command_is H blocks lit arr p c (i, cmd, args) qs →
  ready p c i (lit (c_name cmd)) qs args ∧ isBuiltIn c = c_isBuiltIn cmd.
Proof.
  intros (Hf & Hb & _ & Hn & Hh & Hend). split; [|done]. apply lookup_lt_Some in Hend.
  pose proof Hh as (_ & Hl & _). unfold MAX_ARGUMENT_COUNT in Hl.
  split; [done|]. split; [done|]. split; [lia|done].
Qed.

(** Taking [&] away. *)
Lemma wp_wants_background p c i nm qs args (Q : bool * ParsedCommand → program → Prop) :
  ready p c i nm qs args → cstr (u_mem p) (lit amp) amp →
  (∀ c', let n := passed args in ready p c' i nm (take n qs) (take n args) →
     Q (background args, c') p) →
  wp false (wants_background lit c) Q p.
Proof.
  intros Hr Hamp HQ. pose proof Hr as (Hf & Hnm & Hlen & Ha & Hl & Ht & Hq).
  pose proof (ready_length _ _ _ _ _ _ Hr) as Hlq. unfold wants_background, passed, background in *.
  destruct args as [|t args _] using rev_ind.
  { rewrite decide_False by (cbn in Ha; lia). wp_step. cbn [length List.last] in HQ.
    rewrite bool_decide_false in HQ by done. apply HQ. cbn in *. by destruct qs. }
  rewrite length_app in *. cbn [length] in *. rewrite decide_True by lia. wp_step. unfold arg.
  apply Forall2_app_inv_r in Hq as (qs0 & q1 & Hq0 & Hq1 & ->).
  destruct q1 as [|q [|]]; [by inversion Hq1|apply Forall2_cons in Hq1 as [(Hge & Hne & Hc & _) _]|
    apply Forall2_cons in Hq1 as [_ Hq1]; by inversion Hq1].
  pose proof (Forall2_length _ _ _ Hq0) as Hl0.
  destruct (ready_lookup _ _ _ _ _ _ (length args) q Hr) as [Hlook _].
  { rewrite <-Hl0. by rewrite lookup_app_r, Nat.sub_diag. }
  replace (Z.to_nat (argc c - 1)) with (S (length args)) by lia.
  eapply wp_kopt; [exact Hlook|]. rewrite decide_False by done.
  destruct (strcmp_eq (u_mem p) q (lit amp) t amp) as (d & Hd & Hd0); [done..|].
  wp_step. eapply wp_user; [exact Hd|]. rewrite last_last in HQ.
  destruct (decide (t = amp)) as [->|Ht2].
  - rewrite decide_True by tauto. wp_step. rewrite bool_decide_true in HQ by done. apply HQ.
    replace (pred (length args + 1)) with (length args) by lia.
    rewrite !take_app_length' by lia. assert (Z.to_nat (argc c - 1) = S (length args)) as Ei by lia.
    unfold MAX_ARGUMENT_COUNT in Hl. split; [done|]. cbn [argv set_argc set_argv].
    split; [by rewrite Ei, list_lookup_insert_ne|]. split; [lia|]. split; [cbn; lia|].
    split; [cbn; by rewrite length_insert|]. split; [|done]. cbn [argv set_argc set_argv].
    rewrite Ei, drop_insert_ge, take_insert_ge by lia.
    assert (take (length args) (take (length args + 1) (drop 1 (argv c))) =
      take (length args) (qs0 ++ [q])) as E by (by rewrite Ht).
    rewrite take_take, Nat.min_l in E by lia. rewrite E. by rewrite take_app_length' by lia.
  - rewrite decide_False by tauto. wp_step. rewrite bool_decide_false in HQ by done. apply HQ.
    rewrite !take_ge by (rewrite ?length_app; cbn; lia). done.
Qed.

(** ** Running *)

Lemma ready_calls p cs c i nm qs args : Forall quiet_call cs →
  ready p c i nm qs args → ready (add_calls cs p) c i nm qs args.
Proof. intros Hcs. apply ready_mem; [done|]. unfold others. by rewrite others_quiet. Qed.

Ltac quiet := unfold quiet_numbers; clear; set_solver.
Ltac quiet_calls := repeat constructor; eexists _, _; (split; [reflexivity|quiet]).

Lemma wp_start p c i nm qs args targets fg (Q : Z → program → Prop) :
  ready p c i nm qs args →
  let create := create_call entry i (nm :: qs) targets (if fg : bool then 1 else 0) in
  Q (answer ans (u_calls p) create) (add_calls [create] p) →
  wp false (start_command entry c targets fg) Q p.
Proof.
  intros Hr create HQ. pose proof (ready_length _ _ _ _ _ _ Hr) as Hlq.
  pose proof (ready_argv _ _ _ _ _ _ Hr) as Ht.
  destruct Hr as (Hf & _ & Hlen & Ha & _). unfold start_command, createProcess.
  assert (i32 (argc c) = Z.of_nat (length (nm :: qs))) as -> by
    (rewrite wraps_small by lia; cbn [length]; lia).
  rewrite Hf, Ha. replace (Z.to_nat (1 + Z.of_nat (length args))) with (S (length args)) by lia.
  rewrite Ht. apply wp_quiet; [quiet|]. by destruct fg.
Qed.

Lemma wp_waitPid p pid (Q : Z → program → Prop) :
  (∀ r, Q r (add_calls [wait_call pid] p)) → wp false (waitPid pid) Q p.
Proof. intros HQ. apply wp_quiet; [quiet|]. apply HQ. Qed.

Lemma single_quiet cs i argv bg : Forall quiet_call (single_calls ans entry cs i argv bg).
Proof.
  unfold single_calls. constructor; [eexists _, _; split; [reflexivity|quiet]|].
  destruct (decide _); quiet_calls.
Qed.

Lemma pipeline_quiet cs i1 argv1 i2 argv2 bg :
  Forall quiet_call (pipeline_calls ans entry cs i1 argv1 i2 argv2 bg).
Proof.
  unfold pipeline_calls. repeat apply Forall_app_2; [quiet_calls| |quiet_calls].
  destruct (decide _); quiet_calls.
Qed.

Lemma wp_run_single p c i nm qs args (Q : ParsedCommand → program → Prop) :
  ready p c i nm qs args → isBuiltIn c = 0 → cstr (u_mem p) (lit amp) amp →
  (∀ c', let n := passed args in ready p c' i nm (take n qs) (take n args) →
     Q c' (add_calls (single_calls ans entry (u_calls p) i (nm :: take n qs) (background args)) p)) →
  wp false (run_single fuel lit entry c) Q p.
Proof.
  intros Hr Hb Hamp HQ. unfold run_single. rewrite decide_False by lia. wp_step.
  eapply wp_wants_background; [exact Hr|exact Hamp|]. intros c' n Hr'. cbv beta iota. wp_step.
  eapply wp_start; [exact Hr'|]. specialize (HQ c' Hr'). unfold single_calls in HQ. fold n in HQ.
  destruct (background args); cbn [negb].
  - wp_step. rewrite !decide_False in * by naive_solver. wp_step. by wp_step.
  - wp_step. set (pid := answer ans (u_calls p) _) in *. destruct (decide (0 < pid)) as [H0|H0].
    + rewrite !decide_True in * by done. wp_step. apply wp_waitPid. intros r. wp_step. wp_step.
      by rewrite add_calls_add.
    + rewrite !decide_False in * by tauto. wp_step. by wp_step.
Qed.

Lemma wp_run_pipeline p c1 i1 nm1 qs1 args1 c2 i2 nm2 qs2 args2
    (Q : ParsedCommand * ParsedCommand → program → Prop) :
  ready p c1 i1 nm1 qs1 args1 → ready p c2 i2 nm2 qs2 args2 →
  isBuiltIn c1 = 0 → isBuiltIn c2 = 0 → cstr (u_mem p) (lit amp) amp →
  0 ≤ answer ans (u_calls p) (Sys 45 []) →
  (∀ p1 c1' c2', let n1 := passed args1 in let n2 := passed args2 in
     ready p1 c1' i1 nm1 (take n1 qs1) (take n1 args1) →
     ready p1 c2' i2 nm2 (take n2 qs2) (take n2 args2) →
     Q (c1', c2') (add_calls (pipeline_calls ans entry (u_calls p) i1 (nm1 :: take n1 qs1)
       i2 (nm2 :: take n2 qs2) (background args1 || background args2)) p)) →
  wp false (run_pipeline fuel lit entry c1 c2) Q p.
Proof.
  intros Hr1 Hr2 Hb1 Hb2 Hamp Hpipe HQ. unfold run_pipeline. rewrite decide_False by lia.
  wp_step. apply wp_quiet; [quiet|]. set (pipe := answer _ _ _) in *.
  rewrite decide_False by lia. set (p1 := add_calls [Sys 45 []] p).
  wp_step. eapply wp_wants_background; [by apply ready_calls; [quiet_calls|]|exact Hamp|]. intros c1' n1 Hr1'.
  cbv beta iota. wp_step.
  eapply wp_wants_background; [by apply ready_calls; [quiet_calls|]|exact Hamp|]. intros c2' n2 Hr2'. cbv beta iota.
  specialize (HQ p1 c1' c2' Hr1' Hr2'). fold n1 n2 in HQ. unfold pipeline_calls in HQ.
  set (bg := background args1 || background args2) in *.
  wp_step. eapply wp_start; [exact Hr1'|]. cbv zeta iota.
  wp_step. eapply wp_start; [by apply ready_calls; [quiet_calls|exact Hr2']|]. cbv zeta iota.
  assert ((if negb bg then 1 else 0) = (if bg then 0 else 1)) as -> by (by destruct bg).
  subst p1. fold pipe in HQ. set (left := create_call _ i1 _ _ _) in *.
  rewrite !add_calls_add. cbn [add_calls set_u_calls u_calls]. rewrite <-!app_assoc. cbn [app] in *.
  set (right := create_call _ i2 _ _ _) in *. set (l := answer ans _ left) in *.
  set (r := answer ans _ right) in *. wp_step.
  destruct (decide (bg = false ∧ 0 < r ∧ 0 < l)); wp_step.
  - apply wp_waitPid. intros _. wp_step. apply wp_waitPid. intros _. wp_step.
    wp_step. apply wp_quiet; [quiet|]. wp_step. rewrite !add_calls_add. exact HQ.
  - wp_step. apply wp_quiet; [quiet|]. wp_step. rewrite !add_calls_add. exact HQ.
Qed.

(** ** Releasing *)

Definition ten c : Prop := Z.of_nat (length (argv c)) = MAX_ARGUMENT_COUNT.

Lemma wp_release_args qs : ∀ i c p (Q : ParsedCommand → program → Prop),
  (1 ≤ i)%nat → ten c → live (blocks (u_calls p)) qs →
  (∀ j q, qs !! j = Some q → argv c !! (i + j)%nat = Some q ∧ q ≠ NULL) →
  (∀ c', ten c' → Q c' (add_calls (free_call <$> qs) p)) →
  wp false (release_args (length qs) (Z.of_nat i) c) Q p.
Proof.
  unfold ten. induction qs as [|q qs IH]; intros i c p Q Hi Hc Hlive Hqs HQ; cbn [length release_args].
  { wp_step. rewrite <-(add_calls_nil p). apply HQ. cbn. by rewrite length_insert. }
  destruct (Hqs 0%nat q) as [Hq Hq0]; [done|]. rewrite Nat.add_0_r in Hq. wp_step. unfold arg.
  rewrite Nat2Z.id. eapply wp_kopt; [exact Hq|]. rewrite decide_True by done. wp_step. wp_step.
  apply live_cons in Hlive as [Hq1 Hlive]. apply wp_free; [done|]. intros Hb. wp_step.
  replace (Z.of_nat i + 1) with (Z.of_nat (S i)) by lia.
  apply IH; [lia|cbn; by rewrite length_insert|by rewrite Hb| |].
  - intros j q' Hj. destruct (Hqs (S j) q') as [Hq' ?]; [done|]. split; [|done]. cbn.
    rewrite Nat2Z.id, list_lookup_insert_ne by lia. by rewrite Nat.add_succ_r in Hq'.
  - intros c' Hc'. rewrite add_calls_add. by apply HQ.
Qed.

Definition releasable (c : ParsedCommand) qs : Prop :=
  argc c = 1 + Z.of_nat (length qs) ∧
  ∀ j q, qs !! j = Some q → argv c !! S j = Some q ∧ q ≠ NULL ∧ q ≠ arr.

Lemma ready_releasable p c i nm qs args : ready p c i nm qs args → releasable c qs ∧ ten c.
Proof.
  intros Hr. pose proof (ready_length _ _ _ _ _ _ Hr) as Hl.
  split; [|by destruct Hr as (_ & _ & _ & _ & ? & _)].
  split; [|intros j q; by eapply ready_lookup]. destruct Hr as (_ & _ & _ & -> & _). by rewrite Hl.
Qed.

Lemma two_releasable (cs : list ParsedCommand) c1 c2 qs1 qs2 : (2 ≤ length cs)%nat →
  releasable c1 qs1 → releasable c2 qs2 →
  ∀ t qs, [qs1; qs2] !! t = Some qs →
    ∃ c, <[0%nat := c1]> (<[1%nat := c2]> cs) !! t = Some c ∧ releasable c qs.
Proof.
  intros Hl H1 H2 [|[|t]] qs Ht; [| |done]; injection Ht as <-.
  - exists c1. split; [|done]. apply list_lookup_insert_eq. rewrite length_insert. lia.
  - exists c2. split; [|done]. rewrite list_lookup_insert_ne by done. apply list_lookup_insert_eq. lia.
Qed.

Lemma wp_release qss : ∀ j cs p (Q : list ParsedCommand → program → Prop),
  (∀ t qs, qss !! t = Some qs → ∃ c, cs !! (j + t)%nat = Some c ∧ releasable c qs) →
  live (blocks (u_calls p)) (concat qss) → Forall ten cs →
  (∀ cs', length cs' = length cs → Forall ten cs' →
     Q cs' (add_calls (free_call <$> concat qss) p)) →
  wp false (release (length qss) j cs) Q p.
Proof.
  induction qss as [|qs qss IH]; intros j cs p Q Hqss Hlive Hten HQ; cbn [length release concat] in *.
  { wp_step. rewrite <-(add_calls_nil p). by apply HQ. }
  destruct (Hqss 0%nat qs) as (c & Hc & Ha & Hqs); [done|]. rewrite Nat.add_0_r in Hc.
  wp_step. eapply wp_kopt; [exact Hc|]. wp_step.
  replace (Z.to_nat (argc c - 1)) with (length qs) by lia. change 1 with (Z.of_nat 1).
  apply live_app in Hlive as [Hlive Hlive'].
  apply wp_release_args; [lia|by eapply Forall_lookup_1|done| |].
  { intros t q Ht. by destruct (Hqs t q Ht) as (? & ? & _). }
  intros c' Hc'.
  apply IH; [|by rewrite blocks_freed|by apply Forall_insert|].
  - intros t qs' Ht. destruct (Hqss (S t) qs') as (c2 & Hc2 & Hr2); [done|].
    exists c2. split; [|done]. rewrite list_lookup_insert_ne by lia. by rewrite Nat.add_succ_r in Hc2.
  - intros cs' Hl Hcs'. rewrite add_calls_add, <-fmap_app. apply HQ; [|done].
    by rewrite Hl, length_insert.
Qed.
End run.

(** ** A whole line *)

Lemma strncpy_frame (m0 : mem) dest src n fuel : ∀ (m : mem) i, 0 ≤ i ≤ n → (Z.to_nat (n - i) < fuel)%nat →
  dest + n < src ∨ src + n ≤ dest → (∀ j, 0 ≤ j < n → is_Some (m0 !! (src + j))) →
  (∀ x, x < dest ∨ dest + n < x → m !! x = m0 !! x) →
  ∃ m', UserString.strncpy_loop fuel m dest src n i = Some m' ∧
    ∀ x, x < dest ∨ dest + n < x → m' !! x = m0 !! x.
Proof.
  induction fuel as [|fuel IH]; intros m i Hi Hf Hd Hsrc Hm; [lia|]. cbn [strncpy_loop].
  assert (∀ v x, x < dest ∨ dest + n < x → <[dest + i := v]> m !! x = m0 !! x) as Hw.
  { intros v x Hx. rewrite lookup_insert_ne by lia. by apply Hm. }
  destruct (decide (i < n)); [|eexists; split; [done|apply Hw]].
  destruct (Hsrc i) as [c Hc]; [lia|]. rewrite Hm by lia. rewrite Hc. cbn [mbind option_bind].
  destruct (decide (c = 0)); [eexists; split; [done|apply Hw]|].
  apply IH; [lia|lia|done|done|apply Hw].
Qed.

(** What is left of the new blocks [qs] when those of [rel] are released. *)
Lemma left_over (D : gset Z) qs rel leak :
  qs ≡ₚ rel ++ leak → NoDup qs → (∀ q, q ∈ qs → q ∉ D) →
  (D ∪ list_to_set qs) ∖ list_to_set rel = D ∪ list_to_set leak.
Proof.
  intros Hp Hn Hf. rewrite Hp in Hn. apply NoDup_app in Hn as (_ & Hn & _).
  assert (list_to_set qs =@{gset Z} list_to_set rel ∪ list_to_set leak) as ->.
  { rewrite <-list_to_set_app_L. by apply list_to_set_perm_L. }
  assert (∀ q, q ∈ rel → q ∉ D) as Hrel by (intros q Hq; apply Hf; rewrite Hp; set_solver).
  apply set_eq. intros x. rewrite elem_of_difference, !elem_of_union, !elem_of_list_to_set.
  naive_solver.
Qed.

Section line.
Context (k : Kernel) (H : Z) (blocks : list call → gmap Z Z) (room : list call → Z).
Hypothesis Hheap : heap_ok k H blocks room.
Variables (fuel : nat) (lit : list Z → Z) (entry : nat → Z) (garbage : ParsedCommand).
Variables (buffer command command_history command_history_buffer invalid_cmd : Z).
Variables (ans : list call → Z → list Z → Z).
Hypothesis Hset : setting H lit buffer command.
Hypothesis Hquiet : kernel_quiet k ans.
Implicit Types (p : program) (args : list (list Z)) (qs : list Z) (qss : list (list Z)).

Definition in_history (x : Z) : Prop :=
  command_history ≤ x < command_history + HISTORY_SIZE * MAX_BUFFER_SIZE.
(** The history, its buffer and the literal [&] have places of their own. *)
Record history_setting : Prop := {
  hs_history : ∀ x, in_history x → kept command buffer (buffer + MAX_BUFFER_SIZE) (λ x, x < H) x;
  hs_buffer : ∀ x, command_history_buffer ≤ x < command_history_buffer + MAX_BUFFER_SIZE →
    kept command buffer (buffer + MAX_BUFFER_SIZE) (λ x, x < H) x ∧ ¬ in_history x;
  hs_amp : ∀ x, lit amp ≤ x ≤ lit amp + 1 →
    kept command buffer (buffer + MAX_BUFFER_SIZE) (λ x, x < H) x ∧ ¬ in_history x;
}.
Hypothesis Hhist : history_setting.

Definition history_readable p : Prop :=
  ∀ j, 0 ≤ j < MAX_BUFFER_SIZE → is_Some (u_mem p !! (command_history_buffer + j)).

Lemma wp_remember p s (Q : shell → program → Prop) :
  0 ≤ command_history_last s < HISTORY_SIZE → 0 ≤ buffer_dim s < MAX_BUFFER_SIZE →
  history_readable p →
  (∀ m, (∀ x, ¬ in_history x → m !! x = u_mem p !! x) →
     Q (set_history (INC_MOD (command_history_last s) HISTORY_SIZE) s) (set_u_mem m p)) →
  wp false (remember command_history command_history_buffer s) Q p.
Proof.
  intros Hl Hdim Hread HQ. unfold remember, history_readable, HISTORY_SIZE, MAX_BUFFER_SIZE in *.
  set (row := command_history + command_history_last s * 1024). wp_step.
  assert (∀ x, command_history_buffer ≤ x < command_history_buffer + 1024 → ¬ in_history x) as Hb.
  { intros x Hx. by apply (hs_buffer Hhist). }
  unfold in_history, HISTORY_SIZE, MAX_BUFFER_SIZE in *.
  destruct (strncpy_frame (u_mem p) row command_history_buffer 255 256 (u_mem p) 0) as (m1 & E & Hm1).
  - lia.
  - by vm_compute.
  - pose proof (Hb command_history_buffer ltac:(lia)).
    pose proof (Hb (command_history_buffer + 1023) ltac:(lia)). lia.
  - intros j Hj. apply Hread. lia.
  - done.
  - eapply wp_user; [exact E|]. wp_step. wp_step. wp_step. unfold wr. wp_step. wp_step.
    apply (HQ (<[row + buffer_dim s := 0]> m1)). intros x Hx.
    rewrite lookup_insert_ne by lia. apply Hm1. lia.
Qed.

Definition shell_ok (s : shell) : Prop :=
  fits 0 s ∧ 0 ≤ command_history_last s < HISTORY_SIZE.

(** The shell has read the line [l]. *)
Record line_ready p (s : shell) (l : list Z) : Prop := {
  lr_line : cstr (u_mem p) buffer l;
  lr_dim : buffer_dim s = Z.of_nat (length l) ∧ buffer_dim s < MAX_BUFFER_SIZE;
  lr_layout : layout lit (u_mem p);
  lr_amp : cstr (u_mem p) (lit amp) amp;
  lr_short : Forall (λ t, Z.of_nat (length t) < MAX_ARGUMENT_SIZE) (tokens [32] l);
  lr_history : history_readable p;
  lr_heap : has_array blocks (parsed_array s) p ∧ need (tokens [32] l) ≤ room (u_calls p);
  lr_shell : shell_ok s;
}.

(** What a line left: allocations [ms], the calls [rs] of its processes, and
    the release of the blocks [qs]; the shell is ready for the next one, and
    has [leaked] more blocks than before. *)
Definition handled p s s' p' ms rs qs leaked : Prop :=
  u_calls p' = u_calls p ++ ms ++ rs ++ (free_call <$> qs) ∧ Forall heap_call ms ∧
  u_mem p' !! buffer = Some 0 ∧ buffer_dim s' = 0 ∧ shell_ok s' ∧
  has_array blocks (parsed_array s') p' ∧
  dom (others blocks (parsed_array s') p') =
    dom (others blocks (parsed_array s) p) ∪ list_to_set leaked.

(** What [run_line] has to do for [handle_line], with the commands that have
    their arguments in the blocks [qss]: quiet calls, after which the blocks
    [rel] are to be released. *)
Definition runs (R : program → list call → list (list Z) → Prop) arr (n : nat) cs p1 : Prop :=
  wp false (run_line fuel lit entry (Z.of_nat n) cs) (λ cs' p2,
    ∃ rs rel, p2 = add_calls rs p1 ∧ Forall quiet_call rs ∧ length rel = n ∧
      length cs' = length cs ∧ Forall ten cs' ∧ R p1 rs rel ∧
      ∀ t qs, rel !! t = Some qs → ∃ c, cs' !! t = Some c ∧ releasable arr c qs) p1.

Lemma parsed_as_mem arr p p' xs qss cs : u_calls p' = u_calls p →
  (∀ x, H ≤ x → u_mem p' !! x = u_mem p !! x) →
  parsed_as H blocks lit arr p xs qss cs → parsed_as H blocks lit arr p' xs qss cs.
Proof.
  intros Hc Hm [Hl Hx]. split; [done|]. intros i x qs Hi Hq.
  destruct (Hx i x qs Hi Hq) as (c & Hci & Hr). exists c. split; [done|].
  destruct x as [[n cmd] args]. destruct Hr as (? & ? & ? & ? & (? & ? & ? & Hargs) & ?).
  do 4 (split; [done|]). split; [|done]. do 3 (split; [done|]).
  eapply Forall2_impl; [exact Hargs|]. intros q t. apply points_mem; [done|].
  unfold others. by rewrite Hc.
Qed.

(** The blocks to be released are there, and what is left after that. *)
Lemma released_blocks arr p1 rs (rel : list (list Z)) (cs : list ParsedCommand) D qs leak :
  Forall quiet_call rs → dom (others blocks arr p1) = D ∪ list_to_set qs →
  NoDup qs → (∀ q, q ∈ qs → q ∉ D) → qs ≡ₚ concat rel ++ leak → has_array blocks arr p1 →
  (∀ t qs, rel !! t = Some qs → ∃ c, cs !! t = Some c ∧ releasable arr c qs) →
  let p' := add_calls (free_call <$> concat rel) (add_calls rs p1) in
  live (blocks (u_calls (add_calls rs p1))) (concat rel) ∧
  has_array blocks arr p' ∧ dom (others blocks arr p') = D ∪ list_to_set leak.
Proof.
  intros Hrs Hdom Hn Hf Hp Harr Hrel p'.
  assert (live (blocks (u_calls (add_calls rs p1))) (concat rel)) as Hlive.
  { split; [rewrite Hp in Hn; by apply NoDup_app in Hn as [? _]|]. intros q Hq.
    rewrite (others_quiet k H blocks room Hheap) by done.
    assert (q ∈ dom (others blocks arr p1)) as Hd.
    { rewrite Hdom, elem_of_union, elem_of_list_to_set, Hp, elem_of_app. auto. }
    apply elem_of_dom in Hd as [n Hd]. unfold others in Hd. apply lookup_delete_Some in Hd as [_ Hd]. by eexists. }
  split; [done|]. split.
  - apply (array_freed k H blocks room Hheap); [done| |].
    + intros Hin. apply list_elem_of_In, in_concat in Hin as (qs' & Hqs & Hin).
      apply list_elem_of_In, list_elem_of_lookup_1 in Hqs as [t Ht].
      destruct (Hrel t qs' Ht) as (c & _ & _ & Hq).
      apply list_elem_of_In, list_elem_of_lookup_1 in Hin as [j Hj].
      by destruct (Hq j arr Hj) as (_ & _ & ?).
    + unfold has_array. by rewrite (others_quiet k H blocks room Hheap).
  - unfold p'. rewrite (others_freed k H blocks room Hheap) by done.
    unfold others at 1. rewrite (others_quiet k H blocks room Hheap) by done.
    fold (others blocks arr p1). rewrite Hdom. by apply left_over.
Qed.

Lemma wp_handle_line p s l R (Q : option shell → program → Prop) :
  let xs := line_spec parse_fuel (tokens [32] l) in
  line_ready p s l → ten garbage → xs ≠ [] →
  (∀ arr p1 qss cs, parsed_as H blocks lit arr p1 xs qss cs → Forall ten cs →
     cstr (u_mem p1) (lit amp) amp → runs (R arr qss) arr (length xs) cs p1) →
  (∀ arr p1 ms rs qss rel, u_calls p1 = u_calls p ++ ms → R arr qss p1 rs rel →
     ∃ leaked, concat qss ≡ₚ concat rel ++ leaked ∧
       ∀ s' p', (∀ x, H ≤ x → u_mem p' !! x = u_mem p1 !! x) →
         handled p s s' p' ms rs (concat rel) leaked → Q (Some s') p') →
  wp false (handle_line fuel lit entry garbage buffer command command_history
    command_history_buffer invalid_cmd s) Q p.
Proof.
  intros xs [Hline [Hdim Hmax] Hlay Hamp Hshort Hread [Harr Hroom] [Hfits Hlast]] Hg Hne Hrun HQ.
  pose proof (se_below _ _ _ _ Hset) as [Hbelow _].
  assert (Z.of_nat (length xs) ≠ 0) as Hn by (destruct xs; [done|cbn; lia]).
  unfold handle_line. wp_step. eapply wp_mono.
  { eapply (parse_line_correct k H blocks room Hheap fuel lit garbage buffer command Hset p s l);
      try done; lia. }
  fold xs. intros r p1 (s1 & qss & -> & Hxs & (Hdom & Hnodup & Hnew) & Harr1 & Hfits1 &
    (Hd1 & Hh1 & _) & ((ms & Ep1 & Hms) & Hk1 & _)).
  wp_step. rewrite decide_False by tauto. wp_step. wp_step. rewrite decide_True by done.
  assert (history_readable p1) as Hread1.
  { intros j Hj. rewrite Hk1; [by apply Hread|].
    destruct (hs_buffer Hhist (command_history_buffer + j)) as [(? & ? & ?) _]; [lia|].
    split; [done|]. split; [done|by left]. }
  apply wp_remember; [by rewrite Hh1|rewrite Hd1; lia|done|].
  intros m2 Hm2. wp_step. set (p2 := set_u_mem m2 p1). set (arr := parsed_array s1) in *.
  assert (∀ x, H ≤ x → ¬ in_history x) as Hhigh.
  { intros x Hx Hin. destruct (hs_history Hhist x Hin) as (_ & _ & ?). lia. }
  assert (cstr (u_mem p2) (lit amp) amp) as Hamp2.
  { eapply cstr_ext; [|exact Hamp]. intros x Hx. cbn [amp length] in Hx.
    destruct (hs_amp Hhist x) as [(? & ? & ?) Hnin]; [lia|].
    cbn [u_mem set_u_mem p2]. rewrite Hm2 by done. apply Hk1. split; [done|]. split; [done|by left]. }
  assert (u_calls p1 = u_calls p ++ ms) as Ec2 by (by rewrite Ep1).
  rewrite decide_True by lia. cbn [parsedCommands set_history].
  destruct Hfits1 as (Hp1 & Hm1 & Hten1). eapply wp_mono.
  { apply (Hrun arr p2 qss); [|exact Hten1|exact Hamp2].
    apply (parsed_as_mem arr p1 p2); [done| |exact Hxs]. intros x Hx. by apply Hm2, Hhigh. }
  intros cs3 p3 (rs & rel & -> & Hrs & Hlq & Hlc & Hten3 & HR & Hrel). cbv beta iota. wp_step.
  destruct (HQ arr p2 ms rs qss rel) as (leaked & Hleaked & HQ'); [done|exact HR|].
  destruct (released_blocks arr p2 rs rel cs3 (dom (others blocks (parsed_array s) p)) (concat qss)
    leaked) as [Hlive Hafter]; [done..|].
  rewrite Nat2Z.id, <-Hlq. eapply (wp_release k H blocks room Hheap); [exact Hrel|exact Hlive|done|].
  intros cs4 Hlc4 Hten4. wp_step. unfold wr. wp_step. wp_step. apply HQ'.
  { intros x Hx. unfold MAX_BUFFER_SIZE in Hbelow. apply lookup_insert_ne. lia. }
  split; [cbn; by rewrite Ec2, <-!app_assoc|].
  split; [done|]. split; [apply lookup_insert_eq|]. split; [done|].
  split; [|exact Hafter].
  unfold shell_ok, fits, parsed_commands_dim in *.
  split; [split; [|split; [|done]]|]; cbn [parsedCommands set_dim set_parsed].
  - rewrite Hlc4, Hlc. lia.
  - by rewrite Hlc4, Hlc.
  - cbn. unfold INC_MOD, HISTORY_SIZE in *. rewrite Z.rem_mod_nonneg by lia.
    apply Z.mod_pos_bound. lia.
Qed.

(** ** Lines of one and of two commands *)

Lemma entry_ready arr p1 xs qss cs t i cmd args :
  parsed_as H blocks lit arr p1 xs qss cs → xs !! t = Some (i, cmd, args) → c_isBuiltIn cmd = 0 →
  ∃ qs c, qss !! t = Some qs ∧ cs !! t = Some c ∧ isBuiltIn c = 0 ∧
    ready H blocks arr p1 c i (lit (c_name cmd)) qs args.
Proof.
  intros [Hl Hxs] Ht Hb. destruct (lookup_lt_is_Some_2 qss t) as [qs Hq].
  { rewrite Hl. by eapply lookup_lt_Some. }
  destruct (Hxs t _ _ Ht Hq) as (c & Hc & Hcmd).
  destruct (command_ready _ _ _ _ _ _ _ _ _ _ Hcmd) as [Hr Hb']. exists qs, c. by rewrite Hb'.
Qed.

(** The strings [args] are in the blocks [qs]. *)
Definition strings p qs args : Prop :=
  Forall2 (λ q t, H ≤ q ∧ q ≠ NULL ∧ cstr (u_mem p) q t) qs args.

Lemma ready_strings arr p c i nm qs args : ready H blocks arr p c i nm qs args → strings p qs args.
Proof. intros (_ & _ & _ & _ & _ & _ & Hq). eapply Forall2_impl; [exact Hq|]. intros q t. by intros (? & ? & ? & _). Qed.

Lemma strings_mem p p' qs args : (∀ x, H ≤ x → u_mem p' !! x = u_mem p !! x) →
  strings p qs args → strings p' qs args.
Proof.
  intros Hm Hq. eapply Forall2_impl; [exact Hq|]. intros q t (? & ? & Hc).
  do 2 (split; [done|]). eapply cstr_ext; [|exact Hc]. intros x Hx. apply Hm. lia.
Qed.

(** C13: The shell reads a line of one command that is not built in: it allocates
    the arguments, creates the process with the name and the arguments (a
    final [&] is taken away and asks for the background), waits for it only
    in the foreground, and releases every argument it passed.  Besides the
    array of commands, the only block it has more than before is that of the
    [&] that was taken away. *)
Theorem single_line_runs p s l i cmd args
    (Hready : line_ready p s l) (Hg : ten garbage)
    (Hxs : line_spec parse_fuel (tokens [32] l) = [(i, cmd, args)])
    (Hbuiltin : c_isBuiltIn cmd = 0) :
  wp false (handle_line fuel lit entry garbage buffer command command_history
    command_history_buffer invalid_cmd s) (λ r p', ∃ s' ms qs,
      let argv := lit (c_name cmd) :: take (passed args) qs in
      r = Some s' ∧ strings p' qs args ∧
      handled p s s' p' ms (single_calls ans entry (u_calls p ++ ms) i argv (background args))
        (take (passed args) qs) (drop (passed args) qs)) p.
Proof.
  apply (wp_handle_line p s l (λ arr qss p1 rs rel, ∃ qs, qss = [qs] ∧
    rel = [take (passed args) qs] ∧ strings p1 qs args ∧
    rs = single_calls ans entry (u_calls p1) i (lit (c_name cmd) :: take (passed args) qs)
      (background args))); [done|done|by rewrite Hxs| |].
  - rewrite Hxs. intros arr p1 qss cs Hcs Hten Hamp. pose proof Hcs as [Hl _].
    destruct (entry_ready arr p1 _ qss cs 0 i cmd args Hcs) as (qs & c & Hq & Hc & Hb & Hr); [done|done|].
    destruct qss as [|? []]; [done| |done]. injection Hq as ->.
    unfold runs, run_line. cbn [length]. rewrite decide_True by done. wp_step.
    eapply wp_kopt; [exact Hc|]. wp_step.
    eapply (wp_run_single k H blocks fuel lit entry arr ans Hquiet);
      [exact Hr|exact Hb|exact Hamp|].
    intros c' n Hr'. wp_step. destruct (ready_releasable _ _ _ _ _ _ _ _ _ Hr') as [Hrel Hten'].
    eexists _, [take n qs]. split; [done|]. split; [apply single_quiet|]. split; [done|].
    split; [by rewrite length_insert|]. split; [by apply Forall_insert|].
    split; [exists qs; by eauto using ready_strings|].
    intros [|t] qs' Ht; [|done]. injection Ht as <-. exists c'. split; [|done].
    apply list_lookup_insert_eq. by eapply lookup_lt_Some.
  - intros arr p1 ms rs qss rel Hms (qs & -> & -> & Hqs & ->). exists (drop (passed args) qs).
    cbn [concat]. rewrite !app_nil_r, take_drop. split; [done|]. intros s' p' Hmem Hh.
    exists s', ms, qs. split; [done|]. split; [by eapply strings_mem|]. by rewrite <-Hms.
Qed.

(** C11: A line of two commands that are not built in is a pipeline: the left
    process writes to a new pipe and the right one reads from it; a final [&]
    of either asks for the background; in the foreground both are waited for;
    then the pipe is closed and the arguments are released, those of [&]
    excepted. *)
Theorem pipeline_line_runs p s l i1 cmd1 args1 i2 cmd2 args2
    (Hready : line_ready p s l) (Hg : ten garbage)
    (Hxs : line_spec parse_fuel (tokens [32] l) = [(i1, cmd1, args1); (i2, cmd2, args2)])
    (Hbuiltin : c_isBuiltIn cmd1 = 0 ∧ c_isBuiltIn cmd2 = 0)
    (Hpipe : ∀ cs, 0 ≤ answer ans cs (Sys 45 [])) :
  wp false (handle_line fuel lit entry garbage buffer command command_history
    command_history_buffer invalid_cmd s) (λ r p', ∃ s' ms qs1 qs2,
      let n1 := passed args1 in let n2 := passed args2 in
      r = Some s' ∧ strings p' qs1 args1 ∧ strings p' qs2 args2 ∧
      handled p s s' p' ms
        (pipeline_calls ans entry (u_calls p ++ ms) i1 (lit (c_name cmd1) :: take n1 qs1)
           i2 (lit (c_name cmd2) :: take n2 qs2) (background args1 || background args2))
        (take n1 qs1 ++ take n2 qs2) (drop n1 qs1 ++ drop n2 qs2)) p.
Proof.
  destruct Hbuiltin as [Hb1 Hb2].
  apply (wp_handle_line p s l (λ arr qss p1 rs rel, ∃ qs1 qs2, qss = [qs1; qs2] ∧
    rel = [take (passed args1) qs1; take (passed args2) qs2] ∧
    strings p1 qs1 args1 ∧ strings p1 qs2 args2 ∧
    rs = pipeline_calls ans entry (u_calls p1) i1 (lit (c_name cmd1) :: take (passed args1) qs1)
      i2 (lit (c_name cmd2) :: take (passed args2) qs2) (background args1 || background args2)));
    [done|done|by rewrite Hxs| |].
  - rewrite Hxs. intros arr p1 qss cs Hcs Hten Hamp. pose proof Hcs as [Hl _].
    destruct (entry_ready arr p1 _ qss cs 0 i1 cmd1 args1 Hcs) as (qs1 & c1 & Hq1 & Hc1 & Hbi1 & Hr1); [done..|].
    destruct (entry_ready arr p1 _ qss cs 1 i2 cmd2 args2 Hcs) as (qs2 & c2 & Hq2 & Hc2 & Hbi2 & Hr2); [done..|].
    destruct qss as [|? [|? []]]; [done..| |done]. injection Hq1 as ->. injection Hq2 as ->.
    unfold runs, run_line. cbn [length]. rewrite decide_False, decide_True by done. wp_step.
    eapply wp_kopt; [exact Hc1|]. wp_step. eapply wp_kopt; [exact Hc2|]. wp_step.
    eapply (wp_run_pipeline k H blocks room Hheap fuel lit entry arr ans Hquiet);
      [exact Hr1|exact Hr2|done|done|exact Hamp|apply Hpipe|].
    intros p2 c1' c2' n1 n2 Hr1' Hr2'. wp_step.
    destruct (ready_releasable _ _ _ _ _ _ _ _ _ Hr1') as [Hrel1 Hten1].
    destruct (ready_releasable _ _ _ _ _ _ _ _ _ Hr2') as [Hrel2 Hten2].
    eexists _, [take n1 qs1; take n2 qs2]. split; [done|]. split; [apply pipeline_quiet|].
    split; [done|]. split; [by rewrite !length_insert|].
    split; [by apply Forall_insert; [apply Forall_insert|]|].
    split; [exists qs1, qs2; do 2 (split; [done|]); do 2 (split; [by eapply ready_strings|]); done|].
    eapply two_releasable; [by apply lookup_lt_Some in Hc2|done..].
  - intros arr p1 ms rs qss rel Hms (qs1 & qs2 & -> & -> & Hq1 & Hq2 & ->).
    exists (drop (passed args1) qs1 ++ drop (passed args2) qs2). cbn [concat]. rewrite !app_nil_r. split.
    { rewrite <-(take_drop (passed args1) qs1) at 1. rewrite <-(take_drop (passed args2) qs2) at 1.
      solve_Permutation. }
    intros s' p' Hmem Hh. exists s', ms, qs1, qs2. split; [done|].
    do 2 (split; [by eapply strings_mem|]). by rewrite <-Hms.
Qed.
End line.
