(* ===== verification/SortedList.v ===== *)
(** * Sorted lists ([datastructures/list.c])

    A NULL-terminated list of nodes kept in increasing order of the
    comparison function, without equal elements.  The nodes and the buffers
    with their data live in the heap of [Queue.Concrete]; an element is the
    word its buffer holds.  [None] is an access to a node that is not live. *)

From S2P Require Import Prelude Chain MemoryManager Queue FirstFit.
Import Queue.Concrete.

Definition LIST_SIZE : Z := 40.

Record List := Lst {
  l_head : Z;
  l_iter : Z;
  l_size : Z;
  sizeOfElem : Z;
}.

Section code.
Context {St : Type} `{MemoryManager St} (cmp : Z → Z → Z).
Implicit Types (h : qheap St) (l : List).

(** [n->data], as the element in it. *)
Definition elem h (n : Z) : option Z := d ← h_data h !! n; h_cell h !! d.

(** [dirt] is what the block held: [iter] is not initialised. *)
Definition listCreate (mm : St) (size dirt : Z) : Z * List * St :=
  let '(list, mm) := mm_alloc mm LIST_SIZE in (list, Lst NULL dirt 0 size, mm).

(** [while (curr != NULL && cmp(curr->data, data) < 0)]: [prev] and [curr].
    [prev] is read only when the loop has set it. *)
Fixpoint add_loop (fuel : nat) h (data prev curr : Z) : option (Z * Z) :=
  match fuel with
  | O => None
  | S fuel =>
      if decide (curr = NULL) then Some (prev, curr)
      else
        v ← elem h curr;
        if decide (cmp v data < 0) then
          next ← h_next h !! curr; add_loop fuel h data curr next
        else Some (prev, curr)
  end.

(** [false] is the [NULL] return. *)
Definition listAdd h l (data : Z) : option (bool * List * qheap St) :=
  '(prev, curr) ← add_loop (S (size (h_next h))) h data NULL (l_head l);
  present ← (if decide (curr = NULL) then Some false
             else v ← elem h curr; Some (bool_decide (cmp v data = 0)));
  if present : bool then Some (true, l, h)
  else
    let '(aux, mm1) := mm_alloc (h_mm h) NODE_SIZE in
    if decide (aux = NULL) then Some (false, l, QHeap mm1 (h_next h) (h_data h) (h_cell h))
    else
      let '(d, mm2) := mm_alloc mm1 (sizeOfElem l) in
      if decide (d = NULL) then
        Some (false, l, QHeap (mm_free mm2 aux) (h_next h) (h_data h) (h_cell h))
      else
        let next := <[aux := curr]> (h_next h) in
        let data' := <[aux := d]> (h_data h) in
        let cell := <[d := data]> (h_cell h) in
        let size := u64 (l_size l + 1) in
        if decide (curr = l_head l) then
          Some (true, Lst aux (l_iter l) size (sizeOfElem l), QHeap mm2 next data' cell)
        else
          _ ← next !! prev;
          Some (true, Lst (l_head l) (l_iter l) size (sizeOfElem l),
                QHeap mm2 (<[prev := aux]> next) data' cell).

Fixpoint listRemove_loop (fuel : nat) h l (data prev tmp : Z) : option (List * qheap St) :=
  match fuel with
  | O => None
  | S fuel =>
      if decide (tmp = NULL) then Some (l, h)
      else
        v ← elem h tmp;
        next ← h_next h !! tmp;
        if decide (cmp v data = 0) then
          d ← h_data h !! tmp;
          let '(head, nx) := if decide (prev = NULL) then (next, h_next h)
                             else (l_head l, <[prev := next]> (h_next h)) in
          Some (Lst head (l_iter l) (u64 (l_size l - 1)) (sizeOfElem l),
                c_free_node (QHeap (h_mm h) nx (h_data h) (h_cell h)) tmp d)
        else listRemove_loop fuel h l data tmp next
  end.

Definition listRemove h l (data : Z) : option (bool * List * qheap St) :=
  if decide (l_head l = NULL) then Some (false, l, h)
  else '(l, h) ← listRemove_loop (S (size (h_next h))) h l data NULL (l_head l); Some (true, l, h).

Definition listFree h l (list : Z) : option (qheap St) :=
  h ← c_free_loop (S (size (h_next h))) h (l_head l);
  Some (QHeap (mm_free (h_mm h) list) (h_next h) (h_data h) (h_cell h)).

Definition listBeginIter l : List := Lst (l_head l) (l_head l) (l_size l) (sizeOfElem l).
Definition listHasNext l : bool := bool_decide (l_iter l ≠ NULL).
Definition listGetNext h l : option (option Z * List) :=
  if decide (l_iter l = NULL) then Some (None, l)
  else
    v ← elem h (l_iter l);
    next ← h_next h !! l_iter l;
    Some (Some v, Lst (l_head l) next (l_size l) (sizeOfElem l)).
Definition listGetSize l : Z := l_size l.
End code.

(** ** The reference: insertion into a sorted list *)

Section spec.
Context (cmp : Z → Z → Z).

Fixpoint sorted_insert (x : Z) (vs : list Z) : list Z :=
  match vs with
  | [] => [x]
  | v :: vs' => if decide (cmp v x < 0) then v :: sorted_insert x vs'
                else if decide (cmp v x = 0) then vs else x :: vs
  end.

Fixpoint sorted_remove (x : Z) (vs : list Z) : list Z :=
  match vs with
  | [] => []
  | v :: vs => if decide (cmp v x = 0) then vs else v :: sorted_remove x vs
  end.

Definition before (a b : Z) : Prop := cmp a b < 0.

(** A comparison function of C's convention. *)
Record comparison : Prop := {
  cmp_flip a b : cmp a b < 0 ↔ 0 < cmp b a;
  cmp_lt_lt a b c : cmp a b < 0 → cmp b c < 0 → cmp a c < 0;
  cmp_eq_lt a b c : cmp a b = 0 → cmp a c < 0 → cmp b c < 0;
}.
End spec.

(** The list at work over the first-fit heap, with [a - b] as comparison. *)
Definition list_demo : option (List * qheap ff_state) :=
  let h := QHeap ff_demo ∅ ∅ ∅ in
  let '(p, l, mm) := listCreate (h_mm h) 8 0xBAD in
  '(_, l, h) ← listAdd Z.sub (QHeap mm ∅ ∅ ∅) l 30;
  '(_, l, h) ← listAdd Z.sub h l 10;
  '(_, l, h) ← listAdd Z.sub h l 20;
  '(_, l, h) ← listAdd Z.sub h l 10;
  Some (l, h).

Fixpoint walk {St} (fuel : nat) (h : qheap St) (l : List) : option (list Z) :=
  match fuel with
  | O => None
  | S fuel =>
      if listHasNext l then
        '(v, l) ← listGetNext h l;
        vs ← walk fuel h l;
        Some (match v with Some v => v :: vs | None => vs end)
      else Some []
  end.

Example list_demo_sorted :
  ('(l, h) ← list_demo; walk 10 h (listBeginIter l)) = Some [10; 20; 30].
Proof. by vm_compute. Qed.

(** ** Representation *)

(** The blocks the nodes own. *)
Definition blocks (ns : list node) : list Z := (n_self <$> ns) ++ (n_data <$> ns).
Definition vals (ns : list node) : list Z := n_val <$> ns.

Record list_rep {St} (h : qheap St) (l : List) (ns : list node) : Prop := {
  lr_chain : lseg (h_next h) (l_head l) (n_self <$> ns) NULL;
  lr_data n : n ∈ ns → h_data h !! n_self n = Some (n_data n);
  lr_cell n : n ∈ ns → h_cell h !! n_data n = Some (n_val n);
  lr_nodup : NoDup (blocks ns);
  lr_nonnull : NULL ∉ blocks ns;
  lr_size : l_size l = Z.of_nat (length ns);
  lr_bound : Z.of_nat (length ns) < 2 ^ 64;
}.

Section rep.
Context {St : Type}.
Implicit Types (h : qheap St) (l : List) (ns pre post : list node).

Lemma blocks_middle pre n post : blocks (pre ++ n :: post) ≡ₚ n_self n :: n_data n :: blocks (pre ++ post).
Proof. unfold blocks. rewrite !fmap_app, !fmap_cons. solve_Permutation. Qed.

Lemma self_in_blocks ns n : n ∈ ns → n_self n ∈ blocks ns.
Proof. intros Hn. apply elem_of_app. left. by apply list_elem_of_fmap_2. Qed.
Lemma data_in_blocks ns n : n ∈ ns → n_data n ∈ blocks ns.
Proof. intros Hn. apply elem_of_app. right. by apply list_elem_of_fmap_2. Qed.

Lemma list_rep_ext h h' l ns :
  list_rep h l ns → h_next h' = h_next h → h_data h' = h_data h → h_cell h' = h_cell h →
  list_rep h' l ns.
Proof. intros [] En Ed Ec. constructor; rewrite ?En, ?Ed, ?Ec; try done. Qed.

(** A node in the middle. *)
Lemma list_rep_node h l ns pre n post :
  list_rep h l ns → ns = pre ++ n :: post →
  lseg (h_next h) (l_head l) (n_self <$> pre) (n_self n) ∧
  h_next h !! n_self n = Some (hd NULL (n_self <$> post)) ∧
  lseg (h_next h) (hd NULL (n_self <$> post)) (n_self <$> post) NULL ∧
  elem h (n_self n) = Some (n_val n) ∧ h_data h !! n_self n = Some (n_data n) ∧ n_self n ≠ NULL.
Proof.
  intros Hr ->. pose proof (lr_chain _ _ _ Hr) as Hc. rewrite fmap_app, fmap_cons in Hc.
  apply lseg_middle in Hc as (Hpre & nx & Hnx & Hpost).
  assert (nx = hd NULL (n_self <$> post)) as ->.
  { apply lseg_head in Hpost as ->. by destruct post. }
  assert (n ∈ pre ++ n :: post) as Hin by set_solver.
  split_and!; try done.
  - unfold elem. rewrite (lr_data _ _ _ Hr n Hin). cbn. by apply (lr_cell _ _ _ Hr).
  - by apply (lr_data _ _ _ Hr).
  - intros Hn. apply (lr_nonnull _ _ _ Hr). rewrite <-Hn. by apply self_in_blocks.
Qed.

(** The head is [NULL] or the first node. *)
Lemma list_rep_head h l ns : list_rep h l ns → l_head l = hd NULL (n_self <$> ns).
Proof. intros Hr. apply (lr_chain _ _ _) in Hr. by apply lseg_head in Hr. Qed.

Lemma list_rep_fuel h l ns : list_rep h l ns → (length ns < S (size (h_next h)))%nat.
Proof.
  intros Hr. pose proof (lr_chain _ _ _ Hr) as Hc. pose proof (lr_nodup _ _ _ Hr) as Hd.
  apply NoDup_app in Hd as [Hd _]. apply lseg_length in Hc; [|done].
  rewrite length_fmap in Hc. lia.
Qed.

(** Linking a fresh node between [pre] and [post]. *)
Lemma link_rep h l pre post p d v (mm : St) nx' hd' :
  list_rep h l (pre ++ post) → Z.of_nat (length (pre ++ post)) + 1 < 2 ^ 64 →
  p ≠ NULL → d ≠ NULL → p ≠ d → p ∉ blocks (pre ++ post) → d ∉ blocks (pre ++ post) →
  lseg nx' hd' (n_self <$> pre ++ Node p d v :: post) NULL →
  list_rep (QHeap mm nx' (<[p := d]> (h_data h)) (<[d := v]> (h_cell h)))
    (Lst hd' (l_iter l) (u64 (l_size l + 1)) (sizeOfElem l)) (pre ++ Node p d v :: post).
Proof.
  intros Hr Hb Hp Hd Hpd Hpf Hdf Hl. pose proof Hr as Hr'. destruct Hr'.
  assert (∀ n, n ∈ pre ++ Node p d v :: post → n = Node p d v ∨ n ∈ pre ++ post) as Hin
    by set_solver.
  constructor; cbn; try done.
  - intros n [->|Hn]%Hin; [apply lookup_insert_eq|]. rewrite lookup_insert_ne; [auto|].
    intros ->. apply Hpf. by apply self_in_blocks.
  - intros n [->|Hn]%Hin; [apply lookup_insert_eq|]. rewrite lookup_insert_ne; [auto|].
    intros ->. apply Hdf. by apply data_in_blocks.
  - rewrite blocks_middle. cbn. apply NoDup_cons. split; [set_solver|]. by apply NoDup_cons.
  - rewrite blocks_middle. cbn. set_solver.
  - rewrite lr_size0, !length_app in *. cbn. no_wrap. lia.
  - rewrite !length_app in *. cbn. lia.
Qed.

(** Unlinking a node. *)
Lemma unlink_rep `{MemoryManager St} h l pre n post nx' hd' :
  list_rep h l (pre ++ n :: post) → lseg nx' hd' (n_self <$> pre ++ post) NULL →
  list_rep (c_free_node (QHeap (h_mm h) nx' (h_data h) (h_cell h)) (n_self n) (n_data n))
    (Lst hd' (l_iter l) (u64 (l_size l - 1)) (sizeOfElem l)) (pre ++ post).
Proof.
  intros Hr Hl. pose proof Hr as Hr'. destruct Hr'.
  rewrite blocks_middle in lr_nodup0, lr_nonnull0.
  apply NoDup_cons in lr_nodup0 as [Hn1 [Hn2 Hnd]%NoDup_cons].
  assert (∀ m, m ∈ pre ++ post → m ∈ pre ++ n :: post) as Hsub by set_solver.
  constructor; cbn; try done.
  - apply lseg_frame_delete; [|done]. unfold blocks in Hn1. set_solver.
  - intros m Hm. rewrite lookup_delete_ne; [auto|]. intros E. apply Hn1. rewrite E.
    apply elem_of_cons. right. by apply self_in_blocks.
  - intros m Hm. rewrite lookup_delete_ne; [auto|]. intros E. apply Hn2. rewrite E.
    by apply data_in_blocks.
  - set_solver.
  - rewrite lr_size0, !length_app in *. cbn in *. no_wrap. lia.
  - rewrite !length_app in *. cbn in *. lia.
Qed.
End rep.

(** ** The reference *)

Section reference.
Context (cmp : Z → Z → Z) (Hcmp : comparison cmp).
Implicit Types (vs : list Z).

Lemma cmp_eq_sym a b : cmp a b = 0 → cmp b a = 0.
Proof. pose proof (cmp_flip _ Hcmp a b). pose proof (cmp_flip _ Hcmp b a). lia. Qed.

(** Smaller elements are passed over. *)
Lemma sorted_insert_skip x pre post : Forall (λ v, cmp v x < 0) pre →
  sorted_insert cmp x (pre ++ post) = pre ++ sorted_insert cmp x post.
Proof.
  induction 1 as [|v pre Hv _ IH]; [done|]. cbn [app sorted_insert]. by rewrite decide_True, IH.
Qed.

Lemma sorted_remove_skip x pre post : Forall (λ v, cmp v x ≠ 0) pre →
  sorted_remove cmp x (pre ++ post) = pre ++ sorted_remove cmp x post.
Proof.
  induction 1 as [|v pre Hv _ IH]; [done|]. cbn [app sorted_remove]. by rewrite decide_False, IH.
Qed.

Lemma sorted_insert_elem x vs v : v ∈ sorted_insert cmp x vs → v = x ∨ v ∈ vs.
Proof.
  induction vs as [|u vs IH]; cbn [sorted_insert]; [set_solver|]. repeat case_decide; set_solver.
Qed.

Lemma sorted_remove_elem x vs v : v ∈ sorted_remove cmp x vs → v ∈ vs.
Proof.
  induction vs as [|u vs IH]; cbn [sorted_remove]; [done|]. case_decide; set_solver.
Qed.

(** Both keep the list strictly sorted. *)
Lemma sorted_insert_sorted x vs :
  StronglySorted (before cmp) vs → StronglySorted (before cmp) (sorted_insert cmp x vs).
Proof.
  induction 1 as [|v vs Hs IH Hv]; cbn [sorted_insert]; [repeat constructor|].
  case_decide as H1; [|case_decide as H2]; [|by constructor|].
  - constructor; [done|]. apply Forall_forall. intros u [->|Hu]%sorted_insert_elem; [done|].
    by eapply Forall_forall in Hv.
  - assert (before cmp x v) as Hxv.
    { unfold before. pose proof (cmp_flip _ Hcmp v x). apply (cmp_flip _ Hcmp). lia. }
    constructor; [by constructor|]. constructor; [done|]. eapply Forall_impl; [exact Hv|].
    intros u Hu. by eapply (cmp_lt_lt _ Hcmp).
Qed.

Lemma sorted_remove_sorted x vs :
  StronglySorted (before cmp) vs → StronglySorted (before cmp) (sorted_remove cmp x vs).
Proof.
  induction 1 as [|v vs Hs IH Hv]; cbn [sorted_remove]; [constructor|]. case_decide; [done|].
  constructor; [done|]. apply Forall_forall. intros u Hu%sorted_remove_elem.
  by eapply Forall_forall in Hv.
Qed.

(** In a sorted list one element at most is equal to [x]. *)
Lemma sorted_remove_gone x vs :
  StronglySorted (before cmp) vs → Forall (λ v, cmp v x ≠ 0) (sorted_remove cmp x vs).
Proof.
  induction 1 as [|v vs Hs IH Hv]; cbn [sorted_remove]; [constructor|].
  case_decide as Hx; [|by constructor]. eapply Forall_impl; [exact Hv|]. intros u Hu Hux.
  apply cmp_eq_sym in Hux. pose proof (cmp_eq_lt _ Hcmp v x u Hx Hu). lia.
Qed.
End reference.

(** ** The operations *)

Section operations.
Context {St : Type} `{MemoryManagerOk St} (cmp : Z → Z → Z) (Hcmp : comparison cmp).
Implicit Types (h : qheap St) (l : List) (ns pre post : list node).

(** The loop stops at the first element that is not smaller. *)
Lemma add_loop_spec h l x post : ∀ fuel pre,
  list_rep h l (pre ++ post) → (length post < fuel)%nat → Forall (λ n, cmp (n_val n) x < 0) pre →
  ∃ pre' post', pre ++ post = pre' ++ post' ∧ Forall (λ n, cmp (n_val n) x < 0) pre' ∧
    (∀ n, post' !! 0%nat = Some n → ¬ cmp (n_val n) x < 0) ∧
    add_loop cmp fuel h x (default NULL (last (n_self <$> pre))) (hd NULL (n_self <$> post)) =
      Some (default NULL (last (n_self <$> pre')), hd NULL (n_self <$> post')).
Proof.
  induction post as [|n post IH]; intros [|fuel] pre Hr Hf Hpre; cbn [length] in Hf; try lia;
    cbn [add_loop fmap list_fmap list_fmap hd].
  - exists pre, []. by rewrite decide_True.
  - destruct (list_rep_node h l _ pre n post Hr eq_refl) as (_ & Hnx & _ & Hv & _ & Hn0).
    rewrite decide_False, Hv by done. cbn [mbind option_bind]. case_decide as Hlt.
    + rewrite Hnx. cbn [mbind option_bind].
      destruct (IH fuel (pre ++ [n])) as (pre' & post' & E & Hp' & Hh & Hl).
      * by rewrite <-app_assoc.
      * lia.
      * apply Forall_app. split; [done|]. by constructor.
      * rewrite fmap_app, last_app in Hl. cbn [fmap list_fmap list_fmap last default] in Hl. rewrite <-app_assoc in E. by exists pre', post'.
    + exists pre, (n :: post). split; [done|]. split; [done|]. split; [|done]. by intros ? [= <-].
Qed.

(** Only the first element not smaller can be equal. *)
Lemma present_spec h l pre post x :
  list_rep h l (pre ++ post) → (∀ n, post !! 0%nat = Some n → ¬ cmp (n_val n) x < 0) →
  ∃ b, (if decide (hd NULL (n_self <$> post) = NULL) then Some false
        else v ← elem h (hd NULL (n_self <$> post)); Some (bool_decide (cmp v x = 0))) = Some b ∧
    sorted_insert cmp x (vals post) = if b : bool then vals post else x :: vals post.
Proof.
  intros Hr Hh. destruct post as [|n post]; cbn [fmap list_fmap list_fmap hd].
  - exists false. by rewrite decide_True.
  - destruct (list_rep_node h l _ pre n post Hr eq_refl) as (_ & _ & _ & Hv & _ & Hn0).
    rewrite decide_False, Hv by done. eexists. split; [done|]. cbn [vals fmap list_fmap list_fmap sorted_insert].
    specialize (Hh n eq_refl). rewrite decide_False by done. case_bool_decide; by case_decide.
Qed.

(** Both ways of linking the new node. *)
Lemma link_chain h l pre post p :
  list_rep h l (pre ++ post) → p ∉ blocks (pre ++ post) →
  let next := <[p := hd NULL (n_self <$> post)]> (h_next h) in
  let first := bool_decide (hd NULL (n_self <$> post) = l_head l) in
  let prev := default NULL (last (n_self <$> pre)) in
  (first = false → is_Some (next !! prev)) ∧
  ∀ d v, lseg (if first then next else <[prev := p]> next) (if first then p else l_head l)
           (n_self <$> pre ++ Node p d v :: post) NULL.
Proof.
  intros Hr Hp next first prev. pose proof (lr_chain _ _ _ Hr) as Hc.
  pose proof (list_rep_head _ _ _ Hr) as Hhd. pose proof (lr_nodup _ _ _ Hr) as Hnd.
  assert (p ∉ n_self <$> pre ++ post) as Hps by (unfold blocks in Hp; set_solver).
  apply NoDup_app in Hnd as [Hnd _]. rewrite fmap_app in Hc, Hps, Hnd.
  assert (lseg (h_next h) (hd NULL (n_self <$> post)) (n_self <$> post) NULL) as Hpost.
  { apply lseg_app in Hc as (z & _ & Hz). pose proof (lseg_head _ _ _ _ Hz) as ->. by destruct post. }
  destruct pre as [|m pre _] using rev_ind.
  - assert (first = true) as -> by (apply bool_decide_eq_true_2; by rewrite Hhd).
    split; [done|]. intros d v. cbn. split; [done|]. eexists. split; [apply lookup_insert_eq|].
    apply lseg_frame; [set_solver|done].
  - assert (first = false) as ->.
    { apply bool_decide_eq_false_2. rewrite Hhd. intros E.
      assert (NULL ∉ blocks ((pre ++ [m]) ++ post)) as Hnn by apply (lr_nonnull _ _ _ Hr).
      rewrite fmap_app in Hnd. destruct post as [|n post]; cbn in E.
      - destruct pre as [|k pre]; cbn in E; apply Hnn; rewrite E; unfold blocks;
          rewrite !fmap_app; set_solver.
      - apply NoDup_app in Hnd as (_ & Hdis & _). apply (Hdis (n_self n)); [|set_solver].
        rewrite E. destruct pre as [|k pre]; cbn; set_solver. }
    assert (prev = n_self m) as -> by (unfold prev; by rewrite fmap_app, last_app).
    rewrite fmap_app in Hc, Hps, Hnd. cbn in Hc, Hps, Hnd.
    rewrite <-app_assoc in Hc. apply lseg_middle in Hc as (Hpre & nx & Hnx & _).
    assert (n_self m ≠ p) as Hmp by set_solver.
    apply NoDup_app in Hnd as (Hnd & Hdis & _). apply NoDup_app in Hnd as (_ & Hdis2 & _).
    assert (n_self m ∉ n_self <$> pre) as Hm1 by (intros Hin; apply (Hdis2 _ Hin); set_solver).
    assert (n_self m ∉ n_self <$> post) as Hm2 by (intros Hin; apply (Hdis (n_self m)); set_solver).
    split.
    { intros _. unfold next. rewrite lookup_insert_ne by done. by eexists. }
    intros d v. rewrite !fmap_app. cbn. rewrite <-app_assoc. apply lseg_middle. split.
    + apply lseg_frame; [done|]. apply lseg_frame; [set_solver|done].
    + eexists. split; [apply lookup_insert_eq|]. cbn. split; [done|]. eexists.
      split; [rewrite lookup_insert_ne by done; apply lookup_insert_eq|].
      apply lseg_frame; [done|]. apply lseg_frame; [set_solver|done].
Qed.

(** The blocks of the list are live. *)
Definition owns (B : gmap Z Z) ns : Prop := ∀ a, a ∈ blocks ns → is_Some (B !! a).

Lemma blocks_fresh B ns p : owns B ns → B !! p = None → p ∉ blocks ns.
Proof. intros Hown Hp Hin. apply Hown in Hin as [? Hin]. congruence. Qed.

Lemma list_remove_loop_spec h l x post : ∀ fuel pre prev,
  list_rep h l (pre ++ post) → (length post < fuel)%nat →
  Forall (λ n, cmp (n_val n) x ≠ 0) pre → prev = default NULL (last (n_self <$> pre)) →
  ∃ l' h', listRemove_loop cmp fuel h l x prev (hd NULL (n_self <$> post)) = Some (l', h') ∧
    ((h' = h ∧ l' = l ∧ Forall (λ n, cmp (n_val n) x ≠ 0) post) ∨
     ∃ pre' n post', pre ++ post = pre' ++ n :: post' ∧
       Forall (λ n, cmp (n_val n) x ≠ 0) pre' ∧ cmp (n_val n) x = 0 ∧
       list_rep h' l' (pre' ++ post') ∧
       h_mm h' = mm_free (mm_free (h_mm h) (n_data n)) (n_self n)).
Proof.
  induction post as [|n post IH]; intros [|fuel] pre prev Hr Hf Hpre Hprev; cbn [length] in Hf;
    try lia; cbn [listRemove_loop fmap list_fmap list_fmap hd].
  { rewrite decide_True by done. eauto 8. }
  destruct (list_rep_node h l _ pre n post Hr eq_refl) as (Hl1 & Hnx & Hl2 & Hv & Hd & Hn0).
  rewrite decide_False, Hv, Hnx by done. cbn [mbind option_bind]. case_decide as Heq.
  2: { destruct (IH fuel (pre ++ [n]) (n_self n)) as (l' & h' & -> & Hres).
       - by rewrite <-app_assoc.
       - lia.
       - apply Forall_app. split; [done|]. by constructor.
       - by rewrite fmap_app, last_app.
       - exists l', h'. split; [done|]. destruct Hres as [(-> & -> & Hno)|(pre' & m & post' & E & Hres)].
         + left. split; [done|]. split; [done|]. by constructor.
         + right. exists pre', m, post'. rewrite <-app_assoc in E. by split. }
  rewrite Hd. cbn [mbind option_bind].
  assert (∀ nx' hd', lseg nx' hd' (n_self <$> pre ++ post) NULL → ∃ l' h',
    Some (Lst hd' (l_iter l) (u64 (l_size l - 1)) (sizeOfElem l),
      c_free_node (QHeap (h_mm h) nx' (h_data h) (h_cell h)) (n_self n) (n_data n)) =
      Some (l', h') ∧
    ((h' = h ∧ l' = l ∧ Forall (λ n, cmp (n_val n) x ≠ 0) (n :: post)) ∨
     ∃ pre' n0 post', pre ++ n :: post = pre' ++ n0 :: post' ∧
       Forall (λ n, cmp (n_val n) x ≠ 0) pre' ∧ cmp (n_val n0) x = 0 ∧
       list_rep h' l' (pre' ++ post') ∧
       h_mm h' = mm_free (mm_free (h_mm h) (n_data n0)) (n_self n0))) as Hdone.
  { intros nx' hd' Hl. eexists _, _. split; [done|]. right. exists pre, n, post.
    split; [done|]. split; [done|]. split; [done|]. split; [by apply unlink_rep|done]. }
  destruct pre as [|m pre _] using rev_ind; cbn [fmap list_fmap list_fmap last] in Hprev.
  { rewrite decide_True by done. by apply Hdone. }
  rewrite fmap_app, last_app in Hprev. cbn in Hprev.
  destruct (list_rep_node h l _ pre m (n :: post) Hr) as (Hl0 & _ & _ & _ & _ & Hm0);
    [by rewrite <-app_assoc|].
  rewrite decide_False by (by subst). apply Hdone. rewrite !fmap_app, <-app_assoc, Hprev. cbn.
  pose proof (lr_nodup _ _ _ Hr) as Hnd. apply NoDup_app in Hnd as [Hnd _].
  rewrite !fmap_app, <-app_assoc in Hnd. cbn in Hnd.
  apply NoDup_app in Hnd as (_ & Hdis & [Hm1 _]%NoDup_cons).
  apply lseg_middle. split.
  - apply lseg_frame; [|done]. intros Hin. apply (Hdis _ Hin). set_solver.
  - eexists. split; [apply lookup_insert_eq|]. apply lseg_frame; [set_solver|done].
Qed.

(** A node of two fresh blocks keeps the list's blocks its own. *)
Lemma owns_middle (B : gmap Z Z) pre post p d x m1 m2 :
  p ≠ d → owns B (pre ++ post) →
  owns (<[d := m2]> (<[p := m1]> B)) (pre ++ Node p d x :: post).
Proof.
  intros Hpd Hown a Ha. rewrite blocks_middle in Ha. cbn in Ha.
  apply elem_of_cons in Ha as [->|[->|Ha]%elem_of_cons].
  - rewrite lookup_insert_ne by done. rewrite lookup_insert_eq. by eexists.
  - rewrite lookup_insert_eq. by eexists.
  - rewrite !lookup_insert_is_Some. destruct (decide (d = a)); [by left|right].
    split; [done|]. destruct (decide (p = a)); [by left|right]. split; [done|]. by apply Hown.
Qed.

(** Walking from a node on. *)
Lemma walk_spec h l post : ∀ fuel pre,
  list_rep h l (pre ++ post) → (length post < fuel)%nat →
  walk fuel h (Lst (l_head l) (hd NULL (n_self <$> post)) (l_size l) (sizeOfElem l)) =
    Some (vals post).
Proof.
  induction post as [|n post IH]; intros [|fuel] pre Hr Hf; cbn [length] in Hf; try lia;
    cbn [walk]; unfold listHasNext; cbn [l_iter fmap list_fmap list_fmap hd]; [done|].
  destruct (list_rep_node h l _ pre n post Hr eq_refl) as (_ & Hnx & _ & Hv & _ & Hn0).
  rewrite bool_decide_eq_true_2 by done. unfold listGetNext. cbn [l_iter].
  rewrite decide_False, Hv, Hnx by done. cbn [mbind option_bind l_head l_size sizeOfElem].
  rewrite (IH fuel (pre ++ [n])); [done|by rewrite <-app_assoc|lia].
Qed.
End operations.

(** * Properties *)

Section properties.
Context {St : Type} `{MemoryManagerOk St}.
Implicit Types (h : qheap St) (l : List) (ns : list node).

(** C34: [listAdd] puts the element in its place: afterwards the list is the
    sorted insertion of the element into what it was (an element that
    compares equal stays), it is strictly sorted again, and all its blocks
    are live and its own.  It answers [NULL], and nothing changes, only when
    an allocation is refused. *)
Theorem listAdd_correct (cmp : Z → Z → Z) h l ns B x (Hcmp : comparison cmp)
    (Hinv : mm_inv (h_mm h) B) (Hown : owns B ns) (Hr : list_rep h l ns)
    (Hs : StronglySorted (before cmp) (vals ns)) (Hsz : 0 < sizeOfElem l < mm_max_request)
    (Hb : Z.of_nat (length ns) + 1 < 2 ^ 64) :
  ∃ ok l' h' ns' B', listAdd cmp h l x = Some (ok, l', h') ∧ list_rep h' l' ns' ∧
    vals ns' = (if ok : bool then sorted_insert cmp x (vals ns) else vals ns) ∧
    StronglySorted (before cmp) (vals ns') ∧ mm_inv (h_mm h') B' ∧ owns B' ns' ∧
    (ok = false → (mm_alloc (h_mm h) NODE_SIZE).1 = NULL ∨
       (mm_alloc (mm_alloc (h_mm h) NODE_SIZE).2 (sizeOfElem l)).1 = NULL).
Proof.
  unfold listAdd.
  destruct (add_loop_spec cmp h l x ns (S (size (h_next h))) [])
    as (pre & post & E & Hpre & Hh & Hloop); [done|by eapply list_rep_fuel|constructor|].
  change (default NULL (last (n_self <$> ([] : list node)))) with 0 in Hloop.
  cbn [app] in E, Hloop. subst ns. rewrite (list_rep_head _ _ _ Hr), Hloop. cbn [mbind option_bind].
  destruct (present_spec cmp h l pre post x Hr Hh) as (b & Hpb & Hins). rewrite Hpb.
  cbn [mbind option_bind].
  assert (sorted_insert cmp x (vals (pre ++ post)) = vals pre ++ sorted_insert cmp x (vals post))
    as Hall.
  { unfold vals. rewrite fmap_app. apply sorted_insert_skip. by apply Forall_fmap. }
  destruct b.
  { exists true, l, h, (pre ++ post), B. rewrite Hall, Hins. unfold vals in *.
    rewrite fmap_app in *. by split_and!. }
  assert (0 < NODE_SIZE < mm_max_request) as Hns by done.
  pose proof (mm_alloc_ok (h_mm h) B NODE_SIZE Hinv Hns) as A1.
  destruct (mm_alloc (h_mm h) NODE_SIZE) as [p mm1] eqn:E1. case_decide as Hp.
  { exists false, l, (QHeap mm1 (h_next h) (h_data h) (h_cell h)), (pre ++ post), B. subst mm1.
    split; [done|]. split; [by apply (list_rep_ext h)|]. by split_and!; [..|intros _; left]. }
  destruct A1 as [Hpf (m1 & _ & Hinv1)].
  pose proof (mm_alloc_ok mm1 _ _ Hinv1 Hsz) as A2.
  destruct (mm_alloc mm1 (sizeOfElem l)) as [d mm2] eqn:E2. case_decide as Hd.
  { exists false, l, (QHeap (mm_free mm2 p) (h_next h) (h_data h) (h_cell h)), (pre ++ post), B.
    subst mm2. split; [done|]. split; [by apply (list_rep_ext h)|]. split; [done|].
    split; [done|]. split.
    - cbn. replace B with (delete p (<[p := m1]> B)).
      + eapply mm_free_ok; [exact Hinv1|apply lookup_insert_eq].
      + by rewrite delete_insert_id.
    - split; [done|]. intros _. right. cbn. by rewrite E2. }
  destruct A2 as [Hdf (m2 & _ & Hinv2)]. apply lookup_insert_None in Hdf as [HdB Hpd].
  pose proof (blocks_fresh B _ p Hown Hpf) as Hpb1. pose proof (blocks_fresh B _ d Hown HdB) as Hdb1.
  destruct (link_chain cmp Hcmp h l pre post p Hr Hpb1) as [Hprev Hlink]. specialize (Hlink d x).
  assert (StronglySorted (before cmp) (vals (pre ++ Node p d x :: post))) as Hs'.
  { unfold vals. rewrite fmap_app. cbn. fold (vals pre) (vals post). rewrite <-Hins, <-Hall.
    by apply sorted_insert_sorted. }
  assert (vals (pre ++ Node p d x :: post) = sorted_insert cmp x (vals (pre ++ post))) as Hv'.
  { rewrite Hall, Hins. unfold vals. by rewrite fmap_app. }
  assert (owns (<[d := m2]> (<[p := m1]> B)) (pre ++ Node p d x :: post)) as Hown'.
  { by apply owns_middle. }
  rewrite <-(list_rep_head _ _ _ Hr).
  destruct (decide (hd NULL (n_self <$> post) = l_head l)) as [Hf|Hf].
  - rewrite bool_decide_eq_true_2 in Hlink by done. eexists true, _, _, _, _.
    split; [done|]. split; [apply link_rep; (done || apply Hlink)|]. by split_and!.
  - rewrite bool_decide_eq_false_2 in Hprev, Hlink by done.
    destruct (Hprev eq_refl) as [y Hy]. rewrite Hy. cbn [mbind option_bind].
    eexists true, _, _, _, _. split; [done|].
    split; [apply link_rep; (done || apply Hlink)|]. by split_and!.
Qed.

(** [listRemove] takes out the element that compares equal, if there is
    one, releases its two blocks and keeps the list strictly sorted; on an
    empty list it answers [NULL]. *)
Theorem listRemove_correct (cmp : Z → Z → Z) h l ns B x (Hcmp : comparison cmp)
    (Hinv : mm_inv (h_mm h) B) (Hown : owns B ns) (Hr : list_rep h l ns)
    (Hs : StronglySorted (before cmp) (vals ns)) :
  ∃ l' h' ns' B', listRemove cmp h l x = Some (bool_decide (ns ≠ []), l', h') ∧
    list_rep h' l' ns' ∧ vals ns' = sorted_remove cmp x (vals ns) ∧
    StronglySorted (before cmp) (vals ns') ∧ Forall (λ v, cmp v x ≠ 0) (vals ns') ∧
    mm_inv (h_mm h') B' ∧ owns B' ns'.
Proof.
  unfold listRemove. pose proof (list_rep_head _ _ _ Hr) as Hhd. destruct (decide (ns = [])) as [->|Hne].
  { rewrite decide_True by done. rewrite bool_decide_eq_false_2 by tauto.
    exists l, h, [], B. by split_and!. }
  assert (l_head l ≠ NULL) as Hh0.
  { rewrite Hhd. destruct ns as [|n ns]; [done|].
    by destruct (list_rep_node h l _ [] n ns Hr eq_refl) as (_ & _ & _ & _ & _ & ?). }
  rewrite bool_decide_eq_true_2, decide_False by done.
  destruct (list_remove_loop_spec cmp Hcmp h l x ns (S (size (h_next h))) [] NULL)
    as (l' & h' & Hloop & Hres); [done|by eapply list_rep_fuel|constructor|done|].
  rewrite Hhd, Hloop. cbn [mbind option_bind]. exists l', h'.
  destruct Hres as [(-> & -> & Hno)|(pre & n & post & E & Hpre & Hn & Hr' & Hmm)].
  - assert (sorted_remove cmp x (vals ns) = vals ns) as Hsame.
    { rewrite <-(app_nil_r (vals ns)), sorted_remove_skip by by apply Forall_fmap. done. }
    exists ns, B. rewrite Hsame. split_and!; try done. by apply Forall_fmap.
  - cbn [app] in E. subst ns.
    assert (vals (pre ++ post) = sorted_remove cmp x (vals (pre ++ n :: post))) as Hv.
    { unfold vals. rewrite !fmap_app, fmap_cons, sorted_remove_skip by by apply Forall_fmap.
      cbn [sorted_remove]. by rewrite decide_True. }
    pose proof (lr_nodup _ _ _ Hr) as Hnd. rewrite blocks_middle in Hnd.
    apply NoDup_cons in Hnd as [Hn1 [Hn2 _]%NoDup_cons].
    destruct (Hown (n_data n)) as [md Hmd]; [rewrite blocks_middle; set_solver|].
    destruct (Hown (n_self n)) as [mn Hmn]; [rewrite blocks_middle; set_solver|].
    exists (pre ++ post), (delete (n_self n) (delete (n_data n) B)). split_and!; try done.
    + rewrite Hv. by apply sorted_remove_sorted.
    + rewrite Hv. by apply sorted_remove_gone.
    + rewrite Hmm. eapply mm_free_ok; [by eapply mm_free_ok|].
      rewrite lookup_delete_ne by set_solver. done.
    + intros a Ha. rewrite !lookup_delete_ne.
      * apply Hown. rewrite blocks_middle. by do 2 (apply elem_of_cons; right).
      * intros <-. by apply Hn2.
      * intros <-. apply Hn1, elem_of_cons. by right.
Qed.

(** Walking the list with [listBeginIter], [listHasNext] and
    [listGetNext] ends after its length and gives its elements in order; but
    an iterator whose node is removed meanwhile is left on freed memory. *)
Theorem list_iteration h l ns (Hr : list_rep h l ns) :
  walk (S (length ns)) h (listBeginIter l) = Some (vals ns) ∧
  ∀ pre n post, ns = pre ++ n :: post →
    listGetNext (c_free_node h (n_self n) (n_data n))
      (Lst (l_head l) (n_self n) (l_size l) (sizeOfElem l)) = None.
Proof.
  split.
  - pose proof (walk_spec h l ns (S (length ns)) [] Hr) as Hw.
    rewrite <-(list_rep_head h l ns Hr) in Hw. apply Hw. lia.
  - intros pre n post E. destruct (list_rep_node h l _ pre n post Hr E) as (_ & _ & _ & _ & _ & Hn0).
    unfold listGetNext. cbn [l_iter]. rewrite decide_False by done.
    unfold elem, c_free_node. cbn [h_data]. by rewrite lookup_delete_eq.
Qed.
End properties.

(** ** Concrete instances: a list of one node with the element 30 *)

Definition node_at : Z := (mm_alloc ff_demo NODE_SIZE).1.
Definition mm_node : ff_state := (mm_alloc ff_demo NODE_SIZE).2.
Definition data_at : Z := (mm_alloc mm_node 8).1.
Definition mm_data : ff_state := (mm_alloc mm_node 8).2.
Definition one_node : list node := [Node node_at data_at 30].
Definition one_heap : qheap ff_state :=
  QHeap mm_data {[node_at := NULL]} {[node_at := data_at]} {[data_at := 30]}.
Definition one_list : List := Lst node_at NULL 1 8.

Lemma one_blocks : ∃ B, mm_inv mm_data B ∧ owns B one_node.
Proof.
  assert (mm_inv ff_demo ∅) as Hinv by (apply ff_boot_inv; lia).
  assert (0 < NODE_SIZE < mm_max_request ∧ 0 < 8 < mm_max_request) as [Hn Hd] by done.
  pose proof (mm_alloc_ok ff_demo ∅ NODE_SIZE Hinv Hn) as A1.
  rewrite (surjective_pairing (mm_alloc ff_demo NODE_SIZE)), decide_False in A1 by by vm_compute.
  destruct A1 as [_ (m1 & _ & Hinv1)].
  pose proof (mm_alloc_ok mm_node _ 8 Hinv1 Hd) as A2.
  rewrite (surjective_pairing (mm_alloc mm_node 8)), decide_False in A2 by by vm_compute.
  destruct A2 as [_ (m2 & _ & Hinv2)]. eexists. split; [exact Hinv2|].
  intros a [->|[->|[]%elem_of_nil]%elem_of_cons]%elem_of_cons.
  - rewrite lookup_insert_ne by by vm_compute. rewrite lookup_insert_eq. by eexists.
  - rewrite lookup_insert_eq. by eexists.
Qed.

Lemma one_rep : list_rep one_heap one_list one_node.
Proof.
  constructor; try done.
  - split; [done|]. exists NULL. split; [apply lookup_insert_eq|done].
  - intros n ->%list_elem_of_singleton. apply lookup_insert_eq.
  - intros n ->%list_elem_of_singleton. apply lookup_insert_eq.
  - by apply (bool_decide_unpack _); vm_compute.
  - by apply (bool_decide_unpack _); vm_compute.
Qed.

Lemma sub_comparison : comparison Z.sub.
Proof. split; lia. Qed.

Lemma listAdd_correct_witness :
  ∃ B ok l' h' ns' B', mm_inv mm_data B ∧ listAdd Z.sub one_heap one_list 10 = Some (ok, l', h') ∧
    list_rep h' l' ns' ∧ vals ns' = (if ok : bool then [10; 30] else [30]) ∧
    StronglySorted (before Z.sub) (vals ns') ∧ mm_inv (h_mm h') B' ∧ owns B' ns' ∧
    (ok = false → (mm_alloc mm_data NODE_SIZE).1 = NULL ∨
       (mm_alloc (mm_alloc mm_data NODE_SIZE).2 8).1 = NULL).
Proof.
  destruct one_blocks as (B & Hinv & Hown).
  destruct (listAdd_correct Z.sub one_heap one_list one_node B 10 sub_comparison Hinv Hown one_rep)
    as (ok & l' & h' & ns' & B' & Hres); [repeat constructor|done|done|].
  exists B, ok, l', h', ns', B'. split; [exact Hinv|exact Hres].
Defined.

Lemma listRemove_correct_witness :
  ∃ B l' h' ns' B', mm_inv mm_data B ∧ listRemove Z.sub one_heap one_list 30 = Some (true, l', h') ∧
    list_rep h' l' ns' ∧ vals ns' = [] ∧ StronglySorted (before Z.sub) (vals ns') ∧
    Forall (λ v, v - 30 ≠ 0) (vals ns') ∧ mm_inv (h_mm h') B' ∧ owns B' ns'.
Proof.
  destruct one_blocks as (B & Hinv & Hown).
  destruct (listRemove_correct Z.sub one_heap one_list one_node B 30 sub_comparison Hinv Hown one_rep)
    as (l' & h' & ns' & B' & Hres); [repeat constructor|].
  exists B, l', h', ns', B'. split; [exact Hinv|exact Hres].
Defined.

Lemma list_iteration_witness :
  walk 2 one_heap (listBeginIter one_list) = Some [30] ∧
  ∀ pre n post, one_node = pre ++ n :: post →
    listGetNext (c_free_node one_heap (n_self n) (n_data n)) (Lst node_at (n_self n) 1 8) = None.
Proof. apply (list_iteration one_heap one_list one_node one_rep). Defined.
