(* ===== verification/Acts.v ===== *)
(** * Processes as trees of calls

    What is left of a process: it ends, makes a call and goes on with the
    answer, or has no defined behaviour.  The calls [C] are those of the
    program that is modelled. *)

From S2P Require Import Prelude.

Inductive act (C A : Type) :=
  | Done (a : A)
  | Do (c : C) (k : Z → act C A)
  | Stuck.
Arguments Done {_ _}. Arguments Do {_ _}. Arguments Stuck {_ _}.

Fixpoint act_bind {C A B} (f : A → act C B) (t : act C A) : act C B :=
  match t with
  | Done a => f a
  | Do c k => Do c (λ r, act_bind f (k r))
  | Stuck => Stuck
  end.
#[export] Instance act_ret {C} : MRet (act C) := λ A a, Done a.
#[export] Instance act_mbind {C} : MBind (act C) := λ A B f t, act_bind f t.

Definition invoke {C} (c : C) : act C Z := Do c Done.
Definition act_opt {C A} (o : option A) : act C A :=
  match o with Some a => Done a | None => Stuck end.
