(* ===== verification/MVar.v ===== *)
(** * The [mvar] command ([Userland/Shell/commands/mvar.c])

    A variable of one place, shared by writers and readers through two named
    semaphores and the kernel's cell.  A process is the tree of the system
    calls it makes ([act]); the processes of a [world] are interleaved one
    call at a time.  The pointer [mvar] is static: the command sets it before
    it creates the children, which only read it, so it is passed to them. *)

From S2P Require Import Prelude Acts Strings Numerals UserString UserStdio SemSpec.

Definition name_empty : list Z := chars "mvar_empty".   (* MVAR_SEM_EMPTY_NAME *)
Definition name_full : list Z := chars "mvar_full".   (* MVAR_SEM_FULL_NAME *)

Record MVar := { empty : Z; full : Z }.
Definition MVAR_SIZE : Z := 16.

(** The two children a [createProcess] of the command can start. *)
Inductive entry := mvar_writer | mvar_reader.
#[export] Instance entry_eq_dec : EqDecision entry.
Proof. solve_decision. Defined.

(** The calls a process makes, with the values they carry: those of
    [libsys.c], the [printf] of a text and the static state of [rand]. *)
Inductive sys :=
  | Malloc (size : Z)
  | Free (a : Z)
  | Sem_open (name : list Z) (value : Z)
  | Sem_close (a : Z)
  | Sem_wait (a : Z)
  | Sem_post (a : Z)
  | Set_mvar (v : Z)
  | Get_mvar
  | Create (e : entry) (m : MVar) (argv : list (list Z))
  | Get_pid
  | Yield
  | Rand
  | Srand (seed : Z)
  | Set_color (color : Z)
  | Print (text : list Z).

(** What is left of a process. *)
Abbreviation act := (Acts.act sys).

(** ** Strings the processes hand each other *)

Fixpoint get_text (fuel : nat) (m : mem) (p : Z) : option (list Z) :=
  match fuel with
  | O => None
  | S fuel =>
      c ← m !! p;
      if decide (c = 0) then Some [] else l ← get_text fuel m (p + 1); Some (c :: l)
  end.

(** [atoi] of a string; [itoa] into [char idStr[16]]. *)
Definition text_atoi (l : list Z) : option Z := atoi (put_text ∅ 1000 l) 1000.
Definition text_itoa (v : Z) : option (list Z) :=
  r ← itoa (put_text ∅ 1000 (replicate 15 1)) v 1000 10;
  get_text 16 r.2 1000.

(** ** The variable *)

(** The result and the value of [mvar] afterwards. *)
Definition mvarInit (mvar : option MVar) (readers writers : Z) : act (Z * option MVar) :=
  if decide (readers ≤ 0 ∨ writers ≤ 0) then mret (-1, mvar)
  else
    mvar ← invoke (Malloc MVAR_SIZE);
    if decide (mvar = 0) then mret (-1, None)
    else
      _ ← invoke (Set_mvar 0);
      e ← invoke (Sem_open name_empty 1);
      if decide (e = 0) then
        _ ← invoke (Free mvar); mret (-1, None)
      else
        f ← invoke (Sem_open name_full 0);
        if decide (f = 0) then
          _ ← invoke (Sem_close e);
          _ ← invoke (Free mvar);
          mret (-1, None)
        else mret (0, Some {| empty := e; full := f |}).

Definition mvarPut (mvar : option MVar) (value : Z) : act Z :=
  match mvar with
  | None => mret (-1)
  | Some m =>
      r ← invoke (Sem_wait (empty m));
      if decide (r < 0) then mret (-1)
      else
        _ ← invoke (Set_mvar value);
        r ← invoke (Sem_post (full m));
        if decide (r < 0) then mret (-1) else mret 0
  end.

Definition mvarGet (mvar : option MVar) : act Z :=
  match mvar with
  | None => mret 0
  | Some m =>
      r ← invoke (Sem_wait (full m));
      if decide (r < 0) then mret 0
      else
        value ← invoke Get_mvar;
        _ ← invoke (Set_mvar 0);
        r ← invoke (Sem_post (empty m));
        if decide (r < 0) then mret 0 else mret value
  end.

(** The address of the structure and its fields; [mvar] afterwards. *)
Definition mvarClose (mvar : option (Z * MVar)) : act (Z * option (Z * MVar)) :=
  match mvar with
  | None => mret (-1, None)
  | Some (a, m) =>
      _ ← invoke (Sem_close (empty m));
      _ ← invoke (Sem_close (full m));
      _ ← invoke (Free a);
      mret (0, None)
  end.

(** ** The processes *)

Fixpoint yields (n : nat) : act unit :=
  match n with O => mret tt | S n => _ ← invoke Yield; yields n end.

Definition random_delay : act unit :=
  r ← invoke Rand;
  let base_yields := u32 (Z.rem r 20 + 1) in
  r ← invoke Rand;
  base_yields ← (if decide (Z.rem r 100 < 30) then
                   r ← invoke Rand; mret (u32 (base_yields + Z.rem r 30))
                 else mret base_yields);
  yields (Z.to_nat base_yields).

(** A process with a [while (1)]: what is left of the current round, which
    ends with the value the process returns or goes on ([None]), and the body
    of the loop. *)
Record thread := Thread {
  th_entry : option entry;   (* [None]: the command itself *)
  now : act (option Z);
  round : act (option Z);
  blocked : bool;
}.
Definition set_now v th := Thread (th_entry th) v (round th) (blocked th).
Definition set_blocked v th := Thread (th_entry th) (now th) (round th) v.

Definition writer_failed (letter : Z) : list Z :=
  chars "Writer " ++ [letter] ++ chars ": failed to put value" ++ [10].

Definition writer_round (mvar : option MVar) (letter : Z) : act (option Z) :=
  r ← mvarPut mvar letter;
  if decide (r < 0) then
    _ ← invoke (Print (writer_failed letter)); mret (Some (-1))
  else
    _ ← random_delay; mret None.

(** [argv] is the list of the argument strings: character [0] of the second
    is its first or its terminator. *)
Definition _mvar_writer (mvar : option MVar) (argc : Z) (argv : list (list Z)) : thread :=
  let exits r := Thread (Some mvar_writer) (Done (Some r)) Stuck false in
  if decide (argc ≠ 2) then exits (-1)
  else
    match argv with
    | _ :: s :: _ =>
        let letter := default 0 (head s) in
        let letter := if decide (letter < 65 ∨ 90 < letter) then 63 else letter in
        Thread (Some mvar_writer)
          (pid ← invoke Get_pid;
           _ ← invoke (Srand (u32 (pid + letter)));
           _ ← random_delay;
           mret None)
          (writer_round mvar letter) false
    | _ => Thread (Some mvar_writer) Stuck Stuck false
    end.

Definition colors : list Z :=
  [0x00FF0000; 0x0000FF00; 0x00FFFF00; 0x000000FF; 0x00FF00FF; 0x0000FFFF; 0x00DE382B;
   0x0039B54A; 0x00FFC706; 0x00006FB8].

Definition reader_failed (readerId : Z) : list Z :=
  chars "Reader " ++ number_text 10 readerId ++ chars ": failed to get value" ++ [10].
Definition reader_read (readerId value : Z) : list Z :=
  chars "Reader " ++ number_text 10 readerId ++ chars " read: " ++ [value] ++ [10].

Definition reader_round (mvar : option MVar) (readerId myColor : Z) : act (option Z) :=
  value ← mvarGet mvar;
  if decide (value = 0) then
    _ ← invoke (Print (reader_failed readerId)); mret (Some (-1))
  else
    _ ← invoke (Set_color myColor);
    _ ← invoke (Print (reader_read readerId value));
    _ ← invoke (Set_color 0x00FFFFFF);
    _ ← random_delay;
    mret None.

(** [readerId % 10] is an unsigned remainder: [sizeof] has type [size_t]. *)
Definition _mvar_reader (mvar : option MVar) (argc : Z) (argv : list (list Z)) : thread :=
  let exits r := Thread (Some mvar_reader) (Done (Some r)) Stuck false in
  let stuck := Thread (Some mvar_reader) Stuck Stuck false in
  if decide (argc ≠ 2) then exits (-1)
  else
    match argv with
    | _ :: s :: _ =>
        match text_atoi s with
        | Some readerId =>
            let myColor := default 0 (colors !! Z.to_nat (u64 readerId mod 10)) in
            Thread (Some mvar_reader)
              (pid ← invoke Get_pid;
               _ ← invoke (Srand (u32 (pid * 41 + readerId)));
               _ ← random_delay;
               mret None)
              (reader_round mvar readerId myColor) false
        | None => stuck
        end
    | _ => stuck
    end.

(** ** The command *)

(** The [n] writers, or readers, that are left from number [i]. *)
Fixpoint create_writers (n : nat) (m : MVar) (i : Z) : act unit :=
  match n with
  | O => mret tt
  | S n =>
      let letter := 65 + Z.rem i 26 in
      pid ← invoke (Create mvar_writer m [chars "mvar_writer"; [letter]]);
      _ ← (if decide (pid < 0) then
             _ ← invoke (Print (chars "mvar: failed to create writer " ++ [letter; 10])); mret tt
           else mret tt);
      create_writers n m (i + 1)
  end.

Fixpoint create_readers (n : nat) (m : MVar) (i : Z) : act unit :=
  match n with
  | O => mret tt
  | S n =>
      idStr ← act_opt (text_itoa i);
      pid ← invoke (Create mvar_reader m [chars "mvar_reader"; idStr]);
      _ ← (if decide (pid < 0) then
             _ ← invoke (Print (chars "mvar: failed to create reader " ++ number_text 10 i ++
                   [10])); mret tt
           else mret tt);
      create_readers n m (i + 1)
  end.

Definition _mvar (mvar : option MVar) (argc : Z) (argv : list (list Z)) : act Z :=
  if decide (argc ≠ 3) then
    _ ← invoke (Print (chars "Usage: mvar <readers> <writers>" ++ [10])); mret (-1)
  else
    match argv with
    | _ :: a1 :: a2 :: _ =>
        readers ← act_opt (text_atoi a1);
        writers ← act_opt (text_atoi a2);
        if decide (readers ≤ 0 ∨ writers ≤ 0) then
          _ ← invoke (Print (chars "mvar: readers and writers must be > 0" ++ [10])); mret (-1)
        else
          init ← mvarInit mvar readers writers;
          if decide (init.1 < 0) then
            _ ← invoke (Print (chars "mvar: failed to initialize MVar" ++ [10])); mret (-1)
          else
            m ← act_opt init.2;
            _ ← create_writers (Z.to_nat writers) m 0;
            _ ← create_readers (Z.to_nat readers) m 0;
            mret 0
    | _ => Stuck
    end.

(** ** The world

    The semaphores that are open, by address, with their names; the kernel's
    cell ([shared_mvar.c]); the state of [rand]; the processes, by pid; and
    the calls that have been answered, oldest first. *)
Record world := World {
  w_sems : gmap Z (list Z * semaphore);
  w_cell : Z;
  w_next : Z;
  w_threads : gmap Z thread;
  w_log : list (Z * sys * Z);
}.
Definition set_w_sems v w := World v (w_cell w) (w_next w) (w_threads w) (w_log w).
Definition set_w_cell v w := World (w_sems w) v (w_next w) (w_threads w) (w_log w).
Definition set_w_next v w := World (w_sems w) (w_cell w) v (w_threads w) (w_log w).
Definition set_w_threads v w := World (w_sems w) (w_cell w) (w_next w) v (w_log w).
Definition set_w_log v w := World (w_sems w) (w_cell w) (w_next w) (w_threads w) v.

Definition put_sem (a : Z) (n : list Z) (x : semaphore) (w : world) : world :=
  set_w_sems (<[a := (n, x)]> (w_sems w)) w.
Definition set_thread (i : Z) (th : thread) (w : world) : world :=
  set_w_threads (<[i := th]> (w_threads w)) w.
Definition wake (o : option Z) (w : world) : world :=
  match o with
  | None => w
  | Some j => set_w_threads (alter (set_blocked false) j (w_threads w)) w
  end.

Definition enter (e : entry) (m : MVar) (argv : list (list Z)) : thread :=
  match e with
  | mvar_writer => _mvar_writer (Some m) (Z.of_nat (length argv)) argv
  | mvar_reader => _mvar_reader (Some m) (Z.of_nat (length argv)) argv
  end.

(** What process [i] may be answered, and what its call does: opening finds
    the semaphore of that name or makes one; an allocation, opening, waiting
    or creating may find no memory. *)
Inductive serve (i : Z) (w : world) : sys → Z → world → Prop :=
  | serve_malloc n a : 0 ≤ a → serve i w (Malloc n) a w
  | serve_free a : serve i w (Free a) 0 w
  | serve_open_again name v a x :
      w_sems w !! a = Some (name, x) → serve i w (Sem_open name v) a w
  | serve_open_new name v a :
      (∀ b x, w_sems w !! b ≠ Some (name, x)) → w_sems w !! a = None → 0 < a →
      serve i w (Sem_open name v) a (put_sem a name (Semaphore (u16 v) []) w)
  | serve_open_fails name v : serve i w (Sem_open name v) 0 w
  | serve_close_keeps a : serve i w (Sem_close a) 0 w
  | serve_close_last a :
      serve i w (Sem_close a) 0 (set_w_sems (delete a (w_sems w)) w)
  | serve_close_bad a : w_sems w !! a = None → serve i w (Sem_close a) (-1) w
  | serve_wait a n x x' :
      w_sems w !! a = Some (n, x) → take i x = (true, x') →
      serve i w (Sem_wait a) 0 (put_sem a n x' w)
  | serve_wait_refused a n x x' :
      w_sems w !! a = Some (n, x) → take i x = (false, x') → serve i w (Sem_wait a) (-1) w
  | serve_wait_bad a : w_sems w !! a = None → serve i w (Sem_wait a) (-1) w
  | serve_post a n x o x' :
      w_sems w !! a = Some (n, x) → give x = (o, x') →
      serve i w (Sem_post a) 0 (wake o (put_sem a n x' w))
  | serve_post_bad a : w_sems w !! a = None → serve i w (Sem_post a) (-1) w
  | serve_set v : serve i w (Set_mvar v) 0 (set_w_cell (i8 v) w)
  | serve_get : serve i w Get_mvar (w_cell w) w
  | serve_create e m argv p :
      w_threads w !! p = None → 0 < p →
      serve i w (Create e m argv) p (set_thread p (enter e m argv) w)
  | serve_create_fails e m argv r : r < 0 → serve i w (Create e m argv) r w
  | serve_pid : serve i w Get_pid i w
  | serve_yield : serve i w Yield 0 w
  | serve_rand : serve i w Rand (rand (w_next w)).1 (set_w_next (rand (w_next w)).2 w)
  | serve_srand seed : serve i w (Srand seed) 0 (set_w_next (srand seed) w)
  | serve_color c : serve i w (Set_color c) 0 w
  | serve_print t : serve i w (Print t) 0 w.

Definition resume (i : Z) (c : sys) (k : Z → act (option Z)) (r : Z) (w : world) : world :=
  set_w_log (w_log w ++ [(i, c, r)])
    (set_w_threads (alter (set_now (k r)) i (w_threads w)) w).

(** One process moves: its call is answered, it starts to wait (it will be
    answered 0 once woken), or its loop starts again. *)
Inductive step (w : world) : world → Prop :=
  | step_call i th c k r w' :
      w_threads w !! i = Some th → blocked th = false → now th = Do c k →
      serve i w c r w' → step w (resume i c k r w')
  | step_wait i th a n x x' k :
      w_threads w !! i = Some th → blocked th = false → now th = Do (Sem_wait a) k →
      w_sems w !! a = Some (n, x) → take i x = (false, x') →
      step w (set_thread i (set_blocked true (set_now (k 0) th)) (put_sem a n x' w))
  | step_again i th :
      w_threads w !! i = Some th → blocked th = false → now th = Done None →
      step w (set_w_threads (alter (set_now (round th)) i (w_threads w)) w).

(** The values the writers stored, and those the readers took. *)
Definition stored_values (l : list (Z * sys * Z)) : list Z :=
  omap (λ e, match e.1.2 with Set_mvar v => if decide (v = 0) then None else Some v
             | _ => None end) l.
Definition taken_values (l : list (Z * sys * Z)) : list Z :=
  omap (λ e, match e.1.2 with Get_mvar => Some e.2 | _ => None end) l.
Definition sent (w : world) : list Z := stored_values (w_log w).
Definition got (w : world) : list Z := taken_values (w_log w).

(** The shell has just started the command. *)
Definition started (mvar : option MVar) (p argc : Z) (argv : list (list Z)) (w : world) : Prop :=
  w_threads w = {[ p := Thread None (r ← _mvar mvar argc argv; mret (Some r)) Stuck false ]} ∧
  w_log w = [] ∧
  ∀ a n x, w_sems w !! a = Some (n, x) → n ≠ name_empty ∧ n ≠ name_full.

(** ** The abstract variable: empty, or full with one value *)
Inductive mvar_step : option Z → option Z → Prop :=
  | mvar_put v : mvar_step None (Some v)
  | mvar_take v : mvar_step (Some v) None.

(** ** Running it

    The same moves as functions: process [i] moves and is answered [r]. *)
Definition sem_named (w : world) (name : list Z) : bool :=
  bool_decide (map_Exists (λ _ y, y.1 = name) (w_sems w)).

Definition serve_run (i r : Z) (w : world) (c : sys) : option world :=
  match c with
  | Malloc _ => if decide (0 ≤ r) then Some w else None
  | Sem_open name v =>
      if decide (r = 0) then Some w
      else match w_sems w !! r with
           | Some (n, _) => if decide (n = name) then Some w else None
           | None => if sem_named w name then None
                     else if decide (0 < r) then Some (put_sem r name (Semaphore (u16 v) []) w)
                     else None
           end
  | Sem_wait a =>
      match w_sems w !! a with
      | Some (n, x) => if decide (r = 0) then
                         let '(b, x') := take i x in if b : bool then Some (put_sem a n x' w) else None
                       else None
      | None => if decide (r = -1) then Some w else None
      end
  | Sem_post a =>
      match w_sems w !! a with
      | Some (n, x) => if decide (r = 0) then
                         let '(o, x') := give x in Some (wake o (put_sem a n x' w))
                       else None
      | None => if decide (r = -1) then Some w else None
      end
  | Set_mvar v => if decide (r = 0) then Some (set_w_cell (i8 v) w) else None
  | Get_mvar => if decide (r = w_cell w) then Some w else None
  | Create e m argv =>
      if decide (r < 0) then Some w
      else if decide (0 < r ∧ w_threads w !! r = None) then Some (set_thread r (enter e m argv) w)
      else None
  | Get_pid => if decide (r = i) then Some w else None
  | Rand => if decide (r = (rand (w_next w)).1) then Some (set_w_next (rand (w_next w)).2 w)
            else None
  | Srand seed => if decide (r = 0) then Some (set_w_next (srand seed) w) else None
  | Free _ | Yield | Set_color _ | Print _ => if decide (r = 0) then Some w else None
  | Sem_close _ => None
  end.

Definition step_run (i r : Z) (w : world) : option world :=
  th ← w_threads w !! i;
  if blocked th : bool then None
  else
    match now th with
    | Do c k =>
        match c, w_sems w !! (match c with Sem_wait a => a | _ => 0 end) with
        | Sem_wait a, Some (n, Semaphore 0 q) =>
            Some (set_thread i (set_blocked true (set_now (k 0) th))
              (put_sem a n (Semaphore 0 (q ++ [i])) w))
        | _, _ => w' ← serve_run i r w c; Some (resume i c k r w')
        end
    | Done None => Some (set_w_threads (alter (set_now (round th)) i (w_threads w)) w)
    | _ => None
    end.

(** Answer what the world answers by itself: allocations get [100], pids and
    semaphores are counted up from [next]. *)
Definition default_answer (i next : Z) (w : world) (c : sys) : Z :=
  match c with
  | Malloc _ => 100
  | Sem_open _ _ | Create _ _ _ => next
  | Get_mvar => w_cell w
  | Get_pid => i
  | Rand => (rand (w_next w)).1
  | _ => 0
  end.

(** Process by process as the list says, each for that many moves. *)
Fixpoint moves (n : nat) (i next : Z) (w : world) : option (Z * world) :=
  match n with
  | O => Some (next, w)
  | S n =>
      th ← w_threads w !! i;
      let r := match now th with Do c _ => default_answer i next w c | _ => 0 end in
      w ← step_run i r w; moves n i (next + 1) w
  end.
Fixpoint play (l : list (Z * nat)) (next : Z) (w : world) : option world :=
  match l with
  | [] => Some w
  | (i, n) :: l => '(next, w) ← moves n i next w; play l next w
  end.
