(* ===== verification/MVarFacts.v ===== *)
(** * The [mvar] command delivers every value once, in order

    The protocol each process follows ([at_phase]), the token its two
    semaphores pass around, and what that gives: the values the readers take
    are those the writers stored, in order; the variable is a buffer of one
    place; and while both kinds of process are there it never stops. *)

From S2P Require Import Prelude Acts Strings Numerals UserString UserStdio SemSpec MVar.

(** ** Texts *)

Lemma get_text_cstr m l : ∀ fuel p, cstr m p l → (length l < fuel)%nat →
  get_text fuel m p = Some l.
Proof.
  induction l as [|c l IH]; intros [|fuel] p Hc Hf; cbn [length] in Hf; try lia; cbn [get_text].
  - apply cstr_nil in Hc as ->. done.
  - apply cstr_cons in Hc as (-> & Hc0 & Hc). cbn [mbind option_bind].
    rewrite decide_False by done. rewrite (IH fuel) by (done || lia). done.
Qed.

(** The number of a reader survives the trip through its argument. *)
Lemma text_itoa_atoi v : 0 ≤ v < 2 ^ 31 →
  ∃ l, text_itoa v = Some l ∧ text_atoi l = Some v.
Proof.
  intros Hv.
  destruct (itoa_spec (put_text ∅ 1000 (replicate 15 1)) v 1000 10) as (m' & Em & Hc & _);
    [lia..|done|].
  exists (itoa_chars 10 v). unfold text_itoa. rewrite Em. cbn [mbind option_bind snd]. split.
  - apply get_text_cstr; [done|]. unfold itoa_chars. rewrite decide_False by lia.
    rewrite app_nil_l, length_fmap.
    pose proof (numeral_short 32 10 10 (Z.abs v)) as Hn. lia.
  - apply atoi_spec; [lia|]. apply cstr_put_text. apply Hc.
Qed.

(** ** The moves as functions are moves *)

Lemma serve_run_sound i r w c w' : serve_run i r w c = Some w' → serve i w c r w'.
Proof.
  destruct c; simpl; try done.
  all: try solve [repeat (case_decide; try done); intros [= <-]; subst; constructor; tauto].
  - case_decide as Hr; [intros [= <-]; subst; constructor|].
    destruct (w_sems w !! r) as [[n x]|] eqn:Ha.
    + case_decide; [|done]. intros [= <-]. subst. by eapply serve_open_again.
    + unfold sem_named. case_bool_decide as Hn; [done|]. case_decide; [|done]. intros [= <-].
      constructor; [|done..]. intros b x Hb. apply Hn. exists b, (name, x). done.
  - destruct (w_sems w !! a) as [[n x]|] eqn:Ha; case_decide; try done.
    + destruct (take i x) as [[] x'] eqn:Ht; [|done]. intros [= <-]. subst. by econstructor.
    + intros [= <-]. subst. by apply serve_wait_bad.
  - destruct (w_sems w !! a) as [[n x]|] eqn:Ha; case_decide; try done.
    + destruct (give x) as [o x'] eqn:Ht. intros [= <-]. subst. by econstructor.
    + intros [= <-]. subst. by apply serve_post_bad.
Qed.

Lemma step_run_sound i r w w' : step_run i r w = Some w' → step w w'.
Proof.
  unfold step_run. destruct (w_threads w !! i) as [th|] eqn:Hth; [|done]. simpl.
  destruct (blocked th) eqn:Hb; [done|].
  destruct (now th) as [[r'|]|c k|] eqn:Hnow; [done|..|done].
  { intros [= <-]. by eapply step_again. }
  assert (∀ o, (w' ← o; Some (resume i c k r w')) = Some w' → o = serve_run i r w c → step w w')
    as Hcall.
  { intros [w1|] E Eo; [|done]. injection E as <-.
    eapply step_call; [done..|]. by apply serve_run_sound. }
  destruct c; try (intros E; by eapply Hcall).
  destruct (w_sems w !! a) as [[n [[|u|u] q]]|] eqn:Ha; try (intros E; by eapply Hcall).
  intros [= <-]. by eapply step_wait.
Qed.

Lemma play_sound l : ∀ next w w', play l next w = Some w' → rtc step w w'.
Proof.
  assert (∀ n i next w next' w', moves n i next w = Some (next', w') → rtc step w w') as Hmoves.
  { intros n i. induction n as [|n IH]; intros next w next' w'; simpl; [by intros [= _ <-]|].
    destruct (w_threads w !! i) as [th|]; [|done]. simpl.
    destruct (step_run i _ w) as [w1|] eqn:E; [|done]. simpl. intros H.
    eapply rtc_l; [by eapply step_run_sound|]. by eapply IH. }
  induction l as [|[i n] l IH]; intros next w w'; simpl; [by intros [= <-]|].
  destruct (moves n i next w) as [[next1 w1]|] eqn:E; [|done]. simpl. intros H.
  etrans; [by eapply Hmoves|]. by eapply IH.
Qed.

(** ** The protocol *)

#[local] Arguments chars : simpl never.
#[local] Arguments random_delay : simpl never.
#[local] Arguments number_text : simpl never.
#[local] Arguments writer_failed : simpl never.
#[local] Arguments reader_failed : simpl never.
#[local] Arguments reader_read : simpl never.

Inductive role := Command | Writes (v : Z) | Reads.
Inductive phase := P_idle | P_leaving | P_turn | P_stored | P_took | P_cleared.

Definition harmless (c : sys) : Prop :=
  match c with
  | Get_pid | Yield | Rand | Srand _ | Set_color _ | Print _ | Malloc _ | Free _ => True
  | _ => False
  end.

(** The entry of a process that plays a role. *)
Definition plays (th : thread) (ro : role) : Prop :=
  th_entry th = match ro with
                | Command => None | Writes _ => Some mvar_writer | Reads => Some mvar_reader
                end.

Section protocol.
Variable m : MVar.

(** What a process that plays [ro] and is in phase [ph] may still do. *)
Inductive at_phase : role → phase → act (option Z) → Prop :=
  | at_quiet ro ph c k : ph = P_idle ∨ ph = P_leaving → harmless c →
      (∀ r, at_phase ro ph (k r)) → at_phase ro ph (Do c k)
  | at_again ro : ro ≠ Command → at_phase ro P_idle (Done None)
  | at_exit ro r : at_phase ro P_leaving (Done (Some r))
  | at_finish r : at_phase Command P_idle (Done (Some r))
  | at_create e argv ro k : ro ≠ Command →
      at_phase ro P_idle (now (enter e m argv)) →
      at_phase ro P_idle (round (enter e m argv)) →
      (∃ a k', round (enter e m argv) = Do (Sem_wait a) k') → plays (enter e m argv) ro → blocked (enter e m argv) = false →
      (∀ r, at_phase Command P_idle (k r)) →
      at_phase Command P_idle (Do (Create e m argv) k)
  | at_w_wait v k :
      at_phase (Writes v) P_turn (k 0) → at_phase (Writes v) P_leaving (k (-1)) →
      at_phase (Writes v) P_idle (Do (Sem_wait (empty m)) k)
  | at_w_set v k : 0 < v < 128 →
      at_phase (Writes v) P_stored (k 0) → at_phase (Writes v) P_turn (Do (Set_mvar v) k)
  | at_w_post v k :
      at_phase (Writes v) P_idle (k 0) →
      at_phase (Writes v) P_stored (Do (Sem_post (full m)) k)
  | at_r_wait k :
      at_phase Reads P_turn (k 0) → at_phase Reads P_leaving (k (-1)) →
      at_phase Reads P_idle (Do (Sem_wait (full m)) k)
  | at_r_get k :
      (∀ v, v ≠ 0 → at_phase Reads P_took (k v)) → at_phase Reads P_turn (Do Get_mvar k)
  | at_r_clear k :
      at_phase Reads P_cleared (k 0) → at_phase Reads P_took (Do (Set_mvar 0) k)
  | at_r_post k :
      at_phase Reads P_idle (k 0) →
      at_phase Reads P_cleared (Do (Sem_post (empty m)) k).

(** The body of a loop starts with its wait. *)
Definition body_ok (ro : role) (t : act (option Z)) : Prop :=
  at_phase ro P_idle t ∧ ∃ a k, t = Do (Sem_wait a) k.

Lemma at_yields ro n (f : unit → act (option Z)) :
  at_phase ro P_idle (f tt) → at_phase ro P_idle (yields n ≫= f).
Proof.
  intros Hf. induction n as [|n IH]; [done|].
  change (yields (S n) ≫= f) with (Do Yield (λ r, yields n ≫= f)).
  constructor; [by left|done|]. auto.
Qed.

Lemma at_delay ro (f : unit → act (option Z)) :
  at_phase ro P_idle (f tt) → at_phase ro P_idle (random_delay ≫= f).
Proof.
  intros Hf. unfold random_delay. cbn. constructor; [by left|done|]. intros r1.
  constructor; [by left|done|]. intros r2. case_decide; cbn.
  - constructor; [by left|done|]. intros r3. by apply at_yields.
  - by apply at_yields.
Qed.

#[local] Ltac run := cbn; unfold mret, act_ret; cbn.
Ltac quiet := constructor; [by (left + right)|done|intros ?].

Lemma at_leaves ro text r : at_phase ro P_leaving (Do (Print text) (λ _, Done (Some r))).
Proof. quiet. apply at_exit. Qed.

(** One round of a writer, and of a reader, follows the protocol. *)
Lemma writer_round_at v : 0 < v < 128 → at_phase (Writes v) P_idle (writer_round (Some m) v).
Proof.
  intros Hv. unfold writer_round. run. apply at_w_wait; run; [|apply at_leaves].
  apply at_w_set; [done|]. run. apply at_w_post. run. apply at_delay. by apply at_again.
Qed.

Lemma reader_round_at id color : at_phase Reads P_idle (reader_round (Some m) id color).
Proof.
  unfold reader_round. run. apply at_r_wait; run; [|apply at_leaves].
  apply at_r_get. intros v Hv. run. apply at_r_clear. run. apply at_r_post. run.
  rewrite !decide_False by done. do 3 quiet. apply at_delay. by apply at_again.
Qed.

(** The children the command creates. *)
Definition child_start (f : Z → Z) : act (option Z) :=
  pid ← invoke Get_pid; _ ← invoke (Srand (f pid)); _ ← random_delay; mret None.

Lemma enter_writer n letter : 65 ≤ letter ≤ 90 →
  enter mvar_writer m [n; [letter]] =
    Thread (Some mvar_writer) (child_start (λ pid, u32 (pid + letter)))
      (writer_round (Some m) letter) false.
Proof.
  intros Hl. unfold enter, _mvar_writer. rewrite decide_False by (cbn; lia).
  change (default 0 (head [letter])) with letter. cbv zeta. by rewrite decide_False by lia.
Qed.

Lemma enter_reader n l id : text_atoi l = Some id →
  enter mvar_reader m [n; l] =
    Thread (Some mvar_reader) (child_start (λ pid, u32 (pid * 41 + id)))
      (reader_round (Some m) id (default 0 (colors !! Z.to_nat (u64 id mod 10)))) false.
Proof.
  intros Hl. unfold enter, _mvar_reader. rewrite decide_False by (cbn; lia). by rewrite Hl.
Qed.

Lemma start_at ro (f : Z → Z) : ro ≠ Command → at_phase ro P_idle (child_start f).
Proof. intros Hro. unfold child_start. run. do 2 quiet. apply at_delay. by apply at_again. Qed.

#[local] Arguments enter : simpl never.

Lemma create_writers_at {A} n i (f : unit → act A) (g : A → act (option Z)) :
  0 ≤ i → at_phase Command P_idle (act_bind g (f tt)) →
  at_phase Command P_idle (act_bind g (create_writers n m i ≫= f)).
Proof.
  intros Hi Hf. revert i Hi. induction n as [|n IH]; intros i Hi; [done|].
  pose proof (Z.rem_bound_pos i 26). cbn.
  eapply (at_create _ _ (Writes (65 + Z.rem i 26))); rewrite ?enter_writer by lia;
    [done|by apply start_at|apply writer_round_at; lia|by do 2 eexists|done|done|].
  intros r. run. case_decide; run; [quiet|]; apply IH; lia.
Qed.

Lemma create_readers_at {A} n i (f : unit → act A) (g : A → act (option Z)) :
  0 ≤ i → i + Z.of_nat n ≤ 2 ^ 31 → at_phase Command P_idle (act_bind g (f tt)) →
  at_phase Command P_idle (act_bind g (create_readers n m i ≫= f)).
Proof.
  intros Hi Hn Hf. revert i Hi Hn. induction n as [|n IH]; intros i Hi Hn; [done|].
  destruct (text_itoa_atoi i) as (l & El & Hl); [lia|]. cbn [create_readers]. rewrite El. cbn.
  eapply (at_create _ _ Reads); rewrite ?(enter_reader _ _ _ Hl);
    [done|by apply start_at|apply reader_round_at|by do 2 eexists|done|done|].
  intros r. run. case_decide; run; [quiet|]; apply IH; lia.
Qed.

(** ** The token

    The two semaphores and the processes pass one token around: it is in
    [empty], with a writer, in [full] or with a reader; a value travels with
    it from the writer's store to the reader's load. *)
Inductive token :=
  | In_empty
  | Writing (i : Z)
  | Written (i v : Z)
  | In_full (v : Z)
  | Reading (i v : Z)
  | Took (i : Z)
  | Cleared (i : Z).

Definition holder (tok : token) : option (Z * phase * entry) :=
  match tok with
  | In_empty | In_full _ => None
  | Writing i => Some (i, P_turn, mvar_writer)
  | Written i _ => Some (i, P_stored, mvar_writer)
  | Reading i _ => Some (i, P_turn, mvar_reader)
  | Took i => Some (i, P_took, mvar_reader)
  | Cleared i => Some (i, P_cleared, mvar_reader)
  end.
Definition carried (tok : token) : option Z :=
  match tok with Written _ v | In_full v | Reading _ v => Some v | _ => None end.
Definition empty_units (tok : token) : Z := match tok with In_empty => 1 | _ => 0 end.
Definition full_units (tok : token) : Z := match tok with In_full _ => 1 | _ => 0 end.

Definition refused (l : list (Z * sys * Z)) (i : Z) : Prop := ∃ a, (i, Sem_wait a, -1) ∈ l.

(** A process: waiting for its turn, in possession of the token, or between
    two turns; it leaves when it was refused a place in a queue. *)
Definition running_ok l (tok : token) (i : Z) (ro : role) (th : thread) : Prop :=
  match holder tok with
  | Some (j, ph, e) =>
      if decide (j = i) then at_phase ro ph (now th) ∧ th_entry th = Some e
      else at_phase ro P_idle (now th) ∨ at_phase ro P_leaving (now th) ∧ refused l i
  | None => at_phase ro P_idle (now th) ∨ at_phase ro P_leaving (now th) ∧ refused l i
  end.
Definition thread_ok l (tok : token) (i : Z) (th : thread) : Prop :=
  ∃ ro, plays th ro ∧ (ro ≠ Command → body_ok ro (round th)) ∧
    if blocked th then ro ≠ Command ∧ at_phase ro P_turn (now th) ∧
      ∀ j ph e, holder tok = Some (j, ph, e) → j ≠ i
    else running_ok l tok i ro th.

Definition shape (th : thread) : bool * option entry := (blocked th, th_entry th).
Definition queue_ok (ths : gmap Z thread) (e : entry) (q : list Z) : Prop :=
  NoDup q ∧ ∀ i, i ∈ q ↔ shape <$> ths !! i = Some (true, Some e).

Record mvar_inv (w : world) (tok : token) : Prop := {
  mi_ne : empty m ≠ full m;
  mi_empty : ∃ q, w_sems w !! empty m = Some (name_empty, Semaphore (empty_units tok) q) ∧
    queue_ok (w_threads w) mvar_writer q ∧ (empty_units tok = 0 ∨ q = []);
  mi_full : ∃ q, w_sems w !! full m = Some (name_full, Semaphore (full_units tok) q) ∧
    queue_ok (w_threads w) mvar_reader q ∧ (full_units tok = 0 ∨ q = []);
  mi_threads : ∀ i th, w_threads w !! i = Some th → thread_ok (w_log w) tok i th;
  mi_holder : ∀ i ph e, holder tok = Some (i, ph, e) →
    ∃ th, w_threads w !! i = Some th ∧ blocked th = false;
  mi_cell : ∀ v, carried tok = Some v → w_cell w = v ∧ 0 < v < 128;
  mi_log : sent w = got w ++ option_list (carried tok);
}.

(** ** What the invariant depends on *)

Lemma queue_ok_ext ths ths' e q :
  (∀ i, shape <$> ths' !! i = shape <$> ths !! i) → queue_ok ths e q → queue_ok ths' e q.
Proof.
  intros Hs [Hn Hq]. split; [done|]. intros i. by rewrite Hq, Hs.
Qed.

Lemma shape_now (ths : gmap Z thread) i t j : shape <$> alter (set_now t) i ths !! j = shape <$> ths !! j.
Proof.
  destruct (decide (i = j)) as [->|]; [|by rewrite lookup_alter_ne].
  rewrite lookup_alter_eq. by destruct (ths !! j).
Qed.

Definition bystander (tok : token) (j : Z) : Prop := ∀ ph e, holder tok ≠ Some (j, ph, e).

Lemma refused_mono l l' i : l ⊆ l' → refused l i → refused l' i.
Proof. intros Hl [a Ha]. exists a. by apply Hl. Qed.

Lemma running_bystander l tok j ro th : bystander tok j →
  running_ok l tok j ro th ↔
    at_phase ro P_idle (now th) ∨ at_phase ro P_leaving (now th) ∧ refused l j.
Proof.
  unfold running_ok, bystander. destruct (holder tok) as [[[i ph] e]|]; [|done].
  intros Hb. rewrite decide_False; [done|]. intros ->. by eapply Hb.
Qed.

Lemma running_holder l tok j ph e ro th : holder tok = Some (j, ph, e) →
  running_ok l tok j ro th ↔ at_phase ro ph (now th) ∧ th_entry th = Some e.
Proof. unfold running_ok. intros ->. by rewrite decide_True. Qed.

Lemma thread_ok_other l l' tok tok' j th : l ⊆ l' → bystander tok j → bystander tok' j →
  thread_ok l tok j th → thread_ok l' tok' j th.
Proof.
  intros Hl Hb Hb' (ro & Hp & Hr & Hth). exists ro. split; [done|]. split; [done|].
  destruct (blocked th).
  - destruct Hth as (? & ? & _). split; [done|]. split; [done|].
    intros j' ph e Hh ->. by eapply Hb'.
  - rewrite running_bystander in Hth by done. apply running_bystander; [done|].
    destruct Hth as [?|[? ?]]; [by left|right]. split; [done|]. by eapply refused_mono.
Qed.

Lemma thread_ok_log l l' tok j th : l ⊆ l' → thread_ok l tok j th → thread_ok l' tok j th.
Proof.
  intros Hl (ro & Hp & Hr & Hth). exists ro. split; [done|]. split; [done|].
  destruct (blocked th); [done|]. revert Hth. unfold running_ok.
  destruct (holder tok) as [[[i ph] e]|]; [case_decide; [done|]|];
    (intros [?|[? ?]]; [by left|right; split; [done|by eapply refused_mono]]).
Qed.

Lemma sent_snoc w l e : w_log w = l ++ [e] → sent w = stored_values l ++ stored_values [e].
Proof. unfold sent. intros ->. apply omap_app. Qed.
Lemma got_snoc w l e : w_log w = l ++ [e] → got w = taken_values l ++ taken_values [e].
Proof. unfold got. intros ->. apply omap_app. Qed.

(** Process [i] goes on with [t]; the token may move to it, from it or with
    it. *)
Lemma inv_update w w' tok tok' i th t :
  mvar_inv w tok → w_threads w !! i = Some th → blocked th = false →
  w_threads w' = alter (set_now t) i (w_threads w) → w_log w ⊆ w_log w' →
  tok' = tok ∨ (∀ j, j ≠ i → bystander tok j ∧ bystander tok' j) →
  thread_ok (w_log w') tok' i (set_now t th) →
  (∃ q, w_sems w' !! empty m = Some (name_empty, Semaphore (empty_units tok') q) ∧
    queue_ok (w_threads w) mvar_writer q ∧ (empty_units tok' = 0 ∨ q = [])) →
  (∃ q, w_sems w' !! full m = Some (name_full, Semaphore (full_units tok') q) ∧
    queue_ok (w_threads w) mvar_reader q ∧ (full_units tok' = 0 ∨ q = [])) →
  (∀ v, carried tok' = Some v → w_cell w' = v ∧ 0 < v < 128) →
  sent w' = got w' ++ option_list (carried tok') →
  mvar_inv w' tok'.
Proof.
  intros [H1 H2 H3 H4 H5 H6 H7] Hi Hb Et Hsub Htok Hok (qe & He1 & He2 & He3)
    (qf & Hf1 & Hf2 & Hf3) Hc Hlog.
  constructor; try done.
  - exists qe. split; [done|]. split; [|done]. rewrite Et. eapply queue_ok_ext; [|done].
    intros j. apply shape_now.
  - exists qf. split; [done|]. split; [|done]. rewrite Et. eapply queue_ok_ext; [|done].
    intros j. apply shape_now.
  - intros j th'. rewrite Et. destruct (decide (j = i)) as [->|Hne].
    + rewrite lookup_alter_eq, Hi. intros [= <-]. done.
    + rewrite lookup_alter_ne by done. intros Hj. apply H4 in Hj.
      destruct Htok as [->|Htok]; [by apply (thread_ok_log (w_log w))|].
      destruct (Htok j Hne). by apply (thread_ok_other (w_log w) _ tok).
  - intros j ph e Hh. rewrite Et. destruct (decide (j = i)) as [->|Hne].
    + rewrite lookup_alter_eq, Hi. by eexists.
    + rewrite lookup_alter_ne by done. destruct Htok as [->|Htok]; [by eapply H5|].
      exfalso. by eapply (proj2 (Htok j Hne)).
Qed.

(** ** One move keeps the invariant *)

Definition neutral (ev : Z * sys * Z) : Prop :=
  stored_values [ev] = [] ∧ taken_values [ev] = [].

Lemma log_neutral w w' tok tok' ev :
  mvar_inv w tok → w_log w' = w_log w ++ [ev] → neutral ev → carried tok' = carried tok →
  sent w' = got w' ++ option_list (carried tok').
Proof.
  intros Hi El [E1 E2] Ec. pose proof (mi_log _ _ Hi) as Hl. unfold sent, got in Hl.
  rewrite (sent_snoc _ _ _ El), (got_snoc _ _ _ El), E1, E2, Ec, !app_nil_r. done.
Qed.

Lemma thread_now l tok i ro th t : plays th ro → (ro ≠ Command → body_ok ro (round th)) →
  blocked th = false → running_ok l tok i ro (set_now t th) → thread_ok l tok i (set_now t th).
Proof. intros Hp Hr Hb Hok. exists ro. do 2 (split; [done|]). simpl. by rewrite Hb. Qed.

Lemma log_snoc (l : list (Z * sys * Z)) ev : l ⊆ l ++ [ev].
Proof. set_solver. Qed.

(** The token stays where it is. *)
Lemma inv_stay w w' tok i th c k r :
  mvar_inv w tok → w_threads w !! i = Some th → blocked th = false →
  w_threads w' = w_threads w → w_log w' = w_log w → w_sems w' = w_sems w →
  w_cell w' = w_cell w → neutral (i, c, r) →
  thread_ok (w_log w ++ [(i, c, r)]) tok i (set_now (k r) th) →
  mvar_inv (resume i c k r w') tok.
Proof.
  intros Hi Hth Hb Et El Es Ec Hn Hok.
  eapply inv_update; [exact Hi|done|done|simpl; by rewrite Et|simpl; rewrite El; apply log_snoc|by left|..].
  - simpl. by rewrite El.
  - simpl. rewrite Es. apply Hi.
  - simpl. rewrite Es. apply Hi.
  - simpl. rewrite Ec. apply Hi.
  - eapply log_neutral; [exact Hi|simpl; by rewrite El|done|done].
Qed.

(** The process in possession moves the token on. *)
Lemma inv_carry w w' tok tok' i th c k r ph ph' e ro :
  mvar_inv w tok → w_threads w !! i = Some th → blocked th = false →
  plays th ro → (ro ≠ Command → body_ok ro (round th)) → th_entry th = Some e →
  holder tok = Some (i, ph, e) → holder tok' = Some (i, ph', e) →
  at_phase ro ph' (k r) →
  w_threads w' = w_threads w → w_log w' = w_log w → w_sems w' = w_sems w →
  (∀ v, carried tok' = Some v → w_cell w' = v ∧ 0 < v < 128) →
  sent (resume i c k r w') = got (resume i c k r w') ++ option_list (carried tok') →
  mvar_inv (resume i c k r w') tok'.
Proof.
  intros Hi Hth Hb Hp Hr He Hh Hh' Hk Et El Es Hc Hl.
  assert (empty_units tok = 0 ∧ full_units tok = 0 ∧ empty_units tok' = 0 ∧ full_units tok' = 0)
    as (E1 & E2 & E1' & E2') by (destruct tok, tok'; done).
  eapply inv_update; [exact Hi|done|done|simpl; by rewrite Et|simpl; rewrite El; apply log_snoc|..].
  - right. intros j Hj. split; intros ph0 e0 Hh0; congruence.
  - simpl. rewrite El. eapply thread_now; [done..|]. by apply (running_holder _ _ _ ph' e).
  - simpl. rewrite Es, E1'. pose proof (mi_empty _ _ Hi) as Hq. by rewrite E1 in Hq.
  - simpl. rewrite Es, E2'. pose proof (mi_full _ _ Hi) as Hq. by rewrite E2 in Hq.
  - done.
  - done.
Qed.

Lemma queue_ok_ext_ne (ths : gmap Z thread) e q p th : queue_ok ths e q → ths !! p = None →
  blocked th = false → queue_ok (<[p := th]> ths) e q.
Proof.
  intros [Hn Hq] Hp Hb. split; [done|]. intros i. rewrite Hq.
  destruct (decide (i = p)) as [->|]; [|by rewrite lookup_insert_ne].
  rewrite lookup_insert_eq, Hp. simpl. unfold shape. rewrite Hb. naive_solver.
Qed.

Lemma queue_wake (ths : gmap Z thread) e j q th : queue_ok ths e (j :: q) → ths !! j = Some th →
  queue_ok (alter (set_blocked false) j ths) e q.
Proof.
  intros [Hn Hq] Hj. apply NoDup_cons in Hn as [Hni Hn]. split; [done|]. intros i.
  destruct (decide (i = j)) as [->|Hne].
  - rewrite lookup_alter_eq, Hj. simpl. split; [done|]. by intros [= ?].
  - rewrite lookup_alter_ne, <-Hq by done. set_solver.
Qed.

Lemma queue_wake_other (ths : gmap Z thread) e e' j q th : queue_ok ths e q →
  ths !! j = Some th → th_entry th = Some e' → e ≠ e' →
  queue_ok (alter (set_blocked false) j ths) e q.
Proof.
  intros [Hn Hq] Hj He Hne. split; [done|]. intros i. rewrite Hq.
  destruct (decide (i = j)) as [->|]; [|by rewrite lookup_alter_ne].
  rewrite lookup_alter_eq, Hj. simpl. unfold shape. simpl. rewrite He. naive_solver.
Qed.

(** The token is handed to the process [j] that waited for it. *)
Lemma inv_handoff w w' tok tok' i j th thj t ev ph e :
  mvar_inv w tok → w_threads w !! i = Some th → blocked th = false →
  w_threads w !! j = Some thj → blocked thj = true → th_entry thj = Some e →
  (∀ j', j' ≠ i → bystander tok j') → holder tok' = Some (j, P_turn, e) → holder tok = Some ph →
  carried tok' = carried tok →
  w_threads w' = alter (set_now t) i (alter (set_blocked false) j (w_threads w)) →
  w_log w' = w_log w ++ [ev] → neutral ev → w_cell w' = w_cell w →
  thread_ok (w_log w') tok' i (set_now t th) →
  (∃ q, w_sems w' !! empty m = Some (name_empty, Semaphore 0 q) ∧
    queue_ok (alter (set_blocked false) j (w_threads w)) mvar_writer q) →
  (∃ q, w_sems w' !! full m = Some (name_full, Semaphore 0 q) ∧
    queue_ok (alter (set_blocked false) j (w_threads w)) mvar_reader q) →
  mvar_inv w' tok'.
Proof.
  intros Hi Hth Hb Hj Hbj He Hby Hh' Hh Ec Et El Hn Ecell Hok (qe & He1 & He2) (qf & Hf1 & Hf2).
  assert (i ≠ j) as Hij by congruence.
  assert (w_log w ⊆ w_log w') as Hsub by (rewrite El; set_solver).
  assert (empty_units tok' = 0 ∧ full_units tok' = 0) as [E1 E2] by (by destruct tok').
  constructor.
  - apply Hi.
  - exists qe. rewrite E1. split; [done|]. split; [|by left]. rewrite Et.
    eapply queue_ok_ext; [|exact He2]. intros j'. apply shape_now.
  - exists qf. rewrite E2. split; [done|]. split; [|by left]. rewrite Et.
    eapply queue_ok_ext; [|exact Hf2]. intros j'. apply shape_now.
  - intros j' th'. rewrite Et. destruct (decide (j' = i)) as [->|Hne].
    { rewrite lookup_alter_eq, lookup_alter_ne, Hth by done. intros [= <-]. done. }
    rewrite lookup_alter_ne by done. destruct (decide (j' = j)) as [->|Hne'].
    + rewrite lookup_alter_eq, Hj. intros [= <-].
      destruct (mi_threads _ _ Hi j thj Hj) as (ro & Hp & Hr & Ht). rewrite Hbj in Ht.
      destruct Ht as (_ & Ht & _). exists ro. do 2 (split; [done|]). simpl.
      by apply (running_holder _ _ _ P_turn e).
    + rewrite lookup_alter_ne by done. intros Hj'.
      apply (thread_ok_other (w_log w) _ tok); [done|by apply Hby| |by apply Hi].
      intros ph0 e0. congruence.
  - intros j' ph0 e0. rewrite Hh'. intros [= <- _ _]. rewrite Et, lookup_alter_ne by done.
    rewrite lookup_alter_eq, Hj. by eexists.
  - rewrite Ec, Ecell. apply Hi.
  - by eapply log_neutral.
Qed.

(** A process joins a queue. *)
Lemma inv_block w tok i th a n e ro q k :
  mvar_inv w tok → w_threads w !! i = Some th → blocked th = false → th_entry th = Some e →
  bystander tok i → plays th ro → body_ok ro (round th) → at_phase ro P_turn (k 0) →
  w_sems w !! a = Some (n, Semaphore 0 q) →
  a = (if decide (e = mvar_writer) then empty m else full m) →
  mvar_inv (set_thread i (set_blocked true (set_now (k 0) th))
    (put_sem a n (Semaphore 0 (q ++ [i])) w)) tok.
Proof.
  intros Hi Hth Hb He Hby Hp Hr Hk Ha Ea.
  assert (∀ e' q', queue_ok (w_threads w) e' q' →
    queue_ok (<[i := set_blocked true (set_now (k 0) th)]> (w_threads w)) e'
      (if decide (e' = e) then q' ++ [i] else q')) as Hqueue.
  { intros e' q' [Hn Hq]. assert (i ∉ q') as Hni.
    { rewrite Hq, Hth. simpl. unfold shape. rewrite Hb. by intros [= ?]. }
    destruct (decide (e' = e)) as [->|E].
    - split; [apply NoDup_app; split; [done|]; split; [set_solver|apply NoDup_singleton]|].
      intros j. rewrite elem_of_app, list_elem_of_singleton, Hq.
      destruct (decide (j = i)) as [->|Hne].
      + rewrite lookup_insert_eq. simpl. unfold shape. simpl. rewrite He. naive_solver.
      + rewrite lookup_insert_ne by done. naive_solver.
    - split; [done|]. intros j. rewrite Hq. destruct (decide (j = i)) as [->|Hne].
      + rewrite lookup_insert_eq, Hth. simpl. unfold shape. simpl. rewrite Hb, He. naive_solver.
      + by rewrite lookup_insert_ne. }
  pose proof Hi as [H1 (qe & He1 & He2 & He3) (qf & Hf1 & Hf2 & Hf3) H4 H5 H6 H7].
  apply Hqueue in He2, Hf2.
  constructor; try done; simpl.
  - destruct e; simpl in Ea; subst a.
    + rewrite decide_True in He2 by done. rewrite He1 in Ha. injection Ha as Hn Hu ->.
      exists (q ++ [i]). rewrite lookup_insert_eq, Hn, Hu. split; [done|]. split; [done|]. by left.
    + rewrite decide_False in He2 by done. exists qe. by rewrite lookup_insert_ne.
  - destruct e; simpl in Ea; subst a.
    + rewrite decide_False in Hf2 by done. exists qf. by rewrite lookup_insert_ne.
    + rewrite decide_True in Hf2 by done. rewrite Hf1 in Ha. injection Ha as Hn Hu ->.
      exists (q ++ [i]). rewrite lookup_insert_eq, Hn, Hu. split; [done|]. split; [done|]. by left.
  - intros j th' Hj. destruct (decide (j = i)) as [->|Hne].
    + rewrite lookup_insert_eq in Hj. injection Hj as <-.
      exists ro. do 2 (split; [done|]). simpl. split; [|split; [done|]].
      * intros ->. unfold plays in Hp. congruence.
      * intros j ph e0 Hh ->. by eapply Hby.
    + rewrite lookup_insert_ne in Hj by done. by apply H4.
  - intros j ph e0 Hh. destruct (decide (j = i)) as [->|Hne].
    + exfalso. by eapply Hby.
    + rewrite lookup_insert_ne by done. by eapply H5.
Qed.

(** The way of the token. *)
Inductive tok_next : token → token → Prop :=
  | next_write i : tok_next In_empty (Writing i)
  | next_written i v : tok_next (Writing i) (Written i v)
  | next_full i v : tok_next (Written i v) (In_full v)
  | next_hand_reader i j v : tok_next (Written i v) (Reading j v)
  | next_read i v : tok_next (In_full v) (Reading i v)
  | next_took i v : tok_next (Reading i v) (Took i)
  | next_cleared i : tok_next (Took i) (Cleared i)
  | next_empty i : tok_next (Cleared i) In_empty
  | next_hand_writer i j : tok_next (Cleared i) (Writing j).
Definition advances (tok tok' : token) : Prop := tok' = tok ∨ tok_next tok tok'.

Lemma tok_next_view tok tok' : tok_next tok tok' →
  carried tok' = carried tok ∨ mvar_step (carried tok) (carried tok').
Proof. destruct 1; simpl; auto using mvar_step. Qed.

Lemma serve_harmless i w c r w' : serve i w c r w' → harmless c →
  w_threads w' = w_threads w ∧ w_log w' = w_log w ∧ w_sems w' = w_sems w ∧
  w_cell w' = w_cell w ∧ neutral (i, c, r).
Proof. destruct 1; done. Qed.

Lemma idle_ok l tok i ro th t : plays th ro → (ro ≠ Command → body_ok ro (round th)) →
  blocked th = false → bystander tok i → at_phase ro P_idle t → thread_ok l tok i (set_now t th).
Proof.
  intros. eapply thread_now; [done..|]. apply running_bystander; [done|]. by left.
Qed.

Lemma leaving_ok l tok i ro th t : plays th ro → (ro ≠ Command → body_ok ro (round th)) →
  blocked th = false → bystander tok i → at_phase ro P_leaving t → refused l i →
  thread_ok l tok i (set_now t th).
Proof.
  intros. eapply thread_now; [done..|]. apply running_bystander; [done|]. by right.
Qed.

Lemma create_inv w tok i th k p e argv ro :
  mvar_inv w tok → w_threads w !! i = Some th → blocked th = false → plays th Command →
  bystander tok i → w_threads w !! p = None → ro ≠ Command →
  at_phase ro P_idle (now (enter e m argv)) → body_ok ro (round (enter e m argv)) →
  plays (enter e m argv) ro → blocked (enter e m argv) = false →
  at_phase Command P_idle (k p) →
  mvar_inv (resume i (Create e m argv) k p (set_thread p (enter e m argv) w)) tok.
Proof.
  intros Hi Hth Hb Hp Hby Hfree Hro Hnow Hround Hplays Hbl Hk.
  assert (mvar_inv (set_thread p (enter e m argv) w) tok) as Hi'.
  { assert (∀ e0 q, queue_ok (w_threads w) e0 q →
      queue_ok (<[p := enter e m argv]> (w_threads w)) e0 q) as Hq.
    { intros e0 q Hq. eapply queue_ok_ext_ne; [exact Hq|done|done]. }
    destruct Hi as [H1 (qe & He1 & He2 & He3) (qf & Hf1 & Hf2 & Hf3) H4 H5 H6 H7].
    constructor; try done; simpl.
    - exists qe. split; [done|]. split; [by apply Hq|done].
    - exists qf. split; [done|]. split; [by apply Hq|done].
    - intros j th'. destruct (decide (j = p)) as [->|Hne].
      + rewrite lookup_insert_eq. intros [= <-]. exists ro. do 2 (split; [done|]).
        rewrite Hbl. apply running_bystander; [|by left].
        intros ph e0 Hh. apply H5 in Hh as (? & ? & ?). congruence.
      + rewrite lookup_insert_ne by done. apply H4.
    - intros j ph e0 Hh. destruct (H5 j ph e0 Hh) as (th' & ? & ?). exists th'.
      rewrite lookup_insert_ne; [done|]. congruence. }
  eapply (inv_stay _ _ _ i th); [exact Hi'|..]; try done.
  - simpl. rewrite lookup_insert_ne; [exact Hth|]. congruence.
  - by eapply idle_ok.
Qed.

(** A call made between two turns. *)
Lemma idle_call_inv w tok i th ro c k r w' :
  mvar_inv w tok → w_threads w !! i = Some th → blocked th = false → plays th ro →
  (ro ≠ Command → body_ok ro (round th)) → bystander tok i →
  at_phase ro P_idle (Do c k) → serve i w c r w' →
  ∃ tok', mvar_inv (resume i c k r w') tok' ∧ advances tok tok' ∧
    (∀ a, c = Sem_wait a → r = 0 → tok_next tok tok').
Proof.
  intros Hi Hth Hb Hp Hr Hby Hat Hs.
  inversion Hat as [? ? ? ? _ Hc Hk| | | |e argv ro' ? Hro Hnow Hround Hstart Hpl Hbl Hk|v ? Hk Hl| | |? Hk Hl| | |];
    subst.
  - destruct (serve_harmless _ _ _ _ _ Hs Hc) as (Et & El & Es & Ec & Hn).
    exists tok. split; [|split; [by left|by intros a ->]].
    eapply inv_stay; [done..|]. by eapply idle_ok.
  - inversion Hs; subst; exists tok; (split; [|split; [by left|done]]).
    + by eapply create_inv.
    + eapply inv_stay; [done..|]. by eapply idle_ok.
  - destruct (mi_empty _ _ Hi) as (q & Hq1 & Hq2 & Hq3).
    inversion Hs as [| | | | | | | |? ? x x' Ha Ht|? ? x x' Ha Ht|? Ha| | | | | | | | | | | |]; subst;
      rewrite Hq1 in Ha; simplify_eq.
    + unfold take in Ht. simpl in Ht. destruct tok; simpl in Ht, Hq3; simplify_eq.
      destruct Hq3 as [?| ->]; [done|]. exists (Writing i).
      split; [|split; [right|intros _ _ _]; constructor].
      eapply inv_update; [exact Hi|exact Hth|exact Hb|done|apply log_snoc|..].
      * right. intros j Hj. split; intros ph e; [done|]. intros [= ? _ _]. done.
      * eapply thread_now; [done..|]. apply (running_holder _ _ _ P_turn mvar_writer); done.
      * exists []. simpl. rewrite lookup_insert_eq. split; [done|]. split; [done|]. by left.
      * destruct (mi_full _ _ Hi) as (q & Hf). exists q. simpl.
        rewrite lookup_insert_ne by apply Hi. exact Hf.
      * done.
      * eapply log_neutral; [exact Hi|done|done|done].
    + exists tok. split; [|split; [by left|done]].
      eapply inv_stay; [done..|]. eapply leaving_ok; [done..|].
      exists (empty m). set_solver.
  - destruct (mi_full _ _ Hi) as (q & Hq1 & Hq2 & Hq3).
    inversion Hs as [| | | | | | | |? ? x x' Ha Ht|? ? x x' Ha Ht|? Ha| | | | | | | | | | | |]; subst;
      rewrite Hq1 in Ha; simplify_eq.
    + unfold take in Ht. simpl in Ht. destruct tok as [| | |v| | |]; simpl in Ht, Hq3; simplify_eq.
      destruct Hq3 as [?| ->]; [done|]. exists (Reading i v).
      split; [|split; [right|intros _ _ _]; constructor].
      eapply inv_update; [exact Hi|exact Hth|exact Hb|done|apply log_snoc|..].
      * right. intros j Hj. split; intros ph e; [done|]. intros [= ? _ _]. done.
      * eapply thread_now; [done..|]. apply (running_holder _ _ _ P_turn mvar_reader); done.
      * destruct (mi_empty _ _ Hi) as (q & Hf). exists q. simpl.
        rewrite lookup_insert_ne by (apply not_eq_sym, Hi). exact Hf.
      * exists []. simpl. rewrite lookup_insert_eq. split; [done|]. split; [done|]. by left.
      * apply Hi.
      * eapply log_neutral; [exact Hi|done|done|done].
    + exists tok. split; [|split; [by left|done]].
      eapply inv_stay; [done..|]. eapply leaving_ok; [done..|].
      exists (full m). set_solver.
Qed.

Lemma queue_head ths e j q : queue_ok ths e (j :: q) →
  ∃ th, ths !! j = Some th ∧ blocked th = true ∧ th_entry th = Some e.
Proof.
  intros [_ Hq]. destruct (Hq j) as [Hj _]. specialize (Hj (list_elem_of_here _ _)).
  apply fmap_Some in Hj as (th & Hj & E). exists th. unfold shape in E. by injection E as -> ->.
Qed.

(** A post by the process in possession. *)
Lemma post_inv w tok i th ro k r w' (wr : bool) :
  mvar_inv w tok → w_threads w !! i = Some th → blocked th = false → plays th ro →
  (ro ≠ Command → body_ok ro (round th)) → at_phase ro P_idle (k 0) →
  (if wr then ∃ v, tok = Written i v else tok = Cleared i) →
  serve i w (Sem_post (if wr then full m else empty m)) r w' →
  ∃ tok', mvar_inv (resume i (Sem_post (if wr then full m else empty m)) k r w') tok' ∧
    tok_next tok tok'.
Proof.
  intros Hi Hth Hb Hp Hr Hk Htok Hs.
  destruct (mi_empty _ _ Hi) as (qe & He1 & He2 & He3).
  destruct (mi_full _ _ Hi) as (qf & Hf1 & Hf2 & Hf3).
  pose proof (mi_ne _ _ Hi) as Hne.
  assert (∀ j, j ≠ i → bystander tok j) as Hby.
  { intros j Hj ph e. destruct wr; [destruct Htok as [v ->]| subst tok]; simpl; congruence. }
  inversion Hs as [| | | | | | | | | | |a n x o x' Ha Hg|a Ha| | | | | | | | | |]; subst.
  2: { destruct wr; congruence. }
  destruct wr.
  - destruct Htok as [v ->]. rewrite Hf1 in Ha. injection Ha as <- <-. simpl in *.
    unfold give in Hg. simpl in Hg. destruct qf as [|j qf]; injection Hg as <- <-.
    + exists (In_full v). split; [|constructor].
      eapply inv_update; [exact Hi|exact Hth|exact Hb|done|apply log_snoc|..].
      * right. intros j Hj. split; [by apply Hby|done].
      * by eapply idle_ok.
      * exists qe. simpl. rewrite lookup_insert_ne by done. done.
      * exists []. simpl. rewrite lookup_insert_eq. split; [done|]. split; [done|]. by right.
      * apply Hi.
      * eapply log_neutral; [exact Hi|done|done|done].
    + destruct (queue_head _ _ _ _ Hf2) as (thj & Hj & Hbj & Hej).
      assert (i ≠ j) as Hij by congruence.
      exists (Reading j v). split; [|constructor].
      eapply (inv_handoff w _ (Written i v)); [exact Hi|exact Hth|exact Hb|exact Hj|done|done|
        done|done|done|done|done|done|done|done|..].
      * eapply idle_ok; [done..| |done]. intros ph e [= ?]. done.
      * exists qe. simpl. rewrite lookup_insert_ne by done. split; [done|].
        by eapply queue_wake_other.
      * exists qf. simpl. rewrite lookup_insert_eq. split; [done|]. by eapply queue_wake.
  - subst tok. rewrite He1 in Ha. injection Ha as <- <-. simpl in *.
    unfold give in Hg. simpl in Hg. destruct qe as [|j qe]; injection Hg as <- <-.
    + exists In_empty. split; [|constructor].
      eapply inv_update; [exact Hi|exact Hth|exact Hb|done|apply log_snoc|..].
      * right. intros j Hj. split; [by apply Hby|done].
      * by eapply idle_ok.
      * exists []. simpl. rewrite lookup_insert_eq. split; [done|]. split; [done|]. by right.
      * exists qf. simpl. rewrite lookup_insert_ne by done. done.
      * done.
      * eapply log_neutral; [exact Hi|done|done|done].
    + destruct (queue_head _ _ _ _ He2) as (thj & Hj & Hbj & Hej).
      assert (i ≠ j) as Hij by congruence.
      exists (Writing j). split; [|constructor].
      eapply (inv_handoff w _ (Cleared i)); [exact Hi|exact Hth|exact Hb|exact Hj|done|done|
        done|done|done|done|done|done|done|done|..].
      * eapply idle_ok; [done..| |done]. intros ph e [= ?]. done.
      * exists qe. simpl. rewrite lookup_insert_eq. split; [done|]. by eapply queue_wake.
      * exists qf. simpl. rewrite lookup_insert_ne by done. split; [done|].
        by eapply queue_wake_other.
Qed.

(** A call of the process in possession. *)
Lemma holder_call_inv w tok i th ro c k r w' ph e :
  mvar_inv w tok → w_threads w !! i = Some th → blocked th = false → plays th ro →
  (ro ≠ Command → body_ok ro (round th)) → holder tok = Some (i, ph, e) →
  th_entry th = Some e → at_phase ro ph (Do c k) → serve i w c r w' →
  ∃ tok', mvar_inv (resume i c k r w') tok' ∧ tok_next tok tok'.
Proof.
  intros Hi Hth Hb Hp Hr Hh He Hat Hs. pose proof (mi_log _ _ Hi) as Hlog.
  unfold sent, got in Hlog.
  assert (ph ≠ P_idle ∧ ph ≠ P_leaving) as [Hp1 Hp2] by (destruct tok; simpl in Hh; by simplify_eq).
  inversion Hat as [? ? ? ? [?|?]| | | | | |v ? Hv Hk|v ? Hk| |? Hk|? Hk|? Hk]; subst; try done.
  - assert (tok = Writing i) as ->.
    { unfold plays in Hp. destruct tok; simpl in Hh; simplify_eq; congruence. }
    inversion Hs; subst. exists (Written i v). split; [|constructor].
    assert (i8 v = v) as Ev by (apply wraps_small; lia). injection Hh as <-.
    eapply inv_carry; [exact Hi|exact Hth|exact Hb|exact Hp|exact Hr|exact He|done|done|done..| |].
    + simpl. intros v' [= <-]. split; [done|lia].
    + erewrite sent_snoc, got_snoc by done. simpl. rewrite Hlog. simpl.
      rewrite decide_False by lia. by rewrite !app_nil_r.
  - eapply (post_inv _ _ _ _ _ _ _ _ true); try done.
    destruct tok; simpl in Hh; simplify_eq; by eexists.
  - assert (∃ v, tok = Reading i v) as [v ->].
    { unfold plays in Hp. destruct tok; simpl in Hh; simplify_eq; try congruence. by eexists. }
    inversion Hs; subst. exists (Took i).
    destruct (mi_cell _ _ Hi v eq_refl) as [Ev Hv]. injection Hh as <-.
    split; [|constructor].
    eapply inv_carry; [exact Hi|exact Hth|exact Hb|exact Hp|exact Hr|exact He|done|done|..|done| |];
      try done.
    + apply Hk. lia.
    + erewrite sent_snoc, got_snoc by done. simpl. rewrite Hlog. simpl. by rewrite Ev, !app_nil_r.
  - assert (tok = Took i) as -> by (destruct tok; simpl in Hh; by simplify_eq).
    inversion Hs; subst. exists (Cleared i). split; [|constructor]. injection Hh as <-.
    eapply inv_carry; [exact Hi|exact Hth|exact Hb|exact Hp|exact Hr|exact He|done|done|done..| |];
      [done|]. eapply log_neutral; [exact Hi|done|done|done].
  - eapply (post_inv _ _ _ _ _ _ _ _ false); try done.
    destruct tok; simpl in Hh; by simplify_eq.
Qed.

(** Every move of every process keeps the invariant. *)
Lemma step_inv w w' tok :
  mvar_inv w tok → step w w' → ∃ tok', mvar_inv w' tok' ∧ advances tok tok'.
Proof.
  intros Hi Hstep.
  assert (∀ i th, w_threads w !! i = Some th → blocked th = false → ∃ ro, plays th ro ∧
    (ro ≠ Command → body_ok ro (round th)) ∧
    ((∃ ph e, holder tok = Some (i, ph, e) ∧ at_phase ro ph (now th) ∧ th_entry th = Some e) ∨
     bystander tok i ∧ (at_phase ro P_idle (now th) ∨
       at_phase ro P_leaving (now th) ∧ refused (w_log w) i))) as Hcases.
  { intros i th Hth Hb. destruct (mi_threads _ _ Hi i th Hth) as (ro & Hp & Hr & Ht).
    rewrite Hb in Ht. exists ro. do 2 (split; [done|]).
    destruct (holder tok) as [[[j ph] e]|] eqn:Hh.
    - destruct (decide (j = i)) as [->|Hne].
      + left. exists ph, e. split; [done|]. by apply (running_holder _ _ _ _ _ _ _ Hh) in Ht.
      + assert (bystander tok i) as Hby by (intros ph0 e0; congruence).
        right. split; [done|]. by apply running_bystander in Ht.
    - assert (bystander tok i) as Hby by (intros ph0 e0; congruence).
      right. split; [done|]. by apply running_bystander in Ht. }
  destruct Hstep as [i th c k r w' Hth Hb Hnow Hs|i th a n x x' k Hth Hb Hnow Ha Ht|
    i th Hth Hb Hnow];
    destruct (Hcases i th Hth Hb) as (ro & Hp & Hr & [(ph & e & Hh & Hat & He)|[Hby Hat]]).
  - rewrite Hnow in Hat. edestruct holder_call_inv as (tok' & ? & ?); [done..|].
    exists tok'. split; [done|by right].
  - rewrite Hnow in Hat. destruct Hat as [Hat|[Hat Href]].
    { edestruct idle_call_inv as (tok' & ? & ? & _); [done..|]. by exists tok'. }
    inversion Hat as [? ? ? ? _ Hc Hk| | | | | | | | | | |]; subst.
    destruct (serve_harmless _ _ _ _ _ Hs Hc) as (Et & El & Es & Ec & Hn).
    exists tok. split; [|by left]. eapply inv_stay; [done..|]. eapply leaving_ok; [done..|].
    eapply refused_mono; [|done]. set_solver.
  - rewrite Hnow in Hat. exfalso. destruct tok; simpl in Hh; simplify_eq; inversion Hat; subst;
      naive_solver.
  - rewrite Hnow in Hat. exists tok. split; [|by left].
    destruct Hat as [Hat|[Hat _]]; [|inversion Hat; naive_solver].
    unfold take in Ht. destruct (decide (units x = 0)) as [Hu|]; [|done].
    destruct x as [u q]. simpl in Hu. subst u. injection Ht as <-. simpl.
    inversion Hat as [? ? ? ? _ Hc| | | | |v ? Hk Hl| | |? Hk Hl| | |]; subst; [done|..].
    + by apply (inv_block w tok i th _ _ mvar_writer (Writes v)); [done..|apply Hr| | |].
    + by apply (inv_block w tok i th _ _ mvar_reader Reads); [done..|apply Hr| | |].
  - rewrite Hnow in Hat. exfalso. destruct tok; simpl in Hh; simplify_eq; inversion Hat; subst;
      naive_solver.
  - rewrite Hnow in Hat. exists tok. split; [|by left].
    destruct Hat as [Hat|[Hat _]]; [|inversion Hat]. inversion Hat; subst.
    eapply (inv_update w _ tok tok i th); try done;
      [by left| |apply Hi|apply Hi|apply Hi|apply Hi].
    eapply idle_ok; try done. by apply Hr.
Qed.
End protocol.
