(* ===== verification/MVarSpec.v ===== *)
(** * What the [mvar] command guarantees

    From the moment the shell starts the command: what the readers take is
    what the writers stored, in order; the variable refines a buffer of one
    place; while a writer and a reader are there, another value can always be
    delivered. *)

From S2P Require Import Prelude Acts Strings Numerals UserString UserStdio SemSpec MVar MVarFacts.

#[local] Arguments chars : simpl never.
#[local] Arguments create_writers : simpl never.
#[local] Arguments create_readers : simpl never.

(** ** Up to the creation of the variable *)

(** Nothing is open; [empty] is open; an error is on its way out. *)
Inductive stage := S_new | S_empty (a : Z) | S_dead.

Inductive at_setup : stage → act (option Z) → Prop :=
  | su_exit st r : at_setup st (Done (Some r))
  | su_stuck st : at_setup st Stuck
  | su_quiet st c k : harmless c ∨ c = Set_mvar 0 ∨ (∃ a, c = Sem_close a ∧ st = S_dead) →
      (∀ r, at_setup st (k r)) → at_setup st (Do c k)
  | su_open_empty k : at_setup S_dead (k 0) → (∀ a, 0 < a → at_setup (S_empty a) (k a)) →
      at_setup S_new (Do (Sem_open name_empty 1) k)
  | su_open_full a k : at_setup S_dead (k 0) →
      (∀ b, 0 < b → at_phase {| empty := a; full := b |} Command P_idle (k b)) →
      at_setup (S_empty a) (Do (Sem_open name_full 0) k).

Ltac run := cbn; unfold mret, act_ret; cbn.
Ltac setup_quiet := apply su_quiet; [first [by left|by (right; left)|right; right; by eexists]|intros ?].

(** [atoi] answers an [int]. *)
Lemma atoi_loop_range fuel : ∀ m str i result v, 0 ≤ result < 2 ^ 31 →
  atoi_loop fuel m str i result = Some v → 0 ≤ v < 2 ^ 31.
Proof.
  induction fuel as [|fuel IH]; intros m str i result v Hr; cbn [atoi_loop]; [done|].
  destruct (m !! (str + i)) as [c|]; [|done]. cbn [mbind option_bind].
  case_decide; [|by intros [= <-]].
  unfold int_ok. repeat (case_decide; cbn [mbind option_bind]; [|done]). apply IH. lia.
Qed.

Lemma text_atoi_range l v : text_atoi l = Some v → v < 2 ^ 31.
Proof.
  unfold text_atoi, atoi.
  destruct (skip_blanks _ _ _ _) as [i|]; [|done]. cbn [mbind option_bind].
  destruct (_ !! _) as [c|]; [|done]. cbn [mbind option_bind].
  repeat case_decide; cbn [mbind option_bind];
    match goal with |- context [atoi_loop ?f ?m ?s ?i 0] =>
      destruct (atoi_loop f m s i 0) as [r|] eqn:E end; cbn [mbind option_bind]; try done;
    assert (0 ≤ r < 2 ^ 31) by (by eapply atoi_loop_range; [|exact E]); intros [= <-]; lia.
Qed.

Lemma _mvar_setup mvar argc argv :
  at_setup S_new (r ← _mvar mvar argc argv; mret (Some r)).
Proof.
  unfold _mvar. case_decide; [run; setup_quiet; constructor|].
  destruct argv as [|a0 [|a1 [|a2 argv]]]; try constructor.
  destruct (text_atoi a1) as [readers|] eqn:E1; [|constructor].
  destruct (text_atoi a2) as [writers|] eqn:E2; [|constructor]. apply text_atoi_range in E1, E2.
  run. case_decide; [run; setup_quiet; constructor|].
  unfold mvarInit. rewrite decide_False by done. run. setup_quiet.
  case_decide; run; [setup_quiet; constructor|]. setup_quiet.
  apply su_open_empty; run.
  - setup_quiet. run. setup_quiet. constructor.
  - intros e He. rewrite decide_False by lia. run. apply su_open_full; run.
    + do 3 setup_quiet. constructor.
    + intros f Hf. rewrite decide_False by lia. run.
      rewrite decide_False by lia.
      apply create_writers_at; [done|]. apply create_readers_at; [done|lia|]. constructor.
Qed.

Definition no_sem (w : world) (n : list Z) : Prop := ∀ a x, w_sems w !! a ≠ Some (n, x).

(** The world while the command [p] sets the variable up. *)
Record setup_inv (w : world) (st : stage) (p : Z) : Prop := {
  su_thread : ∃ th, w_threads w = {[ p := th ]} ∧ blocked th = false ∧ th_entry th = None ∧
    at_setup st (now th);
  su_log : sent w = [] ∧ got w = [];
  su_sems : match st with
            | S_new => no_sem w name_empty ∧ no_sem w name_full
            | S_empty a => w_sems w !! a = Some (name_empty, Semaphore 1 []) ∧
                no_sem w name_full
            | S_dead => True
            end;
}.

Lemma started_setup mvar p argc argv w :
  started mvar p argc argv w → setup_inv w S_new p.
Proof.
  intros (Et & El & Hn). constructor.
  - eexists. split; [exact Et|]. do 2 (split; [done|]). apply _mvar_setup.
  - unfold sent, got. by rewrite El.
  - split; intros a x Ha; by apply Hn in Ha as [].
Qed.

(** What the children's invariant says when the second semaphore is open. *)
Lemma setup_done w p th a b :
  w_threads w = {[ p := th ]} → blocked th = false → th_entry th = None →
  at_phase {| empty := a; full := b |} Command P_idle (now th) → a ≠ b →
  w_sems w !! a = Some (name_empty, Semaphore 1 []) →
  w_sems w !! b = Some (name_full, Semaphore 0 []) →
  sent w = [] → got w = [] → mvar_inv {| empty := a; full := b |} w In_empty.
Proof.
  intros Et Hb He Hat Hne Ha Hfb Es Eg.
  assert (∀ e, queue_ok (w_threads w) e []) as Hq.
  { intros e. split; [constructor|]. intros i. rewrite Et. split; [set_solver|].
    destruct (decide (i = p)) as [->|].
    - rewrite lookup_singleton_eq. simpl. unfold shape. rewrite Hb. by intros [= ?].
    - rewrite lookup_singleton_ne by done. done. }
  constructor; try done.
  - exists []. split; [done|]. split; [done|by right].
  - exists []. split; [done|]. split; [done|by left].
  - intros i th'. rewrite Et. intros [<- <-]%lookup_singleton_Some.
    exists Command. split; [done|]. split; [done|]. rewrite Hb. by left.
  - by rewrite Es, Eg.
Qed.

Lemma serve_open_inv i w name v r w' : serve i w (Sem_open name v) r w' →
  (∃ x, w_sems w !! r = Some (name, x)) ∨
  (w_sems w !! r = None ∧ 0 < r ∧ w' = put_sem r name (Semaphore (u16 v) []) w) ∨
  r = 0 ∧ w' = w.
Proof. inversion 1; subst; eauto. Qed.

Lemma setup_step w w' st p : setup_inv w st p → step w w' →
  (∃ st', setup_inv w' st' p) ∨ ∃ m, mvar_inv m w' In_empty.
Proof.
  intros [(th & Et & Hb & He & Hat) [Es Eg] Hsems] Hstep.
  assert (∀ i th', w_threads w !! i = Some th' → i = p ∧ th' = th) as Hone.
  { intros i th'. rewrite Et. by intros [<- <-]%lookup_singleton_Some. }
  assert (∀ c k r w1, w_threads w1 = w_threads w → w_log w1 = w_log w →
    w_threads (resume p c k r w1) = {[ p := set_now (k r) th ]} ∧
    (neutral (p, c, r) → sent (resume p c k r w1) = [] ∧ got (resume p c k r w1) = []))
    as Hres.
  { intros c k r w1 Et1 El1. split; [simpl; by rewrite Et1, Et, alter_singleton_eq|].
    intros [N1 N2]. erewrite sent_snoc, got_snoc by done. rewrite El1, N1, N2.
    unfold sent in Es. unfold got in Eg. by rewrite Es, Eg. }
  destruct Hstep as [i th' c k r w1 Hth _ Hnow Hs|i th' a n x x' k Hth _ Hnow _ _|
    i th' Hth _ Hnow]; apply Hone in Hth as [-> ->]; rewrite Hnow in Hat.
  2: { inversion Hat as [| |? ? ? [Hc|[Hc|(? & Hc & _)]]| |]; done. }
  2: { inversion Hat. }
  inversion Hat as [| |? ? ? Hc Hk|? Hk0 Hk|a ? Hk0 Hk]; subst.
  - left. exists st.
    assert (w_threads w1 = w_threads w ∧ w_log w1 = w_log w ∧
      (w_sems w1 = w_sems w ∨ st = S_dead) ∧ neutral (p, c, r)) as (E1 & E2 & E3 & Hn).
    { destruct Hc as [Hc|[->|(a & -> & ->)]].
      - destruct (serve_harmless _ _ _ _ _ Hs Hc) as (? & ? & ? & ? & ?). auto.
      - inversion Hs; subst. repeat split; auto.
      - inversion Hs; subst; repeat split; auto. }
    destruct (Hres c k r w1 E1 E2) as [R1 R2]. constructor; [|by apply R2|].
    + eexists. split; [exact R1|]. do 2 (split; [done|]). apply Hk.
    + destruct E3 as [E3| ->]; [|done]. destruct st; [|split|done]; unfold no_sem; simpl; rewrite E3;
        [apply Hsems|apply Hsems|apply (proj2 Hsems)].
  - destruct Hsems as [Hn1 Hn2].
    apply serve_open_inv in Hs as [[x Ha]|[(Ha & Hpos & ->)|[-> ->]]].
    + by apply Hn1 in Ha.
    + left. exists (S_empty r). destruct (Hres (Sem_open name_empty 1) k r
        (put_sem r name_empty (Semaphore (u16 1) []) w)) as [R1 R2]; [done..|].
      constructor; [|by apply R2|].
      * eexists. split; [exact R1|]. do 2 (split; [done|]). by apply Hk.
      * simpl. rewrite lookup_insert_eq. split; [done|]. intros b x. simpl.
        destruct (decide (b = r)) as [->|Hne].
        -- rewrite lookup_insert_eq. by intros [= ?].
        -- rewrite lookup_insert_ne by done. apply Hn2.
    + left. exists S_dead. destruct (Hres (Sem_open name_empty 1) k 0 w) as [R1 R2]; [done..|].
      constructor; [|by apply R2|done].
      eexists. split; [exact R1|]. do 2 (split; [done|]). exact Hk0.
  - destruct Hsems as [Ha1 Hn2].
    apply serve_open_inv in Hs as [[x Hx]|[(Hx & Hpos & ->)|[-> ->]]].
    + by apply Hn2 in Hx.
    + right. exists {| empty := a; full := r |}.
      destruct (Hres (Sem_open name_full 0) k r
        (put_sem r name_full (Semaphore (u16 0) []) w)) as [R1 R2]; [done..|].
      destruct R2 as [R2 R3]; [done|].
      assert (a ≠ r) as Hne by congruence.
      eapply setup_done; [exact R1|done|done|by apply Hk|done|..|done|done]; simpl.
      * by rewrite lookup_insert_ne.
      * by rewrite lookup_insert_eq.
    + left. exists S_dead. destruct (Hres (Sem_open name_full 0) k 0 w) as [R1 R2]; [done..|].
      constructor; [|by apply R2|done].
      eexists. split; [exact R1|]. do 2 (split; [done|]). exact Hk0.
Qed.

(** Every world the command can lead to. *)
Lemma reach_inv mvar p argc argv w0 w :
  started mvar p argc argv w0 → rtc step w0 w →
  (∃ st, setup_inv w st p) ∨ ∃ m tok, mvar_inv m w tok.
Proof.
  intros Hst Hr. assert (∃ st, setup_inv w0 st p) as Hw0.
  { exists S_new. by eapply started_setup. }
  clear Hst. revert Hw0. induction Hr as [w|w w1 w2 Hstep Hr IH]; intros [st Hw0]; [by left; exists st|].
  destruct (setup_step _ _ _ _ Hw0 Hstep) as [Hs|(m & Hm)]; [by apply IH|].
  right. exists m. clear IH Hw0 Hstep. revert Hm. generalize In_empty.
  induction Hr as [w1|w1 w3 w4 Hstep Hr IH]; intros tok Hm; [by exists tok|].
  destruct (step_inv _ _ _ _ Hm Hstep) as (tok' & Hm' & _). by eapply IH.
Qed.

(** ** Deliveries are always possible *)

Section progress.
Variable m : MVar.

(** There are writers and readers, and nobody was refused a place. *)
Definition live (w : world) : Prop :=
  (∀ e, ∃ i th, w_threads w !! i = Some th ∧ th_entry th = Some e) ∧ ∀ i, ¬ refused (w_log w) i.

(** Steps that take nothing. *)
Definition quietly (w w' : world) : Prop := rtc step w w' ∧ got w' = got w ∧ live w'.

Lemma quietly_trans w1 w2 w3 : quietly w1 w2 → quietly w2 w3 → quietly w1 w3.
Proof. intros (H1 & H2 & _) (H3 & H4 & H5). split; [by etrans|]. by rewrite H4, H2. Qed.

Lemma live_resume w w1 i c k r : live w →
  (∀ j, th_entry <$> w_threads w1 !! j = th_entry <$> w_threads w !! j) → w_log w1 = w_log w →
  (∀ a, c = Sem_wait a → r = 0) → live (resume i c k r w1).
Proof.
  intros [He Hn] Ht El Hc.
  assert (∀ j, th_entry <$> w_threads (resume i c k r w1) !! j = th_entry <$> w_threads w !! j)
    as Ht'.
  { intros j. rewrite <-Ht. simpl. destruct (decide (i = j)) as [->|].
    - rewrite lookup_alter_eq. by destruct (w_threads w1 !! j).
    - by rewrite lookup_alter_ne. }
  split.
  - intros e. destruct (He e) as (j & th & Hj & E). specialize (Ht' j). rewrite Hj in Ht'.
    apply fmap_Some in Ht' as (th' & Hj' & E'). exists j, th'. split; [done|congruence].
  - intros j [a Ha]. simpl in Ha. rewrite El, elem_of_app, list_elem_of_singleton in Ha.
    destruct Ha as [Ha|Ha]; [by eapply Hn; eexists|]. injection Ha as -> <- <-.
    by specialize (Hc a eq_refl).
Qed.

(** A harmless call can always be answered. *)
Lemma harmless_served i w c : harmless c → ∃ r w', serve i w c r w'.
Proof. destruct c; try done; intros _; do 2 eexists; try constructor. done. Qed.

(** A process between two turns can reach its next wait by itself. *)
Lemma reach_wait ro t : ro ≠ Command → ∀ w tok i th,
  at_phase m ro P_idle t → mvar_inv m w tok → live w → w_threads w !! i = Some th → now th = t →
  blocked th = false → plays th ro → bystander tok i → body_ok m ro (round th) →
  ∃ w' th' a k, quietly w w' ∧ mvar_inv m w' tok ∧ w_threads w' !! i = Some th' ∧
    blocked th' = false ∧ plays th' ro ∧ now th' = Do (Sem_wait a) k ∧
    at_phase m ro P_idle (now th') ∧ body_ok m ro (round th').
Proof.
  intros Hro. induction t as [r|c k IH|]; intros w tok i th Hat Hi Hl Hth Hnow Hb Hp Hby Hr.
  3: by inversion Hat.
  - inversion Hat; subst; [|done].
    set (w' := set_w_threads (alter (set_now (round th)) i (w_threads w)) w).
    assert (step w w') as Hs by (by eapply step_again).
    assert (mvar_inv m w' tok) as Hi'.
    { eapply (inv_update m w _ tok tok i th); try done;
        [by left| |apply Hi|apply Hi|apply Hi|apply Hi].
      eapply idle_ok; try done. by apply Hr. }
    destruct Hr as [Hr1 (a & k & Hr2)].
    exists w', (set_now (round th) th), a, k. split.
    { split; [by apply rtc_once|]. split; [done|]. destruct Hl as [Hl1 Hl2]. split; [|done].
      intros e. destruct (Hl1 e) as (j & thj & Hj & Ej). simpl.
      destruct (decide (j = i)) as [->|].
      - exists i. rewrite lookup_alter_eq, Hj. by eexists.
      - exists j. rewrite lookup_alter_ne by done. by eexists. }
    split; [done|]. split; [simpl; by rewrite lookup_alter_eq, Hth|].
    do 3 (split; [done|]). split; [done|]. split; [done|]. by do 2 eexists.
  - inversion Hat as [? ? ? ? _ Hc Hk| | | | |? ? Hk Hk'| | |? Hk Hk'| | |]; subst; try done.
    2-3: exists w, th; do 2 eexists; split; [split; [done|done]|]; rewrite Hnow;
      do 6 (split; [done|]); done.
    destruct (harmless_served i w c Hc) as (r & w1 & Hs).
    destruct (serve_harmless _ _ _ _ _ Hs Hc) as (Et & El & Es & Ec & Hn).
    set (w2 := resume i c k r w1).
    assert (mvar_inv m w2 tok) as Hi2 by (eapply inv_stay; [done..|]; by eapply idle_ok).
    assert (live w2) as Hl2.
    { apply (live_resume w); [done|intros j; by rewrite Et|done|by intros a ->]. }
    destruct (IH r w2 tok i (set_now (k r) th)) as (w3 & th3 & a & k3 & Hq & Hrest); try done.
    { simpl. by rewrite Et, lookup_alter_eq, Hth. }
    exists w3, th3, a, k3. split; [|done]. eapply quietly_trans; [|exact Hq].
    split; [apply rtc_once; by eapply step_call|]. split; [|done].
    erewrite got_snoc by done. rewrite El. destruct Hn as [_ ->]. by rewrite app_nil_r.
Qed.

Definition taken_by (tok : token) : list Z := match tok with Reading _ v => [v] | _ => [] end.

(** Giving a unit changes no entry. *)
Lemma wake_entries o w j :
  th_entry <$> w_threads (wake o w) !! j = th_entry <$> w_threads w !! j.
Proof.
  destruct o as [i|]; [|done]. simpl. destruct (decide (i = j)) as [->|].
  - rewrite lookup_alter_eq. by destruct (w_threads w !! j).
  - by rewrite lookup_alter_ne.
Qed.

Lemma wake_log o w : w_log (wake o w) = w_log w.
Proof. by destruct o. Qed.

(** The process in possession of the token can move it on. *)
Lemma holder_moves w tok i ph e : mvar_inv m w tok → live w → holder tok = Some (i, ph, e) →
  ∃ w' tok', step w w' ∧ mvar_inv m w' tok' ∧ tok_next tok tok' ∧ live w' ∧
    got w' = got w ++ taken_by tok.
Proof.
  intros Hi Hl Hh. destruct (mi_holder _ _ _ Hi i ph e Hh) as (th & Hth & Hb).
  destruct (mi_threads _ _ _ Hi i th Hth) as (ro & Hp & Hr & Ht). rewrite Hb in Ht.
  apply (running_holder m _ _ _ _ _ _ _ Hh) in Ht as [Hat He].
  assert (∀ c k r w1, now th = Do c k → serve i w c r w1 →
    (∀ j, th_entry <$> w_threads w1 !! j = th_entry <$> w_threads w !! j) → w_log w1 = w_log w →
    (∀ a, c ≠ Sem_wait a) → taken_values [(i, c, r)] = taken_by tok →
    ∃ w' tok', step w w' ∧ mvar_inv m w' tok' ∧ tok_next tok tok' ∧ live w' ∧
      got w' = got w ++ taken_by tok) as Hmove.
  { intros c k r w1 Hnow Hs Het El Hc Ev. rewrite Hnow in Hat.
    destruct (holder_call_inv m w tok i th ro c k r w1 ph e) as (tok' & Hi' & Hnext); [done..|].
    exists (resume i c k r w1), tok'. split; [by eapply step_call|]. do 2 (split; [done|]). split.
    - apply (live_resume w); [done..|]. intros a ->. by destruct (Hc a).
    - erewrite got_snoc by done. by rewrite El, Ev. }
  destruct (mi_empty _ _ _ Hi) as (qe & He1 & _). destruct (mi_full _ _ _ Hi) as (qf & Hf1 & _).
  assert (ph ≠ P_idle ∧ ph ≠ P_leaving) as [Hp1 Hp2] by (destruct tok; simpl in Hh; by simplify_eq).
  inversion Hat as [? ? c k Hc Hq Hk Hro Hph Hnow| | | | | |? k Hv Hk Hro Hph Hnow|? k Hk Hro Hph Hnow
    | |k Hk Hro Hph Hnow|k Hk Hro Hph Hnow|k Hk Hro Hph Hnow]; subst; try done;
    [naive_solver|..].
  - eapply (Hmove (Set_mvar _)); [done|constructor|done..|].
    unfold plays in Hp. destruct tok; simpl in Hh; simplify_eq; try done; congruence.
  - destruct (give (Semaphore (full_units tok) qf)) as [o x'] eqn:Hg.
    eapply (Hmove (Sem_post _)); [done|by eapply serve_post|intros j; by rewrite wake_entries|
      by rewrite wake_log|done|]. destruct tok; simpl in Hh; by simplify_eq.
  - eapply (Hmove Get_mvar); [done|constructor|done..|].
    unfold plays in Hp. destruct tok as [| | | |i' v| |]; simpl in Hh; simplify_eq; try congruence.
    simpl. by destruct (mi_cell _ _ _ Hi v eq_refl) as [-> _].
  - eapply (Hmove (Set_mvar _)); [done|constructor|done..|].
    destruct tok; simpl in Hh; by simplify_eq.
  - destruct (give (Semaphore (empty_units tok) qe)) as [o x'] eqn:Hg.
    eapply (Hmove (Sem_post _)); [done|by eapply serve_post|intros j; by rewrite wake_entries|
      by rewrite wake_log|done|]. destruct tok; simpl in Hh; by simplify_eq.
Qed.

(** With the token in a semaphore, a process of the right kind can take it. *)
Lemma idle_takes w tok : mvar_inv m w tok → live w → holder tok = None →
  ∃ w' tok', quietly w w' ∧ mvar_inv m w' tok' ∧ tok_next tok tok'.
Proof.
  intros Hi Hl Hh.
  set (e := match tok with In_empty => mvar_writer | _ => mvar_reader end).
  destruct (proj1 Hl e) as (i & th & Hth & He).
  destruct (mi_threads _ _ _ Hi i th Hth) as (ro & Hp & Hr & Ht).
  assert (bystander tok i) as Hby by (intros ph e0; congruence).
  assert (∃ q, w_sems w !! (match e with mvar_writer => empty m | mvar_reader => full m end) =
      Some (q, Semaphore 1 []) ∧ queue_ok (w_threads w) e []) as (n & Hsem & Hq).
  { destruct tok; try done.
    - destruct (mi_empty _ _ _ Hi) as (q & H1 & H2 & [?| ->]); [done|]. by eexists.
    - destruct (mi_full _ _ _ Hi) as (q & H1 & H2 & [?| ->]); [done|]. by eexists. }
  assert (blocked th = false) as Hb.
  { destruct (blocked th) eqn:Hb; [|done]. exfalso. destruct Hq as [_ Hq].
    specialize (Hq i). rewrite Hth in Hq. simpl in Hq. unfold shape in Hq. rewrite Hb, He in Hq.
    set_solver. }
  rewrite Hb, running_bystander in Ht by done. destruct Ht as [Hat|[_ Href]].
  2: { by destruct (proj2 Hl i). }
  assert (ro ≠ Command) as Hro by (intros ->; unfold plays in Hp; congruence).
  destruct (reach_wait ro (now th) Hro w tok i th) as
    (w1 & th1 & a & k & (Hst1 & Hg1 & Hl1) & Hi1 & Hth1 & Hb1 & Hp1 & Hnow & Hat1 & Hr1);
    [done..|by apply Hr|].
  destruct (mi_empty _ _ _ Hi1) as (qe & He1 & _ & He3).
  destruct (mi_full _ _ _ Hi1) as (qf & Hf1 & _ & Hf3).
  assert (∃ n x', w_sems w1 !! a = Some (n, Semaphore 1 x') ∧ x' = []) as (n' & x' & Ha & ->).
  { rewrite Hnow in Hat1. unfold plays in Hp. subst e. clear Hsem Hq.
    inversion Hat1 as [? ? ? ? _ Hc| | | | |? ? _ _| | |? _ _| | |]; subst; [done|..].
    - assert (tok = In_empty) as -> by (destruct tok; simpl in *; try done; congruence).
      destruct He3 as [?| ->]; [done|]. by do 2 eexists.
    - destruct tok; try done; simpl in *; [congruence|].
      destruct Hf3 as [?| ->]; [done|]. by do 2 eexists. }
  assert (serve i w1 (Sem_wait a) 0 (put_sem a n' (Semaphore 0 []) w1)) as Hs
    by (by eapply serve_wait).
  rewrite Hnow in Hat1.
  destruct (idle_call_inv m w1 tok i th1 ro (Sem_wait a) k 0 _ Hi1 Hth1 Hb1 Hp1 (λ _, Hr1) Hby
    Hat1 Hs) as (tok' & Hi' & _ & Hnext).
  eexists _, tok'. split; [|split; [exact Hi'|by eapply Hnext]].
  eapply quietly_trans; [by split|].
  split; [apply rtc_once; by eapply step_call|]. split.
  - erewrite got_snoc by done. by rewrite app_nil_r.
  - by apply (live_resume w1).
Qed.

(** How far the token is from the next delivery. *)
Definition rank (tok : token) : nat :=
  match tok with
  | Took _ => 6 | Cleared _ => 5 | In_empty => 4 | Writing _ => 3 | Written _ _ => 2
  | In_full _ => 1 | Reading _ _ => 0
  end.

(** From every state of the token the next value can be delivered. *)
Lemma delivers tok : ∀ w, mvar_inv m w tok → live w → ∃ w' v, rtc step w w' ∧ got w' = got w ++ [v].
Proof.
  induction tok as [tok IH] using (induction_ltof1 _ rank). intros w Hi Hl.
  assert (∃ w1 tok', rtc step w w1 ∧ mvar_inv m w1 tok' ∧ tok_next tok tok' ∧ live w1 ∧
    got w1 = got w ++ taken_by tok) as (w1 & tok' & Hs & Hi1 & Hn & Hl1 & Hg).
  { destruct (holder tok) as [[[i ph] e]|] eqn:Hh.
    - destruct (holder_moves w tok i ph e Hi Hl Hh) as (w1 & tok' & Hs & Hrest).
      exists w1, tok'. split; [by apply rtc_once|done].
    - destruct (idle_takes w tok Hi Hl Hh) as (w1 & tok' & (Hs & Hg & Hl1) & Hi1 & Hn).
      exists w1, tok'. do 4 (split; [done|]). rewrite Hg. destruct tok; by rewrite ?app_nil_r. }
  destruct (decide (taken_by tok = [])) as [Ht|Ht].
  - destruct (IH tok') with (w := w1) as (w' & v & Hs' & Hg'); [|done..|].
    + unfold ltof. destruct Hn; simpl in *; try lia. done.
    + exists w', v. split; [by etrans|]. rewrite Hg', Hg, Ht, app_nil_r. done.
  - destruct tok as [| | | |i v| |]; try done. by exists w1, v.
Qed.
End progress.

(** * Properties *)

(** The value that is on its way from a writer to a reader, if any: what the
    readers took is what the writers stored but for it. *)
Definition mvar_view (w : world) (x : option Z) : Prop := sent w = got w ++ option_list x.

(** C5: The [mvar] command implements a variable of one place.  In every world its
    processes can reach, whatever the interleaving and the failures, the
    values the readers took are the values the writers stored, in the same
    order, none lost and none twice, except one that may be on its way; and
    every move of a process either leaves the variable alone, or puts a value
    into the empty variable, or takes the value it holds. *)
Theorem mvar_refines mvar p argc argv w0 w
    (Hstart : started mvar p argc argv w0) (Hreach : rtc step w0 w) :
  ∃ x, mvar_view w x ∧ ∀ w', step w w' → ∃ x', mvar_view w' x' ∧ (x' = x ∨ mvar_step x x').
Proof.
  assert (∀ w st, setup_inv w st p → mvar_view w None) as Hsetup.
  { intros w1 st [_ [Es Eg] _]. unfold mvar_view. by rewrite Es, Eg. }
  destruct (reach_inv _ _ _ _ _ _ Hstart Hreach) as [[st Hs]|(m & tok & Hm)].
  - exists None. split; [by eapply Hsetup|]. intros w' Hstep. exists None. split; [|by left].
    destruct (setup_step _ _ _ _ Hs Hstep) as [[st' Hs']|(m & Hm)]; [by eapply Hsetup|].
    apply (mi_log _ _ _ Hm).
  - exists (carried tok). split; [apply (mi_log _ _ _ Hm)|]. intros w' Hstep.
    destruct (step_inv _ _ _ _ Hm Hstep) as (tok' & Hm' & Hadv). exists (carried tok').
    split; [apply (mi_log _ _ _ Hm')|].
    destruct Hadv as [->|Hn]; [by left|by apply tok_next_view].
Qed.

(** C6: The processes of the [mvar] command never lock each other out: in every
    world they can reach where there is a writer and a reader and no process
    was refused a place in a semaphore's queue, some continuation delivers
    one more value to a reader. *)
Theorem mvar_progress mvar p argc argv w0 w
    (Hstart : started mvar p argc argv w0) (Hreach : rtc step w0 w) (Hlive : live w) :
  ∃ w' v, rtc step w w' ∧ got w' = got w ++ [v].
Proof.
  destruct (reach_inv _ _ _ _ _ _ Hstart Hreach) as [[st [(th & Et & _ & He & _) _ _]]|(m & tok & Hm)].
  - destruct (proj1 Hlive mvar_writer) as (i & th' & Hi & He').
    rewrite Et in Hi. apply lookup_singleton_Some in Hi as [_ <-]. congruence.
  - by eapply delivers.
Qed.

(** ** Concrete instances *)

(** The shell has started [mvar 1 1] as process 7. *)
Definition demo_world : world :=
  World ∅ 0 1 {[ 7 := Thread None (r ← _mvar None 3 [chars "mvar"; [49]; [49]]; mret (Some r))
    Stuck false ]} [].

Lemma demo_started : started None 7 3 [chars "mvar"; [49]; [49]] demo_world.
Proof. split; [done|]. split; [done|]. intros a n x Ha. discriminate Ha. Qed.

(** The command has created its writer 204 and its reader 205, and the writer
    has stored its letter; then the reader has taken it. *)
Definition demo_full : world := default demo_world (play [(7, 6%nat); (204, 30%nat)] 200 demo_world).
Definition demo_read : world :=
  default demo_world (play [(7, 6%nat); (204, 30%nat); (205, 22%nat)] 200 demo_world).

Lemma demo_full_reached : rtc step demo_world demo_full.
Proof.
  unfold demo_full. destruct (play _ _ _) as [w|] eqn:E; [|done]. by eapply play_sound.
Qed.

Lemma demo_full_live : live demo_full.
Proof.
  split.
  - assert (∀ e, th_entry <$> w_threads demo_full !! (if decide (e = mvar_writer) then 204 else 205)
      = Some (Some e)) as He by (intros []; vm_compute; done).
    intros e. specialize (He e). apply fmap_Some in He as (th & Hth & E). eauto.
  - assert (forallb (λ ev, match ev.1.2 with Sem_wait _ => negb (ev.2 =? -1) | _ => true end)
      (w_log demo_full) = true) as Hl by (vm_compute; done).
    intros i [a Ha]. rewrite forallb_forall in Hl. apply list_elem_of_In in Ha.
    by apply Hl in Ha.
Qed.

Example demo_full_view : sent demo_full = [65] ∧ got demo_full = [].
Proof. vm_compute. done. Qed.
Example demo_read_view : sent demo_read = [65] ∧ got demo_read = [65].
Proof. vm_compute. done. Qed.

Lemma mvar_refines_witness :
  ∃ x, mvar_view demo_full x ∧
    ∀ w', step demo_full w' → ∃ x', mvar_view w' x' ∧ (x' = x ∨ mvar_step x x').
Proof. apply (mvar_refines None 7 3 _ demo_world demo_full demo_started demo_full_reached). Defined.

Lemma mvar_progress_witness : ∃ w' v, rtc step demo_full w' ∧ got w' = got demo_full ++ [v].
Proof.
  apply (mvar_progress None 7 3 _ demo_world demo_full demo_started demo_full_reached
    demo_full_live).
Defined.
