(* ===== verification/TestUtil.v ===== *)
(** * The helpers of the tests ([Userland/Shell/commands/test_util.c])

    The pseudo-random numbers, the check of a block of memory, the parser of
    the parameters and the busy waiting.  The two words of the generator are
    static variables: each function takes them and gives them back. *)

From S2P Require Import Prelude Strings Monad Numerals UserString UserStdio Libsys Lib.

(** ** Random numbers *)

Definition rng_init : Z * Z := (362436069, 521288629).   (* m_z, m_w *)

Definition GetUint (g : Z * Z) : Z * (Z * Z) :=
  let m_z := u32 (36969 * Z.land g.1 65535 + Z.shiftr g.1 16) in
  let m_w := u32 (18000 * Z.land g.2 65535 + Z.shiftr g.2 16) in
  (u32 (u32 (Z.shiftl m_z 16) + m_w), (m_z, m_w)).

(** *** Floating point

    A number [m * 2 ^ (- e)].  The compiler evaluates the [double]s of the
    function with the [prec] bits of the registers it uses: 53, or 64 when
    the extended registers of the coprocessor are used. *)
Record dyadic := Dyadic { mant : Z; scale : Z }.

(** The nearest integer to [a / b], to the even one of two. *)
Definition div_nearest (a b : Z) : Z :=
  let q := a / b in
  match 2 * (a mod b) ?= b with
  | Lt => q
  | Gt => q + 1
  | Eq => if Z.even q then q else q + 1
  end.

Section floats.
Variable prec : Z.

Definition round_to (x : dyadic) : dyadic :=
  let extra := Z.log2 (mant x) + 1 - prec in
  if decide (extra ≤ 0) then x
  else Dyadic (div_nearest (mant x) (2 ^ extra)) (scale x - extra).

Definition of_int (n : Z) : dyadic := Dyadic n 0.
Definition float_mul (x y : dyadic) : dyadic :=
  round_to (Dyadic (mant x * mant y) (scale x + scale y)).
Definition float_add (x y : dyadic) : dyadic :=
  let e := Z.max (scale x) (scale y) in
  round_to (Dyadic (mant x * 2 ^ (e - scale x) + mant y * 2 ^ (e - scale y)) e).
(** Truncation. *)
Definition to_int (x : dyadic) : Z := mant x / 2 ^ scale x.

(** [2.328306435454494e-10], between [2 ^ (-33)] and [2 ^ (-32)]. *)
Definition uniform_factor : dyadic :=
  Dyadic (div_nearest (2328306435454494 * 2 ^ (prec + 32)) (10 ^ 25)) (prec + 32).

Definition GetUniform (max : Z) (g : Z * Z) : Z * (Z * Z) :=
  let '(u, g) := GetUint g in
  (u32 (to_int (float_mul (float_mul (float_add (of_int u) (of_int 1)) uniform_factor)
     (of_int max))), g).
End floats.

(** ** Memory *)

(** [p] and [i] advance together. *)
Fixpoint memcheck_loop (n : nat) (m : mem) (p value : Z) : option Z :=
  match n with
  | O => Some 1
  | S n =>
      b ← m !! p;
      if decide (u8 b ≠ value) then Some 0 else memcheck_loop n m (p + 1) value
  end.
Definition memcheck (m : mem) (start value size : Z) : option Z :=
  memcheck_loop (Z.to_nat size) m start value.

(** ** Parameters *)

(** [None]: the function has returned 0. *)
Fixpoint satoi_loop (fuel : nat) (m : mem) (str i res : Z) : option (option Z) :=
  match fuel with
  | O => None
  | S fuel =>
      c ← m !! (str + i);
      if decide (c = 0) then Some (Some res)
      else if decide (c < 48 ∨ 57 < c) then Some None
      else
        res ← int64_ok (res * 10);
        res ← int64_ok (res + c);
        res ← int64_ok (res - 48);
        satoi_loop fuel m str (i + 1) res
  end.

Definition satoi (m : mem) (str : Z) : option Z :=
  if decide (str = NULL) then Some 0
  else
    c ← m !! str;
    let '(i, sign) := if decide (c = 45) then (1, -1) else (0, 1) in
    res ← satoi_loop (S (size m)) m str i 0;
    match res with Some res => int64_ok (res * sign) | None => Some 0 end.

(** ** Dummies *)

(** [while (i < n) i++]; the counter is its only state. *)
Fixpoint bussy_wait_loop (fuel : nat) (i n : Z) : option Z :=
  match fuel with
  | O => None
  | S fuel => if decide (i < n) then bussy_wait_loop fuel (u64 (i + 1)) n else Some i
  end.
Definition bussy_wait (n : Z) : option Z := bussy_wait_loop (S (Z.to_nat n)) 0 n.

(** [rounds] turns of a [while (1)]. *)
Fixpoint endless_loop (rounds : nat) : K program unit :=
  match rounds with O => diverge | S rounds => endless_loop rounds end.

Section loops.
Context `{Kernel}.
Variables (fuel : nat) (lit : list Z → Z).

Fixpoint print_rounds (rounds : nat) (pid wait : Z) : K program unit :=
  match rounds with
  | O => diverge
  | S rounds =>
      _ ← printf fuel (lit (chars "%d ")) [pid];
      _ ← kopt (bussy_wait wait);
      print_rounds rounds pid wait
  end.
Definition endless_loop_print (rounds : nat) (wait : Z) : K program unit :=
  pid ← getMyPid; print_rounds rounds pid wait.
End loops.

(** ** The numbers stay below the bound *)

Section rounding.
Variable prec : Z.
Hypothesis Hprec : prec = 53 ∨ prec = 64.

Lemma div_nearest_bounds a b : 0 ≤ a → 0 < b →
  0 ≤ div_nearest a b ≤ a / b + 1 ∧ 2 * (div_nearest a b * b) ≤ 2 * a + b.
Proof.
  intros Ha Hb. unfold div_nearest. pose proof (Z.div_mod a b ltac:(lia)) as E.
  pose proof (Z.mod_pos_bound a b Hb). pose proof (Z.div_pos a b Ha Hb).
  destruct (Z.compare_spec (2 * (a mod b)) b); [destruct (Z.even _)|..]; split; nia.
Qed.

(** Rounding multiplies by at most [1 + 2 ^ (- prec)]. *)
Lemma round_bounds x (y := round_to prec x) : 0 ≤ mant x →
  0 ≤ mant y ≤ 2 ^ prec ∧ scale y ≤ scale x ∧
  mant y * 2 ^ (scale x - scale y) * 2 ^ prec ≤ mant x * (2 ^ prec + 1).
Proof.
  intros H0. subst y. unfold round_to.
  assert (0 < 2 ^ prec) as HK by (destruct Hprec as [-> | ->]; done).
  destruct (decide (mant x = 0)) as [E|Hne].
  { rewrite decide_True by (rewrite E; destruct Hprec as [-> | ->]; done).
    rewrite E, Z.sub_diag. lia. }
  pose proof (Z.log2_nonneg (mant x)) as Hl0.
  destruct (Z.log2_spec (mant x)) as [Hlo Hhi]; [lia|].
  set (extra := Z.log2 (mant x) + 1 - prec) in *. case_decide as He.
  - rewrite Z.sub_diag. change (2 ^ 0) with 1. split; [|lia]. split; [lia|].
    transitivity (2 ^ (Z.log2 (mant x) + 1)); [lia|]. apply Z.pow_le_mono_r; lia.
  - cbn [mant scale]. replace (scale x - (scale x - extra)) with extra by lia.
    assert (0 < 2 ^ extra) as Hb by (apply Z.pow_pos_nonneg; lia).
    destruct (div_nearest_bounds (mant x) (2 ^ extra)) as [Hq1 Hq2]; [lia|done|].
    replace (Z.succ (Z.log2 (mant x))) with (extra + prec) in Hhi by lia.
    rewrite Z.pow_add_r in Hhi by lia. split; [split; [lia|]|split; [lia|]].
    + assert (mant x / 2 ^ extra < 2 ^ prec) by (apply Z.div_lt_upper_bound; lia). lia.
    + assert (2 ^ Z.log2 (mant x) * 2 = 2 ^ extra * 2 ^ prec) as E.
      { rewrite <-Z.pow_add_r by lia. change 2 with (2 ^ 1) at 2.
        rewrite <-Z.pow_add_r by lia. f_equal. lia. }
      nia.
Qed.

(** A mantissa of [k] bits loses at most [k - prec] of them. *)
Lemma round_scale x k : 0 ≤ mant x < 2 ^ k → prec ≤ k →
  scale x - (k - prec) ≤ scale (round_to prec x).
Proof.
  intros [H0 Hk] Hp. unfold round_to. case_decide as He; [lia|]. cbn [scale].
  assert (Z.log2 (mant x) < k); [|lia].
  destruct (decide (mant x = 0)) as [->|]; [change (Z.log2 0) with 0; lia|].
  apply Z.log2_lt_pow2; lia.
Qed.

Lemma round_exact x : 0 ≤ mant x ≤ 2 ^ 32 → round_to prec x = x.
Proof.
  intros Hx. unfold round_to. rewrite decide_True; [done|].
  assert (Z.log2 (mant x) ≤ Z.log2 (2 ^ 32)) by (apply Z.log2_le_mono; lia).
  rewrite Z.log2_pow2 in * by lia. lia.
Qed.
End rounding.

Lemma GetUint_range g : 0 ≤ (GetUint g).1 < 2 ^ 32.
Proof. by apply wrapu_range. Qed.

(** Two roundings, with a factor a little below [2 ^ (- 32)]. *)
Lemma two_roundings K M D1 D2 A B v max N : 0 < K → 0 < M → 0 ≤ A → 0 ≤ B → 0 < max → 0 ≤ v ≤ N → 0 < N →
  0 < D1 → 0 < D2 → (K + 1) * (K + 1) * M < K * K * K →
  A * D1 * K ≤ v * M * (K + 1) → B * D2 * K ≤ A * max * (K + 1) →
  B * (D1 * D2) < max * (N * K).
Proof.
  intros HK HM HA HB Hmax Hv HN H1 H2 Hlt E1 E2.
  assert (0 < D1 * K ∧ 0 < K * K ∧ 0 < max * N) as (P1 & P2 & P3) by auto using Z.mul_pos_pos.
  assert (B * D2 * K * (D1 * K) ≤ max * (K + 1) * (v * M * (K + 1))) as E.
  { transitivity (A * max * (K + 1) * (D1 * K)); [by apply Z.mul_le_mono_nonneg_r; [lia|]|].
    transitivity (max * (K + 1) * (A * D1 * K)); [apply Z.eq_le_incl; ring|].
    apply Z.mul_le_mono_nonneg_l; [|done]. apply Z.mul_nonneg_nonneg; lia. }
  destruct (Z.lt_ge_cases (B * (D1 * D2)) (max * (N * K))) as [|Hge]; [done|exfalso].
  assert (max * N * (K * K * K) ≤ max * N * ((K + 1) * (K + 1) * M)) as F.
  { transitivity (B * (D1 * D2) * (K * K)).
    { transitivity (max * (N * K) * (K * K)); [apply Z.eq_le_incl; ring|].
      apply Z.mul_le_mono_nonneg_r; lia. }
    transitivity (B * D2 * K * (D1 * K)); [apply Z.eq_le_incl; ring|].
    etransitivity; [exact E|].
    transitivity (max * v * ((K + 1) * (K + 1) * M)); [apply Z.eq_le_incl; ring|].
    apply Z.mul_le_mono_nonneg_r; [repeat apply Z.mul_nonneg_nonneg; lia|].
    apply Z.mul_le_mono_nonneg_l; lia. }
  apply Z.mul_le_mono_pos_l in F; lia.
Qed.

Lemma GetUniform_below prec max g (Hprec : prec = 53 ∨ prec = 64) (Hmax : 0 ≤ max < 2 ^ 32) :
  0 ≤ (GetUniform prec max g).1 < Z.max 1 max.
Proof.
  unfold GetUniform. pose proof (GetUint_range g) as Hu. destruct (GetUint g) as [u g'].
  cbn [fst] in *. unfold float_add, of_int. cbn [scale mant]. rewrite Z.max_id, Z.sub_diag.
  rewrite (round_exact prec Hprec) by (cbn [mant]; lia).
  replace (u * 2 ^ 0 + 1 * 2 ^ 0) with (u + 1) by lia. unfold float_mul. cbn [mant scale].
  set (M := mant (uniform_factor prec)).
  assert (0 < M ∧ M + 2 ^ (prec - 31) ≤ 2 ^ prec) as HM
    by (unfold M; destruct Hprec as [-> | ->]; vm_compute; split; congruence).
  assert (0 < 2 ^ (prec - 31)) by (destruct Hprec as [-> | ->]; done).
  assert (2 ^ (prec + 32) = 2 ^ prec * 2 ^ 32) as Epow by (destruct Hprec as [-> | ->]; done).
  set (y1 := Dyadic ((u + 1) * M) (0 + scale (uniform_factor prec))).
  change (scale (uniform_factor prec)) with (prec + 32) in y1.
  destruct (round_bounds prec Hprec y1) as (H1 & Hs1 & Hr1); [cbn [mant y1]; nia|].
  assert (0 ≤ mant y1 < 2 ^ (prec + 32)) as Hm1 by (cbn [mant y1]; rewrite Epow; nia).
  pose proof (round_scale prec Hprec y1 (prec + 32) Hm1 ltac:(lia)) as Hsc1.
  cbn [mant scale y1] in *. set (x1 := round_to prec y1) in *.
  set (y2 := Dyadic (mant x1 * max) (scale x1 + 0)).
  destruct (round_bounds prec Hprec y2) as (H2 & Hs2 & Hr2); [cbn [mant y2]; nia|].
  assert (0 ≤ mant y2 < 2 ^ (prec + 32)) as Hm2 by (cbn [mant y2]; rewrite Epow; nia).
  pose proof (round_scale prec Hprec y2 (prec + 32) Hm2 ltac:(lia)) as Hsc2.
  cbn [mant scale y2] in *. set (x2 := round_to prec y2) in *.
  assert (mant x2 < Z.max 1 max * 2 ^ scale x2) as Hlt.
  { destruct (decide (max = 0)) as [->|Hne].
    - rewrite Z.mul_0_r in Hr2. assert (0 < 2 ^ (scale x1 + 0 - scale x2) * 2 ^ prec) as P
        by (apply Z.mul_pos_pos; apply Z.pow_pos_nonneg; lia).
      assert (0 < 2 ^ scale x2) by (apply Z.pow_pos_nonneg; lia). nia.
    - rewrite Z.max_r by lia. rewrite Z.add_0_l, Z.add_0_r in *.
      assert ((2 ^ prec + 1) * (2 ^ prec + 1) * M < 2 ^ prec * 2 ^ prec * 2 ^ prec) as HK
        by (unfold M; destruct Hprec as [-> | ->]; done).
      pose proof (two_roundings (2 ^ prec) M (2 ^ (prec + 32 - scale x1)) (2 ^ (scale x1 - scale x2))
        (mant x1) (mant x2) (u + 1) max (2 ^ 32)) as Hlt.
      assert (2 ^ (prec + 32 - scale x1) * 2 ^ (scale x1 - scale x2) = 2 ^ (prec + 32 - scale x2)
        ∧ 2 ^ 32 * 2 ^ prec = 2 ^ scale x2 * 2 ^ (prec + 32 - scale x2)) as [E1 E2]
        by (rewrite <-!Z.pow_add_r by lia; split; f_equal; lia).
      rewrite E1, E2, Z.mul_assoc in Hlt.
      assert (0 < 2 ^ (prec + 32 - scale x2)) as P by (apply Z.pow_pos_nonneg; lia).
      apply (Z.mul_lt_mono_pos_r _ _ _ P), Hlt; try lia; try done; apply Z.pow_pos_nonneg; lia. }
  assert (0 < 2 ^ scale x2) as P by (apply Z.pow_pos_nonneg; lia). unfold to_int.
  assert (mant x2 / 2 ^ scale x2 < Z.max 1 max) by (apply Z.div_lt_upper_bound; lia).
  pose proof (Z.div_pos (mant x2) (2 ^ scale x2)). no_wrap. lia.
Qed.

(** C10: The pseudo-random number below [max] is below [max], whatever the state
    of the generator, whether the compiler rounds to 53 or to 64 bits. *)
Theorem GetUniform_range prec max g (Hprec : prec = 53 ∨ prec = 64) (Hmax : 0 ≤ max < 2 ^ 32) :
  0 ≤ (GetUniform prec max g).1 < Z.max 1 max.
Proof. by apply GetUniform_below. Qed.

Lemma GetUniform_range_witness : 0 ≤ (GetUniform 53 100 rng_init).1 < Z.max 1 100.
Proof. apply (GetUniform_range 53 100 rng_init); [by left|lia]. Defined.

(** ** Memory and parameters *)

Lemma memcheck_spec n m v : ∀ p, (∀ i, 0 ≤ i < Z.of_nat n → is_Some (m !! (p + i))) →
  ∃ r, memcheck_loop n m p v = Some r ∧
    (r = 1 ∧ (∀ i, 0 ≤ i < Z.of_nat n → ∃ b, m !! (p + i) = Some b ∧ u8 b = v) ∨
     r = 0 ∧ ∃ i b, 0 ≤ i < Z.of_nat n ∧ m !! (p + i) = Some b ∧ u8 b ≠ v).
Proof.
  induction n as [|n IH]; intros p Hm; cbn [memcheck_loop].
  { exists 1. split; [done|]. left. split; [done|]. lia. }
  destruct (Hm 0) as [b Hb]; [lia|]. rewrite Z.add_0_r in Hb. rewrite Hb. cbn [mbind option_bind].
  case_decide as Hv.
  { exists 0. split; [done|]. right. split; [done|]. exists 0, b. rewrite Z.add_0_r. by split; [lia|]. }
  destruct (IH (p + 1)) as (r & -> & [[-> H1]|[-> (i & b' & Hi & Hb' & Hne)]]).
  - intros i Hi. rewrite <-Z.add_assoc. apply Hm. lia.
  - exists 1. split; [done|]. left. split; [done|]. intros i Hi.
    destruct (decide (i = 0)) as [->|]; [exists b; rewrite Z.add_0_r; split; [done|destruct (decide (u8 b = v)); tauto]|].
    replace (p + i) with (p + 1 + (i - 1)) by lia. apply H1. lia.
  - exists 0. split; [done|]. right. split; [done|]. exists (1 + i), b'.
    rewrite Z.add_assoc. split; [lia|done].
Qed.

Lemma satoi_loop_spec m str ds : ∀ fuel i acc,
  stored m (str + i) (((λ d, d + 48) <$> ds) ++ [0]) →
  Forall (λ d, 0 ≤ d < 10) ds → 0 ≤ acc → foldl (λ v d, v * 10 + d) acc ds < 2 ^ 63 - 48 →
  (length ds < fuel)%nat →
  satoi_loop fuel m str i acc = Some (Some (foldl (λ v d, v * 10 + d) acc ds)).
Proof.
  induction ds as [|d ds IH]; intros [|fuel] i acc Hs Hd Hacc Hmax Hf; simpl in Hf; try lia;
    cbn [satoi_loop]; cbn [fmap list_fmap list_fmap app stored] in Hs.
  - destruct Hs as [-> _]. cbn [mbind option_bind]. by rewrite decide_True.
  - destruct Hs as [-> Hs]. apply Forall_cons in Hd as [Hd0 Hd]. cbn [mbind option_bind].
    rewrite !decide_False by lia. cbn [foldl] in Hmax |- *.
    assert (acc * 10 + d ≤ foldl (λ v d, v * 10 + d) (acc * 10 + d) ds) as Hge
      by (apply foldl_decimal_ge; [done|lia]).
    unfold int64_ok. do 3 (rewrite decide_True by lia; cbn [mbind option_bind]).
    replace (acc * 10 + (d + 48) - 48) with (acc * 10 + d) by lia.
    rewrite <-Z.add_assoc in Hs. apply IH; (done || lia).
Qed.

(** [satoi] reads the decimal notation of a number, unless it is among the
    last 48 of its type: it adds the character before it takes ['0'] away. *)
Theorem satoi_roundtrip m str v (Hs : cstr m str (number_text 10 v)) (Hp : str ≠ NULL)
    (Hv : - (2 ^ 63 - 48) < v < 2 ^ 63 - 48) : satoi m str = Some v.
Proof.
  pose proof (cstr_fuel _ _ _ Hs) as Hf. destruct Hs as [Hc _]. unfold number_text in *.
  pose proof (numeral_range 65 10 (Z.abs v) ltac:(lia)) as Hr.
  assert (foldl (λ v d, v * 10 + d) 0 (numeral 65 10 (Z.abs v)) = Z.abs v) as Hval
    by (apply numeral_value_spec; [lia|split; [lia|transitivity (2 ^ 63); [lia|done]]|lia]).
  assert (digit_char <$> numeral 65 10 (Z.abs v) = (λ d, d + 48) <$> numeral 65 10 (Z.abs v)) as E.
  { apply list_fmap_ext. intros i x Hx. unfold digit_char. eapply Forall_lookup_1 in Hr; [|exact Hx].
    by rewrite decide_True by lia. }
  rewrite E in *. rewrite length_app, length_fmap in Hf.
  pose proof (numeral_nonempty 64 10 (Z.abs v)) as Hne.
  unfold satoi. rewrite decide_False by done. destruct (decide (v < 0)).
  - cbn [app stored] in Hc. destruct Hc as [-> Hc]. cbn [mbind option_bind].
    rewrite decide_True by done.
    rewrite (satoi_loop_spec m str _ _ 1 0 Hc) by (done || lia). cbn [mbind option_bind].
    unfold int64_ok. rewrite decide_True by lia. f_equal. lia.
  - rewrite app_nil_l in Hc. rewrite <-(Z.add_0_r str) in Hc.
    destruct (numeral 65 10 (Z.abs v)) as [|d ds] eqn:En; [done|]. pose proof Hc as [Hm _].
    rewrite Z.add_0_r in Hm. rewrite Hm. apply Forall_cons in Hr as Hd. destruct Hd as [Hd _].
    cbn [mbind option_bind]. rewrite decide_False by lia.
    rewrite (satoi_loop_spec m str _ _ 0 0 Hc) by (done || cbn [length] in *; lia).
    cbn [mbind option_bind]. unfold int64_ok. rewrite decide_True by lia. f_equal. lia.
Qed.

(** A character that is no digit makes the result 0. *)
Example satoi_bad : satoi (put_text ∅ 1000 (chars "12x")) 1000 = Some 0.
Proof. vm_compute. done. Qed.

(** The largest number overflows on the way. *)
Example satoi_overflows : satoi (put_text ∅ 1000 (number_text 10 (2 ^ 63 - 1))) 1000 = None.
Proof. vm_compute. done. Qed.

Lemma bussy_wait_loop_ends fuel : ∀ i n, 0 ≤ i ≤ n → n < 2 ^ 64 → (Z.to_nat (n - i) < fuel)%nat →
  bussy_wait_loop fuel i n = Some n.
Proof.
  induction fuel as [|fuel IH]; intros i n Hi Hn Hf; [lia|]. cbn [bussy_wait_loop]. case_decide.
  - no_wrap. apply IH; lia.
  - f_equal. lia.
Qed.

Lemma bussy_wait_ends n : 0 ≤ n < 2 ^ 64 → bussy_wait n = Some n.
Proof. intros Hn. apply bussy_wait_loop_ends; lia. Qed.
