(* ===== verification/TestSync.v ===== *)
(** * The test of the semaphores ([Userland/Shell/commands/test_sync.c])

    Two pairs of processes add to and subtract from a shared variable, each
    in three steps with a [yield] between the load and the store; with
    [use_sem] a named semaphore guards them.  A process is the tree of the
    calls and of the accesses to [global] it makes ([act]), and the processes
    of a [world] are interleaved one of these at a time. *)

From S2P Require Import Prelude Acts Strings Numerals UserString UserStdio SemSpec TestUtil.

Definition SEM_ID : list Z := chars "sem".
Definition TOTAL_PAIR_PROCESSES : nat := 2.

Inductive sys :=
  | Malloc (size : Z)
  | Sem_open (name : list Z) (value : Z)
  | Sem_close (a : Z)
  | Sem_wait (a : Z)
  | Sem_post (a : Z)
  | Load   (* of [global] *)
  | Store (v : Z)
  | Create (argv : list (list Z))   (* of a process that runs [my_process_inc] *)
  | Wait_pid (pid : Z)
  | Get_pid
  | Yield
  | Print (text : list Z).

Abbreviation act := (Acts.act sys).

(** [satoi] of a string; a string [printf] prints as it is with [%s]. *)
Definition text_satoi (l : list Z) : option Z := satoi (put_text ∅ 1000 l) 1000.
Definition text_shown (l : list Z) : option (list Z) :=
  if bool_decide (Forall (λ c, c ≠ 0 ∧ c ≠ 27 ∧ c ≠ 37) l) then Some l else None.

(** A line of text. *)
Definition nl (l : list Z) : list Z := l ++ [10].
Definition decimal (v : Z) : list Z := number_text 10 v.

(** ** A process *)

(** On [global]. *)
Definition slowInc (inc : Z) : act unit :=
  p ← invoke Load;
  let aux := u64 p in
  _ ← invoke Yield;
  let aux := u64 (aux + inc) in
  _ ← invoke (Store (i64 aux));
  mret tt.

Definition report (when : string) (global pid : Z) : list Z :=
  nl (chars "Global " ++ chars when ++ chars ": " ++ decimal global) ++
  nl (chars "Soy: " ++ decimal pid).

Definition print_global (when : string) : act unit :=
  g ← invoke Load;
  pid ← invoke Get_pid;
  _ ← invoke (Print (report when g pid));
  mret tt.

(** [for (i = 0; i < n; i++)] *)
Fixpoint inc_rounds (n : nat) (use_sem sem inc : Z) : act unit :=
  match n with
  | O => mret tt
  | S n =>
      _ ← (if decide (use_sem ≠ 0) then invoke (Sem_wait sem) else mret 0);
      _ ← print_global "before";
      _ ← slowInc inc;
      _ ← print_global "after";
      _ ← (if decide (use_sem ≠ 0) then invoke (Sem_post sem) else mret 0);
      inc_rounds n use_sem sem inc
  end.

(** The [printf] of a complaint, and its [return]. *)
Definition refuse (text : list Z) : act Z := _ ← invoke (Print (nl text)); mret (u64 (-1)).

Definition refuse_value (what : string) (s : list Z) : act Z :=
  t ← act_opt (text_shown s);
  refuse (chars "Invalid " ++ chars what ++ chars " value: " ++ t).

Definition inc_loop (n use_sem sem inc : Z) : act Z :=
  _ ← inc_rounds (Z.to_nat n) use_sem sem inc;
  _ ← (if decide (use_sem ≠ 0) then invoke (Sem_close sem) else mret 0);
  _ ← invoke (Print (nl (chars "Done!")));
  mret 0.

Definition my_process_inc (argc : Z) (argv : list (list Z)) : act Z :=
  if decide (argc ≠ 4) then
    refuse (chars "argc: " ++ decimal (i32 argc) ++ chars " (expected 4)")
  else
    match argv with
    | _ :: a1 :: a2 :: a3 :: _ =>
        n ← act_opt (text_satoi a1);
        let n := u64 n in
        if decide (n ≤ 0) then refuse_value "n" a1
        else
          inc ← act_opt (text_satoi a2);
          if decide (inc = 0) then refuse_value "inc" a2
          else
            use_sem ← act_opt (text_satoi a3);
            let use_sem := i8 use_sem in
            if decide (use_sem < 0) then refuse_value "use_sem" a3
            else if decide (use_sem ≠ 0) then
              sem ← invoke (Sem_open SEM_ID 1);
              if decide (sem = 0) then refuse (chars "test_sync: ERROR opening semaphore")
              else inc_loop n use_sem sem inc
            else inc_loop n use_sem 0 inc   (* [sem] is not set, and not used *)
    | _ => Stuck
    end.

(** ** The command *)

Definition create_inc (argv : list (list Z)) : act Z := r ← invoke (Create argv); mret (u64 r).

(** The pids of each pair, which are at [i] and [i + TOTAL_PAIR_PROCESSES]. *)
Fixpoint create_pairs (n : nat) (argvDec argvInc : list (list Z)) : act (list (Z * Z)) :=
  match n with
  | O => mret []
  | S n =>
      d ← create_inc argvDec;
      i ← create_inc argvInc;
      pids ← create_pairs n argvDec argvInc;
      mret ((d, i) :: pids)
  end.

Fixpoint wait_pairs (pids : list (Z * Z)) : act unit :=
  match pids with
  | [] => mret tt
  | (d, i) :: pids =>
      _ ← invoke (Wait_pid (i32 d));
      _ ← invoke (Wait_pid (i32 i));
      wait_pairs pids
  end.

Definition final_text (v : Z) : list Z := nl (chars "Final value: " ++ decimal v).

Definition show_args (what : string) (argv : list (list Z)) : act unit :=
  match argv with
  | [a0; a1; a2; a3] =>
      a1 ← act_opt (text_shown a1);
      a3 ← act_opt (text_shown a3);
      _ ← invoke (Print (nl (chars what ++ chars ": [" ++ a0 ++ chars ", " ++ a1 ++ chars ", " ++
            a2 ++ chars ", " ++ a3 ++ chars "]")));
      mret tt
  | _ => Stuck
  end.

(** The arrays are written through the pointers [allocMemory] answers, null
    or not. *)
Definition _test_sync (argc : Z) (argv : list (list Z)) : act Z :=
  if decide (argc ≠ 3) then mret (u64 (-1))
  else
    match argv with
    | _ :: a1 :: a2 :: _ =>
        d ← invoke (Malloc (8 * 4));
        i ← invoke (Malloc (8 * 4));
        if decide (d = 0 ∨ i = 0) then Stuck
        else
          let argvDec := [chars "test_sync_process_dec"; a1; chars "-1"; a2] in
          let argvInc := [chars "test_sync_process_inc"; a1; chars "1"; a2] in
          _ ← invoke (Store 0);
          _ ← invoke (Print ([10] ++ nl (chars "Creating processes...")));
          _ ← show_args "argvDec" argvDec;
          _ ← show_args "argvInc" argvInc;
          pids ← create_pairs TOTAL_PAIR_PROCESSES argvDec argvInc;
          _ ← wait_pairs pids;
          g ← invoke Load;
          _ ← invoke (Print (final_text (i32 g)));
          mret 0
    | _ => Stuck
    end.

(** ** The world

    The semaphore of that name, if it is open: its address, how many have it
    open and its state; the variable; the processes, by pid; and the calls
    that have been answered, oldest first. *)
Record thread := Thread { now : act Z; blocked : bool }.
Definition set_now v th := Thread v (blocked th).
Definition set_blocked v th := Thread (now th) v.

Record shared_sem := Shared { sh_at : Z; sh_users : Z; sh_sem : semaphore }.

Record world := World {
  w_sem : option shared_sem;
  w_global : Z;
  w_threads : gmap Z thread;
  w_log : list (Z * sys * Z);
}.
Definition set_w_sem v w := World v (w_global w) (w_threads w) (w_log w).
Definition set_w_global v w := World (w_sem w) v (w_threads w) (w_log w).
Definition set_w_threads v w := World (w_sem w) (w_global w) v (w_log w).
Definition set_w_log v w := World (w_sem w) (w_global w) (w_threads w) v.

Definition set_thread (i : Z) (th : thread) (w : world) : world :=
  set_w_threads (<[i := th]> (w_threads w)) w.
Definition wake (o : option Z) (w : world) : world :=
  match o with
  | None => w
  | Some j => set_w_threads (alter (set_blocked false) j (w_threads w)) w
  end.

Definition enter (argv : list (list Z)) : thread :=
  Thread (my_process_inc (Z.of_nat (length argv)) argv) false.
Definition ended (th : thread) : Prop := ∃ r, now th = Done r.

(** Nobody has the semaphore at [a] open. *)
Definition closed (w : world) (a : Z) : Prop := ∀ x, w_sem w = Some x → sh_at x ≠ a.

(** What process [i] may be answered, and what its call does.  When the
    kernel is [short] of memory or pids, allocating, opening, waiting and
    creating may fail.  Waiting for a process that was already reaped answers
    -1 too. *)
Inductive serve (short : bool) (i : Z) (w : world) : sys → Z → world → Prop :=
  | serve_malloc n a : 0 < a → serve short i w (Malloc n) a w
  | serve_malloc_fails n : short = true → serve short i w (Malloc n) 0 w
  | serve_open_again v a u x : w_sem w = Some (Shared a u x) →
      serve short i w (Sem_open SEM_ID v) a (set_w_sem (Some (Shared a (u + 1) x)) w)
  | serve_open_new v a : w_sem w = None → 0 < a →
      serve short i w (Sem_open SEM_ID v) a
        (set_w_sem (Some (Shared a 1 (Semaphore (u16 v) []))) w)
  | serve_open_fails name v : short = true → serve short i w (Sem_open name v) 0 w
  | serve_close_keeps a u x : w_sem w = Some (Shared a u x) → u - 1 ≠ 0 →
      serve short i w (Sem_close a) 0 (set_w_sem (Some (Shared a (u - 1) x)) w)
  | serve_close_last a x : w_sem w = Some (Shared a 1 x) →
      serve short i w (Sem_close a) 0 (set_w_sem None w)
  | serve_close_bad a : closed w a → serve short i w (Sem_close a) (-1) w
  | serve_wait a u x x' : w_sem w = Some (Shared a u x) → take i x = (true, x') →
      serve short i w (Sem_wait a) 0 (set_w_sem (Some (Shared a u x')) w)
  | serve_wait_refused a u x x' : short = true →
      w_sem w = Some (Shared a u x) → take i x = (false, x') →
      serve short i w (Sem_wait a) (-1) w
  | serve_wait_bad a : closed w a → serve short i w (Sem_wait a) (-1) w
  | serve_post a u x o x' : w_sem w = Some (Shared a u x) → give x = (o, x') →
      serve short i w (Sem_post a) 0 (wake o (set_w_sem (Some (Shared a u x')) w))
  | serve_post_bad a : closed w a → serve short i w (Sem_post a) (-1) w
  | serve_load : serve short i w Load (w_global w) w
  | serve_store v : serve short i w (Store v) 0 (set_w_global v w)
  | serve_create argv p : w_threads w !! p = None → 0 < p < 2 ^ 31 →
      serve short i w (Create argv) p (set_thread p (enter argv) w)
  | serve_create_fails argv : short = true → serve short i w (Create argv) (-1) w
  | serve_waited p th r : w_threads w !! p = Some th → ended th → r = 0 ∨ r = -1 →
      serve short i w (Wait_pid p) r w
  | serve_wait_nobody p : w_threads w !! p = None → serve short i w (Wait_pid p) (-1) w
  | serve_wait_fails p : short = true → serve short i w (Wait_pid p) (-1) w
  | serve_pid : serve short i w Get_pid i w
  | serve_yield : serve short i w Yield 0 w
  | serve_print t : serve short i w (Print t) 0 w.

Definition resume (i : Z) (c : sys) (k : Z → act Z) (r : Z) (w : world) : world :=
  set_w_log (w_log w ++ [(i, c, r)])
    (set_w_threads (alter (set_now (k r)) i (w_threads w)) w).

(** One process moves: its call is answered, or it starts to wait for the
    semaphore (it will be answered 0 once woken). *)
Inductive step (short : bool) (w : world) : world → Prop :=
  | step_call i th c k r w' :
      w_threads w !! i = Some th → blocked th = false → now th = Do c k →
      serve short i w c r w' → step short w (resume i c k r w')
  | step_wait i th a u x x' k :
      w_threads w !! i = Some th → blocked th = false → now th = Do (Sem_wait a) k →
      w_sem w = Some (Shared a u x) → take i x = (false, x') →
      step short w (set_thread i (Thread (k 0) true) (set_w_sem (Some (Shared a u x')) w)).

(** The shell has just started the command as process [p]. *)
Definition started (p argc : Z) (argv : list (list Z)) (w : world) : Prop :=
  w_threads w = {[ p := Thread (_test_sync argc argv) false ]} ∧ w_log w = [] ∧ w_sem w = None.

(** ** Running it

    The same moves as functions, for a kernel that is short of nothing:
    allocations get [100], the semaphore [200], and pids are counted. *)
Definition answer_of (i : Z) (w : world) (c : sys) : option (Z * world) :=
  match c, w_sem w with
  | Malloc _, _ => Some (100, w)
  | Sem_open name v, o =>
      if decide (name = SEM_ID) then
        match o with
        | Some (Shared a u x) => Some (a, set_w_sem (Some (Shared a (u + 1) x)) w)
        | None => Some (200, set_w_sem (Some (Shared 200 1 (Semaphore (u16 v) []))) w)
        end
      else None
  | Sem_close a, Some (Shared b u x) =>
      if decide (a = b) then
        Some (0, set_w_sem (if decide (u = 1) then None else Some (Shared b (u - 1) x)) w)
      else Some (-1, w)
  | Sem_wait a, Some (Shared b u x) =>
      if decide (a = b) then
        let '(t, x') := take i x in
        if t : bool then Some (0, set_w_sem (Some (Shared b u x')) w) else None
      else Some (-1, w)
  | Sem_post a, Some (Shared b u x) =>
      if decide (a = b) then
        let '(o, x') := give x in Some (0, wake o (set_w_sem (Some (Shared b u x')) w))
      else Some (-1, w)
  | (Sem_close _ | Sem_wait _ | Sem_post _), None => Some (-1, w)
  | Load, _ => Some (w_global w, w)
  | Store v, _ => Some (0, set_w_global v w)
  | Create argv, _ =>
      let p := Z.of_nat (size (w_threads w)) + 1 in
      if decide (w_threads w !! p = None ∧ p < 2 ^ 31) then Some (p, set_thread p (enter argv) w)
      else None
  | Wait_pid p, _ =>
      match w_threads w !! p with
      | Some th => match now th with Done _ => Some (0, w) | _ => None end
      | None => Some (-1, w)
      end
  | Get_pid, _ => Some (i, w)
  | (Yield | Print _), _ => Some (0, w)
  end.

Definition step_run (i : Z) (w : world) : option world :=
  th ← w_threads w !! i;
  if blocked th : bool then None
  else
    match now th with
    | Do c k =>
        match answer_of i w c with
        | Some (r, w') => Some (resume i c k r w')
        | None =>
            match c, w_sem w with
            | Sem_wait a, Some (Shared b u x) =>
                if decide (a = b) then
                  Some (set_thread i (Thread (k 0) true)
                    (set_w_sem (Some (Shared b u (take i x).2)) w))
                else None
            | _, _ => None
            end
        end
    | _ => None
    end.

(** Process by process as the list says, each for that many moves or until
    it cannot move. *)
Fixpoint moves (n : nat) (i : Z) (w : world) : world :=
  match n with
  | O => w
  | S n => match step_run i w with Some w' => moves n i w' | None => w end
  end.
Definition play (l : list (Z * nat)) (w : world) : world := foldl (λ w x, moves x.2 x.1 w) w l.

Definition start_world (argv : list (list Z)) : world :=
  World None 5 {[ 1 := Thread (_test_sync (Z.of_nat (length argv)) argv) false ]} [].

Definition finals (w : world) : list (list Z) :=
  omap (λ e, match e.1.2 with
             | Print t => if decide (e.1.1 = 1 ∧ List.firstn 13 t = chars "Final value: ") then Some t
                          else None
             | _ => None
             end) (w_log w).
