(* ===== verification/TestSyncFacts.v ===== *)
(** * The semaphore makes the test end at zero

    The protocol of a process that adds under the semaphore ([at_phase]) and
    of the command ([at_main]), and the invariant of a run: one process at a
    time is between its wait and its post, and when nobody is, the variable
    is the sum of what the processes have added. *)

From S2P Require Import Prelude Acts Strings Numerals UserString UserStdio SemSpec TestUtil TestSync.

(** ** The moves as functions are moves *)

Lemma answer_sound i w c r w' : 0 ≤ Z.of_nat (size (w_threads w)) →
  answer_of i w c = Some (r, w') → serve false i w c r w'.
Proof.
  intros Hz. assert (∀ a, w_sem w = None → closed w a) as Hnone by (intros a E x; by rewrite E).
  assert (∀ a b u x, w_sem w = Some (Shared b u x) → a ≠ b → closed w a) as Hother
    by (intros a b u x E Hne y; rewrite E; intros [= <-]; cbn; congruence).
  destruct c; cbn [answer_of].
  - intros [= <- <-]. by constructor.
  - case_decide as Hn; [|done]. subst name.
    destruct (w_sem w) as [[a u x]|] eqn:E; intros [= <- <-]; by constructor.
  - destruct (w_sem w) as [[b u x]|] eqn:E; [|intros [= <- <-]; constructor; by apply Hnone].
    case_decide as Ha; intros [= <- <-]; [subst b|constructor; by eapply Hother].
    case_decide; [subst u|]; econstructor; [done|exact E|lia].
  - destruct (w_sem w) as [[b u x]|] eqn:E; [|intros [= <- <-]; constructor; by apply Hnone].
    case_decide as Ha; [subst b|intros [= <- <-]; constructor; by eapply Hother].
    destruct (take i x) as [[] x'] eqn:Et; [|done]. intros [= <- <-]. by econstructor.
  - destruct (w_sem w) as [[b u x]|] eqn:E; [|intros [= <- <-]; constructor; by apply Hnone].
    case_decide as Ha; [subst b|intros [= <- <-]; constructor; by eapply Hother].
    destruct (give x) as [o x'] eqn:Et. intros [= <- <-]. by econstructor.
  - intros [= <- <-]. constructor.
  - intros [= <- <-]. constructor.
  - case_decide; [|done]. intros [= <- <-]. constructor; [tauto|lia].
  - destruct (w_threads w !! pid) as [th|] eqn:E.
    + destruct (now th) as [r'| |] eqn:En; [|done..]. intros [= <- <-].
      eapply serve_waited; [exact E|by eexists|by left].
    + intros [= <- <-]. by constructor.
  - intros [= <- <-]. constructor.
  - intros [= <- <-]. constructor.
  - intros [= <- <-]. constructor.
Qed.

Lemma sync_step_run_sound i w w' : step_run i w = Some w' → step false w w'.
Proof.
  unfold step_run. destruct (w_threads w !! i) as [th|] eqn:Hth; [|done]. cbn [mbind option_bind].
  destruct (blocked th) eqn:Hb; [done|]. destruct (now th) as [|c k|] eqn:Hn; [done| |done].
  destruct (answer_of i w c) as [[r w1]|] eqn:E.
  { intros [= <-]. eapply step_call; [done..|]. apply answer_sound; [lia|done]. }
  destruct c; try done. destruct (w_sem w) as [[b u x]|] eqn:Es; [|done].
  case_decide; [subst b|done]. intros [= <-]. cbn [answer_of] in E. rewrite Es, decide_True in E by done.
  destruct (take i x) as [[] x'] eqn:Et; [done|]. by eapply step_wait.
Qed.

Lemma sync_play_sound l : ∀ w, rtc (step false) w (play l w).
Proof.
  assert (∀ n i w, rtc (step false) w (moves n i w)) as Hmoves.
  { induction n as [|n IH]; intros i w; cbn [moves]; [done|].
    destruct (step_run i w) as [w'|] eqn:E; [|done].
    eapply rtc_l; [by eapply sync_step_run_sound|apply IH]. }
  induction l as [|[i n] l IH]; intros w; [done|].
  etrans; [apply (Hmoves n i)|apply IH].
Qed.

(** ** The protocol *)

(** Where a process is, with the address of the semaphore it has open and
    the rounds it has left after the current one.  [Loaded]: it will store
    the value it has loaded, plus its increment. *)
Inductive phase :=
  | Starting
  | Outside (a : Z) (n : nat)
  | Queued (a : Z) (n : nat)
  | Inside (a : Z) (n : nat)
  | Loaded (a : Z) (n : nat) (v : Z)
  | Stored (a : Z) (n : nat)
  | Leaving.

Definition quiet (c : sys) : Prop :=
  match c with Load | Get_pid | Yield | Print _ => True | _ => False end.

Section protocol.
Variable rounds : nat.

Inductive at_phase (inc : Z) : phase → act Z → Prop :=
  | at_quiet ph c k : quiet c → (∀ r, at_phase inc ph (k r)) → at_phase inc ph (Do c k)
  | at_open k : (∀ a, 0 < a → at_phase inc (Outside a rounds) (k a)) →
      at_phase inc Starting (Do (Sem_open SEM_ID 1) k)
  | at_wait a n k : at_phase inc (Inside a n) (k 0) →
      at_phase inc (Outside a (S n)) (Do (Sem_wait a) k)
  | at_load a n k : (∀ v, at_phase inc (Loaded a n v) (k v)) →
      at_phase inc (Inside a n) (Do Load k)
  | at_store a n v k : (∀ r, at_phase inc (Stored a n) (k r)) →
      at_phase inc (Loaded a n v) (Do (Store (i64 (u64 (u64 v + inc)))) k)
  | at_post a n k : at_phase inc (Outside a n) (k 0) →
      at_phase inc (Stored a n) (Do (Sem_post a) k)
  | at_close a k : (∀ r, at_phase inc Leaving (k r)) →
      at_phase inc (Outside a 0) (Do (Sem_close a) k)
  | at_done r : at_phase inc Leaving (Done r).

Ltac run := cbn; unfold mret, act_ret; cbn.
Ltac calm := apply at_quiet; [done|intros ?].

#[local] Arguments report : simpl never.
#[local] Arguments nl : simpl never.
#[local] Arguments chars : simpl never.
#[local] Arguments decimal : simpl never.
#[local] Arguments final_text : simpl never.

Lemma inc_rounds_at inc u a n (f : unit → act Z) : u ≠ 0 →
  at_phase inc (Outside a 0) (f tt) → at_phase inc (Outside a n) (act_bind f (inc_rounds n u a inc)).
Proof.
  intros Hu Hf. induction n as [|n IH]; [done|]. cbn [inc_rounds]. rewrite !decide_True by done. run.
  apply at_wait. run. do 3 calm. apply at_load. intros v. calm. apply at_store. intros ?.
  do 3 calm. by apply at_post.
Qed.

(** A process the command creates. *)
Definition adds (inc : Z) (argv : list (list Z)) : Prop :=
  at_phase inc Starting (now (enter argv)) ∧ blocked (enter argv) = false.

Lemma my_process_inc_adds a0 a1 a2 a3 n inc u : text_satoi a1 = Some n → text_satoi a2 = Some inc →
  text_satoi a3 = Some u → rounds = Z.to_nat (u64 n) → 0 < u64 n → inc ≠ 0 → 0 < i8 u →
  adds inc [a0; a1; a2; a3].
Proof.
  intros H1 H2 H3 Hr Hn Hi Hu. split; [|done]. unfold enter, my_process_inc. cbn [length now].
  rewrite decide_False by lia. rewrite H1, H2, H3. cbn. rewrite !decide_False by lia.
  rewrite decide_True by lia. apply at_open. intros a Ha. run. rewrite decide_False by lia.
  unfold inc_loop. run. rewrite <-Hr. apply inc_rounds_at; [lia|]. rewrite decide_True by lia.
  run. apply at_close. intros ?. calm. apply at_done.
Qed.

(** ** The command *)

(** [M_run l n]: the processes [l], with their increments, were created and
    the first [n] of them waited for. *)
Inductive stage :=
  | M_start
  | M_run (l : list (Z * Z)) (n : nat)
  | M_final (v : Z)
  | M_over.

Definition announces (t : list Z) : bool := bool_decide (List.firstn 13 t = chars "Final value: ").

Inductive at_main : stage → act Z → Prop :=
  | am_print st t k : announces t = false → (∀ r, at_main st (k r)) → at_main st (Do (Print t) k)
  | am_malloc n k : (∀ a, 0 < a → at_main M_start (k a)) → at_main M_start (Do (Malloc n) k)
  | am_store k : (∀ r, at_main (M_run [] 0) (k r)) → at_main M_start (Do (Store 0) k)
  | am_create l inc argv k : adds inc argv → (length l < 4)%nat →
      (∀ p, 0 < p < 2 ^ 31 → at_main (M_run (l ++ [(p, inc)]) 0) (k p)) →
      at_main (M_run l 0) (Do (Create argv) k)
  | am_wait l n p inc k : l !! n = Some (p, inc) → (∀ r, at_main (M_run l (S n)) (k r)) →
      at_main (M_run l n) (Do (Wait_pid p) k)
  | am_load l k : zsum snd l = 0 → (∀ v, at_main (M_final v) (k v)) →
      at_main (M_run l (length l)) (Do Load k)
  | am_final v k : (∀ r, at_main M_over (k r)) →
      at_main (M_final v) (Do (Print (final_text (i32 v))) k)
  | am_done r : at_main M_over (Done r).

Lemma test_sync_at a0 a1 a2 t1 t2 n u : text_satoi a1 = Some n → text_satoi a2 = Some u →
  text_shown a1 = Some t1 → text_shown a2 = Some t2 →
  rounds = Z.to_nat (u64 n) → 0 < u64 n → 0 < i8 u →
  at_main M_start (_test_sync 3 [a0; a1; a2]).
Proof.
  intros H1 H2 T1 T2 Hr Hn Hu.
  assert (adds (-1) [chars "test_sync_process_dec"; a1; chars "-1"; a2] ∧
    adds 1 [chars "test_sync_process_inc"; a1; chars "1"; a2]) as [Hd Hi].
  { split; (eapply my_process_inc_adds; [exact H1| |exact H2|done..]); by vm_compute. }
  unfold _test_sync. rewrite decide_False by lia. run.
  apply am_malloc. intros d Hd0. run. apply am_malloc. intros i Hi0. run.
  rewrite decide_False by lia. run. apply am_store. intros ?. run. apply am_print; [done|]. intros ?.
  run. rewrite T1, T2. run. apply am_print; [done|]. intros ?. run. apply am_print; [done|]. intros ?. run.
  assert (∀ p, 0 < p < 2 ^ 31 → i32 (u64 p) = p) as Hpid.
  { intros p Hp. rewrite wrapu_small, wraps_small by lia. done. }
  eapply am_create; [exact Hd|cbn; lia|]. intros d1 Hd1.
  eapply am_create; [exact Hi|cbn; lia|]. intros i1 Hi1.
  eapply am_create; [exact Hd|cbn; lia|]. intros d2 Hd2.
  eapply am_create; [exact Hi|cbn; lia|]. intros i2 Hi2.
  rewrite !Hpid by done. do 4 (eapply am_wait; [done|]; intros ?).
  apply (am_load [_; _; _; _]); [done|]. intros ?. apply am_final. intros ?. apply am_done.
Qed.

(** ** The processes of a run *)

Record worker := Worker { wk_pid : Z; wk_inc : Z; wk_phase : phase }.
Definition set_phase ph x := Worker (wk_pid x) (wk_inc x) ph.
Implicit Types (x y : worker) (ws : list worker) (ph : phase).

Definition opened ph : option Z :=
  match ph with
  | Outside a _ | Queued a _ | Inside a _ | Loaded a _ _ | Stored a _ => Some a
  | Starting | Leaving => None
  end.
Definition uses ph : Z := match opened ph with Some _ => 1 | None => 0 end.
(** Between the wait and the post. *)
Definition holds ph : Z :=
  match ph with Inside _ _ | Loaded _ _ _ | Stored _ _ => 1 | _ => 0 end.
Definition queued ph : bool := match ph with Queued _ _ => true | _ => false end.
(** The rounds whose sum is stored. *)
Definition finished ph : Z :=
  match ph with
  | Starting => 0
  | Outside _ n | Stored _ n => Z.of_nat rounds - Z.of_nat n
  | Queued _ n | Inside _ n | Loaded _ n _ => Z.of_nat rounds - Z.of_nat n - 1
  | Leaving => Z.of_nat rounds
  end.
Definition added x : Z := wk_inc x * finished (wk_phase x).

Definition standing inc ph (th : thread) : Prop :=
  match ph with
  | Queued a n => blocked th = true ∧ at_phase inc (Inside a n) (now th)
  | _ => blocked th = false ∧ at_phase inc ph (now th)
  end.

Lemma standing_run inc ph th : queued ph = false →
  standing inc ph th ↔ blocked th = false ∧ at_phase inc ph (now th).
Proof. by destruct ph. Qed.

(** The command is process [m]; the others are [ws]. *)
Record threads_inv (m : Z) (ths : gmap Z thread) ws : Prop := {
  ti_pids : NoDup (m :: (wk_pid <$> ws));
  ti_standing : ∀ j x, ws !! j = Some x →
    ∃ th, ths !! wk_pid x = Some th ∧ standing (wk_inc x) (wk_phase x) th;
  ti_known : ∀ i th, ths !! i = Some th → i = m ∨ ∃ j x, ws !! j = Some x ∧ wk_pid x = i;
}.

Lemma pids_insert ws j x ph : ws !! j = Some x →
  wk_pid <$> <[j := set_phase ph x]> ws = wk_pid <$> ws.
Proof.
  intros Hj. rewrite list_fmap_insert. apply list_insert_id. by rewrite list_lookup_fmap, Hj.
Qed.

Lemma pid_unique m ws i j x y : NoDup (m :: (wk_pid <$> ws)) → ws !! i = Some x →
  ws !! j = Some y → wk_pid x = wk_pid y → i = j.
Proof.
  intros Hn Hi Hj E. apply NoDup_cons in Hn as [_ Hn].
  eapply NoDup_lookup; [exact Hn|by rewrite list_lookup_fmap, Hi|rewrite list_lookup_fmap, Hj].
  cbn. by rewrite E.
Qed.

Lemma not_main m ths ws j x : threads_inv m ths ws → ws !! j = Some x → wk_pid x ≠ m.
Proof.
  intros [Hn _ _] Hj <-. apply NoDup_cons in Hn as [Hn _]. apply Hn.
  apply list_elem_of_lookup. exists j. by rewrite list_lookup_fmap, Hj.
Qed.

Lemma threads_move m ths ws j x ph th : threads_inv m ths ws → ws !! j = Some x →
  standing (wk_inc x) ph th → threads_inv m (<[wk_pid x := th]> ths) (<[j := set_phase ph x]> ws).
Proof.
  intros Ht Hj Hth. pose proof Ht as [Hn Hs Hk].
  assert (∀ i y, ws !! i = Some y → i ≠ j → wk_pid y ≠ wk_pid x) as Hu.
  { intros i y Hi Hne E. by eapply Hne, pid_unique. }
  split; [by rewrite pids_insert| |].
  - intros i y [(<- & <- & _)|[Hne Hi]]%list_lookup_insert_Some.
    + exists th. by rewrite lookup_insert_eq.
    + destruct (Hs i y Hi) as (thi & ? & ?). exists thi. rewrite lookup_insert_ne; [done|].
      apply not_eq_sym. eauto.
  - intros i th' [[<- <-]|[Hne Hi]]%lookup_insert_Some.
    + right. exists j, (set_phase ph x). split; [|done].
      apply list_lookup_insert_eq. by eapply lookup_lt_Some.
    + destruct (Hk i th' Hi) as [->|(i' & y & Hi' & <-)]; [by left|right]. exists i', y. split; [|done].
      rewrite list_lookup_insert_ne; [done|]. intros ->. simplify_eq.
Qed.

Lemma threads_main m ths ws th : threads_inv m ths ws → threads_inv m (<[m := th]> ths) ws.
Proof.
  intros Ht. pose proof Ht as [Hn Hs Hk]. split; [done| |].
  - intros j x Hj. destruct (Hs j x Hj) as (thj & ? & ?). exists thj.
    rewrite lookup_insert_ne; [done|]. apply not_eq_sym. by eapply not_main.
  - intros i th' [[<- _]|[_ Hi]]%lookup_insert_Some; [by left|by eapply Hk].
Qed.

Lemma threads_new m ths ws p inc th : threads_inv m ths ws → ths !! p = None → m ≠ p →
  standing inc Starting th → threads_inv m (<[p := th]> ths) (ws ++ [Worker p inc Starting]).
Proof.
  intros Ht Hp Hm Hth. pose proof Ht as [Hn Hs Hk].
  assert (∀ j x, ws !! j = Some x → wk_pid x ≠ p) as Hne.
  { intros j x Hj <-. destruct (Hs j x Hj) as (? & ? & _). congruence. }
  split.
  - rewrite fmap_app. apply NoDup_cons in Hn as [Hn0 Hn]. apply NoDup_cons. split.
    + rewrite elem_of_app. cbn. intros [?|?%list_elem_of_singleton]; done.
    + apply NoDup_app. split; [done|]. split; [|apply NoDup_singleton].
      intros i [x [-> [j Hj]%list_elem_of_lookup]]%list_elem_of_fmap ?%list_elem_of_singleton.
      by eapply Hne.
  - intros j x [Hj|[_ Hj]]%lookup_app_Some.
    + destruct (Hs j x Hj) as (thj & ? & ?). exists thj.
      rewrite lookup_insert_ne; [done|]. apply not_eq_sym. by eapply Hne.
    + apply list_lookup_singleton_Some in Hj as [_ <-]. exists th. by rewrite lookup_insert_eq.
  - intros i th' [[<- _]|[_ Hi]]%lookup_insert_Some.
    + right. exists (length ws), (Worker p inc Starting). by rewrite lookup_app_r, Nat.sub_diag.
    + destruct (Hk i th' Hi) as [->|(j & x & Hj & <-)]; [by left|right]. exists j, x.
      split; [by apply lookup_app_l_Some|done].
Qed.

(** ** The semaphore of a run *)

Definition in_queue ws (i : Z) : Prop :=
  ∃ j x, ws !! j = Some x ∧ wk_pid x = i ∧ queued (wk_phase x) = true.

(** One unit is in the semaphore or with the process that holds it. *)
Record sem_open_inv (a u : Z) (s : semaphore) ws : Prop := {
  so_at : 0 < a ∧ ∀ j x b, ws !! j = Some x → opened (wk_phase x) = Some b → b = a;
  so_users : u = zsum (uses ∘ wk_phase) ws ∧ 0 < u;
  so_unit : 0 ≤ units s ∧ units s + zsum (holds ∘ wk_phase) ws = 1;
  so_queue : NoDup (waiting s) ∧ ∀ i, i ∈ waiting s ↔ in_queue ws i;
}.
Definition sem_inv (o : option shared_sem) ws : Prop :=
  match o with
  | Some (Shared a u s) => sem_open_inv a u s ws ∧ (waiting s ≠ [] → units s = 0)
  | None => ∀ j x, ws !! j = Some x → opened (wk_phase x) = None
  end.

Lemma holds_range ph : 0 ≤ holds ph ≤ 1.
Proof. destruct ph; cbn; lia. Qed.
Lemma uses_range ph : 0 ≤ uses ph ≤ 1.
Proof. destruct ph; cbn; lia. Qed.

Lemma in_queue_move ws j x ph : ws !! j = Some x → queued ph = queued (wk_phase x) →
  ∀ i, in_queue (<[j := set_phase ph x]> ws) i ↔ in_queue ws i.
Proof.
  intros Hj Hq i. split; intros (i' & y & Hi & Hp & Hy).
  - apply list_lookup_insert_Some in Hi as [(<- & <- & _)|[Hne Hi]]; [|by exists i', y].
    exists j, x. cbn in *. by rewrite <-Hq.
  - destruct (decide (i' = j)) as [->|Hne].
    + simplify_eq. exists j, (set_phase ph x). cbn. rewrite Hq. split; [|done].
      apply list_lookup_insert_eq. by eapply lookup_lt_Some.
    + exists i', y. by rewrite list_lookup_insert_ne.
Qed.

Lemma zsum_zero {A} (f : A → Z) (l : list A) : (∀ j z, l !! j = Some z → f z = 0) → zsum f l = 0.
Proof.
  induction l as [|z l IH]; intros Hf; [done|]. rewrite zsum_cons, (Hf 0%nat z) by done.
  apply IH. intros j z' Hj. by apply (Hf (S j)).
Qed.

(** The first process opens the semaphore. *)
Lemma sem_new a n ws j x : 0 < a → (∀ i y, ws !! i = Some y → opened (wk_phase y) = None) →
  ws !! j = Some x → sem_open_inv a 1 (Semaphore 1 []) (<[j := set_phase (Outside a n) x]> ws).
Proof.
  intros Ha Hno Hj.
  assert (∀ i y, ws !! i = Some y → uses (wk_phase y) = 0 ∧ holds (wk_phase y) = 0 ∧
    queued (wk_phase y) = false) as H0.
  { intros i y Hi. specialize (Hno i y Hi). by destruct (wk_phase y). }
  assert (zsum (uses ∘ wk_phase) ws = 0 ∧ zsum (holds ∘ wk_phase) ws = 0) as [Hu Hh]
    by (split; apply zsum_zero; intros i y Hi; by apply (H0 i y)).
  destruct (H0 j x Hj) as (Hux & Hhx & _). split; cbn [units waiting].
  - split; [done|]. intros i y b [(_ & <- & _)|[_ Hi]]%list_lookup_insert_Some; [by intros [= ->]|].
    by rewrite (Hno i y).
  - rewrite (zsum_insert _ ws j x) by done. cbn in *. lia.
  - rewrite (zsum_insert _ ws j x) by done. cbn in *. lia.
  - split; [constructor|]. intros i. split; [by intros ?%elem_of_nil|].
    intros (i' & y & [(_ & <- & _)|[_ Hi]]%list_lookup_insert_Some & _ & Hy); [done|].
    destruct (H0 i' y Hi) as (_ & _ & ?). congruence.
Qed.

(** A process moves on; units and users go with it. *)
Lemma sem_move a u s ws j x ph : sem_open_inv a u s ws → ws !! j = Some x →
  queued ph = queued (wk_phase x) → (∀ b, opened ph = Some b → b = a) →
  0 < u - uses (wk_phase x) + uses ph → 0 ≤ units s + holds (wk_phase x) - holds ph →
  sem_open_inv a (u - uses (wk_phase x) + uses ph)
    (Semaphore (units s + holds (wk_phase x) - holds ph) (waiting s)) (<[j := set_phase ph x]> ws).
Proof.
  intros [[Ha Hat] [Hu Hu0] [Hn0 Hn] [Hd Hq]] Hj Hph Hb Hu1 Hn1. split.
  - split; [done|]. intros i y b [(<- & <- & _)|[_ Hi]]%list_lookup_insert_Some; [by apply Hb|by eapply Hat].
  - split; [|done]. rewrite (zsum_insert _ ws j x) by done. cbn. lia.
  - split; [done|]. rewrite (zsum_insert _ ws j x) by done. cbn. lia.
  - split; [done|]. intros i. by rewrite in_queue_move.
Qed.

(** A process is queued. *)
Lemma sem_queue a u s m ws j x n : sem_open_inv a u s ws → NoDup (m :: (wk_pid <$> ws)) →
  ws !! j = Some x → wk_phase x = Outside a (S n) →
  sem_open_inv a u (Semaphore (units s) (waiting s ++ [wk_pid x])) (<[j := set_phase (Queued a n) x]> ws).
Proof.
  intros [[Ha Hat] [Hu Hu0] [Hn0 Hn] [Hd Hq]] Ht Hj Hx. split; cbn [units waiting].
  - split; [done|]. intros i y b [(<- & <- & _)|[_ Hi]]%list_lookup_insert_Some; [by intros [= ->]|by eapply Hat].
  - split; [|done]. rewrite (zsum_insert _ ws j x) by done. cbn. rewrite Hx. cbn. lia.
  - split; [done|]. rewrite (zsum_insert _ ws j x) by done. cbn. rewrite Hx. cbn. lia.
  - assert (wk_pid x ∉ waiting s) as Hnot.
    { rewrite Hq. intros (i & y & Hi & E & Hy). rewrite (pid_unique m ws i j y x) in Hi by done.
      simplify_eq. by rewrite Hx in Hy. }
    split; [apply NoDup_app; split; [done|]; split; [|apply NoDup_singleton];
      by intros i Hi ->%list_elem_of_singleton|].
    intros i. rewrite elem_of_app, list_elem_of_singleton, Hq. split.
    + intros [(i' & y & Hi & E & Hy)| ->].
      * exists i', y. rewrite list_lookup_insert_ne; [done|]. intros ->. simplify_eq. by rewrite Hx in Hy.
      * exists j, (set_phase (Queued a n) x). split; [|done].
        apply list_lookup_insert_eq. by eapply lookup_lt_Some.
    + intros (i' & y & [(<- & <- & _)|[_ Hi]]%list_lookup_insert_Some & E & Hy);
        [by right|left; by exists i', y].
Qed.

(** The process that has waited longest is handed the unit. *)
Lemma sem_hand a u s m ws j x n l : sem_open_inv a u s ws → NoDup (m :: (wk_pid <$> ws)) →
  ws !! j = Some x → wk_phase x = Queued a n → waiting s = wk_pid x :: l → 0 < units s →
  sem_open_inv a u (Semaphore (units s - 1) l) (<[j := set_phase (Inside a n) x]> ws).
Proof.
  intros [[Ha Hat] [Hu Hu0] [Hn0 Hn] [Hd Hq]] Ht Hj Hx Hw Hpos. split; cbn [units waiting].
  - split; [done|]. intros i y b [(<- & <- & _)|[_ Hi]]%list_lookup_insert_Some; [by intros [= ->]|by eapply Hat].
  - split; [|done]. rewrite (zsum_insert _ ws j x) by done. cbn. rewrite Hx. cbn. lia.
  - split; [lia|]. rewrite (zsum_insert _ ws j x) by done. cbn. rewrite Hx. cbn. lia.
  - rewrite Hw in *. apply NoDup_cons in Hd as [Hnot Hd]. split; [done|]. intros i. split.
    + intros Hi. destruct (proj1 (Hq i)) as (i' & y & Hi' & <- & Hy); [by right|].
      exists i', y. rewrite list_lookup_insert_ne; [done|]. intros ->. by simplify_eq.
    + intros (i' & y & [(_ & <- & _)|[Hne Hi']]%list_lookup_insert_Some & <- & Hy); [done|].
      assert (wk_pid y ∈ wk_pid x :: l) as [E|?]%elem_of_cons; [|exfalso|done].
      { apply Hq. by exists i', y. }
      by eapply Hne, pid_unique.
Qed.

(** ** The invariant of a run *)

(** All have ended, and what they have added comes to nothing. *)
Definition all_left ws : Prop :=
  zsum wk_inc ws = 0 ∧ ∀ j x, ws !! j = Some x → wk_phase x = Leaving.
Definition stage_ok st ws : Prop :=
  match st with
  | M_start => ws = []
  | M_run l n => l = (λ x, (wk_pid x, wk_inc x)) <$> ws ∧
      ∀ j x, (j < n)%nat → ws !! j = Some x → wk_phase x = Leaving
  | M_final v => all_left ws ∧ v = 0
  | M_over => all_left ws
  end.
Definition loaded_ok (g : Z) ws : Prop :=
  ∀ j x a n v, ws !! j = Some x → wk_phase x = Loaded a n v → v = g.
Definition log_ok (m : Z) st (l : list (Z * sys * Z)) : Prop :=
  (∀ t r, (m, Print t, r) ∈ l → announces t = true → t = final_text 0) ∧
  (st = M_over → (m, Print (final_text 0), 0) ∈ l).
Definition main_ok (m : Z) st (ths : gmap Z thread) : Prop :=
  ∃ th, ths !! m = Some th ∧ blocked th = false ∧ at_main st (now th).

Record run_inv (m : Z) (w : world) st ws : Prop := {
  ri_main : main_ok m st (w_threads w);
  ri_threads : threads_inv m (w_threads w) ws;
  ri_sem : sem_inv (w_sem w) ws;
  ri_global : st = M_start ∨ w_global w = i64 (zsum added ws);
  ri_loaded : loaded_ok (w_global w) ws;
  ri_stage : stage_ok st ws;
  ri_log : log_ok m st (w_log w);
}.

Lemma all_left_move ws j x ph : ws !! j = Some x → (wk_phase x = Leaving → ph = Leaving) →
  all_left ws → all_left (<[j := set_phase ph x]> ws).
Proof.
  intros Hj Hl [Hz Ha]. split; [rewrite (zsum_insert _ ws j x) by done; cbn; lia|].
  intros i y [(_ & <- & _)|[_ Hi]]%list_lookup_insert_Some; [by eapply Hl, Ha|by eapply Ha].
Qed.

Lemma stage_move st ws j x ph : ws !! j = Some x → (wk_phase x = Leaving → ph = Leaving) →
  stage_ok st ws → stage_ok st (<[j := set_phase ph x]> ws).
Proof.
  intros Hj Hl. destruct st as [|l n|v|]; cbn.
  - by intros ->.
  - intros [-> Hn]. split.
    + rewrite list_fmap_insert. cbn. rewrite list_insert_id; [done|]. by rewrite list_lookup_fmap, Hj.
    + intros i y Hi [(<- & <- & _)|[_ Hy]]%list_lookup_insert_Some; [by eapply Hl, Hn|by eapply Hn].
  - intros [Ha ->]. by split; [apply all_left_move|].
  - by apply all_left_move.
Qed.

Lemma added_move ws j x ph : ws !! j = Some x →
  zsum added (<[j := set_phase ph x]> ws) =
    zsum added ws + wk_inc x * (finished ph - finished (wk_phase x)).
Proof. intros Hj. rewrite (zsum_insert _ ws j x) by done. unfold added. cbn. lia. Qed.

Lemma loaded_move g ws j x ph : (∀ a n v, ph = Loaded a n v → v = g) → loaded_ok g ws →
  loaded_ok g (<[j := set_phase ph x]> ws).
Proof.
  intros Hph Hg i y a n v [(_ & <- & _)|[_ Hi]]%list_lookup_insert_Some Hy; [by eapply Hph|by eapply Hg].
Qed.

Lemma log_other m st l i c r : i ≠ m → log_ok m st l → log_ok m st (l ++ [(i, c, r)]).
Proof.
  intros Hi [H1 H2]. split.
  - intros t r' [Hin|Hin%list_elem_of_singleton]%elem_of_app; [by eapply H1|congruence].
  - intros E. apply elem_of_app. left. by apply H2.
Qed.

Lemma resume_threads i c k r w th : w_threads w !! i = Some th →
  w_threads (resume i c k r w) = <[i := set_now (k r) th]> (w_threads w).
Proof.
  intros Hi. cbn. apply map_eq. intros j. destruct (decide (j = i)) as [->|].
  - by rewrite lookup_alter_eq, lookup_insert_eq, Hi.
  - by rewrite lookup_alter_ne, lookup_insert_ne.
Qed.

(** The process [x], number [j], goes on in phase [ph]. *)
Lemma worker_moves m w st ws j x th c k r ph (ws' := <[j := set_phase ph x]> ws) :
  main_ok m st (w_threads w) → threads_inv m (w_threads w) ws → stage_ok st ws →
  log_ok m st (w_log w) → ws !! j = Some x → w_threads w !! wk_pid x = Some th →
  blocked th = false → queued ph = false → at_phase (wk_inc x) ph (k r) →
  (wk_phase x = Leaving → ph = Leaving) → sem_inv (w_sem w) ws' →
  w_global w = i64 (zsum added ws') → loaded_ok (w_global w) ws' →
  run_inv m (resume (wk_pid x) c k r w) st ws'.
Proof.
  intros (thm & Hm & Hbm & Hatm) Ht Hst Hlog Hj Hth Hb Hq Hat Hl Hs Hg Hlo.
  pose proof (not_main _ _ _ _ _ Ht Hj) as Hne. split.
  - exists thm. rewrite (resume_threads _ _ _ _ _ th) by done. by rewrite lookup_insert_ne.
  - rewrite (resume_threads _ _ _ _ _ th) by done. apply threads_move; [done..|].
    by apply standing_run.
  - done.
  - by right.
  - done.
  - by apply stage_move.
  - by apply log_other.
Qed.

Lemma run_global m w st ws j x : run_inv m w st ws → ws !! j = Some x →
  w_global w = i64 (zsum added ws).
Proof.
  intros Hi Hj. destruct (ri_global _ _ _ _ Hi) as [->|?]; [|done].
  pose proof (ri_stage _ _ _ _ Hi) as E. cbn in E. by subst ws.
Qed.

(** A move that changes no more than the semaphore. *)
Lemma worker_keeps m w st ws j x th c k r ph o (ws' := <[j := set_phase ph x]> ws) :
  run_inv m w st ws → ws !! j = Some x → w_threads w !! wk_pid x = Some th →
  blocked th = false → queued ph = false → at_phase (wk_inc x) ph (k r) →
  (wk_phase x = Leaving → ph = Leaving) → finished ph = finished (wk_phase x) →
  (∀ a n v, ph = Loaded a n v → v = w_global w) → sem_inv o ws' →
  run_inv m (resume (wk_pid x) c k r (set_w_sem o w)) st ws'.
Proof.
  intros Hi Hj Hth Hb Hq Hat Hl Hf Hlo Hs. pose proof (run_global _ _ _ _ _ _ Hi Hj) as Hg.
  destruct Hi as [Hm Ht _ _ Hld Hst Hlog].
  eapply worker_moves; cbn [w_threads w_global w_sem w_log set_w_sem]; try done.
  - rewrite Hg. unfold ws'. rewrite added_move, Hf by done. f_equal. lia.
  - by apply loaded_move.
Qed.

Lemma set_w_sem_id w : set_w_sem (w_sem w) w = w.
Proof. by destruct w. Qed.

Lemma holder_alone m w st ws j x a u s i y : run_inv m w st ws → w_sem w = Some (Shared a u s) →
  ws !! j = Some x → ws !! i = Some y → holds (wk_phase x) = 1 → holds (wk_phase y) = 1 → i = j.
Proof.
  intros Hi Hs Hj Hy H1 H2. pose proof (ri_sem _ _ _ _ Hi) as Hsem. rewrite Hs in Hsem.
  destruct Hsem as [[_ _ [Hn0 Hn] _] _].
  eapply (zsum_unique (holds ∘ wk_phase) ws); [intros z; apply holds_range|lia|done..].
Qed.

(** A process that has the semaphore open. *)
Lemma sem_of m w st ws j x a : run_inv m w st ws → ws !! j = Some x →
  opened (wk_phase x) = Some a →
  ∃ u s, w_sem w = Some (Shared a u s) ∧ sem_open_inv a u s ws ∧ (waiting s ≠ [] → units s = 0).
Proof.
  intros Hi Hj Ho. pose proof (ri_sem _ _ _ _ Hi) as Hs. destruct (w_sem w) as [[b u s]|]; cbn in Hs.
  - destruct Hs as [Hs Hb]. destruct (so_at _ _ _ _ Hs) as [_ Hat].
    rewrite (Hat j x a) by done. eauto.
  - specialize (Hs j x Hj). congruence.
Qed.

Lemma worker_opens m w st ws j x th k r v w' : run_inv m w st ws → ws !! j = Some x →
  w_threads w !! wk_pid x = Some th → blocked th = false → wk_phase x = Starting →
  (∀ a, 0 < a → at_phase (wk_inc x) (Outside a rounds) (k a)) →
  serve false (wk_pid x) w (Sem_open SEM_ID 1) r w' →
  ∃ ws', run_inv m (resume (wk_pid x) (Sem_open SEM_ID v) k r w') st ws'.
Proof.
  intros Hi Hj Hth Hb Hx Hk Hserve. pose proof (ri_sem _ _ _ _ Hi) as Hs.
  inversion Hserve as [| |v' a u s Hw|v' a Hw Ha| | | | | | | | | | | | | | | | | | |]; subst; [| |done].
  - rewrite Hw in Hs. destruct Hs as [Hs Hbusy]. pose proof (so_at _ _ _ _ Hs) as [Ha _].
    pose proof (so_users _ _ _ _ Hs) as [_ Hu]. pose proof (so_unit _ _ _ _ Hs) as [Hn _].
    eexists. eapply (worker_keeps _ _ _ _ j x th _ _ _ (Outside r rounds)); rewrite ?Hx; try done.
    + by apply Hk.
    + cbn. lia.
    + pose proof (sem_move r u s ws j x (Outside r rounds) Hs Hj) as Hm. rewrite Hx in Hm. cbn in Hm.
      rewrite Z.sub_0_r, !Z.add_0_r, Z.sub_0_r in Hm. destruct s as [n q].
      split; [|done]. apply Hm; [done|by intros b [= ->]|lia..].
  - rewrite Hw in Hs. eexists.
    eapply (worker_keeps _ _ _ _ j x th _ _ _ (Outside r rounds)); rewrite ?Hx; try done.
    + by apply Hk.
    + cbn. lia.
    + split; [by apply sem_new|done].
Qed.

Lemma worker_waits m w st ws j x th a n k r w' : run_inv m w st ws → ws !! j = Some x →
  w_threads w !! wk_pid x = Some th → blocked th = false → wk_phase x = Outside a (S n) →
  at_phase (wk_inc x) (Inside a n) (k 0) → serve false (wk_pid x) w (Sem_wait a) r w' →
  ∃ ws', run_inv m (resume (wk_pid x) (Sem_wait a) k r w') st ws'.
Proof.
  intros Hi Hj Hth Hb Hx Hk Hserve.
  destruct (sem_of _ _ _ _ j x a Hi) as (u & s & Hw & Hs & Hbusy); [done|by rewrite Hx|].
  pose proof (so_unit _ _ _ _ Hs) as [Hn _]. pose proof (so_users _ _ _ _ Hs) as [_ Hu].
  inversion Hserve as [| | | | | | | |b u' s0 s' Hw' Htake| |b Hc| | | | | | | | | | | |]; subst; try done.
  - rewrite Hw in Hw'. injection Hw' as <- <-. unfold SemSpec.take in Htake.
    destruct (decide (units s = 0)); [done|]. injection Htake as <-.
    eexists. eapply (worker_keeps _ _ _ _ j x th _ _ _ (Inside a n)); rewrite ?Hx; try done.
    + cbn. lia.
    + pose proof (sem_move a u s ws j x (Inside a n) Hs Hj) as Hm. rewrite Hx in Hm. cbn in Hm.
      replace (u - 1 + 1) with u in Hm by lia. rewrite Z.add_0_r in Hm. split.
      * apply Hm; [done|by intros b [= ->]|lia..].
      * cbn. intros Hq%Hbusy. lia.
  - exfalso. by apply (Hc _ Hw).
Qed.

Lemma worker_loads m w st ws j x th a n k r w' : run_inv m w st ws → ws !! j = Some x →
  w_threads w !! wk_pid x = Some th → blocked th = false → wk_phase x = Inside a n →
  (∀ v, at_phase (wk_inc x) (Loaded a n v) (k v)) → serve false (wk_pid x) w Load r w' →
  ∃ ws', run_inv m (resume (wk_pid x) Load k r w') st ws'.
Proof.
  intros Hi Hj Hth Hb Hx Hk Hserve. inversion Hserve; subst.
  destruct (sem_of _ _ _ _ j x a Hi) as (u & s & Hw & Hs & Hbusy); [done|by rewrite Hx|].
  assert (resume (wk_pid x) Load k (w_global w') w' =
    resume (wk_pid x) Load k (w_global w') (set_w_sem (w_sem w') w')) as -> by (by rewrite set_w_sem_id).
  eexists.
  eapply (worker_keeps _ _ _ _ j x th _ _ _ (Loaded a n (w_global w'))); rewrite ?Hx; try done.
  - by intros ? ? ? [= _ _ <-].
  - rewrite Hw. pose proof (sem_move a u s ws j x (Loaded a n (w_global w')) Hs Hj) as Hm.
    rewrite Hx in Hm. cbn in Hm. pose proof (so_users _ _ _ _ Hs) as [_ Hu].
    pose proof (so_unit _ _ _ _ Hs) as [Hn _].
    replace (u - 1 + 1) with u in Hm by lia. replace (units s + 1 - 1) with (units s) in Hm by lia.
    split; [|done]. destruct s. apply Hm; [done|by intros b [= ->]|lia..].
Qed.

(** The store adds the increment to what is there. *)
Lemma store_adds s inc : i64 (u64 (u64 (i64 s) + inc)) = i64 (s + inc).
Proof.
  destruct (wraps_eq 64 s) as [k1 E1]; [done|]. destruct (wrapu_eq 64 (i64 s)) as [k2 E2]; [done|].
  destruct (wrapu_eq 64 (u64 (i64 s) + inc)) as [k3 E3]; [done|].
  rewrite E3, E2, E1. rewrite <-(wraps_add 64 (k1 + k2 + k3) (s + inc)) by done. f_equal. lia.
Qed.

Lemma worker_stores m w st ws j x th a n v k r w' : run_inv m w st ws → ws !! j = Some x →
  w_threads w !! wk_pid x = Some th → blocked th = false → wk_phase x = Loaded a n v →
  (∀ r, at_phase (wk_inc x) (Stored a n) (k r)) →
  serve false (wk_pid x) w (Store (i64 (u64 (u64 v + wk_inc x)))) r w' →
  ∃ ws', run_inv m (resume (wk_pid x) (Store (i64 (u64 (u64 v + wk_inc x)))) k r w') st ws'.
Proof.
  intros Hi Hj Hth Hb Hx Hk Hserve. inversion Hserve; subst.
  destruct (sem_of _ _ _ _ j x a Hi) as (u & s & Hw & Hs & Hbusy); [done|by rewrite Hx|].
  pose proof (ri_loaded _ _ _ _ Hi j x a n v Hj Hx) as ->.
  pose proof (run_global _ _ _ _ _ _ Hi Hj) as Hg. pose proof Hi as [Hm Ht _ _ Hld Hst Hlog].
  eexists. eapply (worker_moves _ _ _ _ j x th _ _ _ (Stored a n)); rewrite ?Hx; try done.
  - cbn [w_sem set_w_global]. rewrite Hw.
    pose proof (sem_move a u s ws j x (Stored a n) Hs Hj) as Hmv. rewrite Hx in Hmv. cbn in Hmv.
    pose proof (so_users _ _ _ _ Hs) as [_ Hu]. pose proof (so_unit _ _ _ _ Hs) as [Hn _].
    replace (u - 1 + 1) with u in Hmv by lia. replace (units s + 1 - 1) with (units s) in Hmv by lia.
    split; [|done]. destruct s. apply Hmv; [done|by intros b [= ->]|lia..].
  - cbn [w_global set_w_global]. rewrite added_move, Hx, Hg by done. cbn [finished].
    rewrite store_adds. f_equal. lia.
  - intros i y a' n' v' [(_ & <- & _)|[Hne Hy]]%list_lookup_insert_Some Hy'; [done|].
    destruct Hne. symmetry. eapply (holder_alone _ _ _ _ j x a u s i y); [exact Hi|done..| |].
    + by rewrite Hx.
    + by rewrite Hy'.
Qed.

Lemma worker_closes m w st ws j x th a k r w' : run_inv m w st ws → ws !! j = Some x →
  w_threads w !! wk_pid x = Some th → blocked th = false → wk_phase x = Outside a 0 →
  (∀ r, at_phase (wk_inc x) Leaving (k r)) → serve false (wk_pid x) w (Sem_close a) r w' →
  ∃ ws', run_inv m (resume (wk_pid x) (Sem_close a) k r w') st ws'.
Proof.
  intros Hi Hj Hth Hb Hx Hk Hserve.
  destruct (sem_of _ _ _ _ j x a Hi) as (u & s & Hw & Hs & Hbusy); [done|by rewrite Hx|].
  pose proof (so_unit _ _ _ _ Hs) as [Hn _]. pose proof (so_users _ _ _ _ Hs) as [_ Hu].
  assert (∀ o, sem_inv o (<[j := set_phase Leaving x]> ws) →
    ∃ ws', run_inv m (resume (wk_pid x) (Sem_close a) k r (set_w_sem o w)) st ws') as Hleave.
  { intros o Ho. eexists. eapply (worker_keeps _ _ _ _ j x th _ _ _ Leaving); rewrite ?Hx; try done.
    cbn. lia. }
  inversion Hserve as [| | | | |b u' s' Hw' Hne|b s' Hw'|b Hc| | | | | | | | | | | | | | |]; subst.
  - rewrite Hw in Hw'. injection Hw' as <- <-. apply Hleave.
    pose proof (sem_move a u s ws j x Leaving Hs Hj) as Hm. rewrite Hx in Hm. cbn in Hm.
    rewrite !Z.add_0_r, Z.sub_0_r in Hm. split; [|done]. destruct s. apply Hm; try done; lia.
  - rewrite Hw in Hw'. injection Hw' as Hu1 <-. apply Hleave. intros i y Hi'.
    pose proof (so_users _ _ _ _ Hs) as [Hus _].
    assert (zsum (uses ∘ wk_phase) (<[j := set_phase Leaving x]> ws) = 0) as Hz.
    { rewrite (zsum_insert _ ws j x) by done. cbn. rewrite Hx. cbn. lia. }
    pose proof (zsum_lookup (uses ∘ wk_phase) _ _ _ (λ z, proj1 (uses_range _)) Hi') as Hle.
    cbn in Hle. rewrite Hz in Hle. unfold uses in Hle. destruct (opened (wk_phase y)); [lia|done].
  - exfalso. by apply (Hc _ Hw).
Qed.

Lemma wake_threads p w th : w_threads w !! p = Some th →
  w_threads (wake (Some p) w) = <[p := set_blocked false th]> (w_threads w).
Proof.
  intros Hp. cbn. apply map_eq. intros j. destruct (decide (j = p)) as [->|].
  - by rewrite lookup_alter_eq, lookup_insert_eq, Hp.
  - by rewrite lookup_alter_ne, lookup_insert_ne.
Qed.

(** The woken process is in, before the one that posts moves on. *)
Lemma worker_wakes m w st ws j x th a n k u s p l : run_inv m w st ws → ws !! j = Some x →
  w_threads w !! wk_pid x = Some th → blocked th = false → wk_phase x = Stored a n →
  at_phase (wk_inc x) (Outside a n) (k 0) → w_sem w = Some (Shared a u s) →
  sem_open_inv a u s ws → waiting s = p :: l → units s = 0 →
  sem_open_inv a u (Semaphore 1 (waiting s)) (<[j := set_phase (Outside a n) x]> ws) →
  ∃ ws', run_inv m (resume (wk_pid x) (Sem_post a) k 0
    (wake (Some p) (set_w_sem (Some (Shared a u (Semaphore (units s) l))) w))) st ws'.
Proof.
  intros Hi Hj Hth Hb Hx Hk Hw Hs El E0 Hs1. pose proof (run_global _ _ _ _ _ _ Hi Hj) as Hg.
  pose proof Hi as [(thm & Hm1 & Hm2 & Hm3) Ht _ _ Hld Hst Hlog].
  destruct (so_queue _ _ _ _ Hs) as [_ Hq]. destruct (proj1 (Hq p)) as (i & y & Hy & Hp & Hyq);
    [rewrite El; by left|]. subst p.
  destruct (wk_phase y) as [|? ?|b n2|? ?|? ? ?|? ?|] eqn:Ey; try done.
  destruct (so_at _ _ _ _ Hs) as [_ Hat]. assert (b = a) as -> by (apply (Hat i y); [done|by rewrite Ey]).
  destruct (ti_standing _ _ _ Ht i y Hy) as (thy & Hthy & Hsy). rewrite Ey in Hsy. destruct Hsy as [_ Hsy].
  assert (i ≠ j) as Hij by (intros ->; simplify_eq; congruence).
  assert (wk_pid y ≠ wk_pid x) as Hpid by (intros E; by eapply Hij, pid_unique; [apply Ht|..]).
  set (o := Some (Shared a u (Semaphore (units s) l))).
  pose proof (wake_threads (wk_pid y) (set_w_sem o w) thy Hthy) as Ew. cbn [w_threads set_w_sem] in Ew.
  eexists. eapply (worker_moves m _ st (<[i := set_phase (Inside a n2) y]> ws) j x th _ _ _ (Outside a n));
    rewrite ?Ew, ?Hx; try done.
  - exists thm. rewrite lookup_insert_ne; [done|]. by eapply not_main.
  - by apply threads_move.
  - apply stage_move; [done|by rewrite Ey|done].
  - by rewrite list_lookup_insert_ne.
  - by rewrite lookup_insert_ne.
  - unfold o. rewrite E0. cbn [wake w_sem set_w_threads set_w_sem].
    rewrite list_insert_insert_ne by done. split; [|done].
    replace 0 with (1 - 1) by done. eapply (sem_hand a u (Semaphore 1 (waiting s)) m); try done.
    + rewrite pids_insert by done. apply Ht.
    + by rewrite list_lookup_insert_ne.
  - cbn [wake w_global set_w_threads set_w_sem o]. rewrite !added_move, Ey, Hx, Hg by
      (done || by rewrite list_lookup_insert_ne). cbn [finished]. f_equal. lia.
  - cbn [wake w_global set_w_threads set_w_sem o]. by repeat apply loaded_move.
Qed.

Lemma worker_posts m w st ws j x th a n k r w' : run_inv m w st ws → ws !! j = Some x →
  w_threads w !! wk_pid x = Some th → blocked th = false → wk_phase x = Stored a n →
  at_phase (wk_inc x) (Outside a n) (k 0) → serve false (wk_pid x) w (Sem_post a) r w' →
  ∃ ws', run_inv m (resume (wk_pid x) (Sem_post a) k r w') st ws'.
Proof.
  intros Hi Hj Hth Hb Hx Hk Hserve.
  destruct (sem_of _ _ _ _ j x a Hi) as (u & s & Hw & Hs & Hbusy); [done|by rewrite Hx|].
  pose proof (so_unit _ _ _ _ Hs) as [Hn Hn1]. pose proof (so_users _ _ _ _ Hs) as [_ Hu].
  pose proof (zsum_lookup (holds ∘ wk_phase) _ _ _ (λ z, proj1 (holds_range _)) Hj) as Hle.
  cbn in Hle. rewrite Hx in Hle. cbn in Hle. assert (units s = 0) as E0 by lia.
  pose proof (sem_move a u s ws j x (Outside a n) Hs Hj) as Hm. rewrite Hx, E0 in Hm. cbn in Hm.
  replace (u - 1 + 1) with u in Hm by lia.
  assert (sem_open_inv a u (Semaphore 1 (waiting s)) (<[j := set_phase (Outside a n) x]> ws)) as Hs1.
  { apply Hm; [done|by intros b [= ->]|lia..]. }
  inversion Hserve as [| | | | | | | | | | |b u' s0 o s' Hw' Hgive|b Hc| | | | | | | | | |]; subst.
  2: { exfalso. by apply (Hc _ Hw). }
  rewrite Hw in Hw'. injection Hw' as <- <-. unfold give in Hgive.
  destruct (waiting s) as [|p l] eqn:El; injection Hgive as <- <-; cbn [wake].
  - eexists. eapply (worker_keeps _ _ _ _ j x th _ _ _ (Outside a n)); rewrite ?Hx; try done.
    rewrite E0. by split.
  - eapply (worker_wakes m w st ws j x th a n k u s p l); try done. by rewrite El.
Qed.

Lemma serve_quiet short i w c r w' : quiet c → serve short i w c r w' → w' = w.
Proof. destruct c; try done; intros _ Hserve; by inversion Hserve. Qed.

Lemma worker_quiet m w st ws j x th c k r : run_inv m w st ws → ws !! j = Some x →
  w_threads w !! wk_pid x = Some th → blocked th = false → queued (wk_phase x) = false →
  at_phase (wk_inc x) (wk_phase x) (k r) → run_inv m (resume (wk_pid x) c k r w) st ws.
Proof.
  intros Hi Hj Hth Hb Hq Hk.
  assert (<[j := set_phase (wk_phase x) x]> ws = ws) as E by (apply list_insert_id; by destruct x).
  rewrite <-E, <-(set_w_sem_id w). eapply (worker_keeps _ _ _ _ j x th); rewrite ?E; try done.
  - intros a n v Hx. by eapply (ri_loaded _ _ _ _ Hi).
  - apply (ri_sem _ _ _ _ Hi).
Qed.

Lemma worker_standing m w st ws j x th : run_inv m w st ws → ws !! j = Some x →
  w_threads w !! wk_pid x = Some th → standing (wk_inc x) (wk_phase x) th.
Proof.
  intros Hi Hj Hth. destruct (ti_standing _ _ _ (ri_threads _ _ _ _ Hi) j x Hj) as (th' & E & Hs).
  by simplify_eq.
Qed.

(** A process that is not queued has its next call answered. *)
Lemma worker_step m w st ws j x th c k r w' : run_inv m w st ws → ws !! j = Some x →
  w_threads w !! wk_pid x = Some th → blocked th = false → now th = Do c k →
  serve false (wk_pid x) w c r w' → ∃ ws', run_inv m (resume (wk_pid x) c k r w') st ws'.
Proof.
  intros Hi Hj Hth Hb Hnow Hserve. pose proof (worker_standing _ _ _ _ _ _ _ Hi Hj Hth) as Hs.
  assert (queued (wk_phase x) = false) as Hq.
  { destruct (wk_phase x); try done. destruct Hs as [Hs _]. congruence. }
  apply standing_run in Hs as [_ Hat]; [|done]. rewrite Hnow in Hat.
  inversion Hat as [ph c' k' Hc Hk E1 E2|k' Hk E1 E2|a n k' Hk E1 E2|a n k' Hk E1 E2
    |a n v k' Hk E1 E2|a n k' Hk E1 E2|a k' Hk E1 E2|]; subst.
  - apply serve_quiet in Hserve as E; [|done]. subst w'. exists ws.
    by eapply worker_quiet.
  - by eapply worker_opens.
  - by eapply worker_waits.
  - by eapply worker_loads.
  - by eapply worker_stores.
  - by eapply worker_posts.
  - by eapply worker_closes.
Qed.

(** ... or it is queued. *)
Lemma worker_queues m w st ws j x th a u s s' k : run_inv m w st ws → ws !! j = Some x →
  w_threads w !! wk_pid x = Some th → blocked th = false → now th = Do (Sem_wait a) k →
  w_sem w = Some (Shared a u s) → SemSpec.take (wk_pid x) s = (false, s') →
  ∃ ws', run_inv m (set_thread (wk_pid x) (Thread (k 0) true)
    (set_w_sem (Some (Shared a u s')) w)) st ws'.
Proof.
  intros Hi Hj Hth Hb Hnow Hw Htake. pose proof (worker_standing _ _ _ _ _ _ _ Hi Hj Hth) as Hs.
  assert (queued (wk_phase x) = false) as Hq.
  { destruct (wk_phase x); try done. destruct Hs as [Hs _]. congruence. }
  apply standing_run in Hs as [_ Hat]; [|done]. rewrite Hnow in Hat.
  inversion Hat as [ph c' k' Hc Hk E1 E2| |a' n k' Hk E1 E2| | | | |]; subst; [done|].
  pose proof (run_global _ _ _ _ _ _ Hi Hj) as Hg.
  destruct Hi as [(thm & Hm1 & Hm2 & Hm3) Ht Hsem _ Hld Hst Hlog]. rewrite Hw in Hsem.
  destruct Hsem as [Hsem _]. unfold SemSpec.take in Htake. case_decide as E0; [|done].
  injection Htake as <-. exists (<[j := set_phase (Queued a n) x]> ws).
  split; cbn [w_threads w_sem w_global w_log set_thread set_w_threads set_w_sem].
  - exists thm. rewrite lookup_insert_ne; [done|]. by eapply not_main.
  - apply threads_move; done.
  - split; [|done]. rewrite <-E0. eapply sem_queue; [done|apply Ht|done..].
  - right. rewrite added_move, Hg, <-E1 by done. f_equal. cbn [finished]. lia.
  - by apply loaded_move.
  - apply stage_move; [done|by rewrite <-E1|done].
  - done.
Qed.

(** ** The moves of the command *)

Lemma main_moves m w st ws th c k r : w_threads w !! m = Some th → blocked th = false →
  at_main st (k r) → threads_inv m (w_threads w) ws → sem_inv (w_sem w) ws →
  (st = M_start ∨ w_global w = i64 (zsum added ws)) → loaded_ok (w_global w) ws →
  stage_ok st ws → log_ok m st (w_log w ++ [(m, c, r)]) → run_inv m (resume m c k r w) st ws.
Proof.
  intros Hm Hb Hk Ht Hs Hg Hld Hst Hlog. split; try done.
  - exists (set_now (k r) th). rewrite (resume_threads _ _ _ _ _ th) by done. by rewrite lookup_insert_eq.
  - rewrite (resume_threads _ _ _ _ _ th) by done. by apply threads_main.
Qed.

(** Nothing is announced. *)
Lemma log_silent m st st' l c r : (∀ t, c = Print t → announces t = false) →
  st' ≠ M_over ∨ st = M_over → log_ok m st l → log_ok m st' (l ++ [(m, c, r)]).
Proof.
  intros Hc Hst [H1 H2]. split.
  - intros t r' [Hin|Hin%list_elem_of_singleton]%elem_of_app Ht; [by eapply H1|].
    injection Hin as <- _. by rewrite (Hc t) in Ht.
  - intros ->. destruct Hst as [?|Hst]; [done|]. apply elem_of_app. left. by apply H2.
Qed.

Lemma sem_started o ws p inc : sem_inv o ws → sem_inv o (ws ++ [Worker p inc Starting]).
Proof.
  assert (∀ j x, (ws ++ [Worker p inc Starting]) !! j = Some x →
    ws !! j = Some x ∨ wk_phase x = Starting) as Hlook.
  { intros j x [Hj|[_ Hj]]%lookup_app_Some; [by left|right].
    by apply list_lookup_singleton_Some in Hj as [_ <-]. }
  destruct o as [[a u s]|]; cbn.
  - intros [[[Ha Hat] [Hu Hu0] [Hn0 Hn] [Hd Hq]] Hb]. split; [split|done].
    + split; [done|]. intros j x b [Hj| ->]%Hlook; [by eapply Hat|done].
    + split; [|done]. rewrite zsum_app. cbn. lia.
    + split; [done|]. rewrite zsum_app. cbn. lia.
    + split; [done|]. intros i. rewrite Hq. split; intros (j & x & Hj & Hp & Hx).
      * exists j, x. split; [by apply lookup_app_l_Some|done].
      * apply Hlook in Hj as [Hj|E]; [by exists j, x|by rewrite E in Hx].
  - intros Hno j x [Hj| ->]%Hlook; [by eapply Hno|done].
Qed.

Lemma loaded_started g ws p inc : loaded_ok g ws → loaded_ok g (ws ++ [Worker p inc Starting]).
Proof.
  intros Hg j x a n v [Hj|[_ Hj]]%lookup_app_Some Hx; [by eapply Hg|].
  by apply list_lookup_singleton_Some in Hj as [_ <-].
Qed.

Lemma ended_leaving inc ph th : standing inc ph th → ended th → ph = Leaving.
Proof.
  intros Hs [r Hr]. destruct ph; cbn in Hs; destruct Hs as [_ Hat]; rewrite Hr in Hat; by inversion Hat.
Qed.

Lemma left_total ws : all_left ws → zsum added ws = 0.
Proof.
  intros [Hz Hl]. assert (zsum added ws = Z.of_nat rounds * zsum wk_inc ws) as ->; [|lia].
  clear Hz. induction ws as [|x ws IH]; [cbn; lia|]. rewrite !zsum_cons, IH.
  - unfold added. rewrite (Hl 0%nat x) by done. cbn [finished]. lia.
  - intros j y Hj. by apply (Hl (S j)).
Qed.

Lemma main_creates m w l ws th inc argv k p : run_inv m w (M_run l 0) ws →
  w_threads w !! m = Some th → blocked th = false → adds inc argv →
  at_main (M_run (l ++ [(p, inc)]) 0) (k p) → w_threads w !! p = None →
  run_inv m (resume m (Create argv) k p (set_thread p (enter argv) w))
    (M_run (l ++ [(p, inc)]) 0) (ws ++ [Worker p inc Starting]).
Proof.
  intros Hi Hm Hb [Hadd Haddb] Hk Hp. destruct Hi as [_ Ht Hs Hg Hld [-> _] Hlog].
  assert (m ≠ p) as Hmp by congruence. destruct Hg as [|Hg]; [done|].
  eapply (main_moves m _ _ _ th); cbn [w_threads w_sem w_global w_log set_thread set_w_threads];
    [by rewrite lookup_insert_ne|done|done|by apply threads_new|by apply sem_started| |
     by apply loaded_started| |].
  - right. rewrite zsum_app, Hg. f_equal. unfold added. cbn. lia.
  - cbn. rewrite fmap_app. split; [done|]. lia.
  - eapply log_silent; [done|by left|exact Hlog].
Qed.

(** The process waited for has ended. *)
Lemma main_waits m w l ws th n p inc k r w' : run_inv m w (M_run l n) ws →
  w_threads w !! m = Some th → blocked th = false → l !! n = Some (p, inc) →
  at_main (M_run l (S n)) (k r) → serve false m w (Wait_pid p) r w' →
  run_inv m (resume m (Wait_pid p) k r w') (M_run l (S n)) ws.
Proof.
  intros Hi Hm Hb Hn Hk Hserve. destruct Hi as [_ Ht Hs Hg Hld [-> Hleft] Hlog].
  apply list_lookup_fmap_Some in Hn as (x & E & Hx). injection E as -> ->.
  destruct (ti_standing _ _ _ Ht n x Hx) as (thx & Hthx & Hst).
  assert (w' = w ∧ wk_phase x = Leaving) as [-> Hxl].
  { inversion Hserve; subst; [|congruence|done]. split; [done|]. simplify_eq. by eapply ended_leaving. }
  eapply (main_moves m _ _ _ th); try done.
  - destruct Hg as [|]; [done|by right].
  - split; [done|]. intros j y Hj Hy. destruct (decide (j = n)) as [->|]; [by simplify_eq|].
    eapply Hleft; [|done]. lia.
  - eapply log_silent; [done|by left|exact Hlog].
Qed.

Lemma main_step m w st ws th c k r w' : run_inv m w st ws → w_threads w !! m = Some th →
  blocked th = false → now th = Do c k → serve false m w c r w' →
  ∃ st' ws', run_inv m (resume m c k r w') st' ws'.
Proof.
  intros Hi Hm Hb Hnow Hserve. pose proof Hi as [(th' & Hm' & _ & Hat) Ht Hs Hg Hld Hst Hlog].
  simplify_eq. rewrite Hnow in Hat.
  inversion Hat as [st' t k' Ha Hk E1 E2|n k' Hk E1 E2|k' Hk E1 E2|l inc argv k' Hadd _ Hk E1 E2
    |l n p inc k' Hn Hk E1 E2|l k' Hz Hk E1 E2|v k' Hk E1 E2|]; subst.
  - apply serve_quiet in Hserve as E; [|done]. subst w'. exists st, ws.
    eapply (main_moves m w _ _ th); try done.
    eapply log_silent; [by intros ? [= <-]| |exact Hlog].
    destruct st; [by left..|by right].
  - inversion Hserve as [n' a Ha| | | | | | | | | | | | | | | | | | | | | |]; subst; [|done].
    exists M_start, ws. eapply (main_moves m w' _ _ th); [done|done|by apply Hk|done..|].
    eapply log_silent; [done|by left|exact Hlog].
  - inversion Hserve; subst. cbn in Hst. subst ws. exists (M_run [] 0), [].
    eapply (main_moves m _ _ _ th); try done; [by right|].
    eapply log_silent; [done|by left|exact Hlog].
  - inversion Hserve as [| | | | | | | | | | | | | | |argv' p Hp Hrange| | | | | | |]; subst; [|done].
    exists (M_run (l ++ [(r, inc)]) 0), (ws ++ [Worker r inc Starting]).
    eapply main_creates; [exact Hi|done|done|done|by apply Hk|done].
  - exists (M_run l (S n)), ws. by eapply main_waits.
  - inversion Hserve; subst. destruct Hst as [-> Hleft]. destruct Hg as [|Hg]; [done|].
    assert (all_left ws) as Hall.
    { split.
      - rewrite <-Hz. clear. induction ws as [|x ws IH]; [done|]. cbn [fmap list_fmap].
        rewrite !zsum_cons, IH. done.
      - intros j x Hj. eapply Hleft; [|done]. rewrite length_fmap. by eapply lookup_lt_Some. }
    exists (M_final (w_global w')), ws. eapply (main_moves m w' _ _ th); try done.
    + by right.
    + split; [done|]. by rewrite Hg, left_total.
    + eapply log_silent; [done|by left|exact Hlog].
  - apply serve_quiet in Hserve as E; [|done]. subst w'. destruct Hst as [Hall ->].
    inversion Hserve; subst. exists M_over, ws. eapply (main_moves m w _ _ th); try done.
    + destruct Hg as [|Hg]; [done|by right].
    + destruct Hlog as [H1 _]. split.
      * intros t r' [Hin|Hin%list_elem_of_singleton]%elem_of_app Ht'; [by eapply H1|by injection Hin].
      * intros _. apply elem_of_app. right. by left.
Qed.

Lemma run_inv_step m w w' st ws : run_inv m w st ws → step false w w' →
  ∃ st' ws', run_inv m w' st' ws'.
Proof.
  intros Hi Hstep. pose proof Hi as [(thm & Hm & Hbm & Hatm) Ht _ _ _ _ _].
  inversion Hstep as [i th c k r w1 Hth Hb Hnow Hserve|i th a u s s' k Hth Hb Hnow Hw Htake]; subst;
    destruct (ti_known _ _ _ Ht i th Hth) as [->|(j & x & Hj & <-)].
  - by eapply main_step.
  - destruct (worker_step _ _ _ _ _ _ _ _ _ _ _ Hi Hj Hth Hb Hnow Hserve) as [ws' ?]. by exists st, ws'.
  - simplify_eq. rewrite Hnow in Hatm. by inversion Hatm.
  - destruct (worker_queues _ _ _ _ _ _ _ _ _ _ _ _ Hi Hj Hth Hb Hnow Hw Htake) as [ws' ?].
    by exists st, ws'.
Qed.

Lemma run_inv_steps m w w' st ws : run_inv m w st ws → rtc (step false) w w' →
  ∃ st' ws', run_inv m w' st' ws'.
Proof.
  intros Hi Hsteps. revert st ws Hi. induction Hsteps as [w|w w1 w' Hstep _ IH]; intros st ws Hi.
  - by exists st, ws.
  - destruct (run_inv_step _ _ _ _ _ Hi Hstep) as (st1 & ws1 & Hi1). by eapply IH.
Qed.

(** ** Nobody waits for ever *)

Lemma call_moves w i th c k r w' : w_threads w !! i = Some th → blocked th = false →
  now th = Do c k → serve false i w c r w' → ∃ w', step false w w'.
Proof. intros. eexists. by eapply step_call. Qed.

Lemma worker_can_move m w st ws j x : run_inv m w st ws → ws !! j = Some x →
  queued (wk_phase x) = false → (∃ w', step false w w') ∨ wk_phase x = Leaving ∧
    ∃ th, w_threads w !! wk_pid x = Some th ∧ ended th.
Proof.
  intros Hi Hj Hq. destruct (ti_standing _ _ _ (ri_threads _ _ _ _ Hi) j x Hj) as (th & Hth & Hs).
  apply standing_run in Hs as [Hb Hat]; [|done].
  inversion Hat as [ph c k Hc Hk E1 E2|k Hk E1 E2|a n k Hk E1 E2|a n k Hk E1 E2
    |a n v k Hk E1 E2|a n k Hk E1 E2|a k Hk E1 E2|r E1 E2].
  - left. destruct c; try done; (eapply call_moves; [done..|constructor]).
  - left. destruct (w_sem w) as [[a u s]|] eqn:Ew.
    + eapply call_moves; [done..|by eapply serve_open_again].
    + eapply (call_moves _ _ _ _ _ 1); [done..|by apply serve_open_new].
  - left. destruct (sem_of _ _ _ _ j x a Hi) as (u & s & Hw & _ & _); [done|by rewrite <-E1|].
    destruct (SemSpec.take (wk_pid x) s) as [[] s'] eqn:Et.
    + eapply call_moves; [done..|by eapply serve_wait].
    + eexists. by eapply step_wait.
  - left. eapply call_moves; [done..|constructor].
  - left. eapply call_moves; [done..|constructor].
  - left. destruct (sem_of _ _ _ _ j x a Hi) as (u & s & Hw & _ & _); [done|by rewrite <-E1|].
    destruct (give s) as [o s'] eqn:Eg. eapply call_moves; [done..|by eapply serve_post].
  - left. destruct (sem_of _ _ _ _ j x a Hi) as (u & s & Hw & _ & _); [done|by rewrite <-E1|].
    destruct (decide (u = 1)) as [->|].
    + eapply call_moves; [done..|by eapply serve_close_last].
    + eapply call_moves; [done..|eapply serve_close_keeps; [done|lia]].
  - right. split; [done|]. exists th. split; [done|by exists r].
Qed.

(** When all that are not queued have ended, nobody is queued. *)
Lemma nobody_queued m w st ws : run_inv m w st ws →
  (∀ j x, ws !! j = Some x → queued (wk_phase x) = false → wk_phase x = Leaving) →
  ∀ j x, ws !! j = Some x → queued (wk_phase x) = false.
Proof.
  intros Hi Hl j x Hj. destruct (queued (wk_phase x)) eqn:Hq; [exfalso|done].
  destruct (wk_phase x) as [|? ?|a n|? ?|? ? ?|? ?|] eqn:Ex; try done.
  destruct (sem_of _ _ _ _ j x a Hi) as (u & s & Hw & Hs & Hbusy); [done|by rewrite Ex|].
  destruct (so_queue _ _ _ _ Hs) as [_ Hin]. destruct (so_unit _ _ _ _ Hs) as [_ Hn].
  assert (wk_pid x ∈ waiting s) as Hx by (apply Hin; exists j, x; by rewrite Ex).
  rewrite Hbusy in Hn by (intros E; rewrite E in Hx; by apply elem_of_nil in Hx).
  rewrite zsum_zero in Hn; [done|]. intros i y Hy. cbn.
  destruct (queued (wk_phase y)) eqn:Ey; [by destruct (wk_phase y)|by rewrite (Hl i y Hy Ey)].
Qed.

(** There is a pid for a new process. *)
Lemma fresh_pid (ths : gmap Z thread) : Z.of_nat (size ths) < 2 ^ 30 →
  ∃ p, ths !! p = None ∧ 0 < p < 2 ^ 31.
Proof.
  intros Hs. destruct (decide (Forall (λ p, is_Some (ths !! p)) (seqZ 1 (Z.of_nat (size ths) + 1)))) as [Hf|Hf].
  - exfalso. assert (list_to_set (seqZ 1 (Z.of_nat (size ths) + 1)) ⊆ dom ths) as Hsub.
    { intros p Hp%elem_of_list_to_set. apply elem_of_dom. by eapply Forall_forall in Hf. }
    apply subseteq_size in Hsub. rewrite size_list_to_set, size_dom, length_seqZ in Hsub
      by apply NoDup_seqZ. lia.
  - apply not_Forall_Exists, Exists_exists in Hf as (p & Hp & Hn); [|apply _].
    apply elem_of_seqZ in Hp. exists p. split; [by apply eq_None_not_Some|lia].
Qed.

Lemma threads_size m ths ws : threads_inv m ths ws → (size ths ≤ S (length ws))%nat.
Proof.
  intros [Hn _ Hk]. rewrite <-size_dom. transitivity (size (list_to_set (m :: (wk_pid <$> ws)) : gset Z)).
  - apply subseteq_size. intros i [th Hi]%elem_of_dom. apply elem_of_list_to_set.
    destruct (Hk i th Hi) as [->|(j & x & Hj & <-)]; [by left|right].
    apply list_elem_of_lookup. exists j. by rewrite list_lookup_fmap, Hj.
  - rewrite size_list_to_set by done. cbn. by rewrite length_fmap.
Qed.

Lemma main_can_move m w st ws : run_inv m w st ws →
  (∀ j x, ws !! j = Some x → ∃ th, w_threads w !! wk_pid x = Some th ∧ ended th) →
  (∃ th, w_threads w !! m = Some th ∧ ended th) ∨ ∃ w', step false w w'.
Proof.
  intros Hi Hl. pose proof Hi as [(th & Hm & Hb & Hat) Ht _ _ _ Hst _].
  inversion Hat as [st' t k Ha Hk E1 E2|n k Hk E1 E2|k Hk E1 E2|l inc argv k Hadd Hlen Hk E1 E2
    |l n p inc k Hn Hk E1 E2|l k Hz Hk E1 E2|v k Hk E1 E2|r E1 E2].
  - right. eapply call_moves; [done..|constructor].
  - right. eapply (call_moves _ _ _ _ _ 1); [done..|by constructor].
  - right. eapply call_moves; [done..|constructor].
  - right. rewrite <-E1 in Hst. destruct Hst as [-> _]. rewrite length_fmap in Hlen.
    destruct (fresh_pid (w_threads w)) as (p & Hp & Hr); [pose proof (threads_size _ _ _ Ht); lia|].
    eapply call_moves; [done..|by apply (serve_create _ _ _ _ p)].
  - right. rewrite <-E1 in Hst. destruct Hst as [-> _].
    apply list_lookup_fmap_Some in Hn as (x & E & Hx). injection E as -> ->.
    destruct (Hl n x Hx) as (thx & Hthx & Hend).
    eapply (call_moves _ m); [exact Hm|done..|eapply serve_waited; [done|done|by left]].
  - right. eapply call_moves; [done..|constructor].
  - right. eapply call_moves; [done..|constructor].
  - left. exists th. split; [done|by exists r].
Qed.

Lemma all_or {A} (P : Prop) (Q : A → Prop) (l : list A) :
  (∀ j z, l !! j = Some z → P ∨ Q z) → P ∨ ∀ j z, l !! j = Some z → Q z.
Proof.
  induction l as [|z l IH]; intros Hl; [by right|].
  destruct (Hl 0%nat z) as [?|Hz]; [done|by left|].
  destruct IH as [?|IH]; [intros j z' Hj; by apply (Hl (S j))|by left|right].
  intros [|j] z' Hj; [by injection Hj as <-|by eapply IH].
Qed.

Lemma never_stuck m w st ws : run_inv m w st ws →
  (∃ th, w_threads w !! m = Some th ∧ ended th) ∨ ∃ w', step false w w'.
Proof.
  intros Hi. destruct (all_or (∃ w', step false w w')
    (λ x, queued (wk_phase x) = false → wk_phase x = Leaving ∧
       ∃ th, w_threads w !! wk_pid x = Some th ∧ ended th) ws) as [?|Hl]; [|by right|].
  { intros j x Hj. destruct (queued (wk_phase x)) eqn:Hq; [by right|].
    destruct (worker_can_move _ _ _ _ _ _ Hi Hj Hq) as [?|?]; [by left|by right]. }
  assert (∀ j x, ws !! j = Some x → queued (wk_phase x) = false) as Hnq.
  { eapply nobody_queued; [exact Hi|]. intros j x Hj Hq. by apply (Hl j x). }
  apply (main_can_move _ _ _ _ Hi). intros j x Hj. apply (Hl j x Hj), (Hnq j x Hj).
Qed.

(** ** Nobody runs for ever *)

(** The calls a process makes at most, with those of the processes it
    creates, each of which makes at most [W]. *)
Section bounds.
Variable W : nat.

Inductive bounded : nat → act Z → Prop :=
  | bd_done n r : bounded n (Done r)
  | bd_stuck n : bounded n Stuck
  | bd_call n c k : (∀ argv, c ≠ Create argv) → (∀ r, bounded n (k r)) → bounded (S n) (Do c k)
  | bd_create n argv k : bounded W (now (enter argv)) → (∀ r, bounded n (k r)) →
      bounded (S (W + n)) (Do (Create argv) k).

Ltac count := apply bd_call; [done|intros ?].

Lemma inc_rounds_bounded inc u a n b (f : unit → act Z) : u ≠ 0 → bounded b (f tt) →
  bounded (n * 11 + b) (act_bind f (inc_rounds n u a inc)).
Proof.
  intros Hu Hf. induction n as [|n IH]; [done|]. cbn [inc_rounds]. rewrite !decide_True by done. run.
  do 11 count. done.
Qed.

Lemma my_process_inc_bounded a0 a1 a2 a3 n inc u : text_satoi a1 = Some n → text_satoi a2 = Some inc →
  text_satoi a3 = Some u → rounds = Z.to_nat (u64 n) → 0 < u64 n → inc ≠ 0 → 0 < i8 u →
  bounded (S (rounds * 11 + 2)) (now (enter [a0; a1; a2; a3])).
Proof.
  intros H1 H2 H3 Hr Hn Hi Hu. unfold enter, my_process_inc. cbn [length now].
  rewrite decide_False by lia. rewrite H1, H2, H3. cbn. rewrite !decide_False by lia.
  rewrite decide_True by lia. apply bd_call; [done|]. intros a. run. destruct (decide (a = 0)).
  - rewrite Nat.add_succ_r. run. count. constructor.
  - unfold inc_loop. run. rewrite <-Hr. apply inc_rounds_bounded; [lia|]. rewrite decide_True by lia.
    run. do 2 count. constructor.
Qed.

Lemma test_sync_bounded a0 a1 a2 t1 t2 n u : text_satoi a1 = Some n → text_satoi a2 = Some u →
  text_shown a1 = Some t1 → text_shown a2 = Some t2 →
  rounds = Z.to_nat (u64 n) → 0 < u64 n → 0 < i8 u →
  W = S (rounds * 11 + 2) → bounded (rounds * 44 + 28) (_test_sync 3 [a0; a1; a2]).
Proof.
  intros H1 H2 T1 T2 Hr Hn Hu HW.
  assert (bounded W (now (enter [chars "test_sync_process_dec"; a1; chars "-1"; a2])) ∧
    bounded W (now (enter [chars "test_sync_process_inc"; a1; chars "1"; a2]))) as [Hd Hi].
  { rewrite HW. split; [eapply (my_process_inc_bounded _ _ _ _ n (-1) u)|eapply (my_process_inc_bounded _ _ _ _ n 1 u)];
      try done; by vm_compute. }
  replace (rounds * 44 + 28)%nat with
    (S (S (S (S (S (S (S (W + S (W + S (W + S (W + 6)))))))))))%nat by lia.
  clear HW.
  unfold _test_sync. rewrite decide_False by lia. run.
  do 2 count. destruct (decide _); [constructor|]. run.
  do 2 count. rewrite T1, T2. run. do 2 count.
  do 4 (apply bd_create; [done|intros ?]). do 6 count. constructor.
Qed.

Definition weight (c : sys) : nat := match c with Create _ => W | _ => 0 end.

Lemma bounded_call c k n r : bounded n (Do c k) → ∃ n', n = S (weight c + n') ∧ bounded n' (k r).
Proof.
  intros Hb. inversion Hb as [| |n' c' k' Hc Hk|n' argv k' He Hk]; subst; exists n'; [|by split].
  split; [|done]. destruct c; try done. by destruct (Hc argv).
Qed.

(** The processes of [w] make at most [b] more calls. *)
Definition funded (b : Z) (w : world) : Prop := ∃ bs : list (Z * nat),
  NoDup bs.*1 ∧ zsum (Z.of_nat ∘ snd) bs ≤ b ∧
  (∀ i, i ∈ bs.*1 → is_Some (w_threads w !! i)) ∧
  ∀ i th, w_threads w !! i = Some th → ∃ j n, bs !! j = Some (i, n) ∧ bounded n (now th).

Lemma funded_nonneg b w : funded b w → 0 ≤ b.
Proof.
  intros (bs & _ & Hb & _). etrans; [|exact Hb]. apply zsum_nonneg. intros y. cbn. lia.
Qed.

(** Process [i] has made a call; the rest has not changed. *)
Lemma funded_pays b w w' i th c k r : funded b w → w_threads w !! i = Some th →
  now th = Do c k →
  (∀ j, is_Some (w_threads w !! j) → is_Some (w_threads w' !! j)) →
  (∀ j th', w_threads w' !! j = Some th' → if decide (j = i) then now th' = k r else
     ∃ th, w_threads w !! j = Some th ∧ now th' = now th) →
  funded (b - 1 - Z.of_nat (weight c)) w'.
Proof.
  intros (bs & Hn & Hb & Hdom & Hbs) Hi Hnow Hmono Hrest.
  destruct (Hbs i th Hi) as (j & n & Hj & Hbd). rewrite Hnow in Hbd.
  destruct (bounded_call c k n r Hbd) as (n' & -> & Hbd').
  assert ((<[j := (i, n')]> bs).*1 = bs.*1) as E.
  { rewrite list_fmap_insert. apply list_insert_id. by rewrite list_lookup_fmap, Hj. }
  exists (<[j := (i, n')]> bs). rewrite E. split; [done|]. split; [|split].
  - rewrite (zsum_insert _ bs j (i, S (weight c + n'))) by done. cbn. lia.
  - intros j' Hj'. by apply Hmono, Hdom.
  - intros j' th' Hj'. specialize (Hrest j' th' Hj'). case_decide as Ei.
    + subst j'. exists j, n'. rewrite Hrest. split; [|done].
      apply list_lookup_insert_eq. by eapply lookup_lt_Some.
    + destruct Hrest as (th0 & Hth0 & ->). destruct (Hbs j' th0 Hth0) as (t & m & Ht & Hm).
      exists t, m. split; [|done]. rewrite list_lookup_insert_ne; [done|]. intros ->. congruence.
Qed.

(** A call creates a process, or leaves all of them where they are. *)
Lemma serve_create_or short i w c r w' : serve short i w c r w' →
  (∃ argv, c = Create argv ∧ w_threads w !! r = None ∧ w' = set_thread r (enter argv) w) ∨
  ∀ j th', w_threads w' !! j = Some th' → ∃ th, w_threads w !! j = Some th ∧ now th' = now th.
Proof.
  intros Hserve. inversion Hserve; subst; try (right; intros j th' Hj; by exists th').
  - right. destruct o as [p|]; [|intros j th' Hj; by exists th']. intros j th' Hj. cbn in Hj.
    apply lookup_alter_Some in Hj as [(<- & th & -> & ->)|[_ Hj]]; [by exists th|by exists th'].
  - left. by exists argv.
Qed.

Lemma funded_new b d w p th : funded b w → w_threads w !! p = None → bounded d (now th) →
  funded (b + Z.of_nat d) (set_thread p th w).
Proof.
  intros (bs & Hn & Hb & Hdom & Hbs) Hp Hd. exists ((p, d) :: bs). split; [|split; [|split]].
  - cbn. apply NoDup_cons. split; [|done]. intros Hin%Hdom. rewrite Hp in Hin. by destruct Hin.
  - rewrite zsum_cons. cbn. lia.
  - cbn. intros i [->|Hi]%elem_of_cons; [rewrite lookup_insert_eq; by eexists|].
    apply lookup_insert_is_Some'. right. by apply Hdom.
  - cbn. intros i th' [[<- <-]|[_ Hi]]%lookup_insert_Some; [by exists 0%nat, d|].
    destruct (Hbs i th' Hi) as (j & n & Hj & Hm). by exists (S j), n.
Qed.

Lemma funded_resume b w w1 i th c k r : funded b w → w_threads w !! i = Some th →
  now th = Do c k →
  (∀ j, is_Some (w_threads w !! j) → is_Some (w_threads w1 !! j)) →
  (∀ j th', w_threads w1 !! j = Some th' → ∃ th, w_threads w !! j = Some th ∧ now th' = now th) →
  funded (b - 1 - Z.of_nat (weight c)) (resume i c k r w1).
Proof.
  intros Hf Hi Hnow Hmono Hrest. eapply funded_pays; [done..| |].
  - intros j Hj%Hmono. cbn. by apply lookup_alter_is_Some.
  - intros j th' Hj. cbn in Hj. apply lookup_alter_Some in Hj as [(<- & th1 & _ & ->)|[Hne Hj]].
    + by rewrite decide_True.
    + rewrite decide_False by done. by apply Hrest.
Qed.

Lemma serve_keeps_threads short i w c r w' : serve short i w c r w' → ∀ j,
  is_Some (w_threads w !! j) → is_Some (w_threads w' !! j).
Proof.
  intros Hserve j Hj. inversion Hserve; subst; try done.
  - destruct o; [|done]. cbn. by apply lookup_alter_is_Some.
  - cbn. apply lookup_insert_is_Some'. by right.
Qed.

Lemma funded_mono b b' w : b ≤ b' → funded b w → funded b' w.
Proof. intros Hb (bs & Hn & Hs & Hr). exists bs. split; [done|]. split; [lia|done]. Qed.

Lemma funded_step short b w w' : funded b w → step short w w' → funded (b - 1) w'.
Proof.
  intros Hf Hstep.
  inversion Hstep as [i th c k r w1 Hth Hb Hnow Hserve|i th a u s s' k Hth Hb Hnow Hw Htake]; subst.
  - destruct (serve_create_or short i w c r w1 Hserve) as [(argv & -> & Hp & ->)|Hsame].
    + pose proof Hf as (bs & _ & _ & _ & Hbs). destruct (Hbs i th Hth) as (j0 & n0 & _ & Hbd).
      rewrite Hnow in Hbd. replace (b - 1) with (b + Z.of_nat W - 1 - Z.of_nat (weight (Create argv)))
        by (cbn [weight]; lia).
      apply (funded_resume _ (set_thread r (enter argv) w) _ i th).
      * apply funded_new; [done|done|]. inversion Hbd as [| |? ? ? Hc|]; subst; [by destruct (Hc argv)|done].
      * cbn. rewrite lookup_insert_ne; [done|congruence].
      * done.
      * done.
      * intros j th' Hj. by exists th'.
    + eapply funded_mono; [|by eapply (funded_resume b w w1 i th c k r); try done;
        intros j; eapply serve_keeps_threads]. lia.
  - replace (b - 1) with (b - 1 - Z.of_nat (weight (Sem_wait a))) by (cbn; lia).
    eapply (funded_pays b w _ i th (Sem_wait a) k 0); [done..| |].
    + intros j Hj. cbn. apply lookup_insert_is_Some'. by right.
    + intros j th' Hj. cbn in Hj. apply lookup_insert_Some in Hj as [[<- <-]|[Hne Hj]].
      * by rewrite decide_True.
      * rewrite decide_False by done. by exists th'.
Qed.
End bounds.
End protocol.

(** The parameters of a run with the semaphore. *)
Record sync_args (argv : list (list Z)) (n u : Z) : Prop := {
  sa_argv : ∃ a0 a1 a2, argv = [a0; a1; a2] ∧ text_satoi a1 = Some n ∧ text_satoi a2 = Some u ∧
    text_shown a1 = Some a1 ∧ text_shown a2 = Some a2;
  sa_positive : 0 < u64 n ∧ 0 < i8 u;
}.

Lemma start_inv m argv n u w : started m 3 argv w → sync_args argv n u →
  run_inv (Z.to_nat (u64 n)) m w M_start [].
Proof.
  intros (Et & El & Es) [(a0 & a1 & a2 & -> & H1 & H2 & T1 & T2) [Hn Hu]]. split.
  - exists (Thread (_test_sync 3 [a0; a1; a2]) false). rewrite Et, lookup_singleton_eq.
    do 2 (split; [done|]). by eapply test_sync_at.
  - split; [apply NoDup_singleton|done|]. rewrite Et. intros i th [<- _]%lookup_singleton_Some. by left.
  - by rewrite Es.
  - by left.
  - intros j x ? ? ? Hj. done.
  - done.
  - rewrite El. split; [intros t r ?%elem_of_nil; done|done].
Qed.

(** C7: With the semaphore, and a kernel that is short of nothing, every run of
    the test ends at zero however its processes are interleaved: any final
    value it prints is 0, and once the command has ended it was printed, the
    variable is 0 and the semaphore is closed. *)
Theorem sync_ends_at_zero m argv n u w w'
    (Hstart : started m 3 argv w) (Hargs : sync_args argv n u) (Hrun : rtc (step false) w w') :
  (∀ t r, (m, Print t, r) ∈ w_log w' → announces t = true → t = final_text 0) ∧
  (∀ th, w_threads w' !! m = Some th → ended th →
     (m, Print (final_text 0), 0) ∈ w_log w' ∧ w_global w' = 0 ∧ w_sem w' = None).
Proof.
  destruct (run_inv_steps _ _ _ _ _ _ (start_inv _ _ _ _ _ Hstart Hargs) Hrun) as (st & ws & Hi).
  destruct Hi as [(th & Hm & _ & Hat) Ht Hs Hg _ Hst [H1 H2]]. split; [done|].
  intros th' Hm' [r Hr]. simplify_eq. rewrite Hr in Hat. inversion Hat; subst.
  split; [by apply H2|]. cbn in Hst. split.
  - destruct Hg as [?| ->]; [done|]. by erewrite left_total.
  - destruct (w_sem w') as [[a v s]|]; [exfalso|done]. destruct Hs as [[_ [Hu Hu0] _ _] _].
    destruct Hst as [_ Hl]. rewrite zsum_zero in Hu; [lia|]. intros j x Hj. cbn. by rewrite (Hl j x).
Qed.

Lemma start_funded m argv n u w : started m 3 argv w → sync_args argv n u →
  funded (S (Z.to_nat (u64 n) * 11 + 2)) (44 * u64 n + 28) w.
Proof.
  intros (Et & _) [(a0 & a1 & a2 & -> & H1 & H2 & T1 & T2) [Hn Hu]].
  exists [(m, Z.to_nat (u64 n) * 44 + 28)%nat]. split; [apply NoDup_singleton|]. split; [|split].
  - cbn. lia.
  - intros i ->%list_elem_of_singleton. rewrite Et, lookup_singleton_eq. by eexists.
  - rewrite Et. intros i th [<- <-]%lookup_singleton_Some. exists 0%nat. eexists. split; [done|].
    by eapply test_sync_bounded.
Qed.

Lemma run_ends m W rounds b : ∀ w st ws, run_inv rounds m w st ws → funded W b w →
  ∃ w' th, rtc (step false) w w' ∧ w_threads w' !! m = Some th ∧ ended th.
Proof.
  assert (∀ k b w st ws, (Z.to_nat b < k)%nat → run_inv rounds m w st ws → funded W b w →
    ∃ w' th, rtc (step false) w w' ∧ w_threads w' !! m = Some th ∧ ended th) as Hk; [|by eauto].
  clear b. intros k. induction k as [|k IH]; intros b w st ws Hb Hi Hf; [lia|].
  destruct (never_stuck _ _ _ _ _ Hi) as [(th & Hm & He)|[w1 Hstep]]; [by exists w, th|].
  destruct (run_inv_step _ _ _ _ _ _ Hi Hstep) as (st1 & ws1 & Hi1).
  apply (funded_step _ _ _ _ _ Hf) in Hstep as Hf1. pose proof (funded_nonneg _ _ _ Hf1).
  destruct (IH (b - 1) w1 st1 ws1) as (w' & th & Hrun & ?); [lia|done|done|].
  exists w', th. split; [by eapply rtc_l|done].
Qed.

(** C8: No run of the test goes on for ever (a process makes at most 11 calls
    a round), even when the kernel is short of memory; and with a kernel that
    is not, it is never stuck: from every state it reaches, the command can
    still come to its end. *)
Theorem sync_terminates m argv n u w (Hstart : started m 3 argv w) (Hargs : sync_args argv n u) :
  (∀ short k w', nsteps (step short) k w w' → Z.of_nat k ≤ 44 * u64 n + 28) ∧
  (∀ w', rtc (step false) w w' → ∃ w'' th, rtc (step false) w' w'' ∧
     w_threads w'' !! m = Some th ∧ ended th).
Proof.
  pose proof (start_funded _ _ _ _ _ Hstart Hargs) as Hf. split.
  - intros short k w' Hk. revert Hf. generalize (44 * u64 n + 28). clear Hstart Hargs.
    induction Hk as [w|k w w1 w' Hstep _ IH]; intros b Hf; [by eapply funded_nonneg|].
    apply (funded_step _ _ _ _ _ Hf), IH in Hstep. lia.
  - intros w' Hrun. pose proof (start_inv _ _ _ _ _ Hstart Hargs) as Hi.
    assert (∃ b, funded (S (Z.to_nat (u64 n) * 11 + 2)) b w') as [b Hf'].
    { clear Hstart Hargs Hi. revert Hf. generalize (44 * u64 n + 28).
      induction Hrun as [w|w w1 w' Hstep _ IH]; intros b Hf; [by exists b|].
      eapply IH. by eapply funded_step. }
    destruct (run_inv_steps _ _ _ _ _ _ Hi Hrun) as (st & ws & Hi').
    by eapply run_ends.
Qed.

(** ** Concrete runs *)

Definition sync_argv (n flag : string) : list (list Z) := [chars "test_sync"; chars n; chars flag].

Lemma one_round : sync_args (sync_argv "1" "1") 1 1.
Proof.
  split; [|done]. eexists _, _, _. split; [done|]. repeat split; by vm_compute.
Qed.
Lemma one_round_starts flag : started 1 3 (sync_argv "1" flag) (start_world (sync_argv "1" flag)).
Proof. done. Qed.

(** Each process to its end, in the order of their creation; and the command
    again after them. *)
Definition in_turn : list (Z * nat) := [(1, 50%nat); (2, 50%nat); (3, 50%nat); (4, 50%nat); (5, 50%nat); (1, 50%nat)].
(** The second process has loaded the variable when the third runs. *)
Definition overtaken : list (Z * nat) :=
  [(1, 50%nat); (2, 4%nat); (3, 50%nat); (2, 50%nat); (4, 50%nat); (5, 50%nat); (1, 50%nat)].

Lemma sync_ends_at_zero_witness : let w' := play in_turn (start_world (sync_argv "1" "1")) in
  ((∀ t r, (1, Print t, r) ∈ w_log w' → announces t = true → t = final_text 0) ∧
   (∀ th, w_threads w' !! 1 = Some th → ended th →
     (1, Print (final_text 0), 0) ∈ w_log w' ∧ w_global w' = 0 ∧ w_sem w' = None)) ∧
  finals w' = [final_text 0].
Proof.
  split; [|by vm_compute].
  apply (sync_ends_at_zero 1 (sync_argv "1" "1") 1 1 (start_world (sync_argv "1" "1")));
    [apply one_round_starts|apply one_round|apply sync_play_sound].
Defined.

Lemma sync_terminates_witness : let w := start_world (sync_argv "1" "1") in
  (∀ short k w', nsteps (step short) k w w' → Z.of_nat k ≤ 44 * u64 1 + 28) ∧
  (∀ w', rtc (step false) w w' → ∃ w'' th, rtc (step false) w' w'' ∧
     w_threads w'' !! 1 = Some th ∧ ended th).
Proof.
  apply (sync_terminates 1 (sync_argv "1" "1") 1 1);
    [apply one_round_starts|apply one_round].
Defined.

(** Without the semaphore an increment can be lost: there is a run of the
    test that ends at -1. *)
Theorem race_without_semaphore : ∃ w w',
  started 1 3 (sync_argv "1" "0") w ∧ rtc (step false) w w' ∧
  (1, Print (final_text (-1)), 0) ∈ w_log w'.
Proof.
  exists (start_world (sync_argv "1" "0")), (play overtaken (start_world (sync_argv "1" "0"))).
  split; [apply one_round_starts|]. split; [apply sync_play_sound|].
  apply list_elem_of_lookup. exists 55%nat. vm_compute. reflexivity.
Qed.

(** *** A kernel that is short of memory *)

Lemma serve_short i w c r w' : serve false i w c r w' → serve true i w c r w'.
Proof. intros Hserve. inversion Hserve; subst; try done; by econstructor. Qed.

Lemma step_short w w' : step false w w' → step true w w'.
Proof.
  intros Hstep. inversion Hstep; subst; [|by eapply step_wait].
  eapply step_call; [done..|by apply serve_short].
Qed.

(** Process [i] is refused a place in the queue. *)
Definition refuse_run (i : Z) (w : world) : world :=
  match w_threads w !! i with
  | Some th => match now th with Do c k => resume i c k (-1) w | _ => w end
  | None => w
  end.

Definition must_wait (i : Z) (w : world) : bool :=
  match w_threads w !! i, w_sem w with
  | Some (Thread (Do (Sem_wait a) _) false), Some (Shared b _ s) =>
      bool_decide (a = b ∧ units s = 0)
  | _, _ => false
  end.

Lemma refuse_sound i w : must_wait i w = true → step true w (refuse_run i w).
Proof.
  unfold must_wait, refuse_run. destruct (w_threads w !! i) as [[[|[]|] []]|] eqn:Hi; try done.
  destruct (w_sem w) as [[b u s]|] eqn:Hw; [|done]. intros [-> Hs]%bool_decide_eq_true.
  eapply step_call; [done..|]. eapply serve_wait_refused; [done|done|].
  unfold SemSpec.take. by rewrite decide_True.
Qed.

(** The first process is between its load and its store when the second is
    refused, and goes on all the same. *)
Definition inside_alone : world :=
  play [(1, 50%nat); (2, 6%nat); (3, 1%nat)] (start_world (sync_argv "1" "1")).
Definition refused : list (Z * nat) := [(3, 50%nat); (2, 50%nat); (4, 50%nat); (5, 50%nat); (1, 50%nat)].

(** The result of [my_sem_wait] is not looked at: with no memory for the queue
    of the semaphore, a process goes on without its unit. *)
Lemma refused_wait_races : ∃ w w',
  started 1 3 (sync_argv "1" "1") w ∧ rtc (step true) w w' ∧
  (1, Print (final_text (-1)), 0) ∈ w_log w'.
Proof.
  exists (start_world (sync_argv "1" "1")), (play refused (refuse_run 3 inside_alone)).
  split; [apply one_round_starts|]. split.
  - transitivity inside_alone.
    { eapply rtc_subrel; [apply step_short|apply sync_play_sound]. }
    eapply rtc_l; [|eapply rtc_subrel; [apply step_short|apply sync_play_sound]].
    apply refuse_sound. by vm_compute.
  - apply list_elem_of_lookup. exists 71%nat. vm_compute. reflexivity.
Qed.
