(* ===== verification/Ps.v ===== *)
(** * The table of processes ([Userland/Shell/commands/ps.c])

    [ps] asks the kernel for the records of the processes and prints the
    live ones in columns as wide as their longest entry.  The reference
    ([ps_table]) lays the columns out one by one. *)

From S2P Require Import Prelude Strings Monad Numerals UserString UserStdio Libsys Lib Commands CommandFacts.

Definition MAX_PROCESSES : Z := 64.
(** [ProcessState] *)
Definition READY : Z := 0.
Definition RUNNING : Z := 1.
Definition BLOCKED : Z := 2.
Definition TERMINATED : Z := 3.

(** The fields of record [i] of the array at [a]. *)
Definition INFO_SIZE : Z := 72.   (* sizeof(ProcessInfo) *)
Definition pid_at (a i : Z) : Z := a + i * INFO_SIZE.
Definition ppid_at (a i : Z) : Z := a + i * INFO_SIZE + 4.
Definition name_at (a i : Z) : Z := a + i * INFO_SIZE + 8.
Definition state_at (a i : Z) : Z := a + i * INFO_SIZE + 40.
Definition priority_at (a i : Z) : Z := a + i * INFO_SIZE + 64.
Definition ground_at (a i : Z) : Z := a + i * INFO_SIZE + 68.

(** [while (num > 0)]; an [int] has at most ten digits. *)
Fixpoint digit_count_loop (fuel : nat) (num count : Z) : option Z :=
  match fuel with
  | O => None
  | S fuel => if decide (0 < num) then digit_count_loop fuel (num / 10) (count + 1) else Some count
  end.

Definition count_digits (num : Z) : option Z :=
  if decide (num = 0) then Some 1
  else
    '(count, num) ← (if decide (num < 0) then n ← int_ok (- num); Some (1, n) else Some (0, num));
    digit_count_loop 11 num count.

Section ps.
Context `{Kernel}.
Variables (fuel : nat) (lit : list Z → Z) (local : Z).   (* [process_info] is at [local] *)
Abbreviation M := (K program).

(** [count] turns, none when it is negative. *)
Fixpoint spaces_loop (n : nat) : M unit :=
  match n with O => mret tt | S n => _ ← say fuel lit (chars " "); spaces_loop n end.
Definition print_spaces (count : Z) : M unit := spaces_loop (Z.to_nat count).

Fixpoint dashes (n : nat) : M unit :=
  match n with O => mret tt | S n => _ ← say fuel lit (chars "-"); dashes n end.

(** [process_info[i].pid >= 0 && process_info[i].state != TERMINATED] *)
Definition listed (i : Z) : M bool :=
  pid ← read_int (pid_at local i);
  if decide (pid < 0) then mret false
  else state ← read_int (state_at local i); mret (bool_decide (u32 state ≠ TERMINATED)).

Definition strlen_at (a : Z) : M Z := user (λ m, UserString.strlen m a).

(** The first pass: the widths from record [i] on. *)
Fixpoint widths (n : nat) (i : Z) (w : Z * Z * Z) : M (Z * Z * Z) :=
  match n with
  | O => mret w
  | S n =>
      let '(max_pid_width, max_ppid_width, max_name_width) := w in
      l ← listed i;
      w ← (if l : bool then
             pid ← read_int (pid_at local i);
             pid_width ← kopt (count_digits pid);
             ppid ← read_int (ppid_at local i);
             ppid_width ← kopt (count_digits ppid);
             len ← strlen_at (name_at local i);
             let name_len := i32 len in
             mret (if decide (max_pid_width < pid_width) then pid_width else max_pid_width,
                   if decide (max_ppid_width < ppid_width) then ppid_width else max_ppid_width,
                   if decide (max_name_width < name_len) then name_len else max_name_width)
           else mret w);
      widths n (i + 1) w
  end.

Definition state_str (state : Z) : list Z :=
  if decide (state = READY) then chars "READY"
  else if decide (state = RUNNING) then chars "RUNNING"
  else if decide (state = BLOCKED) then chars "BLOCKED" else chars "UNK".

(** [printf("%d", num)] and [print_spaces(width - count_digits(num) + extra)]. *)
Definition print_padded (num width extra : Z) : M unit :=
  _ ← printf fuel (lit (chars "%d")) [num];
  digits ← kopt (count_digits num);
  print_spaces (width - digits + extra).

Definition print_process (i : Z) (w : Z * Z * Z) : M unit :=
  let '(max_pid_width, max_ppid_width, max_name_width) := w in
  state ← read_int (state_at local i);
  let state_str := lit (state_str (u32 state)) in
  ground ← read_int (ground_at local i);
  let fg_bg := lit (if decide (ground = 1) then chars "FG" else chars "BG") in
  pid ← read_int (pid_at local i);
  _ ← print_padded pid max_pid_width 2;
  ppid ← read_int (ppid_at local i);
  _ ← print_padded ppid max_ppid_width 2;
  _ ← printf fuel (lit (chars "%s")) [name_at local i];
  len ← strlen_at (name_at local i);
  _ ← print_spaces (max_name_width - i32 len + 2);
  _ ← printf fuel (lit (chars "%s")) [state_str];
  len ← strlen_at state_str;
  _ ← print_spaces (11 - i32 len);
  priority ← read_int (priority_at local i);
  _ ← print_padded priority 10 0;
  printf fuel (lit (nl "%s")) [fg_bg].

Fixpoint print_processes (n : nat) (i : Z) (w : Z * Z * Z) : M unit :=
  match n with
  | O => mret tt
  | S n =>
      l ← listed i;
      _ ← (if l : bool then print_process i w else mret tt);
      print_processes n (i + 1) w
  end.

Definition green_pid : list Z := 27 :: chars "[0;32mPID".
Definition last_titles : list Z := nl "State      Priority  FG/BG" ++ 27 :: chars "[0m".

Definition _ps (argc : Z) (argv : list Z) : M Z :=
  if decide (1 < argc) then _ ← complain fuel lit (nl "Usage: ps"); mret 1
  else
    _ ← wr_chars local (replicate (Z.to_nat (MAX_PROCESSES * INFO_SIZE)) 0);
    r ← ps local;
    if decide (r ≠ 0) then
      _ ← complain fuel lit (nl "Error: Failed to get process information"); mret (-1)
    else
      let n := Z.to_nat MAX_PROCESSES in
      w ← widths n 0 (3, 4, 4);
      let '(max_pid_width, max_ppid_width, max_name_width) := w in
      _ ← say fuel lit green_pid;
      _ ← print_spaces (max_pid_width - 1);
      _ ← say fuel lit (chars "PPID");
      _ ← print_spaces (max_ppid_width - 2);
      _ ← say fuel lit (chars "Name");
      _ ← print_spaces (max_name_width - 2);
      _ ← say fuel lit last_titles;
      total ← kopt (int_ok (max_pid_width + max_ppid_width + max_name_width + 35));
      _ ← dashes (Z.to_nat total);
      _ ← say fuel lit [10];
      _ ← print_processes n 0 w;
      mret 0.
End ps.

(** ** The reference *)

Record process := Process {
  p_pid : Z; p_ppid : Z; p_name : list Z; p_state : Z; p_priority : Z; p_ground : Z;
}.

Definition decimal (v : Z) : list Z := number_text 10 v.
Definition pad (n : Z) : list Z := replicate (Z.to_nat n) 32.
(** A column [w] wide, and the two spaces after it. *)
Definition column (w : Z) (t : list Z) : list Z := t ++ pad (w - Z.of_nat (length t) + 2).
Definition width (least : Z) (ts : list (list Z)) : Z :=
  foldl (λ w t, Z.max w (Z.of_nat (length t))) least ts.

Definition row (w : Z * Z * Z) (r : process) : list Z :=
  column w.1.1 (decimal (p_pid r)) ++ column w.1.2 (decimal (p_ppid r)) ++ column w.2 (p_name r) ++
  column 9 (state_str (p_state r)) ++ column 8 (decimal (p_priority r)) ++
  (if decide (p_ground r = 1) then chars "FG" else chars "BG") ++ [10].

Definition ps_widths (rs : list process) : Z * Z * Z :=
  (width 3 (decimal ∘ p_pid <$> rs), width 4 (decimal ∘ p_ppid <$> rs), width 4 (p_name <$> rs)).

Definition ps_table (rs : list process) : list Z :=
  let w := ps_widths rs in
  column w.1.1 (chars "PID") ++ column w.1.2 (chars "PPID") ++ column w.2 (chars "Name") ++
  column 9 (chars "State") ++ column 8 (chars "Priority") ++ chars "FG/BG" ++ [10] ++
  replicate (Z.to_nat (w.1.1 + w.1.2 + w.2 + 35)) 45 ++ [10] ++ concat (row w <$> rs).

(** ** Programs that print

    From a program whose memory is [m0]: what a computation answers and the
    text it prints.  Colours may change on the way. *)

Definition display_call (c : call) : Prop :=
  match c with Write fd _ => fd = FD_STDOUT | Sys _ _ => False | _ => True end.
Definition display_text (c : call) : list Z := match c with Write _ t => t | _ => [] end.

Section displays.
Variables (fuel : nat) (m0 : mem).
Hypothesis Hfuel : (size m0 < fuel)%nat.
Implicit Types (p : program) (t l : list Z).

Definition on_memory p : Prop := u_mem p = m0 ∧ length (u_buffer p) = 64%nat.
Definition shown t p p' : Prop := on_memory p' ∧
  ∃ cs, u_calls p' = u_calls p ++ cs ∧ Forall display_call cs ∧ concat (display_text <$> cs) = t.
Definition displays {A} (c : K program A) (r : A) t : Prop := ∀ p (Q : A → program → Prop),
  on_memory p → (∀ p', shown t p p' → Q r p') → wp false c Q p.

Lemma displays_ret {A} (r : A) : displays (mret r) r [].
Proof.
  intros p Q Hp HQ. wp_step. apply HQ. split; [done|]. exists []. by rewrite app_nil_r.
Qed.

Lemma displays_bind {A B} (c : K program A) (f : A → K program B) a b t1 t2 :
  displays c a t1 → displays (f a) b t2 → displays (x ← c; f x) b (t1 ++ t2).
Proof.
  intros H1 H2 p Q Hp HQ. wp_step. apply H1; [done|]. intros p1 [Hp1 (cs1 & E1 & F1 & <-)].
  apply H2; [done|]. intros p2 [Hp2 (cs2 & E2 & F2 & <-)]. apply HQ. split; [done|].
  exists (cs1 ++ cs2). rewrite E2, E1, <-app_assoc. split; [done|].
  split; [by apply Forall_app|]. by rewrite fmap_app, concat_app.
Qed.

(** A step that prints nothing. *)
Lemma displays_quiet {A B} (c : K program A) (f : A → K program B) a b t :
  displays c a [] → displays (f a) b t → displays (x ← c; f x) b t.
Proof. intros H1 H2. apply (displays_bind _ _ _ _ _ _ H1 H2). Qed.

Lemma displays_kopt {A} (o : option A) a : o = Some a → displays (kopt o) a [].
Proof. intros ->. apply displays_ret. Qed.

Lemma displays_user {A} (f : mem → option A) a : f m0 = Some a → displays (user f) a [].
Proof.
  intros E p Q [Hm Hb] HQ. unfold user. wp_step. wp_step. rewrite Hm. eapply wp_kopt; [exact E|].
  apply HQ. split; [done|]. exists []. by rewrite app_nil_r.
Qed.

Lemma displays_rd a v : m0 !! a = Some v → displays (rd a) v [].
Proof.
  intros E p Q [Hm Hb] HQ. eapply wp_deref; [by rewrite Hm|]. apply HQ. split; [done|].
  exists []. by rewrite app_nil_r.
Qed.

Lemma displays_call c : display_call c → displays (syscall c) tt (display_text c).
Proof.
  intros Hc p Q Hp HQ. apply wp_modify, HQ. split; [done|]. exists [c]. split; [done|].
  split; [by constructor|]. cbn. by rewrite app_nil_r.
Qed.

Lemma displays_colour c : display_call c → display_text c = [] → displays (syscall c) tt [].
Proof. intros Hc <-. by apply displays_call. Qed.

Lemma displays_write t : displays (sys_write FD_STDOUT t) tt t.
Proof. by apply (displays_call (Write FD_STDOUT t)). Qed.

Lemma displays_printf a ps args text : prints_all m0 ps args text → cstr m0 a (concat (spell <$> ps)) →
  displays (printf fuel a args) tt text.
Proof.
  intros Hp Hc p Q [Hm Hb] HQ. eapply wp_vfprintf; rewrite ?Hm; [exact Hp|done..|].
  intros p' (Hm' & _ & Hb' & ws & Ew & Et). apply HQ. split; [split; congruence|].
  exists (Write FD_STDOUT <$> ws). split; [done|]. split; [by apply Forall_fmap, Forall_true|].
  rewrite <-list_fmap_compose. rewrite <-Et. f_equal. apply list_fmap_id.
Qed.

Lemma displays_printf_d a num : cstr m0 a (chars "%d") → - 2 ^ 31 < num < 2 ^ 31 →
  displays (printf fuel a [num]) tt (decimal num).
Proof.
  intros Hc Hn. assert (i32 num = num) as E by (apply wraps_small; lia).
  apply (displays_printf a [P_int 10]); [|done]. unfold decimal. rewrite <-E at 2.
  rewrite <-(app_nil_r (number_text _ _)).
  apply (prints_cons _ _ _ [num]); [|constructor]. constructor; [set_solver|lia].
Qed.

Lemma displays_printf_s a q l t : cstr m0 a (chars "%s" ++ t) → Forall plain t →
  cstr m0 q l → Forall plain l → 0 ≤ q < 2 ^ 64 → displays (printf fuel a [q]) tt (l ++ t).
Proof.
  intros Hc Ht Hl Hpl Hq. apply (displays_printf a (P_s :: (P_char <$> t) ++ [])).
  - apply (prints_cons _ _ _ [q]); [constructor; [by rewrite wrapu_small|done]|].
    rewrite <-(app_nil_r t) at 2. apply prints_text; [done|constructor].
  - cbn [fmap list_fmap concat]. by rewrite spell_text, app_nil_r.
Qed.

Lemma displays_strlen a l : cstr m0 a l → displays (strlen_at a) (Z.of_nat (length l)) [].
Proof.
  intros Hc. apply displays_user. unfold UserString.strlen.
  rewrite (strlen_loop_spec m0 l); [done|by rewrite Z.add_0_r|by eapply cstr_fuel].
Qed.

(** *** Formats with escapes *)

Lemma displays_ansi_prop prop : displays (setANSIProp prop) tt [].
Proof.
  unfold setANSIProp. set (prop' := if bool_decide _ then _ else _). clearbody prop'.
  destruct (decide (prop' = 0)).
  { apply (displays_quiet _ _ tt); by apply displays_colour. }
  destruct (list_find _ _) as [[_ [_ color]]|]; [|apply displays_ret].
  by destruct (bool_decide _); apply displays_colour.
Qed.

Lemma displays_ansi_loop string rest l : ∀ n i prop, cstr m0 (string + i) (l ++ 109 :: rest) →
  109 ∉ l → (length l < n)%nat →
  displays (ansi_loop n string i prop) (i + Z.of_nat (length l) + 1) [].
Proof.
  induction l as [|c l IH]; intros [|n] i prop Hc Hl Hn; cbn [length] in *; try lia;
    cbn [app ansi_loop] in *; apply cstr_at in Hc as [Hc Hrest];
    apply (displays_quiet _ _ _ _ _ (displays_rd _ _ Hc)).
  - rewrite (decide_True (P := _ ∨ _)) by auto. apply (displays_quiet _ _ 0).
    { apply (displays_quiet _ _ tt); [apply displays_ansi_prop|apply displays_ret]. }
    rewrite decide_True by done. replace (i + Z.of_nat 0 + 1) with (i + 1) by lia. apply displays_ret.
  - apply not_elem_of_cons in Hl as [Hc9 Hl].
    assert (∃ prop', displays (if decide (c = 59 ∨ c = 109) then _ ← setANSIProp prop; mret 0
      else mret (u8 (prop * 10 + (c - 48)))) prop' []) as [prop' Hp].
    { destruct (decide _); eexists; [|apply displays_ret].
      apply (displays_quiet _ _ tt); [apply displays_ansi_prop|apply displays_ret]. }
    apply (displays_quiet _ _ _ _ _ Hp). rewrite decide_False by done.
    replace (i + Z.of_nat (S (length l)) + 1) with (i + 1 + Z.of_nat (length l) + 1) by lia.
    apply IH; [done|done|lia].
Qed.

Lemma displays_escape sub n format args i c l rest t :
  cstr m0 (format + i) (27 :: 91 :: c :: l ++ 109 :: rest) → 109 ∉ c :: l →
  displays (format_loop sub n FD_STDOUT format args (i + Z.of_nat (length l) + 4)) tt t →
  displays (format_loop sub (S n) FD_STDOUT format args i) tt t.
Proof.
  intros Hc Hl Ht. pose proof Hc as [H0 Hc1]%cstr_at. pose proof Hc1 as [H1 Hc2]%cstr_at.
  replace (format + (i + 1 + 1)) with (format + (i + 2)) in Hc2 by lia.
  pose proof Hc2 as [H2 Hc3]%cstr_at.
  assert (c ≠ 0) as Hc0 by (by apply cstr_cons in Hc2 as (_ & ? & _)).
  cbn [format_loop]. apply (displays_quiet _ _ _ _ _ (displays_rd _ _ H0)).
  rewrite decide_False, decide_True by done. apply (displays_quiet _ _ tt); [apply displays_write|].
  apply (displays_quiet _ _ (i + Z.of_nat (length l) + 4)); [|done].
  unfold parseANSI. apply (displays_quiet _ _ _ _ _ (displays_rd _ _ H1)).
  rewrite decide_False by tauto. apply (displays_quiet _ _ _ _ _ (displays_rd _ _ H2)).
  rewrite decide_False by done. apply (displays_quiet _ _ m0).
  { intros p Q Hp HQ. apply wp_gets. destruct Hp as [<- Hb]. apply HQ. split; [done|].
    exists []. by rewrite app_nil_r. }
  replace (i + Z.of_nat (length l) + 4) with (i + 2 + Z.of_nat (length (c :: l)) + 1) by (cbn [length]; lia).
  apply (displays_ansi_loop _ rest); [done|done|]. apply cstr_fuel in Hc2.
  cbn [length] in *. rewrite length_app in Hc2. cbn [length] in *. lia.
Qed.

Lemma displays_plain sub args format rest t l : ∀ n i, cstr m0 (format + i) (l ++ rest) → Forall plain l →
  displays (format_loop sub n FD_STDOUT format args (i + Z.of_nat (length l))) tt t →
  displays (format_loop sub (length l + n) FD_STDOUT format args i) tt (l ++ t).
Proof.
  induction l as [|c l IH]; intros n i Hc Hl Ht; cbn [length Nat.add app] in *.
  { by rewrite Z.add_0_r in Ht. }
  apply cstr_at in Hc as [Hc Hrest]. apply Forall_cons in Hl as [(H1 & H2 & H3) Hl].
  cbn [format_loop]. apply (displays_quiet _ _ _ _ _ (displays_rd _ _ Hc)).
  rewrite !decide_False by done. apply (displays_bind _ _ tt _ [c] (l ++ t)); [apply displays_write|].
  apply IH; [done|done|]. by replace (i + 1 + Z.of_nat (length l)) with (i + Z.of_nat (S (length l))) by lia.
Qed.

Lemma displays_end sub n format args i : m0 !! (format + i) = Some 0 →
  displays (format_loop sub (S n) FD_STDOUT format args i) tt [].
Proof.
  intros E. cbn [format_loop]. apply (displays_quiet _ _ _ _ _ (displays_rd _ _ E)).
  rewrite decide_True by done. apply displays_ret.
Qed.
End displays.

Create HintDb displays.
#[export] Hint Resolve displays_ret displays_kopt displays_user displays_strlen displays_write : displays.
(** A step that prints nothing, found among the lemmas. *)
Ltac quietly := eapply displays_quiet; [solve [eauto with displays]|].

(** ** The digits *)

Lemma digit_count_loop_spec f : ∀ k g num count, 0 < num < 10 ^ Z.of_nat k → (k < f)%nat → (k < g)%nat →
  digit_count_loop f num count = Some (count + Z.of_nat (length (numeral g 10 num))).
Proof.
  induction f as [|f IH]; intros k g num count Hn Hf Hg; [lia|].
  destruct g as [|g]; [lia|]. cbn [digit_count_loop numeral]. rewrite decide_True by lia.
  destruct k as [|k]; [cbn in Hn; lia|]. rewrite Nat2Z.inj_succ, Z.pow_succ_r in Hn by lia.
  pose proof (Z.div_pos num 10). case_decide as E.
  - rewrite E. destruct f; [lia|]. cbn. done.
  - rewrite (IH k g); [|split; [lia|apply Z.div_lt_upper_bound; lia]|lia..].
    rewrite length_app. cbn [length]. f_equal. lia.
Qed.

(** The width of a number is that of its notation. *)
Lemma count_digits_spec num : - 2 ^ 31 < num < 2 ^ 31 →
  count_digits num = Some (Z.of_nat (length (decimal num))).
Proof.
  intros Hn. unfold count_digits, decimal, number_text. rewrite length_app, length_fmap.
  destruct (decide (num = 0)) as [->|Hne]; [done|].
  destruct (decide (num < 0)) as [Hneg|Hpos]; cbn [length].
  - unfold int_ok. rewrite decide_True by lia. cbn [mbind option_bind].
    rewrite (digit_count_loop_spec 11 10 65) by lia. rewrite Z.abs_neq by lia. f_equal. lia.
  - cbn [mbind option_bind]. rewrite (digit_count_loop_spec 11 10 65) by lia. by rewrite Z.abs_eq by lia.
Qed.

#[export] Hint Resolve count_digits_spec : displays.

Lemma decimal_short num : - 2 ^ 31 < num < 2 ^ 31 → 0 < Z.of_nat (length (decimal num)) ≤ 11.
Proof.
  intros Hn. unfold decimal, number_text. rewrite length_app, length_fmap.
  pose proof (numeral_short 65 10 10 (Z.abs num)) as Hs.
  assert (0 < length (numeral 65 10 (Z.abs num)))%nat.
  { cbn [numeral]. case_decide; rewrite ?length_app; cbn [length]; lia. }
  case_decide; cbn [length]; lia.
Qed.

(** ** The table is printed *)

Section table.
Context (k : Kernel) (fuel : nat) (lit : list Z → Z) (local : Z) (m0 : mem).
Hypothesis Hfuel : (size m0 < fuel)%nat.

Definition texts : list (list Z) :=
  [chars " "; chars "-"; chars "%d"; chars "%s"; nl "%s"; chars "PPID"; chars "Name"; green_pid; last_titles;
   [10]; chars "READY"; chars "RUNNING"; chars "BLOCKED"; chars "UNK"; chars "FG"; chars "BG"].
Definition has_texts : Prop := ∀ s, s ∈ texts → cstr m0 (lit s) s ∧ 0 ≤ lit s < 2 ^ 64.
Hypothesis Htexts : has_texts.
Hypothesis Hlocal : 0 ≤ local ∧ local + MAX_PROCESSES * INFO_SIZE < 2 ^ 64.

Abbreviation displays := (displays m0).
Implicit Types (r : process) (w : Z * Z * Z).

(** What a record of the array says. *)
Record record_at (i : Z) r : Prop := {
  ra_pid : load_int m0 (pid_at local i) = Some (p_pid r) ∧ 0 ≤ p_pid r < 2 ^ 31;
  ra_ppid : load_int m0 (ppid_at local i) = Some (p_ppid r) ∧ - 2 ^ 31 < p_ppid r < 2 ^ 31;
  ra_name : cstr m0 (name_at local i) (p_name r) ∧ Forall plain (p_name r) ∧
    Z.of_nat (length (p_name r)) < 2 ^ 30;
  ra_state : load_int m0 (state_at local i) = Some (p_state r) ∧ 0 ≤ p_state r < 2 ^ 31 ∧
    p_state r ≠ TERMINATED;
  ra_priority : load_int m0 (priority_at local i) = Some (p_priority r) ∧ - 2 ^ 31 < p_priority r < 2 ^ 31;
  ra_ground : load_int m0 (ground_at local i) = Some (p_ground r);
}.
(** An entry without a live process. *)
Definition vacant (i : Z) : Prop := ∃ pid, load_int m0 (pid_at local i) = Some pid ∧
  (pid < 0 ∨ load_int m0 (state_at local i) = Some TERMINATED).
Definition slot (i : Z) (o : option process) : Prop :=
  match o with Some r => record_at i r | None => vacant i end.
Definition slots (i : Z) (l : list (option process)) : Prop :=
  ∀ j o, l !! j = Some o → slot (i + Z.of_nat j) o.

Lemma slots_cons i o l : slots i (o :: l) → slot i o ∧ slots (i + 1) l.
Proof.
  intros Hs. split; [specialize (Hs 0%nat o eq_refl); by rewrite Z.add_0_r in Hs|].
  intros j o' Hj. replace (i + 1 + Z.of_nat j) with (i + Z.of_nat (S j)) by lia. by apply Hs.
Qed.

Ltac text := apply Htexts, list_elem_of_In; cbn; tauto.
Ltac list_member := apply list_elem_of_In; cbn; tauto.
Ltac plain_text := unfold plain; repeat constructor; (done || lia).

Lemma displays_say t : t ∈ texts → Forall plain t → displays (say fuel lit t) tt t.
Proof.
  intros Hin Hp. apply (displays_printf _ _ Hfuel _ ((P_char <$> t) ++ [])).
  - rewrite <-(app_nil_r t) at 2. apply prints_text; [done|constructor].
  - rewrite spell_text, app_nil_r. by apply Htexts.
Qed.

Lemma displays_spaces z : displays (print_spaces fuel lit z) tt (pad z).
Proof.
  unfold print_spaces, pad. induction (Z.to_nat z) as [|n IH]; cbn [spaces_loop replicate]; [apply displays_ret|].
  apply (displays_bind _ _ _ tt _ [32] (replicate n 32)); [|exact IH].
  apply (displays_say (chars " ")); [list_member|plain_text].
Qed.

Lemma displays_dashes n : displays (dashes fuel lit n) tt (replicate n 45).
Proof.
  induction n as [|n IH]; cbn [dashes replicate]; [apply displays_ret|].
  apply (displays_bind _ _ _ tt _ [45] (replicate n 45)); [|exact IH].
  apply (displays_say (chars "-")); [list_member|plain_text].
Qed.

Lemma displays_padded num width extra : - 2 ^ 31 < num < 2 ^ 31 →
  displays (print_padded fuel lit num width extra) tt
    (decimal num ++ pad (width - Z.of_nat (length (decimal num)) + extra)).
Proof.
  intros Hn. unfold print_padded. apply (displays_bind _ _ _ tt).
  - apply displays_printf_d; [done|text|done].
  - apply (displays_quiet _ _ _ (Z.of_nat (length (decimal num)))); [|apply displays_spaces].
    by apply displays_kopt, count_digits_spec.
Qed.

Lemma displays_read_int a v : load_int m0 a = Some v → displays (read_int a) v [].
Proof. apply (displays_user m0 (λ m, load_int m a)). Qed.
#[local] Hint Resolve displays_read_int : displays.

Lemma listed_slot i o : slot i o → displays (listed local i) (bool_decide (is_Some o)) [].
Proof.
  intros Hs. unfold listed. destruct o as [r|]; cbn [slot] in Hs.
  - destruct Hs as [[Hp ?] _ _ [Hst [? Hne]] _ _].
    quietly.
    rewrite decide_False by lia. quietly.
    no_wrap. rewrite !bool_decide_true by done. apply displays_ret.
  - destruct Hs as (pid & Hp & Hd). quietly.
    rewrite (bool_decide_false (is_Some None)) by (by intros []).
    destruct (decide (pid < 0)); [apply displays_ret|]. destruct Hd as [?|Hst]; [done|].
    quietly. apply displays_ret.
Qed.

Lemma name_length i r : record_at i r →
  i32 (Z.of_nat (length (p_name r))) = Z.of_nat (length (p_name r)).
Proof. intros [_ _ (_ & _ & ?) _ _ _]. apply wraps_small; lia. Qed.

Definition widths_from w (rs : list process) : Z * Z * Z :=
  (width w.1.1 (decimal ∘ p_pid <$> rs), width w.1.2 (decimal ∘ p_ppid <$> rs), width w.2 (p_name <$> rs)).

Lemma max_if (a b : Z) : (if decide (a < b) then b else a) = Z.max a b.
Proof. case_decide; lia. Qed.

Lemma displays_widths l : ∀ i w, slots i l →
  displays (widths local (length l) i w) (widths_from w (omap id l)) [].
Proof.
  induction l as [|o l IH]; intros i [[w1 w2] w3] Hs; cbn [widths length]; [apply displays_ret|].
  apply slots_cons in Hs as [Ho Hs]. apply (displays_quiet _ _ _ _ _ _ (listed_slot i o Ho)).
  destruct o as [r|]; cbn [omap list_omap id].
  - rewrite bool_decide_true by (by eexists). cbn [slot] in Ho. pose proof (name_length i r Ho) as En.
    destruct Ho as [[Hp1 Hp2] [Hq1 Hq2] (Hc & _ & Hl) _ _ _].
    eapply displays_quiet; [|apply (IH (i + 1) (Z.max w1 (Z.of_nat (length (decimal (p_pid r)))),
      Z.max w2 (Z.of_nat (length (decimal (p_ppid r)))), Z.max w3 (Z.of_nat (length (p_name r))))); done].
    assert (- 2 ^ 31 < p_pid r < 2 ^ 31) by lia. do 5 quietly. rewrite En, !max_if. apply displays_ret.
  - rewrite bool_decide_false by (by intros []).
    apply (displays_quiet _ _ _ (w1, w2, w3)); [apply displays_ret|]. by apply IH.
Qed.

Lemma state_str_text r : state_str (p_state r) ∈ texts ∧ Forall plain (state_str (p_state r)) ∧
  Z.of_nat (length (state_str (p_state r))) ≤ 7.
Proof.
  unfold state_str. repeat case_decide; (split; [apply list_elem_of_In; cbn; tauto|]);
    (split; [plain_text|cbn; lia]).
Qed.

Lemma displays_process i w r : 0 ≤ i < MAX_PROCESSES → record_at i r →
  displays (print_process fuel lit local i w) tt (row w r).
Proof.
  intros Hi Hr. pose proof (name_length i r Hr) as En.
  destruct Hr as [[Hp1 Hp2] [Hq1 Hq2] (Hc & Hpl & Hl) (Hs1 & Hs2 & _) [Hr1 Hr2] Hg].
  destruct w as [[w1 w2] w3]. unfold print_process, row, column. cbn [fst snd].
  destruct (state_str_text r) as (Hin & Hps & Hls). destruct (Htexts _ Hin) as [Hct Hat].
  unfold name_at, MAX_PROCESSES, INFO_SIZE in *.
  quietly. no_wrap.
  quietly.
  quietly.
  apply (displays_bind _ _ _ tt); [by apply displays_padded; lia|].
  quietly.
  apply (displays_bind _ _ _ tt); [by apply displays_padded; lia|].
  rewrite <-!app_assoc. apply (displays_bind _ _ _ tt).
  { rewrite <-(app_nil_r (p_name r)). apply displays_printf_s; [done|rewrite app_nil_r; text|done|done|done|lia]. }
  quietly. rewrite En.
  apply (displays_bind _ _ _ tt); [apply displays_spaces|].
  apply (displays_bind _ _ _ tt).
  { rewrite <-(app_nil_r (state_str _)) at 2. apply displays_printf_s; [done|rewrite app_nil_r; text|done..]. }
  quietly. no_wrap.
  replace (9 - Z.of_nat (length (state_str (p_state r))) + 2)
    with (11 - Z.of_nat (length (state_str (p_state r)))) by lia.
  apply (displays_bind _ _ _ tt); [apply displays_spaces|].
  quietly.
  replace (8 - Z.of_nat (length (decimal (p_priority r))) + 2)
    with (10 - Z.of_nat (length (decimal (p_priority r))) + 0) by lia.
  rewrite app_assoc. apply (displays_bind _ _ _ tt); [by apply displays_padded; lia|].
  apply displays_printf_s; [done|text|plain_text|destruct (decide _); text|destruct (decide _); plain_text|].
  destruct (decide _); text.
Qed.

Lemma displays_processes w l : ∀ i, slots i l → 0 ≤ i → i + Z.of_nat (length l) ≤ MAX_PROCESSES →
  displays (print_processes fuel lit local (length l) i w) tt (concat (row w <$> omap id l)).
Proof.
  induction l as [|o l IH]; intros i Hs H0 Hi; cbn [print_processes length] in *; [apply displays_ret|].
  apply slots_cons in Hs as [Ho Hs]. apply (displays_quiet _ _ _ _ _ _ (listed_slot i o Ho)).
  destruct o as [r|]; cbn [omap list_omap id fmap list_fmap concat].
  - rewrite bool_decide_true by (by eexists). apply (displays_bind _ _ _ tt).
    + apply displays_process; [lia|done].
    + apply IH; [done|lia..].
  - rewrite bool_decide_false by (by intros []). apply (displays_quiet _ _ _ tt); [apply displays_ret|].
    apply IH; [done|lia..].
Qed.
(** *** The titles *)

Lemma displays_green : displays (say fuel lit green_pid) tt (chars "PID").
Proof.
  assert (cstr m0 (lit green_pid) green_pid) as Hc by text.
  pose proof (cstr_fuel _ _ _ Hc) as Hf. change (length green_pid) with 10%nat in Hf.
  assert (∃ n, fuel = S (3 + S n)) as [n ->] by (exists (fuel - 5)%nat; lia).
  unfold say, printf, vfprintf. eapply (displays_escape _ m0 Hfuel _ _ _ _ 0 48 [59; 51; 50] (chars "PID"));
    [by rewrite Z.add_0_r|set_solver|].
  change (0 + Z.of_nat (length [59; 51; 50]) + 4) with 7.
  pose proof (cstr_app m0 (lit green_pid) [27; 91; 48; 59; 51; 50; 109] (chars "PID") Hc) as Hc'.
  rewrite <-(app_nil_r (chars "PID")). apply (displays_plain _ m0 Hfuel _ _ _ [] [] (chars "PID") (S n) 7);
    [by rewrite app_nil_r|plain_text|].
  apply displays_end. apply (cstr_app m0 _ (chars "PID") []), cstr_nil in Hc'. rewrite <-Hc'. f_equal. change (Z.of_nat (length [27; 91; 48; 59; 51; 50; 109])) with 7. lia.
Qed.

Lemma displays_last : displays (say fuel lit last_titles) tt (nl "State      Priority  FG/BG").
Proof.
  assert (cstr m0 (lit last_titles) last_titles) as Hc by text.
  pose proof (cstr_fuel _ _ _ Hc) as Hf. set (t := nl "State      Priority  FG/BG").
  change (length last_titles) with 31%nat in Hf.
  assert (∃ n, fuel = (length t + S (S n))%nat) as [n ->].
  { exists (fuel - 29)%nat. change (length t) with 27%nat. lia. }
  unfold say, printf, vfprintf. rewrite <-(app_nil_r t).
  apply (displays_plain _ m0 Hfuel _ _ _ (27 :: chars "[0m")); [by rewrite Z.add_0_r|plain_text|].
  pose proof (cstr_app m0 _ t (27 :: chars "[0m") Hc) as Hc'.
  eapply (displays_escape _ m0 Hfuel _ _ _ _ _ 48 [] []); [exact Hc'|set_solver|]. cbn [length].
  apply displays_end. apply (cstr_app m0 _ (27 :: chars "[0m") []), cstr_nil in Hc'. rewrite <-Hc'. f_equal.
  change (Z.of_nat (length (27 :: chars "[0m"))) with 4. lia.
Qed.

Lemma width_bound ts b : ∀ least, least ≤ b → Forall (λ t, Z.of_nat (length t) ≤ b) ts →
  least ≤ width least ts ≤ b.
Proof.
  unfold width. induction ts as [|t ts IH]; intros least Hl Hts; cbn [foldl]; [lia|].
  apply Forall_cons in Hts as [Ht Hts]. destruct (IH (Z.max least (Z.of_nat (length t)))); [lia|done|lia].
Qed.

Lemma widths_bound l : slots 0 l → let w := ps_widths (omap id l) in
  3 ≤ w.1.1 ≤ 11 ∧ 4 ≤ w.1.2 ≤ 11 ∧ 4 ≤ w.2 ≤ 2 ^ 30.
Proof.
  intros Hs. assert (Forall (λ r, ∃ i, record_at i r) (omap id l)) as Hr.
  { apply Forall_forall. intros r (o & Ho & E)%list_elem_of_omap. cbn in E. subst o.
    apply list_elem_of_lookup in Ho as [j Hj]. eexists. exact (Hs _ _ Hj). }
  cbn [ps_widths fst snd]. split; [|split]; apply width_bound; try done; apply Forall_fmap;
    (eapply Forall_impl; [exact Hr|]); intros r (i & [] ); cbn.
  - pose proof (decimal_short (p_pid r)). lia.
  - pose proof (decimal_short (p_ppid r)). lia.
  - lia.
Qed.

Lemma displays_table l : slots 0 l → Z.of_nat (length l) = MAX_PROCESSES →
  let w := ps_widths (omap id l) in
  displays (
    _ ← say fuel lit green_pid;
    _ ← print_spaces fuel lit (w.1.1 - 1);
    _ ← say fuel lit (chars "PPID");
    _ ← print_spaces fuel lit (w.1.2 - 2);
    _ ← say fuel lit (chars "Name");
    _ ← print_spaces fuel lit (w.2 - 2);
    _ ← say fuel lit last_titles;
    total ← kopt (int_ok (w.1.1 + w.1.2 + w.2 + 35));
    _ ← dashes fuel lit (Z.to_nat total);
    _ ← say fuel lit [10];
    _ ← print_processes fuel lit local (Z.to_nat MAX_PROCESSES) 0 w;
    mret 0) 0 (ps_table (omap id l)).
Proof.
  intros Hs Hl w. destruct (widths_bound l Hs) as (H1 & H2 & H3). fold w in H1, H2, H3.
  assert (Z.to_nat MAX_PROCESSES = length l) as -> by lia.
  unfold ps_table. fold w. unfold column. rewrite <-!app_assoc.
  assert (∀ a b, a = b → pad a = pad b) as Hpad by (by intros ? ? ->).
  apply (displays_bind _ _ _ tt _ (chars "PID")); [apply displays_green|].
  apply (displays_bind _ _ _ tt _ (pad (w.1.1 - 3 + 2)));
    [rewrite (Hpad _ (w.1.1 - 1)) by lia; apply displays_spaces|].
  apply (displays_bind _ _ _ tt _ (chars "PPID")); [apply displays_say; [list_member|plain_text]|].
  apply (displays_bind _ _ _ tt _ (pad (w.1.2 - 4 + 2)));
    [rewrite (Hpad _ (w.1.2 - 2)) by lia; apply displays_spaces|].
  apply (displays_bind _ _ _ tt _ (chars "Name")); [apply displays_say; [list_member|plain_text]|].
  apply (displays_bind _ _ _ tt _ (pad (w.2 - 4 + 2)));
    [rewrite (Hpad _ (w.2 - 2)) by lia; apply displays_spaces|].
  apply (displays_bind _ _ _ tt _ (nl "State      Priority  FG/BG")
    (replicate (Z.to_nat (w.1.1 + w.1.2 + w.2 + 35)) 45 ++ [10] ++ concat (row w <$> omap id l)));
    [apply displays_last|].
  eapply displays_quiet; [apply displays_kopt; unfold int_ok; by rewrite decide_True by lia|].
  apply (displays_bind _ _ _ tt); [apply displays_dashes|].
  apply (displays_bind _ _ _ tt); [apply displays_say; [list_member|plain_text]|].
  rewrite <-(app_nil_r (concat _)). apply (displays_bind _ _ _ tt); [|apply displays_ret].
  apply displays_processes; [done|lia..].
Qed.
End table.

(** C40: With the records the kernel left in the array, [ps] prints the table of
    the reference on the screen, and nothing else: the live processes in
    order, one per row, each column as wide as its longest entry and two
    spaces more. *)
Theorem ps_prints_table (k : Kernel) fuel lit local m0 p argv l
    (Hfuel : (size m0 < fuel)%nat) (Htexts : has_texts lit m0)
    (Hlocal : 0 ≤ local ∧ local + MAX_PROCESSES * INFO_SIZE < 2 ^ 64)
    (Hslots : slots local m0 0 l) (Hlen : Z.of_nat (length l) = MAX_PROCESSES)
    (Hbuf : length (u_buffer p) = 64%nat)
    (Hkernel : ∀ m, (∀ x, m !! x = if decide (local ≤ x < local + MAX_PROCESSES * INFO_SIZE)
                                   then Some 0 else u_mem p !! x) →
       kernel_answer (u_calls p) 39 [local] m = (0, m0)) :
  wp false (_ps fuel lit local 1 argv) (λ r p', r = 0 ∧ u_mem p' = m0 ∧
    ∃ cs, u_calls p' = u_calls p ++ Sys 39 [local] :: cs ∧ Forall display_call cs ∧
      concat (display_text <$> cs) = ps_table (omap id l)) p.
Proof.
  unfold _ps. rewrite decide_False by lia. wp_step. apply wp_wr_chars. intros m Hz Hm.
  rewrite length_replicate in Hz, Hm. rewrite Z2Nat.id in Hm by done. wp_step. unfold ps, sys_int. wp_step.
  eapply wp_sysc; [apply Hkernel; intros x; case_decide; [|apply Hm; lia]|].
  { destruct (load_bytes_lookup _ _ _ _ Hz) as [_ Hi]. unfold MAX_PROCESSES, INFO_SIZE in *.
    replace x with (local + Z.of_nat (Z.to_nat (x - local))) by lia. rewrite Hi by lia.
    rewrite fmap_replicate. apply lookup_replicate_2. lia. }
  wp_step. rewrite decide_False by (intros []; done).
  wp_step. assert (Z.to_nat MAX_PROCESSES = length l) as En by lia. rewrite En at 1.
  eapply displays_widths; [eassumption..|split; [done|exact Hbuf]|].
  intros p1 [Hp1 (cs1 & E1 & F1 & T1)].
  change (widths_from (3, 4, 4) (omap id l)) with (ps_widths (omap id l)).
  pose proof (displays_table fuel lit local m0 Hfuel Htexts Hlocal l Hslots Hlen) as Ht. cbv zeta in Ht.
  destruct (ps_widths (omap id l)) as [[w1 w2] w3]. cbn [fst snd] in Ht. apply Ht; [done|].
  intros p2 [[Hm2 _] (cs2 & E2 & F2 & T2)]. split; [done|]. split; [done|]. exists (cs1 ++ cs2).
  rewrite E2, E1. cbn [u_calls set_u_mem]. rewrite <-!app_assoc. split; [done|].
  split; [by apply Forall_app|]. by rewrite fmap_app, concat_app, T1.
Qed.

(** ** A concrete table

    The idle process and a shell that waits; the array is at [10000]. *)

Definition ps_rows : list process :=
  [Process 0 (-1) (chars "idle") 0 0 0; Process 12 1 (chars "sh") 2 3 1].
Definition ps_slots : list (option process) := (Some <$> ps_rows) ++ replicate 62 None.

Definition ps_lit (s : list Z) : Z :=
  match list_find (s =.) texts with Some (i, _) => 2000 + 40 * Z.of_nat i | None => 0 end.
Definition put_int (a v : Z) (m : mem) : mem := put_text m a (Machine.le_bytes 4 (u32 v)).
Definition put_process (i : Z) (o : option process) (m : mem) : mem :=
  match o with
  | Some r =>
      put_int (ground_at 10000 i) (p_ground r) (put_int (priority_at 10000 i) (p_priority r)
        (put_int (state_at 10000 i) (p_state r) (put_text (put_int (ppid_at 10000 i) (p_ppid r)
          (put_int (pid_at 10000 i) (p_pid r) m)) (name_at 10000 i) (p_name r))))
  | None => put_int (pid_at 10000 i) (-1) m
  end.
Definition ps_memory : mem :=
  foldl (λ m io, put_process io.1 io.2 m) (foldr (λ s m, put_text m (ps_lit s) s) ∅ texts)
    (zip (seqZ 0 64) ps_slots).
Definition ps_kernel : Kernel := λ _ _ _ _, (0, ps_memory).

Example ps_demo_table : ps_table ps_rows =
  nl "PID  PPID  Name  State      Priority  FG/BG" ++ replicate 46 45 ++ [10] ++
  nl "0    -1    idle  READY      0         BG" ++ nl "12   1     sh    BLOCKED    3         FG".
Proof. by vm_compute. Qed.

Lemma ps_demo_slots : slots 10000 ps_memory 0 ps_slots.
Proof.
  intros j o Hj. destruct j as [|[|j]]; [injection Hj as <-..|].
  1, 2: split; cbn [slot p_pid p_ppid p_name p_state p_priority p_ground];
    [split; [by vm_compute|lia]|split; [by vm_compute|lia]|
     split; [demo_cstr|split; [unfold plain; repeat constructor; done|cbn; lia]]|
     split; [by vm_compute|split; [lia|done]]|split; [by vm_compute|lia]|by vm_compute].
  assert (o = None ∧ (j < 62)%nat) as [-> Hlt].
  { change (replicate 62 (@None process) !! j = Some o) in Hj. by apply lookup_replicate in Hj. }
  exists (-1). split; [|by left].
  assert (Forall (λ j, load_int ps_memory (pid_at 10000 j) = Some (-1)) (seqZ 2 62)) as Hall.
  { refine (bool_decide_eq_true_1 _ _). vm_compute. reflexivity. }
  eapply Forall_forall in Hall; [exact Hall|]. apply elem_of_seqZ. lia.
Qed.

Lemma ps_prints_table_witness :
  wp false (_ps (H := ps_kernel) 2000 ps_lit 10000 1 []) (λ r p', r = 0 ∧ u_mem p' = ps_memory ∧
    ∃ cs, u_calls p' = [] ++ Sys 39 [10000] :: cs ∧ Forall display_call cs ∧
      concat (display_text <$> cs) = ps_table ps_rows) (Program ∅ number_buffer [] []).
Proof.
  apply (ps_prints_table ps_kernel 2000 ps_lit 10000 ps_memory (Program ∅ number_buffer [] []) [] ps_slots).
  - apply Nat.ltb_lt. by vm_compute.
  - intros s Hs. apply list_elem_of_In in Hs.
    repeat (destruct Hs as [<-|Hs]; [split; [demo_cstr|by vm_compute]|]). destruct Hs.
  - by vm_compute.
  - exact ps_demo_slots.
  - done.
  - done.
  - done.
Defined.
