(* ===== verification/ProgramHeap.v ===== *)
(** * The heap of the programs ([sys_malloc] and [sys_free] over [first_fit_mm.c])

    A kernel that keeps the first-fit allocator from one call of a program to
    the next: with it the interface the shell and the test of the memory
    manager are proved against ([heap_ok]) holds.  What a program may still
    count on is the largest free block. *)

From S2P Require Import Prelude Strings Monad Numerals UserString UserStdio Libsys ShellFacts.
From S2P Require Import Chain MemoryManager FirstFit.

(** ** The largest free block *)

(** The sizes of the free blocks, from [p] round to [base]. *)
Fixpoint ring_sizes (fuel : nat) (st : ff_state) (p : Z) : list Z :=
  match fuel with
  | O => []
  | S fuel =>
      if decide (p = ff_base st) then []
      else match ff_size st !! p, ff_ptr st !! p with
           | Some s, Some n => s :: ring_sizes fuel st n
           | _, _ => []
           end
  end.
Definition ff_largest (st : ff_state) : Z :=
  match ff_ptr st !! ff_base st with
  | Some p => foldr Z.max 0 (ring_sizes (ff_fuel st) st p)
  | None => 0
  end.

(** The same on layouts. *)
Fixpoint largest (L : layout) : Z :=
  match L with
  | [] => 0
  | (n, b) :: L => if b : bool then Z.max n (largest L) else largest L
  end.

Lemma largest_app L1 L2 : largest (L1 ++ L2) = Z.max (largest L1) (largest L2).
Proof.
  assert (∀ L, 0 ≤ largest L) as Hn by (intros L; induction L as [|[n []] L]; cbn; lia).
  induction L1 as [|[n b] L1 IH]; cbn [largest app]; [specialize (Hn L2); lia|].
  rewrite IH. destruct b; lia.
Qed.

Lemma largest_nonneg L : 0 ≤ largest L.
Proof. induction L as [|[n []] L]; cbn; lia. Qed.

Lemma largest_block L : 0 < largest L → ∃ L1 L2, L = L1 ++ (largest L, true) :: L2.
Proof.
  induction L as [|[n b] L IH]; cbn [largest]; [lia|]. intros H0. pose proof (largest_nonneg L).
  destruct b; [destruct (decide (largest L < n))|].
  - exists [], L. by rewrite Z.max_l by lia.
  - rewrite Z.max_r in * by lia. destruct IH as (L1 & L2 & E); [lia|].
    exists ((n, true) :: L1), L2. cbn. by rewrite <-E.
  - destruct IH as (L1 & L2 & E); [lia|]. exists ((n, false) :: L1), L2. cbn. by rewrite <-E.
Qed.

(** A request takes its units from one block at most. *)
Lemma largest_split L1 s n L2 : 0 < n ≤ s →
  largest (L1 ++ (s, true) :: L2) - n ≤ largest (L1 ++ ff_split s n ++ L2).
Proof.
  intros Hn. rewrite !largest_app. unfold ff_split. pose proof (largest_nonneg L1).
  pose proof (largest_nonneg L2). case_decide; cbn [largest]; lia.
Qed.

Lemma largest_join L1 n L2 : 0 < n → positive_blocks (L1 ++ (n, false) :: L2) →
  largest (L1 ++ (n, false) :: L2) ≤ largest (ff_join L1 n L2).
Proof.
  intros Hn [Hp1 [_ Hp2]%Forall_cons]%positive_blocks_app. rewrite largest_app. cbn [largest].
  unfold ff_join. assert (∃ n1 L2', join_above n L2 = (n1, L2') ∧ 0 < n1 ∧
    largest L2 ≤ largest ((n1, true) :: L2')) as (n1 & L2' & -> & Hn1 & Hl).
  { destruct L2 as [|[m []] L2]; eexists _, _; (split; [reflexivity|]); cbn [largest]; [lia| |lia].
    apply Forall_cons in Hp2 as [? _]. cbn in *. lia. }
  destruct (last L1) as [[m []]|] eqn:El; [|rewrite largest_app; lia..].
  apply last_Some in El as [La ->]. rewrite removelast_last, !largest_app. cbn [largest] in *.
  apply positive_blocks_app in Hp1 as [_ [? _]%Forall_cons]. cbn in *. lia.
Qed.

(** Following the ring finds the free blocks of the layout. *)
Lemma ring_sizes_spec st : ∀ L H fuel p, sized (ff_size st) H L →
  lseg (ff_ptr st) p (free_addrs H L) (ff_base st) → ff_base st ∉ free_addrs H L →
  (length (free_addrs H L) < fuel)%nat →
  foldr Z.max 0 (ring_sizes fuel st p) = largest L.
Proof.
  induction L as [|[n b] L IH]; intros H fuel p Hs Hring Hb Hf; cbn [free_addrs sized largest] in *.
  - cbn in Hring. subst p. destruct fuel; [lia|]. cbn [ring_sizes]. by rewrite decide_True.
  - destruct Hs as [Hs HsL]. destruct b; cbn [app] in *; [|by eapply IH].
    destruct Hring as (-> & q & Hq & Hring). apply not_elem_of_cons in Hb as [Hne Hb].
    destruct fuel; [cbn in Hf; lia|]. cbn [ring_sizes]. rewrite decide_False by done.
    rewrite Hs, Hq. cbn [foldr]. f_equal. eapply IH; try done. cbn in Hf. lia.
Qed.

Lemma ff_largest_spec H st L : ff_rep H st L → ff_largest st = largest L.
Proof.
  intros HR. pose proof (fr_ring _ _ _ HR) as (_ & p & Hp & Hring). unfold ff_largest. rewrite Hp.
  pose proof (ff_ring_NoDup _ _ _ HR) as [Hb _]%NoDup_cons. pose proof (ff_ring_fuel _ _ _ HR) as Hf.
  eapply ring_sizes_spec; [apply HR|done..|]. cbn in Hf. lia.
Qed.

(** ** The kernel *)

Record heap := Heap {
  h_mm : ff_state;
  h_blocks : gmap Z Z;   (* the blocks of the program, with the sizes it asked for *)
  h_ok : bool;   (* it asked for less than [mm_max_request] and released nothing else *)
}.

Section kernel.
(** Where the managed region starts; what the kernel answers to the other
    calls; and what it requests and releases itself meanwhile. *)
Variables (start : Z) (answer : list call → Z → list Z → mem → Z * mem).
Variables (busy : call → heap → ff_state) (h0 : heap).
Implicit Types (h : heap) (c : call) (cs : list call).

Definition heap_step h c : heap :=
  match c with
  | Sys n [x] =>
      if decide (n = 32) then
        let '(a, st) := mm_alloc (h_mm h) x in
        Heap st (if decide (a = NULL) then h_blocks h else <[a := x]> (h_blocks h))
          (h_ok h && bool_decide (0 ≤ x < mm_max_request))
      else if decide (n = 33) then
        Heap (mm_free (h_mm h) x) (delete x (h_blocks h))
          (h_ok h && bool_decide (is_Some (h_blocks h !! x)))
      else Heap (busy c h) (h_blocks h) (h_ok h)
  | _ => Heap (busy c h) (h_blocks h) (h_ok h)
  end.
Definition heap_at cs : heap := foldl heap_step h0 cs.

Definition ff_kernel : Kernel := λ cs n args m,
  match args with
  | [x] => if decide (n = 32) then ((mm_alloc (h_mm (heap_at cs)) x).1, m)
           else if decide (n = 33) then (0, m) else answer cs n args m
  | _ => answer cs n args m
  end.

Definition ff_blocks cs : gmap Z Z := h_blocks (heap_at cs).
Definition ff_room cs : Z :=
  if h_ok (heap_at cs) then Z.min mm_max_request (ff_largest (h_mm (heap_at cs)) * UNIT_SIZE) else 0.

(** The allocator is well formed and every block of the program is a live
    payload that is large enough. *)
Definition heap_rep h L : Prop := ff_rep start (h_mm h) L ∧ used_ok L ∧
  ∀ a n, h_blocks h !! a = Some n → ∃ m, payloads start L !! a = Some m ∧ n ≤ m.
Definition good h : Prop := h_ok h = true → ∃ L, heap_rep h L.

(** The kernel's own requests and releases keep that. *)
Hypothesis Hbusy : ∀ c h, h_ok h = true → good h → good (Heap (busy c h) (h_blocks h) true).
Hypothesis Hstart : good h0.

Lemma heap_at_snoc cs c : heap_at (cs ++ [c]) = heap_step (heap_at cs) c.
Proof. unfold heap_at. by rewrite foldl_app. Qed.

Lemma heap_at_free cs a : heap_at (cs ++ [Sys 33 [a]]) =
  let h := heap_at cs in Heap (mm_free (h_mm h) a) (delete a (h_blocks h))
    (h_ok h && bool_decide (is_Some (h_blocks h !! a))).
Proof. rewrite heap_at_snoc. cbn [heap_step]. by rewrite decide_False, decide_True. Qed.

Lemma heap_alloc h L n : heap_rep h L → 0 < n < mm_max_request →
  let '(a, st) := mm_alloc (h_mm h) n in
  (a = NULL ∧ st = h_mm h ∧ largest L < ff_units n) ∨
  (start ≤ a ∧ 0 < a ∧ a + n < 2 ^ 64 ∧ h_blocks h !! a = None ∧
   (∀ b l, h_blocks h !! b = Some l → b + l ≤ a ∨ a + n ≤ b) ∧
   ∃ L', heap_rep (Heap st (<[a := n]> (h_blocks h)) true) L' ∧ largest L - ff_units n ≤ largest L').
Proof.
  intros (HR & Hu & Hb) Hn. destruct (ff_units_spec n Hn) as (_ & Hge & Hpay).
  pose proof (fr_base _ _ _ HR) as Hbase. pose proof (fr_pos _ _ _ HR) as Hpos.
  cbn [mm_alloc first_fit_mm].
  destruct (ff_alloc_spec start (h_mm h) L n HR Hn)
    as [[-> Hno]|(L1 & s & L2 & st' & -> & Hs & -> & _ & HR')]; cbn [default].
  { left. split; [done|]. split; [done|]. destruct (decide (0 < largest L)) as [Hl|]; [|lia].
    destruct (largest_block L Hl) as (L1 & L2 & E). by apply (Hno L1 _ L2). }
  right. destruct (payloads_alloc start L1 s (ff_units n) L2 Hpos Hu) as [Hnone Heq]; [lia|].
  pose proof (fr_pos _ _ _ HR') as Hpos'.
  set (L' := L1 ++ ff_split s (ff_units n) ++ L2) in *. set (a := start + _) in *.
  assert (payloads start L' !! a = Some ((ff_units n - 1) * UNIT_SIZE)) as Ha
    by (rewrite Heq; apply lookup_insert_eq).
  pose proof (payloads_bound _ _ _ _ Hpos' Ha) as [Hlow Hhigh]. pose proof (fr_end _ _ _ HR').
  split; [lia|]. split; [lia|]. split; [lia|].
  assert (h_blocks h !! a = None) as Hfree.
  { destruct (h_blocks h !! a) as [l|] eqn:E; [|done]. destruct (Hb a l E) as (m & Hm & _). congruence. }
  split; [done|]. split.
  - intros b l Hbl. destruct (Hb b l Hbl) as (m & Hm & Hle).
    destruct (payloads_disjoint start L' Hpos' b a m ((ff_units n - 1) * UNIT_SIZE)); [|done| |lia..].
    + rewrite Heq, lookup_insert_ne; [done|congruence].
    + congruence.
  - exists L'. split; [|apply largest_split; lia]. split; [done|]. split.
    + unfold L'. apply used_ok_app in Hu as [Hu1 [_ Hu2]%Forall_cons].
      repeat (apply used_ok_app; split); [done| |done].
      unfold ff_split. case_decide; repeat constructor; cbn; done || lia.
    + cbn [h_blocks]. intros b l [[<- <-]|[Hne Hbl]]%lookup_insert_Some.
      * exists ((ff_units n - 1) * UNIT_SIZE). split; [done|lia].
      * destruct (Hb b l Hbl) as (m & Hm & Hle). exists m. by rewrite Heq, lookup_insert_ne.
Qed.

Lemma heap_free h L a n : heap_rep h L → h_blocks h !! a = Some n →
  ∃ L', heap_rep (Heap (mm_free (h_mm h) a) (delete a (h_blocks h)) true) L' ∧ largest L ≤ largest L'.
Proof.
  intros (HR & Hu & Hb) Ha. destruct (Hb a n Ha) as (m & Hm & _).
  destruct (payloads_split _ _ _ _ Hm) as (L1 & k & L2 & -> & -> & _).
  pose proof (fr_pos _ _ _ HR) as Hpos. cbn [mm_free first_fit_mm].
  destruct (ff_free_spec _ _ _ _ _ HR) as (st' & -> & _ & HR'). cbn [default].
  pose proof (fr_coal _ _ _ HR) as (_ & [_ Hc] & _)%coalesced_app.
  destruct (payloads_free start L1 k L2 Hpos Hu Hc) as [Hp Hu'].
  exists (ff_join L1 k L2). split.
  - split; [done|]. split; [done|]. cbn [h_blocks]. rewrite Hp.
    intros b l [Hne Hbl]%lookup_delete_Some. destruct (Hb b l Hbl) as (m' & Hm' & Hle).
    exists m'. by rewrite lookup_delete_ne.
  - apply largest_join; [|done]. apply positive_blocks_app in Hpos as [_ [Hk _]%Forall_cons]. done.
Qed.

Lemma heap_at_good cs : good (heap_at cs).
Proof.
  induction cs as [|c cs IH] using rev_ind; [done|]. rewrite heap_at_snoc. set (h := heap_at cs) in *.
  assert (good (Heap (busy c h) (h_blocks h) (h_ok h))) as Hother.
  { intros Ho. cbn in Ho. rewrite Ho. by apply Hbusy. }
  destruct c as [| | |n [|x []]]; try exact Hother. unfold heap_step.
  destruct (decide (n = 32)); [|destruct (decide (n = 33)); [|exact Hother]].
  - destruct (mm_alloc (h_mm h) x) as [a st] eqn:E.
    intros [Ho Hx%bool_decide_eq_true]%andb_true_iff. destruct (IH Ho) as [L HL].
    destruct (decide (x = 0)) as [->|Hne].
    { cbn in E. injection E as <- <-. by exists L. }
    pose proof (heap_alloc h L x HL) as Hspec. rewrite E in Hspec.
    destruct Hspec as [(-> & -> & _)|(_ & Ha & _ & _ & _ & L' & HL' & _)]; [lia|by exists L|].
    rewrite decide_False by lia. by exists L'.
  - intros [Ho [l Hl]%bool_decide_eq_true]%andb_true_iff. destruct (IH Ho) as [L HL].
    destruct (heap_free h L x l HL Hl) as (L' & HL' & _). by exists L'.
Qed.

Lemma room_rep cs L : h_ok (heap_at cs) = true → heap_rep (heap_at cs) L →
  ff_room cs = Z.min mm_max_request (largest L * UNIT_SIZE).
Proof. intros Ho (HR & _). unfold ff_room. by rewrite Ho, (ff_largest_spec _ _ _ HR). Qed.

(** The laws of [heap_ok]. *)
Lemma malloc_law cs n m : 0 < n → n + 64 ≤ ff_room cs → ∃ a, ff_kernel cs 32 [u64 n] m = (a, m) ∧
  0 < a ∧ start ≤ a ∧ a + n < 2 ^ 64 ∧ ff_blocks cs !! a = None ∧
  (∀ b l, ff_blocks cs !! b = Some l → b + l ≤ a ∨ a + n ≤ b) ∧
  ff_blocks (cs ++ [Sys 32 [u64 n]]) = <[a := n]> (ff_blocks cs) ∧
  ff_room cs - n - 64 ≤ ff_room (cs ++ [Sys 32 [u64 n]]).
Proof.
  intros Hn Hroom. destruct (h_ok (heap_at cs)) eqn:Ho; [|unfold ff_room in Hroom; rewrite Ho in Hroom; lia].
  destruct (heap_at_good cs Ho) as [L HL]. pose proof (room_rep cs L Ho HL) as Er. rewrite Er in Hroom.
  unfold mm_max_request in *. destruct (ff_units_spec n) as (_ & _ & Hpay); [unfold mm_max_request; lia|].
  no_wrap. pose proof (heap_alloc (heap_at cs) L n HL) as Hspec.
  unfold ff_kernel, ff_blocks. rewrite heap_at_snoc. cbn [heap_step].
  rewrite !decide_True by done. destruct (mm_alloc (h_mm (heap_at cs)) n) as [a st] eqn:E.
  destruct Hspec as [(_ & _ & ?)|(H1 & H2 & H3 & H4 & H5 & L' & HL' & Hle)];
    [unfold mm_max_request; lia|lia|].
  exists a. do 4 (split; [done|]). split; [done|]. split; [done|]. rewrite decide_False by lia.
  split; [done|].
  assert (heap_at (cs ++ [Sys 32 [n]]) = Heap st (<[a := n]> (h_blocks (heap_at cs))) true) as Eh.
  { rewrite heap_at_snoc. cbn [heap_step]. rewrite decide_True, E, decide_False by (done || lia).
    rewrite Ho, bool_decide_true by (unfold mm_max_request; lia). done. }
  rewrite (room_rep (cs ++ [Sys 32 [n]]) L') by (by rewrite Eh).
  rewrite Er. unfold mm_max_request. lia.
Qed.

Lemma free_law cs a n m : ff_blocks cs !! a = Some n → ∃ r, ff_kernel cs 33 [a] m = (r, m) ∧
  ff_blocks (cs ++ [Sys 33 [a]]) = delete a (ff_blocks cs) ∧ ff_room cs ≤ ff_room (cs ++ [Sys 33 [a]]).
Proof.
  intros Ha. exists 0. unfold ff_kernel, ff_blocks in *. rewrite heap_at_free.
  split; [by rewrite decide_False, decide_True|]. split; [done|].
  destruct (h_ok (heap_at cs)) eqn:Ho.
  + destruct (heap_at_good cs Ho) as [L HL]. destruct (heap_free _ L a n HL Ha) as (L' & HL' & Hle).
    rewrite (room_rep cs L Ho HL), (room_rep (cs ++ [Sys 33 [a]]) L'); [lia| |];
      rewrite heap_at_free; cbv zeta; rewrite Ho, bool_decide_true by (by eexists); done.
  + unfold ff_room. rewrite heap_at_free. cbv zeta. by rewrite Ho.
Qed.

Lemma other_law cs n regs : n ≠ 32 → n ≠ 33 → ff_blocks (cs ++ [Sys n regs]) = ff_blocks cs.
Proof.
  intros H1 H2. unfold ff_blocks. rewrite heap_at_snoc.
  destruct regs as [|x []]; [done| |done]. cbn [heap_step]. by rewrite !decide_False.
Qed.

Lemma ff_kernel_heap : heap_ok ff_kernel start ff_blocks ff_room.
Proof. split; [apply malloc_law|apply free_law|apply other_law]. Qed.

(** C19: The first-fit allocator is a heap the programs can be run on: a request
    that leaves 64 bytes of the largest free block is granted, at an address
    away from every block the program has; a block lives until it is
    released; and neither call touches the program's memory.  The rest of the
    kernel may use the same allocator meanwhile. *)
Theorem first_fit_heap : heap_ok ff_kernel start ff_blocks ff_room.
Proof. split; [apply malloc_law|apply free_law|apply other_law]. Qed.
End kernel.

(** ** A concrete kernel

    One megabyte; [createProcess] takes memory for the process. *)
Definition sys_answer (cs : list call) (n : Z) (regs : list Z) (m : mem) : Z * mem := (1, m).
Definition process_blocks (c : call) (h : heap) : ff_state :=
  match c with Sys 35 _ => (mm_alloc (h_mm h) 20000).2 | _ => h_mm h end.
Definition first_heap : heap := Heap (ff_boot 65536 (2 ^ 20)) ∅ true.
Abbreviation heap_kernel := (ff_kernel sys_answer process_blocks first_heap).

Lemma process_blocks_good start c h : h_ok h = true → good start h →
  good start (Heap (process_blocks c h) (h_blocks h) true).
Proof.
  intros Ho Hh _. destruct (Hh Ho) as [L HL].
  assert (∃ L, heap_rep start (Heap (mm_alloc (h_mm h) 20000).2 (h_blocks h) true) L) as Hcreate.
  { pose proof (heap_alloc start h L 20000 HL) as Hspec.
    destruct (mm_alloc (h_mm h) 20000) as [a st].
    destruct Hspec as [(-> & -> & _)|(_ & _ & _ & Hnew & _ & L' & (HR & Hu & Hb) & _)];
      [by unfold mm_max_request|by exists L|].
    exists L'. split; [done|]. split; [done|]. intros b n Hbn. apply Hb. cbn [h_blocks] in *.
    rewrite lookup_insert_ne; [done|congruence]. }
  destruct c as [| | |n regs]; [by exists L..|]. unfold process_blocks.
  destruct (decide (n = 35)) as [->|Hn]; [done|].
  assert ((match Sys n regs with Sys 35 _ => (mm_alloc (h_mm h) 20000).2 | _ => h_mm h end) = h_mm h) as ->;
    [|by exists L]. destruct n as [|n|n]; try done.
  repeat (destruct n as [n|n|]; try done).
Qed.

(** A region with nothing allocated. *)
Lemma empty_heap_good start size : 2 * UNIT_SIZE ≤ start → UNIT_SIZE ≤ size →
  start + size < 2 ^ 64 → good start (Heap (ff_boot start size) ∅ true).
Proof.
  intros H1 H2 H3 _. exists [(size / UNIT_SIZE, true)].
  split; [by apply ff_init_spec|]. split.
  - by repeat constructor.
  - intros a n. cbn. by rewrite lookup_empty.
Qed.

Lemma first_heap_good : good 65536 first_heap.
Proof. by apply empty_heap_good. Qed.

Lemma first_fit_heap_witness :
  heap_ok heap_kernel 65536 (ff_blocks process_blocks first_heap) (ff_room process_blocks first_heap).
Proof. exact (first_fit_heap 65536 sys_answer _ _ (process_blocks_good 65536) first_heap_good). Defined.

(** A program that creates a process between two requests. *)
Example requests_around_a_process :
  let cs := [Sys 32 [100]; Sys 35 [0]] in
  ((heap_kernel [] 32 [100] ∅).1, (heap_kernel cs 32 [100] ∅).1, ff_room process_blocks first_heap cs)
    = (65536 + 2 ^ 20 - 112, 65536 + 2 ^ 20 - 112 - 20016 - 128, 2 ^ 20 - 128 - 20016).
Proof. by vm_compute. Qed.
