(* ===== verification/ShellHeap.v ===== *)
(** * A shell on the kernel's own heap

    The memory [main] gives the first-fit allocator at boot, from 6 MiB up to
    512 MiB ([kernel.c]), and a shell that has read a line on it: the theorems
    on the parser and on the execution of a line apply there. *)

From S2P Require Import Prelude MemoryManager FirstFit Boot ProgramHeap.
From S2P Require Import Strings Monad Numerals UserString UserStdio Libsys Commands.
From S2P Require Import CommandFacts Shell ShellFacts ShellRun.

(** ** The heap at boot

    As [heap_start] and [heap_size] of [Boot] give it for a kernel that ends
    below 0x5F8000. *)
Definition boot_heap : heap := Heap (ff_boot 0x600000 0x1FA00000) ∅ true.
Abbreviation boot_kernel := (ff_kernel sys_answer process_blocks boot_heap).
Abbreviation boot_blocks := (ff_blocks process_blocks boot_heap).
Abbreviation boot_room := (ff_room process_blocks boot_heap).

Example boot_heap_place : heap_start 0x110000 = 0x600000 ∧ heap_size 0x110000 = 0x1FA00000.
Proof. by vm_compute. Qed.

Lemma boot_heap_good : good 0x600000 boot_heap.
Proof. by apply empty_heap_good. Qed.

Lemma boot_heap_ok : heap_ok boot_kernel 0x600000 boot_blocks boot_room.
Proof. apply ff_kernel_heap; [apply process_blocks_good|apply boot_heap_good]. Qed.

(** Once the shell has its array of commands there is room for any line. *)
Lemma boot_room_line l : Z.of_nat (length l) < MAX_BUFFER_SIZE →
  need (tokens [32] l) ≤ boot_room [Sys 32 [PARSED_SIZE * 5]].
Proof.
  intros Hl. etransitivity; [by apply need_line|].
  refine (bool_decide_eq_true_1 _ _). vm_compute. reflexivity.
Qed.

(** Where that array is. *)
Definition first_array : Z := (boot_kernel [] 32 [PARSED_SIZE * 5] ∅).1.

Lemma first_array_there : has_array boot_blocks first_array
  (Program ∅ number_buffer [] [Sys 32 [PARSED_SIZE * 5]]).
Proof. vm_compute. by eexists. Qed.

(** The calls that are no allocation answer 1. *)
Definition boot_answers (cs : list call) (n : Z) (regs : list Z) : Z := 1.

Lemma boot_quiet : kernel_quiet boot_kernel boot_answers.
Proof.
  intros cs n regs m Hn. unfold kernel_answer, ff_kernel. destruct regs as [|x []]; [done| |done].
  rewrite !decide_False; [done|intros ->; set_solver..].
Qed.

(** ** A line *)

(** The literals are 32 bytes apart from [2000] on; the line is at [100],
    [command] at [1200] and the buffer of the history at [30000]; the shell
    has made its first allocation. *)
Definition table_lit (ls : list (list Z)) (s : list Z) : Z :=
  match list_find (s =.) ls with Some (i, _) => 2000 + 32 * Z.of_nat i | None => 0 end.
Definition all_lits : list (list Z) := lits ++ [[38]].
Definition line_lit : list Z → Z := table_lit all_lits.
Definition line_mem (l : list Z) : mem :=
  let blank := foldr (λ j m, <[30000 + j := 0]> m) ∅ (seqZ 0 MAX_BUFFER_SIZE) in
  put_text (foldr (λ s m, put_text m (line_lit s) s) blank all_lits) 100 l.
Definition empty_command : ParsedCommand := Build_ParsedCommand 0 0 0 (replicate 10 0) 0.
Definition line_shell : shell := Build_shell (replicate 5 empty_command) first_array 0 0 0 0.
Definition line_prog (l : list Z) : program :=
  Program (line_mem l) number_buffer [] [Sys 32 [PARSED_SIZE * 5]].
Definition pipeline_line : list Z := chars "cat hi | wc".

Lemma line_lit_places :
  Forall (λ s, 2000 ≤ line_lit s ∧ line_lit s + Z.of_nat (length s) < 4096) all_lits.
Proof. refine (bool_decide_eq_true_1 _ _). vm_compute. reflexivity. Qed.

Lemma line_setting : setting 0x600000 line_lit 100 1200.
Proof.
  split; [|lia|left; by vm_compute|by vm_compute].
  intros s Hs x Hx. destruct (proj1 (Forall_forall _ _) line_lit_places s) as [H1 H2];
    [apply elem_of_app; by left|].
  unfold kept, MAX_BUFFER_SIZE, MAX_ARGUMENT_SIZE. lia.
Qed.

(** The literals of a concrete memory. *)
Ltac demo_layout :=
  intros s Hs; apply list_elem_of_In in Hs; cbn [In lits fmap list_fmap commands c_name] in Hs;
  repeat (destruct Hs as [<-|Hs]; [demo_cstr|]); destruct Hs.

Lemma line_layout : layout line_lit (line_mem pipeline_line).
Proof. demo_layout. Qed.

Lemma parse_line_correct_witness :
  wp false (parse_loop (H := boot_kernel) 100 line_lit empty_command 100 1200 parse_fuel 0 line_shell)
    (λ r p', ∃ s' qss, r = Some (2, s') ∧
       parsed_as 0x600000 boot_blocks line_lit (parsed_array s') p'
         (line_spec parse_fuel (tokens [32] pipeline_line)) qss (parsedCommands s') ∧
       added boot_blocks first_array (parsed_array s') (line_prog pipeline_line) p' (concat qss) ∧
       has_array boot_blocks (parsed_array s') p' ∧ fits 2 s' ∧ same_shell line_shell s' ∧
       parsing 0x600000 boot_blocks 100 1200 first_array (parsed_array s') (line_prog pipeline_line) p')
    (line_prog pipeline_line).
Proof.
  apply (parse_line_correct boot_kernel 0x600000 boot_blocks boot_room boot_heap_ok 100 line_lit
    empty_command 100 1200 line_setting (line_prog pipeline_line) line_shell pipeline_line);
    [demo_cstr|by vm_compute|apply line_layout| |done| |by vm_compute; eexists|by vm_compute].
  - refine (bool_decide_eq_true_1 _ _). vm_compute. reflexivity.
  - split; [by vm_compute|]. split; [done|]. by repeat constructor.
Defined.

Lemma line_history : history_setting 0x600000 line_lit 100 1200 10000 30000.
Proof.
  destruct (proj1 (Forall_forall _ _) line_lit_places amp) as [H1 H2];
    [apply elem_of_app; right; by left|]. cbn [length amp] in H2.
  split; unfold in_history, kept, HISTORY_SIZE, MAX_BUFFER_SIZE, MAX_ARGUMENT_SIZE; intros x Hx; lia.
Qed.

Lemma put_text_some l : ∀ (m : mem) a x, is_Some (m !! x) → is_Some (put_text m a l !! x).
Proof.
  induction l as [|c l IH]; intros m a x Hx; cbn [put_text]; apply lookup_insert_is_Some';
    right; [done|by apply IH].
Qed.

Lemma line_readable l : history_readable 30000 (line_prog l).
Proof.
  intros j Hj. unfold line_prog, line_mem. cbn [u_mem]. apply put_text_some.
  induction all_lits as [|s ls IH]; cbn [foldr]; [|by apply put_text_some].
  assert (j ∈ seqZ 0 MAX_BUFFER_SIZE) as Hin by (apply elem_of_seqZ; lia).
  induction (seqZ 0 MAX_BUFFER_SIZE) as [|i js IH]; cbn [foldr]; [by apply elem_of_nil in Hin|].
  apply lookup_insert_is_Some'. apply elem_of_cons in Hin as [-> | Hin]; [by left|right; by apply IH].
Qed.

Definition command_at (i : nat) : Command := nth i commands (Build_Command [] [] 0).

Definition background_line : list Z := chars "loop 5 &".

Lemma pipeline_line_ready : line_ready boot_blocks boot_room line_lit 100 30000
  (line_prog pipeline_line) (set_dim 11 line_shell) pipeline_line.
Proof.
  split; [demo_cstr|by vm_compute|apply line_layout|demo_cstr| |apply line_readable
    |split; [vm_compute; by eexists|by vm_compute]|].
  - refine (bool_decide_eq_true_1 _ _). vm_compute. reflexivity.
  - split; [|done]. split; [by vm_compute|]. split; [done|]. by repeat constructor.
Qed.

Lemma background_line_ready : line_ready boot_blocks boot_room line_lit 100 30000
  (line_prog background_line) (set_dim 8 line_shell) background_line.
Proof.
  split; [demo_cstr|by vm_compute|demo_layout|demo_cstr| |apply line_readable
    |split; [vm_compute; by eexists|by vm_compute]|].
  - refine (bool_decide_eq_true_1 _ _). vm_compute. reflexivity.
  - split; [|done]. split; [by vm_compute|]. split; [done|]. by repeat constructor.
Qed.

(** [loop 5 &] is started with the arguments [loop] and [5] and not waited
    for; the block of [&] stays allocated. *)
Lemma single_line_runs_witness :
  wp false (handle_line (H := boot_kernel) 100 line_lit Z.of_nat empty_command 100 1200 10000 30000 50000
      (set_dim 8 line_shell)) (λ r p', ∃ s' ms qs,
      let argv := line_lit (c_name (command_at 12)) :: take 1 qs in
      r = Some s' ∧ strings 0x600000 p' qs [chars "5"; amp] ∧
      handled boot_blocks 100 (line_prog background_line) (set_dim 8 line_shell) s' p' ms
        (single_calls boot_answers Z.of_nat ([Sys 32 [PARSED_SIZE * 5]] ++ ms) 12 argv true)
        (take 1 qs) (drop 1 qs))
    (line_prog background_line).
Proof.
  eapply (single_line_runs boot_kernel 0x600000 boot_blocks boot_room boot_heap_ok 100 line_lit Z.of_nat
    empty_command 100 1200 10000 30000 50000 boot_answers line_setting boot_quiet line_history
    _ _ background_line 12 (command_at 12) [chars "5"; amp]);
    [apply background_line_ready|done|vm_compute; reflexivity|done].
Defined.

Lemma pipeline_line_runs_witness :
  wp false (handle_line (H := boot_kernel) 100 line_lit Z.of_nat empty_command 100 1200 10000 30000 50000
      (set_dim 11 line_shell)) (λ r p', ∃ s' ms qs1 qs2,
      r = Some s' ∧ strings 0x600000 p' qs1 [chars "hi"] ∧ strings 0x600000 p' qs2 [] ∧
      handled boot_blocks 100 (line_prog pipeline_line) (set_dim 11 line_shell) s' p' ms
        (pipeline_calls boot_answers Z.of_nat ([Sys 32 [PARSED_SIZE * 5]] ++ ms)
           1 (line_lit (c_name (command_at 1)) :: take 1 qs1)
           16 (line_lit (c_name (command_at 16)) :: take 0 qs2) false)
        (take 1 qs1 ++ take 0 qs2) (drop 1 qs1 ++ drop 0 qs2)) (line_prog pipeline_line).
Proof.
  eapply (pipeline_line_runs boot_kernel 0x600000 boot_blocks boot_room boot_heap_ok 100 line_lit Z.of_nat
    empty_command 100 1200 10000 30000 50000 boot_answers line_setting boot_quiet line_history
    _ _ pipeline_line 1 (command_at 1) [chars "hi"] 16 (command_at 16) []);
    [apply pipeline_line_ready|done|vm_compute; reflexivity|done|done].
Defined.
