(* ===== verification/TestMm.v ===== *)
(** * The test of the memory manager ([Userland/Shell/commands/test_mm.c])

    Rounds that ask for blocks of random sizes, fill each with its number,
    check that nothing else was written there, and release them: on a heap
    whose blocks never overlap the check never fails, and a round leaves
    nothing allocated. *)

From S2P Require Import Prelude Strings Monad Numerals UserString UserStdio Libsys Lib Commands.
From S2P Require Import ShellFacts CommandFacts ProgramHeap TestUtil.

Definition MAX_BLOCKS : Z := 128.
Record mm_rq := Mm_rq { address : Z; rq_size : Z }.

Section test.
Context `{Kernel}.
Variables (prec : Z) (fuel : nat) (lit : list Z → Z).
Abbreviation M := (K program).

(** [while (rq < MAX_BLOCKS && total < max_memory)]: the requests, [rq],
    [total] and the generator afterwards. *)
Fixpoint request_loop (n : nat) (max_memory : Z) (mm_rqs : list mm_rq) (rq total : Z) (g : Z * Z)
    : M (list mm_rq * Z * Z * (Z * Z)) :=
  match n with
  | O => diverge
  | S n =>
      if decide (rq < MAX_BLOCKS ∧ total < max_memory) then
        let '(u, g) := GetUniform prec (u32 (max_memory - total - 1)) g in
        let size := u32 (u + 1) in
        a ← allocMemory size;
        let mm_rqs := <[Z.to_nat rq := Mm_rq a size]> mm_rqs in
        if decide (a ≠ NULL) then request_loop n max_memory mm_rqs (u8 (rq + 1)) (u32 (total + size)) g
        else request_loop n max_memory mm_rqs rq total g
      else mret (mm_rqs, rq, total, g)
  end.

(** [for (i = 0; i < rq; i++) if (mm_rqs[i].address)], from [i]. *)
Fixpoint fill_loop (n : nat) (mm_rqs : list mm_rq) (i : Z) : M unit :=
  match n with
  | O => mret tt
  | S n =>
      r ← kopt (mm_rqs !! Z.to_nat i);
      _ ← (if decide (address r ≠ NULL) then
             kmodify (λ p, set_u_mem (memset (u_mem p) (address r) i (rq_size r)).2 p)
           else mret tt);
      fill_loop n mm_rqs (i + 1)
  end.

(** Whether all the blocks hold what they were filled with. *)
Fixpoint check_loop (n : nat) (mm_rqs : list mm_rq) (i : Z) : M bool :=
  match n with
  | O => mret true
  | S n =>
      r ← kopt (mm_rqs !! Z.to_nat i);
      if decide (address r ≠ NULL) then
        ok ← user (λ m, memcheck m (address r) (u8 i) (rq_size r));
        if decide (ok = 0) then mret false else check_loop n mm_rqs (i + 1)
      else check_loop n mm_rqs (i + 1)
  end.

Fixpoint free_loop (n : nat) (mm_rqs : list mm_rq) (i : Z) : M unit :=
  match n with
  | O => mret tt
  | S n =>
      r ← kopt (mm_rqs !! Z.to_nat i);
      _ ← (if decide (address r ≠ NULL) then freeMemory (address r) else mret tt);
      free_loop n mm_rqs (i + 1)
  end.

Definition progress_format : list Z :=
  nl "test_mm: iteration %d completed; requested_blocks=%d total_bytes=%d".

(** A turn of [while (1)], number [count]: what it returns, if it does, or
    the requests and the generator for the next one. *)
Definition test_mm_round (count max_memory : Z) (mm_rqs : list mm_rq) (g : Z * Z)
    : M (Z + list mm_rq * (Z * Z)) :=
  '(mm_rqs, rq, total, g) ← request_loop fuel max_memory mm_rqs 0 0 g;
  _ ← fill_loop (Z.to_nat rq) mm_rqs 0;
  ok ← check_loop (Z.to_nat rq) mm_rqs 0;
  if ok : bool then
    _ ← free_loop (Z.to_nat rq) mm_rqs 0;
    _ ← printf fuel (lit progress_format) [count; rq; i32 total];
    mret (inr (mm_rqs, g))
  else
    _ ← say fuel lit (nl "test_mm ERROR");
    mret (inl (u64 (-1))).

(** [rounds] turns. *)
Fixpoint test_mm_rounds (rounds : nat) (count max_memory : Z) (mm_rqs : list mm_rq) (g : Z * Z) : M Z :=
  match rounds with
  | O => diverge
  | S rounds =>
      count ← kopt (int_ok (count + 1));
      r ← test_mm_round count max_memory mm_rqs g;
      match r with
      | inl r => mret r
      | inr (mm_rqs, g) => test_mm_rounds rounds count max_memory mm_rqs g
      end
  end.

(** [mm_rqs] is not set to anything. *)
Definition _test_mm (rounds : nat) (mm_rqs : list mm_rq) (g : Z * Z) (argc : Z) (argv : list Z) : M Z :=
  if decide (argc ≠ 2) then mret (u64 (-1))
  else
    a ← arg argv 1;
    n ← user (λ m, satoi m a);
    let max_memory := u64 n in
    if decide (max_memory ≤ 0) then mret (u64 (-1))
    else test_mm_rounds rounds 0 max_memory mm_rqs g.
End test.

(** ** A heap whose blocks never overlap *)

Section facts.
Context (k : Kernel) (H : Z) (blocks : list call → gmap Z Z) (room : list call → Z).
Hypothesis Hheap : heap_ok k H blocks room.
Variables (prec : Z) (fuel : nat) (lit : list Z → Z).
Hypothesis Hprec : prec = 53 ∨ prec = 64.
Implicit Types (p : program) (rs rqs : list mm_rq) (r : mm_rq).

Definition inside r (x : Z) : Prop := address r ≤ x < address r + rq_size r.
Definition with_blocks rs (bs : gmap Z Z) : gmap Z Z :=
  foldl (λ bs r, <[address r := rq_size r]> bs) bs rs.

(** From [p0], the blocks [rs] were requested. *)
Record requested p0 p rs : Prop := {
  rq_state : u_mem p = u_mem p0 ∧ u_buffer p = u_buffer p0;
  rq_calls : ∃ cs, u_calls p = u_calls p0 ++ cs ∧ Forall heap_call cs;
  rq_blocks : blocks (u_calls p) = with_blocks rs (blocks (u_calls p0));
  rq_fresh : ∀ j r, rs !! j = Some r →
    0 < address r ∧ H ≤ address r ∧ 0 < rq_size r ∧ blocks (u_calls p0) !! address r = None;
  rq_apart : ∀ i j r1 r2 x, rs !! i = Some r1 → rs !! j = Some r2 → inside r1 x → inside r2 x → i = j;
  rq_room : room (u_calls p0) - zsum rq_size rs - 64 * Z.of_nat (length rs) ≤ room (u_calls p);
}.

Lemma with_blocks_lookup rs : ∀ bs a, (∀ j r, rs !! j = Some r → address r ≠ a) →
  with_blocks rs bs !! a = bs !! a.
Proof.
  induction rs as [|r rs IH]; intros bs a Ha; [done|]. cbn. unfold with_blocks in IH. rewrite IH.
  - apply lookup_insert_ne. by apply (Ha 0%nat).
  - intros j r' Hj. by apply (Ha (S j)).
Qed.

Lemma with_blocks_snoc rs r bs : with_blocks (rs ++ [r]) bs = <[address r := rq_size r]> (with_blocks rs bs).
Proof. unfold with_blocks. by rewrite foldl_app. Qed.

(** A block is still there when another is requested. *)
Lemma with_blocks_member rs bs j r : (∀ i j r1 r2 x, rs !! i = Some r1 → rs !! j = Some r2 →
    inside r1 x → inside r2 x → i = j) → (∀ j r, rs !! j = Some r → 0 < rq_size r) →
  rs !! j = Some r → with_blocks rs bs !! address r = Some (rq_size r).
Proof.
  revert j. induction rs as [|r' rs IH] using rev_ind; intros j Ha Hs Hj; [done|].
  rewrite with_blocks_snoc. apply lookup_app_Some in Hj as [Hj|[Hl Hj]].
  - rewrite lookup_insert_ne.
    + eapply IH; [|intros i' r1 Hi; eapply Hs, lookup_app_l_Some, Hi|exact Hj].
      intros i1 i2 r1 r2 x H1 H2. by apply (Ha i1 i2 r1 r2 x); apply lookup_app_l_Some.
    + intros E. assert (j = length rs) as ->.
      { assert ((rs ++ [r']) !! length rs = Some r') as Hr' by (by rewrite lookup_app_r, Nat.sub_diag).
        pose proof (Hs _ _ Hr'). pose proof (lookup_app_l_Some _ [r'] _ _ Hj) as Hj'.
        pose proof (Hs _ _ Hj'). apply (Ha _ _ _ _ (address r) Hj' Hr'); unfold inside; lia. }
      apply lookup_lt_Some in Hj. lia.
  - apply list_lookup_singleton_Some in Hj as [_ ->]. apply lookup_insert_eq.
Qed.

Lemma requested_more p0 p rs n a : requested p0 p rs → 0 < n → 0 < a → H ≤ a →
  blocks (u_calls p) !! a = None →
  (∀ b l, blocks (u_calls p) !! b = Some l → b + l ≤ a ∨ a + n ≤ b) →
  blocks (u_calls p ++ [Sys 32 [u64 n]]) = <[a := n]> (blocks (u_calls p)) →
  room (u_calls p) - n - 64 ≤ room (u_calls p ++ [Sys 32 [u64 n]]) →
  requested p0 (set_u_calls (u_calls p ++ [Sys 32 [u64 n]]) p) (rs ++ [Mm_rq a n]).
Proof.
  intros [[Hm Hbf] (cs & Ec & Hcs) Hb Hf Hap Hr] Hn Ha HH Hnone Hdis Hb' Hr'.
  assert (∀ j r x, rs !! j = Some r → inside r x → ¬ inside (Mm_rq a n) x) as Hnew.
  { intros j r x Hj Hx Hx'. destruct (Hf j r Hj) as (_ & _ & ? & _).
    destruct (Hdis (address r) (rq_size r)) as [?|?]; unfold inside in *; cbn in *; [|lia..].
    rewrite Hb. eapply with_blocks_member; [done| |exact Hj]. intros j' r' Hj'. by apply (Hf j' r'). }
  split; cbn [u_calls u_mem u_buffer set_u_calls].
  - done.
  - exists (cs ++ [Sys 32 [u64 n]]). rewrite Ec, app_assoc. split; [done|]. apply Forall_app.
    split; [done|]. repeat constructor. exists 32, (u64 n). auto.
  - by rewrite Hb', Hb, with_blocks_snoc.
  - intros j r [Hj|[_ Hj]]%lookup_app_Some; [by apply (Hf j)|].
    apply list_lookup_singleton_Some in Hj as [_ <-]. cbn. split; [done|]. split; [done|]. split; [done|].
    destruct (blocks (u_calls p0) !! a) as [l|] eqn:E; [exfalso|done].
    assert (is_Some (blocks (u_calls p) !! a)) as Hs; [|rewrite Hnone in Hs; by destruct Hs].
    rewrite Hb. clear -E. induction rs as [|r rs IH] using rev_ind; [by exists l|].
    rewrite with_blocks_snoc. apply lookup_insert_is_Some'. by right.
  - intros i j r1 r2 x [Hi|[Hil Hi]]%lookup_app_Some [Hj|[Hjl Hj]]%lookup_app_Some H1 H2.
    + by eapply Hap.
    + apply list_lookup_singleton_Some in Hj as [_ <-]. by destruct (Hnew i r1 x).
    + apply list_lookup_singleton_Some in Hi as [_ <-]. by destruct (Hnew j r2 x).
    + apply list_lookup_singleton_Some in Hi as [? _], Hj as [? _]. lia.
  - rewrite zsum_app, length_app. cbn. lia.
Qed.

(** ** The loops *)

Lemma requested_nil p : requested p p [].
Proof.
  split; try done; [by exists []; rewrite app_nil_r|]. cbn. lia.
Qed.

Lemma wp_request_loop p0 max_memory : 0 < max_memory < 2 ^ 32 →
  max_memory + 64 * (MAX_BLOCKS + 1) ≤ room (u_calls p0) →
  ∀ n p rqs rs g (Q : list mm_rq * Z * Z * (Z * Z) → program → Prop),
  requested p0 p rs → take (length rs) rqs = rs → Z.of_nat (length rqs) = MAX_BLOCKS →
  Z.of_nat (length rs) ≤ MAX_BLOCKS → zsum rq_size rs ≤ max_memory →
  (Z.to_nat MAX_BLOCKS - length rs < n)%nat →
  (∀ p' rqs rs' g', requested p0 p' rs' → take (length rs') rqs = rs' →
     Z.of_nat (length rqs) = MAX_BLOCKS → Z.of_nat (length rs') ≤ MAX_BLOCKS →
     zsum rq_size rs' ≤ max_memory →
     Z.of_nat (length rs') = MAX_BLOCKS ∨ zsum rq_size rs' = max_memory →
     Q (rqs, Z.of_nat (length rs'), zsum rq_size rs', g') p') →
  wp false (request_loop prec n max_memory rqs (Z.of_nat (length rs)) (zsum rq_size rs) g) Q p.
Proof.
  intros Hmax Hroom n. induction n as [|n IH]; intros p rqs rs g Q Hreq Htake Hlen Hle Htot Hn HQ; [lia|].
  cbn [request_loop]. unfold MAX_BLOCKS in *. destruct (decide _) as [[Hlt Hrem]|Hdone].
  2: { wp_step. apply HQ; try done. lia. }
  set (rem := max_memory - zsum rq_size rs - 1). set (u := GetUniform prec (u32 rem) g).
  assert (0 ≤ zsum rq_size rs) as Hz.
  { clear -Hreq. destruct Hreq as [_ _ _ Hf _ _].
    induction rs as [|r rs IH]; [done|]. rewrite zsum_cons. destruct (Hf 0%nat r) as (_ & _ & ? & _); [done|].
    specialize (IH (λ j r' Hj, Hf (S j) r' Hj)). lia. }
  assert (0 ≤ u.1 < Z.max 1 rem) as Hu.
  { pose proof (GetUniform_below prec (u32 rem) g Hprec) as Hu. rewrite wrapu_small in Hu by lia.
    unfold u. rewrite wrapu_small by lia. apply Hu. lia. }
  fold rem. fold u. destruct u as [v g']. cbn [fst] in Hu.
  rewrite (wrapu_small 32 (v + 1)) by lia.
  destruct (hp_malloc _ _ _ _ Hheap (u_calls p) (v + 1) (u_mem p))
    as (a & E & Ha & HaH & Hend & Hnone & Hdis & Hb & Hr); [lia| |].
  { pose proof (rq_room _ _ _ Hreq). lia. }
  unfold allocMemory, sys_ptr. wp_step. wp_step. eapply wp_sysc; [exact E|]. wp_step.
  rewrite (wrapu_small 64 a) by lia. rewrite decide_True by lia.
  set (p1 := Program _ _ _ _).
  assert (requested p0 p1 (rs ++ [Mm_rq a (v + 1)])) as Hreq1 by (apply (requested_more p0 p rs); done || lia).
  assert (length (rs ++ [Mm_rq a (v + 1)]) = S (length rs)) as El by (rewrite length_app; cbn; lia).
  assert (zsum rq_size (rs ++ [Mm_rq a (v + 1)]) = zsum rq_size rs + (v + 1)) as Es
    by (rewrite zsum_app; cbn; lia).
  rewrite wrapu_small by lia. rewrite wrapu_small by lia.
  replace (Z.of_nat (length rs) + 1) with (Z.of_nat (length (rs ++ [Mm_rq a (v + 1)]))) by lia.
  rewrite <-Es, Nat2Z.id. apply IH; try done; try lia.
  - rewrite El, (take_S_r _ _ (Mm_rq a (v + 1))).
    + by rewrite take_insert_ge, Htake by lia.
    + apply list_lookup_insert_eq. lia.
  - by rewrite length_insert.
Qed.

Section filled.
Variables (rqs rs : list mm_rq).
Hypothesis Htake : take (length rs) rqs = rs.
Hypothesis Hshort : Z.of_nat (length rs) ≤ MAX_BLOCKS.
Hypothesis Hfresh : ∀ j r, rs !! j = Some r → 0 < address r ∧ H ≤ address r ∧ 0 < rq_size r.
Hypothesis Hapart : ∀ i j r1 r2 x, rs !! i = Some r1 → rs !! j = Some r2 → inside r1 x → inside r2 x → i = j.

Lemma rqs_lookup i : (i < length rs)%nat → ∃ r, rqs !! i = Some r ∧ rs !! i = Some r.
Proof.
  intros Hi. destruct (lookup_lt_is_Some_2 rs i Hi) as [r Hr]. exists r. split; [|done].
  by rewrite <-(lookup_take_lt _ (length rs)), Htake.
Qed.

(** The first [i] blocks hold their numbers. *)
Definition filled (m : mem) (i : nat) : Prop := ∀ j r x,
  (j < i)%nat → rs !! j = Some r → inside r x → m !! x = Some (Z.of_nat j).

Lemma wp_fill_loop n : ∀ i p (Q : unit → program → Prop), (i + n)%nat = length rs → filled (u_mem p) i →
  (∀ m, filled m (length rs) → (∀ x, x < H → m !! x = u_mem p !! x) →
     Z.of_nat (size m) ≤ Z.of_nat (size (u_mem p)) + zsum rq_size (drop i rs) →
     Q tt (set_u_mem m p)) →
  wp false (fill_loop n rqs (Z.of_nat i)) Q p.
Proof.
  induction n as [|n IH]; intros i p Q Hi Hfill HQ; cbn [fill_loop].
  { wp_step. assert (set_u_mem (u_mem p) p = p) as <- by (by destruct p). apply HQ; [|done|].
    - by replace (length rs) with i by lia.
    - rewrite drop_ge by lia. cbn. lia. }
  destruct (rqs_lookup i) as (r & Hq & Hr); [lia|]. destruct (Hfresh i r Hr) as (H1 & H2 & H3).
  unfold MAX_BLOCKS in *. wp_step. rewrite Nat2Z.id. eapply wp_kopt; [exact Hq|].
  rewrite decide_True by lia. wp_step. wp_step. unfold memset. cbn [snd].
  no_wrap. set (m := memset_loop _ _ _ _).
  assert (∀ x, m !! x = if decide (inside r x) then Some (Z.of_nat i) else u_mem p !! x) as Hm.
  { intros x. unfold m. rewrite memset_loop_spec, Z2Nat.id by lia. done. }
  replace (Z.of_nat i + 1) with (Z.of_nat (S i)) by lia. apply IH; [lia| |].
  - intros j r' x Hj Hr' Hx. cbn [u_mem set_u_mem]. rewrite Hm. case_decide as Hin.
    + f_equal. f_equal. by eapply Hapart.
    + destruct (decide (j = i)) as [->|]; [simplify_eq; done|]. eapply Hfill; [lia|done..].
  - intros m' Hf' Hlow Hsize. cbn [u_mem set_u_mem] in *. apply (HQ m'); [done| |].
    + intros x Hx. rewrite Hlow, Hm by done. rewrite decide_False; [done|]. unfold inside. lia.
    + rewrite (drop_S rs r i Hr), zsum_cons.
      assert ((size m ≤ size (u_mem p) + Z.to_nat (rq_size r))%nat); [|lia].
      eapply (same_but_size (address r)); [lia|]. intros x Hx. rewrite Hm.
      rewrite decide_False; [done|]. unfold inside. lia.
Qed.

Lemma wp_check_loop n : ∀ i p (Q : bool → program → Prop), (i + n)%nat = length rs →
  filled (u_mem p) (length rs) → Q true p → wp false (check_loop n rqs (Z.of_nat i)) Q p.
Proof.
  induction n as [|n IH]; intros i p Q Hi Hfill HQ; cbn [check_loop]; [by wp_step|].
  destruct (rqs_lookup i) as (r & Hq & Hr); [lia|]. destruct (Hfresh i r Hr) as (H1 & H2 & H3).
  unfold MAX_BLOCKS in *. wp_step. rewrite Nat2Z.id. eapply wp_kopt; [exact Hq|].
  rewrite decide_True by lia. wp_step. unfold memcheck.
  assert (∀ j, 0 ≤ j < rq_size r → u_mem p !! (address r + j) = Some (Z.of_nat i)) as Hb.
  { intros j Hj. eapply Hfill; [|exact Hr|unfold inside]; lia. }
  destruct (memcheck_spec (Z.to_nat (rq_size r)) (u_mem p) (u8 (Z.of_nat i)) (address r)) as (v & E & Hv).
  { intros j Hj. rewrite Hb by lia. by eexists. }
  eapply wp_user; [exact E|]. destruct Hv as [[-> _]|[-> (j & b & Hj & Hbj & Hne)]].
  - rewrite decide_False by done. replace (Z.of_nat i + 1) with (Z.of_nat (S i)) by lia.
    apply IH; [lia|done..].
  - exfalso. rewrite Hb in Hbj by lia. by injection Hbj as <-.
Qed.

(** The blocks that are left, from number [i] on. *)
Lemma wp_free_loop n : ∀ i p bs (Q : unit → program → Prop), (i + n)%nat = length rs →
  blocks (u_calls p) = bs → (∀ j r, (i ≤ j)%nat → rs !! j = Some r → is_Some (bs !! address r)) →
  (∀ cs, Forall heap_call cs → blocks (u_calls p ++ cs) =
     foldl (λ bs r, delete (address r) bs) bs (drop i rs) → Q tt (set_u_calls (u_calls p ++ cs) p)) →
  wp false (free_loop n rqs (Z.of_nat i)) Q p.
Proof.
  induction n as [|n IH]; intros i p bs Q Hi Hb Hlive HQ; cbn [free_loop].
  { wp_step. assert (set_u_calls (u_calls p ++ []) p = p) as <- by (rewrite app_nil_r; by destruct p).
    apply HQ; [done|]. by rewrite app_nil_r, drop_ge by lia. }
  destruct (rqs_lookup i) as (r & Hq & Hr); [lia|]. destruct (Hfresh i r Hr) as (H1 & H2 & H3).
  wp_step. rewrite Nat2Z.id. eapply wp_kopt; [exact Hq|]. rewrite decide_True by lia.
  unfold freeMemory, sys_void. wp_step. wp_step.
  destruct (Hlive i r) as [l Hl]; [done..|]. rewrite <-Hb in Hl.
  destruct (hp_free _ _ _ _ Hheap (u_calls p) (address r) l (u_mem p) Hl) as (v & E & Hbf & _).
  eapply wp_sysc; [exact E|]. wp_step. replace (Z.of_nat i + 1) with (Z.of_nat (S i)) by lia.
  eapply IH; [lia|exact Hbf| |].
  { intros j r' Hj Hr'. rewrite Hb, lookup_delete_ne; [apply (Hlive j); [lia|done]|].
    intros E'. assert (i = j); [|lia]. eapply Hapart; [exact Hr|exact Hr'|by split; [done|lia]|].
    destruct (Hfresh j r' Hr') as (_ & _ & ?). unfold inside. lia. }
  intros cs Hcs Hbs. cbn [u_calls] in *. rewrite <-app_assoc in *.
  change (set_u_calls _ _) with (set_u_calls (u_calls p ++ [Sys 33 [address r]] ++ cs) p). apply HQ.
  - constructor; [|done]. exists 33, (address r). auto.
  - rewrite Hbs, (drop_S rs r i Hr). cbn [foldl]. by rewrite Hb.
Qed.
End filled.

Lemma released rs bs : (∀ j r, rs !! j = Some r → bs !! address r = None) →
  foldl (λ bs r, delete (address r) bs) (with_blocks rs bs) rs = bs.
Proof.
  intros Hf. apply map_eq. intros a.
  assert (∀ l (m : gmap Z Z), foldl (λ bs r, delete (address r) bs) m l !! a =
    if decide (a ∈ address <$> l) then None else m !! a) as Hdel.
  { induction l as [|r l IH]; intros m; [done|]. cbn [foldl]. rewrite IH. cbn [fmap list_fmap].
    destruct (decide (a = address r)) as [->|Hne].
    - rewrite lookup_delete_eq. rewrite (decide_True (P := _ ∈ _ :: _)) by (by left). by case_decide.
    - rewrite lookup_delete_ne by done. apply decide_ext. set_solver. }
  rewrite Hdel. case_decide as Hin.
  - apply list_elem_of_fmap in Hin as (r & -> & [j Hj]%list_elem_of_lookup). symmetry. by eapply Hf.
  - apply with_blocks_lookup. intros j r Hj <-. apply Hin, list_elem_of_fmap. exists r. split; [done|].
    apply list_elem_of_lookup. by exists j.
Qed.

Definition progress_text (count rq total : Z) : list Z :=
  chars "test_mm: iteration " ++ number_text 10 count ++ chars " completed; requested_blocks=" ++
  number_text 10 rq ++ chars " total_bytes=" ++ number_text 10 (i32 total) ++ [10].

Definition progress_pieces : list piece :=
  (P_char <$> chars "test_mm: iteration ") ++ P_int 10 ::
  (P_char <$> chars " completed; requested_blocks=") ++ P_int 10 ::
  (P_char <$> chars " total_bytes=") ++ P_int 10 :: (P_char <$> [10]) ++ [].

Lemma progress_prints m count rq total : - 2 ^ 31 < count < 2 ^ 31 → 0 ≤ rq < 2 ^ 31 →
  i32 total ≠ - 2 ^ 31 →
  prints_all m progress_pieces [count; rq; i32 total] (progress_text count rq total).
Proof.
  intros Hc Hr Ht.
  assert (∀ v, - 2 ^ 31 ≤ i32 v < 2 ^ 31) as Hrange.
  { intros v. unfold wraps. pose proof (Z.mod_pos_bound (v + 2 ^ (32 - 1)) (2 ^ 32)). lia. }
  assert (∀ v args ps text, - 2 ^ 31 < v < 2 ^ 31 → prints_all m ps args text →
    prints_all m (P_int 10 :: ps) (v :: args) (number_text 10 v ++ text)) as Hint.
  { intros v args ps text Hv Hps. apply (prints_cons _ _ _ [v]); [|done].
    assert (i32 v = v) as E by (apply wraps_small; lia). rewrite <-E at 2.
    constructor; [set_solver|]. rewrite E. lia. }
  unfold progress_pieces, progress_text.
  apply prints_text; [by repeat constructor|]. apply Hint; [done|].
  apply prints_text; [by repeat constructor|]. apply Hint; [lia|].
  apply prints_text; [by repeat constructor|]. apply Hint; [specialize (Hrange total); lia|].
  rewrite <-(app_nil_r [10]). apply prints_text; [by repeat constructor|constructor].
Qed.

(** C9: A round of the test on a heap whose blocks never overlap never reports an
    error: it requests blocks until there are 128 of them or all the memory
    was asked for, never more of it, finds every block as it filled it, prints
    its progress and leaves nothing allocated. *)
Theorem test_mm_round_passes p count max_memory rqs g
    (Hmax : 0 < max_memory < 2 ^ 31) (Hcount : - 2 ^ 31 < count < 2 ^ 31)
    (Hroom : max_memory + 64 * (MAX_BLOCKS + 1) ≤ room (u_calls p))
    (Hlen : Z.of_nat (length rqs) = MAX_BLOCKS)
    (Hlit : cstr (u_mem p) (lit progress_format) progress_format ∧
       lit progress_format + Z.of_nat (length progress_format) < H)
    (Hbuf : length (u_buffer p) = 64%nat)
    (Hfuel : MAX_BLOCKS < Z.of_nat fuel ∧ Z.of_nat (size (u_mem p)) + max_memory < Z.of_nat fuel) :
  wp false (test_mm_round prec fuel lit count max_memory rqs g) (λ res p', ∃ rqs' g' cs ws n total,
    res = inr (rqs', g') ∧ Z.of_nat (length rqs') = MAX_BLOCKS ∧
    u_calls p' = u_calls p ++ cs ++ (Write FD_STDOUT <$> ws) ∧ Forall heap_call cs ∧
    concat ws = progress_text count n total ∧ total ≤ max_memory ∧
    (n = MAX_BLOCKS ∨ total = max_memory) ∧
    blocks (u_calls p ++ cs) = blocks (u_calls p) ∧
    (∀ x, x < H → u_mem p' !! x = u_mem p !! x)) p.
Proof.
  unfold test_mm_round. wp_step. apply (wp_request_loop p max_memory) with (rs := []);
    [lia|done|apply requested_nil|done|done|cbn; lia|cbn; lia|cbn [length]; lia|].
  intros p1 rqs1 rs g1 Hreq Htake Hlen1 Hle Htot Hfull. pose proof Hreq as
    [[Hm1 Hb1] (cs1 & Ec1 & Hcs1) Hbl Hfresh Hapart _]. cbv beta iota. wp_step. rewrite Nat2Z.id.
  assert (∀ j r, rs !! j = Some r → 0 < address r ∧ H ≤ address r ∧ 0 < rq_size r) as Hfr
    by (intros j r Hj; destruct (Hfresh j r Hj) as (? & ? & ? & _); done).
  apply (wp_fill_loop rqs1 rs Htake Hle Hfr Hapart _ 0%nat); [done|intros j r x Hj; lia|].
  intros m Hfill Hlow Hsize. wp_step.
  apply (wp_check_loop rqs1 rs Htake Hfr _ 0%nat); [done|done|]. wp_step.
  eapply (wp_free_loop rqs1 rs Htake Hfr Hapart _ 0%nat); [done|exact Hbl| |].
  { intros j r _ Hj. rewrite (with_blocks_member rs _ j r Hapart) by (done || intros j' r' Hj'; by destruct (Hfr j' r' Hj') as (_ & _ & ?)).
    by eexists. }
  intros cs2 Hcs2 Hbl2. rewrite (released rs) in Hbl2 by (intros j r Hj; by apply (Hfresh j r Hj)).
  assert (0 ≤ zsum rq_size rs) as Hz.
  { clear -Hfr. induction rs as [|r rs IH]; [done|]. rewrite zsum_cons.
    destruct (Hfr 0%nat r) as (_ & _ & ?); [done|]. specialize (IH (λ j r' Hj, Hfr (S j) r' Hj)). lia. }
  cbn [u_calls u_mem set_u_mem set_u_calls] in *. wp_step.
  eapply (wp_vfprintf _ _ _ progress_pieces _ (progress_text count (Z.of_nat (length rs)) (zsum rq_size rs))).
  - apply progress_prints; [done|unfold MAX_BLOCKS in *; lia|]. no_wrap. lia.
  - destruct Hlit as [Hl Hend]. cbn [u_mem].
    assert (concat (spell <$> progress_pieces) = progress_format) as -> by (by vm_compute).
    eapply cstr_ext; [|exact Hl]. intros x Hx.
    rewrite Hlow, Hm1 by lia. done.
  - cbn [u_buffer set_u_calls set_u_mem]. by rewrite Hb1.
  - cbn [u_mem set_u_calls set_u_mem]. rewrite Hm1, drop_0 in Hsize. lia.
  - intros p2 (Hm2 & _ & _ & ws & Ew & Htext). wp_step.
    exists rqs1, g1, (cs1 ++ cs2), ws, (Z.of_nat (length rs)), (zsum rq_size rs).
    cbn [u_calls u_mem set_u_calls set_u_mem] in *. rewrite Ew, Ec1 in *. rewrite <-!app_assoc in *.
    do 3 (split; [done|]). split; [by apply Forall_app|]. do 4 (split; [done|]).
    intros x Hx. by rewrite Hm2, Hlow, Hm1.
Qed.
End facts.

(** The progress message at [1000]; at most 300 bytes are asked for, on the
    first-fit allocator. *)
Definition mm_lit (s : list Z) : Z := 1000.
Definition mm_prog : program := Program (put_text ∅ 1000 progress_format) number_buffer [] [].

Lemma test_mm_round_passes_witness :
  wp false (test_mm_round (H := heap_kernel) 53 2000 mm_lit 1 300 (replicate 128 (Mm_rq 0 0)) (5, 9))
    (λ res p', ∃ rqs' g' cs ws n total,
      res = inr (rqs', g') ∧ Z.of_nat (length rqs') = MAX_BLOCKS ∧
      u_calls p' = u_calls mm_prog ++ cs ++ (Write FD_STDOUT <$> ws) ∧ Forall heap_call cs ∧
      concat ws = progress_text 1 n total ∧ total ≤ 300 ∧ (n = MAX_BLOCKS ∨ total = 300) ∧
      ff_blocks process_blocks first_heap (u_calls mm_prog ++ cs) = ff_blocks process_blocks first_heap (u_calls mm_prog) ∧
      (∀ x, x < 65536 → u_mem p' !! x = u_mem mm_prog !! x)) mm_prog.
Proof.
  apply (test_mm_round_passes heap_kernel 65536 (ff_blocks process_blocks first_heap)
    (ff_room process_blocks first_heap)
    (ff_kernel_heap 65536 sys_answer _ _ (process_blocks_good 65536) first_heap_good) 53 2000 mm_lit
    (or_introl eq_refl)).
  - lia.
  - lia.
  - by vm_compute.
  - done.
  - split; [demo_cstr|by vm_compute].
  - done.
  - by vm_compute.
Defined.
