(* ===== verification/TestProcesses.v ===== *)
(** * The tests of the processes and of the priorities
      ([Userland/Shell/commands/test_processes.c], [test_prio.c])

    Both create processes and then block, unblock and kill them, or change
    their priorities and wait for them.  What matters is the calls they make:
    [test_processes] never acts on a process in a state that does not allow
    it, and [test_prio] makes the calls of its three stages in order. *)

From S2P Require Import Prelude Strings Monad Numerals UserString UserStdio Libsys Commands CommandFacts.
From S2P Require Import TestUtil Ps.

Section tests.
Context `{Kernel}.
Variables (prec : Z) (fuel : nat) (lit : list Z → Z).
Abbreviation M := (K program).

(** [my_create_process(fn, prio, argv)] with [argv] an array of one null. *)
Definition my_create_process (entry prio : Z) : M Z :=
  createProcess 1 [NULL] entry prio [0; 1; 2] 0.

(** ** [test_prio.c] *)

Definition TOTAL_PROCESSES : Z := 3.
Definition LOWEST : Z := 0.
Definition MEDIUM : Z := 1.
Definition HIGHEST : Z := 3.
Definition prio : list Z := [LOWEST; MEDIUM; HIGHEST].
(** [(2^64) - 1], where [^] is the exclusive or. *)
Definition max_value_init : Z := u64 (Z.lxor 2 64 - 1).

(** [while (value++ != max_value)] *)
Fixpoint zero_loop (n : nat) (value max_value : Z) : option Z :=
  match n with
  | O => None
  | S n => if decide (value ≠ max_value) then zero_loop n (u64 (value + 1)) max_value
           else Some (u64 (value + 1))
  end.
Definition zero_to_max (max_value : Z) : M unit :=
  _ ← kopt (zero_loop (S (Z.to_nat max_value)) 0 max_value);
  pid ← getMyPid;
  printf fuel (lit (nl "PROCESS %d DONE!")) [pid].

(** [for (i = 0; i < TOTAL_PROCESSES; i++)]: create a process and do [each]
    with it and [prio[i]]. *)
Fixpoint create_each (entry : Z) (prios : list Z) (each : Z → Z → M unit) : M (list Z) :=
  match prios with
  | [] => mret []
  | q :: prios =>
      pid ← my_create_process entry 0;
      _ ← each pid q;
      pids ← create_each entry prios each;
      mret (pid :: pids)
  end.
Fixpoint for_each (pids : list Z) (each : Z → M unit) : M unit :=
  match pids with [] => mret tt | pid :: pids => _ ← each pid; for_each pids each end.
Definition wait_each (pids : list Z) : M unit := for_each pids (λ pid, _ ← waitPid pid; mret tt).

Definition new_priority (pid q : Z) : M unit :=
  _ ← setProcessPriority pid q;
  printf fuel (lit (nl "PROCESS %d NEW PRIORITY: %d")) [pid; q].

(** The answer and [max_value] afterwards. *)
Definition _test_prio (zero_to_max max_value argc : Z) (argv : list Z) : M (Z * Z) :=
  _ ← say fuel lit (nl "Empezando test_prio");
  _ ← printf fuel (lit (nl "argc: %d")) [argc];
  if decide (argc ≠ 2) then mret (u64 (-1), max_value)
  else
    a ← arg argv 1;
    n ← user (λ m, satoi m a);
    let max_value := u64 n in
    if decide (max_value ≤ 0) then mret (u64 (-1), max_value)
    else
      _ ← say fuel lit (nl "SAME PRIORITY...");
      pids ← create_each zero_to_max prio (λ _ _, mret tt);
      _ ← wait_each pids;
      _ ← say fuel lit (nl "SAME PRIORITY, THEN CHANGE IT...");
      pids ← create_each zero_to_max prio new_priority;
      _ ← wait_each pids;
      _ ← say fuel lit (nl "SAME PRIORITY, THEN CHANGE IT WHILE BLOCKED...");
      pids ← create_each zero_to_max prio (λ pid q, _ ← blockProcess pid; new_priority pid q);
      _ ← for_each pids (λ pid, _ ← unblockProcess pid; mret tt);
      _ ← wait_each pids;
      mret (0, max_value).

(** ** [test_processes.c] *)

Inductive TEST_PROCESS_STATE := _RUNNING | _BLOCKED | _KILLED.
Record p_rq := P_rq { rq_pid : Z; rq_state : TEST_PROCESS_STATE }.
#[export] Instance test_process_state_eq : EqDecision TEST_PROCESS_STATE.
Proof. solve_decision. Defined.

Definition test_text (s : string) : list Z := nl ("test_processes: " ++ s).

(** Each loop over the requests gives what the command returns, when it
    returns there, or its variables afterwards.  [rq] is one byte. *)
Fixpoint create_loop (n : nat) (max_processes : Z) (p_rqs : list p_rq) (alive rq : Z)
    : M (Z + list p_rq * Z) :=
  match n with
  | O => diverge
  | S n =>
      if decide (rq < max_processes) then
        pid ← my_create_process (lit (chars "endless_loop")) 0;
        _ ← kopt (p_rqs !! Z.to_nat rq);
        if decide (pid = -1) then
          _ ← say fuel lit (test_text "ERROR creating process"); mret (inl (-1))
        else
          let p_rqs := <[Z.to_nat rq := P_rq pid _RUNNING]> p_rqs in
          let alive := u8 (alive + 1) in
          _ ← printf fuel (lit (test_text "created pid=%d (index=%d)")) [pid; rq];
          create_loop n max_processes p_rqs alive (u8 (rq + 1))
      else mret (inr (p_rqs, alive))
  end.

(** A call on process number [rq], announced by [doing]: whether it failed. *)
Definition try (call : Z → M Z) (doing failed : list Z) (pid rq : Z) : M bool :=
  _ ← printf fuel (lit doing) [pid; rq];
  r ← call pid;
  if decide (r = -1) then _ ← printf fuel (lit failed) [pid]; mret false else mret true.

Fixpoint action_loop (n : nat) (max_processes : Z) (p_rqs : list p_rq) (alive rq : Z) (g : Z * Z)
    : M (Z + list p_rq * Z * (Z * Z)) :=
  match n with
  | O => diverge
  | S n =>
      if decide (rq < max_processes) then
        let '(u, g) := GetUniform prec 100 g in
        let action := u8 (u mod 2) in
        r ← kopt (p_rqs !! Z.to_nat rq);
        let pid := rq_pid r in
        if decide (action = 0 ∧ rq_state r ≠ _KILLED) then
          ok ← try killProcess (test_text "killing pid=%d (index=%d)")
                 (test_text "ERROR killing process pid=%d") pid rq;
          if ok : bool then
            let p_rqs := <[Z.to_nat rq := P_rq pid _KILLED]> p_rqs in
            let alive := u8 (alive - 1) in
            _ ← printf fuel (lit (test_text "killed pid=%d, alive=%d")) [pid; alive];
            action_loop n max_processes p_rqs alive (u8 (rq + 1)) g
          else mret (inl (-1))
        else if decide (action = 1 ∧ rq_state r = _RUNNING) then
          ok ← try blockProcess (test_text "blocking pid=%d (index=%d)")
                 (test_text "ERROR blocking process pid=%d") pid rq;
          if ok : bool then
            let p_rqs := <[Z.to_nat rq := P_rq pid _BLOCKED]> p_rqs in
            _ ← printf fuel (lit (test_text "blocked pid=%d")) [pid];
            action_loop n max_processes p_rqs alive (u8 (rq + 1)) g
          else mret (inl (-1))
        else action_loop n max_processes p_rqs alive (u8 (rq + 1)) g
      else mret (inr (p_rqs, alive, g))
  end.

(** The generator is asked only for a blocked process. *)
Fixpoint unblock_loop (n : nat) (max_processes : Z) (p_rqs : list p_rq) (rq : Z) (g : Z * Z)
    : M (Z + list p_rq * (Z * Z)) :=
  match n with
  | O => diverge
  | S n =>
      if decide (rq < max_processes) then
        r ← kopt (p_rqs !! Z.to_nat rq);
        let pid := rq_pid r in
        if decide (rq_state r = _BLOCKED) then
          let '(u, g) := GetUniform prec 100 g in
          if decide (u mod 2 ≠ 0) then
            ok ← try unblockProcess (test_text "unblocking pid=%d (index=%d)")
                   (test_text "ERROR unblocking process pid=%d") pid rq;
            if ok : bool then
              let p_rqs := <[Z.to_nat rq := P_rq pid _RUNNING]> p_rqs in
              _ ← printf fuel (lit (test_text "unblocked pid=%d")) [pid];
              unblock_loop n max_processes p_rqs (u8 (rq + 1)) g
            else mret (inl (-1))
          else unblock_loop n max_processes p_rqs (u8 (rq + 1)) g
        else unblock_loop n max_processes p_rqs (u8 (rq + 1)) g
      else mret (inr (p_rqs, g))
  end.

(** The body of [while (alive > 0)]. *)
Definition test_pass (max_processes : Z) (p_rqs : list p_rq) (alive : Z) (g : Z * Z)
    : M (Z + list p_rq * Z * (Z * Z)) :=
  r ← action_loop 257 max_processes p_rqs alive 0 g;
  match r with
  | inl r => mret (inl r)
  | inr (p_rqs, alive, g) =>
      r ← unblock_loop 257 max_processes p_rqs 0 g;
      match r with
      | inl r => mret (inl r)
      | inr (p_rqs, g) => mret (inr (p_rqs, alive, g))
      end
  end.
Fixpoint test_passes (rounds : nat) (max_processes : Z) (p_rqs : list p_rq) (alive : Z) (g : Z * Z)
    : M (Z + list p_rq * Z * (Z * Z)) :=
  match rounds with
  | O => diverge
  | S rounds =>
      if decide (0 < alive) then
        r ← test_pass max_processes p_rqs alive g;
        match r with
        | inl r => mret (inl r)
        | inr (p_rqs, alive, g) => test_passes rounds max_processes p_rqs alive g
        end
      else mret (inr (p_rqs, alive, g))
  end.

(** [rounds] turns of [while (1)], of at most [rounds] passes each. *)
Fixpoint test_processes_rounds (rounds passes : nat) (iteration max_processes : Z)
    (p_rqs : list p_rq) (alive : Z) (g : Z * Z) : M Z :=
  match rounds with
  | O => diverge
  | S rounds =>
      iteration ← kopt (int_ok (iteration + 1));
      _ ← printf fuel (lit ([10] ++ nl "=== test_processes: iteration %d ===")) [iteration];
      r ← create_loop 257 max_processes p_rqs alive 0;
      match r with
      | inl r => mret r
      | inr (p_rqs, alive) =>
          r ← test_passes passes max_processes p_rqs alive g;
          match r with
          | inl r => mret r
          | inr (p_rqs, alive, g) =>
              _ ← printf fuel (lit (test_text "iteration %d completed, restarting...")) [iteration];
              test_processes_rounds rounds passes iteration max_processes p_rqs alive g
          end
      end
  end.

(** [p_rqs] holds what the stack held. *)
Definition _test_processes (rounds passes : nat) (p_rqs : Z → list p_rq) (g : Z * Z) (argc : Z)
    (argv : list Z) : M Z :=
  if decide (argc = 1) then mret (-1)
  else
    a ← arg argv 1;
    n ← user (λ m, satoi m a);
    let max_processes := u64 n in
    if decide (max_processes ≤ 0) then mret (-1)
    else
      _ ← printf fuel (lit (test_text "starting with max_processes=%u")) [u32 max_processes];
      test_processes_rounds rounds passes 0 max_processes (p_rqs max_processes) 0 g.
End tests.

(** ** Programs and the calls they make

    From a program whose memory is [m0]: what a computation answers and the
    calls it makes, what it prints apart. *)

Definition is_sys (c : call) : bool := match c with Sys _ _ => true | _ => false end.
Definition sys_calls (cs : list call) : list call := List.filter is_sys cs.

Lemma sys_calls_app cs1 cs2 : sys_calls (cs1 ++ cs2) = sys_calls cs1 ++ sys_calls cs2.
Proof. apply List.filter_app. Qed.

(** The formats of the tests: text and [%d]. *)
Fixpoint pieces (l : list Z) : list piece :=
  match l with
  | [] => []
  | c :: l =>
      if decide (c = 37) then match l with [] => [P_char c] | _ :: l => P_int 10 :: pieces l end
      else P_char c :: pieces l
  end.
Definition piece_args (pc : piece) : nat := match pc with P_char _ => 0 | _ => 1 end.
Definition piece_ok (pc : piece) : bool :=
  match pc with P_char c => bool_decide (plain c) | P_int b => bool_decide (b = 10) | _ => false end.
Definition formatted (s : list Z) (n : nat) : bool :=
  bool_decide (concat (spell <$> pieces s) = s) && forallb piece_ok (pieces s) &&
  bool_decide (sum_list (piece_args <$> pieces s) = n).

Definition printable (v : Z) : Prop := - 2 ^ 31 < v < 2 ^ 31.

Lemma pieces_print m ps : ∀ args, forallb piece_ok ps = true →
  sum_list (piece_args <$> ps) = length args → Forall printable args → ∃ text, prints_all m ps args text.
Proof.
  induction ps as [|pc ps IH]; intros args Hok Hn Hargs; cbn [forallb fmap list_fmap sum_list] in *.
  { exists []. constructor. }
  apply andb_true_iff in Hok as [Hpc Hok]. destruct pc; try done; cbn [piece_ok piece_args] in *.
  - apply bool_decide_eq_true in Hpc. destruct (IH args Hok Hn Hargs) as [text Ht].
    eexists. by apply (prints_cons _ _ _ []); [constructor|].
  - apply bool_decide_eq_true in Hpc as ->. destruct args as [|a args]; [done|].
    apply Forall_cons in Hargs as [Ha Hargs]. destruct (IH args) as [text Ht]; [done|cbn in Hn; lia|done|].
    eexists. apply (prints_cons _ _ _ [a]); [|done]. unfold printable in Ha.
    constructor; [set_solver|]. rewrite wraps_small; lia.
Qed.

Section acts.
Context (k : Kernel) (fuel : nat) (lit : list Z → Z) (m0 : mem) (texts : list (list Z)).
Hypothesis Hfuel : (size m0 < fuel)%nat.
Hypothesis Htexts : ∀ s, s ∈ texts → cstr m0 (lit s) s.

(** The kernel answers the calls on processes and leaves the memory alone. *)
Definition answers (ns : list Z) : Prop := ∀ cs n regs, n ∈ ns →
  ∃ r, kernel_answer cs n regs m0 = (r, m0) ∧ printable r.
Hypothesis Hanswers : answers [35; 37; 38; 40; 42; 55].

Definition acts {A} (c : K program A) (R : A → list call → Prop) : Prop :=
  ∀ p (Q : A → program → Prop), on_memory m0 p →
  (∀ a p' cs, on_memory m0 p' → u_calls p' = u_calls p ++ cs → R a (sys_calls cs) → Q a p') →
  wp false c Q p.

Lemma acts_ret {A} (a : A) (R : A → list call → Prop) : R a [] → acts (mret a) R.
Proof. intros Ha p Q Hp HQ. wp_step. apply (HQ a p []); [done|by rewrite app_nil_r|done]. Qed.

Lemma acts_bind {A B} (c : K program A) (f : A → K program B) R1 R :
  acts c R1 → (∀ a s1, R1 a s1 → acts (f a) (λ b s2, R b (s1 ++ s2))) → acts (x ← c; f x) R.
Proof.
  intros Hc Hf p Q Hp HQ. wp_step. apply Hc; [done|]. intros a p1 cs1 Hp1 E1 H1.
  apply (Hf a _ H1); [done|]. intros b p2 cs2 Hp2 E2 H2. apply (HQ b p2 (cs1 ++ cs2)); [done| |].
  - by rewrite E2, E1, app_assoc.
  - by rewrite sys_calls_app.
Qed.

Lemma acts_mono {A} (c : K program A) (R1 R : A → list call → Prop) :
  acts c R1 → (∀ a s, R1 a s → R a s) → acts c R.
Proof.
  intros Hc HR p Q Hp HQ. apply Hc; [done|]. intros a p' cs Hp' E H1.
  by apply (HQ a p' cs); [..|apply HR].
Qed.

Lemma displays_calls cs : Forall display_call cs → sys_calls cs = [].
Proof. induction 1 as [|c cs Hc _ IH]; [done|]. by destruct c. Qed.

(** What prints and answers [r] makes no calls. *)
Lemma acts_quiet {A B} (c : K program A) (f : A → K program B) r t R :
  displays m0 c r t → acts (f r) R → acts (x ← c; f x) R.
Proof.
  intros Hc Hf p Q Hp HQ. wp_step. apply Hc; [done|]. intros p1 [Hp1 (cs & E & Hcs & _)].
  apply Hf; [done|]. intros b p2 cs2 Hp2 E2 HR. apply (HQ b p2 (cs ++ cs2)); [done| |].
  - by rewrite E2, E, app_assoc.
  - by rewrite sys_calls_app, displays_calls.
Qed.

Lemma acts_kopt {A B} (o : option A) (f : A → K program B) a R :
  o = Some a → acts (f a) R → acts (x ← kopt o; f x) R.
Proof. intros E. apply acts_quiet with []. by apply displays_kopt. Qed.

Lemma acts_last {A} (c : K program A) r t (R : A → list call → Prop) :
  displays m0 c r t → R r [] → acts c R.
Proof.
  intros Hc HR p Q Hp HQ. apply Hc; [done|]. intros p1 [Hp1 (cs & E & Hcs & _)].
  apply (HQ r p1 cs); [done..|]. by rewrite displays_calls.
Qed.

Lemma displays_message s args : s ∈ texts → formatted s (length args) = true → Forall printable args →
  ∃ t, displays m0 (printf fuel (lit s) args) tt t.
Proof.
  unfold formatted. rewrite !andb_true_iff, !bool_decide_eq_true. intros Hin ((Hs & Hok) & Hn) Hargs.
  destruct (pieces_print m0 (pieces s) args Hok Hn Hargs) as [t Ht]. exists t.
  apply (displays_printf _ _ Hfuel _ _ _ _ Ht). rewrite Hs. by apply Htexts.
Qed.

Lemma acts_printf {B} s args (f : unit → K program B) R : s ∈ texts → formatted s (length args) = true →
  Forall printable args → acts (f tt) R → acts (x ← printf fuel (lit s) args; f x) R.
Proof.
  intros Hin Hs Hargs. destruct (displays_message s args Hin Hs Hargs) as [t Ht]. by apply (acts_quiet _ _ tt t).
Qed.

Lemma acts_sys n regs : n ∈ [35; 37; 38; 40; 42; 55] →
  acts (sys_int n regs) (λ r s, s = [Sys n regs] ∧ printable r).
Proof.
  clear Hfuel Htexts. intros Hn p Q [Hm Hb] HQ. unfold sys_int. wp_step.
  destruct (Hanswers (u_calls p) n regs Hn) as (r & E & Hr). rewrite <-Hm in E.
  eapply wp_sysc; [exact E|]. wp_step. eapply (HQ _ _ [Sys n regs]); [done|done|].
  split; [done|]. unfold printable in *. rewrite wraps_small; lia.
Qed.

(** A call whose answer is not looked at. *)
Lemma acts_call {B} n regs (f : Z → K program B) R : n ∈ [35; 37; 38; 40; 42; 55] →
  (∀ r, printable r → acts (f r) (λ b s, R b (Sys n regs :: s))) →
  acts (r ← sys_int n regs; f r) R.
Proof.
  intros Hn Hf. eapply acts_bind; [by apply acts_sys|]. intros r s1 [-> Hr]. by apply Hf.
Qed.

Lemma acts_void {B} n regs (f : unit → K program B) R : n ∈ [35; 37; 38; 40; 42; 55] →
  acts (f tt) (λ b s, R b (Sys n regs :: s)) → acts (x ← sys_void n regs; f x) R.
Proof.
  intros Hn Hf. apply (acts_bind _ _ (λ _ s, s = [Sys n regs])); [|by intros [] ? ->].
  intros p Q [Hm Hb] HQ. unfold sys_void. wp_step.
  destruct (Hanswers (u_calls p) n regs Hn) as (r & E & Hr). rewrite <-Hm in E.
  eapply wp_sysc; [exact E|]. wp_step. by eapply (HQ _ _ [Sys n regs]).
Qed.
End acts.

Ltac printables := repeat (apply Forall_nil_2 || (apply Forall_cons_2; [assumption|])).
Ltac call_number := apply list_elem_of_In; cbn; tauto.

(** ** [test_processes] acts on processes whose state allows it *)

Definition number_alive (l : list p_rq) : Z :=
  Z.of_nat (length (List.filter (λ r, bool_decide (rq_state r ≠ _KILLED)) l)).

(** What a call may do to the processes of the test. *)
Inductive move (l : list p_rq) : call → list p_rq → Prop :=
  | move_kill i pid st : l !! i = Some (P_rq pid st) → st ≠ _KILLED →
      move l (Sys 37 [i32 pid]) (<[i := P_rq pid _KILLED]> l)
  | move_block i pid : l !! i = Some (P_rq pid _RUNNING) →
      move l (Sys 40 [i32 pid]) (<[i := P_rq pid _BLOCKED]> l)
  | move_unblock i pid : l !! i = Some (P_rq pid _BLOCKED) →
      move l (Sys 55 [i32 pid]) (<[i := P_rq pid _RUNNING]> l).
Inductive moves : list p_rq → list call → list p_rq → Prop :=
  | moves_nil l : moves l [] l
  | moves_cons l c l' cs l'' : move l c l' → moves l' cs l'' → moves l (c :: cs) l''.

Lemma moves_app l1 cs1 l2 cs2 l3 : moves l1 cs1 l2 → moves l2 cs2 l3 → moves l1 (cs1 ++ cs2) l3.
Proof. intros H1 H2. induction H1; [done|]. cbn. by eapply moves_cons; [|apply IHmoves]. Qed.

Definition alive_one (r : p_rq) : Z := if decide (rq_state r ≠ _KILLED) then 1 else 0.

Lemma number_alive_cons r l : number_alive (r :: l) = alive_one r + number_alive l.
Proof.
  unfold number_alive, alive_one. cbn [List.filter].
  destruct (decide (rq_state r ≠ _KILLED));
    [rewrite bool_decide_true by done; cbn [length]; lia|by rewrite bool_decide_false].
Qed.

Lemma number_alive_insert l : ∀ i r r', l !! i = Some r →
  number_alive (<[i := r']> l) = number_alive l - alive_one r + alive_one r'.
Proof.
  induction l as [|r0 l IH]; intros [|i] r r' Hi; [done..| |].
  - injection Hi as ->. change (<[0%nat := r']> (r :: l)) with (r' :: l). rewrite !number_alive_cons. lia.
  - change (<[S i := r']> (r0 :: l)) with (r0 :: <[i := r']> l).
    rewrite !number_alive_cons, (IH i r r' Hi). lia.
Qed.

Lemma number_alive_bounds l : 0 ≤ number_alive l ≤ Z.of_nat (length l).
Proof.
  induction l as [|r l IH]; [done|]. rewrite number_alive_cons. cbn [length]. unfold alive_one.
  case_decide; lia.
Qed.

(** The processes that are alive never grow in number. *)
Lemma moves_alive l cs l' : moves l cs l' → number_alive l' ≤ number_alive l ∧ length l' = length l ∧
  (Forall printable (rq_pid <$> l) → Forall printable (rq_pid <$> l')).
Proof.
  induction 1 as [l|l c l1 cs l2 Hm _ (IH1 & IH2 & IH3)]; [done|].
  assert (number_alive l1 ≤ number_alive l ∧ length l1 = length l ∧ rq_pid <$> l1 = rq_pid <$> l)
    as (H1 & H2 & H3).
  { assert (∀ i r r', l !! i = Some r → rq_pid r' = rq_pid r →
      alive_one r' ≤ alive_one r → number_alive (<[i := r']> l) ≤ number_alive l ∧
      length (<[i := r']> l) = length l ∧ rq_pid <$> <[i := r']> l = rq_pid <$> l) as Hins.
    { intros i r r' Hi Hp Ha. rewrite (number_alive_insert _ _ _ _ Hi), length_insert. split; [lia|].
      split; [done|]. rewrite list_fmap_insert. apply list_insert_id. by rewrite list_lookup_fmap, Hi, Hp. }
    destruct Hm as [i pid st Hi Hst|i pid Hi|i pid Hi]; eapply Hins; try done.
    unfold alive_one. cbn. repeat case_decide; naive_solver lia. }
  split; [lia|]. split; [congruence|]. by rewrite <-H3.
Qed.

Definition pass_texts : list (list Z) := test_text <$>
  ["killing pid=%d (index=%d)"; "ERROR killing process pid=%d"; "killed pid=%d, alive=%d";
   "blocking pid=%d (index=%d)"; "ERROR blocking process pid=%d"; "blocked pid=%d";
   "unblocking pid=%d (index=%d)"; "ERROR unblocking process pid=%d"; "unblocked pid=%d"].

Section pass.
Context (k : Kernel) (prec : Z) (fuel : nat) (lit : list Z → Z) (m0 : mem).
Hypothesis Hfuel : (size m0 < fuel)%nat.
Hypothesis Htexts : ∀ s, s ∈ pass_texts → cstr m0 (lit s) s.
Hypothesis Hanswers : answers k m0 [35; 37; 38; 40; 42; 55].
Implicit Types (l : list p_rq).

Abbreviation acts := (acts m0).

(** The requests and how many of them are alive. *)
Definition requests (max : Z) l (alive : Z) : Prop :=
  Z.of_nat (length l) = max ∧ max ≤ 255 ∧ Forall printable (rq_pid <$> l) ∧ alive = number_alive l.

Lemma requests_moves max l alive cs l' : requests max l alive → moves l cs l' →
  requests max l' (number_alive l').
Proof.
  intros (H1 & H2 & H3 & _) (_ & Hl & Hp)%moves_alive. split; [by rewrite Hl|]. auto.
Qed.

Ltac message := apply (acts_printf fuel lit m0 pass_texts Hfuel Htexts);
  [unfold pass_texts; apply list_elem_of_In; cbn; tauto|by vm_compute| |].

(** An announced call: it is made, and whether it failed is reported. *)
Lemma acts_try call n doing failed pid rq : (∀ p, call p = sys_int n [i32 p]) →
  n ∈ [35; 37; 38; 40; 42; 55] → doing ∈ pass_texts → failed ∈ pass_texts →
  formatted doing 2 = true → formatted failed 1 = true → printable pid → printable rq →
  acts (try fuel lit call doing failed pid rq) (λ _ s, s = [Sys n [i32 pid]]).
Proof.
  intros Hcall Hn Hd Hf Hd2 Hf1 Hp Hr. unfold try.
  apply (acts_printf fuel lit m0 pass_texts Hfuel Htexts); [done|done|printables|].
  rewrite Hcall. apply (acts_call k m0 Hanswers); [done|]. intros r _. destruct (decide (r = -1)).
  - apply (acts_printf fuel lit m0 pass_texts Hfuel Htexts); [done|done|printables|].
    by apply acts_ret.
  - by apply acts_ret.
Qed.

(** What was done is allowed, and what is known afterwards; a call that
    fails ends the test. *)
Definition after_actions l (res : Z + list p_rq * Z * (Z * Z)) (s : list call) : Prop :=
  ∃ l', moves l s l' ∧
    match res with inl r => r = -1 | inr (l2, alive, _) => l2 = l' ∧ alive = number_alive l' end.

Lemma after_actions_moves l s1 l1 res s2 : moves l s1 l1 → after_actions l1 res s2 →
  after_actions l res (s1 ++ s2).
Proof. intros H1 (l' & H2 & H3). exists l'. split; [by eapply moves_app|done]. Qed.

Lemma acts_action_loop max n : ∀ l alive rq g, requests max l alive → 0 ≤ rq ≤ max →
  (Z.to_nat (max - rq) < n)%nat →
  acts (action_loop prec fuel lit n max l alive rq g) (after_actions l).
Proof.
  induction n as [|n IH]; intros l alive rq g Hl Hrq Hn; [lia|]. cbn [action_loop].
  destruct (decide (rq < max)) as [Hlt|Hge].
  2: { apply acts_ret. exists l. split; [constructor|]. by destruct Hl as (_ & _ & _ & ->). }
  pose proof Hl as (Hlen & Hmax & Hp & Ha). pose proof (number_alive_bounds l) as Hb.
  destruct (GetUniform prec 100 g) as [u g']. assert (u8 (rq + 1) = rq + 1) as -> by (apply wrapu_small; lia).
  destruct (lookup_lt_is_Some_2 l (Z.to_nat rq)) as [[pid st] Hr]; [lia|].
  assert (printable pid) as Hpid.
  { eapply Forall_lookup_1 in Hp; [exact Hp|]. by rewrite list_lookup_fmap, Hr. }
  eapply acts_kopt; [exact Hr|]. cbn [rq_pid rq_state].
  assert (∀ l1 alive1 c, move l c l1 → alive1 = number_alive l1 →
    acts (action_loop prec fuel lit n max l1 alive1 (rq + 1) g') (λ res s, after_actions l res (c :: s)))
    as Hrest.
  { intros l1 alive1 c Hm ->. assert (moves l [c] l1) as Hms by (eapply moves_cons; [exact Hm|constructor]).
    eapply acts_mono; [apply IH; [by eapply requests_moves|lia..]|]. intros res s.
    by apply (after_actions_moves l [c] l1). }
  assert (∀ c l1, move l c l1 → acts (mret (inl (-1))) (λ res s, after_actions l res (c :: s))) as Hfail.
  { intros c l1 Hm. apply acts_ret. exists l1. split; [by eapply moves_cons; [|constructor]|done]. }
  assert (printable rq) as Hrq' by (unfold printable; lia).
  destruct (decide (_ = 0 ∧ _)) as [[_ Hst]|_]; [|destruct (decide (_ = 1 ∧ _)) as [[_ Hst]|_]].
  - eapply acts_bind; [apply (acts_try _ 37); (done || call_number)|]. intros ok s1 ->. cbn [app].
    pose proof (move_kill l _ _ _ Hr Hst) as Hm. destruct ok; [|by eapply Hfail].
    assert (u8 (alive - 1) = number_alive (<[Z.to_nat rq := P_rq pid _KILLED]> l)) as ->.
    { rewrite (number_alive_insert _ _ _ _ Hr). unfold alive_one. cbn [rq_state].
      rewrite decide_True by done. pose proof (number_alive_bounds (<[Z.to_nat rq := P_rq pid _KILLED]> l)) as Hk.
      rewrite (number_alive_insert _ _ _ _ Hr) in Hk. unfold alive_one in Hk. cbn [rq_state] in Hk.
      rewrite decide_True in Hk by done. rewrite !decide_False in * by tauto.
      rewrite wrapu_small; lia. }
    pose proof (requests_moves max l alive [_] _ Hl (moves_cons _ _ _ _ _ Hm (moves_nil _))) as (H1 & _).
    pose proof (number_alive_bounds (<[Z.to_nat rq := P_rq pid _KILLED]> l)).
    message; [|by apply Hrest]. repeat constructor; unfold printable in *; lia.
  - subst st. eapply acts_bind; [apply (acts_try _ 40); (done || call_number)|]. intros ok s1 ->. cbn [app].
    pose proof (move_block l _ _ Hr) as Hm. destruct ok; [|by eapply Hfail].
    message; [printables|]. apply Hrest; [done|].
    rewrite (number_alive_insert _ _ _ _ Hr), Ha. unfold alive_one. cbn [rq_state]. rewrite !decide_True by done. lia.
  - apply IH; [done|lia..].
Qed.

(** Unblocking leaves as many alive. *)
Definition after_unblocks l (res : Z + list p_rq * (Z * Z)) (s : list call) : Prop :=
  ∃ l', moves l s l' ∧ number_alive l' = number_alive l ∧
    match res with inl r => r = -1 | inr (l2, _) => l2 = l' end.

Lemma acts_unblock_loop max n : ∀ l rq g, requests max l (number_alive l) → 0 ≤ rq ≤ max →
  (Z.to_nat (max - rq) < n)%nat →
  acts (unblock_loop prec fuel lit n max l rq g) (after_unblocks l).
Proof.
  induction n as [|n IH]; intros l rq g Hl Hrq Hn; [lia|]. cbn [unblock_loop].
  destruct (decide (rq < max)) as [Hlt|Hge].
  2: { apply acts_ret. exists l. split; [constructor|done]. }
  pose proof Hl as (Hlen & Hmax & Hp & _).
  assert (u8 (rq + 1) = rq + 1) as -> by (apply wrapu_small; lia).
  destruct (lookup_lt_is_Some_2 l (Z.to_nat rq)) as [[pid st] Hr]; [lia|].
  assert (printable pid) as Hpid.
  { eapply Forall_lookup_1 in Hp; [exact Hp|]. by rewrite list_lookup_fmap, Hr. }
  eapply acts_kopt; [exact Hr|]. cbn [rq_pid rq_state].
  destruct (decide (st = _BLOCKED)) as [->|_]; [|apply IH; [done|lia..]].
  destruct (GetUniform prec 100 g) as [u g']. destruct (decide (u mod 2 ≠ 0)); [|apply IH; [done|lia..]].
  assert (printable rq) as Hrq' by (unfold printable; lia).
  eapply acts_bind; [apply (acts_try _ 55); (done || call_number)|]. intros ok s1 ->. cbn [app].
  pose proof (move_unblock l _ _ Hr) as Hm. set (l1 := <[Z.to_nat rq := P_rq pid _RUNNING]> l) in *.
  assert (number_alive l1 = number_alive l) as Ea.
  { unfold l1. rewrite (number_alive_insert _ _ _ _ Hr). unfold alive_one. cbn [rq_state].
    rewrite !decide_True by done. lia. }
  assert (moves l [Sys 55 [i32 pid]] l1) as Hms by (eapply moves_cons; [exact Hm|constructor]).
  destruct ok; [|apply acts_ret; by exists l1].
  message; [printables|].
  eapply acts_mono; [apply IH; [by eapply requests_moves|lia..]|]. intros res s (l2 & Hm2 & Ea2 & Hres).
  exists l2. split; [by apply (moves_app _ [_] l1)|]. split; [congruence|done].
Qed.

(** A pass of the test over at most 255 processes ends, and every call it
    makes is on a process in a state that allows it: what was killed is left
    alone, only what runs is blocked and only what is blocked is unblocked.
    Afterwards the test knows how many processes are left. *)
Theorem test_pass_allowed max l alive g (Hl : requests max l alive) :
  acts (test_pass prec fuel lit max l alive g) (after_actions l).
Proof.
  pose proof Hl as (Hlen & Hmax & _). unfold test_pass.
  eapply acts_bind; [apply acts_action_loop; [done|lia..]|]. intros res s1 (l1 & Hm1 & Hres).
  destruct res as [r|[[l2 alive2] g2]]; [apply acts_ret|destruct Hres as [-> ->]].
  { exists l1. by rewrite app_nil_r. }
  eapply acts_bind; [apply acts_unblock_loop; [by eapply requests_moves|lia..]|].
  intros res s2 (l2 & Hm2 & Ea & Hres). pose proof (moves_app _ _ _ _ _ Hm1 Hm2) as Hm.
  destruct res as [r|[l3 g3]]; apply acts_ret; exists l2; rewrite app_nil_r; [done|].
  split; [done|]. by rewrite Ea.
Qed.
End pass.

(** ** [test_prio] makes the calls of its three stages in order *)

Lemma zero_loop_ends d : ∀ value max, 0 ≤ value → value + Z.of_nat d = max → max < 2 ^ 64 →
  zero_loop (S d) value max = Some (u64 (max + 1)).
Proof.
  induction d as [|d IH]; intros value max Hv Hd Hm; cbn [zero_loop].
  - rewrite decide_False by lia. by replace value with max by lia.
  - rewrite decide_True by lia. no_wrap. apply IH; lia.
Qed.

(** Counting to the maximum ends, after as many turns. *)
Lemma zero_to_max_ends max : 0 ≤ max < 2 ^ 64 →
  zero_loop (S (Z.to_nat max)) 0 max = Some (u64 (max + 1)).
Proof. intros Hm. apply zero_loop_ends; lia. Qed.

(** The exclusive or of the source, not the power. *)
Example max_value_init_is : max_value_init = 65.
Proof. done. Qed.

Definition create_entry (entry : Z) : call := Sys 35 ([1; entry; 0; 0] ++ [0; 1; 2] ++ [NULL]).
Definition wait_for (pid : Z) : call := Sys 42 [i32 pid].
Definition nice_to (pid q : Z) : call := Sys 38 [i32 pid; i32 q].

(** The processes of a stage, and what is done to each when it is created. *)
Definition stage (entry : Z) (pids : list Z) (each : Z → Z → list call) : list call :=
  concat (zip_with (λ pid q, create_entry entry :: each pid q) pids prio).
Definition prio_stages (entry : Z) (s : list call) : Prop := ∃ a b c,
  length a = 3%nat ∧ length b = 3%nat ∧ length c = 3%nat ∧
  s = stage entry a (λ _ _, []) ++ (wait_for <$> a) ++
      stage entry b (λ pid q, [nice_to pid q]) ++ (wait_for <$> b) ++
      stage entry c (λ pid q, [Sys 40 [i32 pid]; nice_to pid q]) ++
      ((λ pid, Sys 55 [i32 pid]) <$> c) ++ (wait_for <$> c).

Definition prio_texts : list (list Z) :=
  [nl "Empezando test_prio"; nl "argc: %d"; nl "SAME PRIORITY..."; nl "SAME PRIORITY, THEN CHANGE IT...";
   nl "SAME PRIORITY, THEN CHANGE IT WHILE BLOCKED..."; nl "PROCESS %d NEW PRIORITY: %d"].

Section prio.
Context (k : Kernel) (fuel : nat) (lit : list Z → Z) (m0 : mem).
Hypothesis Hfuel : (size m0 < fuel)%nat.
Hypothesis Htexts : ∀ s, s ∈ prio_texts → cstr m0 (lit s) s.
Hypothesis Hanswers : answers k m0 [35; 37; 38; 40; 42; 55].

Abbreviation acts := (acts m0).

Lemma acts_create_each entry each extra prios :
  (∀ pid q, printable pid → printable q → acts (each pid q) (λ _ s, s = extra pid q)) →
  Forall printable prios →
  acts (create_each entry prios each) (λ pids s, length pids = length prios ∧ Forall printable pids ∧
    s = concat (zip_with (λ pid q, create_entry entry :: extra pid q) pids prios)).
Proof.
  intros Heach. induction 1 as [|q prios Hq _ IH]; cbn [create_each]; [by apply acts_ret|].
  unfold my_create_process, createProcess. eapply acts_call; [exact Hanswers|call_number|].
  intros pid Hpid. eapply acts_bind; [by apply Heach|]. intros _ s1 ->.
  eapply acts_bind; [exact IH|]. intros pids s2 (Hl & Hp & ->). apply acts_ret.
  split; [cbn; by rewrite Hl|]. split; [by constructor|]. by rewrite app_nil_r.
Qed.

Lemma acts_for_each pids (each : Z → K program unit) f : (∀ pid, acts (each pid) (λ _ s, s = [f pid])) →
  acts (for_each pids each) (λ _ s, s = f <$> pids).
Proof.
  intros Heach. induction pids as [|pid pids IH]; cbn [for_each]; [by apply acts_ret|].
  eapply acts_bind; [apply Heach|]. intros _ s1 ->. eapply acts_mono; [exact IH|]. by intros _ s ->.
Qed.

Lemma acts_wait_each pids : acts (wait_each pids) (λ _ s, s = wait_for <$> pids).
Proof.
  apply acts_for_each. intros pid. unfold waitPid. eapply acts_call; [exact Hanswers|call_number|].
  intros r _. by apply acts_ret.
Qed.

Ltac message := apply (acts_printf fuel lit m0 prio_texts Hfuel Htexts);
  [apply list_elem_of_In; cbn; tauto|by vm_compute|printables|].

Lemma acts_new_priority pid q : printable pid → printable q →
  acts (new_priority fuel lit pid q) (λ _ s, s = [nice_to pid q]).
Proof.
  intros Hp Hq. unfold new_priority, setProcessPriority. eapply acts_void; [exact Hanswers|call_number|].
  destruct (displays_message fuel lit m0 prio_texts Hfuel Htexts (nl "PROCESS %d NEW PRIORITY: %d") [pid; q])
    as [t Ht]; [apply list_elem_of_In; cbn; tauto|by vm_compute|printables|]. by apply (acts_last _ _ tt t).
Qed.

(** The test of the priorities ends and answers 0; whatever the pids the
    kernel gives, it makes exactly the calls of its three stages: three
    processes with the same priority are waited for; three get priorities 0,
    1 and 3 as soon as they are created; three are blocked first, get their
    priorities while blocked, and are unblocked. *)
Theorem test_prio_stages p entry max argv a n (Hp : on_memory m0 p)
    (Ha : argv !! 1%nat = Some a) (Hn : satoi m0 a = Some n) (Hpos : 0 < u64 n) :
  wp false (_test_prio fuel lit entry max 2 argv) (λ r p', r = (0, u64 n) ∧
    ∃ cs, u_calls p' = u_calls p ++ cs ∧ prio_stages entry (sys_calls cs)) p.
Proof.
  assert (acts (_test_prio fuel lit entry max 2 argv) (λ r s, r = (0, u64 n) ∧ prio_stages entry s)) as Hacts.
  { assert (Forall printable prio) as Hprio by (unfold printable; repeat constructor; done).
    assert (printable 2) as H2 by done. unfold _test_prio, say. message. message.
    rewrite decide_False by tauto. unfold arg. eapply acts_kopt; [exact Ha|].
    eapply acts_quiet; [by apply (displays_user m0 (λ m, satoi m a))|]. rewrite decide_False by lia.
    message. eapply acts_bind; [apply (acts_create_each _ _ (λ _ _, [])); [|done]; intros; by apply acts_ret|].
    intros a1 s1 (L1 & _ & ->). eapply acts_bind; [apply acts_wait_each|]. intros _ s2 ->.
    message. eapply acts_bind; [apply (acts_create_each _ _ (λ pid q, [nice_to pid q])); [|done];
      intros; by apply acts_new_priority|].
    intros a2 s3 (L2 & _ & ->). eapply acts_bind; [apply acts_wait_each|]. intros _ s4 ->.
    message. eapply acts_bind; [apply (acts_create_each _ _ (λ pid q, [Sys 40 [i32 pid]; nice_to pid q])); [|done]|].
    { intros pid q Hpid Hq. unfold blockProcess. eapply acts_call; [exact Hanswers|call_number|].
      intros _ _. eapply acts_mono; [by apply acts_new_priority|]. by intros _ s ->. }
    intros a3 s5 (L3 & _ & ->). eapply acts_bind.
    { apply (acts_for_each _ _ (λ pid, Sys 55 [i32 pid])). intros pid. unfold unblockProcess.
      eapply acts_call; [exact Hanswers|call_number|]. intros _ _. by apply acts_ret. }
    intros _ s6 ->. eapply acts_bind; [apply acts_wait_each|]. intros _ s7 ->. apply acts_ret.
    split; [done|]. exists a1, a2, a3. split; [done|]. split; [done|]. split; [done|].
    by rewrite app_nil_r. }
  apply Hacts; [done|]. intros r p' cs _ E [-> Hs]. split; [done|]. by exists cs.
Qed.
End prio.

(** ** Concrete runs *)

Definition tests_lit (s : list Z) : Z :=
  match list_find (s =.) (prio_texts ++ pass_texts) with Some (i, _) => 2000 + 100 * Z.of_nat i | None => 0 end.
(** The parameter is "7". *)
Definition tests_memory : mem :=
  put_text (foldr (λ s m, put_text m (tests_lit s) s) ∅ (prio_texts ++ pass_texts)) 100 (chars "7").
Definition tests_kernel : Kernel := λ cs _ _ m, (Z.of_nat (length (sys_calls cs)) + 2, m).
Definition tests_prog : program := Program tests_memory number_buffer [] [].

Lemma tests_texts s : s ∈ prio_texts ++ pass_texts → cstr tests_memory (tests_lit s) s.
Proof.
  intros Hs. apply list_elem_of_In in Hs.
  repeat (destruct Hs as [<-|Hs]; [demo_cstr|]). destruct Hs.
Qed.

Definition seven_kernel : Kernel := λ _ _ _ m, (7, m).
Lemma tests_answers : answers seven_kernel tests_memory [35; 37; 38; 40; 42; 55].
Proof. intros cs n regs _. by exists 7. Qed.

Lemma tests_size : (size tests_memory < 2000)%nat.
Proof. apply Nat.ltb_lt. by vm_compute. Qed.

Lemma test_prio_stages_witness :
  wp false (_test_prio (H := seven_kernel) 2000 tests_lit 900 65 2 [50; 100]) (λ r p', r = (0, u64 7) ∧
    ∃ cs, u_calls p' = u_calls tests_prog ++ cs ∧ prio_stages 900 (sys_calls cs)) tests_prog.
Proof.
  refine (test_prio_stages seven_kernel 2000 tests_lit tests_memory tests_size _ tests_answers tests_prog
    900 65 [50; 100] 100 7 _ eq_refl _ _).
  - intros s Hs. apply tests_texts, elem_of_app. by left.
  - done.
  - by vm_compute.
  - done.
Defined.

Definition three_running : list p_rq := [P_rq 4 _RUNNING; P_rq 5 _RUNNING; P_rq 6 _RUNNING].

(** A pass over three processes: one is killed, the others are blocked and
    unblocked. *)
Example pass_calls :
  match test_pass (H := tests_kernel) 53 2000 tests_lit 3 three_running 3 rng_init tests_prog with
  | Ret (inr (l, alive, _)) p => Some (rq_state <$> l, alive, sys_calls (u_calls p))
  | _ => None
  end = Some ([_RUNNING; _KILLED; _RUNNING], 2,
    [Sys 40 [4]; Sys 37 [5]; Sys 40 [6]; Sys 55 [4]; Sys 55 [6]]).
Proof. by vm_compute. Qed.

Lemma test_pass_allowed_witness :
  acts tests_memory (test_pass (H := seven_kernel) 53 2000 tests_lit 3 three_running 3 rng_init)
    (after_actions three_running).
Proof.
  refine (test_pass_allowed seven_kernel 53 2000 tests_lit tests_memory tests_size _ tests_answers
    3 three_running 3 rng_init _).
  - intros s Hs. apply tests_texts, elem_of_app. by right.
  - repeat split; [lia|]. repeat constructor; done.
Defined.
